(* ===== verification/_CoqProject ===== *)
-Q . S2P
Prelude.v
Codec.v
Netty.v
GoLib.v
Json.v
Config.v
Router.v
Pb.v
Wire.v
Db.v
Rand.v
Handler.v
Operators.v
Gacha.v
User.v
Interleaving.v
Server.v
RegistryClient.v
Log.v
Regexp.v
Genrpc.v
Registry.v
Main.v
Genproto.v
Fault.v
ClientCall.v
Discovery.v
RegistrySystem.v
RegistryMain.v
Process.v
ProcessRest.v
EndToEnd.v
Framework.v
GachaApp.v
