(* ===== verification/Prelude.v ===== *)
(** * Verification of the RPC framework

    The repository [src/] is an RPC framework: servers written in Go
    ([src/server]), a registry written in Rust ([src/registry]) and a client
    library in Kotlin ([src/client]), which exchange protobuf messages
    ([src/proto]) in length-prefixed frames over TCP.  A server process loads its
    configuration, opens its database, builds its two services and a router,
    registers with the registry, keeps that registration alive, and serves
    requests.  The registry keeps the instances of the services, drops those
    that fall silent and tells its subscribers.  A client subscribes, picks an
    instance and calls it.  This library models the three programs and proves what
    makes their parts, and some of their interplay, correct.

    ** Files, in dependency order, and the code they model

    - [Prelude.v] (this file): results, machine integers, bytes and strings,
      lemmas on lists and on counting, hint databases and tactics.
    - [Codec.v]: [internal/codec/codec.go].  Module [Io] has readers that deliver
      a stream in chunks and writers that fail after any number of bytes; module
      [Codec] has [ReadFrame] and [WriteFrame].
    - [Netty.v]: the frame codec in the pipelines of [network/RpcClient.kt] and
      [registry/RegistryClient.kt]: the class [Netty] has the two handlers of the
      Netty library with their documented behaviour as laws.
    - [GoLib.v], [Json.v], [Rand.v]: the parts of [strconv], [unicode/utf8],
      [encoding/json], [math/rand] and of [float64] that the program uses.
    - [Config.v]: [internal/config/config.go].
    - [Router.v]: [internal/router/router.go].
    - [Pb.v]: the messages of [src/proto] and the class [Message], the
      interface to the protobuf library, with which every theorem is stated;
      [Wire.v]: an instance of it in a simple format, for concrete runs only.
    - [Db.v]: [internal/db/db.go] with SHA-256, the class [Database] (what the
      services rely on of PostgreSQL), and an in-memory instance.
    - [Handler.v]: handlers and the registration code that the template of
      [cmd/genrpc/main.go] produces for the two services.
    - [Operators.v], [Gacha.v], [User.v]: [app/operators.json],
      [app/gacha_service.go], [app/user_service.go].
    - [Interleaving.v]: the methods of the two services again, as programs over
      their database statements and random outputs, and systems of any number of
      requests whose operations interleave.
    - [Server.v]: [handleConnection] of [internal/server/server.go], as a step
      relation on the state of one connection (reading goroutine, one
      goroutine per request, [writeMu], both directions of the connection, the
      services' state), and as a function of the scheduler's choices.
    - [RegistryClient.v]: [internal/registry/client.go].  The methods act on a
      store of connections; [Run], [heartbeatLoop], [readLoop] and [Stop] are a
      step relation over them, and a function of the scheduler's choices.
    - [Log.v]: [internal/log/log.go].
    - [Regexp.v], [Genrpc.v]: a matcher for the regular expressions the code
      generators use, and the generators [cmd/genrpc/main.go] and
      [cmd/genrpc-java/main.go]; [Genproto.v]: [cmd/genproto/main.go].
    - [Registry.v]: the registry, [registry/src/registry/store.rs],
      [registry/src/network/codec.rs] and the handling of a connection in
      [registry/src/network/server.rs], as a function of the list of what
      happens on the connection, changes of the store by others included.
    - [RegistrySystem.v]: all tasks of the registry on the shared store and the
      broadcast channel ([network/server.rs], [registry/health.rs],
      [registry/notifier.rs]), as a function of the interleaving;
      [RegistryMain.v]: [registry/src/config.rs] and [registry/src/main.rs].
    - [Main.v]: [Server.New], [Start] and [Stop], and [cmd/server/main.go].
    - [Fault.v], [ClientCall.v], [Discovery.v]: the client library,
      [fault/FaultTolerance.kt] and [balance/LoadBalancer.kt];
      [network/RpcClient.kt] and [proxy/RpcInvocationHandler.kt], as a step
      relation on calls, channels and futures; [registry/RegistryClient.kt].
    - [Process.v]: the whole server.  Connections of [Server.v], whose request
      goroutines run the programs of [Interleaving.v] on one database.
    - [ProcessRest.v]: the steps of [Process.v] that need no input from outside, a
      bound on them, and what holds when there are none left.
    - [EndToEnd.v]: client and server, and server and registry, connected.
    - [Framework.v]: [RpcFramework.kt] and [scanner/ClassScanner.kt];
      [GachaApp.v]: [app/GachaApp.java], with the parts of [java.lang.String] and
      [java.lang.Float] it uses.

    ** How the model corresponds to the code

    A struct is a record with the same fields, a function or method a
    definition with the same name.  A function that returns a value and an error
    returns [result]; a handler returns an [outcome], which also covers panics and
    handlers that do not return; an exception is a value of [throwable].  State is
    passed explicitly.  Integers are in
    [Z] with their wrap-around written out where the code can overflow
    ([wrap_u32], [wrap_i32], [wrap_i64]).  Go strings are byte strings.
    Goroutines, tasks and threads are program counters, and one step is one
    operation on shared state: taking a mutex, one [Write], one call of a method
    that holds a lock, one operation on a concurrent map.
    In [Server.v] and [Main.v] the handler of a request changes the services'
    state in one step; [Interleaving.v] takes the handlers apart into single
    statements and random outputs, and [Process.v] runs them so.

    Code outside the repository is a parameter with named laws, and has a
    concrete instance: the protobuf library ([Message], [Wire.v]), the frame codec
    of Netty ([Netty], [ref_netty]), the database
    ([Database], module [RefDb]), the outcome of each dial ([dial]), the source
    of random numbers ([rng]), the file system and the environment, the class
    loader, and what the console application's proxies do (class [Services]).

    ** What the theorems show

    - End to end ([EndToEnd.v]): a call of the client library that returns has
      the answer of the server to this very request; a registration passes from
      the Go client to the registry's store and back.
    - The server as a whole ([Process.v]): with any number of connections and all
      statements interleaved, answers are framed and right, every request is
      executed at most once, and the tables hold what was stored.
    - The server between inputs ([ProcessRest.v]): it comes to rest after a bounded
      number of steps in every schedule, and then every frame read on a
      working connection has been answered, unless the response has no serialised
      form; where the protobuf library keeps to what it documents of strings and
      sizes every response that is not too large has one, so that only a panic of a
      method loses a request.
    - Connections ([Server.v]): responses are never interleaved on the wire,
      every frame read is answered at most once and by a correct response, only
      panics and unserialisable responses are lost on a working connection,
      and connections neither deadlock nor run forever.
    - Frames ([Codec.v]): round trip under any chunking, the errors of
      truncated and oversize frames, partial writes.
    - Frames of the client ([Netty.v]): they are those of [Codec.v]; and a defect: the
      client refuses the four greatest lengths that the Go codec allows.
    - Registry client ([RegistryClient.v]): the outcome of [Register] on every
      branch, when a connection is given up, the delays between attempts, one
      reading goroutine at a time, that [Run] ends after [Stop] without waiting for
      the registry; and three defects: a replaced connection is never closed, [Stop]
      misses a connection that is being opened, and a heartbeat interval that is
      not positive ends the process.
    - Registry ([Registry.v], [RegistrySystem.v]): the store refines one map from
      addresses to services and times, the codec agrees with the Go codec on every
      input, a connection that ends in order leaves none of its registrations,
      instances expire exactly when they fall silent, and subscribers converge
      to the store when notifications do not overtake each other; and three
      defects: a connection that ends with an error leaves all of its
      registrations, a cleanup can take down a newer one, and notifications
      that overtake each other leave subscribers with an old list until the next one.
    - Client library ([Fault.v], [ClientCall.v], [Discovery.v]): attempts and delays of
      [execute], calls get their own answers and always end, what the cache and the
      listeners know; and three defects: no failure of a call is ever retried,
      instances of a service without instances stay in the cache, and
      reconnecting threads multiply, which all end after [shutdown].
    - Client framework and application ([Framework.v], [GachaApp.v]): injection
      gives every field the proxy of its type, a session acts only for accounts
      whose password was typed; and three defects: no application is found in a
      jar, the scan of a package finds nothing in a directory, and [quit] needs
      a server that answers.
    - Services ([Gacha.v], [User.v], [Db.v]): what a draw returns and records,
      the exact distribution of rarities and names, accounts and passwords.
    - Concurrent requests ([Interleaving.v]): each program run alone is its method;
      in every interleaving the tables hold what the requests stored, an account
      is created by one registration only, a draw returns the cards it sent, and
      all requests finish.
    - Configuration, routing and process ([Config.v], [Router.v], [Main.v],
      [Log.v]): where every setting comes from, which methods exist, what
      [Start] and [Stop] do, how the process ends, what a log line looks like.
    - Generators ([Genrpc.v], [Main.v], [Genproto.v]): parsing inverts printing of
      service definitions, the imports of the generated file are complete,
      unambiguous, and used exactly if some service has a method, the Java
      interfaces and the Go registrations agree, the router of [main] is the one that
      the generated registrations build, and [protoc] gets the right arguments.

    ** Fuel and bounds

    [read_all] has a fuel of one more than the number of bytes of the stream, and
    every frame takes at least four ([ReadFrame_shorter], [read_loop_fuel]).
    The JSON parser has the length of the document as fuel.  A repetition of a
    regular expression takes at most as many rounds as there are characters,
    since a round that takes nothing is not repeated.  The rejection
    loops of [math/rand] take a fuel that stands for the outputs they may
    reject; the theorems assume a source that is [fair] for that fuel and prove
    that the call then returns.  Between requests that interleave a source can be
    [fair] and still give one of them only rejected outputs, so [requests_finish]
    and [requests_served] count instead ([source_ok]): only the highest 2^42 of the 2^63
    outputs are ever rejected, and of the outputs that the requests can use fewer than
    the fuel are among these.  A request uses at most twenty that are not, so for any
    source in which they are as rare as they should be (one in 2^21) a fuel far smaller
    than the number of requests is enough.  The loop of [execute] runs over its number of
    attempts.  The step relations have no fuel.

    ** Not modelled

    The calls of loggers; [protoc]; the passing of time, except that a ticker may fire at
    any moment, that delays are recorded and that the registry's operations take
    the time as an argument; of Netty everything but its frame codec: a channel may
    become inactive, and a connection be refused, at any time; the registry's locks and
    sockets and the parser of its configuration file; loading and instantiating Java
    classes; a listener of the client's registry cache that is added while a message
    is handled, since nothing adds one. *)

From stdpp Require Export base gmap strings list fin_maps sorting relations pretty.
From Stdlib Require Export ZArith Lia Strings.Ascii.
From Stdlib Require Strings.Byte.


Open Scope Z_scope.

(** ** Results: a Go [(value, error)] pair *)

Inductive result (E A : Type) : Type :=
| Ok (a : A)
| Err (e : E).
Arguments Ok {E A} a.
Arguments Err {E A} e.

#[export] Instance result_ret {E} : MRet (result E) := λ A, Ok.
#[export] Instance result_bind {E} : MBind (result E) :=
  λ A B f r, match r with Ok a => f a | Err e => Err e end.
#[export] Instance result_fmap {E} : FMap (result E) :=
  λ A B f r, match r with Ok a => Ok (f a) | Err e => Err e end.

Definition map_err {E F A} (f : E → F) (r : result E A) : result F A :=
  match r with Ok a => Ok a | Err e => Err (f e) end.

Definition is_ok {E A} (r : result E A) : bool :=
  match r with Ok _ => true | Err _ => false end.

#[export] Instance result_eq_dec {E A} `{EqDecision E, EqDecision A} :
  EqDecision (result E A).
Proof. solve_decision. Defined.

Lemma bind_Ok {E A B} (r : result E A) (f : A → result E B) b :
  (r ≫= f) = Ok b → ∃ a, r = Ok a ∧ f a = Ok b.
Proof. destruct r; simpl; [eauto | discriminate]. Qed.

(** ** Machine integers, kept as [Z] with the wrap-around written out *)

Definition max_int64 : Z := 2 ^ 63 - 1.
Definition min_int64 : Z := - 2 ^ 63.

Definition wrap_u32 (z : Z) : Z := z mod 2 ^ 32.
Definition wrap_u64 (z : Z) : Z := z mod 2 ^ 64.
Definition wrap_i32 (z : Z) : Z := (z + 2 ^ 31) mod 2 ^ 32 - 2 ^ 31.
Definition wrap_i64 (z : Z) : Z := (z + 2 ^ 63) mod 2 ^ 64 - 2 ^ 63.

Definition in_i32 (z : Z) : Prop := - 2 ^ 31 ≤ z < 2 ^ 31.
Definition in_i64 (z : Z) : Prop := - 2 ^ 63 ≤ z < 2 ^ 63.

Lemma wrap_i32_id z : in_i32 z → wrap_i32 z = z.
Proof. unfold in_i32, wrap_i32. intros. rewrite Z.mod_small; lia. Qed.

Lemma wrap_i64_id z : in_i64 z → wrap_i64 z = z.
Proof. unfold in_i64, wrap_i64. intros. rewrite Z.mod_small; lia. Qed.

Lemma wrap_i32_range z : in_i32 (wrap_i32 z).
Proof.
  unfold in_i32, wrap_i32.
  pose proof (Z.mod_pos_bound (z + 2 ^ 31) (2 ^ 32) ltac:(lia)). lia.
Qed.

Lemma wrap_i64_range z : in_i64 (wrap_i64 z).
Proof.
  unfold in_i64, wrap_i64.
  pose proof (Z.mod_pos_bound (z + 2 ^ 63) (2 ^ 64) ltac:(lia)). lia.
Qed.

(** Disjoint bits: an [or] with a shifted word is a sum. *)
Lemma lor_shiftl a b n :
  0 ≤ n → 0 ≤ a < 2 ^ n → Z.lor a (Z.shiftl b n) = a + b * 2 ^ n.
Proof.
  intros Hn Ha. rewrite <- Z.shiftl_mul_pow2 by done.
  assert (Hl : Z.land a (Z.shiftl b n) = 0).
  { apply Z.bits_inj'. intros i Hi. rewrite Z.land_spec, Z.bits_0.
    destruct (Z.lt_ge_cases i n).
    - by rewrite Z.shiftl_spec_low, andb_false_r by done.
    - rewrite <- (Z.mod_small a (2 ^ n)) by done.
      by rewrite Z.mod_pow2_bits_high by lia. }
  by rewrite <- Z.lxor_lor, <- Z.add_nocarry_lxor by done.
Qed.

(** ** Bytes *)

Abbreviation byte := Corelib.Init.Byte.byte.
Abbreviation bytes := (list byte).

#[export] Instance byte_eq_dec : EqDecision byte := Byte.byte_eq_dec.

Definition byte_Z (b : byte) : Z := Z.of_N (Byte.to_N b).

Definition Z_byte (z : Z) : byte :=
  match Byte.of_N (Z.to_N (z mod 256)) with Some b => b | None => Corelib.Init.Byte.x00 end.

Lemma byte_Z_range b : 0 ≤ byte_Z b < 256.
Proof. unfold byte_Z. pose proof (Byte.to_N_bounded b). lia. Qed.

Lemma byte_Z_of_Z z : byte_Z (Z_byte z) = z mod 256.
Proof.
  unfold byte_Z, Z_byte.
  pose proof (Z.mod_pos_bound z 256 ltac:(lia)).
  destruct (Byte.of_N (Z.to_N (z mod 256))) as [b|] eqn:E.
  - apply Byte.to_of_N in E. rewrite E. lia.
  - apply Byte.of_N_None_iff in E. lia.
Qed.

Lemma Z_byte_of_byte b : Z_byte (byte_Z b) = b.
Proof.
  unfold byte_Z, Z_byte.
  pose proof (byte_Z_range b) as Hb; unfold byte_Z in Hb.
  rewrite Z.mod_small by lia. rewrite N2Z.id, Byte.of_to_N. done.
Qed.

#[export] Instance byte_Z_inj : Inj (=) (=) byte_Z.
Proof. intros a b H. by rewrite <- (Z_byte_of_byte a), <- (Z_byte_of_byte b), H. Qed.

(** ** Go strings are byte sequences *)

Definition str_bytes (s : string) : bytes := String.list_byte_of_string s.
Definition bytes_str (b : bytes) : string := String.string_of_list_byte b.

Lemma bytes_str_bytes b : str_bytes (bytes_str b) = b.
Proof. apply String.list_byte_of_string_of_list_byte. Qed.

Lemma str_bytes_str s : bytes_str (str_bytes s) = s.
Proof. apply String.string_of_list_byte_of_string. Qed.

#[export] Instance str_bytes_inj : Inj (=) (=) str_bytes.
Proof. intros a b H. by rewrite <- (str_bytes_str a), <- (str_bytes_str b), H. Qed.

Lemma str_bytes_app a b : str_bytes (a +:+ b) = str_bytes a ++ str_bytes b.
Proof.
  unfold str_bytes, String.list_byte_of_string.
  induction a as [|c a IH]; simpl in *; [done|]. by rewrite IH.
Qed.

Lemma str_bytes_cons c s :
  str_bytes (String c s) = Ascii.byte_of_ascii c :: str_bytes s.
Proof. done. Qed.

(** ** Lists *)

Lemma take_app_exact {A} (l k : list A) n : length l = n → take n (l ++ k) = l.
Proof. intros <-. by rewrite take_app_length. Qed.

Lemma drop_app_exact {A} (l k : list A) n : length l = n → drop n (l ++ k) = k.
Proof. intros <-. by rewrite drop_app_length. Qed.

Lemma app_inv_length {A} (a b c d : list A) :
  length a = length b → a ++ c = b ++ d → a = b ∧ c = d.
Proof. intros Hl H. by apply app_inj_1 in H. Qed.

Lemma omap_cons {A B} (f : A → option B) a l :
  omap f (a :: l) = match f a with Some b => b :: omap f l | None => omap f l end.
Proof. done. Qed.

(** The last value a partial function finds in a list, with a default. *)
Lemma last_omap_cons {A B} (f : A → option B) a l d :
  default (default d (f a)) (last (omap f l)) = default d (last (omap f (a :: l))).
Proof.
  rewrite omap_cons. destruct (f a) as [b|]; [|done]. rewrite last_cons.
  by destruct (last (omap f l)).
Qed.

(** A predicate on the elements that separates two lists at the first element
    satisfying it. *)
Lemma split_first_unique {A} (P : A → Prop) (l1 l2 k1 k2 : list A) x y :
  Forall (λ a, ¬ P a) l1 → Forall (λ a, ¬ P a) l2 → P x → P y →
  l1 ++ x :: k1 = l2 ++ y :: k2 → l1 = l2 ∧ x = y ∧ k1 = k2.
Proof.
  intros H1. revert l2. induction H1 as [|a l1 Ha _ IH]; intros [|b l2] H2 Hx Hy E;
    apply Forall_cons in H2 || clear H2; simplify_eq/=.
  - done.
  - by destruct H2.
  - done.
  - destruct H2 as [_ H2]. destruct (IH l2 H2 Hx Hy) as (-> & -> & ->); done.
Qed.

(** The sum over a list of which one element is replaced. *)
Lemma sum_list_with_insert {A} (f : A → nat) (l : list A) i x y :
  l !! i = Some x → (sum_list_with f (<[i := y]> l) + f x = sum_list_with f l + f y)%nat.
Proof.
  revert i. induction l as [|z l IH]; intros [|i] Hi; simplify_eq/=; [lia|]. specialize (IH i Hi). lia.
Qed.

(** Every element satisfies a property, or one of them gives [Q]. *)
Lemma Forall_or_lookup {A} (P : A → Prop) (Q : Prop) (l : list A) :
  (∀ i x, l !! i = Some x → Q ∨ P x) → Q ∨ Forall P l.
Proof.
  induction l as [|x l IH]; intros H; [by right; constructor|].
  destruct (H 0%nat x eq_refl) as [?|Hx]; [by left|].
  destruct IH as [?|?]; [intros i y Hi; by apply (H (S i))|by left|right; by constructor].
Qed.

(** ** Counting, for arguments about multisets *)

Section count.
Context {A : Type} `{EqDecision A}.

Definition cnt (x : A) (l : list A) : nat := count_occ (λ x y, decide (x = y)) l x.

#[global] Arguments cnt : simpl never.

Lemma cnt_nil x : cnt x [] = 0%nat.
Proof. done. Qed.
Lemma cnt_app x l k : cnt x (l ++ k) = (cnt x l + cnt x k)%nat.
Proof. apply count_occ_app. Qed.
Lemma cnt_cons x y l : cnt x (y :: l) = (cnt x [y] + cnt x l)%nat.
Proof. apply (cnt_app x [y] l). Qed.
Lemma Permutation_cnt l k : l ≡ₚ k ↔ ∀ x, cnt x l = cnt x k.
Proof. apply Permutation_count_occ. Qed.

(** Replacing one element of a list changes the values found in it accordingly. *)
Lemma cnt_omap_insert {B} (f : B → option A) (l : list B) i t t' x :
  l !! i = Some t →
  (cnt x (omap f (<[i := t']> l)) + cnt x (option_list (f t))
   = cnt x (omap f l) + cnt x (option_list (f t')))%nat.
Proof.
  revert i. induction l as [|b l IH]; intros [|i] H; [done..| |].
  - injection H as ->. change (<[0%nat := t']> (t :: l)) with (t' :: l). rewrite !omap_cons.
    destruct (f t), (f t'); simpl; repeat rewrite (cnt_cons x _ (omap f l));
      rewrite ?cnt_nil; lia.
  - change (<[S i := t']> (b :: l)) with (b :: <[i := t']> l). rewrite !omap_cons.
    specialize (IH i H). destruct (f b) as [a|]; [|done].
    rewrite (cnt_cons x a (omap f l)), (cnt_cons x a (omap f (<[i := t']> l))). lia.
Qed.

End count.

(** Nothing is found in a list in which nothing can be found. *)
Lemma omap_nil_iff {A B} (f : A → option B) l :
  omap f l = [] ↔ ∀ i a, l !! i = Some a → f a = None.
Proof.
  split.
  - intros H i a Hi. destruct (f a) as [b|] eqn:E; [|done].
    assert (b ∈ omap f l) as Hin; [|by rewrite H in Hin; apply not_elem_of_nil in Hin].
    apply list_elem_of_omap. exists a. split; [by eapply list_elem_of_lookup_2|done].
  - induction l as [|a l IH]; intros H; [done|]. rewrite omap_cons, (H 0%nat a eq_refl).
    apply IH. intros i b Hi. by apply (H (S i)).
Qed.

(** ** Automation *)

#[global] Arguments Nat.leb : simpl never.
#[global] Arguments Nat.ltb : simpl never.
#[global] Arguments take : simpl nomatch.
#[global] Arguments drop : simpl nomatch.

Create HintDb rpc discriminated.
Create Rewrite HintDb rpclen.

#[export] Hint Resolve byte_Z_range wrap_i32_range wrap_i64_range : rpc.
#[export] Hint Rewrite @length_app @length_take @length_drop @length_fmap
  @length_nil @length_cons : rpclen.

(** Lengths: push [length] through and finish with [lia]. *)
Ltac list_lia := autorewrite with rpclen in *; simpl in *; lia.

(** Split every conjunction and existential of the context. *)
Ltac split_hyps :=
  repeat match goal with
  | H : _ ∧ _ |- _ => destruct H
  | H : ∃ _, _ |- _ => destruct H
  end.

(** Case analysis on a [match] of the goal or of a hypothesis, then equations. *)
Ltac case_all := repeat (case_match; simplify_eq/=).
