(* ===== verification/Codec.v ===== *)
(** * Frame codec: [src/server/internal/codec/codec.go]

    A frame is a 4-byte big-endian length followed by that many bytes.  The
    file models the two functions of the package over the parts of [io] and
    [encoding/binary] they use: a reader that delivers the stream in arbitrary
    chunks ([io.Reader], [io.ReadFull]) and a writer that may fail after any
    number of bytes ([io.Writer]). *)

From S2P Require Import Prelude.

Module Io.

(** The errors a read or a write reports: the two sentinels of package [io]
    and any other error of the connection, by its text. *)
Inductive io_error : Type :=
| EOF
| ErrUnexpectedEOF
| IoErr (msg : string).

#[export] Instance io_error_eq_dec : EqDecision io_error.
Proof. solve_decision. Defined.

(** An [io.Reader]: the chunks that successive calls of [Read] deliver, and the
    error of every call after the last chunk. *)
Record reader : Type := Reader { chunks : list bytes; read_err : io_error }.

(** The bytes a reader will deliver, in order. *)
Definition stream (r : reader) : bytes := mjoin (chunks r).

(** [io.ReadFull]: the loop of [ReadAtLeast] over the chunks, [want] bytes still
    to read and [acc] read so far. *)
Fixpoint ReadFull_loop (want : nat) (acc : bytes) (cs : list bytes) (e : io_error)
    : result io_error bytes * list bytes :=
  match want with
  | O => (Ok acc, cs)
  | S _ =>
    match cs with
    | [] =>
      (Err (match acc, e with _ :: _, EOF => ErrUnexpectedEOF | _, _ => e end), [])
    | c :: cs' =>
      if (length c <=? want)%nat
      then ReadFull_loop (want - length c) (acc ++ c) cs' e
      else (Ok (acc ++ take want c), drop want c :: cs')
    end
  end.

Definition ReadFull (n : nat) (r : reader) : result io_error bytes * reader :=
  let '(res, cs) := ReadFull_loop n [] (chunks r) (read_err r) in
  (res, Reader cs (read_err r)).

(** An [io.Writer]: the bytes accepted so far and, when it is going to fail, how
    many more bytes it accepts and the error it then reports.  A [Write] that
    returns fewer bytes than it was given returns an error. *)
Record writer : Type := Writer { sent : bytes; fails : option (nat * io_error) }.

Definition Write (p : bytes) (w : writer) : result io_error unit * writer :=
  match fails w with
  | None => (Ok tt, Writer (sent w ++ p) None)
  | Some (n, e) =>
    if (length p <=? n)%nat
    then (Ok tt, Writer (sent w ++ p) (Some ((n - length p)%nat, e)))
    else (Err e, Writer (sent w ++ take n p) (Some (0%nat, e)))
  end.

(** *** The reader is determined by its stream *)

(** [ReadFull] on a flat stream, the reference for the chunked loop. *)
Definition ReadFull_flat (n : nat) (s : bytes) (e : io_error)
    : result io_error bytes * bytes :=
  if (n <=? length s)%nat then (Ok (take n s), drop n s)
  else (Err (match s, e with _ :: _, EOF => ErrUnexpectedEOF | _, _ => e end), []).

Lemma ReadFull_loop_flat cs e : ∀ want acc,
  let '(res, cs') := ReadFull_loop want acc cs e in
  if (want <=? length (mjoin cs))%nat
  then res = Ok (acc ++ take want (mjoin cs)) ∧ mjoin cs' = drop want (mjoin cs)
  else res = Err (match acc ++ mjoin cs, e with
                  | _ :: _, EOF => ErrUnexpectedEOF | _, _ => e end) ∧ cs' = [].
Proof.
  induction cs as [|c cs IH]; intros [|want] acc; simpl; rewrite ?app_nil_r; try done.
  destruct (Nat.leb_spec (length c) (S want)).
  - specialize (IH (S want - length c)%nat (acc ++ c)).
    destruct ReadFull_loop as [res cs'].
    rewrite (length_app c). rewrite <- !app_assoc in IH.
    destruct (Nat.leb_spec (S want - length c) (length (mjoin cs))),
      (Nat.leb_spec (S want) (length c + length (mjoin cs))); try lia; [|done].
    destruct IH as [-> ->].
    rewrite (take_app_ge c), (drop_app_ge c) by lia. done.
  - rewrite length_app. destruct (Nat.leb_spec (S want) (length c + length (mjoin cs))); [|lia].
    rewrite (take_app_le c), (drop_app_le c) by lia. done.
Qed.

Lemma ReadFull_stream n r :
  (ReadFull n r).1 = (ReadFull_flat n (stream r) (read_err r)).1 ∧
  stream (ReadFull n r).2 = (ReadFull_flat n (stream r) (read_err r)).2 ∧
  read_err (ReadFull n r).2 = read_err r.
Proof.
  unfold ReadFull, ReadFull_flat, stream.
  pose proof (ReadFull_loop_flat (chunks r) (read_err r) n []) as H.
  destruct ReadFull_loop as [res cs']; simpl in *.
  destruct (Nat.leb_spec n (length (mjoin (chunks r)))); by destruct H as [-> ->].
Qed.

Lemma ReadFull_ok n r :
  (n ≤ length (stream r))%nat →
  ∃ r', ReadFull n r = (Ok (take n (stream r)), r') ∧
        stream r' = drop n (stream r) ∧ read_err r' = read_err r.
Proof.
  intros Hn. destruct (ReadFull_stream n r) as (H1 & H2 & H3).
  unfold ReadFull_flat in *. rewrite (proj2 (Nat.leb_le _ _) Hn) in *.
  destruct (ReadFull n r) as [res r']; simpl in *. subst res. eauto.
Qed.

Lemma ReadFull_short n r :
  (length (stream r) < n)%nat →
  ∃ r', ReadFull n r =
        (Err (match stream r, read_err r with
              | _ :: _, EOF => ErrUnexpectedEOF | _, _ => read_err r end), r') ∧
        stream r' = [] ∧ read_err r' = read_err r.
Proof.
  intros Hn. destruct (ReadFull_stream n r) as (H1 & H2 & H3).
  unfold ReadFull_flat in *. rewrite (proj2 (Nat.leb_gt _ _) Hn) in *.
  destruct (ReadFull n r) as [res r']; simpl in *. subst res. eauto.
Qed.

End Io.

Module Codec.
Import Io.

(** ** [encoding/binary.BigEndian] on 4 bytes *)

Definition Uint32 (b : bytes) : Z :=
  match b with
  | [b0; b1; b2; b3] =>
    Z.lor (byte_Z b3)
      (Z.lor (Z.shiftl (byte_Z b2) 8)
        (Z.lor (Z.shiftl (byte_Z b1) 16) (Z.shiftl (byte_Z b0) 24)))
  | _ => 0
  end.

Definition PutUint32 (v : Z) : bytes :=
  [Z_byte (Z.shiftr v 24); Z_byte (Z.shiftr v 16); Z_byte (Z.shiftr v 8); Z_byte v].

(** ** The package *)

Definition max_frame : Z := 16 * 1024 * 1024.

Inductive codec_error : Type :=
| ErrFrameTooLarge
| CodecIo (e : io_error).

#[export] Instance codec_error_eq_dec : EqDecision codec_error.
Proof. solve_decision. Defined.

Definition ReadFrame (r : reader) : result codec_error bytes * reader :=
  match ReadFull 4 r with
  | (Err e, r1) => (Err (CodecIo e), r1)
  | (Ok header, r1) =>
    let len := Uint32 header in
    if max_frame <? len then (Err ErrFrameTooLarge, r1)
    else match ReadFull (Z.to_nat len) r1 with
         | (Err e, r2) => (Err (CodecIo e), r2)
         | (Ok data, r2) => (Ok data, r2)
         end
  end.

Definition frame_header (data : bytes) : bytes :=
  PutUint32 (wrap_u32 (Z.of_nat (length data))).

Definition WriteFrame (data : bytes) (w : writer) : result io_error unit * writer :=
  match Write (frame_header data) w with
  | (Err e, w1) => (Err e, w1)
  | (Ok _, w1) => Write data w1
  end.

(** The bytes one frame occupies on the wire. *)
Definition frame (data : bytes) : bytes := frame_header data ++ data.

Definition fits (data : bytes) : Prop := Z.of_nat (length data) ≤ max_frame.

(** ** Big-endian words *)

Lemma Uint32_combine b0 b1 b2 b3 :
  Uint32 [b0; b1; b2; b3]
  = byte_Z b0 * 2 ^ 24 + byte_Z b1 * 2 ^ 16 + byte_Z b2 * 2 ^ 8 + byte_Z b3.
Proof.
  unfold Uint32.
  pose proof (byte_Z_range b0); pose proof (byte_Z_range b1).
  pose proof (byte_Z_range b2); pose proof (byte_Z_range b3).
  replace 24 with (8 + 16) at 1 by done. replace 16 with (8 + 8) at 1 by done.
  rewrite <- (Z.shiftl_shiftl (byte_Z b0) 8 16), <- (Z.shiftl_shiftl (byte_Z b1) 8 8) by lia.
  replace 16 with (8 + 8) at 1 by done.
  rewrite <- (Z.shiftl_shiftl (Z.shiftl (byte_Z b0) 8) 8 8), <- !Z.shiftl_lor by lia.
  rewrite !lor_shiftl by lia. lia.
Qed.

Lemma Uint32_range h : 0 ≤ Uint32 h < 2 ^ 32.
Proof.
  unfold Uint32 at 1 2. destruct h as [|b0 [|b1 [|b2 [|b3 [|]]]]]; try lia.
  change (Z.lor _ _) with (Uint32 [b0; b1; b2; b3]). rewrite Uint32_combine.
  pose proof (byte_Z_range b0); pose proof (byte_Z_range b1).
  pose proof (byte_Z_range b2); pose proof (byte_Z_range b3). lia.
Qed.

Lemma Uint32_PutUint32 v : Uint32 (PutUint32 v) = wrap_u32 v.
Proof.
  unfold PutUint32. rewrite Uint32_combine, !byte_Z_of_Z, !Z.shiftr_div_pow2 by lia.
  unfold wrap_u32. Z.div_mod_to_equations. lia.
Qed.

Lemma wrap_u32_length (data : bytes) :
  fits data → wrap_u32 (Z.of_nat (length data)) = Z.of_nat (length data).
Proof. unfold fits, max_frame, wrap_u32. intros. rewrite Z.mod_small; lia. Qed.

Lemma Uint32_frame_header data :
  fits data → Uint32 (frame_header data) = Z.of_nat (length data).
Proof.
  intros. unfold frame_header. by rewrite Uint32_PutUint32, !wrap_u32_length.
Qed.

Lemma length_frame data : length (frame data) = (4 + length data)%nat.
Proof. done. Qed.

(** ** [ReadFrame] on a flat stream *)

Definition short_err (s : bytes) (e : io_error) : io_error :=
  match s, e with _ :: _, EOF => ErrUnexpectedEOF | _, _ => e end.

Definition parse_frame (s : bytes) (e : io_error) : result codec_error bytes * bytes :=
  if (length s <? 4)%nat then (Err (CodecIo (short_err s e)), [])
  else
    let len := Uint32 (take 4 s) in
    let body := drop 4 s in
    if max_frame <? len then (Err ErrFrameTooLarge, body)
    else if (length body <? Z.to_nat len)%nat
    then (Err (CodecIo (short_err body e)), [])
    else (Ok (take (Z.to_nat len) body), drop (Z.to_nat len) body).

Lemma ReadFrame_parse r :
  ∃ r', ReadFrame r = ((parse_frame (stream r) (read_err r)).1, r') ∧
        stream r' = (parse_frame (stream r) (read_err r)).2 ∧ read_err r' = read_err r.
Proof.
  unfold ReadFrame, parse_frame.
  destruct (Nat.ltb_spec (length (stream r)) 4) as [Hlt|Hge].
  - destruct (ReadFull_short 4 r Hlt) as (r1 & -> & ? & ?). eauto.
  - destruct (ReadFull_ok 4 r Hge) as (r1 & -> & Hs1 & He1).
    destruct (max_frame <? _) eqn:Hmax; simpl; [eauto|].
    rewrite <- Hs1. set (n := Z.to_nat _).
    destruct (Nat.ltb_spec (length (stream r1)) n) as [Hlt|Hge'].
    + destruct (ReadFull_short n r1 Hlt) as (r2 & -> & ? & ?).
      rewrite He1 in *. eauto.
    + destruct (ReadFull_ok n r1 Hge') as (r2 & -> & ? & ?). eexists; split_and!; [done..|]. congruence.
Qed.

Lemma parse_frame_frame data rest e :
  fits data → parse_frame (frame data ++ rest) e = (Ok data, rest).
Proof.
  intros Hfit. unfold parse_frame.
  replace (length (frame data ++ rest) <? 4)%nat with false
    by (symmetry; apply Nat.ltb_ge; rewrite length_app, length_frame; lia).
  unfold frame. rewrite <- app_assoc.
  rewrite take_app_exact, drop_app_exact by done.
  rewrite Uint32_frame_header by done.
  unfold fits in Hfit. destruct (Z.ltb_spec max_frame (Z.of_nat (length data))); [lia|].
  rewrite Nat2Z.id.
  destruct (Nat.ltb_spec (length (data ++ rest)) (length data)); [list_lia|].
  by rewrite take_app_exact, drop_app_exact.
Qed.

(** A proper prefix of a frame. *)
Lemma parse_frame_truncated data n :
  fits data → (n < length (frame data))%nat →
  (parse_frame (take n (frame data)) EOF).1 =
  Err (CodecIo (if decide (n = 0 ∨ n = 4)%nat then EOF else ErrUnexpectedEOF)).
Proof.
  intros Hfit Hn. rewrite length_frame in Hn. unfold parse_frame.
  rewrite length_take, length_frame, Nat.min_l by lia.
  destruct (Nat.ltb_spec n 4) as [Hlt|Hge].
  - destruct n as [|n]; [done|]. rewrite decide_False by lia. done.
  - unfold frame. rewrite take_app_ge by done.
    rewrite (take_app_exact (frame_header data)), (drop_app_exact (frame_header data)) by done.
    rewrite Uint32_frame_header by done.
    unfold fits in Hfit. destruct (Z.ltb_spec max_frame (Z.of_nat (length data))); [lia|].
    rewrite Nat2Z.id, length_take. change (length (frame_header data)) with 4%nat.
    destruct (Nat.ltb_spec ((n - 4) `min` length data) (length data)); [|lia].
    simpl. destruct (decide (n = 4)%nat) as [->|Hne].
    + rewrite decide_True by lia. done.
    + rewrite decide_False by lia. destruct data as [|b data]; [simpl in *; lia|].
      destruct (n - 4)%nat eqn:E; [lia|]. done.
Qed.

(** ** Writing *)

Lemma Write_ok p w : fails w = None → Write p w = (Ok tt, Writer (sent w ++ p) None).
Proof. intros H. unfold Write. by rewrite H. Qed.

Lemma WriteFrame_ok data w :
  fails w = None → WriteFrame data w = (Ok tt, Writer (sent w ++ frame data) None).
Proof.
  intros H. unfold WriteFrame, frame. rewrite (Write_ok _ _ H), Write_ok by done.
  simpl. by rewrite <- app_assoc.
Qed.

(** Writing a list of messages, one [WriteFrame] after the other. *)
Fixpoint WriteFrames (ds : list bytes) (w : writer) : result io_error unit * writer :=
  match ds with
  | [] => (Ok tt, w)
  | d :: ds =>
    match WriteFrame d w with
    | (Err e, w1) => (Err e, w1)
    | (Ok _, w1) => WriteFrames ds w1
    end
  end.

(** The read loop of a connection: [ReadFrame] until it reports an error.  Every
    frame consumes at least its 4 header bytes, so a fuel of one more than the
    number of bytes left is enough. *)
Fixpoint read_loop (fuel : nat) (r : reader) : list bytes * option codec_error :=
  match fuel with
  | O => ([], None)
  | S fuel =>
    match ReadFrame r with
    | (Err e, _) => ([], Some e)
    | (Ok d, r') => let '(ds, e) := read_loop fuel r' in (d :: ds, e)
    end
  end.

Definition read_all (r : reader) : list bytes * option codec_error :=
  read_loop (S (length (stream r))) r.

Lemma WriteFrames_ok ds w :
  fails w = None →
  WriteFrames ds w = (Ok tt, Writer (sent w ++ mjoin (frame <$> ds)) None).
Proof.
  revert w. induction ds as [|d ds IH]; intros w H; simpl.
  - rewrite app_nil_r. by destruct w; simpl in *; subst.
  - rewrite WriteFrame_ok, IH by done. simpl. by rewrite <- app_assoc.
Qed.

Lemma read_loop_frames ds : ∀ fuel r,
  Forall fits ds → (length ds < fuel)%nat →
  stream r = mjoin (frame <$> ds) →
  read_loop fuel r = (ds, Some (CodecIo (read_err r))).
Proof.
  induction ds as [|d ds IH]; intros [|fuel] r Hfit Hfuel Hs; try list_lia; simpl.
  - destruct (ReadFrame_parse r) as (r' & -> & _). by rewrite Hs.
  - apply Forall_cons in Hfit as [Hd Hfit].
    destruct (ReadFrame_parse r) as (r' & -> & Hr' & He). change (stream r = frame d ++ mjoin (frame <$> ds)) in Hs.
    rewrite Hs, parse_frame_frame in * by done. simpl in *.
    rewrite (IH fuel r') by (done || lia). by rewrite He.
Qed.

Lemma length_frames ds : (length ds ≤ length (mjoin (frame <$> ds)))%nat.
Proof. induction ds as [|d ds IH]; [done|].
  change (S (length ds) ≤ length (frame d ++ mjoin (frame <$> ds)))%nat.
  rewrite length_app, length_frame. lia.
Qed.

(** A frame that was read consumed its bytes, and the loop goes on behind it. *)
Lemma ReadFrame_shorter r d r' :
  ReadFrame r = (Ok d, r') → (length (stream r') + 4 ≤ length (stream r))%nat.
Proof.
  destruct (ReadFrame_parse r) as (r0 & -> & Hs & _). intros [= Hp <-]. rewrite Hs. revert Hp.
  unfold parse_frame. repeat case_match; simpl; intros; simplify_eq.
  all: rewrite !length_drop; rewrite Nat.ltb_ge in *; lia.
Qed.

Lemma read_loop_fuel n : ∀ m r, (length (stream r) < n)%nat → (length (stream r) < m)%nat →
  read_loop n r = read_loop m r.
Proof.
  induction n as [|n IH]; intros [|m] r Hn Hm; try lia. simpl.
  destruct (ReadFrame r) as [[d|e] r'] eqn:E; [|done].
  apply ReadFrame_shorter in E. by rewrite (IH m r') by lia.
Qed.

Lemma read_all_Ok r d r' : ReadFrame r = (Ok d, r') → (read_all r).1 = d :: (read_all r').1.
Proof.
  intros E. unfold read_all. pose proof (ReadFrame_shorter _ _ _ E).
  rewrite (read_loop_fuel (S (length (stream r'))) (length (stream r)) r') by lia.
  simpl. rewrite E. by destruct read_loop.
Qed.

Lemma read_all_Err r e r' : ReadFrame r = (Err e, r') → (read_all r).1 = [].
Proof. intros E. unfold read_all. simpl. by rewrite E. Qed.

(** A stream that is cut anywhere gives the first of its frames. *)
Lemma parse_frame_cut data n e :
  fits data → (n < length (frame data))%nat → is_ok (parse_frame (take n (frame data)) e).1 = false.
Proof.
  intros Hfit Hn. pose proof (parse_frame_truncated data n Hfit Hn) as H. revert H.
  unfold parse_frame. repeat case_match; done.
Qed.

Lemma read_loop_cut ds : ∀ fuel r,
  Forall fits ds → stream r `prefix_of` mjoin (frame <$> ds) → (read_loop fuel r).1 `prefix_of` ds.
Proof.
  induction ds as [|d ds IH]; intros fuel r Hfit Hpre;
    (destruct fuel as [|fuel]; [apply prefix_nil|]); cbn [read_loop];
    destruct (ReadFrame_parse r) as (r' & -> & Hr' & _).
  - apply prefix_nil_inv in Hpre. by rewrite Hpre.
  - apply Forall_cons in Hfit as [Hd Hfit]. change (mjoin (frame <$> d :: ds)) with (frame d ++ mjoin (frame <$> ds)) in Hpre.
    destruct Hpre as [tail Ht].
    destruct (Nat.le_gt_cases (length (frame d)) (length (stream r))) as [Hle|Hgt].
    + assert (Hs : stream r = frame d ++ drop (length (frame d)) (stream r)).
      { rewrite <- (take_drop (length (frame d)) (stream r)) at 1. f_equal.
        apply (f_equal (take (length (frame d)))) in Ht.
        rewrite take_app_exact in Ht by done. rewrite (take_app_le (stream r) tail) in Ht by lia. symmetry. exact Ht. }
      set (rest := drop _ (stream r)) in Hs. clearbody rest. rewrite Hs in Hr', Ht |- *.
      rewrite parse_frame_frame in Hr' |- * by done. simpl in Hr' |- *.
      assert (Hpre' : stream r' `prefix_of` mjoin (frame <$> ds)).
      { exists tail. rewrite Hr'. rewrite <- app_assoc in Ht. by apply app_inv_head in Ht. }
      specialize (IH fuel r' Hfit Hpre'). destruct (read_loop fuel r') as [ds' e']. simpl in *.
      by apply prefix_cons.
    + assert (Hs : stream r = take (length (stream r)) (frame d)).
      { apply (f_equal (take (length (stream r)))) in Ht.
        rewrite (take_app_le (frame d)) in Ht by lia. by rewrite take_app_exact in Ht by done. }
      pose proof (parse_frame_cut d (length (stream r)) (read_err r) Hd Hgt) as Hc. rewrite <- Hs in Hc.
      destruct (parse_frame (stream r) (read_err r)).1; [done|]. apply prefix_nil.
Qed.

Lemma read_all_cut ds r :
  Forall fits ds → stream r `prefix_of` mjoin (frame <$> ds) → (read_all r).1 `prefix_of` ds.
Proof. apply read_loop_cut. Qed.

(** ** Properties *)

(** C8: any sequence of messages of at most 16 MiB written with [WriteFrame] on a
    working connection is read back, message by message and in order, by a loop
    of [ReadFrame], however the network splits or merges the bytes into chunks;
    the loop then reports the reader's own end-of-stream error. *)
Theorem frames_roundtrip (ds : list bytes) (cs : list bytes) (e : io_error) (w : writer) :
  Forall fits ds → fails w = None →
  sent w ++ mjoin cs = sent (WriteFrames ds w).2 →
  (WriteFrames ds w).1 = Ok tt ∧
  read_all (Reader cs e) = (ds, Some (CodecIo e)).
Proof.
  intros Hfit Hw Hcs. rewrite WriteFrames_ok in * by done. simpl in *.
  apply app_inv_head in Hcs. split; [done|]. unfold read_all.
  apply (read_loop_frames ds _ (Reader cs e)); [done| |done].
  unfold stream. simpl. rewrite Hcs. pose proof (length_frames ds). lia.
Qed.

(** A connection cut inside a frame is never mistaken for a message: reading
    a proper prefix of a frame fails, with [io.EOF] exactly when the cut is at
    the frame's start or right after its header, with [io.ErrUnexpectedEOF]
    everywhere else. *)
Theorem truncated_frame (data : bytes) (n : nat) (r : reader) :
  fits data → (n < length (frame data))%nat → read_err r = EOF →
  stream r = take n (frame data) →
  (ReadFrame r).1 =
  Err (CodecIo (if decide (n = 0 ∨ n = 4)%nat then EOF else ErrUnexpectedEOF)).
Proof.
  intros Hfit Hn He Hs. destruct (ReadFrame_parse r) as (r' & -> & _). simpl.
  rewrite He, Hs. apply parse_frame_truncated; done.
Qed.

Lemma frames_roundtrip_witness :
  read_all (Reader [[Corelib.Init.Byte.x00; Corelib.Init.Byte.x00];
                    [Corelib.Init.Byte.x00; Corelib.Init.Byte.x02; Corelib.Init.Byte.x61];
                    [Corelib.Init.Byte.x62]] EOF)
  = ([str_bytes "ab"], Some (CodecIo EOF)).
Proof.
  apply (frames_roundtrip [str_bytes "ab"] _ EOF (Writer [] None)).
  - constructor; [|constructor]. unfold fits, max_frame. simpl. lia.
  - reflexivity.
  - reflexivity.
Defined.

Lemma truncated_frame_witness :
  (ReadFrame (Reader [take 5 (frame (str_bytes "ab"))] EOF)).1
  = Err (CodecIo ErrUnexpectedEOF).
Proof.
  apply (truncated_frame (str_bytes "ab") 5).
  - unfold fits, max_frame. simpl. lia.
  - simpl. lia.
  - reflexivity.
  - reflexivity.
Defined.

(** C38: a message above the limit but below 4 GiB is written without an error,
    and the peer's [ReadFrame] rejects it after consuming only the header, so
    that the body is left in the stream where the next header is expected. *)
Theorem oversize_frame (data rest : bytes) (w : writer) (r : reader) :
  max_frame < Z.of_nat (length data) < 2 ^ 32 → fails w = None →
  stream r = frame data ++ rest →
  (WriteFrame data w).1 = Ok tt ∧
  (ReadFrame r).1 = Err ErrFrameTooLarge ∧ stream (ReadFrame r).2 = data ++ rest.
Proof.
  intros Hlen Hw Hs. rewrite WriteFrame_ok by done.
  destruct (ReadFrame_parse r) as (r' & -> & Hr' & _). simpl. rewrite Hr', Hs.
  unfold parse_frame. rewrite length_app, length_frame.
  destruct (Nat.ltb_spec (4 + length data + length rest) 4); [lia|].
  unfold frame. rewrite <- app_assoc, take_app_exact, drop_app_exact by done.
  unfold frame_header. rewrite Uint32_PutUint32. unfold wrap_u32.
  rewrite !Z.mod_small by (rewrite ?Z.mod_small; lia).
  destruct (Z.ltb_spec max_frame (Z.of_nat (length data))); [done|lia].
Qed.

Lemma oversize_frame_witness :
  let data := replicate (Z.to_nat (max_frame + 1)) Corelib.Init.Byte.x00 in
  (ReadFrame (Reader [frame data] EOF)).1 = Err ErrFrameTooLarge.
Proof.
  intros data. apply (oversize_frame data [] (Writer [] None)).
  - unfold data. rewrite length_replicate, Z2Nat.id; unfold max_frame; lia.
  - reflexivity.
  - unfold stream. rewrite app_nil_r. apply app_nil_r.
Defined.

(** Whatever the connection accepts before it fails, [WriteFrame] puts a
    prefix of the frame on the wire, and it reports success exactly when the
    whole frame went out. *)
Theorem WriteFrame_prefix (data : bytes) (w : writer) :
  let n := match fails w with None => length (frame data) | Some (n, _) => n end in
  sent (WriteFrame data w).2 = sent w ++ take n (frame data) ∧
  is_ok (WriteFrame data w).1 = (length (frame data) <=? n)%nat.
Proof.
  rewrite length_frame. destruct (fails w) as [[n e]|] eqn:Hf; simpl.
  - unfold WriteFrame, Write. rewrite Hf. change (length (frame_header data)) with 4%nat.
    destruct (Nat.leb_spec 4 n) as [H4|H4]; simpl.
    + unfold frame. rewrite (take_app_ge (frame_header data)) by done.
      change (length (frame_header data)) with 4%nat.
      destruct (Nat.leb_spec (length data) (n - 4)); simpl; split;
        try (symmetry; first [apply Nat.leb_le | apply Nat.leb_gt]; lia).
      * rewrite (take_ge data) by done. by rewrite <- app_assoc.
      * by rewrite <- app_assoc.
    + unfold frame. rewrite (take_app_le (frame_header data)) by (simpl; lia). split; [done|].
      symmetry. apply Nat.leb_gt. lia.
  - rewrite WriteFrame_ok by done. simpl. rewrite take_ge by (simpl; lia).
    split; [done|]. symmetry. by apply Nat.leb_le.
Qed.
End Codec.
