(* ===== verification/Netty.v ===== *)
(** * Netty's frame codec, as the client library uses it

    [RpcClient.kt] and [RegistryClient.kt] put [LengthFieldBasedFrameDecoder(16 * 1024 *
    1024, 0, 4, 0, 4)] and [LengthFieldPrepender(4)] into their pipelines.  Netty is not
    part of the repository: the two handlers are the operations of a class whose laws
    are their documented behaviour, in terms of all of their parameters.  The
    theorems compare the client's end of a connection with the Go end of [Codec.v]. *)

From S2P Require Import Prelude Codec.

Module Netty.
Import Io Codec.

(** ** Documented behaviour *)

(** An unsigned big-endian number. *)
Definition big_endian (b : bytes) : Z := foldl (λ v x, v * 256 + byte_Z x) 0 b.

(** The parameters of the decoder's constructor. *)
Record decoder : Type := {
  maxFrameLength : Z;
  lengthFieldOffset : Z;
  lengthFieldLength : Z;
  lengthAdjustment : Z;
  initialBytesToStrip : Z;
}.

(** The first byte after the length field. *)
Definition lengthFieldEndOffset (d : decoder) : Z := lengthFieldOffset d + lengthFieldLength d.

(** The length of the first frame of the bytes, with everything before and after its
    length field. *)
Definition frameLength (d : decoder) (b : bytes) : Z :=
  big_endian (take (Z.to_nat (lengthFieldLength d)) (drop (Z.to_nat (lengthFieldOffset d)) b))
  + lengthAdjustment d + lengthFieldEndOffset d.

(** What the decoder passes on for all the bytes it has been given, and whether it has
    thrown a [TooLongFrameException]; the channel is then closed by [exceptionCaught]. *)
Definition decoded : Type := list bytes * bool.

(** Parameters for which the documentation describes the frames: one length field that
    counts what follows it, and nothing stripped beyond it. *)
Definition documented (d : decoder) : Prop :=
  0 ≤ lengthFieldOffset d ∧ 1 ≤ lengthFieldLength d ≤ 4 ∧ 0 ≤ lengthAdjustment d ∧
  0 ≤ initialBytesToStrip d ≤ lengthFieldEndOffset d.

Class Netty : Type := {
  LengthFieldBasedFrameDecoder : decoder → bytes → decoded;
  LengthFieldPrepender : Z → bytes → bytes;
  (** Without the whole length field the decoder waits. *)
  decode_header d b :
    documented d → Z.of_nat (length b) < lengthFieldEndOffset d → LengthFieldBasedFrameDecoder d b = ([], false);
  (** A frame longer than the maximum is refused as soon as its length is known. *)
  decode_too_long d b :
    documented d → lengthFieldEndOffset d ≤ Z.of_nat (length b) → maxFrameLength d < frameLength d b →
    LengthFieldBasedFrameDecoder d b = ([], true);
  (** Without the whole frame the decoder waits. *)
  decode_partial d b :
    documented d → lengthFieldEndOffset d ≤ Z.of_nat (length b) → frameLength d b ≤ maxFrameLength d →
    Z.of_nat (length b) < frameLength d b → LengthFieldBasedFrameDecoder d b = ([], false);
  (** A whole frame is passed on without the stripped bytes. *)
  decode_whole d b :
    documented d → lengthFieldEndOffset d ≤ Z.of_nat (length b) → frameLength d b ≤ maxFrameLength d →
    frameLength d b ≤ Z.of_nat (length b) →
    let '(ms, exn) := LengthFieldBasedFrameDecoder d (drop (Z.to_nat (frameLength d b)) b) in
    LengthFieldBasedFrameDecoder d b =
      (drop (Z.to_nat (initialBytesToStrip d)) (take (Z.to_nat (frameLength d b)) b) :: ms, exn);
  (** The length of a message is prepended, in the given number of bytes. *)
  prepend_length n b :
    1 ≤ n ≤ 4 → Z.of_nat (length b) < 2 ^ (8 * n) →
    ∃ header, LengthFieldPrepender n b = header ++ b ∧ Z.of_nat (length header) = n ∧
              big_endian header = Z.of_nat (length b);
}.

(** ** The pipelines of the client *)

(** [LengthFieldBasedFrameDecoder(16 * 1024 * 1024, 0, 4, 0, 4)] *)
Definition client_decoder : decoder :=
  {| maxFrameLength := 16 * 1024 * 1024; lengthFieldOffset := 0; lengthFieldLength := 4;
     lengthAdjustment := 0; initialBytesToStrip := 4 |}.

Lemma client_documented : documented client_decoder.
Proof. unfold documented, lengthFieldEndOffset. simpl. lia. Qed.

Lemma big_endian_Uint32 b0 b1 b2 b3 : big_endian [b0; b1; b2; b3] = Uint32 [b0; b1; b2; b3].
Proof. rewrite Uint32_combine. unfold big_endian. simpl. lia. Qed.

Lemma take_4 (b : bytes) : (4 ≤ length b)%nat → ∃ b0 b1 b2 b3, take 4 b = [b0; b1; b2; b3].
Proof. destruct b as [|b0 [|b1 [|b2 [|b3 b]]]]; simpl; try lia. intros _. by exists b0, b1, b2, b3. Qed.

Lemma client_frameLength b : (4 ≤ length b)%nat → frameLength client_decoder b = Uint32 (take 4 b) + 4.
Proof.
  intros Hl. destruct (take_4 b Hl) as (b0 & b1 & b2 & b3 & E). unfold frameLength.
  cbn [client_decoder lengthFieldLength lengthFieldOffset lengthAdjustment].
  change (Z.to_nat 0) with 0%nat. change (Z.to_nat 4) with 4%nat. rewrite drop_0, E, big_endian_Uint32.
  unfold lengthFieldEndOffset. simpl. lia.
Qed.

(** The longest message that the client's decoder passes on. *)
Definition client_limit : Z := max_frame - 4.

(** A header of four bytes is the one that Go writes. *)
Lemma Uint32_inj h v : length h = 4%nat → Uint32 h = v → h = PutUint32 v.
Proof.
  destruct h as [|b0 [|b1 [|b2 [|b3 [|]]]]]; try done. intros _ <-. rewrite Uint32_combine.
  unfold PutUint32. rewrite !Z.shiftr_div_pow2 by lia.
  pose proof (byte_Z_range b0); pose proof (byte_Z_range b1);
    pose proof (byte_Z_range b2); pose proof (byte_Z_range b3).
  assert (Hb : ∀ b v, v mod 256 = byte_Z b → Z_byte v = b).
  { intros b v E. rewrite <- (Z_byte_of_byte b), <- E.
    rewrite <- (Z_byte_of_byte (Z_byte v)). f_equal. apply byte_Z_of_Z. }
  repeat f_equal; symmetry; apply Hb; Z.div_mod_to_equations; lia.
Qed.

Section interop.
Context {netty : Netty}.

Abbreviation decode := (LengthFieldBasedFrameDecoder client_decoder).

(** One frame at the client, by what Go's [ReadFrame] finds in the same bytes. *)
Lemma client_decode b e :
  decode b =
  match parse_frame b e with
  | (Ok d, rest) =>
    if client_limit <? Z.of_nat (length d) then ([], true)
    else let '(ms, exn) := decode rest in (d :: ms, exn)
  | (Err ErrFrameTooLarge, _) => ([], true)
  | (Err (CodecIo _), _) => ([], (4 <=? length b)%nat && (client_limit <? Uint32 (take 4 b)))
  end.
Proof.
  pose proof client_documented as Hdoc. unfold parse_frame.
  destruct (Nat.ltb_spec (length b) 4) as [Hs|Hl].
  { rewrite decode_header; [|done|unfold lengthFieldEndOffset; simpl; lia].
    by rewrite (proj2 (Nat.leb_gt _ _)) by lia. }
  pose proof (client_frameLength b Hl) as Hfl. pose proof (Uint32_range (take 4 b)) as Hu.
  assert (He : lengthFieldEndOffset client_decoder ≤ Z.of_nat (length b))
    by (unfold lengthFieldEndOffset; simpl; lia).
  assert (Hmax : maxFrameLength client_decoder = max_frame) by done.
  rewrite (proj2 (Nat.leb_le _ _)) by lia. cbv zeta. unfold client_limit.
  destruct (Z.ltb_spec max_frame (Uint32 (take 4 b))) as [Hbig|Hfit].
  { apply decode_too_long; [done..|]. lia. }
  rewrite length_drop. destruct (Nat.ltb_spec (length b - 4) (Z.to_nat (Uint32 (take 4 b)))) as [Hpart|Hwhole].
  - destruct (Z.ltb_spec (max_frame - 4) (Uint32 (take 4 b))).
    + apply decode_too_long; [done..|]. lia.
    + apply decode_partial; [done..| |]; lia.
  - rewrite length_take, length_drop, Nat.min_l, Z2Nat.id by lia.
    destruct (Z.ltb_spec (max_frame - 4) (Uint32 (take 4 b))).
    { apply decode_too_long; [done..|]. lia. }
    pose proof (decode_whole client_decoder b Hdoc He) as H1. rewrite Hfl in H1.
    replace (Z.to_nat (Uint32 (take 4 b) + 4)) with (4 + Z.to_nat (Uint32 (take 4 b)))%nat in H1 by lia.
    rewrite <- drop_drop, <- take_drop_commute in H1.
    destruct (decode (drop _ (drop 4 b))) as [ms exn]. apply H1; lia.
Qed.

Lemma decode_read_all n : ∀ r, (length (stream r) < n)%nat →
  let '(ms, exn) := decode (stream r) in
  Forall (λ m, Z.of_nat (length m) ≤ client_limit) ms ∧
  ∃ rest, (read_all r).1 = ms ++ rest ∧
    match rest with [] => True | d :: _ => exn = true ∧ client_limit < Z.of_nat (length d) end.
Proof.
  induction n as [|n IH]; intros r Hn; [lia|].
  rewrite (client_decode _ (read_err r)). destruct (ReadFrame_parse r) as (r' & Er & Hs & _).
  destruct (parse_frame (stream r) (read_err r)) as [[d|[]] rest] eqn:Ep; simpl in *.
  - rewrite (read_all_Ok _ _ _ Er). pose proof (ReadFrame_shorter _ _ _ Er).
    destruct (Z.ltb_spec client_limit (Z.of_nat (length d))).
    { split; [constructor|]. by exists (d :: (read_all r').1). }
    specialize (IH r' ltac:(lia)). rewrite Hs in IH. destruct (decode rest) as [ms exn].
    destruct IH as (Hms & rest' & E & Hrest). split; [by constructor|]. exists rest'. by rewrite E.
  - rewrite (read_all_Err _ _ _ Er). split; [constructor|]. by exists [].
  - rewrite (read_all_Err _ _ _ Er). split; [constructor|]. by exists [].
Qed.

(** What the client's decoder passes on, Go's [ReadFrame] would have returned. *)
Lemma decode_subset r d : d ∈ (decode (stream r)).1 → d ∈ (read_all r).1.
Proof.
  pose proof (decode_read_all _ r (Nat.lt_succ_diag_r _)) as H.
  destruct (decode (stream r)) as [ms exn]. destruct H as (_ & rest & -> & _). simpl. set_solver.
Qed.

Lemma prepender_frame d : fits d → LengthFieldPrepender 4 d = frame d.
Proof.
  intros Hfit. destruct (prepend_length 4 d) as (h & -> & Hl & Hb); [lia| |].
  { unfold fits, max_frame in Hfit. lia. }
  unfold frame, frame_header. f_equal. rewrite wrap_u32_length by done.
  apply Uint32_inj; [lia|]. destruct h as [|b0 [|b1 [|b2 [|b3 [|]]]]]; simpl in Hl; try lia.
  by rewrite <- big_endian_Uint32.
Qed.

(** ** Properties *)

(** C21: the client library and the Go programs speak the same frames, up to four bytes.
    What the client's pipeline writes for a message is Go's frame of it.  Of any
    bytes that arrive, the client's decoder passes on the messages that Go's [ReadFrame]
    returns, in order, all of them if none is longer than 16 MiB less 4 bytes; but its limit
    counts the length field, so at the first message of the last four lengths that Go
    writes and reads it throws, and the channel is closed with everything behind. *)
Theorem client_codec_interop (r : reader) :
  (∀ d, fits d → LengthFieldPrepender 4 d = sent (WriteFrame d (Writer [] None)).2) ∧
  (let '(ms, exn) := decode (stream r) in
   ∃ rest, (read_all r).1 = ms ++ rest ∧
     (rest = [] ↔ Forall (λ d, Z.of_nat (length d) ≤ client_limit) (read_all r).1) ∧
     (rest ≠ [] → exn = true)) ∧
  (∀ d after, client_limit < Z.of_nat (length d) ≤ max_frame → stream r = frame d ++ after →
     (ReadFrame r).1 = Ok d ∧ decode (stream r) = ([], true)).
Proof.
  split_and!.
  - intros d Hfit. rewrite WriteFrame_ok by done. by apply prepender_frame.
  - pose proof (decode_read_all _ r (Nat.lt_succ_diag_r _)) as H.
    destruct (decode (stream r)) as [ms exn]. destruct H as (Hms & rest & -> & Hrest).
    exists rest. rewrite Forall_app. destruct rest as [|d rest]; [done|]. destruct Hrest as [-> Hd].
    split_and!; try done. split; [done|]. intros [_ [Hd' _]%Forall_cons]. lia.
  - intros d after Hd Hs. assert (Hfit : fits d) by (unfold fits; lia).
    destruct (ReadFrame_parse r) as (r' & -> & _). rewrite (client_decode _ (read_err r)).
    rewrite Hs, parse_frame_frame by done. simpl. split; [done|].
    by rewrite (proj2 (Z.ltb_lt _ _)) by lia.
Qed.

End interop.

(** ** An implementation *)

(** The frames of the bytes, one after the other; [fuel] is their number at most. *)
Fixpoint ref_decode (fuel : nat) (d : decoder) (b : bytes) : decoded :=
  match fuel with
  | O => ([], false)
  | S fuel =>
    if Z.of_nat (length b) <? lengthFieldEndOffset d then ([], false)
    else if maxFrameLength d <? frameLength d b then ([], true)
    else if Z.of_nat (length b) <? frameLength d b then ([], false)
    else
      let n := Z.to_nat (frameLength d b) in
      let '(ms, exn) := ref_decode fuel d (drop n b) in
      (drop (Z.to_nat (initialBytesToStrip d)) (take n b) :: ms, exn)
  end.

Definition ref_header (n : nat) (v : Z) : bytes :=
  (λ i, Z_byte (Z.shiftr v (8 * Z.of_nat (n - 1 - i)))) <$> seq 0 n.

Lemma big_endian_nonneg b : 0 ≤ big_endian b.
Proof.
  assert (H : ∀ v, 0 ≤ v → 0 ≤ foldl (λ v x, v * 256 + byte_Z x) v b); [|by apply H].
  induction b as [|x b IH]; intros v Hv; simpl; [done|]. apply IH. pose proof (byte_Z_range x). lia.
Qed.

Lemma frameLength_end d b : documented d → lengthFieldEndOffset d ≤ frameLength d b ∧ 1 ≤ frameLength d b.
Proof.
  intros (? & ? & ? & ?). unfold frameLength, lengthFieldEndOffset in *.
  match goal with |- context [big_endian ?b] => pose proof (big_endian_nonneg b) end. lia.
Qed.

Lemma ref_decode_fuel n : ∀ m d b, documented d → (length b < n)%nat → (length b < m)%nat →
  ref_decode n d b = ref_decode m d b.
Proof.
  induction n as [|n IH]; intros [|m] d b Hd Hn Hm; try lia. simpl.
  repeat case_match; simplify_eq; try done;
    match goal with
    | H1 : ref_decode n d ?c = _, H2 : ref_decode m d ?c = _ |- _ =>
      rewrite (IH m) in H1; [congruence|done|..]; rewrite length_drop;
      pose proof (frameLength_end d b Hd); lia
    end.
Qed.

Lemma ref_header_length n v : length (ref_header n v) = n.
Proof. unfold ref_header. by rewrite length_fmap, length_seq. Qed.

Lemma ref_header_value n v :
  (n ≤ 4)%nat → 0 ≤ v < 2 ^ (8 * Z.of_nat n) → big_endian (ref_header n v) = v.
Proof.
  intros Hn Hv. destruct n as [|[|[|[|[|]]]]]; try lia;
    unfold ref_header, big_endian; cbn [seq fmap list_fmap foldl Nat.sub];
    rewrite ?byte_Z_of_Z, ?Z.shiftr_div_pow2 by lia; simpl Z.of_nat in *; simpl Z.mul in *;
    Z.div_mod_to_equations; lia.
Qed.

#[export] Instance ref_netty : Netty.
Proof.
  refine {| LengthFieldBasedFrameDecoder d b := ref_decode (S (length b)) d b;
            LengthFieldPrepender n b := ref_header (Z.to_nat n) (Z.of_nat (length b)) ++ b |}.
  - intros d b _ H. simpl. by rewrite (proj2 (Z.ltb_lt _ _)).
  - intros d b _ H1 H2. simpl. by rewrite (proj2 (Z.ltb_ge _ _)), (proj2 (Z.ltb_lt _ _)).
  - intros d b _ H1 H2 H3. simpl.
    by rewrite (proj2 (Z.ltb_ge (Z.of_nat _) _)), (proj2 (Z.ltb_ge (maxFrameLength d) _)), (proj2 (Z.ltb_lt _ _)).
  - intros d b Hd H1 H2 H3. pose proof (frameLength_end d b Hd).
    rewrite (ref_decode_fuel _ (length b) d (drop _ b)); [|done|rewrite length_drop; lia..].
    destruct (ref_decode (length b) d _) as [ms exn] eqn:E. simpl.
    by rewrite !(proj2 (Z.ltb_ge _ _)), E by lia.
  - intros n b Hn Hb. eexists. split; [reflexivity|]. rewrite ref_header_length. split; [lia|].
    apply ref_header_value; [lia|]. rewrite Z2Nat.id by lia. lia.
Defined.

(** Two messages, the second one cut. *)
Example demo_decode :
  LengthFieldBasedFrameDecoder client_decoder
    (LengthFieldPrepender 4 (str_bytes "ab") ++ take 5 (LengthFieldPrepender 4 (str_bytes "cd")))
  = ([str_bytes "ab"], false).
Proof. vm_compute. reflexivity. Qed.

(** A message of 16 MiB. *)
Lemma client_codec_interop_witness :
  ∃ d, (ReadFrame (Reader [frame d] EOF)).1 = Ok d ∧
       LengthFieldBasedFrameDecoder client_decoder (stream (Reader [frame d] EOF)) = ([], true).
Proof.
  exists (replicate (Z.to_nat max_frame) Corelib.Init.Byte.x00).
  eapply (client_codec_interop (Reader [frame _] EOF)) with (after := []).
  - rewrite length_replicate, Z2Nat.id; unfold client_limit, max_frame; lia.
  - reflexivity.
Defined.

End Netty.
