(* ===== verification/GoLib.v ===== *)
(** * The parts of the Go standard library the server calls

    [Strconv] is decimal conversion ([strconv.Atoi], the [%d] verb), [Utf8] the
    [unicode/utf8] decoding that [fmt] and [encoding/json] rely on, [Strings]
    the functions of package [strings] that the code generators use.  Strings
    are byte sequences, as in Go. *)

From S2P Require Import Prelude.

Module Strconv.

Definition digit_val (c : Ascii.ascii) : option Z :=
  let n := Z.of_N (Ascii.N_of_ascii c) in
  if (48 <=? n) && (n <=? 57) then Some (n - 48) else None.

(** The value of a run of decimal digits, continuing from [acc]. *)
Fixpoint digits (acc : Z) (s : string) : option Z :=
  match s with
  | EmptyString => Some acc
  | String c s' =>
    match digit_val c with Some d => digits (10 * acc + d) s' | None => None end
  end.

Definition int64_range (z : Z) : bool := (min_int64 <=? z) && (z <=? max_int64).

(** [strconv.Atoi] on a 64-bit platform: an optional sign, then digits, the value
    in the range of [int].  The callers only test whether there was an error. *)
Definition Atoi (s : string) : option Z :=
  let '(neg, s0) :=
    match s with
    | String "-"%char t => (true, t)
    | String "+"%char t => (false, t)
    | _ => (false, s)
    end in
  match s0 with
  | EmptyString => None
  | _ =>
    match digits 0 s0 with
    | Some u =>
      let n := if neg : bool then - u else u in
      if int64_range n then Some n else None
    | None => None
    end
  end.

(** The [%d] verb of [fmt] on an integer. *)
Definition fmt_d (z : Z) : string := pretty z.

Lemma digit_val_char (n : N) :
  (n < 10)%N → digit_val (pretty_N_char n) = Some (Z.of_N n).
Proof.
  intros Hn. assert (n = 0 ∨ n = 1 ∨ n = 2 ∨ n = 3 ∨ n = 4 ∨ n = 5 ∨ n = 6
                    ∨ n = 7 ∨ n = 8 ∨ n = 9)%N by lia.
  destruct_or!; subst; reflexivity.
Qed.

Lemma digits_pretty_go (n : N) : ∀ s, digits 0 (pretty_N_go n s) = digits (Z.of_N n) s.
Proof.
  induction (N.lt_wf_0 n) as [n _ IH]. intros s.
  destruct (decide (n = 0%N)) as [->|Hn]; [by rewrite pretty_N_go_0|].
  rewrite pretty_N_go_step by lia. rewrite IH by (apply N.div_lt; lia). cbn [digits].
  rewrite digit_val_char by (apply N.mod_lt; lia). f_equal.
  rewrite N2Z.inj_div, N2Z.inj_mod. pose proof (Z.div_mod (Z.of_N n) 10). lia.
Qed.

Lemma digits_pretty_N (n : N) : digits 0 (pretty n) = Some (Z.of_N n).
Proof.
  unfold pretty, pretty_N. case_decide as H; [by rewrite H|]. by rewrite digits_pretty_go.
Qed.

Lemma pretty_N_nonempty (n : N) : pretty n ≠ "".
Proof.
  intros H. pose proof (digits_pretty_N n) as Hd. rewrite H in Hd.
  simpl in Hd. assert (n = 0%N) as -> by (injection Hd; lia). done.
Qed.

(** The first character of a printed natural number is a digit, so it is not
    taken for a sign. *)
Lemma pretty_N_head (n : N) : ∃ c s, pretty n = String c s ∧ is_Some (digit_val c).
Proof.
  pose proof (digits_pretty_N n) as Hd. pose proof (pretty_N_nonempty n) as Hne.
  destruct (pretty n) as [|c s]; [done|]. simpl in Hd.
  exists c, s. split; [done|]. destruct (digit_val c); [eauto|done].
Qed.

Lemma Atoi_unsigned (n : N) :
  Z.of_N n ≤ max_int64 → Atoi (pretty n) = Some (Z.of_N n).
Proof.
  intros Hn. pose proof (digits_pretty_N n) as Hd.
  destruct (pretty_N_head n) as (c & s & E & Hc). rewrite E in *. unfold Atoi.
  assert (Hr : int64_range (Z.of_N n) = true).
  { unfold int64_range, min_int64, max_int64 in *. apply andb_true_iff. lia. }
  destruct (decide (c = "-"%char)) as [->|]; [by destruct Hc|].
  destruct (decide (c = "+"%char)) as [->|]; [by destruct Hc|].
  destruct c as [[] [] [] [] [] [] [] []]; try done; rewrite Hd, Hr; done.
Qed.

(** [Atoi] reads back every [int] that [%d] prints, sign included. *)
Theorem Atoi_fmt_d (z : Z) : in_i64 z → Atoi (fmt_d z) = Some z.
Proof.
  unfold in_i64. intros Hz. unfold fmt_d. destruct z as [|p|p]; [done| |].
  - apply (Atoi_unsigned (N.pos p)). unfold max_int64. lia.
  - change (pretty (Z.neg p)) with (String "-"%char (pretty (N.pos p))).
    pose proof (digits_pretty_N (N.pos p)) as Hd.
    pose proof (pretty_N_nonempty (N.pos p)) as Hne.
    unfold Atoi. rewrite Hd. destruct (pretty (N.pos p)); [done|].
    cbv beta iota. replace (int64_range _) with true; [done|].
    symmetry. unfold int64_range, min_int64, max_int64. apply andb_true_iff.
    split; apply Z.leb_le; lia.
Qed.

Lemma Atoi_fmt_d_witness : Atoi "-8081" = Some (-8081).
Proof. apply (Atoi_fmt_d (-8081)). unfold in_i64. lia. Defined.

End Strconv.

(** ** [unicode/utf8] *)

Module Utf8.

Definition RuneError : Z := 65533.

Definition code (c : ascii) : Z := Z.of_N (N_of_ascii c).
Definition chr (z : Z) : ascii := ascii_of_N (Z.to_N z).

Definition between (lo x hi : Z) : bool := (lo <=? x) && (x <=? hi).

(** The range of the second byte that a leading byte allows, and the number of
    bytes of the sequence it starts. *)
Definition lead (b : Z) : option (nat * Z * Z) :=
  if between 194 b 223 then Some (2%nat, 128, 191)
  else if b =? 224 then Some (3%nat, 160, 191)
  else if between 225 b 236 || between 238 b 239 then Some (3%nat, 128, 191)
  else if b =? 237 then Some (3%nat, 128, 159)
  else if b =? 240 then Some (4%nat, 144, 191)
  else if between 241 b 243 then Some (4%nat, 128, 191)
  else if b =? 244 then Some (4%nat, 128, 143)
  else None.

(** The width of the first rune of a non-empty string, [None] when its first
    byte does not start a well-formed sequence ([DecodeRune] then returns
    [RuneError] and width 1). *)
Definition rune_width (s : string) : option nat :=
  match s with
  | EmptyString => None
  | String c0 t =>
    if code c0 <? 128 then Some 1%nat
    else match lead (code c0), t with
    | Some (2%nat, lo, hi), String c1 _ =>
      if between lo (code c1) hi then Some 2%nat else None
    | Some (3%nat, lo, hi), String c1 (String c2 _) =>
      if between lo (code c1) hi && between 128 (code c2) 191 then Some 3%nat else None
    | Some (4%nat, lo, hi), String c1 (String c2 (String c3 _)) =>
      if between lo (code c1) hi && between 128 (code c2) 191 && between 128 (code c3) 191
      then Some 4%nat else None
    | _, _ => None
    end
  end.

(** [utf8.EncodeRune], as a string. *)
Definition encode_rune (r : Z) : string :=
  let r := if between 0 r 1114111 && negb (between 55296 r 57343) then r else RuneError in
  if r <? 128 then String (chr r) ""
  else if r <? 2048 then String (chr (192 + r / 64)) (String (chr (128 + r mod 64)) "")
  else if r <? 65536 then
    String (chr (224 + r / 4096))
      (String (chr (128 + r / 64 mod 64)) (String (chr (128 + r mod 64)) ""))
  else String (chr (240 + r / 262144))
    (String (chr (128 + r / 4096 mod 64))
      (String (chr (128 + r / 64 mod 64)) (String (chr (128 + r mod 64)) ""))).

(** [utf8.RuneCountInString]: a byte that starts no well-formed sequence counts
    as one rune; [skip] bytes belong to the rune already counted. *)
Fixpoint rune_count_from (skip : nat) (s : string) : nat :=
  match s with
  | EmptyString => 0
  | String _ t =>
    match skip with
    | S k => rune_count_from k t
    | O => match rune_width s with
           | Some w => S (rune_count_from (pred w) t)
           | None => S (rune_count_from 0 t)
           end
    end
  end.

Definition rune_count (s : string) : nat := rune_count_from 0 s.

(** [utf8.ValidString]. *)
Fixpoint valid_from (skip : nat) (s : string) : bool :=
  match s with
  | EmptyString => true
  | String _ t =>
    match skip with
    | S k => valid_from k t
    | O => match rune_width s with Some w => valid_from (pred w) t | None => false end
    end
  end.

Definition valid (s : string) : bool := valid_from 0 s.

Example rune_count_ex : rune_count "干员a" = 3%nat.
Proof. reflexivity. Qed.

Lemma rune_count_le s : (rune_count s ≤ String.length s)%nat.
Proof.
  unfold rune_count. generalize 0%nat.
  induction s as [|c s IH]; intros k; [done|]. cbn [rune_count_from String.length].
  destruct k as [|k].
  - destruct (rune_width _) as [w|]; [pose proof (IH (pred w))|pose proof (IH 0%nat)]; lia.
  - pose proof (IH k). lia.
Qed.

(** Well-formed strings can be put together. *)
Lemma rune_width_app s t w :
  rune_width s = Some w → rune_width (s +:+ t) = Some w ∧ (0 < w ≤ String.length s)%nat.
Proof.
  assert (Ha : ∀ c u, String c u +:+ t = String c (u +:+ t)) by done.
  destruct s as [|c0 s]; [done|]. rewrite Ha. cbn [rune_width String.length].
  destruct (code c0 <? 128); [intros [= <-]; split; [done|lia]|].
  destruct (lead (code c0)) as [[[[|[|[|[|[|]]]]] lo] hi]|]; try done;
    [destruct s as [|c1 s]|destruct s as [|c1 [|c2 s]]|destruct s as [|c1 [|c2 [|c3 s]]]]; try done;
    rewrite !Ha; cbn [String.length]; case_match; intros [= <-]; split; done || lia.
Qed.

Lemma valid_from_app s t : ∀ k,
  (k ≤ String.length s)%nat → valid_from k s = true → valid t = true → valid_from k (s +:+ t) = true.
Proof.
  induction s as [|c s IH]; intros k Hk Hs Ht; cbn [String.length] in Hk.
  - replace k with 0%nat by lia. exact Ht.
  - cbn [valid_from] in Hs. change (String c s +:+ t) with (String c (s +:+ t)). cbn [valid_from].
    destruct k as [|k]; [|apply IH; [lia|done..]].
    destruct (rune_width (String c s)) as [w|] eqn:E; [|done].
    apply (rune_width_app _ t) in E as [E Hw]. change (String c s +:+ t) with (String c (s +:+ t)) in E.
    rewrite E. cbn [String.length] in Hw. apply IH; [lia|done..].
Qed.

Lemma valid_app s t : valid s = true → valid t = true → valid (s +:+ t) = true.
Proof. intros Hs Ht. apply valid_from_app; [lia|done..]. Qed.

Lemma valid_ascii c s : code c <? 128 = true → valid s = true → valid (String c s) = true.
Proof. intros Hc Hs. unfold valid in *. cbn [valid_from rune_width]. by rewrite Hc. Qed.

Lemma valid_pretty_go (n : N) : ∀ s, valid s = true → valid (pretty_N_go n s) = true.
Proof.
  induction (N.lt_wf_0 n) as [n _ IH]. intros s Hs.
  destruct (decide (n = 0%N)) as [->|Hn]; [by rewrite pretty_N_go_0|].
  rewrite pretty_N_go_step by lia. apply IH; [apply N.div_lt; lia|]. apply valid_ascii; [|done].
  assert (Hm : (n `mod` 10 < 10)%N) by (apply N.mod_lt; lia). revert Hm. generalize (n `mod` 10)%N.
  intros m Hm. assert (m = 0 ∨ m = 1 ∨ m = 2 ∨ m = 3 ∨ m = 4 ∨ m = 5 ∨ m = 6 ∨ m = 7 ∨ m = 8 ∨ m = 9)%N by lia.
  destruct_or!; subst; reflexivity.
Qed.

Lemma valid_fmt_d z : valid (Strconv.fmt_d z) = true.
Proof.
  assert (HN : ∀ n : N, valid (pretty n) = true).
  { intros n. unfold pretty, pretty_N. case_decide; [done|]. by apply valid_pretty_go. }
  unfold Strconv.fmt_d. destruct z as [|p|p]; [done|apply (HN (N.pos p))|].
  change (pretty (Z.neg p)) with (String "-"%char (pretty (N.pos p))). by apply valid_ascii.
Qed.

End Utf8.
