(* ===== verification/Json.v ===== *)
(** * [encoding/json], as far as the server decodes documents

    The server unmarshals two documents: the configuration file into a struct of
    strings and integers, and the embedded operator table into a slice of
    structs.  This file models the scanner and the string unquoting of
    [json.Unmarshal]; the decoding into each Go type is beside the type.
    [parse] returns [None] where [Unmarshal] reports a syntax error, which it
    does before it changes the target. *)

From S2P Require Import Prelude GoLib.

Module Json.
Import Utf8.

#[warnings="-register-all"]
Inductive json : Type :=
| JNull
| JBool (b : bool)
| JNum (literal : string)
| JStr (s : string)
| JArr (elems : list json)
| JObj (members : list (string * json)).

Definition dquote : ascii := "034".

Fixpoint skip_ws (s : string) : string :=
  match s with
  | String c t =>
    let n := code c in
    if (n =? 32) || (n =? 9) || (n =? 10) || (n =? 13) then skip_ws t else s
  | EmptyString => s
  end.

Definition hex_val (c : ascii) : option Z :=
  let n := code c in
  if between 48 n 57 then Some (n - 48)
  else if between 97 n 102 then Some (n - 87)
  else if between 65 n 70 then Some (n - 55)
  else None.

Definition hex4 (a b c d : ascii) : option Z :=
  w ← hex_val a; x ← hex_val b; y ← hex_val c; z ← hex_val d;
  Some (4096 * w + 256 * x + 16 * y + z).

(** [utf16.DecodeRune] on a surrogate pair. *)
Definition surrogate_pair (r1 r2 : Z) : option Z :=
  if between 55296 r1 56319 && between 56320 r2 57343
  then Some ((r1 - 55296) * 1024 + (r2 - 56320) + 65536) else None.

(** The escape after a backslash, except [\u]. *)
Definition simple_escape (c : ascii) : option ascii :=
  if Ascii.eqb c dquote then Some dquote
  else if Ascii.eqb c "\" then Some "\"%char
  else if Ascii.eqb c "/" then Some "/"%char
  else if Ascii.eqb c "b" then Some "008"%char
  else if Ascii.eqb c "f" then Some "012"%char
  else if Ascii.eqb c "n" then Some "010"%char
  else if Ascii.eqb c "r" then Some "013"%char
  else if Ascii.eqb c "t" then Some "009"%char
  else None.

(** Prepend to the unquoted text of a string literal. *)
Definition emit (p : string) (r : option (string * string)) : option (string * string) :=
  '(out, rest) ← r; Some (p +:+ out, rest).

(** The body of a string literal after its opening quote: the unquoted text and
    the input after the closing quote.  The first [keep] bytes continue a
    well-formed rune and are copied. *)
Fixpoint str_body (keep : nat) (s : string) : option (string * string) :=
  match s with
  | EmptyString => None
  | String c t =>
    match keep with
    | S k => emit (String c "") (str_body k t)
    | O =>
      if Ascii.eqb c dquote then Some ("", t)
      else if Ascii.eqb c "\" then
        match t with
        | String e t1 =>
          if Ascii.eqb e "u" then
            match t1 with
            | String a (String b (String x (String y t2))) =>
              match hex4 a b x y with
              | None => None
              | Some r =>
                if between 55296 r 57343 then
                  match t2 with
                  | String b1 (String u1 (String a' (String b' (String x' (String y' t3))))) =>
                    if Ascii.eqb b1 "\" && Ascii.eqb u1 "u" then
                      match hex4 a' b' x' y' with
                      | Some r' =>
                        match surrogate_pair r r' with
                        | Some p => emit (encode_rune p) (str_body 0 t3)
                        | None => emit (encode_rune RuneError) (str_body 0 t2)
                        end
                      | None => None
                      end
                    else emit (encode_rune RuneError) (str_body 0 t2)
                  | _ => emit (encode_rune RuneError) (str_body 0 t2)
                  end
                else emit (encode_rune r) (str_body 0 t2)
              end
            | _ => None
            end
          else match simple_escape e with
               | Some e' => emit (String e' "") (str_body 0 t1)
               | None => None
               end
        | EmptyString => None
        end
      else if code c <? 32 then None
      else match rune_width s with
           | Some w => emit (String c "") (str_body (pred w) t)
           | None => emit (encode_rune RuneError) (str_body 0 t)
           end
    end
  end.

Definition is_digit (c : ascii) : bool := between 48 (code c) 57.

(** A maximal run of digits and what follows it. *)
Fixpoint take_digits (s : string) : string * string :=
  match s with
  | String c t =>
    if is_digit c then let '(d, r) := take_digits t in (String c d, r) else ("", s)
  | EmptyString => ("", s)
  end.

Definition int_part (s : string) : option (string * string) :=
  match s with
  | String c t =>
    if Ascii.eqb c "0" then Some (String c "", t)
    else if is_digit c then let '(d, r) := take_digits t in Some (String c d, r)
    else None
  | EmptyString => None
  end.

Definition frac_part (s : string) : option (string * string) :=
  match s with
  | String c t =>
    if Ascii.eqb c "." then
      match take_digits t with
      | (EmptyString, _) => None
      | (d, r) => Some (String c d, r)
      end
    else Some ("", s)
  | EmptyString => Some ("", s)
  end.

Definition exp_part (s : string) : option (string * string) :=
  match s with
  | String c t =>
    if Ascii.eqb c "e" || Ascii.eqb c "E" then
      let '(sign, t1) :=
        match t with
        | String c1 t1 =>
          if Ascii.eqb c1 "+" || Ascii.eqb c1 "-" then (String c1 "", t1) else ("", t)
        | EmptyString => ("", t)
        end in
      match take_digits t1 with
      | (EmptyString, _) => None
      | (d, r) => Some (String c "" +:+ sign +:+ d, r)
      end
    else Some ("", s)
  | EmptyString => Some ("", s)
  end.

(** A number literal and what follows it. *)
Definition number (s : string) : option (string * string) :=
  let '(sign, s1) :=
    match s with
    | String c t => if Ascii.eqb c "-" then ("-", t) else ("", s)
    | EmptyString => ("", s)
    end in
  '(i, s2) ← int_part s1; '(f, s3) ← frac_part s2; '(e, s4) ← exp_part s3;
  Some (sign +:+ i +:+ f +:+ e, s4).

(** [strip p s] is what follows the literal [p]. *)
Fixpoint strip (p s : string) : option string :=
  match p, s with
  | EmptyString, _ => Some s
  | String a p', String b s' => if Ascii.eqb a b then strip p' s' else None
  | String _ _, EmptyString => None
  end.

Definition maxNestingDepth : Z := 10000.

(** The recursive scanner.  [value] expects a value at the start of its input,
    [elems] an element of an array and [members] a member of an object; every
    call consumes a character before the next one of its kind, so the length of
    the input is enough fuel. *)
Fixpoint value (fuel : nat) (depth : Z) (s : string) : option (json * string) :=
  match fuel with
  | O => None
  | S fuel =>
    match s with
    | EmptyString => None
    | String c t =>
      if Ascii.eqb c "{" then
        if maxNestingDepth <? depth then None else
        match skip_ws t with
        | String c1 t1 =>
          if Ascii.eqb c1 "}" then Some (JObj [], t1)
          else '(ms, r) ← members fuel depth (String c1 t1); Some (JObj ms, r)
        | EmptyString => None
        end
      else if Ascii.eqb c "[" then
        if maxNestingDepth <? depth then None else
        match skip_ws t with
        | String c1 t1 =>
          if Ascii.eqb c1 "]" then Some (JArr [], t1)
          else '(es, r) ← elems fuel depth (String c1 t1); Some (JArr es, r)
        | EmptyString => None
        end
      else if Ascii.eqb c dquote then '(x, r) ← str_body 0 t; Some (JStr x, r)
      else match strip "null" s, strip "true" s, strip "false" s with
           | Some r, _, _ => Some (JNull, r)
           | _, Some r, _ => Some (JBool true, r)
           | _, _, Some r => Some (JBool false, r)
           | None, None, None => '(n, r) ← number s; Some (JNum n, r)
           end
    end
  end
with elems (fuel : nat) (depth : Z) (s : string) : option (list json * string) :=
  match fuel with
  | O => None
  | S fuel =>
    '(v, r) ← value fuel (depth + 1) s;
    match skip_ws r with
    | String c t =>
      if Ascii.eqb c "," then '(vs, r') ← elems fuel depth (skip_ws t); Some (v :: vs, r')
      else if Ascii.eqb c "]" then Some ([v], t) else None
    | EmptyString => None
    end
  end
with members (fuel : nat) (depth : Z) (s : string) : option (list (string * json) * string) :=
  match fuel with
  | O => None
  | S fuel =>
    match s with
    | String q t =>
      if Ascii.eqb q dquote then
        '(k, r) ← str_body 0 t;
        match skip_ws r with
        | String c r1 =>
          if Ascii.eqb c ":" then
            '(v, r2) ← value fuel (depth + 1) (skip_ws r1);
            match skip_ws r2 with
            | String c' t' =>
              if Ascii.eqb c' "," then
                '(ms, r') ← members fuel depth (skip_ws t'); Some ((k, v) :: ms, r')
              else if Ascii.eqb c' "}" then Some ([(k, v)], t') else None
            | EmptyString => None
            end
          else None
        | EmptyString => None
        end
      else None
    | EmptyString => None
    end
  end.

(** A whole document: one value with white space around it. *)
Definition parse (doc : string) : option json :=
  '(v, rest) ← value (S (String.length doc)) 1 (skip_ws doc);
  match skip_ws rest with EmptyString => Some v | String _ _ => None end.

(** [strconv.ParseInt(literal, 10, 64)] on a number literal: fractions and
    exponents are errors, as are values outside of [int64]. *)
Definition num_int64 (literal : string) : option Z := Strconv.Atoi literal.

(** Field names match exactly or after simple case folding: lower-case ASCII
    letters fold to upper case, U+017F to S and U+212A to K; no other rune folds
    to an ASCII letter. *)
Fixpoint fold_name (s : string) : string :=
  match s with
  | EmptyString => ""
  | String c t =>
    match t with
    | String c1 t1 =>
      if (code c =? 197) && (code c1 =? 191) then String "S" (fold_name t1)
      else match t1 with
           | String c2 t2 =>
             if (code c =? 226) && (code c1 =? 132) && (code c2 =? 170)
             then String "K" (fold_name t2)
             else String (if between 97 (code c) 122 then chr (code c - 32) else c) (fold_name t)
           | EmptyString =>
             String (if between 97 (code c) 122 then chr (code c - 32) else c) (fold_name t)
           end
    | EmptyString =>
      String (if between 97 (code c) 122 then chr (code c - 32) else c) ""
    end
  end.

(** The struct field a key of the document selects: the field with exactly that
    name, or else the first one with the same folded name. *)
Definition find_field (names : list string) (key : string) : option string :=
  if decide (key ∈ names) then Some key
  else head (filter (λ n, fold_name n = fold_name key) names).

(** Single quotes stand for double quotes in the documents written below. *)
Fixpoint requote (s : string) : string :=
  match s with
  | EmptyString => ""
  | String c t => String (if Ascii.eqb c "'" then dquote else c) (requote t)
  end.

Example parse_ex :
  parse (requote " {'a' : [1, -2.5e3, 'x\u4e07\n'], 'b':null,'c':{} } ")
  = Some (JObj [("a", JArr [JNum "1"; JNum "-2.5e3"; JStr ("x万" +:+ String "010" "")]);
                ("b", JNull); ("c", JObj [])]).
Proof. vm_compute. reflexivity. Qed.

Example parse_err : parse (requote "{'port': 01}") = None.
Proof. vm_compute. reflexivity. Qed.

End Json.
