(* ===== verification/Router.v ===== *)
(** * Method routing: [src/server/internal/router/router.go]

    The router is a map from the text ["service.method"] to handlers.  Both
    operations hold the router's lock for their whole body, so each is one
    atomic step on the map. *)

From S2P Require Import Prelude.

Module Router.

Section router.
Context {H : Type}.

Record Router : Type := { handlers : gmap string H }.

Definition New : Router := {| handlers := ∅ |}.

(** [fmt.Sprintf("%s.%s", service, method)] *)
Definition route_key (service method : string) : string := service +:+ "." +:+ method.

Definition Register (r : Router) (service method : string) (h : H) : Router :=
  {| handlers := <[route_key service method := h]> (handlers r) |}.

Definition Route (r : Router) (service method : string) : option H :=
  handlers r !! route_key service method.

(** A sequence of registrations, in program order. *)
Definition register_all (regs : list (string * string * H)) (r : Router) : Router :=
  foldl (λ r '(s, m, h), Register r s m h) r regs.

End router.
Arguments Router : clear implicits.

(** ** Keys *)

Definition chars (s : string) : list ascii := String.list_ascii_of_string s.

Definition dot_free (s : string) : Prop := "."%char ∉ chars s.

#[export] Instance dot_free_dec s : Decision (dot_free s).
Proof. unfold dot_free. apply _. Defined.

Lemma chars_app a b : chars (a +:+ b) = chars a ++ chars b.
Proof. unfold chars. induction a as [|c a IH]; simpl; [done|]. by rewrite IH. Qed.

#[export] Instance chars_inj : Inj (=) (=) chars.
Proof.
  intros a b E. rewrite <- (String.string_of_list_ascii_of_string a),
    <- (String.string_of_list_ascii_of_string b). unfold chars in E. by rewrite E.
Qed.

(** A list without a separator has one place where the separator can be cut. *)
Lemma cut_unique {A} (x : A) (l1 l2 k1 k2 : list A) :
  x ∉ l2 → x ∉ k2 → l1 ++ x :: k1 = l2 ++ x :: k2 → l1 = l2 ∧ k1 = k2.
Proof.
  revert l1. induction l2 as [|b l2 IH]; intros [|a l1] H2 Hk E; simplify_eq/=.
  - done.
  - exfalso. apply Hk. apply elem_of_app. right. left.
  - exfalso. apply H2. left.
  - apply not_elem_of_cons in H2 as [_ H2]. destruct (IH l1 H2 Hk) as [-> ->]; done.
Qed.

Lemma route_key_inj s m s' m' :
  dot_free s' → dot_free m' → route_key s m = route_key s' m' → s = s' ∧ m = m'.
Proof.
  unfold route_key, dot_free. intros Hs Hm E. apply (f_equal chars) in E.
  rewrite !chars_app in E. apply cut_unique in E as [E1 E2]; [|done..].
  split; by apply (inj chars).
Qed.

Lemma lookup_register_all {H} (regs : list (string * string * H)) r k :
  handlers (register_all regs r) !! k =
  from_option Some (handlers r !! k)
    (last (omap (λ '(s, m, h), if decide (route_key s m = k) then Some h else None) regs)).
Proof.
  revert r. induction regs as [|[[s m] h] regs IH]; intros r; [done|].
  change (register_all ((s, m, h) :: regs) r) with (register_all regs (Register r s m h)).
  rewrite IH, omap_cons. simpl. rewrite lookup_insert.
  destruct (decide (route_key s m = k)); [|done].
  rewrite last_cons. by destruct (last (omap _ regs)).
Qed.

Lemma Route_register_all {H} (regs : list (string * string * H)) service method :
  Forall (λ '(s, m, _), dot_free s ∧ dot_free m) regs →
  Route (register_all regs New) service method =
  last (omap (λ '(s, m, h), if decide (s = service ∧ m = method) then Some h else None) regs).
Proof.
  intros Hd. unfold Route. rewrite lookup_register_all. simpl. rewrite lookup_empty.
  replace (omap _ regs) with
    (omap (λ '(s, m, h), if decide (s = service ∧ m = method) then Some h else None) regs).
  { by destruct (last _). }
  induction Hd as [|[[s m] h] regs [Hs Hm] _ IH]; [done|]. rewrite !omap_cons, IH.
  destruct (decide (s = service ∧ m = method)) as [[-> ->]|Hn].
  - by rewrite decide_True.
  - rewrite decide_False; [done|]. intros E. apply Hn.
    symmetry in E. apply route_key_inj in E as [-> ->]; done.
Qed.

(** ** Properties *)

(** When the registered service and method names contain no dot, as the
    names of generated registrations do not, a lookup finds a handler for
    exactly the pairs that were registered, whatever text the request carries,
    and it is the handler registered last for that pair. *)
Theorem Route_exact {H} (regs : list (string * string * H)) (service method : string) :
  Forall (λ '(s, m, _), dot_free s ∧ dot_free m) regs →
  Route (register_all regs New) service method =
  last (omap (λ '(s, m, h), if decide (s = service ∧ m = method) then Some h else None) regs).
Proof. apply Route_register_all. Qed.

Lemma Route_exact_witness :
  Route (register_all [("UserService", "login", 1%nat); ("GachaService", "draw", 2%nat);
                       ("UserService", "login", 3%nat)] New) "UserService" "login" = Some 3%nat.
Proof.
  apply (Route_exact [("UserService", "login", 1%nat); ("GachaService", "draw", 2%nat);
                      ("UserService", "login", 3%nat)]).
  repeat constructor; apply (bool_decide_unpack _); vm_compute; exact I.
Defined.

(** Without that restriction two pairs can share a key. *)
Example route_key_clash : route_key "a.b" "c" = route_key "a" "b.c".
Proof. reflexivity. Qed.

End Router.
