(* ===== verification/Pb.v ===== *)
(** * Protocol messages and their serialisation interface

    The message types are those of [src/proto/framework/*.proto] and
    [src/proto/app/*.proto].  Their Go code is generated by [protoc] and their
    serialisation is package [google.golang.org/protobuf/proto], neither of
    which is part of the repository: the class [Message] states what the server
    relies on, and every theorem is about any instance of it.  [Wire.v] has an instance
    in a simple format, with which concrete runs are evaluated; it is not a model of the
    protobuf library. *)

From S2P Require Import Prelude GoLib.

(** [Marshal] fails on a message that has no serialised form (a proto3 string
    that is not UTF-8); both operations report the text of their error.  A message
    that was serialised is parsed back to the same message. *)
Class Message (M : Type) : Type := {
  Marshal : M → result string bytes;
  Unmarshal : bytes → result string M;
  Unmarshal_Marshal : ∀ m b, Marshal m = Ok b → Unmarshal b = Ok m;
}.

(** ** [proto/framework/rpc.proto] *)
Module Rpc.

Record RpcRequest : Type := {
  req_RequestId : string; req_Service : string; req_Method : string; req_Payload : bytes }.

Record Error : Type := { Code : Z; ErrMessage : string }.

Record RpcResponse : Type := {
  resp_RequestId : string; resp_Payload : bytes; resp_Error : option Error }.

#[export] Instance RpcRequest_eq_dec : EqDecision RpcRequest.
Proof. solve_decision. Defined.
#[export] Instance Error_eq_dec : EqDecision Error.
Proof. solve_decision. Defined.
#[export] Instance RpcResponse_eq_dec : EqDecision RpcResponse.
Proof. solve_decision. Defined.

(** The length of what a response holds. *)
Definition response_size (m : RpcResponse) : Z :=
  Z.of_nat (String.length (resp_RequestId m)) + Z.of_nat (length (resp_Payload m)) +
  match resp_Error m with Some e => Z.of_nat (String.length (ErrMessage e)) | None => 0 end.

End Rpc.

(** ** What the protobuf library documents of strings and sizes

    Where a theorem needs more than the round trip, it is one of these two classes. *)

(** The texts of its errors are well-formed UTF-8. *)
Class TextErrors (M : Type) `{!Message M} : Prop := {
  marshal_text : ∀ (m : M) e, Marshal m = Err e → Utf8.valid e = true;
  unmarshal_text : ∀ b e, (Unmarshal b : result string M) = Err e → Utf8.valid e = true;
}.

(** A [string] field of proto3 is UTF-8: parsing checks it, and a message whose strings
    are well-formed, whose integers fit their fields and which stays below the limit of
    2 GiB (here far enough below it for tags and lengths) can be serialised. *)
Class Proto3Rpc `{!Message Rpc.RpcRequest} `{!Message Rpc.RpcResponse} : Prop := {
  request_strings : ∀ b (req : Rpc.RpcRequest), Unmarshal b = Ok req →
    Utf8.valid (Rpc.req_RequestId req) = true ∧ Utf8.valid (Rpc.req_Service req) = true ∧
    Utf8.valid (Rpc.req_Method req) = true;
  response_sendable : ∀ resp : Rpc.RpcResponse,
    Rpc.response_size resp < 2 ^ 30 → Utf8.valid (Rpc.resp_RequestId resp) = true →
    (∀ e, Rpc.resp_Error resp = Some e →
       - 2 ^ 31 ≤ Rpc.Code e < 2 ^ 31 ∧ Utf8.valid (Rpc.ErrMessage e) = true) →
    ∃ data, Marshal resp = Ok data;
}.

(** ** [proto/framework/registry.proto] *)
Module Reg.

Record RegisterRequest : Type := { rr_Port : Z; rr_Service : string }.
Record HeartbeatRequest : Type := { hb_Port : Z }.
Record RegistryResponse : Type := { Success : bool; RespMessage : string }.
Record ServiceInfo : Type := { si_Ip : string; si_Port : Z }.

#[export] Instance RegisterRequest_eq_dec : EqDecision RegisterRequest.
Proof. solve_decision. Defined.
#[export] Instance HeartbeatRequest_eq_dec : EqDecision HeartbeatRequest.
Proof. solve_decision. Defined.
#[export] Instance RegistryResponse_eq_dec : EqDecision RegistryResponse.
Proof. solve_decision. Defined.
#[export] Instance ServiceInfo_eq_dec : EqDecision ServiceInfo.
Proof. solve_decision. Defined.

(** [map<string, ServiceListEntry>]: service name to instances. *)
Abbreviation ServiceList := (gmap string (list ServiceInfo)).

(** The [oneof payload] of [RegistryMessage]. *)
Inductive Payload : Type :=
| PRegister (r : RegisterRequest)
| PHeartbeat (r : HeartbeatRequest)
| PSubscribe
| PResponse (r : RegistryResponse)
| PServiceList (l : ServiceList).

#[export] Instance Payload_eq_dec : EqDecision Payload.
Proof. solve_decision. Defined.

Record RegistryMessage : Type := { payload : option Payload }.

End Reg.

(** ** [proto/app/*.proto] *)
Module App.

Record RegisterRequest : Type := { reg_Name : string; reg_Password : string }.
Record RegisterResponse : Type := { reg_UserId : Z; reg_Message : string }.
Record LoginRequest : Type := { login_Name : string; login_Password : string }.
Record LoginResponse : Type := { login_UserId : Z; login_Message : string }.
Record LogoutRequest : Type := { logout_UserId : Z }.
Record LogoutResponse : Type := { logout_Message : string }.
Record DrawRequest : Type := { draw_UserId : Z; draw_Count : Z }.
Record Card : Type := { card_Name : string; card_Stars : Z }.
Record DrawResponse : Type := { draw_Cards : list Card; draw_Instance : string }.

#[export] Instance Card_eq_dec : EqDecision Card.
Proof. solve_decision. Defined.
#[export] Instance RegisterResponse_eq_dec : EqDecision RegisterResponse.
Proof. solve_decision. Defined.
#[export] Instance LoginResponse_eq_dec : EqDecision LoginResponse.
Proof. solve_decision. Defined.
#[export] Instance DrawResponse_eq_dec : EqDecision DrawResponse.
Proof. solve_decision. Defined.

End App.
