(* ===== verification/Wire.v ===== *)
(** * An instance of [Message] for concrete runs

    Varints, length-delimited fields and the proto3 rules for default values, enough to
    serialise every message of [src/proto/] and to parse what was serialised.  It is not a
    model of package [google.golang.org/protobuf], which is not part of the repository:
    it parses only the two wire types it writes, and does not merge repeated
    occurrences of a message field.  No theorem about the program depends on it.  The
    instances show that the interfaces of [Pb.v] can be met, and let concrete requests be
    run through the models of the server and of the registry client. *)

From S2P Require Import Prelude GoLib Pb.

Module Wire.

(** ** Varints: seven bits per byte, least significant group first *)

Fixpoint put_varint (fuel : nat) (n : Z) : bytes :=
  match fuel with
  | O => []
  | S fuel =>
    if n <? 128 then [Z_byte n] else Z_byte (n mod 128 + 128) :: put_varint fuel (n / 128)
  end.

Fixpoint get_varint (fuel : nat) (b : bytes) : option (Z * bytes) :=
  match fuel, b with
  | S fuel, c :: b' =>
    if byte_Z c <? 128 then Some (byte_Z c, b')
    else '(n, r) ← get_varint fuel b'; Some (byte_Z c - 128 + 128 * n, r)
  | _, _ => None
  end.

Definition varint (n : Z) : bytes := put_varint 10 n.

Lemma get_put_varint fuel n rest :
  0 ≤ n < 2 ^ (7 * Z.of_nat (S fuel)) →
  get_varint (S fuel) (put_varint (S fuel) n ++ rest) = Some (n, rest).
Proof.
  revert n. induction fuel as [|fuel IH]; intros n Hn.
  { change (2 ^ (7 * Z.of_nat 1)) with 128 in Hn. cbn [put_varint].
    destruct (Z.ltb_spec n 128); [|lia].
    cbn [app get_varint]. rewrite byte_Z_of_Z, Z.mod_small by lia.
    by destruct (Z.ltb_spec n 128); [|lia]. }
  remember (S fuel) as g. cbn [put_varint]. destruct (Z.ltb_spec n 128).
  - cbn [app get_varint]. rewrite byte_Z_of_Z, Z.mod_small by lia.
    by destruct (Z.ltb_spec n 128); [|lia].
  - pose proof (Z.mod_pos_bound n 128 ltac:(lia)).
    cbn [app get_varint]. rewrite byte_Z_of_Z, Z.mod_small by lia.
    destruct (Z.ltb_spec (n mod 128 + 128) 128); [lia|].
    rewrite IH.
    + simpl. do 2 f_equal. pose proof (Z.div_mod n 128). lia.
    + replace (7 * Z.of_nat (S g)) with (7 * Z.of_nat g + 7) in Hn by lia.
      rewrite Z.pow_add_r in Hn by lia. change (2 ^ 7) with 128 in Hn.
      split; [apply Z.div_pos; lia|]. apply Z.div_lt_upper_bound; lia.
Qed.

Lemma get_varint_varint n rest : 0 ≤ n < 2 ^ 64 → get_varint 10 (varint n ++ rest) = Some (n, rest).
Proof. intros. apply (get_put_varint 9). change (2 ^ (7 * Z.of_nat 10)) with (2 ^ 70). lia. Qed.

Lemma get_varint_shorter fuel b n r :
  get_varint fuel b = Some (n, r) → (length r < length b)%nat.
Proof.
  revert b n. induction fuel as [|fuel IH]; intros [|c b] n H; try done. simpl in H.
  case_match; simplify_eq; [simpl; lia|].
  destruct (get_varint fuel b) as [[m s]|] eqn:E; simplify_eq/=. apply IH in E. simpl. lia.
Qed.

#[global] Arguments varint : simpl never.
#[global] Arguments get_varint : simpl never.

(** ** Fields *)

Inductive wval : Type := WVarint (n : Z) | WBytes (b : bytes).

Definition field : Type := Z * wval.

(** A length or a field number that a Go program can hold. *)
Definition field_ok (f : field) : Prop :=
  0 ≤ f.1 < 2 ^ 29 ∧
  match f.2 with WVarint n => 0 ≤ n < 2 ^ 64 | WBytes b => Z.of_nat (length b) < 2 ^ 64 end.

Definition put_field (f : field) : bytes :=
  match f.2 with
  | WVarint n => varint (f.1 * 8) ++ varint n
  | WBytes b => varint (f.1 * 8 + 2) ++ varint (Z.of_nat (length b)) ++ b
  end.

Definition get_field (b : bytes) : option (field * bytes) :=
  '(tag, b1) ← get_varint 10 b;
  '(n, b2) ← get_varint 10 b1;
  if tag mod 8 =? 0 then Some ((tag / 8, WVarint n), b2)
  else if tag mod 8 =? 2 then
    if Z.of_nat (length b2) <? n then None
    else Some ((tag / 8, WBytes (take (Z.to_nat n) b2)), drop (Z.to_nat n) b2)
  else None.

Lemma get_put_field f rest : field_ok f → get_field (put_field f ++ rest) = Some (f, rest).
Proof.
  intros [Hn Hv]. destruct f as [k [n|b]]; unfold put_field, get_field; simpl in *;
    rewrite <- !app_assoc; rewrite get_varint_varint by lia; simpl.
  - rewrite get_varint_varint by lia. simpl.
    rewrite Z.mod_mul, Z.div_mul by lia. done.
  - rewrite get_varint_varint by lia. simpl.
    replace ((k * 8 + 2) mod 8) with 2 by (Z.div_mod_to_equations; lia).
    replace ((k * 8 + 2) / 8) with k by (Z.div_mod_to_equations; lia). simpl.
    destruct (Z.ltb_spec (Z.of_nat (length (b ++ rest))) (Z.of_nat (length b))); [list_lia|].
    rewrite Nat2Z.id. by rewrite take_app_exact, drop_app_exact.
Qed.

Definition put_fields (fs : list field) : bytes := mjoin (put_field <$> fs).

Fixpoint get_fields (fuel : nat) (b : bytes) : option (list field) :=
  match b with
  | [] => Some []
  | _ =>
    match fuel with
    | O => None
    | S fuel => '(f, r) ← get_field b; fs ← get_fields fuel r; Some (f :: fs)
    end
  end.

Definition parse_fields (b : bytes) : option (list field) := get_fields (length b) b.

Lemma put_field_nonempty f : field_ok f → (0 < length (put_field f))%nat.
Proof.
  intros H. pose proof (get_put_field f [] H) as G. rewrite app_nil_r in G.
  destruct (put_field f); [done|simpl; lia].
Qed.

Lemma get_put_fields fs : ∀ fuel,
  Forall field_ok fs → (length (put_fields fs) ≤ fuel)%nat →
  get_fields fuel (put_fields fs) = Some fs.
Proof.
  induction fs as [|f fs IH]; intros fuel Hok Hf; [by destruct fuel|].
  apply Forall_cons in Hok as [Hf1 Hok].
  change (put_fields (f :: fs)) with (put_field f ++ put_fields fs) in *.
  pose proof (put_field_nonempty f Hf1). rewrite length_app in Hf.
  destruct fuel as [|fuel]; [lia|]. cbn [get_fields].
  destruct (put_field f ++ put_fields fs) eqn:E.
  { apply (f_equal length) in E. rewrite length_app in E. simpl in E. lia. }
  rewrite <- E, get_put_field by done. simpl. by rewrite IH by (done || lia).
Qed.

Lemma parse_put_fields fs : Forall field_ok fs → parse_fields (put_fields fs) = Some fs.
Proof. intros. by apply get_put_fields. Qed.

(** ** Messages from fields *)

Definition field_okb (f : field) : bool :=
  (0 <=? f.1) && (f.1 <? 2 ^ 29) &&
  match f.2 with
  | WVarint n => (0 <=? n) && (n <? 2 ^ 64)
  | WBytes b => Z.of_nat (length b) <? 2 ^ 64
  end.

Lemma field_okb_ok fs : forallb field_okb fs = true → Forall field_ok fs.
Proof.
  intros H. apply Forall_forall. intros f Hf. apply list_elem_of_In in Hf.
  eapply forallb_forall in H; [|done]. unfold field_okb, field_ok in *.
  destruct f as [k []]; simpl in *; lia.
Qed.

Definition marshal_with {M} (enc : M → option (list field)) (m : M) : option bytes :=
  fs ← enc m; if forallb field_okb fs then Some (put_fields fs) else None.

Definition unmarshal_with {M} (dec : list field → option M) (b : bytes) : result string M :=
  match parse_fields b with
  | None => Err "proto: cannot parse invalid wire-format data"
  | Some fs =>
    match dec fs with
    | None => Err "proto: field contains invalid UTF-8"
    | Some m => Ok m
    end
  end.

Lemma unmarshal_marshal_with {M} (enc : M → option (list field)) dec :
  (∀ m fs, enc m = Some fs → dec fs = Some m) →
  ∀ m b, marshal_with enc m = Some b → unmarshal_with dec b = Ok m.
Proof.
  intros H m b Hm. unfold marshal_with in Hm. destruct (enc m) as [fs|] eqn:E; [|done].
  simpl in Hm. destruct (forallb field_okb fs) eqn:Hok; simplify_eq.
  unfold unmarshal_with. rewrite parse_put_fields by (by apply field_okb_ok).
  by rewrite (H m fs E).
Qed.

(** The two operations of the interface. *)
Definition marshal_msg {M} (enc : M → option (list field)) (m : M) : result string bytes :=
  match marshal_with enc m with
  | Some b => Ok b
  | None => Err "string field contains invalid UTF-8"
  end.

Lemma unmarshal_marshal_msg {M} (enc : M → option (list field)) dec :
  (∀ m fs, enc m = Some fs → dec fs = Some m) →
  ∀ m b, marshal_msg enc m = Ok b → unmarshal_with dec b = Ok m.
Proof.
  intros H m b Hm. unfold marshal_msg in Hm.
  destruct (marshal_with enc m) as [b'|] eqn:E; simplify_eq.
  by eapply unmarshal_marshal_with.
Qed.

(** Scalars: a default value is not written. *)
Definition str_field (k : Z) (s : string) : option (list field) :=
  if Utf8.valid s then Some (if decide (s = "") then [] else [(k, WBytes (str_bytes s))])
  else None.
Definition bytes_field (k : Z) (b : bytes) : list field :=
  if decide (b = []) then [] else [(k, WBytes b)].
Definition int_field (ok : Z → bool) (k : Z) (z : Z) : option (list field) :=
  if ok z then Some (if decide (z = 0) then [] else [(k, WVarint (wrap_u64 z))]) else None.
Definition bool_field (k : Z) (b : bool) : list field :=
  if b then [(k, WVarint 1)] else [].
Definition i32_ok (z : Z) : bool := (- 2 ^ 31 <=? z) && (z <? 2 ^ 31).
Definition i64_ok (z : Z) : bool := (- 2 ^ 63 <=? z) && (z <? 2 ^ 63).

(** The last occurrence of a field, and all of them. *)
Definition vals (k : Z) (fs : list field) : list wval :=
  omap (λ f, if f.1 =? k then Some f.2 else None) fs.

Definition get_bytes (k : Z) (fs : list field) : option bytes :=
  match last (vals k fs) with
  | None => Some [] | Some (WBytes b) => Some b | Some (WVarint _) => None end.
Definition get_str (k : Z) (fs : list field) : option string :=
  b ← get_bytes k fs; if Utf8.valid (bytes_str b) then Some (bytes_str b) else None.
Definition get_int (wrap : Z → Z) (k : Z) (fs : list field) : option Z :=
  match last (vals k fs) with
  | None => Some 0 | Some (WVarint n) => Some (wrap n) | Some (WBytes _) => None end.
Definition get_bool (k : Z) (fs : list field) : option bool :=
  n ← get_int id k fs; Some (negb (n =? 0)).

Lemma vals_app k fs gs : vals k (fs ++ gs) = vals k fs ++ vals k gs.
Proof. apply omap_app. Qed.

(** A field written under [k] is what [k] reads, whatever the other fields are. *)
Lemma get_str_vals k s f1 fs :
  str_field k s = Some f1 → vals k fs = vals k f1 → get_str k fs = Some s.
Proof.
  unfold str_field, get_str, get_bytes. intros H ->.
  destruct (Utf8.valid s) eqn:Hs; simplify_eq. destruct (decide (s = "")) as [->|]; [done|].
  unfold vals. rewrite omap_cons. simpl. rewrite Z.eqb_refl. simpl.
  by rewrite str_bytes_str, Hs.
Qed.

Lemma get_bytes_vals k b fs : vals k fs = vals k (bytes_field k b) → get_bytes k fs = Some b.
Proof.
  unfold bytes_field, get_bytes. intros ->. destruct (decide (b = [])) as [->|]; [done|].
  unfold vals. rewrite omap_cons. simpl. by rewrite Z.eqb_refl.
Qed.

Lemma wrap_i64_u64 z : in_i64 z → wrap_i64 (wrap_u64 z) = z.
Proof. unfold in_i64, wrap_i64, wrap_u64. intros. Z.div_mod_to_equations. lia. Qed.
Lemma wrap_i32_u64 z : in_i32 z → wrap_i32 (wrap_u64 z) = z.
Proof. unfold in_i32, wrap_i32, wrap_u64. intros. Z.div_mod_to_equations. lia. Qed.

Lemma get_int_vals ok wrap k z f1 fs :
  (∀ z, ok z = true → wrap (wrap_u64 z) = z) →
  int_field ok k z = Some f1 → vals k fs = vals k f1 → get_int wrap k fs = Some z.
Proof.
  unfold int_field, get_int. intros Hw H ->.
  destruct (ok z) eqn:Hz; simplify_eq. destruct (decide (z = 0)) as [->|]; [done|].
  unfold vals. rewrite omap_cons. simpl. rewrite Z.eqb_refl. simpl. by rewrite Hw.
Qed.

Lemma get_bool_vals k b fs : vals k fs = vals k (bool_field k b) → get_bool k fs = Some b.
Proof.
  unfold bool_field, get_bool, get_int. intros ->. destruct b; [|done].
  unfold vals. rewrite omap_cons. simpl. by rewrite Z.eqb_refl.
Qed.

Lemma i64_wrap z : i64_ok z = true → wrap_i64 (wrap_u64 z) = z.
Proof. intros. apply wrap_i64_u64. unfold i64_ok, in_i64 in *. lia. Qed.
Lemma i32_wrap z : i32_ok z = true → wrap_i32 (wrap_u64 z) = z.
Proof. intros. apply wrap_i32_u64. unfold i32_ok, in_i32 in *. lia. Qed.

Lemma vals_cons_eq k f fs : f.1 = k → vals k (f :: fs) = f.2 :: vals k fs.
Proof. intros <-. unfold vals. rewrite omap_cons. by rewrite Z.eqb_refl. Qed.

(** Fields with another number do not matter. *)
Lemma vals_cons_ne j k v : k ≠ j → vals j [(k, v)] = [].
Proof. intros. unfold vals. rewrite omap_cons. simpl. by rewrite (proj2 (Z.eqb_neq k j)). Qed.
Lemma vals_str_ne j k s f : k ≠ j → str_field k s = Some f → vals j f = [].
Proof.
  unfold str_field. intros. repeat case_match; simplify_eq; auto using vals_cons_ne.
Qed.
Lemma vals_int_ne j ok k z f : k ≠ j → int_field ok k z = Some f → vals j f = [].
Proof.
  unfold int_field. intros. repeat case_match; simplify_eq; auto using vals_cons_ne.
Qed.
Lemma vals_bytes_ne j k b : k ≠ j → vals j (bytes_field k b) = [].
Proof. unfold bytes_field. intros. case_match; auto using vals_cons_ne. Qed.
Lemma vals_bool_ne j k b : k ≠ j → vals j (bool_field k b) = [].
Proof. unfold bool_field. intros. case_match; auto using vals_cons_ne. Qed.

(** A message as a field, and a repeated field of messages. *)
Definition msg_field {M} (enc : M → option (list field)) (k : Z) (m : M) : option field :=
  b ← marshal_with enc m; Some (k, WBytes b).
Definition of_wval {M} (dec : list field → option M) (v : wval) : option M :=
  match v with
  | WBytes b => match unmarshal_with dec b with Ok m => Some m | Err _ => None end
  | WVarint _ => None
  end.

Lemma vals_msg_ne {M} (enc : M → option (list field)) j k m f :
  k ≠ j → msg_field enc k m = Some f → vals j [f] = [].
Proof.
  unfold msg_field. intros Hne H. destruct (marshal_with enc m); simplify_eq/=.
  by apply vals_cons_ne.
Qed.

Lemma vals_repeated_ne {M} (enc : M → option (list field)) j k ms fs :
  k ≠ j → mapM (msg_field enc k) ms = Some fs → vals j fs = [].
Proof.
  intros Hne. rewrite mapM_Some. induction 1 as [|m f ms fs E _ IH]; [done|].
  change (f :: fs) with ([f] ++ fs). rewrite vals_app, IH, app_nil_r.
  by eapply vals_msg_ne.
Qed.

Section msg.
Context {M : Type} (enc : M → option (list field)) (dec : list field → option M).
Hypothesis dec_enc : ∀ m fs, enc m = Some fs → dec fs = Some m.

Lemma of_msg_field k m f : msg_field enc k m = Some f → f.1 = k ∧ of_wval dec f.2 = Some m.
Proof.
  unfold msg_field. destruct (marshal_with enc m) as [b|] eqn:E; intros; simplify_eq/=.
  split; [done|]. by rewrite (unmarshal_marshal_with enc dec dec_enc m b E).
Qed.

Lemma repeated_vals k ms fs :
  mapM (msg_field enc k) ms = Some fs → mapM (of_wval dec) (vals k fs) = Some ms.
Proof.
  rewrite !mapM_Some. induction 1 as [|m f ms fs E _ IH]; [constructor|].
  apply of_msg_field in E as [Hk Hv]. rewrite vals_cons_eq by done. by constructor.
Qed.

End msg.

(** Reduce the values of one field of a serialised message to that field. *)
Ltac vals_of :=
  rewrite ?vals_app;
  repeat match goal with
  | H : str_field ?k _ = Some ?f |- context [vals ?j ?f] =>
      rewrite (vals_str_ne j k _ f ltac:(lia) H)
  | H : int_field _ ?k _ = Some ?f |- context [vals ?j ?f] =>
      rewrite (vals_int_ne j _ k _ f ltac:(lia) H)
  | H : mapM (msg_field ?e ?k) _ = Some ?f |- context [vals ?j ?f] =>
      rewrite (vals_repeated_ne e j k _ f ltac:(lia) H)
  | |- context [vals ?j (bytes_field ?k ?b)] => rewrite (vals_bytes_ne j k b) by lia
  | |- context [vals ?j (bool_field ?k ?b)] => rewrite (vals_bool_ne j k b) by lia
  end; rewrite ?app_nil_r; try reflexivity.

(** Split a successful serialisation into its fields. *)
Ltac split_enc H :=
  repeat match type of H with
  | context [?e ≫= _] => let E := fresh "E" in
      destruct e eqn:E; simpl in H; [|discriminate H]
  end; injection H as <-.

(** ** The framework's messages *)

Definition enc_request (m : Rpc.RpcRequest) : option (list field) :=
  a ← str_field 1 (Rpc.req_RequestId m); b ← str_field 2 (Rpc.req_Service m);
  c ← str_field 3 (Rpc.req_Method m); Some (a ++ b ++ c ++ bytes_field 4 (Rpc.req_Payload m)).
Definition dec_request (fs : list field) : option Rpc.RpcRequest :=
  a ← get_str 1 fs; b ← get_str 2 fs; c ← get_str 3 fs; d ← get_bytes 4 fs;
  Some (Rpc.Build_RpcRequest a b c d).

Lemma dec_enc_request m fs : enc_request m = Some fs → dec_request fs = Some m.
Proof.
  destruct m as [id sv me pl]. unfold enc_request, dec_request. simpl. intros H. split_enc H.
  erewrite (get_str_vals 1), (get_str_vals 2), (get_str_vals 3), (get_bytes_vals 4);
    [done|vals_of|eassumption|vals_of|eassumption|vals_of|eassumption|vals_of].
Qed.

Definition enc_error (m : Rpc.Error) : option (list field) :=
  a ← int_field i32_ok 1 (Rpc.Code m); b ← str_field 2 (Rpc.ErrMessage m); Some (a ++ b).
Definition dec_error (fs : list field) : option Rpc.Error :=
  a ← get_int wrap_i32 1 fs; b ← get_str 2 fs; Some (Rpc.Build_Error a b).

Lemma dec_enc_error m fs : enc_error m = Some fs → dec_error fs = Some m.
Proof.
  destruct m as [c t]. unfold enc_error, dec_error. simpl. intros H. split_enc H.
  erewrite (get_int_vals _ _ 1), (get_str_vals 2);
    [done|eassumption|vals_of|apply i32_wrap|eassumption|vals_of].
Qed.

Definition enc_response (m : Rpc.RpcResponse) : option (list field) :=
  a ← str_field 1 (Rpc.resp_RequestId m);
  c ← mapM (msg_field enc_error 3) (option_list (Rpc.resp_Error m));
  Some (a ++ bytes_field 2 (Rpc.resp_Payload m) ++ c).
Definition dec_response (fs : list field) : option Rpc.RpcResponse :=
  a ← get_str 1 fs; b ← get_bytes 2 fs; c ← mapM (of_wval dec_error) (vals 3 fs);
  Some (Rpc.Build_RpcResponse a b (last c)).

Lemma last_option_list {A} (o : option A) : last (option_list o) = o.
Proof. by destruct o. Qed.

Lemma dec_enc_response m fs : enc_response m = Some fs → dec_response fs = Some m.
Proof.
  destruct m as [id pl er]. unfold enc_response, dec_response. simpl. intros H. split_enc H.
  erewrite (get_str_vals 1), (get_bytes_vals 2);
    [|vals_of|eassumption|vals_of].
  cbn [mbind option_bind]. replace (vals 3 _) with (vals 3 l0) by (symmetry; vals_of).
  erewrite repeated_vals by (apply dec_enc_error || eassumption).
  simpl. by rewrite last_option_list.
Qed.

#[export] Program Instance request_message : Message Rpc.RpcRequest := {|
  Marshal := marshal_msg enc_request; Unmarshal := unmarshal_with dec_request |}.
Next Obligation. apply unmarshal_marshal_msg, dec_enc_request. Qed.

#[export] Program Instance response_message : Message Rpc.RpcResponse := {|
  Marshal := marshal_msg enc_response; Unmarshal := unmarshal_with dec_response |}.
Next Obligation. apply unmarshal_marshal_msg, dec_enc_response. Qed.

(** ** Which responses have a serialised form *)

#[local] Arguments field_okb : simpl never.

Lemma length_varint n : (length (varint n) ≤ 10)%nat.
Proof.
  unfold varint. generalize 10%nat. intros k. revert n.
  induction k as [|k IH]; intros n; [done|]. simpl. case_match; simpl; [lia|]. specialize (IH (n / 128)). lia.
Qed.

Lemma length_put_field f :
  Z.of_nat (length (put_field f)) ≤ 20 + match f.2 with WVarint _ => 0 | WBytes b => Z.of_nat (length b) end.
Proof.
  unfold put_field. destruct f as [k [n|b]]; simpl; rewrite !length_app;
    repeat match goal with |- context [varint ?n] => pose proof (length_varint n); generalize dependent (varint n); intros end;
    lia.
Qed.

Lemma str_field_okb k s :
  0 ≤ k < 2 ^ 29 → Utf8.valid s = true → Z.of_nat (String.length s) < 2 ^ 64 →
  ∃ fs, str_field k s = Some fs ∧ forallb field_okb fs = true ∧
        Z.of_nat (length (put_fields fs)) ≤ 20 + Z.of_nat (String.length s).
Proof.
  intros Hk Hv Hl. unfold str_field. rewrite Hv. eexists. split; [reflexivity|].
  assert (Hb : length (str_bytes s) = String.length s).
  { clear. unfold str_bytes. induction s as [|c s IH]; [done|]. simpl. by rewrite <- IH. }
  case_decide; [simpl; split; [done|lia]|]. split.
  - simpl. unfold field_okb. simpl. rewrite Hb. lia.
  - unfold put_fields. cbn [fmap list_fmap]. change (mjoin [?x]) with (x ++ []).
    pose proof (length_put_field (k, WBytes (str_bytes s))) as H1. simpl in H1. rewrite Hb in H1.
    simpl. rewrite app_nil_r. exact H1.
Qed.

(** Well-formed strings are all that is needed. *)
Lemma response_marshals (m : Rpc.RpcResponse) :
  Rpc.response_size m < 2 ^ 63 → Utf8.valid (Rpc.resp_RequestId m) = true →
  (∀ e, Rpc.resp_Error m = Some e → i32_ok (Rpc.Code e) = true ∧ Utf8.valid (Rpc.ErrMessage e) = true) →
  ∃ b, Marshal m = Ok b.
Proof.
  destruct m as [id pl er]. unfold Rpc.response_size. simpl. intros Hsize Hid Her.
  unfold marshal_msg, marshal_with, enc_response. simpl.
  destruct (str_field_okb 1 id) as (f1 & -> & Hf1 & _); [lia|done|destruct er; lia|]. simpl.
  assert (H2 : forallb field_okb (bytes_field 2 pl) = true).
  { unfold bytes_field. case_decide; [done|]. simpl. unfold field_okb. simpl. destruct er; lia. }
  destruct er as [[c t]|]; simpl.
  - destruct (Her _ eq_refl) as [Hc Ht]. simpl in *.
    unfold msg_field, marshal_with, enc_error. simpl. unfold int_field. rewrite Hc. simpl.
    destruct (str_field_okb 2 t) as (f2 & -> & Hf2 & Hl2); [lia|done|lia|]. simpl.
    assert (Hi : ∃ f3, (if decide (c = 0) then [] else [(1, WVarint (wrap_u64 c))]) = f3 ∧
      forallb field_okb f3 = true ∧ Z.of_nat (length (put_fields f3)) ≤ 20).
    { eexists. split; [reflexivity|]. case_decide; [done|]. split.
      - simpl. unfold field_okb, wrap_u64. simpl. pose proof (Z.mod_pos_bound c (2 ^ 64)). lia.
      - pose proof (length_put_field (1, WVarint (wrap_u64 c))) as Hp. simpl in Hp |- *.
        unfold put_fields. simpl. rewrite app_nil_r. lia. }
    destruct Hi as (f3 & -> & Hf3 & Hl3). rewrite forallb_app, Hf3, Hf2. simpl.
    rewrite !forallb_app, Hf1, H2. simpl.
    assert (Hlen : Z.of_nat (length (put_fields (f3 ++ f2))) < 2 ^ 64).
    { unfold put_fields in *. rewrite fmap_app, join_app, length_app. lia. }
    assert (Hf : field_okb (3, WBytes (put_fields (f3 ++ f2))) = true)
      by (unfold field_okb; cbn [fst snd]; lia).
    match goal with |- context [field_okb ?f] => replace (field_okb f) with true by (symmetry; exact Hf) end.
    simpl. eauto.
  - rewrite app_nil_r, forallb_app, Hf1, H2. simpl. eauto.
Qed.

Lemma unmarshal_error {M} (dec : list field → option M) b e :
  unmarshal_with dec b = Err e → Utf8.valid e = true.
Proof. unfold unmarshal_with. intros. case_all; reflexivity. Qed.

Lemma marshal_error {M} (enc : M → option (list field)) m e :
  marshal_msg enc m = Err e → Utf8.valid e = true.
Proof. unfold marshal_msg. intros. case_all. reflexivity. Qed.

Lemma get_str_valid k fs s : get_str k fs = Some s → Utf8.valid s = true.
Proof. unfold get_str. destruct (get_bytes k fs); simpl; [|done]. by case_match; intros; simplify_eq. Qed.

(** A request that was parsed has well-formed strings. *)
Lemma request_valid b (req : Rpc.RpcRequest) :
  Unmarshal b = Ok req →
  Utf8.valid (Rpc.req_RequestId req) = true ∧ Utf8.valid (Rpc.req_Service req) = true ∧
  Utf8.valid (Rpc.req_Method req) = true.
Proof.
  cbn [Unmarshal request_message]. unfold unmarshal_with. destruct (parse_fields b) as [fs|]; [|done].
  unfold dec_request. destruct (get_str 1 fs) eqn:E1, (get_str 2 fs) eqn:E2, (get_str 3 fs) eqn:E3,
    (get_bytes 4 fs) eqn:E4; try done. simpl. intros [= <-]. simpl.
  split_and!; eauto using get_str_valid.
Qed.

(** ** The registry's messages *)

Definition enc_register (m : Reg.RegisterRequest) : option (list field) :=
  a ← int_field i32_ok 1 (Reg.rr_Port m); b ← str_field 2 (Reg.rr_Service m); Some (a ++ b).
Definition dec_register (fs : list field) : option Reg.RegisterRequest :=
  a ← get_int wrap_i32 1 fs; b ← get_str 2 fs; Some (Reg.Build_RegisterRequest a b).
Lemma dec_enc_register m fs : enc_register m = Some fs → dec_register fs = Some m.
Proof.
  destruct m as [p v]. unfold enc_register, dec_register. simpl. intros H. split_enc H.
  erewrite (get_int_vals _ _ 1), (get_str_vals 2);
    [done|eassumption|vals_of|apply i32_wrap|eassumption|vals_of].
Qed.

Definition enc_heartbeat (m : Reg.HeartbeatRequest) : option (list field) :=
  int_field i32_ok 1 (Reg.hb_Port m).
Definition dec_heartbeat (fs : list field) : option Reg.HeartbeatRequest :=
  a ← get_int wrap_i32 1 fs; Some (Reg.Build_HeartbeatRequest a).
Lemma dec_enc_heartbeat m fs : enc_heartbeat m = Some fs → dec_heartbeat fs = Some m.
Proof.
  destruct m as [p]. unfold enc_heartbeat, dec_heartbeat. simpl. intros H.
  by erewrite (get_int_vals _ _ 1) by (apply i32_wrap || done).
Qed.

Definition enc_regresponse (m : Reg.RegistryResponse) : option (list field) :=
  b ← str_field 2 (Reg.RespMessage m); Some (bool_field 1 (Reg.Success m) ++ b).
Definition dec_regresponse (fs : list field) : option Reg.RegistryResponse :=
  a ← get_bool 1 fs; b ← get_str 2 fs; Some (Reg.Build_RegistryResponse a b).
Lemma dec_enc_regresponse m fs : enc_regresponse m = Some fs → dec_regresponse fs = Some m.
Proof.
  destruct m as [p v]. unfold enc_regresponse, dec_regresponse. simpl. intros H. split_enc H.
  erewrite (get_bool_vals 1), (get_str_vals 2); [done|eassumption|vals_of|vals_of].
Qed.

Definition enc_info (m : Reg.ServiceInfo) : option (list field) :=
  a ← str_field 1 (Reg.si_Ip m); b ← int_field i32_ok 2 (Reg.si_Port m); Some (a ++ b).
Definition dec_info (fs : list field) : option Reg.ServiceInfo :=
  a ← get_str 1 fs; b ← get_int wrap_i32 2 fs; Some (Reg.Build_ServiceInfo a b).
Lemma dec_enc_info m fs : enc_info m = Some fs → dec_info fs = Some m.
Proof.
  destruct m as [p v]. unfold enc_info, dec_info. simpl. intros H. split_enc H.
  erewrite (get_str_vals 1), (get_int_vals _ _ 2);
    [done|apply i32_wrap|eassumption|vals_of|eassumption|vals_of].
Qed.

(** [ServiceListEntry], and the map entry that holds one. *)
Definition enc_entry (l : list Reg.ServiceInfo) : option (list field) :=
  mapM (msg_field enc_info 1) l.
Definition dec_entry (fs : list field) : option (list Reg.ServiceInfo) :=
  mapM (of_wval dec_info) (vals 1 fs).
Lemma dec_enc_entry m fs : enc_entry m = Some fs → dec_entry fs = Some m.
Proof. apply repeated_vals, dec_enc_info. Qed.

Definition enc_map_entry (kv : string * list Reg.ServiceInfo) : option (list field) :=
  a ← str_field 1 kv.1; b ← msg_field enc_entry 2 kv.2; Some (a ++ [b]).
Definition dec_map_entry (fs : list field) : option (string * list Reg.ServiceInfo) :=
  a ← get_str 1 fs; b ← mapM (of_wval dec_entry) (vals 2 fs); Some (a, default [] (last b)).
Lemma dec_enc_map_entry m fs : enc_map_entry m = Some fs → dec_map_entry fs = Some m.
Proof.
  destruct m as [k l]. unfold enc_map_entry, dec_map_entry. simpl. intros H. split_enc H.
  destruct (of_msg_field _ _ dec_enc_entry _ _ _ E0) as [Hk Hv].
  erewrite (get_str_vals 1); [|eassumption|].
  2: { rewrite vals_app. erewrite (vals_msg_ne enc_entry 1 2) by (done || lia). by rewrite app_nil_r. }
  cbn [mbind option_bind]. rewrite vals_app, (vals_str_ne 2 1 k l0) by (done || lia). cbn [app].
  rewrite vals_cons_eq by done. cbn. by rewrite Hv.
Qed.

Definition enc_service_list (l : Reg.ServiceList) : option (list field) :=
  mapM (msg_field enc_map_entry 1) (map_to_list l).
Definition dec_service_list (fs : list field) : option Reg.ServiceList :=
  es ← mapM (of_wval dec_map_entry) (vals 1 fs); Some (list_to_map es).
Lemma dec_enc_service_list m fs : enc_service_list m = Some fs → dec_service_list fs = Some m.
Proof.
  unfold enc_service_list, dec_service_list. intros H.
  rewrite (repeated_vals enc_map_entry dec_map_entry dec_enc_map_entry _ _ _ H).
  cbn. by rewrite list_to_map_to_list.
Qed.

(** The [oneof]: the field number selects the constructor. *)
Definition enc_payload (p : Reg.Payload) : option field :=
  match p with
  | Reg.PRegister r => msg_field enc_register 1 r
  | Reg.PHeartbeat r => msg_field enc_heartbeat 2 r
  | Reg.PSubscribe => Some (3, WBytes [])
  | Reg.PResponse r => msg_field enc_regresponse 4 r
  | Reg.PServiceList l => msg_field enc_service_list 5 l
  end.
Definition dec_payload (f : field) : option Reg.Payload :=
  match f.1 with
  | 1 => Reg.PRegister <$> of_wval dec_register f.2
  | 2 => Reg.PHeartbeat <$> of_wval dec_heartbeat f.2
  | 3 => Some Reg.PSubscribe
  | 4 => Reg.PResponse <$> of_wval dec_regresponse f.2
  | 5 => Reg.PServiceList <$> of_wval dec_service_list f.2
  | _ => None
  end.
Lemma dec_enc_payload p f : enc_payload p = Some f → dec_payload f = Some p.
Proof.
  destruct p; simpl; intros H; [..|by simplify_eq| |];
    (eapply of_msg_field in H as [Hk Hv];
      [|first [apply dec_enc_register | apply dec_enc_heartbeat | apply dec_enc_regresponse
              | apply dec_enc_service_list]]);
    unfold dec_payload; rewrite Hk, Hv; done.
Qed.

Definition enc_registry (m : Reg.RegistryMessage) : option (list field) :=
  mapM enc_payload (option_list (Reg.payload m)).
Definition dec_registry (fs : list field) : option Reg.RegistryMessage :=
  ps ← mapM dec_payload fs; Some (Reg.Build_RegistryMessage (last ps)).
Lemma dec_enc_registry m fs : enc_registry m = Some fs → dec_registry fs = Some m.
Proof.
  destruct m as [p]. unfold enc_registry, dec_registry. intros H. simpl in H.
  assert (H' : mapM dec_payload fs = Some (option_list p)).
  { revert H. rewrite !mapM_Some. induction 1; constructor; auto using dec_enc_payload. }
  rewrite H'. cbn. by rewrite last_option_list.
Qed.

#[export] Program Instance registry_message : Message Reg.RegistryMessage := {|
  Marshal := marshal_msg enc_registry; Unmarshal := unmarshal_with dec_registry |}.
Next Obligation. apply unmarshal_marshal_msg, dec_enc_registry. Qed.

(** ** The application's messages *)

Definition enc_regreq (m : App.RegisterRequest) : option (list field) :=
  a ← str_field 1 (App.reg_Name m); b ← str_field 2 (App.reg_Password m); Some (a ++ b).
Definition dec_regreq (fs : list field) : option App.RegisterRequest :=
  a ← get_str 1 fs; b ← get_str 2 fs; Some (App.Build_RegisterRequest a b).
Lemma dec_enc_regreq m fs : enc_regreq m = Some fs → dec_regreq fs = Some m.
Proof.
  destruct m as [x0 x1]. unfold enc_regreq, dec_regreq. simpl. intros H. split_enc H.
  erewrite (get_str_vals 1), (get_str_vals 2); [done|eassumption|vals_of|eassumption|vals_of].
Qed.
#[export] Program Instance regreq_message : Message App.RegisterRequest := {|
  Marshal := marshal_msg enc_regreq; Unmarshal := unmarshal_with dec_regreq |}.
Next Obligation. apply unmarshal_marshal_msg, dec_enc_regreq. Qed.

Definition enc_regresp (m : App.RegisterResponse) : option (list field) :=
  a ← int_field i64_ok 1 (App.reg_UserId m); b ← str_field 2 (App.reg_Message m); Some (a ++ b).
Definition dec_regresp (fs : list field) : option App.RegisterResponse :=
  a ← get_int wrap_i64 1 fs; b ← get_str 2 fs; Some (App.Build_RegisterResponse a b).
Lemma dec_enc_regresp m fs : enc_regresp m = Some fs → dec_regresp fs = Some m.
Proof.
  destruct m as [x0 x1]. unfold enc_regresp, dec_regresp. simpl. intros H. split_enc H.
  erewrite (get_int_vals _ _ 1), (get_str_vals 2); [done|eassumption|vals_of|apply i64_wrap|eassumption|vals_of].
Qed.
#[export] Program Instance regresp_message : Message App.RegisterResponse := {|
  Marshal := marshal_msg enc_regresp; Unmarshal := unmarshal_with dec_regresp |}.
Next Obligation. apply unmarshal_marshal_msg, dec_enc_regresp. Qed.

Definition enc_loginreq (m : App.LoginRequest) : option (list field) :=
  a ← str_field 1 (App.login_Name m); b ← str_field 2 (App.login_Password m); Some (a ++ b).
Definition dec_loginreq (fs : list field) : option App.LoginRequest :=
  a ← get_str 1 fs; b ← get_str 2 fs; Some (App.Build_LoginRequest a b).
Lemma dec_enc_loginreq m fs : enc_loginreq m = Some fs → dec_loginreq fs = Some m.
Proof.
  destruct m as [x0 x1]. unfold enc_loginreq, dec_loginreq. simpl. intros H. split_enc H.
  erewrite (get_str_vals 1), (get_str_vals 2); [done|eassumption|vals_of|eassumption|vals_of].
Qed.
#[export] Program Instance loginreq_message : Message App.LoginRequest := {|
  Marshal := marshal_msg enc_loginreq; Unmarshal := unmarshal_with dec_loginreq |}.
Next Obligation. apply unmarshal_marshal_msg, dec_enc_loginreq. Qed.

Definition enc_loginresp (m : App.LoginResponse) : option (list field) :=
  a ← int_field i64_ok 1 (App.login_UserId m); b ← str_field 2 (App.login_Message m); Some (a ++ b).
Definition dec_loginresp (fs : list field) : option App.LoginResponse :=
  a ← get_int wrap_i64 1 fs; b ← get_str 2 fs; Some (App.Build_LoginResponse a b).
Lemma dec_enc_loginresp m fs : enc_loginresp m = Some fs → dec_loginresp fs = Some m.
Proof.
  destruct m as [x0 x1]. unfold enc_loginresp, dec_loginresp. simpl. intros H. split_enc H.
  erewrite (get_int_vals _ _ 1), (get_str_vals 2); [done|eassumption|vals_of|apply i64_wrap|eassumption|vals_of].
Qed.
#[export] Program Instance loginresp_message : Message App.LoginResponse := {|
  Marshal := marshal_msg enc_loginresp; Unmarshal := unmarshal_with dec_loginresp |}.
Next Obligation. apply unmarshal_marshal_msg, dec_enc_loginresp. Qed.

Definition enc_logoutreq (m : App.LogoutRequest) : option (list field) :=
  a ← int_field i64_ok 1 (App.logout_UserId m); Some (a).
Definition dec_logoutreq (fs : list field) : option App.LogoutRequest :=
  a ← get_int wrap_i64 1 fs; Some (App.Build_LogoutRequest a).
Lemma dec_enc_logoutreq m fs : enc_logoutreq m = Some fs → dec_logoutreq fs = Some m.
Proof.
  destruct m as [x0]. unfold enc_logoutreq, dec_logoutreq. simpl. intros H. split_enc H.
  erewrite (get_int_vals _ _ 1); [done|apply i64_wrap|eassumption|vals_of].
Qed.
#[export] Program Instance logoutreq_message : Message App.LogoutRequest := {|
  Marshal := marshal_msg enc_logoutreq; Unmarshal := unmarshal_with dec_logoutreq |}.
Next Obligation. apply unmarshal_marshal_msg, dec_enc_logoutreq. Qed.

Definition enc_logoutresp (m : App.LogoutResponse) : option (list field) :=
  a ← str_field 1 (App.logout_Message m); Some (a).
Definition dec_logoutresp (fs : list field) : option App.LogoutResponse :=
  a ← get_str 1 fs; Some (App.Build_LogoutResponse a).
Lemma dec_enc_logoutresp m fs : enc_logoutresp m = Some fs → dec_logoutresp fs = Some m.
Proof.
  destruct m as [x0]. unfold enc_logoutresp, dec_logoutresp. simpl. intros H. split_enc H.
  erewrite (get_str_vals 1); [done|eassumption|vals_of].
Qed.
#[export] Program Instance logoutresp_message : Message App.LogoutResponse := {|
  Marshal := marshal_msg enc_logoutresp; Unmarshal := unmarshal_with dec_logoutresp |}.
Next Obligation. apply unmarshal_marshal_msg, dec_enc_logoutresp. Qed.

Definition enc_drawreq (m : App.DrawRequest) : option (list field) :=
  a ← int_field i64_ok 1 (App.draw_UserId m); b ← int_field i32_ok 2 (App.draw_Count m); Some (a ++ b).
Definition dec_drawreq (fs : list field) : option App.DrawRequest :=
  a ← get_int wrap_i64 1 fs; b ← get_int wrap_i32 2 fs; Some (App.Build_DrawRequest a b).
Lemma dec_enc_drawreq m fs : enc_drawreq m = Some fs → dec_drawreq fs = Some m.
Proof.
  destruct m as [x0 x1]. unfold enc_drawreq, dec_drawreq. simpl. intros H. split_enc H.
  erewrite (get_int_vals _ _ 1), (get_int_vals _ _ 2); [done|apply i32_wrap|eassumption|vals_of|apply i64_wrap|eassumption|vals_of].
Qed.
#[export] Program Instance drawreq_message : Message App.DrawRequest := {|
  Marshal := marshal_msg enc_drawreq; Unmarshal := unmarshal_with dec_drawreq |}.
Next Obligation. apply unmarshal_marshal_msg, dec_enc_drawreq. Qed.

Definition enc_card (m : App.Card) : option (list field) :=
  a ← str_field 1 (App.card_Name m); b ← int_field i32_ok 2 (App.card_Stars m); Some (a ++ b).
Definition dec_card (fs : list field) : option App.Card :=
  a ← get_str 1 fs; b ← get_int wrap_i32 2 fs; Some (App.Build_Card a b).
Lemma dec_enc_card m fs : enc_card m = Some fs → dec_card fs = Some m.
Proof.
  destruct m as [x0 x1]. unfold enc_card, dec_card. simpl. intros H. split_enc H.
  erewrite (get_str_vals 1), (get_int_vals _ _ 2); [done|apply i32_wrap|eassumption|vals_of|eassumption|vals_of].
Qed.
#[export] Program Instance card_message : Message App.Card := {|
  Marshal := marshal_msg enc_card; Unmarshal := unmarshal_with dec_card |}.
Next Obligation. apply unmarshal_marshal_msg, dec_enc_card. Qed.

Definition enc_drawresp (m : App.DrawResponse) : option (list field) :=
  a ← mapM (msg_field enc_card 1) (App.draw_Cards m); b ← str_field 2 (App.draw_Instance m);
  Some (a ++ b).
Definition dec_drawresp (fs : list field) : option App.DrawResponse :=
  a ← mapM (of_wval dec_card) (vals 1 fs); b ← get_str 2 fs; Some (App.Build_DrawResponse a b).
Lemma dec_enc_drawresp m fs : enc_drawresp m = Some fs → dec_drawresp fs = Some m.
Proof.
  destruct m as [cs i]. unfold enc_drawresp, dec_drawresp. simpl. intros H. split_enc H.
  erewrite (get_str_vals 2); [|eassumption|vals_of].
  replace (vals 1 _) with (vals 1 l) by (symmetry; vals_of).
  by erewrite repeated_vals by (apply dec_enc_card || eassumption).
Qed.
#[export] Program Instance drawresp_message : Message App.DrawResponse := {|
  Marshal := marshal_msg enc_drawresp; Unmarshal := unmarshal_with dec_drawresp |}.
Next Obligation. apply unmarshal_marshal_msg, dec_enc_drawresp. Qed.

(** A request as it appears on the wire. *)
Example request_bytes :
  Marshal (Rpc.Build_RpcRequest "r1" "S" "m" (str_bytes "p"))
  = Ok (byte_of_ascii <$> ["010"; "002"; "r"; "1"; "018"; "001"; "S"; "026"; "001"; "m";
                             "034"; "001"; "p"]%char).
Proof. vm_compute. reflexivity. Qed.

(** ** The documented laws *)

#[export] Instance proto3_rpc : Proto3Rpc.
Proof.
  split; [exact request_valid|]. intros resp Hsize Hid He. apply response_marshals; [lia|done|].
  intros e Ee. destruct (He e Ee) as [Hc Hv]. split; [unfold i32_ok; lia|done].
Qed.

Ltac text_errors := split; [apply marshal_error|apply unmarshal_error].
#[export] Instance request_texts : TextErrors Rpc.RpcRequest.
Proof. text_errors. Qed.
#[export] Instance regreq_texts : TextErrors App.RegisterRequest.
Proof. text_errors. Qed.
#[export] Instance regresp_texts : TextErrors App.RegisterResponse.
Proof. text_errors. Qed.
#[export] Instance loginreq_texts : TextErrors App.LoginRequest.
Proof. text_errors. Qed.
#[export] Instance loginresp_texts : TextErrors App.LoginResponse.
Proof. text_errors. Qed.
#[export] Instance logoutreq_texts : TextErrors App.LogoutRequest.
Proof. text_errors. Qed.
#[export] Instance logoutresp_texts : TextErrors App.LogoutResponse.
Proof. text_errors. Qed.
#[export] Instance drawreq_texts : TextErrors App.DrawRequest.
Proof. text_errors. Qed.
#[export] Instance drawresp_texts : TextErrors App.DrawResponse.
Proof. text_errors. Qed.

End Wire.
