(* ===== verification/Db.v ===== *)
(** * Database: [src/server/internal/db/db.go]

    [Sha256] is package [crypto/sha256] and [HashPassword] the hexadecimal digest
    stored for a password.  PostgreSQL and its driver are not part of the
    repository: the class [Database] states what the three SQL statements of the
    services do to the tables that [Open] creates, and [RefDb] is an instance. *)

From S2P Require Import Prelude GoLib.

(** ** [crypto/sha256] (FIPS 180-4) *)
Module Sha256.

Definition add32 (x y : Z) : Z := wrap_u32 (x + y).
Definition rotr (n x : Z) : Z := Z.lor (Z.shiftr x n) (wrap_u32 (Z.shiftl x (32 - n))).

(** The round constants are the first 32 bits of the fractional parts of the cube
    roots of the first 64 primes, the initial state those of the square roots of
    the first eight. *)
Definition is_prime (n : Z) : bool :=
  forallb (λ d, negb (n mod Z.of_nat d =? 0)) (seq 2 (Z.to_nat n - 2)).

Definition primes : list Z :=
  Eval vm_compute in filter (λ n, is_prime n = true) (Z.of_nat <$> seq 2 310).

(** The greatest [r] with [r^3 ≤ x], among the numbers of [bits] bits. *)
Fixpoint cube_root (bits : nat) (r x : Z) : Z :=
  match bits with
  | O => r
  | S bits =>
    let r' := r + Z.shiftl 1 (Z.of_nat bits) in
    cube_root bits (if r' * r' * r' <=? x then r' else r) x
  end.

Definition K : list Z :=
  Eval vm_compute in (λ p, wrap_u32 (cube_root 36 0 (Z.shiftl p 96))) <$> primes.

Definition H0 : list Z :=
  Eval vm_compute in (λ p, wrap_u32 (Z.sqrt (Z.shiftl p 64))) <$> take 8 primes.

Definition ssig0 x := Z.lxor (Z.lxor (rotr 7 x) (rotr 18 x)) (Z.shiftr x 3).
Definition ssig1 x := Z.lxor (Z.lxor (rotr 17 x) (rotr 19 x)) (Z.shiftr x 10).
Definition bsig0 x := Z.lxor (Z.lxor (rotr 2 x) (rotr 13 x)) (rotr 22 x).
Definition bsig1 x := Z.lxor (Z.lxor (rotr 6 x) (rotr 11 x)) (rotr 25 x).
Definition ch x y z := Z.lxor (Z.land x y) (Z.land (Z.lxor x 0xffffffff) z).
Definition maj x y z := Z.lxor (Z.lxor (Z.land x y) (Z.land x z)) (Z.land y z).

(** A word of [n] bytes, most significant first. *)
Fixpoint be_bytes (n : nat) (z : Z) : list Z :=
  match n with O => [] | S n => Z.shiftr z (8 * Z.of_nat n) mod 256 :: be_bytes n z end.

Definition pad (msg : list Z) : list Z :=
  let l := Z.of_nat (length msg) in
  msg ++ [0x80] ++ replicate (Z.to_nat ((55 - l) mod 64)) 0 ++ be_bytes 8 (8 * l).

Fixpoint words (l : list Z) : list Z :=
  match l with
  | a :: b :: c :: d :: l =>
    Z.lor (Z.shiftl a 24) (Z.lor (Z.shiftl b 16) (Z.lor (Z.shiftl c 8) d)) :: words l
  | _ => []
  end.

(** The message schedule, newest word first. *)
Fixpoint schedule (n : nat) (rw : list Z) : list Z :=
  match n with
  | O => rw
  | S n =>
    let at_ i := nth i rw 0 in
    schedule n (add32 (add32 (ssig1 (at_ 1%nat)) (at_ 6%nat))
                      (add32 (ssig0 (at_ 14%nat)) (at_ 15%nat)) :: rw)
  end.

Definition round (st : list Z) (kw : Z * Z) : list Z :=
  match st with
  | [a; b; c; d; e; f; g; h] =>
    let t1 := add32 (add32 (add32 h (bsig1 e)) (ch e f g)) (add32 kw.1 kw.2) in
    let t2 := add32 (bsig0 a) (maj a b c) in
    [add32 t1 t2; a; b; c; add32 d t1; e; f; g]
  | _ => st
  end.

Definition compress (st : list Z) (block : list Z) : list Z :=
  let w := rev (schedule 48 (rev (words block))) in
  zip_with add32 st (foldl round st (zip K w)).

Fixpoint blocks (n : nat) (l : list Z) : list (list Z) :=
  match n with
  | O => []
  | S n => match l with [] => [] | _ => take 64 l :: blocks n (drop 64 l) end
  end.

(** The digest as 32 byte values. *)
Definition Sum256 (data : bytes) : list Z :=
  let p := pad (byte_Z <$> data) in
  mjoin (be_bytes 4 <$> foldl compress H0 (blocks (length p) p)).

End Sha256.

Module Db.

(** The [%x] verb on a byte array: two lower-case hexadecimal digits per byte. *)
Definition hex_digit (n : Z) : ascii := ascii_of_N (Z.to_N (if n <? 10 then 48 + n else 87 + n)).

Fixpoint hex (l : list Z) : string :=
  match l with
  | [] => ""
  | b :: l => String (hex_digit (b / 16)) (String (hex_digit (b mod 16)) (hex l))
  end.

Definition HashPassword (password : string) : string :=
  hex (Sha256.Sum256 (str_bytes password)).

Example HashPassword_abc :
  HashPassword "abc" = "ba7816bf8f01cfea414140de5dae2223b00361a396177a9cb410ff61f20015ad".
Proof. vm_compute. reflexivity. Qed.

Example HashPassword_two_blocks :
  HashPassword "abcdbcdecdefdefgefghfghighijhijkijkljklmklmnlmnomnopnopq"
  = "248d6a61d20638b8e5c026930c3e6039a33ce45964ff2167f6ecedd419db06c1".
Proof. vm_compute. reflexivity. Qed.

(** ** [Open] *)

Definition create_users : string :=
  "CREATE TABLE IF NOT EXISTS users (
			id BIGSERIAL PRIMARY KEY,
			name TEXT UNIQUE NOT NULL,
			password_hash TEXT NOT NULL,
			created_at TIMESTAMP DEFAULT NOW()
		)".

Definition create_cards : string :=
  "CREATE TABLE IF NOT EXISTS cards (
			id BIGSERIAL PRIMARY KEY,
			user_id BIGINT NOT NULL,
			name TEXT NOT NULL,
			stars INTEGER NOT NULL,
			drawn_at TIMESTAMP DEFAULT NOW()
		)".

Section open.
(** The driver: opening a handle, pinging it and running a statement. *)
Context {DB : Type}
  (sql_Open : string → result string DB)
  (Ping : DB → result string unit)
  (Exec : string → DB → result string DB).

Definition Open (databaseURL : string) : result string DB :=
  db ← map_err (λ e, "open db: " +:+ e) (sql_Open databaseURL);
  _ ← map_err (λ e, "ping db: " +:+ e) (Ping db);
  db ← map_err (λ e, "create users table: " +:+ e) (Exec create_users db);
  map_err (λ e, "create cards table: " +:+ e) (Exec create_cards db).

End open.

(** ** Digests *)

Lemma round_length st kw : length st = 8%nat → length (Sha256.round st kw) = 8%nat.
Proof. intros H. do 9 (destruct st as [|? st]; try done). Qed.

Lemma compress_length st block : length st = 8%nat → length (Sha256.compress st block) = 8%nat.
Proof.
  intros H. unfold Sha256.compress. rewrite length_zip_with.
  assert (∀ kws st, length st = 8%nat → length (foldl Sha256.round st kws) = 8%nat) as Hf.
  { induction kws as [|kw kws IH]; intros s Hs; [done|]. by apply IH, round_length. }
  rewrite Hf by done. lia.
Qed.

Lemma be_bytes_range n z : length (Sha256.be_bytes n z) = n ∧
  Forall (λ b, 0 ≤ b < 256) (Sha256.be_bytes n z).
Proof.
  induction n as [|n [IH1 IH2]]; simpl; [done|]. split; [by rewrite IH1|].
  constructor; [apply Z.mod_pos_bound; lia|done].
Qed.

Lemma join_be_bytes l :
  length (mjoin (Sha256.be_bytes 4 <$> l)) = (4 * length l)%nat ∧
  Forall (λ b, 0 ≤ b < 256) (mjoin (Sha256.be_bytes 4 <$> l)).
Proof.
  induction l as [|z l [IH1 IH2]]; [done|].
  change (mjoin (Sha256.be_bytes 4 <$> z :: l)) with
    (Sha256.be_bytes 4 z ++ mjoin (Sha256.be_bytes 4 <$> l)).
  destruct (be_bytes_range 4 z) as [H1 H2]. rewrite length_app, H1, IH1.
  split; [simpl; lia|]. by apply Forall_app.
Qed.

Lemma Sum256_range data :
  length (Sha256.Sum256 data) = 32%nat ∧ Forall (λ b, 0 ≤ b < 256) (Sha256.Sum256 data).
Proof.
  unfold Sha256.Sum256. set (bs := Sha256.blocks _ _). set (h := foldl _ _ _).
  assert (length h = 8%nat) as Hh.
  { unfold h. assert (length Sha256.H0 = 8%nat) as Hs by done. revert Hs.
    generalize Sha256.H0. induction bs as [|b bs IH]; intros st Hs; [done|].
    by apply IH, compress_length. }
  destruct (join_be_bytes h) as [-> ?]. by rewrite Hh.
Qed.

Definition is_hex (c : ascii) : bool :=
  let n := Z.of_N (N_of_ascii c) in
  ((48 <=? n) && (n <=? 57)) || ((97 <=? n) && (n <=? 102)).

Lemma hex_digit_is_hex n : 0 ≤ n < 16 → is_hex (hex_digit n) = true.
Proof.
  intros Hn. assert (n = 0 ∨ n = 1 ∨ n = 2 ∨ n = 3 ∨ n = 4 ∨ n = 5 ∨ n = 6 ∨ n = 7 ∨ n = 8 ∨
    n = 9 ∨ n = 10 ∨ n = 11 ∨ n = 12 ∨ n = 13 ∨ n = 14 ∨ n = 15) by lia.
  destruct_or!; subst; reflexivity.
Qed.

Lemma hex_shape l :
  Forall (λ b, 0 ≤ b < 256) l →
  String.length (hex l) = (2 * length l)%nat ∧
  Forall (λ c, is_hex c = true) (String.list_ascii_of_string (hex l)).
Proof.
  induction 1 as [|b l Hb _ [IH1 IH2]]; [done|]. simpl. rewrite IH1. split; [lia|].
  repeat constructor; [| |done]; apply hex_digit_is_hex; Z.div_mod_to_equations; lia.
Qed.

Lemma hex_inj l k :
  Forall (λ b, 0 ≤ b < 256) l → Forall (λ b, 0 ≤ b < 256) k → hex l = hex k → l = k.
Proof.
  assert (Hd : ∀ n m, 0 ≤ n < 16 → 0 ≤ m < 16 → hex_digit n = hex_digit m → n = m).
  { intros n m Hn Hm E. unfold hex_digit in E. apply (f_equal N_of_ascii) in E.
    rewrite !N_ascii_embedding in E by (repeat case_match; lia).
    repeat case_match; lia. }
  intros Hl. revert k. induction Hl as [|b l Hb _ IH]; intros [|c k] Hk E; try done.
  apply Forall_cons in Hk as [Hc Hk]. simpl in E. injection E as E1 E2 E3.
  apply Hd in E1; [|Z.div_mod_to_equations; lia..].
  apply Hd in E2; [|Z.div_mod_to_equations; lia..].
  rewrite (IH k Hk E3). f_equal. rewrite (Z.div_mod b 16), (Z.div_mod c 16) by lia. lia.
Qed.

(** The stored form of any password is 64 lower-case hexadecimal digits, and
    two passwords share it exactly when their SHA-256 digests are equal. *)
Theorem HashPassword_shape (p q : string) :
  String.length (HashPassword p) = 64%nat ∧
  Forall (λ c, is_hex c = true) (String.list_ascii_of_string (HashPassword p)) ∧
  (HashPassword p = HashPassword q ↔
   Sha256.Sum256 (str_bytes p) = Sha256.Sum256 (str_bytes q)).
Proof.
  unfold HashPassword. destruct (Sum256_range (str_bytes p)) as [Hl Hr].
  destruct (Sum256_range (str_bytes q)) as [_ Hr'].
  destruct (hex_shape _ Hr) as [H1 H2]. rewrite H1, Hl. split_and!; [done|done|].
  split; [by apply hex_inj|]. by intros ->.
Qed.

(** ** The tables *)

(** A [TEXT] column takes UTF-8 without NUL. *)
Definition text_ok (s : string) : bool :=
  Utf8.valid s && forallb (λ c, negb (Ascii.eqb c "000")) (String.list_ascii_of_string s).

Lemma hex_text s :
  Forall (λ c, is_hex c = true) (String.list_ascii_of_string s) → text_ok s = true.
Proof.
  unfold text_ok. intros H. apply andb_true_iff. split.
  - induction s as [|c s IH]; [done|]. simpl in H. apply Forall_cons in H as [Hc H].
    apply Utf8.valid_ascii; [|by apply IH]. unfold is_hex in Hc. unfold Utf8.code. lia.
  - apply forallb_forall. intros c Hc%list_elem_of_In. rewrite Forall_forall in H.
    apply H in Hc. destruct (Ascii.eqb_spec c "000"); [by subst|done].
Qed.

Lemma HashPassword_text p : text_ok (HashPassword p) = true.
Proof. apply hex_text. destruct (Sum256_range (str_bytes p)) as [_ Hr]. apply (hex_shape _ Hr). Qed.

(** What the server relies on of PostgreSQL and of [database/sql], for the
    statements it runs.  [users] maps a name to the id and the password hash of
    its row, [cards] lists the rows of the other table in insertion order, and
    [available] says that statements reach the database, which then accepts values that
    fit their columns.  A statement that returns an error has not changed the tables; that
    a connection is lost after a statement took effect and before its result arrived is
    outside of the model. *)
Class Database (DB : Type) : Type := {
  insert_user : string → string → DB → DB * result string Z;
  select_user : string → string → DB → result string Z;
  insert_card : Z → string → Z → DB → DB * result string unit;

  users : DB → gmap string (Z * string);
  cards : DB → list (Z * string * Z);
  available : DB → Prop;

  (** [INSERT ... RETURNING id] on a table with a unique name and a serial key. *)
  insert_user_ok d n h d' id :
    insert_user n h d = (d', Ok id) →
    users d !! n = None ∧ users d' = <[n := (id, h)]> (users d) ∧ cards d' = cards d ∧
    0 < id ∧ (∀ n' r, users d !! n' = Some r → r.1 ≠ id);
  insert_user_err d n h d' e :
    insert_user n h d = (d', Err e) → users d' = users d ∧ cards d' = cards d;
  insert_user_available d n h :
    available d → users d !! n = None → text_ok n = true → text_ok h = true →
    (∃ d' id, insert_user n h d = (d', Ok id) ∧ available d');

  (** [SELECT id ... WHERE name = $1 AND password_hash = $2], scanned into one row. *)
  select_user_ok d n h id : select_user n h d = Ok id → users d !! n = Some (id, h);
  select_user_available d n h id :
    available d → users d !! n = Some (id, h) → select_user n h d = Ok id;
  select_user_none d n h :
    available d → (∀ id, users d !! n ≠ Some (id, h)) →
    is_Some (users d !! n) ∨ text_ok n = true → text_ok h = true →
    select_user n h d = Err "sql: no rows in result set";

  (** [INSERT INTO cards]: a [BIGINT], a [TEXT] and an [INTEGER]. *)
  insert_card_ok d u n k d' :
    insert_card u n k d = (d', Ok tt) →
    cards d' = cards d ++ [(u, n, k)] ∧ users d' = users d;
  insert_card_err d u n k d' e :
    insert_card u n k d = (d', Err e) → cards d' = cards d ∧ users d' = users d;
  insert_card_available d u n k :
    available d → in_i64 u → text_ok n = true → - 2 ^ 31 ≤ k < 2 ^ 31 →
    ∃ d', insert_card u n k d = (d', Ok tt) ∧ available d';
}.

End Db.

(** ** A reference database: the two tables in memory *)
Module RefDb.
Import Db.

Record ref_db : Type := {
  ref_users : gmap string (Z * string);
  ref_cards : list (Z * string * Z);
  next_id : positive;
  up : bool;
}.

Definition fresh_id (d : ref_db) : Z :=
  1 + map_fold (λ _ r m, Z.max r.1 m) (Z.pos (next_id d)) (ref_users d).

Definition ref_insert_user (n h : string) (d : ref_db) : ref_db * result string Z :=
  if up d then
    match ref_users d !! n with
    | Some _ =>
      (d, Err "pq: duplicate key value violates unique constraint")
    | None =>
      let id := fresh_id d in
      ({| ref_users := <[n := (id, h)]> (ref_users d); ref_cards := ref_cards d;
          next_id := next_id d; up := true |}, Ok id)
    end
  else (d, Err "connection refused").

Definition ref_select_user (n h : string) (d : ref_db) : result string Z :=
  if up d then
    match ref_users d !! n with
    | Some (id, h') => if decide (h' = h) then Ok id else Err "sql: no rows in result set"
    | None => Err "sql: no rows in result set"
    end
  else Err "connection refused".

Definition ref_insert_card (u : Z) (n : string) (k : Z) (d : ref_db) : ref_db * result string unit :=
  if up d then
    ({| ref_users := ref_users d; ref_cards := ref_cards d ++ [(u, n, k)];
        next_id := next_id d; up := true |}, Ok tt)
  else (d, Err "connection refused").

Lemma fresh_id_gt d n r : ref_users d !! n = Some r → r.1 < fresh_id d.
Proof.
  unfold fresh_id. revert n r. generalize (Z.pos (next_id d)). generalize (ref_users d). intros m b.
  apply (map_fold_weak_ind
    (λ z m, ∀ n r, m !! n = Some r → r.1 < 1 + z)).
  - intros n r H. by rewrite lookup_empty in H.
  - intros n r m' z Hn IH n' r' H. apply lookup_insert_Some in H as [[<- <-]|[? H]]; [lia|].
    specialize (IH _ _ H). lia.
Qed.

Lemma fresh_id_pos d : 0 < fresh_id d.
Proof.
  unfold fresh_id. apply (map_fold_weak_ind (λ z _, 0 < 1 + z)); [lia|]. intros. lia.
Qed.

#[export] Program Instance ref_database : Database ref_db := {|
  insert_user := ref_insert_user; select_user := ref_select_user;
  insert_card := ref_insert_card;
  users := ref_users; cards := ref_cards; available := λ d, up d = true |}.
Next Obligation.
  unfold ref_insert_user. intros d n h d' id H.
  destruct (up d); [|done]. destruct (ref_users d !! n) eqn:E; simplify_eq/=.
  split_and!; try done; [apply fresh_id_pos|].
  intros n' r Hr. apply fresh_id_gt in Hr. lia.
Qed.
Next Obligation. unfold ref_insert_user. intros. case_all; done. Qed.
Next Obligation.
  unfold ref_insert_user. intros d n h Hu Hn _ _. rewrite Hu, Hn. eauto.
Qed.
Next Obligation. unfold ref_select_user. intros. case_all; done. Qed.
Next Obligation.
  unfold ref_select_user. intros d n h id Hu Hn. rewrite Hu, Hn. by rewrite decide_True.
Qed.
Next Obligation.
  unfold ref_select_user. intros d n h Hu Hn _ _. rewrite Hu.
  destruct (ref_users d !! n) as [[id h']|]; [|done].
  case_decide; [|done]. subst. by destruct (Hn id).
Qed.
Next Obligation. unfold ref_insert_card. intros. case_all; done. Qed.
Next Obligation. unfold ref_insert_card. intros. case_all; done. Qed.
Next Obligation. unfold ref_insert_card. intros d u n k Hu _ _ _. rewrite Hu. eauto. Qed.

Definition empty_db : ref_db :=
  {| ref_users := ∅; ref_cards := []; next_id := 1; up := true |}.

End RefDb.
