(* ===== verification/Rand.v ===== *)
(** * Floating point and [math/rand], as the card draw uses them

    A non-negative [float64] is kept as a pair [(m, e)] of value m * 2^e, and
    every operation rounds its exact result to 53 significant bits, to nearest
    with ties to even.  (Exponents stay far from the ends of the binary64 range
    here.)  The random source is a stream of [Int63] outputs; the derived
    functions follow package [math/rand]. *)

From S2P Require Import Prelude.
From Stdlib Require Import Floats.SpecFloat.

Module F64.

Definition f64 : Type := Z * Z.

(** [m / 2^s] rounded to the nearest integer, ties to even. *)
Definition rne (m s : Z) : Z :=
  let q := m / 2 ^ s in
  let r := m mod 2 ^ s in
  if 2 * r <? 2 ^ s then q
  else if 2 ^ s <? 2 * r then q + 1
  else if Z.even q then q else q + 1.

(** The number of low bits to drop to keep 53. *)
Definition excess (m : Z) : Z := Z.max 0 (Z.log2 m - 52).

Definition round53 (x : f64) : f64 :=
  let s := excess x.1 in (rne x.1 s, x.2 + s).

(** Exact scaling to a common exponent. *)
Definition align (x : f64) (e : Z) : Z := x.1 * 2 ^ (x.2 - e).

Definition add (x y : f64) : f64 :=
  let e := Z.min x.2 y.2 in round53 (align x e + align y e, e).

Definition ltb (x y : f64) : bool :=
  let e := Z.min x.2 y.2 in align x e <? align y e.

Definition eqb (x y : f64) : bool :=
  let e := Z.min x.2 y.2 in align x e =? align y e.

Definition zero : f64 := (0, 0).
Definition one : f64 := (1, 0).

(** A decimal constant [n / d] of the source: the quotient is computed to at least
    54 bits with a sticky bit below, then rounded once. *)
Definition lit (n d : Z) : f64 :=
  if n =? 0 then zero else
  let k := 120 + Z.log2 d in
  let q := n * 2 ^ k / d in
  let sticky := if n * 2 ^ k mod d =? 0 then 0 else 1 in
  round53 (2 * q + sticky, - k - 1).

(** [float64(n)] of a non-negative integer, and division by a power of two, which
    is exact here. *)
Definition of_Z (n : Z) : f64 := round53 (n, 0).
Definition div_pow2 (x : f64) (k : Z) : f64 := (x.1, x.2 - k).

(** The same arithmetic in the Standard Library's binary64 model. *)
Definition to_spec (x : f64) : spec_float :=
  binary_normalize 53 1024 x.1 x.2 false.

Example lit_spec :
  (λ '(n, d), to_spec (lit n d)) <$> [(2, 100); (8, 100); (50, 100); (40, 100)]
  = (λ '(n, d), SFdiv 53 1024 (binary_normalize 53 1024 n 0 false)
                             (binary_normalize 53 1024 d 0 false))
    <$> [(2, 100); (8, 100); (50, 100); (40, 100)].
Proof. vm_compute. reflexivity. Qed.

Example add_spec :
  to_spec (add (add (lit 2 100) (lit 8 100)) (lit 50 100))
  = SFadd 53 1024 (SFadd 53 1024 (to_spec (lit 2 100)) (to_spec (lit 8 100)))
                  (to_spec (lit 50 100)).
Proof. vm_compute. reflexivity. Qed.


(** ** Rounding is monotone *)

(** The value of [float64(n)], as an integer. *)
Definition rounded (n : Z) : Z := rne n (excess n) * 2 ^ excess n.

Lemma rne_bounds m s : 0 ≤ s → m / 2 ^ s ≤ rne m s ≤ m / 2 ^ s + 1.
Proof. intros. unfold rne. repeat case_match; lia. Qed.

Lemma rne_mono m m' s : 0 ≤ s → m ≤ m' → rne m s ≤ rne m' s.
Proof.
  intros Hs Hm. pose proof (Z.pow_pos_nonneg 2 s ltac:(lia) Hs) as Hp.
  pose proof (Z.div_le_mono m m' (2 ^ s) Hp Hm) as Hq.
  destruct (Z.lt_ge_cases (m / 2 ^ s) (m' / 2 ^ s)) as [Hlt|Hge].
  - pose proof (rne_bounds m s Hs). pose proof (rne_bounds m' s Hs). lia.
  - assert (Heq : m / 2 ^ s = m' / 2 ^ s) by lia.
    assert (Hr : m mod 2 ^ s ≤ m' mod 2 ^ s).
    { rewrite !Z.mod_eq by lia. rewrite Heq. lia. }
    unfold rne. rewrite <- Heq.
    destruct (Z.ltb_spec (2 * (m mod 2 ^ s)) (2 ^ s)), (Z.ltb_spec (2 * (m' mod 2 ^ s)) (2 ^ s)),
      (Z.ltb_spec (2 ^ s) (2 * (m mod 2 ^ s))), (Z.ltb_spec (2 ^ s) (2 * (m' mod 2 ^ s)));
      try lia; destruct (Z.even _); lia.
Qed.

Lemma rne_0 m : rne m 0 = m.
Proof. unfold rne. rewrite Z.div_1_r, Z.mod_1_r. done. Qed.

(** Rounding stays in the binade, or reaches its upper end. *)
Lemma rounded_binade n : 0 < n → 2 ^ Z.log2 n ≤ rounded n ≤ 2 ^ (Z.log2 n + 1).
Proof.
  intros Hn. pose proof (Z.log2_spec n Hn) as [Hlo Hhi]. rewrite <- Z.add_1_r in Hhi.
  pose proof (Z.log2_nonneg n). unfold rounded, excess.
  destruct (Z.le_gt_cases (Z.log2 n) 52).
  - replace (Z.max 0 (Z.log2 n - 52)) with 0 by lia. rewrite rne_0. lia.
  - replace (Z.max 0 (Z.log2 n - 52)) with (Z.log2 n - 52) by lia.
    set (s := Z.log2 n - 52) in *. replace (Z.log2 n) with (52 + s) in * by lia.
    replace (52 + s + 1) with (53 + s) in * by lia.
    rewrite Z.pow_add_r in * by lia. rewrite (Z.pow_add_r 2 53 s) in * by lia.
    pose proof (Z.pow_pos_nonneg 2 s ltac:(lia) ltac:(lia)).
    pose proof (rne_bounds n s ltac:(lia)).
    assert (2 ^ 52 ≤ n / 2 ^ s) by (apply Z.div_le_lower_bound; lia).
    assert (n / 2 ^ s < 2 ^ 53) by (apply Z.div_lt_upper_bound; lia).
    split; apply Z.mul_le_mono_nonneg_r; lia.
Qed.

Lemma rounded_mono n m : 0 ≤ n ≤ m → rounded n ≤ rounded m.
Proof.
  intros [Hn Hm]. destruct (decide (n = 0)) as [->|].
  { change (rounded 0) with 0. destruct (decide (m = 0)) as [->|]; [done|].
    pose proof (rounded_binade m ltac:(lia)).
    pose proof (Z.pow_pos_nonneg 2 (Z.log2 m) ltac:(lia) (Z.log2_nonneg m)). lia. }
  pose proof (Z.log2_le_mono n m Hm) as Hlog.
  destruct (Z.eq_dec (Z.log2 n) (Z.log2 m)) as [E|Hne].
  - unfold rounded, excess. rewrite E. apply Z.mul_le_mono_nonneg_r; [|apply rne_mono; lia].
    apply Z.pow_nonneg. lia.
  - pose proof (rounded_binade n ltac:(lia)). pose proof (rounded_binade m ltac:(lia)).
    assert (2 ^ (Z.log2 n + 1) ≤ 2 ^ Z.log2 m) by (apply Z.pow_le_mono_r; lia). lia.
Qed.

(** Comparing [float64(n) / 2^63] with a constant is comparing integers. *)
Lemma ltb_scaled n c :
  0 ≤ c.2 + 63 →
  ltb (div_pow2 (of_Z n) 63) c = (rounded n <? c.1 * 2 ^ (c.2 + 63)).
Proof.
  intros Hc. unfold ltb, div_pow2, of_Z, round53, align, rounded. simpl.
  set (s := excess n). assert (0 ≤ s) by (unfold s, excess; lia).
  set (e := Z.min (s - 63) c.2).
  pose proof (Z.pow_pos_nonneg 2 (e + 63) ltac:(lia) ltac:(lia)).
  replace (2 ^ (c.2 + 63)) with (2 ^ (c.2 - e) * 2 ^ (e + 63))
    by (rewrite <- Z.pow_add_r by lia; f_equal; lia).
  replace (2 ^ s) with (2 ^ (s - 63 - e) * 2 ^ (e + 63))
    by (rewrite <- Z.pow_add_r by lia; f_equal; lia).
  rewrite !Z.mul_assoc. apply eq_true_iff_eq. rewrite !Z.ltb_lt.
  apply Z.mul_lt_mono_pos_r. done.
Qed.

(** The integers whose scaled value is below a constant are an initial segment. *)
Lemma ltb_threshold c k n :
  0 ≤ c.2 + 63 → 0 < k → 0 ≤ n →
  rounded (k - 1) < c.1 * 2 ^ (c.2 + 63) → c.1 * 2 ^ (c.2 + 63) ≤ rounded k →
  ltb (div_pow2 (of_Z n) 63) c = (n <? k).
Proof.
  intros Hc Hk Hn Hlo Hhi. rewrite ltb_scaled by done. apply eq_true_iff_eq.
  rewrite !Z.ltb_lt. split; intros H.
  - destruct (Z.lt_ge_cases n k); [done|].
    pose proof (rounded_mono k n ltac:(lia)). lia.
  - pose proof (rounded_mono n (k - 1) ltac:(lia)). lia.
Qed.

End F64.

Module Rand.
Import F64.

(** The global source: the outputs of [Int63] and the position of the next one. *)
Record rng : Type := { src : nat → Z; pos : nat }.

Definition Int63 (g : rng) : Z * rng :=
  (src g (pos g) mod 2 ^ 63, {| src := src g; pos := S (pos g) |}).

(** [Float64]: [float64(Int63()) / (1 << 63)], drawn again when it rounds to 1.
    [None] is a draw that is still being repeated after [fuel] attempts. *)
Fixpoint Float64 (fuel : nat) (g : rng) : option (f64 * rng) :=
  match fuel with
  | O => None
  | S fuel =>
    let '(k, g) := Int63 g in
    let f := div_pow2 (of_Z k) 63 in
    if eqb f one then Float64 fuel g else Some (f, g)
  end.

(** [Int31] and [Int63] as outputs of [bits] bits. *)
Definition IntBits (bits : Z) (g : rng) : Z * rng :=
  let '(k, g) := Int63 g in (Z.shiftr k (63 - bits), g).

(** The largest output that is not rejected. *)
Definition max_accepted (bits n : Z) : Z := 2 ^ bits - 1 - 2 ^ bits mod n.

Fixpoint reject_loop (fuel : nat) (bits n : Z) (g : rng) : option (Z * rng) :=
  match fuel with
  | O => None
  | S fuel =>
    let '(v, g) := IntBits bits g in
    if max_accepted bits n <? v then reject_loop fuel bits n g else Some (v mod n, g)
  end.

(** [Int31n] and [Int63n]. *)
Definition IntBitsn (fuel : nat) (bits n : Z) (g : rng) : option (Z * rng) :=
  if Z.land n (n - 1) =? 0 then
    let '(v, g) := IntBits bits g in Some (Z.land v (n - 1), g)
  else reject_loop fuel bits n g.

(** [Intn] for a positive argument; the callers model its panic on others. *)
Definition Intn (fuel : nat) (n : Z) (g : rng) : option (Z * rng) :=
  if n <=? 2 ^ 31 - 1 then IntBitsn fuel 31 n g else IntBitsn fuel 63 n g.

(** A source in which every window of [fuel] outputs has one that is away from
    the top of the range, so that neither loop runs out of [fuel]. *)
Definition fair (fuel : nat) (g : rng) : Prop :=
  ∀ p, ∃ i, (i < fuel)%nat ∧ src g (p + i)%nat mod 2 ^ 63 < 2 ^ 62.

(** ** Lemmas *)

Lemma Int63_range g : 0 ≤ (Int63 g).1 < 2 ^ 63.
Proof. apply Z.mod_pos_bound. lia. Qed.

Lemma rounded_one_iff k : 0 ≤ k → eqb (div_pow2 (of_Z k) 63) one = (rounded k =? 2 ^ 63).
Proof.
  intros Hk. unfold eqb, div_pow2, of_Z, round53, align, rounded, one. cbn [fst snd].
  replace (0 + excess k - 63) with (excess k - 63) by lia. rewrite Z.mul_1_l.
  set (s := excess k). assert (0 ≤ s) by (unfold s, excess; lia).
  set (e := Z.min (s - 63) 0).
  pose proof (Z.pow_pos_nonneg 2 (e + 63) ltac:(lia) ltac:(lia)).
  replace (2 ^ 63) with (2 ^ (0 - e) * 2 ^ (e + 63))
    by (rewrite <- Z.pow_add_r by lia; f_equal; lia).
  replace (2 ^ s) with (2 ^ (s - 63 - e) * 2 ^ (e + 63))
    by (rewrite <- Z.pow_add_r by lia; f_equal; lia).
  rewrite Z.mul_assoc. apply eq_true_iff_eq. rewrite !Z.eqb_eq.
  rewrite Z.mul_cancel_r by lia. done.
Qed.

(** The first accepted output decides [Float64]. *)
Lemma Float64_Some fuel g f g' :
  Float64 fuel g = Some (f, g') →
  ∃ k, 0 ≤ k < 2 ^ 63 ∧ f = div_pow2 (of_Z k) 63 ∧ rounded k ≠ 2 ^ 63 ∧ src g' = src g.
Proof.
  revert g. induction fuel as [|fuel IH]; intros g H; [done|]. simpl in H.
  pose proof (Int63_range g) as Hr. simpl in Hr.
  set (k := src g (pos g) mod 2 ^ 63) in *.
  destruct (eqb _ _) eqn:E.
  - destruct (IH _ H) as (k' & ? & ? & ? & ?). eauto.
  - rewrite rounded_one_iff in E by lia. apply Z.eqb_neq in E. simplify_eq. eauto 10.
Qed.

Lemma Float64_fair_from fuel g i :
  (i < fuel)%nat → src g (pos g + i)%nat mod 2 ^ 63 < 2 ^ 62 →
  ∃ f g', Float64 fuel g = Some (f, g') ∧ src g' = src g.
Proof.
  revert g i. induction fuel as [|fuel IH]; intros g i Hi Hk; [lia|]. simpl.
  destruct (eqb _ _) eqn:E; [|eauto].
  destruct i as [|i].
  - rewrite Nat.add_0_r in Hk. pose proof (Int63_range g) as Hr. simpl in Hr.
    rewrite rounded_one_iff in E by lia. apply Z.eqb_eq in E.
    pose proof (rounded_mono (src g (pos g) mod 2 ^ 63) (2 ^ 62) ltac:(lia)).
    assert (rounded (2 ^ 62) = 2 ^ 62) by (vm_compute; done). lia.
  - apply (IH {| src := src g; pos := S (pos g) |} i); [lia|]. simpl.
    by replace (S (pos g + i)) with (pos g + S i)%nat by lia.
Qed.

Lemma Float64_fair fuel g :
  fair fuel g → ∃ f g', Float64 fuel g = Some (f, g') ∧ src g' = src g.
Proof.
  intros Hf. destruct (Hf (pos g)) as (i & Hi & Hk). by apply (Float64_fair_from _ _ i).
Qed.

Lemma IntBits_range bits g :
  0 ≤ bits ≤ 63 → 0 ≤ (IntBits bits g).1 < 2 ^ bits ∧ src (IntBits bits g).2 = src g.
Proof.
  intros Hb. unfold IntBits. pose proof (Int63_range g) as Hr.
  destruct (Int63 g) as [k g'] eqn:E. simpl in *.
  assert (src g' = src g) by (unfold Int63 in E; by simplify_eq). split; [|done].
  rewrite Z.shiftr_div_pow2 by lia. split.
  - apply Z.div_pos; [lia|]. apply Z.pow_pos_nonneg; lia.
  - apply Z.div_lt_upper_bound; [apply Z.pow_pos_nonneg; lia|].
    rewrite <- Z.pow_add_r by lia. replace (63 - bits + bits) with 63 by lia. lia.
Qed.

Lemma reject_loop_range fuel bits n g v g' :
  0 ≤ bits ≤ 63 → 0 < n → reject_loop fuel bits n g = Some (v, g') →
  0 ≤ v < n ∧ src g' = src g.
Proof.
  intros Hb Hn. revert g. induction fuel as [|fuel IH]; intros g H; [done|]. simpl in H.
  case_match; [by destruct (IH _ H)|]. simplify_eq.
  split; [by apply Z.mod_pos_bound|done].
Qed.

Lemma land_pow2_range v n : 0 ≤ v → 0 < n → 0 ≤ Z.land v (n - 1) < n.
Proof.
  intros. split; [apply Z.land_nonneg; lia|].
  rewrite <- (Z2N.id v), <- (Z2N.id (n - 1)) by lia. rewrite <- N2Z.inj_land.
  pose proof (N.land_le_r (Z.to_N v) (Z.to_N (n - 1))). lia.
Qed.

Lemma Intn_range fuel n g v g' :
  0 < n → Intn fuel n g = Some (v, g') → 0 ≤ v < n ∧ src g' = src g.
Proof.
  intros Hn H. unfold Intn in H.
  assert (∃ bits, 0 ≤ bits ≤ 63 ∧ IntBitsn fuel bits n g = Some (v, g')) as (bits & Hb & H').
  { destruct (n <=? 2 ^ 31 - 1); [exists 31|exists 63]; split; done || lia. }
  clear H. unfold IntBitsn in H'. case_match.
  - destruct (IntBits_range bits g Hb) as [Hr Hs]. destruct (IntBits bits g) as [u g1].
    simplify_eq/=. split; [apply land_pow2_range; lia|done].
  - by eapply reject_loop_range.
Qed.

Lemma reject_loop_fair fuel bits n g i :
  1 ≤ bits ≤ 63 → 0 < n ≤ 2 ^ (bits - 1) →
  (i < fuel)%nat → src g (pos g + i)%nat mod 2 ^ 63 < 2 ^ 62 →
  ∃ v g', reject_loop fuel bits n g = Some (v, g') ∧ src g' = src g.
Proof.
  intros Hb Hn. revert g i. induction fuel as [|fuel IH]; intros g i Hi Hk; [lia|]. simpl.
  destruct (Z.ltb_spec (max_accepted bits n)
    (Z.shiftr (src g (pos g) mod 2 ^ 63) (63 - bits))) as [Hlt|]; [|eauto].
  destruct i as [|i].
  - exfalso. rewrite Nat.add_0_r in Hk. pose proof (Int63_range g) as Hr. simpl in Hr.
    rewrite Z.shiftr_div_pow2 in Hlt by lia.
    assert (src g (pos g) mod 2 ^ 63 / 2 ^ (63 - bits) < 2 ^ (bits - 1)) as Hv.
    { apply Z.div_lt_upper_bound; [apply Z.pow_pos_nonneg; lia|].
      rewrite <- Z.pow_add_r by lia. by replace (63 - bits + (bits - 1)) with 62 by lia. }
    unfold max_accepted in Hlt. pose proof (Z.mod_pos_bound (2 ^ bits) n ltac:(lia)).
    replace (2 ^ bits) with (2 * 2 ^ (bits - 1)) in *
      by (rewrite <- Z.pow_succ_r by lia; f_equal; lia). lia.
  - apply (IH {| src := src g; pos := S (pos g) |} i); [lia|]. simpl.
    by replace (S (pos g + i)) with (pos g + S i)%nat by lia.
Qed.

Lemma Intn_fair fuel n g :
  0 < n ≤ 2 ^ 30 → fair fuel g → ∃ v g', Intn fuel n g = Some (v, g') ∧ src g' = src g.
Proof.
  intros Hn Hf. unfold Intn. destruct (Z.leb_spec n (2 ^ 31 - 1)); [|lia].
  unfold IntBitsn. case_match.
  - destruct (IntBits_range 31 g ltac:(lia)) as [_ Hs]. destruct (IntBits 31 g). eauto.
  - destruct (Hf (pos g)) as (i & Hi & Hk).
    apply (reject_loop_fair _ _ _ _ i); (done || lia).
Qed.

(** A power of two has no bit in common with its predecessor, and conversely. *)
Lemma land_pred_pow2 n : 0 < n → Z.land n (n - 1) = 0 → n = 2 ^ Z.log2 n.
Proof.
  intros Hn Hl. pose proof (Z.log2_spec n Hn) as [Hlo Hhi]. pose proof (Z.log2_nonneg n).
  destruct (Z.eq_dec n (2 ^ Z.log2 n)) as [|Hne]; [done|]. exfalso.
  assert (Hlog : Z.log2 (n - 1) = Z.log2 n).
  { apply Z.log2_unique; [done|]. lia. }
  apply (f_equal (λ z, Z.testbit z (Z.log2 n))) in Hl.
  rewrite Z.land_spec, Z.bits_0, Z.bit_log2 in Hl by lia.
  rewrite <- Hlog, Z.bit_log2 in Hl by lia. done.
Qed.

(** Both branches of [Int31n] reduce an output modulo [n]; the mask of a power of
    two is the case in which nothing is rejected. *)
Lemma mask_mod v n : 0 < n → Z.land n (n - 1) = 0 → Z.land v (n - 1) = v mod n.
Proof.
  intros Hn Hl. apply land_pred_pow2 in Hl; [|done]. rewrite Hl.
  rewrite <- Z.land_ones by apply Z.log2_nonneg. by rewrite Z.ones_equiv, <- Z.sub_1_r.
Qed.

(** The outputs that are kept split evenly over the results: each result [i] comes
    from exactly the [2^bits / n] outputs [i + n * j]. *)
Lemma accepted_even bits n i v :
  0 ≤ bits → 0 < n → 0 ≤ i < n →
  (0 ≤ v ≤ max_accepted bits n ∧ v mod n = i ↔
   ∃ j, 0 ≤ j < 2 ^ bits / n ∧ v = i + n * j).
Proof.
  intros Hb Hn Hi. unfold max_accepted.
  pose proof (Z.div_mod (2 ^ bits) n ltac:(lia)) as Hd. set (q := 2 ^ bits / n) in *. split.
  - intros [Hv <-]. exists (v / n). pose proof (Z.div_mod v n ltac:(lia)).
    split; [|lia]. split; [apply Z.div_pos; lia|]. apply Z.div_lt_upper_bound; lia.
  - intros (j & Hj & ->). split; [nia|].
    rewrite Z.mul_comm, Z.mod_add by lia. by rewrite Z.mod_small.
Qed.
End Rand.
