(* ===== verification/Handler.v ===== *)
(** * Handlers and the generated registration code

    [src/server/internal/router/router.go] types a handler as a function from the
    request's payload to the response's payload or an error; the code that
    [src/server/cmd/genrpc/main.go] generates from a service definition wraps
    each method of a service into such a handler and registers it.  A handler
    also changes the state [W] that the services share (database, random
    source), may panic, and may not return. *)

From S2P Require Import Prelude Router Pb.

Module Handler.

Inductive outcome (A : Type) : Type :=
| Return (a : A)
| Fail (msg : string)
| Panic (msg : string)
| Diverge.
Arguments Return {A} a.
Arguments Fail {A} msg.
Arguments Panic {A} msg.
Arguments Diverge {A}.

Definition method (W Req Resp : Type) : Type := W → Req → W * outcome Resp.
Definition HandlerFunc (W : Type) : Type := method W bytes bytes.

Section generated.
Context {W : Type}.

(** The closure of the generated [Register...] functions. *)
Definition generated_handler {Req Resp} `{!Message Req} `{!Message Resp}
    (svc : method W Req Resp) : HandlerFunc W := λ w payload,
  match Unmarshal payload with
  | Err e => (w, Fail e)
  | Ok req =>
    match svc w req with
    | (w', Return resp) =>
      match Marshal resp with Ok b => (w', Return b) | Err e => (w', Fail e) end
    | (w', Fail e) => (w', Fail e)
    | (w', Panic p) => (w', Panic p)
    | (w', Diverge) => (w', Diverge)
    end
  end.

(** [rpc.UserServiceHandler] and [rpc.GachaServiceHandler]: the generated
    interfaces of the two services in [src/proto/app/]. *)
Record UserServiceHandler : Type := {
  us_Register : method W App.RegisterRequest App.RegisterResponse;
  us_Login : method W App.LoginRequest App.LoginResponse;
  us_Logout : method W App.LogoutRequest App.LogoutResponse;
}.

Record GachaServiceHandler : Type := {
  gs_Draw : method W App.DrawRequest App.DrawResponse;
}.

Context `{!Message App.RegisterRequest, !Message App.RegisterResponse,
          !Message App.LoginRequest, !Message App.LoginResponse,
          !Message App.LogoutRequest, !Message App.LogoutResponse,
          !Message App.DrawRequest, !Message App.DrawResponse}.

Definition RegisterUserService (r : Router.Router (HandlerFunc W)) (svc : UserServiceHandler)
    : Router.Router (HandlerFunc W) :=
  let r := Router.Register r "UserService" "register" (generated_handler (us_Register svc)) in
  let r := Router.Register r "UserService" "login" (generated_handler (us_Login svc)) in
  Router.Register r "UserService" "logout" (generated_handler (us_Logout svc)).

Definition RegisterGachaService (r : Router.Router (HandlerFunc W)) (svc : GachaServiceHandler)
    : Router.Router (HandlerFunc W) :=
  Router.Register r "GachaService" "draw" (generated_handler (gs_Draw svc)).

End generated.
Arguments UserServiceHandler : clear implicits.
Arguments GachaServiceHandler : clear implicits.

(** A payload that was serialised reaches the method unchanged, and the payload
    of the response decodes to what the method returned. *)
Lemma generated_handler_ok {W Req Resp} `{!Message Req} `{!Message Resp}
    (svc : method W Req Resp) w req w' resp payload :
  Marshal req = Ok payload → svc w req = (w', Return resp) → is_ok (Marshal resp) = true →
  ∃ out, generated_handler svc w payload = (w', Return out) ∧ Unmarshal out = Ok resp.
Proof.
  intros Hreq Hsvc Hresp. unfold generated_handler.
  rewrite (Unmarshal_Marshal _ _ Hreq), Hsvc.
  destruct (Marshal resp) as [out|] eqn:E; [|done].
  exists out. split; [done|]. by apply Unmarshal_Marshal.
Qed.

End Handler.
