(* ===== verification/Gacha.v ===== *)
(** * The card draw: [src/server/app/gacha_service.go] *)

From S2P Require Import Prelude GoLib Json Pb Handler Db Rand Operators.

Module Gacha.
Import Handler F64 Rand Json.

Record operator : Type := { op_Name : string; op_Rarity : Z }.

(** ** The embedded table *)

(** Decoding one member into an [operator]; [None] is a decoding error. *)
Definition set_operator (o : operator) (kv : string * json) : option operator :=
  match find_field ["name"; "rarity"] kv.1, kv.2 with
  | None, _ | Some _, JNull => Some o
  | Some name, v =>
    if String.eqb name "name" then
      match v with
      | JStr s => Some {| op_Name := s; op_Rarity := op_Rarity o |}
      | _ => None
      end
    else
      match v with
      | JNum lit =>
        match num_int64 lit with
        | Some n =>
          if (- 2 ^ 31 <=? n) && (n <? 2 ^ 31)
          then Some {| op_Name := op_Name o; op_Rarity := n |} else None
        | None => None
        end
      | _ => None
      end
  end.

Definition unmarshal_operator (v : json) : option operator :=
  match v with
  | JObj ms =>
    foldl (λ o kv, o ← o; set_operator o kv) (Some {| op_Name := ""; op_Rarity := 0 |}) ms
  | JNull => Some {| op_Name := ""; op_Rarity := 0 |}
  | _ => None
  end.

(** [json.Unmarshal(operatorsJSON, &ops)] *)
Definition unmarshal_operators (doc : string) : option (list operator) :=
  match parse doc with
  | Some (JArr vs) => mapM unmarshal_operator vs
  | Some JNull => Some []
  | _ => None
  end.

(** [poolByRarity[op.Rarity] = append(poolByRarity[op.Rarity], op.Name)] *)
Definition add_operator (pool : gmap Z (list string)) (op : operator) : gmap Z (list string) :=
  <[op_Rarity op := default [] (pool !! op_Rarity op) ++ [op_Name op]]> pool.

(** [init]: the table, or a panic of the whole program. *)
Definition init (doc : string) : outcome (gmap Z (list string)) :=
  match unmarshal_operators doc with
  | None => Panic "failed to parse operators.json"
  | Some ops => Return (foldl add_operator ∅ ops)
  end.

(** ** One card *)

Definition rarityProb : list (Z * f64) :=
  [(6, lit 2 100); (5, lit 8 100); (4, lit 50 100); (3, lit 40 100)].

(** The loop over [rarityProb]: the first tier whose cumulative probability
    exceeds [r], three stars when there is none. *)
Fixpoint pick_tier (r cumulative : f64) (tiers : list (Z * f64)) : Z :=
  match tiers with
  | [] => 3
  | (stars, prob) :: tiers =>
    let cumulative := add cumulative prob in
    if ltb r cumulative then stars else pick_tier r cumulative tiers
  end.

Section draw.
Context (fuel : nat) (poolByRarity : gmap Z (list string)).

Definition drawOne (g : rng) : outcome App.Card * rng :=
  match Float64 fuel g with
  | None => (Diverge, g)
  | Some (r, g) =>
    let stars := pick_tier r zero rarityProb in
    let names := default [] (poolByRarity !! stars) in
    let n := Z.of_nat (length names) in
    if n <=? 0 then (Panic "invalid argument to Intn", g)
    else
      match Intn fuel n g with
      | None => (Diverge, g)
      | Some (i, g) =>
        match names !! Z.to_nat i with
        | Some name => (Return (App.Build_Card name stars), g)
        | None => (Panic "index out of range", g)
        end
      end
  end.

(** ** The service *)

Context {DB : Type} `{!Db.Database DB}.

(** The state the services share. *)
Record world : Type := { w_db : DB; w_rng : rng }.

(** The receiver: the database handle is part of the world. *)
Record GachaService : Type := { instance : string }.

Definition NewGachaService (hostname : string) : GachaService := {| instance := hostname |}.
Definition SetInstance (s : GachaService) (port : string) : GachaService := {| instance := port |}.

(** The loop of [Draw]: [n] cards still to draw. A failed insert is only logged. *)
Fixpoint draw_loop (n : nat) (user_id : Z) (cards : list App.Card) (w : world)
    : world * outcome (list App.Card) :=
  match n with
  | O => (w, Return cards)
  | S n =>
    match drawOne (w_rng w) with
    | (Return card, g) =>
      let '(db, _) := Db.insert_card user_id (App.card_Name card) (App.card_Stars card) (w_db w) in
      draw_loop n user_id (cards ++ [card]) {| w_db := db; w_rng := g |}
    | (Fail e, g) => ({| w_db := w_db w; w_rng := g |}, Fail e)
    | (Panic p, g) => ({| w_db := w_db w; w_rng := g |}, Panic p)
    | (Diverge, g) => ({| w_db := w_db w; w_rng := g |}, Diverge)
    end
  end.

Definition Draw (s : GachaService) : method world App.DrawRequest App.DrawResponse := λ w req,
  let count := App.draw_Count req in
  if (count <? 1) || (10 <? count)
  then (w, Fail ("抽卡数量需在 1-10 之间，收到 " +:+ Strconv.fmt_d count))
  else
    match draw_loop (Z.to_nat count) (App.draw_UserId req) [] w with
    | (w, Return cards) => (w, Return (App.Build_DrawResponse cards (instance s)))
    | (w, Fail e) => (w, Fail e)
    | (w, Panic p) => (w, Panic p)
    | (w, Diverge) => (w, Diverge)
    end.

End draw.
Arguments world : clear implicits.

Definition embedded_pool : outcome (gmap Z (list string)) := init operatorsJSON.

Example embedded_sizes :
  (λ '(k), match embedded_pool with Return p => length (default [] (p !! k)) | _ => 0%nat end)
    <$> [1; 2; 3; 4; 5; 6] = [10; 5; 17; 61; 191; 131]%nat.
Proof. vm_compute. reflexivity. Qed.


(** ** Lemmas *)

(** The tier that an output of [Int63] selects. *)
Definition stars_of (k : Z) : Z := pick_tier (div_pow2 (of_Z k) 63) zero rarityProb.

Definition k6 : Z := 184467440737095505.
Definition k5 : Z := 922337203685477568.
Definition k4 : Z := 5534023222112864769.
(** The number of outputs that [Float64] does not draw again. *)
Definition k_all : Z := 9223372036854775296.

(** The cumulative probabilities the loop reaches, as [float64] values. *)
Lemma cumulative_values :
  let c6 := add zero (lit 2 100) in
  let c5 := add c6 (lit 8 100) in
  let c4 := add c5 (lit 50 100) in
  let c3 := add c4 (lit 40 100) in
  c6 = (5764607523034235, -58) ∧ c5 = (7205759403792794, -56) ∧
  c4 = (5404319552844595, -53) ∧ c3 = (4503599627370496, -52).
Proof. vm_compute. auto. Qed.

Ltac threshold := intros; apply ltb_threshold; simpl; try lia; vm_compute; done.

Lemma below6 k : 0 ≤ k → ltb (div_pow2 (of_Z k) 63) (5764607523034235, -58) = (k <? k6).
Proof. threshold. Qed.
Lemma below5 k : 0 ≤ k → ltb (div_pow2 (of_Z k) 63) (7205759403792794, -56) = (k <? k5).
Proof. threshold. Qed.
Lemma below4 k : 0 ≤ k → ltb (div_pow2 (of_Z k) 63) (5404319552844595, -53) = (k <? k4).
Proof. threshold. Qed.
Lemma below3 k : 0 ≤ k → ltb (div_pow2 (of_Z k) 63) (4503599627370496, -52) = (k <? k_all).
Proof. threshold. Qed.

Lemma stars_of_thresholds k :
  0 ≤ k < k_all →
  stars_of k = if k <? k6 then 6 else if k <? k5 then 5 else if k <? k4 then 4 else 3.
Proof.
  intros [Hk Hlt]. unfold stars_of, rarityProb. cbn [pick_tier].
  destruct cumulative_values as (-> & -> & -> & ->).
  rewrite below6, below5, below4, below3 by done.
  by rewrite (proj2 (Z.ltb_lt k k_all) Hlt).
Qed.

Lemma accepted_iff k :
  0 ≤ k < 2 ^ 63 → (eqb (div_pow2 (of_Z k) 63) one = false ↔ k < k_all).
Proof.
  intros Hk. rewrite rounded_one_iff, Z.eqb_neq by lia. split.
  - intros Hne. destruct (Z.lt_ge_cases k k_all); [done|]. exfalso. apply Hne.
    pose proof (rounded_mono k_all k ltac:(unfold k_all in *; lia)).
    pose proof (rounded_mono k (2 ^ 63) ltac:(lia)).
    assert (rounded k_all = 2 ^ 63) by (vm_compute; done).
    assert (rounded (2 ^ 63) = 2 ^ 63) by (vm_compute; done). lia.
  - intros Hlt. pose proof (rounded_mono k (k_all - 1) ltac:(lia)).
    assert (rounded (k_all - 1) < 2 ^ 63) by (vm_compute; done). lia.
Qed.

Lemma stars_of_range k : 0 ≤ k < k_all → stars_of k ∈ [3; 4; 5; 6].
Proof.
  intros Hk. rewrite stars_of_thresholds by done. repeat case_match; repeat constructor.
Qed.

(** A pool from which every tier can be drawn. *)
Definition pool_ok (pool : gmap Z (list string)) : Prop :=
  ∀ k, k ∈ [3; 4; 5; 6] →
    ∃ names, pool !! k = Some names ∧ 0 < Z.of_nat (length names) ≤ 2 ^ 30.

Definition card_ok (pool : gmap Z (list string)) (c : App.Card) : Prop :=
  App.card_Stars c ∈ [3; 4; 5; 6] ∧
  ∃ names, pool !! App.card_Stars c = Some names ∧ App.card_Name c ∈ names.

Lemma drawOne_ok fuel pool g :
  pool_ok pool → fair fuel g →
  ∃ card g', drawOne fuel pool g = (Return card, g') ∧ card_ok pool card ∧ src g' = src g.
Proof.
  intros Hp Hf. unfold drawOne.
  destruct (Float64_fair fuel g Hf) as (r & g1 & E & Hs1). rewrite E.
  destruct (Float64_Some _ _ _ _ E) as (k & Hk & -> & Hne & _).
  assert (Hacc : k < k_all).
  { apply accepted_iff; [done|]. rewrite rounded_one_iff by lia. by apply Z.eqb_neq. }
  change (pick_tier _ _ _) with (stars_of k).
  pose proof (stars_of_range k ltac:(lia)) as Hst.
  destruct (Hp _ Hst) as (names & Hn & Hlen). rewrite Hn. simpl.
  destruct (Z.leb_spec (Z.of_nat (length names)) 0); [lia|].
  destruct (Intn_fair fuel (Z.of_nat (length names)) g1) as (i & g2 & E2 & Hs2); [done| |].
  { intros q. rewrite Hs1. apply Hf. }
  rewrite E2. apply Intn_range in E2 as [Hi _]; [|lia].
  destruct (lookup_lt_is_Some_2 names (Z.to_nat i)) as [name Hname]; [lia|].
  rewrite Hname. eexists _, g2. split; [done|]. split; [|congruence].
  split; [done|]. exists names. split; [done|]. by eapply list_elem_of_lookup_2.
Qed.

Lemma embedded_pool_ok : ∃ pool, embedded_pool = Return pool ∧ pool_ok pool.
Proof.
  assert (H : match embedded_pool with
              | Return p => forallb (λ k, match p !! k with
                  | Some l => (0 <? length l)%nat && (Z.of_nat (length l) <=? 2 ^ 30)
                  | None => false end) [3; 4; 5; 6]
              | _ => false end = true) by (vm_compute; reflexivity).
  destruct embedded_pool as [pool| | |]; try done. exists pool. split; [done|].
  intros k Hk. apply list_elem_of_In in Hk. eapply forallb_forall in H; [|done].
  destruct (pool !! k) as [l|]; [|done]. exists l. split; [done|].
  apply andb_true_iff in H as [H1 H2]. apply Nat.ltb_lt in H1. lia.
Qed.

(** No rarity has more than 1024 names. *)
Lemma embedded_pool_small pool :
  embedded_pool = Return pool → ∀ k, (length (default [] (pool !! k)) ≤ 1024)%nat.
Proof.
  intros Hp k. assert (H : match embedded_pool with
    | Return p => bool_decide (map_Forall (λ _ l, (length l ≤ 1024)%nat) p)
    | _ => false end = true) by (vm_compute; reflexivity).
  rewrite Hp in H. apply bool_decide_eq_true in H.
  destruct (pool !! k) as [l|] eqn:E; [by apply (H k)|]. simpl. lia.
Qed.

(** ... and every name fits its column. *)
Definition pool_text (pool : gmap Z (list string)) : Prop :=
  map_Forall (λ _ l, Forall (λ n, Db.text_ok n = true) l) pool.

Lemma embedded_pool_text pool : embedded_pool = Return pool → pool_text pool.
Proof.
  intros Hp. assert (H : match embedded_pool with
    | Return p => bool_decide (map_Forall (λ _ l, Forall (λ n, Db.text_ok n = true) l) p)
    | _ => false end = true) by (vm_compute; reflexivity).
  rewrite Hp in H. by apply bool_decide_eq_true in H.
Qed.

Section draw_lemmas.
Context {DB : Type} `{!Db.Database DB}.

(** The row that a drawn card becomes. *)
Definition card_row (user_id : Z) (c : App.Card) : Z * string * Z :=
  (user_id, App.card_Name c, App.card_Stars c).

(** The row of a drawn card fits its columns. *)
Lemma insert_card_drawn pool (d : DB) user_id card :
  pool_text pool → card_ok pool card → Db.available d → in_i64 user_id →
  ∃ d', Db.insert_card user_id (App.card_Name card) (App.card_Stars card) d = (d', Ok tt) ∧ Db.available d'.
Proof.
  intros Ht [Hs (names & Hn & Hin)] Ha Hu. apply Db.insert_card_available; [done..| |].
  - specialize (Ht _ _ Hn). simpl in Ht. rewrite Forall_forall in Ht. by apply Ht.
  - rewrite !elem_of_cons in Hs. destruct_or?; try lia. by apply not_elem_of_nil in Hs.
Qed.

Lemma draw_loop_ok fuel pool n user_id : ∀ acc (w : world DB),
  pool_ok pool → pool_text pool → fair fuel (w_rng w) →
  ∃ w' drawn stored,
    draw_loop fuel pool n user_id acc w = (w', Return (acc ++ drawn)) ∧
    length drawn = n ∧ Forall (card_ok pool) drawn ∧ stored `sublist_of` drawn ∧
    Db.cards (w_db w') = Db.cards (w_db w) ++ (card_row user_id <$> stored) ∧
    Db.users (w_db w') = Db.users (w_db w) ∧
    (Db.available (w_db w) → in_i64 user_id → stored = drawn).
Proof.
  induction n as [|n IH]; intros acc w Hp Ht Hf.
  { exists w, [], []. simpl. rewrite !app_nil_r. by split_and!. }
  simpl. destruct (drawOne_ok fuel pool (w_rng w) Hp Hf) as (card & g & -> & Hc & Hs).
  destruct (Db.insert_card _ _ _ _) as [db r] eqn:E.
  destruct (IH (acc ++ [card]) {| w_db := db; w_rng := g |} Hp Ht) as
    (w' & drawn & stored & -> & Hl & Hok & Hsub & Hcards & Husers & Hav); simpl in *.
  { intros q. rewrite Hs. apply Hf. }
  exists w', (card :: drawn).
  destruct r as [[]|e].
  - apply Db.insert_card_ok in E as E'. destruct E' as [Hc1 Hu1]. exists (card :: stored).
    rewrite <- app_assoc. simpl. rewrite Hcards, Hc1, <- app_assoc, Husers, Hl.
    split_and!; try done; [by constructor|by apply sublist_skip|].
    intros Ha Hu. destruct (insert_card_drawn pool (w_db w) user_id card Ht Hc Ha Hu) as (d' & E2 & Ha').
    rewrite E in E2. simplify_eq. by rewrite Hav.
  - apply Db.insert_card_err in E as E'. destruct E' as [Hc1 Hu1]. exists stored.
    rewrite <- app_assoc. simpl. rewrite Hcards, Hc1, Husers, Hl.
    split_and!; try done; [by constructor|by apply sublist_cons|].
    intros Ha Hu. destruct (insert_card_drawn pool (w_db w) user_id card Ht Hc Ha Hu) as (d' & E2 & Ha').
    by rewrite E in E2.
Qed.

(** ** Properties *)

(** C31: with the embedded table, a database and a random source that does not
    stay at the top of its range, [Draw] answers every count from 1 to 10 with
    exactly that many cards, without a panic.  Every card has three to six stars
    and a name from the table's pool of that rarity.  The rows added to the
    table are those of the returned cards, in order, all of them when the
    database is available and the id fits its column; a row whose insert failed is missing although its
    card is returned.  No other row changes. *)
Theorem Draw_ok (fuel : nat) (pool : gmap Z (list string)) (s : GachaService)
    (w : world DB) (req : App.DrawRequest) :
  embedded_pool = Return pool → fair fuel (w_rng w) → 1 ≤ App.draw_Count req ≤ 10 →
  ∃ w' cards stored,
    Draw fuel pool s w req = (w', Return (App.Build_DrawResponse cards (instance s))) ∧
    Z.of_nat (length cards) = App.draw_Count req ∧
    Forall (card_ok pool) cards ∧
    stored `sublist_of` cards ∧
    Db.cards (w_db w') = Db.cards (w_db w) ++ (card_row (App.draw_UserId req) <$> stored) ∧
    Db.users (w_db w') = Db.users (w_db w) ∧
    (Db.available (w_db w) → in_i64 (App.draw_UserId req) → stored = cards).
Proof.
  intros Hp Hf Hc. pose proof (embedded_pool_text pool Hp) as Ht. unfold Draw.
  destruct (Z.ltb_spec (App.draw_Count req) 1); [lia|].
  destruct (Z.ltb_spec 10 (App.draw_Count req)); [lia|]. simpl.
  destruct embedded_pool_ok as (pool' & E & Hok). rewrite Hp in E. injection E as <-.
  destruct (draw_loop_ok fuel pool (Z.to_nat (App.draw_Count req)) (App.draw_UserId req) [] w
    Hok Ht Hf) as (w' & drawn & stored & -> & Hl & H'). simpl.
  exists w', drawn, stored. split; [done|]. split; [lia|done].
Qed.

(** A count outside of 1 to 10 is refused with the count in the message, and
    nothing is drawn or stored. *)
Theorem Draw_out_of_range (fuel : nat) (pool : gmap Z (list string)) (s : GachaService)
    (w : world DB) (req : App.DrawRequest) :
  App.draw_Count req < 1 ∨ 10 < App.draw_Count req →
  Draw fuel pool s w req =
  (w, Fail ("抽卡数量需在 1-10 之间，收到 " +:+ Strconv.fmt_d (App.draw_Count req))).
Proof.
  intros Hbad. unfold Draw.
  destruct (Z.ltb_spec (App.draw_Count req) 1), (Z.ltb_spec 10 (App.draw_Count req));
    try lia; done.
Qed.

End draw_lemmas.

Import RefDb.

Lemma Draw_ok_witness :
  ∃ pool w' cards,
    Draw 1 pool {| instance := "G:1" |}
      {| w_db := RefDb.empty_db; w_rng := {| src := λ _, 0; pos := 0 |} |}
      (App.Build_DrawRequest 7 3)
    = (w', Return (App.Build_DrawResponse cards "G:1")) ∧ Z.of_nat (length cards) = 3.
Proof.
  destruct embedded_pool_ok as (pool & E & _). exists pool.
  destruct (Draw_ok 1 pool {| instance := "G:1" |}
      {| w_db := RefDb.empty_db; w_rng := {| src := λ _, 0; pos := 0 |} |}
      (App.Build_DrawRequest 7 3)) as (w' & cards & stored & H1 & H2 & _).
  - exact E.
  - intros p. exists 0%nat. split; [lia|]. reflexivity.
  - simpl. lia.
  - exists w', cards. split; [exact H1|exact H2].
Defined.

Lemma Draw_out_of_range_witness :
  (Draw 1 ∅ {| instance := "G:1" |}
    {| w_db := RefDb.empty_db; w_rng := {| src := λ _, 0; pos := 0 |} |}
    (App.Build_DrawRequest 7 11)).2 = Fail "抽卡数量需在 1-10 之间，收到 11".
Proof.
  rewrite (Draw_out_of_range 1 ∅ {| instance := "G:1" |}
    {| w_db := RefDb.empty_db; w_rng := {| src := λ _, 0; pos := 0 |} |}
    (App.Build_DrawRequest 7 11)); [reflexivity|right; reflexivity].
Defined.

(** C32: the tiers come out with the documented probabilities.  Of the outputs of
    the random source that [Float64] keeps, 0 to [k_all - 1], consecutive ranges
    give six, five, four and three stars, and the size of each range differs
    from 2%, 8%, 50% and 40% of them by less than 2^-53 of them. *)
Theorem rarity_distribution :
  (∀ k, 0 ≤ k < 2 ^ 63 → (eqb (div_pow2 (of_Z k) 63) one = false ↔ k < k_all)) ∧
  (∀ k, 0 ≤ k < k_all → stars_of k =
     if k <? k6 then 6 else if k <? k5 then 5 else if k <? k4 then 4 else 3) ∧
  (let near count percent := Z.abs (100 * count - percent * k_all) * 2 ^ 53 < 100 * k_all in
   near k6 2 ∧ near (k5 - k6) 8 ∧ near (k4 - k5) 50 ∧ near (k_all - k4) 40).
Proof.
  split; [apply accepted_iff|]. split; [apply stars_of_thresholds|].
  vm_compute. auto.
Qed.

(** What [Intn n] does with one output of [Int31]: its result, or a new output. *)
Definition draw_index (n v : Z) : option Z :=
  if Z.land n (n - 1) =? 0 then Some (Z.land v (n - 1))
  else if max_accepted 31 n <? v then None else Some (v mod n).

Lemma Intn_first fuel n g :
  0 < n < 2 ^ 31 →
  Intn (S fuel) n g =
  match draw_index n (IntBits 31 g).1 with
  | Some i => Some (i, (IntBits 31 g).2)
  | None => Intn fuel n (IntBits 31 g).2
  end.
Proof.
  intros Hn. unfold Intn. destruct (Z.leb_spec n (2 ^ 31 - 1)); [|lia].
  unfold IntBitsn, draw_index. destruct (_ =? 0); [by destruct (IntBits 31 g)|].
  cbn [reject_loop]. destruct (IntBits 31 g) as [v g']. simpl. by destruct (_ <? v).
Qed.

Lemma draw_index_even n i v :
  0 < n < 2 ^ 31 → 0 ≤ i < n →
  (0 ≤ v < 2 ^ 31 ∧ draw_index n v = Some i ↔ ∃ j, 0 ≤ j < 2 ^ 31 / n ∧ v = i + n * j).
Proof.
  intros Hn Hi. rewrite <- accepted_even by lia. unfold draw_index, max_accepted.
  pose proof (Z.mod_pos_bound (2 ^ 31) n ltac:(lia)).
  destruct (Z.eqb_spec (Z.land n (n - 1)) 0) as [Hp|Hp].
  - rewrite mask_mod by lia. apply land_pred_pow2 in Hp; [|lia].
    assert (2 ^ 31 mod n = 0) as ->.
    { rewrite Hp. replace 31 with (31 - Z.log2 n + Z.log2 n) by lia.
      assert (Z.log2 n < 31) by (apply Z.log2_lt_pow2; lia). pose proof (Z.log2_nonneg n).
      rewrite Z.pow_add_r by lia. apply Z.mod_mul. apply Z.pow_nonzero; lia. }
    split; intros [? ?]; (split; [lia|congruence]).
  - destruct (Z.ltb_spec (2 ^ 31 - 1 - 2 ^ 31 mod n) v); split; intros [? ?];
      try lia; try done; (split; [lia|congruence]).
Qed.

(** Within a tier every name is equally likely.  Once the tier is chosen and
    its pool has [n] names, the next output [v] of [Int31] decides: if
    [draw_index n v] is [i], [drawOne] returns the name at position [i] of that
    tier, otherwise a new output is taken; and each position of the pool is
    [draw_index n v] for exactly 2^31 / n outputs [v]. *)
Theorem names_equally_likely (fuel : nat) (pool : gmap Z (list string)) (g g1 : rng) (r : f64)
    (names : list string) :
  let stars := pick_tier r zero rarityProb in
  let n := Z.of_nat (length names) in
  let '(v, g2) := IntBits 31 g1 in
  Float64 (S fuel) g = Some (r, g1) → pool !! stars = Some names → 0 < n < 2 ^ 31 →
  match draw_index n v with
  | Some i =>
    ∃ name, names !! Z.to_nat i = Some name ∧
            drawOne (S fuel) pool g = (Return (App.Build_Card name stars), g2)
  | None => Intn (S fuel) n g1 = Intn fuel n g2
  end ∧
  (∀ i v, 0 ≤ i < n →
     (0 ≤ v < 2 ^ 31 ∧ draw_index n v = Some i ↔
      ∃ j, 0 ≤ j < 2 ^ 31 / n ∧ v = i + n * j)).
Proof.
  intros stars n. pose proof (Intn_first fuel n g1) as Hfirst.
  destruct (IntBits 31 g1) as [v g2]. intros Hf Hp Hn. simpl in Hfirst. specialize (Hfirst Hn).
  split; [|intros; by apply draw_index_even].
  destruct (draw_index n v) as [i|]; [|done].
  destruct (Intn_range _ _ _ _ _ (proj1 Hn) Hfirst) as [Hi _].
  destruct (lookup_lt_is_Some_2 names (Z.to_nat i)) as [name Hname]; [lia|].
  exists name. split; [done|]. unfold drawOne. rewrite Hf. fold stars. rewrite Hp. simpl.
  fold n. destruct (Z.leb_spec n 0); [lia|]. by rewrite Hfirst, Hname.
Qed.

Lemma names_equally_likely_witness :
  drawOne 1 {[ 6 := ["a"; "b"] ]} {| src := λ _, 0; pos := 0 |}
  = (Return (App.Build_Card "a" 6), {| src := λ _, 0; pos := 2 |}).
Proof.
  destruct (names_equally_likely 0 {[ 6 := ["a"; "b"] ]} {| src := λ _, 0; pos := 0 |}
    {| src := λ _, 0; pos := 1 |} (div_pow2 (of_Z 0) 63) ["a"; "b"]) as [(name & Hn & H) _].
  - reflexivity.
  - reflexivity.
  - simpl. lia.
  - vm_compute in Hn. injection Hn as <-. exact H.
Defined.
End Gacha.
