(* ===== verification/User.v ===== *)
(** * Accounts: [src/server/app/user_service.go]

    The three methods of [UserService], and the two services together acting on
    the shared state of one process. *)

From S2P Require Import Prelude GoLib Pb Handler Db Rand Gacha.

Module User.
Import Handler Gacha.

Section user.
Context {DB : Type} `{!Db.Database DB}.

Definition Register : method (world DB) App.RegisterRequest App.RegisterResponse := λ w req,
  let hash := Db.HashPassword (App.reg_Password req) in
  let '(db, r) := Db.insert_user (App.reg_Name req) hash (w_db w) in
  let w' := {| w_db := db; w_rng := w_rng w |} in
  match r with
  | Err e => (w', Return (App.Build_RegisterResponse 0 ("注册失败: " +:+ e)))
  | Ok id => (w', Return (App.Build_RegisterResponse id
                            ("注册成功! user_id=" +:+ Strconv.fmt_d id)))
  end.

Definition Login : method (world DB) App.LoginRequest App.LoginResponse := λ w req,
  let hash := Db.HashPassword (App.login_Password req) in
  match Db.select_user (App.login_Name req) hash (w_db w) with
  | Err e => (w, Return (App.Build_LoginResponse 0 ("登录失败: " +:+ e)))
  | Ok id => (w, Return (App.Build_LoginResponse id
                           ("登录成功! 欢迎回来, " +:+ App.login_Name req)))
  end.

Definition Logout : method (world DB) App.LogoutRequest App.LogoutResponse := λ w req,
  (w, Return (App.Build_LogoutResponse "已登出")).

(** ** Histories: any sequence of requests to the two services *)

Inductive request : Type :=
| QRegister (r : App.RegisterRequest)
| QLogin (r : App.LoginRequest)
| QLogout (r : App.LogoutRequest)
| QDraw (r : App.DrawRequest).

Context (fuel : nat) (pool : gmap Z (list string)) (gs : GachaService).

Definition serve_one (w : world DB) (q : request) : world DB :=
  match q with
  | QRegister r => (Register w r).1
  | QLogin r => (Login w r).1
  | QLogout r => (Logout w r).1
  | QDraw r => (Draw fuel pool gs w r).1
  end.

(** ** Lemmas *)

Lemma Register_cases w req :
  (∃ e, (Register w req).2 = Return (App.Build_RegisterResponse 0 ("注册失败: " +:+ e)) ∧
        Db.users (w_db (Register w req).1) = Db.users (w_db w)) ∨
  (∃ id, (Register w req).2 = Return (App.Build_RegisterResponse id
                                ("注册成功! user_id=" +:+ Strconv.fmt_d id)) ∧
         0 < id ∧ Db.users (w_db w) !! App.reg_Name req = None ∧
         (∀ n r, Db.users (w_db w) !! n = Some r → r.1 ≠ id) ∧
         Db.users (w_db (Register w req).1) =
           <[App.reg_Name req := (id, Db.HashPassword (App.reg_Password req))]>
             (Db.users (w_db w))).
Proof.
  unfold Register. destruct (Db.insert_user _ _ _) as [db [id|e]] eqn:E; simpl.
  - right. apply Db.insert_user_ok in E as (? & ? & ? & ? & ?). eauto 10.
  - left. apply Db.insert_user_err in E as [? ?]. eauto.
Qed.

Lemma draw_loop_users n user_id : ∀ acc (w : world DB),
  Db.users (w_db (draw_loop fuel pool n user_id acc w).1) = Db.users (w_db w).
Proof.
  induction n as [|n IH]; intros acc w; [done|]. simpl.
  destruct (drawOne fuel pool (w_rng w)) as [[card| | |] g]; try done.
  destruct (Db.insert_card _ _ _ _) as [db [[]|e]] eqn:E; rewrite IH; simpl.
  - by apply Db.insert_card_ok in E as [? ?].
  - by apply Db.insert_card_err in E as [? ?].
Qed.

Lemma Draw_users w r : Db.users (w_db (Draw fuel pool gs w r).1) = Db.users (w_db w).
Proof.
  unfold Draw. case_match; [done|].
  pose proof (draw_loop_users (Z.to_nat (App.draw_Count r)) (App.draw_UserId r) [] w) as Hu.
  destruct (draw_loop _ _ _ _ _ _) as [w' []]; done.
Qed.

Lemma Login_world w r : (Login w r).1 = w.
Proof. unfold Login. by destruct (Db.select_user _ _ _). Qed.

(** No request removes or changes an account. *)
Lemma serve_one_users w q : Db.users (w_db w) ⊆ Db.users (w_db (serve_one w q)).
Proof.
  destruct q as [r|r|r|r]; simpl.
  - destruct (Register_cases w r) as [(e & _ & ->)|(id & _ & _ & Hn & _ & ->)]; [done|].
    by apply insert_subseteq.
  - by rewrite Login_world.
  - done.
  - by rewrite Draw_users.
Qed.

Lemma history_users qs : ∀ w, Db.users (w_db w) ⊆ Db.users (w_db (foldl serve_one w qs)).
Proof.
  induction qs as [|q qs IH]; intros w; [done|]. simpl.
  etrans; [apply serve_one_users|apply IH].
Qed.

Lemma Login_found w name password id hash :
  Db.available (w_db w) → Db.users (w_db w) !! name = Some (id, hash) →
  (Login w (App.Build_LoginRequest name password)).2 = Return
    (if decide (Db.HashPassword password = hash)
     then App.Build_LoginResponse id ("登录成功! 欢迎回来, " +:+ name)
     else App.Build_LoginResponse 0 "登录失败: sql: no rows in result set").
Proof.
  intros Ha Hu. unfold Login. simpl. case_decide as Hd.
  - rewrite Hd. by rewrite (Db.select_user_available _ _ _ id).
  - rewrite Db.select_user_none; [done|done| |by left|apply Db.HashPassword_text].
    intros id' E. rewrite Hu in E. congruence.
Qed.

(** Every account has its own id. *)
Definition ids_unique (w : world DB) : Prop :=
  ∀ n m r1 r2, Db.users (w_db w) !! n = Some r1 → Db.users (w_db w) !! m = Some r2 →
    r1.1 = r2.1 → n = m.

Lemma ids_insert (us : gmap string (Z * string)) name id hash :
  (∀ n r, us !! n = Some r → r.1 ≠ id) →
  (∀ n m r1 r2, us !! n = Some r1 → us !! m = Some r2 → r1.1 = r2.1 → n = m) →
  ∀ n m r1 r2, <[name := (id, hash)]> us !! n = Some r1 → <[name := (id, hash)]> us !! m = Some r2 →
    r1.1 = r2.1 → n = m.
Proof.
  intros Hfresh Hw n m r1 r2 H1 H2 E.
  apply lookup_insert_Some in H1 as [[<- <-]|[? H1]], H2 as [[<- <-]|[? H2]]; simpl in *.
  - done.
  - exfalso. by apply (Hfresh m r2).
  - exfalso. by apply (Hfresh n r1).
  - eauto.
Qed.

Lemma serve_one_ids w q : ids_unique w → ids_unique (serve_one w q).
Proof.
  unfold ids_unique. intros Hw. destruct q as [r|r|r|r]; simpl.
  - destruct (Register_cases w r) as [(e & _ & ->)|(id & _ & _ & Hn & Hfresh & ->)]; [done|].
    by apply ids_insert.
  - by rewrite Login_world.
  - done.
  - by rewrite Draw_users.
Qed.

Lemma history_ids qs : ∀ w, ids_unique w → ids_unique (foldl serve_one w qs).
Proof.
  induction qs as [|q qs IH]; intros w Hw; [done|]. apply IH. by apply serve_one_ids.
Qed.

(** ** Properties *)

(** C29: a successful registration gives a positive id that no other account
    has, and it lasts: after any further requests to the two services, while the
    database is available, logging in under that name returns the same id with
    the same password, and fails for every password with a different digest. *)
Theorem register_then_login (w : world DB) (name password : string) (id : Z) (text : string)
    (qs : list request) (attempt : string) :
  let reg := Register w (App.Build_RegisterRequest name password) in
  let w2 := foldl serve_one reg.1 qs in
  reg.2 = Return (App.Build_RegisterResponse id text) → id ≠ 0 → Db.available (w_db w2) →
  0 < id ∧ (∀ n r, Db.users (w_db w) !! n = Some r → r.1 ≠ id) ∧
  (Login w2 (App.Build_LoginRequest name attempt)).2 = Return
    (if decide (Db.HashPassword attempt = Db.HashPassword password)
     then App.Build_LoginResponse id ("登录成功! 欢迎回来, " +:+ name)
     else App.Build_LoginResponse 0 "登录失败: sql: no rows in result set").
Proof.
  intros reg w2 Hreg Hid Ha.
  destruct (Register_cases w (App.Build_RegisterRequest name password))
    as [(e & Hr & _)|(id' & Hr & Hpos & _ & Hfresh & Hu)]; fold reg in Hr;
    rewrite Hr in Hreg; simplify_eq.
  split; [done|]. split; [done|]. apply Login_found; [done|].
  eapply lookup_weaken; [|apply history_users]. fold reg in Hu. rewrite Hu. simpl.
  apply lookup_insert_eq.
Qed.

(** Along every history ids identify accounts, accounts are never lost or
    altered, and registering a taken name answers with id 0 and changes no
    account. *)
Theorem accounts_invariant (w : world DB) (qs : list request) :
  ids_unique w →
  let w' := foldl serve_one w qs in
  ids_unique w' ∧ Db.users (w_db w) ⊆ Db.users (w_db w') ∧
  (∀ req, is_Some (Db.users (w_db w') !! App.reg_Name req) →
     (∃ text, (Register w' req).2 = Return (App.Build_RegisterResponse 0 text)) ∧
     Db.users (w_db (Register w' req).1) = Db.users (w_db w')).
Proof.
  intros Hw w'. split_and!.
  - by apply history_ids.
  - apply history_users.
  - intros req [r Hr].
    destruct (Register_cases w' req) as [(e & -> & ->)|(id & _ & _ & Hn & _)]; [eauto|].
    rewrite Hn in Hr. done.
Qed.

End user.

Import RefDb Rand.

Definition demo_world : world ref_db :=
  {| w_db := empty_db; w_rng := {| src := λ _, 0; pos := 0 |} |}.

Lemma register_then_login_witness :
  (Login (foldl (serve_one 1 ∅ {| instance := "G:1" |})
     (Register demo_world (App.Build_RegisterRequest "bob" "123456")).1
     [QRegister (App.Build_RegisterRequest "eve" "x"); QLogout (App.Build_LogoutRequest 2)])
    (App.Build_LoginRequest "bob" "123456")).2
  = Return (App.Build_LoginResponse 2 "登录成功! 欢迎回来, bob").
Proof.
  destruct (register_then_login 1 ∅ {| instance := "G:1" |} demo_world "bob" "123456" 2
    "注册成功! user_id=2"
    [QRegister (App.Build_RegisterRequest "eve" "x"); QLogout (App.Build_LogoutRequest 2)]
    "123456") as (_ & _ & H); [vm_compute; reflexivity|done|vm_compute; reflexivity|].
  rewrite H. reflexivity.
Defined.

Lemma accounts_invariant_witness :
  ids_unique (foldl (serve_one 1 ∅ {| instance := "G:1" |}) demo_world
    [QRegister (App.Build_RegisterRequest "bob" "1"); QRegister (App.Build_RegisterRequest "bob" "2")]).
Proof.
  apply (accounts_invariant 1 ∅ {| instance := "G:1" |} demo_world).
  intros n m r1 r2 H. vm_compute in H. discriminate H.
Defined.

End User.
