(* ===== verification/Interleaving.v ===== *)
(** * Requests that run at the same time: [src/server/app]

    [Server.v] runs the handler of a request in one step.  Here the methods of the two
    services are programs over the operations they perform on what the requests share:
    the statements they send to the database, and the outputs they take from the source
    of [math/rand].  Run with nothing in between, a program is the method of [User.v] or
    [Gacha.v].  A system has any number of requests, which arrive at any time and whose
    operations interleave in any order. *)

From S2P Require Import Prelude GoLib Pb Handler Db Rand Gacha User.

Module Interleaving.
Import Handler F64 Rand Gacha.

(** ** Programs *)

Inductive stmt : Type :=
| InsertUser (name hash : string)
| SelectUser (name hash : string)
| InsertCard (user_id : Z) (name : string) (stars : Z)
| SourceInt63.

(** What an operation returns. *)
Definition answer (s : stmt) : Type :=
  match s with
  | InsertUser _ _ | SelectUser _ _ => result string Z
  | InsertCard _ _ _ => result string unit
  | SourceInt63 => Z
  end.

Inductive prog (A : Type) : Type :=
| Ret (o : outcome A)
| Do (s : stmt) (k : answer s → prog A).
Arguments Ret {A} o.
Arguments Do {A} s k.

(** *** [math/rand], each with what follows its result *)

Fixpoint Float64 {A} (fuel : nat) (k : f64 → prog A) : prog A :=
  match fuel with
  | O => Ret Diverge
  | S fuel =>
    Do SourceInt63 (λ v : Z,
      let f := div_pow2 (of_Z v) 63 in
      if eqb f one then Float64 fuel k else k f)
  end.

Fixpoint reject_loop {A} (fuel : nat) (bits n : Z) (k : Z → prog A) : prog A :=
  match fuel with
  | O => Ret Diverge
  | S fuel =>
    Do SourceInt63 (λ v : Z,
      let v := Z.shiftr v (63 - bits) in
      if max_accepted bits n <? v then reject_loop fuel bits n k else k (v mod n))
  end.

Definition IntBitsn {A} (fuel : nat) (bits n : Z) (k : Z → prog A) : prog A :=
  if Z.land n (n - 1) =? 0
  then Do SourceInt63 (λ v : Z, k (Z.land (Z.shiftr v (63 - bits)) (n - 1)))
  else reject_loop fuel bits n k.

Definition Intn {A} (fuel : nat) (n : Z) (k : Z → prog A) : prog A :=
  if n <=? 2 ^ 31 - 1 then IntBitsn fuel 31 n k else IntBitsn fuel 63 n k.

(** *** The services *)

Inductive reply : Type :=
| RRegister (r : App.RegisterResponse)
| RLogin (r : App.LoginResponse)
| RLogout (r : App.LogoutResponse)
| RDraw (r : App.DrawResponse).

Definition Register (req : App.RegisterRequest) : prog reply :=
  let hash := Db.HashPassword (App.reg_Password req) in
  Do (InsertUser (App.reg_Name req) hash) (λ r : result string Z,
    match r with
    | Err e => Ret (Return (RRegister (App.Build_RegisterResponse 0 ("注册失败: " +:+ e))))
    | Ok id => Ret (Return (RRegister (App.Build_RegisterResponse id
                 ("注册成功! user_id=" +:+ Strconv.fmt_d id))))
    end).

Definition Login (req : App.LoginRequest) : prog reply :=
  let hash := Db.HashPassword (App.login_Password req) in
  Do (SelectUser (App.login_Name req) hash) (λ r : result string Z,
    match r with
    | Err e => Ret (Return (RLogin (App.Build_LoginResponse 0 ("登录失败: " +:+ e))))
    | Ok id => Ret (Return (RLogin (App.Build_LoginResponse id
                 ("登录成功! 欢迎回来, " +:+ App.login_Name req))))
    end).

Definition Logout (req : App.LogoutRequest) : prog reply :=
  Ret (Return (RLogout (App.Build_LogoutResponse "已登出"))).

Section programs.
Context (fuel : nat) (pool : gmap Z (list string)) (gs : GachaService).

(** [drawOne], and what follows with the card. *)
Definition drawOne {A} (k : App.Card → prog A) : prog A :=
  Float64 fuel (λ r,
    let stars := pick_tier r zero rarityProb in
    let names := default [] (pool !! stars) in
    let n := Z.of_nat (length names) in
    if n <=? 0 then Ret (Panic "invalid argument to Intn")
    else
      Intn fuel n (λ i,
        match names !! Z.to_nat i with
        | Some name => k (App.Build_Card name stars)
        | None => Ret (Panic "index out of range")
        end)).

(** The loop of [Draw]: [n] cards still to draw.  A failed insert is only logged. *)
Fixpoint draw_loop (n : nat) (user_id : Z) (cards : list App.Card)
    (k : list App.Card → prog reply) : prog reply :=
  match n with
  | O => k cards
  | S n =>
    drawOne (λ card,
      Do (InsertCard user_id (App.card_Name card) (App.card_Stars card)) (λ _,
        draw_loop n user_id (cards ++ [card]) k))
  end.

Definition Draw (req : App.DrawRequest) : prog reply :=
  let count := App.draw_Count req in
  if (count <? 1) || (10 <? count)
  then Ret (Fail ("抽卡数量需在 1-10 之间，收到 " +:+ Strconv.fmt_d count))
  else
    draw_loop (Z.to_nat count) (App.draw_UserId req) [] (λ cards,
      Ret (Return (RDraw (App.Build_DrawResponse cards (instance gs))))).

Definition start (q : User.request) : prog reply :=
  match q with
  | User.QRegister r => Register r
  | User.QLogin r => Login r
  | User.QLogout r => Logout r
  | User.QDraw r => Draw r
  end.

(** ** The system *)

Context {DB : Type} {database : Db.Database DB}.

Definition exec (s : stmt) (w : world DB) : world DB * answer s :=
  match s with
  | InsertUser name hash =>
    let '(db, r) := Db.insert_user name hash (w_db w) in ({| w_db := db; w_rng := w_rng w |}, r)
  | SelectUser name hash => (w, Db.select_user name hash (w_db w))
  | InsertCard user_id name stars =>
    let '(db, r) := Db.insert_card user_id name stars (w_db w) in
    ({| w_db := db; w_rng := w_rng w |}, r)
  | SourceInt63 => let '(v, g) := Int63 (w_rng w) in ({| w_db := w_db w; w_rng := g |}, v)
  end.

(** A program with nothing in between. *)
Fixpoint run {A} (p : prog A) (w : world DB) : world DB * outcome A :=
  match p with
  | Ret o => (w, o)
  | Do s k => let '(w, r) := exec s w in run (k r) w
  end.

(** What an operation did to the tables or read from them: an account inserted or found,
    a row of [cards] sent and whether it was stored. *)
Inductive effect : Type :=
| AddUser (name : string) (id : Z) (hash : string)
| FoundUser (name : string) (id : Z) (hash : string)
| SendCard (row : Z * string * Z) (stored : bool).

Definition effect_of (s : stmt) : answer s → list effect :=
  match s with
  | InsertUser name hash => λ r : result string Z,
      match r with Ok id => [AddUser name id hash] | Err _ => [] end
  | SelectUser name hash => λ r : result string Z,
      match r with Ok id => [FoundUser name id hash] | Err _ => [] end
  | InsertCard user_id name stars => λ r : result string unit,
      [SendCard (user_id, name, stars) (match r with Ok _ => true | Err _ => false end)]
  | SourceInt63 => λ _, []
  end.

Record task : Type := { t_req : User.request; t_prog : prog reply }.

(** [s_log]: the effects so far, each with the number of its task. *)
Record sys : Type :=
  { s_world : world DB; s_tasks : list task; s_log : list (nat * effect) }.

Definition arrive (q : User.request) (s : sys) : sys :=
  {| s_world := s_world s; s_tasks := s_tasks s ++ [{| t_req := q; t_prog := start q |}];
     s_log := s_log s |}.

(** The next operation of task [i], if it has one. *)
Definition advance (i : nat) (s : sys) : option sys :=
  match s_tasks s !! i with
  | Some {| t_req := q; t_prog := Do c k |} =>
    let '(w, r) := exec c (s_world s) in
    Some {| s_world := w; s_tasks := <[i := {| t_req := q; t_prog := k r |}]> (s_tasks s);
            s_log := s_log s ++ ((i,.) <$> effect_of c r) |}
  | _ => None
  end.

Inductive step : sys → sys → Prop :=
| step_arrive q s : step s (arrive q s)
| step_advance i s s' : advance i s = Some s' → step s s'.

Definition idle (w : world DB) : sys := {| s_world := w; s_tasks := []; s_log := [] |}.

(** ** Programs and methods *)

Definition map_outcome {A B} (f : A → B) (o : outcome A) : outcome B :=
  match o with Return a => Return (f a) | Fail e => Fail e | Panic p => Panic p | Diverge => Diverge end.

Definition method_of (q : User.request) (w : world DB) : world DB * outcome reply :=
  match q with
  | User.QRegister r => let '(w, o) := User.Register w r in (w, map_outcome RRegister o)
  | User.QLogin r => let '(w, o) := User.Login w r in (w, map_outcome RLogin o)
  | User.QLogout r => let '(w, o) := User.Logout w r in (w, map_outcome RLogout o)
  | User.QDraw r => let '(w, o) := Gacha.Draw fuel pool gs w r in (w, map_outcome RDraw o)
  end.

(** The same result, and the same state too unless the fuel has run out. *)
Definition agrees {A} (a b : world DB * outcome A) : Prop :=
  a.2 = b.2 ∧ (b.2 ≠ Diverge → a.1 = b.1).

Lemma run_Float64 {A} n (k : f64 → prog A) (w0 : world DB) : ∀ w : world DB,
  agrees (run (Float64 n k) w)
    match Rand.Float64 n (w_rng w) with
    | Some (f, g) => run (k f) {| w_db := w_db w; w_rng := g |}
    | None => (w0, Diverge)
    end.
Proof.
  induction n as [|n IH]; intros w; simpl; [done|].
  destruct (eqb _ _); [|done]. apply (IH {| w_db := w_db w; w_rng := {| src := _; pos := _ |} |}).
Qed.

Lemma run_Intn {A} n m (k : Z → prog A) (w0 w : world DB) :
  agrees (run (Intn n m k) w)
    match Rand.Intn n m (w_rng w) with
    | Some (i, g) => run (k i) {| w_db := w_db w; w_rng := g |}
    | None => (w0, Diverge)
    end.
Proof.
  assert (Hloop : ∀ bits n (w : world DB), agrees (run (reject_loop n bits m k) w)
    match Rand.reject_loop n bits m (w_rng w) with
    | Some (i, g) => run (k i) {| w_db := w_db w; w_rng := g |}
    | None => (w0, Diverge)
    end).
  { clear n w. intros bits. induction n as [|n IH]; intros w; simpl; [done|].
    destruct (_ <? _); [|done]. apply (IH {| w_db := w_db w; w_rng := {| src := _; pos := _ |} |}). }
  unfold Intn, Rand.Intn, IntBitsn, Rand.IntBitsn.
  by destruct (_ <=? _), (_ =? 0); try apply Hloop.
Qed.

Lemma agrees_trans {A} (a b c : world DB * outcome A) : agrees a b → agrees b c → agrees a c.
Proof. intros [E1 H1] [E2 H2]. split; [congruence|]. intros Hd. rewrite H1; [auto|congruence]. Qed.

Lemma run_drawOne {A} (k : App.Card → prog A) (w : world DB) :
  agrees (run (drawOne k) w)
  match Gacha.drawOne fuel pool (w_rng w) with
  | (Return card, g) => run (k card) {| w_db := w_db w; w_rng := g |}
  | (Fail e, g) => ({| w_db := w_db w; w_rng := g |}, Fail e)
  | (Panic p, g) => ({| w_db := w_db w; w_rng := g |}, Panic p)
  | (Diverge, g) => ({| w_db := w_db w; w_rng := g |}, Diverge)
  end.
Proof.
  unfold drawOne, Gacha.drawOne. eapply agrees_trans; [apply (run_Float64 _ _ w)|].
  destruct (Rand.Float64 fuel (w_rng w)) as [[f g1]|]; [|done]. cbv zeta.
  destruct (Z.of_nat _ <=? 0); [done|]. eapply agrees_trans; [apply (run_Intn _ _ _ w)|]. simpl.
  destruct (Rand.Intn fuel _ g1) as [[i g2]|]; [|done]. by destruct (_ !! Z.to_nat i).
Qed.

Lemma run_draw_loop n user_id k : ∀ cards (w : world DB),
  agrees (run (draw_loop n user_id cards k) w)
  match Gacha.draw_loop fuel pool n user_id cards w with
  | (w, Return cards) => run (k cards) w
  | (w, Fail e) => (w, Fail e)
  | (w, Panic p) => (w, Panic p)
  | (w, Diverge) => (w, Diverge)
  end.
Proof.
  induction n as [|n IH]; intros cards w; [done|]. cbn [draw_loop Gacha.draw_loop].
  eapply agrees_trans; [apply run_drawOne|].
  destruct (Gacha.drawOne fuel pool (w_rng w)) as [[card| | |] g]; try done.
  cbn [run exec w_db]. destruct (Db.insert_card _ _ _ _) as [db r]. apply IH.
Qed.

Lemma run_start q (w : world DB) : agrees (run (start q) w) (method_of q w).
Proof.
  destruct q as [r|r|r|r]; simpl.
  - unfold User.Register. destruct (Db.insert_user _ _ _) as [db [id|e]]; done.
  - unfold User.Login. by destruct (Db.select_user _ _ _).
  - done.
  - unfold Draw, Gacha.Draw. destruct ((_ <? 1) || (10 <? _)); [done|].
    eapply agrees_trans; [apply run_draw_loop|].
    by destruct (Gacha.draw_loop _ _ _ _ _ _) as [w' []].
Qed.

(** ** What a request does, whatever runs beside it *)

(** The answers an operation can get; [bound] is above every output of the source. *)
Definition answer_ok (bound : Z) (c : stmt) : answer c → Prop :=
  match c with
  | InsertUser _ _ => λ r : result string Z, match r with Ok id => 0 < id | Err _ => True end
  | SourceInt63 => λ v : Z, 0 ≤ v < Z.min bound (2 ^ 63)
  | _ => λ _, True
  end.

(** [Q] holds of every way in which the program can end, together with its effects
    after [es]. *)
Fixpoint wp {A} (bound : Z) (Q : list effect → outcome A → Prop) (es : list effect) (p : prog A)
    : Prop :=
  match p with
  | Ret o => Q es o
  | Do c k => ∀ r, answer_ok bound c r → wp bound Q (es ++ effect_of c r) (k r)
  end.

Lemma wp_source {A} bound Q es (k : Z → prog A) :
  (∀ v, 0 ≤ v < Z.min bound (2 ^ 63) → wp bound Q es (k v)) → wp bound Q es (Do SourceInt63 k).
Proof. intros H v Hv. simpl. rewrite app_nil_r. by apply H. Qed.

Lemma wp_Float64 {A} bound Q es n (k : f64 → prog A) :
  (¬ (bound ≤ 2 ^ 62 ∧ n ≠ 0%nat) → Q es Diverge) →
  (∀ v, 0 ≤ v < k_all → wp bound Q es (k (div_pow2 (of_Z v) 63))) →
  wp bound Q es (Float64 n k).
Proof.
  intros HD Hk. induction n as [|n IH]; [apply HD; lia|]. apply wp_source. intros v Hv. cbv zeta.
  destruct (eqb _ _) eqn:E.
  - assert (Hb : ¬ bound ≤ 2 ^ 62).
    { intros Hb. apply not_false_iff_true in E. apply E.
      apply accepted_iff; [lia|]. unfold k_all. lia. }
    apply IH. intros _. apply HD. lia.
  - apply Hk. split; [lia|]. apply accepted_iff; [lia|done].
Qed.

Lemma wp_reject_loop {A} bound Q es n bits m (k : Z → prog A) :
  1 ≤ bits ≤ 63 → 0 < m →
  (¬ (bound ≤ 2 ^ 62 ∧ n ≠ 0%nat ∧ m ≤ 2 ^ (bits - 1)) → Q es Diverge) →
  (∀ i, 0 ≤ i < m → wp bound Q es (k i)) → wp bound Q es (reject_loop n bits m k).
Proof.
  intros Hb Hm HD Hk. induction n as [|n IH]; [apply HD; lia|]. apply wp_source. intros v Hv. cbv zeta.
  destruct (Z.ltb_spec (max_accepted bits m) (Z.shiftr v (63 - bits))) as [Hlt|].
  - assert (Hno : ¬ (bound ≤ 2 ^ 62 ∧ m ≤ 2 ^ (bits - 1))).
    { intros [Hb' Hm']. destruct (Rand.reject_loop_fair 1 bits m {| src := λ _, v; pos := 0 |} 0)
        as (? & ? & E & _); [done|lia|lia| |].
      - simpl. rewrite Z.mod_small; lia.
      - unfold Rand.reject_loop, IntBits, Int63 in E. simpl in E.
        rewrite Z.mod_small in E by lia. destruct (Z.ltb_spec (max_accepted bits m)
          (Z.shiftr v (63 - bits))); [done|lia]. }
    apply IH. intros _. apply HD. tauto.
  - by apply Hk, Z.mod_pos_bound.
Qed.

Lemma wp_Intn {A} bound Q es n m (k : Z → prog A) :
  0 < m → (¬ (bound ≤ 2 ^ 62 ∧ n ≠ 0%nat ∧ m ≤ 2 ^ 30) → Q es Diverge) →
  (∀ i, 0 ≤ i < m → wp bound Q es (k i)) → wp bound Q es (Intn n m k).
Proof.
  intros Hm HD Hk. unfold Intn.
  assert (∀ bits, 31 ≤ bits ≤ 63 → wp bound Q es (IntBitsn n bits m k)) as H.
  { intros bits Hb. unfold IntBitsn. destruct (_ =? 0).
    - apply wp_source. intros v Hv. apply Hk, land_pow2_range; [|done].
      apply Z.shiftr_nonneg. lia.
    - apply wp_reject_loop; [lia|done| |done]. intros Hno. apply HD. intros (H1 & H2 & H3).
      apply Hno. split_and!; [done..|]. etrans; [done|]. apply Z.pow_le_mono_r; lia. }
  destruct (_ <=? _); apply H; lia.
Qed.

(** With these, no draw is still being repeated after [fuel] attempts. *)
Definition calm (bound : Z) : Prop := bound ≤ 2 ^ 62 ∧ fuel ≠ 0%nat ∧ pool_ok pool.

Lemma wp_drawOne {A} bound Q es (k : App.Card → prog A) :
  (¬ pool_ok pool → ∀ p, Q es (Panic p)) → (¬ calm bound → Q es Diverge) →
  (∀ card, card_ok pool card → wp bound Q es (k card)) → wp bound Q es (drawOne k).
Proof.
  unfold calm. intros HP HD Hk. unfold drawOne. apply wp_Float64; [intros H; apply HD; tauto|].
  intros v Hv. change (pick_tier _ _ _) with (stars_of v). pose proof (stars_of_range v Hv) as Hst.
  destruct (Z.leb_spec (Z.of_nat (length (default [] (pool !! stars_of v)))) 0).
  { apply HP. intros Hp. destruct (Hp _ Hst) as (names & E & ?).
    rewrite E in *. simpl in *. lia. }
  apply wp_Intn; [done| |].
  - intros Hno. apply HD. intros (Hb & Hf & Hp). apply Hno. split_and!; [done..|].
    destruct (Hp _ Hst) as (names & -> & ?). simpl. lia.
  - intros i Hi. destruct (pool !! stars_of v) as [names|] eqn:E; simpl in *; [|lia].
    destruct (lookup_lt_is_Some_2 names (Z.to_nat i)) as [name Hname]; [lia|].
    rewrite Hname. apply Hk. split; [done|]. exists names. split; [done|].
    by eapply list_elem_of_lookup_2.
Qed.

(** The cards sent to the database are [cards], in this order. *)
Definition sends (user_id : Z) : list App.Card → list effect → Prop :=
  Forall2 (λ c e, ∃ stored, e = SendCard (card_row user_id c) stored).

Definition settled (bound : Z) (q : User.request) (es : list effect) (o : outcome reply) : Prop :=
  match q, o with
  | User.QRegister r, Return (RRegister resp) =>
    (App.reg_UserId resp = 0 ∧ es = []) ∨
    (0 < App.reg_UserId resp ∧ es = [AddUser (App.reg_Name r) (App.reg_UserId resp)
                                    (Db.HashPassword (App.reg_Password r))])
  | User.QLogin r, Return (RLogin resp) =>
    (App.login_UserId resp = 0 ∧ es = []) ∨
    es = [FoundUser (App.login_Name r) (App.login_UserId resp)
            (Db.HashPassword (App.login_Password r))]
  | User.QLogout r, Return (RLogout resp) => es = []
  | User.QDraw r, Return (RDraw resp) =>
    1 ≤ App.draw_Count r ≤ 10 ∧ Z.of_nat (length (App.draw_Cards resp)) = App.draw_Count r ∧
    Forall (card_ok pool) (App.draw_Cards resp) ∧
    sends (App.draw_UserId r) (App.draw_Cards resp) es
  | User.QDraw r, Fail e =>
    e = "抽卡数量需在 1-10 之间，收到 " +:+ Strconv.fmt_d (App.draw_Count r) ∧
    ¬ 1 ≤ App.draw_Count r ≤ 10 ∧ es = []
  | User.QDraw r, Panic _ => ¬ pool_ok pool ∧ ∃ cards, sends (App.draw_UserId r) cards es
  | User.QDraw r, Diverge =>
    ¬ calm bound ∧ ∃ cards, sends (App.draw_UserId r) cards es
  | _, _ => False
  end.

Lemma wp_draw_loop bound r n : ∀ cards es,
  1 ≤ App.draw_Count r ≤ 10 → Z.of_nat (length cards + n) = App.draw_Count r →
  Forall (card_ok pool) cards → sends (App.draw_UserId r) cards es →
  wp bound (settled bound (User.QDraw r)) es
    (draw_loop n (App.draw_UserId r) cards (λ cards,
       Ret (Return (RDraw (App.Build_DrawResponse cards (instance gs)))))).
Proof.
  induction n as [|n IH]; intros cards es Hr Hlen Hok Hes; cbn [draw_loop].
  { simpl. rewrite Nat.add_0_r in Hlen. done. }
  apply wp_drawOne.
  { intros Hno p. simpl. eauto. }
  { intros Hno. simpl. eauto. }
  intros card Hcard stored _. apply IH; [done| | |].
  - rewrite length_app. simpl. lia.
  - apply Forall_app. auto.
  - apply Forall2_app; [done|]. constructor; [|done]. by eexists.
Qed.

Lemma wp_start bound q : wp bound (settled bound q) [] (start q).
Proof.
  destruct q as [r|r|r|r]; simpl.
  - intros [id|e] Hr; simpl in *; [right|left]; done.
  - intros [id|e] Hr; simpl in *; [by right|by left].
  - done.
  - unfold Draw. destruct (Z.ltb_spec (App.draw_Count r) 1), (Z.ltb_spec 10 (App.draw_Count r));
      simpl; try (split_and!; [done|lia|done]).
    apply wp_draw_loop; [lia|simpl; lia|done|constructor].
Qed.

(** ** The tables *)

Definition note_user (us : gmap string (Z * string)) (e : effect) : gmap string (Z * string) :=
  match e with AddUser name id hash => <[name := (id, hash)]> us | _ => us end.

(** The rows that were stored, the names that were taken. *)
Definition stored_rows : list effect → list (Z * string * Z) :=
  omap (λ e, match e with SendCard row true => Some row | _ => None end).
Definition added_names : list effect → list string :=
  omap (λ e, match e with AddUser name _ _ => Some name | _ => None end).

(** The account that an effect is about is there. *)
Definition present (us : gmap string (Z * string)) (e : effect) : Prop :=
  match e with
  | AddUser name id hash | FoundUser name id hash => us !! name = Some (id, hash)
  | SendCard _ _ => True
  end.

Lemma present_mono us us' e : us ⊆ us' → present us e → present us' e.
Proof. destruct e; simpl; try done; intros; by eapply lookup_weaken. Qed.

(** What one operation does to the world, by its effects. *)
Record exec_spec (w w' : world DB) (es : list effect) : Prop := {
  es_src : src (w_rng w') = src (w_rng w);
  es_cards : Db.cards (w_db w') = Db.cards (w_db w) ++ stored_rows es;
  es_users : Db.users (w_db w') = foldl note_user (Db.users (w_db w)) es;
  es_grow : Db.users (w_db w) ⊆ Db.users (w_db w');
  es_ids : User.ids_unique w → User.ids_unique w';
  es_new : NoDup (added_names es) ∧
           ∀ n, n ∈ added_names es → Db.users (w_db w) !! n = None;
  es_present : Forall (present (Db.users (w_db w'))) es;
}.

Lemma exec_same (w w' : world DB) es :
  src (w_rng w') = src (w_rng w) → Db.cards (w_db w') = Db.cards (w_db w) ++ stored_rows es →
  Db.users (w_db w') = Db.users (w_db w) → foldl note_user (Db.users (w_db w)) es = Db.users (w_db w) →
  added_names es = [] → Forall (present (Db.users (w_db w'))) es →
  exec_spec w w' es.
Proof.
  intros Hs Hc Hu Hf Ha Hp. split; try done.
  - by rewrite Hu.
  - by rewrite Hu.
  - unfold User.ids_unique. by rewrite Hu.
  - rewrite Ha. split; [constructor|set_solver].
Qed.

Lemma exec_ok bound c (w w' : world DB) r :
  (∀ p, src (w_rng w) p mod 2 ^ 63 < bound) → exec c w = (w', r) →
  answer_ok bound c r ∧ exec_spec w w' (effect_of c r).
Proof.
  intros Hsrc E. destruct c as [n h|n h|u n k|]; simpl in *.
  - destruct (Db.insert_user n h (w_db w)) as [db [id|e]] eqn:Ei; simplify_eq/=.
    + apply Db.insert_user_ok in Ei as (Hn & Hu & Hc & Hpos & Hfresh). split; [done|].
      split; simpl; try done.
      * by rewrite app_nil_r.
      * rewrite Hu. by apply insert_subseteq.
      * intros Hids. unfold User.ids_unique. simpl. rewrite Hu. by apply User.ids_insert.
      * split; [repeat constructor; set_solver|]. intros m. rewrite list_elem_of_singleton. by intros ->.
      * constructor; [|done]. simpl. rewrite Hu. apply lookup_insert_eq.
    + apply Db.insert_user_err in Ei as [Hu Hc]. split; [done|].
      apply exec_same; simpl; try done. by rewrite app_nil_r.
  - injection E as <- <-. split; [done|].
    destruct (Db.select_user n h (w_db w)) as [id|e] eqn:Es; apply exec_same; simpl; try done;
      try (by rewrite app_nil_r). constructor; [|done]. by apply Db.select_user_ok.
  - split; [done|]. destruct (Db.insert_card u n k (w_db w)) as [db [[]|e]] eqn:Ei; simplify_eq/=.
    + apply Db.insert_card_ok in Ei as [Hc Hu]. apply exec_same; simpl; try done. by repeat constructor.
    + apply Db.insert_card_err in Ei as [Hc Hu]. apply exec_same; simpl; try done;
        [by rewrite app_nil_r|by repeat constructor].
  - simplify_eq/=. split.
    + pose proof (Z.mod_pos_bound (src (w_rng w) (pos (w_rng w))) (2 ^ 63) ltac:(lia)).
      specialize (Hsrc (pos (w_rng w))). lia.
    + apply exec_same; simpl; try done. by rewrite app_nil_r.
Qed.

(** ** Reachable systems *)

(** The effects of task [i]. *)
Definition effects_of (i : nat) : list (nat * effect) → list effect :=
  omap (λ je, if decide (i = je.1) then Some je.2 else None).

Lemma effects_of_app i l1 l2 : effects_of i (l1 ++ l2) = effects_of i l1 ++ effects_of i l2.
Proof. apply omap_app. Qed.

Lemma effects_of_own i j es :
  effects_of i ((j,.) <$> es) = if decide (i = j) then es else [].
Proof.
  case_decide as Hij; induction es as [|e es IH]; try done; unfold effects_of in *; simpl;
    [rewrite decide_True by done; by f_equal|by rewrite decide_False].
Qed.

Lemma effects_of_none i l : (∀ j e, (j, e) ∈ l → j < i)%nat → effects_of i l = [].
Proof.
  induction l as [|[j e] l IH]; intros Hl; [done|]. simpl.
  rewrite decide_False; [|pose proof (Hl j e ltac:(set_solver)); lia].
  apply IH. intros j' e' Hin. apply (Hl j' e'). set_solver.
Qed.

Lemma effects_of_elem i e l : e ∈ effects_of i l → (i, e) ∈ l.
Proof.
  unfold effects_of. rewrite list_elem_of_omap. intros ([j e'] & Hin & E).
  case_decide; simplify_eq/=. done.
Qed.

Record sys_ok (bound : Z) (w0 : world DB) (s : sys) : Prop := {
  ok_src : src (w_rng (s_world s)) = src (w_rng w0);
  ok_cards : Db.cards (w_db (s_world s)) = Db.cards (w_db w0) ++ stored_rows (s_log s).*2;
  ok_users : Db.users (w_db (s_world s)) = foldl note_user (Db.users (w_db w0)) (s_log s).*2;
  ok_grow : Db.users (w_db w0) ⊆ Db.users (w_db (s_world s));
  ok_ids : User.ids_unique (s_world s);
  ok_new : NoDup (added_names (s_log s).*2);
  ok_fresh : ∀ n, n ∈ added_names (s_log s).*2 → Db.users (w_db w0) !! n = None;
  ok_present : Forall (present (Db.users (w_db (s_world s)))) (s_log s).*2;
  ok_log : ∀ j e, (j, e) ∈ s_log s → (j < length (s_tasks s))%nat;
  ok_tasks : ∀ i t, s_tasks s !! i = Some t →
    wp bound (settled bound (t_req t)) (effects_of i (s_log s)) (t_prog t);
}.

Lemma sys_ok_idle bound w0 : User.ids_unique w0 → sys_ok bound w0 (idle w0).
Proof.
  intros Hids. split; simpl; try done; [by rewrite app_nil_r|constructor|set_solver|set_solver].
Qed.

Lemma sys_ok_arrive bound w0 s q : sys_ok bound w0 s → sys_ok bound w0 (arrive q s).
Proof.
  intros [? ? ? ? ? ? ? ? Hlog Htasks]. split; simpl; try done.
  - intros j e Hin. rewrite length_app. simpl. specialize (Hlog _ _ Hin). lia.
  - intros i t Ht. apply lookup_app_Some in Ht as [Ht|[Hi Ht]]; [by apply Htasks|].
    destruct (i - length (s_tasks s))%nat eqn:Ei; simplify_eq/=.
    rewrite effects_of_none; [apply wp_start|]. intros j e Hin. specialize (Hlog _ _ Hin). lia.
Qed.

Lemma added_present us es n :
  n ∈ added_names es → Forall (present us) es → is_Some (us !! n).
Proof.
  unfold added_names. rewrite list_elem_of_omap. intros (e & He & E) Hp.
  rewrite Forall_forall in Hp. specialize (Hp e He). destruct e; simplify_eq/=. eauto.
Qed.

Lemma advance_inv i s s' :
  advance i s = Some s' → ∃ q c k w' r,
    s_tasks s !! i = Some {| t_req := q; t_prog := Do c k |} ∧ exec c (s_world s) = (w', r) ∧
    s' = {| s_world := w'; s_tasks := <[i := {| t_req := q; t_prog := k r |}]> (s_tasks s);
            s_log := s_log s ++ ((i,.) <$> effect_of c r) |}.
Proof.
  unfold advance. destruct (s_tasks s !! i) as [[q [o|c k]]|]; try done.
  destruct (exec c (s_world s)) as [w' r] eqn:E. intros [= <-]. eauto 10.
Qed.

Lemma sys_ok_advance bound w0 i s s' :
  (∀ p, src (w_rng w0) p mod 2 ^ 63 < bound) →
  sys_ok bound w0 s → advance i s = Some s' → sys_ok bound w0 s'.
Proof.
  intros Hsrc Hok (q & c & k & w' & r & Hi & E & ->)%advance_inv.
  destruct Hok as [Hs Hc Hu Hg Hids Hnew Hfresh Hpres Hlog Htasks].
  destruct (exec_ok bound c (s_world s) w' r) as [Hr [Ss Sc Su Sg Sids [Snd Snew] Sp]];
    [by rewrite Hs|done|].
  assert (Es : (s_log s ++ ((i,.) <$> effect_of c r)).*2 = (s_log s).*2 ++ effect_of c r).
  { rewrite fmap_app. f_equal. rewrite <- list_fmap_compose. apply list_fmap_id. }
  split; simpl; rewrite ?Es.
  - congruence.
  - unfold stored_rows. rewrite Sc, Hc, omap_app, app_assoc. done.
  - by rewrite Su, Hu, foldl_app.
  - by etrans.
  - auto.
  - unfold added_names. rewrite omap_app. apply NoDup_app. split_and!; [done| |done].
    intros n Hn1 Hn2. apply Snew in Hn2. destruct (added_present _ _ _ Hn1 Hpres). congruence.
  - unfold added_names. rewrite omap_app. intros n [Hn|Hn]%elem_of_app; [auto|].
    apply Snew in Hn. destruct (Db.users (w_db w0) !! n) eqn:E0; [|done].
    eapply lookup_weaken in E0; [|exact Hg]. congruence.
  - apply Forall_app. split; [|done]. eapply Forall_impl; [exact Hpres|]. intros e.
    by apply present_mono.
  - intros j e. rewrite length_insert, elem_of_app. intros [Hin|Hin]; [eauto|].
    apply list_elem_of_fmap in Hin as (? & ? & _). simplify_eq. by eapply lookup_lt_Some.
  - intros j t Ht. rewrite effects_of_app, effects_of_own.
    apply list_lookup_insert_Some in Ht as [(<- & <- & _)|[Hij Ht]].
    + rewrite decide_True by done. by apply (Htasks _ _ Hi r).
    + rewrite decide_False, app_nil_r by done. by apply Htasks.
Qed.

Lemma sys_ok_reachable bound w0 s :
  (∀ p, src (w_rng w0) p mod 2 ^ 63 < bound) → User.ids_unique w0 →
  rtc step (idle w0) s → sys_ok bound w0 s.
Proof.
  intros Hsrc Hids. pose proof (sys_ok_idle bound w0 Hids) as H0. revert H0.
  generalize (idle w0). intros s0 H0 Hr. induction Hr as [|a b c Hab _ IH]; [done|].
  apply IH. destruct Hab; [by apply sys_ok_arrive|by eapply sys_ok_advance].
Qed.

Lemma one_adder (l : list (nat * effect)) i j n id id' h h' :
  NoDup (added_names l.*2) → (i, AddUser n id h) ∈ l → (j, AddUser n id' h') ∈ l → i = j.
Proof.
  assert (Hin : ∀ i id h (l : list (nat * effect)), (i, AddUser n id h) ∈ l → n ∈ added_names l.*2).
  { intros i' id0 h0 l0 H. unfold added_names. apply list_elem_of_omap.
    exists (AddUser n id0 h0). split; [|done]. apply list_elem_of_fmap. by eexists (_, _). }
  induction l as [|[x e] l IH]; intros Hnd Hi Hj; [set_solver|].
  rewrite fmap_cons in Hnd. unfold added_names in Hnd. simpl in Hnd.
  apply elem_of_cons in Hi as [Ei|Hi], Hj as [Ej|Hj]; simplify_eq; [done| | |].
  - simpl in Hnd. apply NoDup_cons in Hnd as [Hno _]. by destruct Hno; eapply Hin.
  - simpl in Hnd. apply NoDup_cons in Hnd as [Hno _]. by destruct Hno; eapply Hin.
  - apply IH; [|done..]. destruct e; try done. by apply NoDup_cons in Hnd as [_ ?].
Qed.

(** ** Termination *)

(** At most [n] operations. *)
Fixpoint within {A} (n : nat) (p : prog A) {struct p} : Prop :=
  match p with
  | Ret _ => True
  | Do c k => match n with O => False | S n => ∀ r, within n (k r) end
  end.

Lemma within_le {A} (p : prog A) : ∀ n m, (n ≤ m)%nat → within n p → within m p.
Proof.
  induction p as [o|c k IH]; intros n m Hle; [done|]. destruct n as [|n]; [by intros []|].
  destruct m as [|m]; [lia|]. simpl. intros H r. eapply IH; [|done]. lia.
Qed.

Lemma within_Float64 {A} n m (k : f64 → prog A) :
  (∀ f, within m (k f)) → within (n + m) (Float64 n k).
Proof.
  intros Hk. induction n as [|n IH]; [done|]. intros v. cbv zeta. destruct (eqb _ _); [done|].
  eapply within_le; [|done]. lia.
Qed.

Lemma within_Intn {A} n b m (k : Z → prog A) :
  n ≠ 0%nat → (∀ i, within m (k i)) → within (n + m) (Intn n b k).
Proof.
  intros Hn Hk. assert (∀ bits, within (n + m) (IntBitsn n bits b k)) as H.
  { intros bits. unfold IntBitsn. destruct (_ =? 0).
    - destruct n as [|n]; [done|]. intros v. eapply within_le; [|done]. lia.
    - clear Hn. induction n as [|n IH]; [done|]. intros v. cbv zeta. destruct (_ <? _); [done|].
      eapply within_le; [|done]. lia. }
  unfold Intn. destruct (_ <=? _); apply H.
Qed.

(** The operations of a request; a card takes at most [fuel] outputs for its tier,
    [fuel] for its name, and one statement. *)
Definition cost (q : User.request) : nat :=
  match q with
  | User.QRegister _ | User.QLogin _ => 1
  | User.QLogout _ => 0
  | User.QDraw r => Z.to_nat (App.draw_Count r) * (fuel + (fuel + 1))
  end.

Lemma within_draw_loop n user_id k : ∀ cards,
  fuel ≠ 0%nat → (∀ cards, within 0 (k cards)) →
  within (n * (fuel + (fuel + 1))) (draw_loop n user_id cards k).
Proof.
  intros cards Hf Hk. revert cards. induction n as [|n IH]; intros cards; [apply Hk|]. cbn [draw_loop].
  unfold drawOne. rewrite Nat.mul_succ_l, Nat.add_comm, <- Nat.add_assoc.
  apply within_Float64. intros f. cbv zeta. destruct (_ <=? 0); [done|].
  rewrite <- Nat.add_assoc. apply within_Intn; [done|]. intros i. destruct (_ !! Z.to_nat i); [|done].
  simpl. intros _. apply IH.
Qed.

Lemma within_start q : fuel ≠ 0%nat → within (cost q) (start q).
Proof.
  intros Hf. destruct q as [r|r|r|r]; simpl.
  - by intros [].
  - by intros [].
  - done.
  - unfold Draw. destruct (_ || _); [done|]. by apply within_draw_loop.
Qed.

Definition advances (s s' : sys) : Prop := ∃ i, advance i s = Some s'.

Definition budgeted (ts : list task) : list nat → Prop := Forall2 (λ t n, within n (t_prog t)) ts.

Lemma advance_budget s s' ns :
  advances s s' → budgeted (s_tasks s) ns →
  ∃ ns', budgeted (s_tasks s') ns' ∧ sum_list ns = S (sum_list ns').
Proof.
  intros (i & (q & c & k & w' & r & Hi & _ & ->)%advance_inv) Hb.
  destruct (Forall2_lookup_l _ _ _ _ _ Hb Hi) as (n & Hn & Hw). simpl in *.
  destruct n as [|n]; [done|]. exists (<[i := n]> ns). split.
  - apply Forall2_insert; [done|]. apply Hw.
  - clear -Hn. revert i Hn. induction ns as [|m ns IH]; intros [|i] Hn; simplify_eq/=; [done|].
    rewrite (IH i Hn). lia.
Qed.

Lemma advances_bounded m s s' ns :
  nsteps advances m s s' → budgeted (s_tasks s) ns → (m ≤ sum_list ns)%nat.
Proof.
  intros Hn. revert ns. induction Hn as [|m a b c Hab _ IH]; intros ns Hb; [lia|].
  destruct (advance_budget _ _ _ Hab Hb) as (ns' & Hb' & ->). specialize (IH _ Hb'). lia.
Qed.

Lemma advances_length m s s' : nsteps advances m s s' → length (s_tasks s) = length (s_tasks s').
Proof.
  induction 1 as [|m a b c [i Hab] _ IH]; [done|]. rewrite <- IH.
  apply advance_inv in Hab as (? & ? & ? & ? & ? & _ & _ & ->). simpl. by rewrite length_insert.
Qed.

Lemma reachable_within (b : User.request → nat) w0 s :
  (∀ q, within (b q) (start q)) → rtc step (idle w0) s →
  budgeted (s_tasks s) ((λ t, b (t_req t)) <$> s_tasks s).
Proof.
  intros Hb Hr. apply Forall2_fmap_r, Forall_Forall2_diag.
  assert (H0 : Forall (λ t, within (b (t_req t)) (t_prog t)) (s_tasks (idle w0))) by constructor.
  revert H0. induction Hr as [|x y z Hxy _ IH]; [done|]. intros Hx. apply IH. clear IH.
  destruct Hxy as [q x|i x y (q & c' & k & w' & r & Hi & _ & ->)%advance_inv]; simpl.
  - apply Forall_app. split; [done|]. repeat constructor. apply Hb.
  - apply Forall_insert; [done|]. eapply Forall_lookup_1 in Hx; [|done]. simpl in *.
    destruct (b q) as [|n]; [done|]. eapply within_le; [|done]. lia.
Qed.

Lemma reachable_budget w0 s :
  fuel ≠ 0%nat → rtc step (idle w0) s → budgeted (s_tasks s) ((λ t, cost (t_req t)) <$> s_tasks s).
Proof. intros Hf. apply (reachable_within cost). intros q. by apply within_start. Qed.

(** No request takes more: a draw of more than ten cards is refused. *)
Definition max_cost : nat := S (10 * (fuel + (fuel + 1))).

Lemma within_max q : fuel ≠ 0%nat → within max_cost (start q).
Proof.
  intros Hf. pose proof (within_start q Hf) as Hw. destruct q as [r|r|r|r];
    try (eapply within_le; [|exact Hw]; simpl; unfold max_cost; lia).
  simpl in Hw |- *. unfold Draw in *. destruct (_ || _) eqn:E; [done|].
  apply orb_false_iff in E as [_ E%Z.ltb_ge].
  eapply within_le; [|exact Hw]. unfold max_cost. nia.
Qed.

(** ** Rejected outputs *)

(** The outputs of which a draw may reject some: the highest 2^42 of the 2^63. *)
Definition high (v : Z) : bool := 2 ^ 63 - 2 ^ 42 <=? v.

(** How many of the [n] outputs from position [p] on are among them. *)
Fixpoint highs (f : nat → Z) (p n : nat) : nat :=
  match n with
  | O => 0
  | S n => highs f p n + (if high (f (p + n)%nat mod 2 ^ 63) then 1 else 0)
  end.

Lemma highs_le f p n m : (n ≤ m)%nat → (highs f p n ≤ highs f p m)%nat.
Proof. induction 1; simpl; lia. Qed.

(** What an operation leaves of [m] outputs that are not high and [k] that are. *)
Definition spend (c : stmt) : answer c → nat → nat → option (nat * nat) :=
  match c with
  | SourceInt63 => λ (v : Z) m k,
      if high v then Some (m, pred k) else match m with O => None | S m => Some (m, k) end
  | _ => λ _ m k, Some (m, k)
  end.

(** At most [m] outputs that are not high are taken, and the fuel runs out only after
    [k] that are. *)
Fixpoint paced {A} (m k : nat) (p : prog A) {struct p} : Prop :=
  match p with
  | Ret o => o = Diverge → k = 0%nat
  | Do c cont => ∀ r, answer_ok (2 ^ 63) c r →
    match spend c r m k with Some (m, k) => paced m k (cont r) | None => False end
  end.

Lemma paced_le {A} (p : prog A) : ∀ m m' k k', (m ≤ m')%nat → (k' ≤ k)%nat → paced m k p → paced m' k' p.
Proof.
  induction p as [o|c cont IH]; intros m m' k k' Hm Hk; simpl; [intros H E; specialize (H E); lia|].
  intros H r Hr. specialize (H r Hr).
  destruct c; simpl in *; try (by eapply IH; [..|exact H]).
  destruct (high r); [by eapply IH; [| |exact H]; lia|].
  destruct m as [|m]; [done|]. destruct m' as [|m']; [lia|]. by eapply IH; [| |exact H]; lia.
Qed.

(** One output: a high one may be rejected, any other is used. *)
Lemma paced_source {A} m k (cont : Z → prog A) :
  (∀ v, 0 ≤ v < 2 ^ 63 → high v = true → paced (S m) (pred k) (cont v)) →
  (∀ v, 0 ≤ v < 2 ^ 63 → high v = false → paced m k (cont v)) → paced (S m) k (Do SourceInt63 cont).
Proof.
  intros H1 H2 v Hv. simpl in *. destruct (high v) eqn:E; [apply H1|apply H2]; (done || lia).
Qed.

Lemma paced_Float64 {A} m n (cont : f64 → prog A) : ∀ k,
  (k ≤ n)%nat → (∀ f, paced m k (cont f)) → paced (S m) k (Float64 n cont).
Proof.
  induction n as [|n IH]; intros k Hk Hc; [intros _; lia|]. cbn [Float64].
  apply paced_source; intros v Hv Hh; cbv zeta.
  - destruct (eqb _ _); [|by eapply paced_le; [| |apply Hc]; lia].
    apply IH; [lia|]. intros f. eapply paced_le; [| |apply Hc]; lia.
  - replace (eqb _ _) with false; [apply Hc|]. symmetry. apply accepted_iff; [done|].
    apply Z.leb_gt in Hh. unfold k_all. lia.
Qed.

Lemma rejected_high b v : 0 < b ≤ 1024 → 0 ≤ v < 2 ^ 63 → max_accepted 31 b < Z.shiftr v 32 → high v = true.
Proof.
  intros Hb Hv Hlt. apply Z.leb_le. rewrite Z.shiftr_div_pow2 in Hlt by lia. unfold max_accepted in Hlt.
  pose proof (Z.mod_pos_bound (2 ^ 31) b ltac:(lia)).
  pose proof (Z.mul_div_le v (2 ^ 32) ltac:(lia)). lia.
Qed.

Lemma paced_Intn {A} m n b (cont : Z → prog A) k :
  0 < b ≤ 1024 → (k ≤ n)%nat → (∀ i, paced m k (cont i)) → paced (S m) k (Intn n b cont).
Proof.
  intros Hb Hk Hc. unfold Intn. rewrite (proj2 (Z.leb_le _ _)) by lia. unfold IntBitsn.
  destruct (_ =? 0).
  { apply paced_source; intros v _ _; eapply paced_le; [| |apply Hc| | |apply Hc]; lia. }
  revert k Hk Hc. induction n as [|n IH]; intros k Hk Hc; [intros _; lia|]. cbn [reject_loop].
  apply paced_source; intros v Hv Hh; cbv zeta;
    destruct (Z.ltb_spec (max_accepted 31 b) (Z.shiftr v (63 - 31))) as [Hlt|].
  - apply IH; [lia|]. intros i. eapply paced_le; [| |apply Hc]; lia.
  - eapply paced_le; [| |apply Hc]; lia.
  - apply rejected_high in Hlt; [congruence|done..].
  - apply Hc.
Qed.

(** A request uses at most two outputs for each of at most ten cards. *)
Lemma paced_start q :
  embedded_pool = Return pool → paced 20 fuel (start q).
Proof.
  intros Hp. destruct q as [r|r|r|r]; [by intros [] ?..|done|]. simpl. unfold Draw.
  destruct (_ || _) eqn:E; [done|]. apply orb_false_iff in E as [_ E%Z.ltb_ge].
  apply (paced_le _ (2 * Z.to_nat (App.draw_Count r)) 20 fuel fuel); [lia|done|].
  generalize (Z.to_nat (App.draw_Count r)), (@nil App.Card). clear E.
  induction n as [|n IH]; intros cards; [done|]. rewrite Nat.mul_succ_r, Nat.add_comm. cbn [draw_loop].
  unfold drawOne. apply paced_Float64; [done|]. intros f. cbv zeta.
  pose proof (embedded_pool_small pool Hp (pick_tier f zero rarityProb)) as Hs. clear Hp.
  destruct (Z.leb_spec (Z.of_nat (length (default [] (pool !! pick_tier f zero rarityProb)))) 0); [done|].
  apply paced_Intn; [lia|done|]. intros i. destruct (_ !! Z.to_nat i); [|done]. intros res _. apply IH.
Qed.

(** The outputs taken since [w0]. *)
Definition taken (w0 w : world DB) : nat := pos (w_rng w) - pos (w_rng w0).
Abbreviation high_taken w0 w := (highs (src (w_rng w0)) (pos (w_rng w0)) (taken w0 w)).

Lemma exec_pos c (w w' : world DB) r : exec c w = (w', r) → (pos (w_rng w') ≤ S (pos (w_rng w)))%nat.
Proof.
  intros E. destruct c as [n h|n h|u n k|]; simpl in E; [|simplify_eq/=; lia| |simplify_eq/=; lia].
  - destruct (Db.insert_user n h (w_db w)). simplify_eq/=. lia.
  - destruct (Db.insert_card u n k (w_db w)). simplify_eq/=. lia.
Qed.

Record pace_ok (w0 : world DB) (s : sys) (ms : list nat) : Prop := {
  pc_pos : (pos (w_rng w0) ≤ pos (w_rng (s_world s)))%nat;
  pc_tasks : Forall2 (λ t m, paced m (fuel - high_taken w0 (s_world s)) (t_prog t)) (s_tasks s) ms;
  pc_sum : (taken w0 (s_world s) + sum_list ms ≤
            20 * length (s_tasks s) + high_taken w0 (s_world s))%nat;
}.

Lemma sum_list_lookup_insert (ns : list nat) i n m :
  ns !! i = Some n → (sum_list (<[i := m]> ns) + n = sum_list ns + m)%nat.
Proof.
  revert i. induction ns as [|x ns IH]; intros [|i] Hn; simplify_eq/=; [lia|]. specialize (IH _ Hn). lia.
Qed.

Lemma pace_ok_arrive w0 s ms q :
  embedded_pool = Return pool → pace_ok w0 s ms → pace_ok w0 (arrive q s) (ms ++ [20%nat]).
Proof.
  intros Hp [H1 H2 H3]. split; simpl.
  - done.
  - apply Forall2_app; [done|]. constructor; [|done]. simpl.
    eapply paced_le; [..|by apply paced_start]; lia.
  - rewrite length_app, sum_list_with_app. simpl. lia.
Qed.

Lemma pace_ok_advance w0 s s' ms i :
  src (w_rng (s_world s)) = src (w_rng w0) → pace_ok w0 s ms → advance i s = Some s' →
  ∃ ms', pace_ok w0 s' ms' ∧ length (s_tasks s') = length (s_tasks s).
Proof.
  intros Hsrc [Hpos Hts Hsum] (q & c & cont & w' & r & Hi & E & ->)%advance_inv.
  destruct (exec_ok (2 ^ 63) c (s_world s) w' r) as [Hr _]; [intros; by apply Z.mod_pos_bound|done|].
  destruct (Forall2_lookup_l _ _ _ _ _ Hts Hi) as (m & Hm & Hp). specialize (Hp r Hr).
  assert (Hsame : w_rng w' = w_rng (s_world s) → spend c r m (fuel - high_taken w0 (s_world s)) =
     Some (m, (fuel - high_taken w0 (s_world s))%nat) → ∃ ms', pace_ok w0
    {| s_world := w'; s_tasks := <[i := {| t_req := q; t_prog := cont r |}]> (s_tasks s);
       s_log := s_log s ++ ((i,.) <$> effect_of c r) |} ms' ∧ length (s_tasks s) = length (s_tasks s)).
  { intros Ew Es. rewrite Es in Hp. exists ms. split; [|done].
    assert (Et : taken w0 w' = taken w0 (s_world s)) by (unfold taken; by rewrite Ew).
    split; simpl; rewrite ?Et, ?Ew, ?length_insert; try done.
    rewrite <- (list_insert_id ms i m Hm). by apply Forall2_insert. }
  simpl; rewrite length_insert.
  destruct c; simpl in *; try (apply Hsame; [by case_all|done]).
  clear Hsame. injection E as <- <-. rewrite Hsrc in *.
  replace (pos (w_rng (s_world s))) with (pos (w_rng w0) + taken w0 (s_world s))%nat in *
    by (unfold taken; lia).
  assert (Et : ∀ db, taken w0 {| w_db := db; w_rng := {| src := src (w_rng w0);
    pos := S (pos (w_rng w0) + taken w0 (s_world s)) |} |} = S (taken w0 (s_world s))).
  { intros db. unfold taken at 1. simpl. lia. }
  destruct (high _) eqn:Eh.
  - exists ms. split; [|done]. split; simpl; [lia| |]; rewrite Et; simpl; rewrite Eh.
    + rewrite <- (list_insert_id ms i m Hm). apply Forall2_insert.
      * eapply Forall2_impl; [exact Hts|]. intros t m' Ht. eapply paced_le; [| |exact Ht]; lia.
      * simpl. eapply paced_le; [| |exact Hp]; lia.
    + rewrite length_insert. lia.
  - destruct m as [|m]; [done|]. exists (<[i := m]> ms). split; [|done].
    split; simpl; [lia| |]; rewrite Et; simpl; rewrite Eh, Nat.add_0_r.
    + by apply Forall2_insert.
    + rewrite length_insert. pose proof (sum_list_lookup_insert _ _ _ m Hm). lia.
Qed.

(** Among the outputs that [n] requests can use when none is rejected, and [fuel] more,
    fewer than [fuel] are high. *)
Definition source_ok (w0 : world DB) (n : nat) : Prop :=
  (highs (src (w_rng w0)) (pos (w_rng w0)) (20 * n + fuel) < fuel)%nat.

Lemma source_ok_fuel w0 n : source_ok w0 n → fuel ≠ 0%nat.
Proof. unfold source_ok. lia. Qed.

Lemma source_ok_le w0 n m : (m ≤ n)%nat → source_ok w0 n → source_ok w0 m.
Proof. unfold source_ok. intros Hle Hs. eapply Nat.le_lt_trans; [|exact Hs]. apply highs_le. lia. Qed.

Lemma pace_ok_reachable w0 s :
  embedded_pool = Return pool → rtc step (idle w0) s → source_ok w0 (length (s_tasks s)) →
  src (w_rng (s_world s)) = src (w_rng w0) ∧
  ∃ ms, pace_ok w0 s ms ∧ (high_taken w0 (s_world s) < fuel)%nat.
Proof.
  intros Hp. revert s. refine (rtc_ind_r _ _ _ _); [intros Hok|intros s s' _ Hstep IH Hok].
  - split; [done|]. exists []. unfold taken. simpl. rewrite Nat.sub_diag. simpl.
    split; [|by apply source_ok_fuel in Hok; lia]. split; simpl; unfold taken; try lia; [].
    constructor.
  - destruct Hstep as [q s|i s s' Ha].
    + simpl in Hok. rewrite length_app in Hok. destruct IH as (Hsrc & ms & Hms & Hlt).
      { eapply source_ok_le; [|exact Hok]. lia. }
      split; [done|]. eexists. split; [by apply pace_ok_arrive|done].
    + assert (Hlen : length (s_tasks s') = length (s_tasks s)).
      { apply advance_inv in Ha as (? & ? & ? & ? & ? & _ & _ & ->). simpl. by rewrite length_insert. }
      rewrite Hlen in Hok. destruct (IH Hok) as (Hsrc & ms & Hms & Hlt).
      destruct (pace_ok_advance w0 s s' ms i Hsrc Hms Ha) as (ms' & Hms' & _).
      pose proof Ha as (q & c & cont & w' & r & Hi & E & ->)%advance_inv.
      destruct (exec_ok (2 ^ 63) c (s_world s) w' r) as [_ [Hs' _ _ _ _ _ _]];
        [intros; by apply Z.mod_pos_bound|done|].
      split; [simpl; congruence|]. exists ms'. split; [done|]. simpl.
      eapply Nat.le_lt_trans; [apply highs_le|exact Hok]. destruct Hms as [Hpos _ Hsum].
      apply exec_pos in E. unfold taken in *. lia.
Qed.

(** With the embedded table and such a source, a request that has ended was answered. *)
Lemma ended_answered w0 s i t o :
  source_ok w0 (length (s_tasks s)) → User.ids_unique w0 →
  embedded_pool = Return pool → rtc step (idle w0) s →
  s_tasks s !! i = Some t → t_prog t = Ret o → (∃ resp, o = Return resp) ∨ (∃ e, o = Fail e).
Proof.
  intros Hsrc Hids Hp Hr Ht Eo.
  destruct (pace_ok_reachable _ _ Hp Hr Hsrc) as (_ & ms & Hms & Hlt).
  destruct (Forall2_lookup_l _ _ _ _ _ (pc_tasks _ _ _ Hms) Ht) as (m & _ & Hpace).
  assert (Hok : sys_ok (2 ^ 63) w0 s).
  { apply sys_ok_reachable; [|done..]. intros. by apply Z.mod_pos_bound. }
  pose proof (ok_tasks _ _ _ Hok _ _ Ht) as Hw.
  assert (Hpool : pool_ok pool).
  { destruct embedded_pool_ok as (pool' & E' & Hpk). rewrite Hp in E'. by injection E' as <-. }
  clear Hp. rewrite Eo in Hw, Hpace. simpl in Hw, Hpace.
  destruct o as [resp|e|p|]; [by eauto..| |specialize (Hpace eq_refl); lia].
  destruct (t_req t); simpl in Hw; try done. by destruct Hw as [[] _].
Qed.

Lemma present_effects us i (l : list (nat * effect)) :
  Forall (present us) l.*2 → Forall (present us) (effects_of i l).
Proof.
  rewrite !Forall_forall. intros H e He. apply H, list_elem_of_fmap. exists (i, e).
  split; [done|]. by apply effects_of_elem.
Qed.

Lemma stuck_finished s i t :
  (∀ i, advance i s = None) → s_tasks s !! i = Some t → ∃ o, t_prog t = Ret o.
Proof.
  intros Hno Hi. specialize (Hno i). unfold advance in Hno. rewrite Hi in Hno.
  destruct t as [q [o|c k]]; [by eexists|]. by destruct (exec c (s_world s)).
Qed.

(** ** Properties *)

(** C30: requests that run at the same time do not disturb each other.  Run alone, a
    request is the method of its service.  When any requests arrive at any time and
    their database statements and random outputs interleave in any order, the table of
    cards grows by exactly the rows the requests stored, in the order of the statements;
    accounts are only added, ids stay unique, and of the registrations that got an id no
    two have the same name or id.  A registration with an id has its account, a login
    with an id found the account of that name and password, and a draw that returned
    cards sent exactly these to the table, for its user, in order, as many as asked for
    and each from the pool.  Where the pool has every rarity no request panics, and none
    is cut off where moreover the outputs of the source stay in the lower half of their
    range. *)
Theorem requests_interleaved (bound : Z) (w0 : world DB) (s : sys) :
  (∀ p, src (w_rng w0) p mod 2 ^ 63 < bound) → User.ids_unique w0 → rtc step (idle w0) s →
  let us := Db.users (w_db (s_world s)) in
  (∀ q w, agrees (run (start q) w) (method_of q w)) ∧
  Db.cards (w_db (s_world s)) = Db.cards (w_db w0) ++ stored_rows (s_log s).*2 ∧
  us = foldl note_user (Db.users (w_db w0)) (s_log s).*2 ∧
  Db.users (w_db w0) ⊆ us ∧ User.ids_unique (s_world s) ∧
  (∀ i q o, s_tasks s !! i = Some {| t_req := q; t_prog := Ret o |} →
     settled bound q (effects_of i (s_log s)) o ∧
     Forall (present us) (effects_of i (s_log s))) ∧
  (∀ i j r1 r2 resp1 resp2, i ≠ j →
     s_tasks s !! i = Some {| t_req := User.QRegister r1; t_prog := Ret (Return (RRegister resp1)) |} →
     s_tasks s !! j = Some {| t_req := User.QRegister r2; t_prog := Ret (Return (RRegister resp2)) |} →
     App.reg_UserId resp1 ≠ 0 → App.reg_UserId resp2 ≠ 0 →
     App.reg_Name r1 ≠ App.reg_Name r2 ∧ App.reg_UserId resp1 ≠ App.reg_UserId resp2).
Proof.
  intros Hsrc Hids Hr us.
  destruct (sys_ok_reachable bound w0 s Hsrc Hids Hr) as [_ Hc Hu Hg Hi Hnew _ Hp _ Ht].
  split_and!; try done; [apply run_start| |].
  - intros i q o E. split; [exact (Ht _ _ E)|]. by apply present_effects.
  - intros i j r1 r2 resp1 resp2 Hij E1 E2 H1 H2.
    destruct (Ht _ _ E1) as [[]|[_ A1]]; [done|]. destruct (Ht _ _ E2) as [[]|[_ A2]]; [done|].
    simpl in A1, A2. assert (Hne : App.reg_Name r1 ≠ App.reg_Name r2).
    { intros En. apply Hij. eapply (one_adder (s_log s)); [done| |];
        apply effects_of_elem; [rewrite A1; by left|rewrite A2, En; by left]. }
    split; [done|]. intros Eid. apply Hne.
    pose proof (present_effects us i _ Hp) as P1. pose proof (present_effects us j _ Hp) as P2.
    rewrite A1, Forall_singleton in P1. rewrite A2, Forall_singleton in P2.
    by eapply Hi; [exact P1|exact P2|].
Qed.

(** Requests that run at the same time all finish.  With the embedded table and a
    source of which fewer than [fuel] of the outputs in reach are high, a system that no
    further request enters performs at most [cost] operations for each of its requests, in
    whatever order they are scheduled, and when no operation is left every request has
    been answered, with a response or with the error of a refused count. *)
Theorem requests_finish (w0 : world DB) (s s' : sys) (n : nat) :
  source_ok w0 (length (s_tasks s)) → User.ids_unique w0 → embedded_pool = Return pool →
  rtc step (idle w0) s → nsteps advances n s s' →
  (n ≤ sum_list ((λ t, cost (t_req t)) <$> s_tasks s))%nat ∧
  ((∀ i, advance i s' = None) →
   ∀ i t, s_tasks s' !! i = Some t →
     (∃ resp, t_prog t = Ret (Return resp)) ∨ (∃ e, t_prog t = Ret (Fail e))).
Proof.
  intros Hsrc Hids Hp Hr Hn. split.
  { eapply advances_bounded; [done|]. eapply reachable_budget; [by eapply source_ok_fuel|done]. }
  intros Hno i t Ht. destruct (stuck_finished _ _ _ Hno Ht) as [o Eo].
  assert (Hr' : rtc step (idle w0) s').
  { etrans; [exact Hr|]. apply rtc_nsteps_2 in Hn. eapply (rtc_congruence id), Hn.
    intros a b [j E]. by eapply step_advance. }
  rewrite (advances_length _ _ _ Hn) in Hsrc.
  rewrite Eo. destruct (ended_answered w0 s' i t o) as [[? ->]|[? ->]]; eauto.
Qed.

(** A given order: a request that arrives, or the next operation of a task. *)
Definition play (evs : list (User.request + nat)) (s : sys) : option sys :=
  foldl (λ s ev, s ← s; match ev with inl q => Some (arrive q s) | inr i => advance i s end)
    (Some s) evs.

Lemma play_rtc evs : ∀ s s', play evs s = Some s' → rtc step s s'.
Proof.
  induction evs as [|ev evs IH] using rev_ind; intros s s' H.
  { injection H as <-. done. }
  unfold play in *. rewrite foldl_app in H. simpl in H.
  destruct (foldl _ (Some s) evs) as [s1|] eqn:E; [|done]. simpl in H.
  eapply rtc_r; [by apply IH|]. destruct ev; simplify_eq; by econstructor.
Qed.

End programs.

Import RefDb.

(** Two draws and two registrations of one name, in turns: the rows of the two users
    alternate in the table, and only one registration gets an id. *)
Definition demo_pool : gmap Z (list string) := {[6 := ["能天使"]]}.
Definition demo_events : list (User.request + nat) :=
  [inl (User.QDraw (App.Build_DrawRequest 1 2)); inl (User.QDraw (App.Build_DrawRequest 2 2));
   inr 0; inr 1; inr 0; inr 1; inr 0; inr 1; inl (User.QRegister (App.Build_RegisterRequest "bob" "1"));
   inl (User.QRegister (App.Build_RegisterRequest "bob" "2")); inr 3; inr 0; inr 2; inr 1; inr 0; inr 1;
   inr 1; inr 0]%nat.

Definition demo_sys : option (sys (DB := RefDb.ref_db)) :=
  play 1 demo_pool {| instance := "G:1" |} demo_events (idle User.demo_world).

Example demo_ends :
  (λ s, (Db.cards (w_db (s_world s)), t_prog <$> drop 2 (s_tasks s))) <$> demo_sys
  = Some ([(1, "能天使", 6); (2, "能天使", 6); (2, "能天使", 6); (1, "能天使", 6)],
     [Ret (Return (RRegister (App.Build_RegisterResponse 0
        "注册失败: pq: duplicate key value violates unique constraint")));
      Ret (Return (RRegister (App.Build_RegisterResponse 2 "注册成功! user_id=2")))]).
Proof. vm_compute. reflexivity. Qed.

Lemma requests_interleaved_witness :
  ∃ s, demo_sys = Some s ∧ s_tasks s !! 1%nat =
    Some {| t_req := User.QDraw (App.Build_DrawRequest 2 2);
            t_prog := Ret (Return (RDraw (App.Build_DrawResponse
              [App.Build_Card "能天使" 6; App.Build_Card "能天使" 6] "G:1"))) |} ∧
    settled 1 demo_pool (2 ^ 62) (User.QDraw (App.Build_DrawRequest 2 2)) (effects_of 1 (s_log s))
      (Return (RDraw (App.Build_DrawResponse
              [App.Build_Card "能天使" 6; App.Build_Card "能天使" 6] "G:1"))).
Proof.
  destruct demo_sys as [s|] eqn:E; [|vm_compute in E; discriminate E].
  exists s. split; [reflexivity|].
  assert (Ht : s_tasks s !! 1%nat =
    Some {| t_req := User.QDraw (App.Build_DrawRequest 2 2);
            t_prog := Ret (Return (RDraw (App.Build_DrawResponse
              [App.Build_Card "能天使" 6; App.Build_Card "能天使" 6] "G:1"))) |}).
  { vm_compute in E. injection E as <-. reflexivity. }
  split; [exact Ht|].
  refine (proj1 (proj1 (proj2 (proj2 (proj2 (proj2 (proj2
    (requests_interleaved 1 demo_pool {| instance := "G:1" |} (2 ^ 62) User.demo_world s _ _ _))))))
    _ _ _ Ht)).
  - intros p. vm_compute. reflexivity.
  - intros n m r1 r2 H. vm_compute in H. discriminate H.
  - eapply play_rtc. exact E.
Defined.

Lemma requests_finish_witness :
  ∃ pool s', advance 0 (arrive 1 pool {| instance := "G:1" |}
      (User.QRegister (App.Build_RegisterRequest "bob" "1")) (idle User.demo_world)) = Some s' ∧
  (1 ≤ 1)%nat ∧ ∀ i t, s_tasks s' !! i = Some t →
    (∃ resp, t_prog t = Ret (Return resp)) ∨ (∃ e, t_prog t = Ret (Fail e)).
Proof.
  destruct embedded_pool_ok as (pool & E & _). exists pool. eexists. split; [reflexivity|].
  match goal with |- _ ∧ ∀ i t, s_tasks ?s' !! _ = _ → _ =>
    destruct (requests_finish 1 pool {| instance := "G:1" |} User.demo_world
      (arrive 1 pool {| instance := "G:1" |} (User.QRegister (App.Build_RegisterRequest "bob" "1"))
        (idle User.demo_world)) s' 1) as [H1 H2] end.
  - apply Nat.ltb_lt. vm_compute. reflexivity.
  - intros n m r1 r2 H. vm_compute in H. discriminate H.
  - exact E.
  - apply rtc_once. constructor.
  - apply nsteps_once. exists 0%nat. reflexivity.
  - split; [exact H1|]. apply H2. intros [|i]; reflexivity.
Defined.

End Interleaving.
