(* ===== verification/Server.v ===== *)
(** * The RPC connection: [src/server/internal/server/server.go]

    [handleConnection] reads frames in one goroutine and runs every request in a
    goroutine of its own; all of them write to the connection under [writeMu].
    The model is a step relation on the state of one connection: the program
    counter of the reading goroutine, those of the request goroutines, the
    mutex, the bytes still to be read, the bytes written so far, and the state
    [W] of the services.  Each step is one operation of one goroutine, so the
    relation has every interleaving of the code; a handler's effect on [W] is
    one step, and a handler that does not return has no step.

    Three fields are ghost state, used to state the properties: the payloads of
    the frames read, the answers written completely, and the payloads of the
    frames that will get no answer. *)

From S2P Require Import Prelude Codec Pb Router Handler Wire.

Module Server.
Import Io Codec Rpc Handler.

Section server.
Context {W : Type} `{!Message RpcRequest} `{!Message RpcResponse}.
Context (router : Router.Router (HandlerFunc W)).

(** ** Responses *)

(** The response of [writeError]. *)
Definition error_response (requestID : string) (code : Z) (message : string) : RpcResponse :=
  {| resp_RequestId := requestID; resp_Payload := [];
     resp_Error := Some {| Code := code; ErrMessage := message |} |}.

Definition bad_request (err : string) : RpcResponse :=
  error_response "" 400 ("invalid request: " +:+ err).

Definition not_found (req : RpcRequest) : RpcResponse :=
  error_response (req_RequestId req) 404
    ("method not found: " +:+ req_Service req +:+ "." +:+ req_Method req).

(** The response of the request goroutine to the handler's result. *)
Definition handler_response (req : RpcRequest) (o : outcome bytes) : option RpcResponse :=
  match o with
  | Return respBytes =>
    Some {| resp_RequestId := req_RequestId req; resp_Payload := respBytes; resp_Error := None |}
  | Fail handlerErr =>
    Some {| resp_RequestId := req_RequestId req; resp_Payload := [];
            resp_Error := Some {| Code := 500; ErrMessage := handlerErr |} |}
  | Panic _ | Diverge => None
  end.

(** ** Goroutines *)

(** Where the reading goroutine is: reading; before [writeMu.Lock], in
    [writeError], before and between the two writes of [WriteFrame]; returned. *)
Inductive main_pc : Type :=
| MReading
| MWant (f : bytes) (resp : RpcResponse)
| MLocked (f : bytes) (resp : RpcResponse)
| MHeader (f : bytes) (resp : RpcResponse) (data : bytes)
| MBody (f : bytes) (resp : RpcResponse) (data : bytes)
| MClosed.

(** Where a request goroutine is: in the handler, before [proto.Marshal], before
    [writeMu.Lock], before and between the two writes, returned. *)
Inductive task_pc : Type :=
| TRun (f : bytes) (req : RpcRequest) (h : HandlerFunc W)
| TMarshal (f : bytes) (resp : RpcResponse)
| TWant (f : bytes) (resp : RpcResponse) (data : bytes)
| THeader (f : bytes) (resp : RpcResponse) (data : bytes)
| TBody (f : bytes) (resp : RpcResponse) (data : bytes)
| TDone.

Inductive owner : Type := OMain | OTask (i : nat).

#[export] Instance owner_eq_dec : EqDecision owner.
Proof. solve_decision. Defined.

(** An answer: the frame it answers, the response and its serialised form. *)
Definition answer : Type := bytes * RpcResponse * bytes.

Record state : Type := {
  input : reader;
  main : main_pc;
  tasks : list task_pc;
  writeMu : option owner;
  conn : writer;
  world : W;
  received : list bytes;
  answered : list answer;
  unanswered : list bytes;
}.

Definition set_main (pc : main_pc) (mu : option owner) (s : state) : state :=
  {| input := input s; main := pc; tasks := tasks s; writeMu := mu; conn := conn s;
     world := world s; received := received s; answered := answered s;
     unanswered := unanswered s |}.

Definition set_task (i : nat) (pc : task_pc) (mu : option owner) (s : state) : state :=
  {| input := input s; main := main s; tasks := <[i := pc]> (tasks s); writeMu := mu;
     conn := conn s; world := world s; received := received s; answered := answered s;
     unanswered := unanswered s |}.

Definition set_conn (w : writer) (s : state) : state :=
  {| input := input s; main := main s; tasks := tasks s; writeMu := writeMu s; conn := w;
     world := world s; received := received s; answered := answered s;
     unanswered := unanswered s |}.

Definition set_world (w : W) (s : state) : state :=
  {| input := input s; main := main s; tasks := tasks s; writeMu := writeMu s;
     conn := conn s; world := w; received := received s; answered := answered s;
     unanswered := unanswered s |}.

(** A frame has been read. *)
Definition got_frame (f : bytes) (r : reader) (s : state) : state :=
  {| input := r; main := main s; tasks := tasks s; writeMu := writeMu s; conn := conn s;
     world := world s; received := received s ++ [f]; answered := answered s;
     unanswered := unanswered s |}.

Definition spawn (t : task_pc) (s : state) : state :=
  {| input := input s; main := main s; tasks := tasks s ++ [t]; writeMu := writeMu s;
     conn := conn s; world := world s; received := received s; answered := answered s;
     unanswered := unanswered s |}.

Definition done_with (a : answer) (s : state) : state :=
  {| input := input s; main := main s; tasks := tasks s; writeMu := writeMu s;
     conn := conn s; world := world s; received := received s;
     answered := answered s ++ [a]; unanswered := unanswered s |}.

Definition dropped (f : bytes) (s : state) : state :=
  {| input := input s; main := main s; tasks := tasks s; writeMu := writeMu s;
     conn := conn s; world := world s; received := received s;
     answered := answered s; unanswered := unanswered s ++ [f] |}.

(** [conn.Close]: every later write fails. *)
Definition close_conn (w : writer) : writer :=
  {| sent := sent w; fails := Some (0%nat, IoErr "use of closed network connection") |}.

(** ** Steps *)

Inductive step : state → state → Prop :=
(* The reading goroutine: [codec.ReadFrame] fails and the loop returns. *)
| step_read_err s e r :
    main s = MReading → ReadFrame (input s) = (Err e, r) →
    step s (set_conn (close_conn (conn s)) (set_main MClosed (writeMu s) s))
(* ... a frame that is no request *)
| step_read_bad s f r e :
    main s = MReading → ReadFrame (input s) = (Ok f, r) → (Unmarshal f : result string RpcRequest) = Err e →
    step s (set_main (MWant f (bad_request e)) (writeMu s) (got_frame f r s))
(* ... a request for an unknown method *)
| step_read_unknown s f r req :
    main s = MReading → ReadFrame (input s) = (Ok f, r) → Unmarshal f = Ok req →
    Router.Route router (req_Service req) (req_Method req) = None →
    step s (set_main (MWant f (not_found req)) (writeMu s) (got_frame f r s))
(* ... a request that is handed to a new goroutine *)
| step_read_request s f r req h :
    main s = MReading → ReadFrame (input s) = (Ok f, r) → Unmarshal f = Ok req →
    Router.Route router (req_Service req) (req_Method req) = Some h →
    step s (spawn (TRun f req h) (got_frame f r s))
(* [writeMu.Lock(); s.writeError(...); writeMu.Unlock()] *)
| step_main_lock s f resp :
    main s = MWant f resp → writeMu s = None →
    step s (set_main (MLocked f resp) (Some OMain) s)
| step_main_marshal_err s f resp e :
    main s = MLocked f resp → Marshal resp = Err e →
    step s (dropped f (set_main MReading None s))
| step_main_marshal s f resp data :
    main s = MLocked f resp → Marshal resp = Ok data →
    step s (set_main (MHeader f resp data) (writeMu s) s)
| step_main_header s f resp data w :
    main s = MHeader f resp data → Write (frame_header data) (conn s) = (Ok tt, w) →
    step s (set_conn w (set_main (MBody f resp data) (writeMu s) s))
| step_main_header_err s f resp data e w :
    main s = MHeader f resp data → Write (frame_header data) (conn s) = (Err e, w) →
    step s (dropped f (set_conn w (set_main MReading None s)))
| step_main_body s f resp data w :
    main s = MBody f resp data → Write data (conn s) = (Ok tt, w) →
    step s (done_with (f, resp, data) (set_conn w (set_main MReading None s)))
| step_main_body_err s f resp data e w :
    main s = MBody f resp data → Write data (conn s) = (Err e, w) →
    step s (dropped f (set_conn w (set_main MReading None s)))
(* A request goroutine: the handler returns, fails or panics (and is recovered). *)
| step_handler s i f req h w o resp :
    tasks s !! i = Some (TRun f req h) → h (world s) (req_Payload req) = (w, o) →
    handler_response req o = Some resp →
    step s (set_task i (TMarshal f resp) (writeMu s) (set_world w s))
| step_handler_panic s i f req h w p :
    tasks s !! i = Some (TRun f req h) → h (world s) (req_Payload req) = (w, Panic p) →
    step s (dropped f (set_task i TDone (writeMu s) (set_world w s)))
| step_task_marshal_err s i f resp e :
    tasks s !! i = Some (TMarshal f resp) → Marshal resp = Err e →
    step s (dropped f (set_task i TDone (writeMu s) s))
| step_task_marshal s i f resp data :
    tasks s !! i = Some (TMarshal f resp) → Marshal resp = Ok data →
    step s (set_task i (TWant f resp data) (writeMu s) s)
| step_task_lock s i f resp data :
    tasks s !! i = Some (TWant f resp data) → writeMu s = None →
    step s (set_task i (THeader f resp data) (Some (OTask i)) s)
| step_task_header s i f resp data w :
    tasks s !! i = Some (THeader f resp data) →
    Write (frame_header data) (conn s) = (Ok tt, w) →
    step s (set_conn w (set_task i (TBody f resp data) (writeMu s) s))
| step_task_header_err s i f resp data e w :
    tasks s !! i = Some (THeader f resp data) →
    Write (frame_header data) (conn s) = (Err e, w) →
    step s (dropped f (set_conn w (set_task i TDone None s)))
| step_task_body s i f resp data w :
    tasks s !! i = Some (TBody f resp data) → Write data (conn s) = (Ok tt, w) →
    step s (done_with (f, resp, data) (set_conn w (set_task i TDone None s)))
| step_task_body_err s i f resp data e w :
    tasks s !! i = Some (TBody f resp data) → Write data (conn s) = (Err e, w) →
    step s (dropped f (set_conn w (set_task i TDone None s)))
(* The network: a working connection starts to fail after [n] more bytes. *)
| step_network s n e :
    fails (conn s) = None →
    step s (set_conn {| sent := sent (conn s); fails := Some (n, e) |} s).

(** A connection that was just accepted. *)
Definition accepted (r : reader) (w : W) : state :=
  {| input := r; main := MReading; tasks := []; writeMu := None;
     conn := {| sent := []; fails := None |}; world := w;
     received := []; answered := []; unanswered := [] |}.

Definition reachable (r : reader) (w : W) (s : state) : Prop := rtc step (accepted r w) s.

(** ** What the goroutines hold *)

(** The frame a goroutine still has to answer. *)
Definition main_frame (pc : main_pc) : option bytes :=
  match pc with
  | MReading | MClosed => None
  | MWant f _ | MLocked f _ | MHeader f _ _ | MBody f _ _ => Some f
  end.

Definition task_frame (pc : task_pc) : option bytes :=
  match pc with
  | TDone => None
  | TRun f _ _ | TMarshal f _ | TWant f _ _ | THeader f _ _ | TBody f _ _ => Some f
  end.

Definition pending (s : state) : list bytes :=
  option_list (main_frame (main s)) ++ omap task_frame (tasks s).

(** Whether a goroutine is between [Lock] and [Unlock]. *)
Definition main_holds (pc : main_pc) : bool :=
  match pc with MLocked _ _ | MHeader _ _ _ | MBody _ _ _ => true | _ => false end.
Definition task_holds (pc : task_pc) : bool :=
  match pc with THeader _ _ _ | TBody _ _ _ => true | _ => false end.

(** The message whose header a goroutine has just written. *)
Definition main_open (pc : main_pc) : option bytes :=
  match pc with MBody _ _ data => Some data | _ => None end.
Definition task_open (pc : task_pc) : option bytes :=
  match pc with TBody _ _ data => Some data | _ => None end.

(** The responses the protocol allows for a frame: an error with code 400 for
    what is no request, with code 404 for an unknown method, and otherwise what
    the handler of that method returned in some state of the services, its error
    with code 500, always under the request's id. *)
Inductive answers (f : bytes) : RpcResponse → Prop :=
| answers_bad e :
    (Unmarshal f : result string RpcRequest) = Err e →
    answers f {| resp_RequestId := ""; resp_Payload := [];
                 resp_Error := Some {| Code := 400; ErrMessage := "invalid request: " +:+ e |} |}
| answers_unknown req :
    Unmarshal f = Ok req → Router.Route router (req_Service req) (req_Method req) = None →
    answers f {| resp_RequestId := req_RequestId req; resp_Payload := [];
                 resp_Error := Some {| Code := 404; ErrMessage :=
                   "method not found: " +:+ req_Service req +:+ "." +:+ req_Method req |} |}
| answers_return req h w w' respBytes :
    Unmarshal f = Ok req → Router.Route router (req_Service req) (req_Method req) = Some h →
    h w (req_Payload req) = (w', Return respBytes) →
    answers f {| resp_RequestId := req_RequestId req; resp_Payload := respBytes;
                 resp_Error := None |}
| answers_fail req h w w' e :
    Unmarshal f = Ok req → Router.Route router (req_Service req) (req_Method req) = Some h →
    h w (req_Payload req) = (w', Fail e) →
    answers f {| resp_RequestId := req_RequestId req; resp_Payload := [];
                 resp_Error := Some {| Code := 500; ErrMessage := e |} |}.

(** ** Invariants *)

Definition main_ok (pc : main_pc) : Prop :=
  match pc with
  | MReading | MClosed => True
  | MWant f resp | MLocked f resp => answers f resp
  | MHeader f resp data | MBody f resp data => answers f resp ∧ Marshal resp = Ok data
  end.

Definition task_ok (pc : task_pc) : Prop :=
  match pc with
  | TDone => True
  | TRun f req h =>
    Unmarshal f = Ok req ∧ Router.Route router (req_Service req) (req_Method req) = Some h
  | TMarshal f resp => answers f resp
  | TWant f resp data | THeader f resp data | TBody f resp data =>
    answers f resp ∧ Marshal resp = Ok data
  end.

Definition answer_ok (a : answer) : Prop :=
  let '(f, resp, data) := a in answers f resp ∧ Marshal resp = Ok data.

(** Every goroutine is about to send a correct answer, and so were the answers. *)
Definition inv_content (s : state) : Prop :=
  main_ok (main s) ∧ Forall task_ok (tasks s) ∧ Forall answer_ok (answered s).

(** The mutex is held by exactly the goroutine between [Lock] and [Unlock]. *)
Definition holds_at (ts : list task_pc) (i : nat) : bool :=
  match ts !! i with Some t => task_holds t | None => false end.

Definition inv_mutex (s : state) : Prop :=
  main_holds (main s) = bool_decide (writeMu s = Some OMain) ∧
  ∀ i, holds_at (tasks s) i = bool_decide (writeMu s = Some (OTask i)).

Definition answer_frame (a : answer) : bytes := a.1.1.
Definition answer_data (a : answer) : bytes := a.2.

(** Every frame that was read is in exactly one place. *)
Definition inv_conserved (s : state) : Prop :=
  ∀ x, (cnt x (received s) =
        cnt x (answer_frame <$> answered s) + cnt x (unanswered s) + cnt x (pending s))%nat.

(** A connection on which every write of at least one byte fails. *)
Definition dead (w : writer) : Prop := ∃ e, fails w = Some (0%nat, e).

(** The message whose header the holder of the mutex has just written. *)
Definition open_message (s : state) : option bytes :=
  match writeMu s with
  | None => None
  | Some OMain => main_open (main s)
  | Some (OTask i) => tasks s !! i ≫= task_open
  end.

(** The serialised form of a correct answer to one of these frames. *)
Definition answer_to (fs : list bytes) (data : bytes) : Prop :=
  ∃ f resp, f ∈ fs ∧ answers f resp ∧ Marshal resp = Ok data.

(** What was written is the frames of the answers, followed by the header of the
    message being written, or by the part of a frame whose write failed: [torn] holds of
    the message in this frame. *)
Definition output_ok (torn : bytes → Prop) (done : list bytes) (open : option bytes) (w : writer) : Prop :=
  match open with
  | Some data => sent w = mjoin (frame <$> done) ++ frame_header data
  | None =>
    sent w = mjoin (frame <$> done) ∨
    dead w ∧ ∃ data n, torn data ∧ (n < length (frame data))%nat ∧
      sent w = mjoin (frame <$> done) ++ take n (frame data)
  end.

Definition inv_output (s : state) : Prop :=
  output_ok (answer_to (unanswered s)) (answer_data <$> answered s) (open_message s) (conn s).

Lemma handler_answers f req h w w' o resp :
  Unmarshal f = Ok req → Router.Route router (req_Service req) (req_Method req) = Some h →
  h w (req_Payload req) = (w', o) → handler_response req o = Some resp → answers f resp.
Proof. intros ? ? ? Ho. destruct o; simplify_eq/=; eauto using answers. Qed.

Lemma inv_content_step s s' : inv_content s → step s s' → inv_content s'.
Proof.
  intros (Hm & Ht & Ha) Hstep.
  assert (Htask : ∀ i pc, tasks s !! i = Some pc → task_ok pc).
  { intros i pc Hi. by eapply Forall_lookup_1 in Ht. }
  destruct Hstep; unfold inv_content; simpl;
    repeat match goal with
    | H : main s = _ |- _ => rewrite H in *
    | H : tasks s !! _ = Some _ |- _ => apply Htask in H; simpl in H
    end; simpl in *; destruct_and?; split_and!; try done;
    try (apply Forall_insert; [done|]);
    try (apply Forall_app; split; [done|]; constructor; [|constructor]);
    simpl; try split; try done; unfold bad_request, not_found, error_response;
    eauto using answers, handler_answers.
Qed.

Lemma holds_at_insert ts i t t' j :
  ts !! i = Some t →
  holds_at (<[i := t']> ts) j = if decide (i = j) then task_holds t' else holds_at ts j.
Proof.
  intros Hi. apply lookup_lt_Some in Hi. unfold holds_at.
  destruct (decide (i = j)) as [<-|]; [by rewrite list_lookup_insert_eq|].
  by rewrite list_lookup_insert_ne.
Qed.

Lemma holds_at_snoc ts t j : task_holds t = false → holds_at (ts ++ [t]) j = holds_at ts j.
Proof.
  intros Ht. unfold holds_at. rewrite lookup_app. destruct (ts !! j); [done|].
  by destruct (j - length ts)%nat as [|[|]].
Qed.

Lemma inv_mutex_step s s' : inv_mutex s → step s s' → inv_mutex s'.
Proof.
  intros [Hm Ht] Hstep.
  destruct Hstep; (split; [|intros j]); simpl; rewrite ?holds_at_snoc by done;
    try (erewrite holds_at_insert by done);
    repeat match goal with
    | H : main s = _ |- _ => rewrite ?H; rewrite H in Hm; clear H
    | H : tasks s !! ?i = Some _ |- _ =>
      let Hi := fresh "Hi" in pose proof (Ht i) as Hi; unfold holds_at in Hi; rewrite H in Hi; clear H
    end; try pose proof (Ht j) as Hj; simpl in *; rewrite ?Hj;
    repeat (case_decide || case_bool_decide); simplify_eq/=; congruence.
Qed.

Lemma inv_conserved_step s s' : inv_conserved s → step s s' → inv_conserved s'.
Proof.
  intros Hinv Hstep x. specialize (Hinv x). unfold pending in *.
  destruct Hstep; simpl in *;
    repeat match goal with
    | H : main s = _ |- _ => rewrite ?H; rewrite H in Hinv; clear H
    | H : tasks s !! ?i = Some _ |- context [<[?i := ?t']> _] =>
      pose proof (cnt_omap_insert task_frame _ _ _ t' x H); clear H
    end; rewrite ?omap_app, ?fmap_app, ?cnt_app in *; simpl in *;
    rewrite ?cnt_nil in *; unfold answer_frame in *; simpl in *;
    rewrite ?(cnt_cons x _ (omap task_frame _)) in *; lia.
Qed.

(** *** Output *)

Lemma Write_cases p w : ∀ r w', Write p w = (r, w') →
  (r = Ok tt ∧ sent w' = sent w ++ p ∧ (dead w → p = [])) ∨
  (∃ e n, r = Err e ∧ dead w' ∧ (n < length p)%nat ∧ sent w' = sent w ++ take n p ∧
     (dead w → n = 0%nat)).
Proof.
  intros r w'. unfold Write, dead. destruct (fails w) as [[n e]|].
  - destruct (Nat.leb_spec (length p) n); intros [= <- <-]; [left|right; exists e, n]; simpl;
      split_and!; eauto; intros [e' [= -> _]]; [|done].
    destruct p; [done|simpl in *; lia].
  - intros [= <- <-]. left. split_and!; [done..|]. by intros [].
Qed.

Lemma output_close torn done open w :
  output_ok torn done open w → output_ok torn done open (close_conn w).
Proof. unfold output_ok, dead. destruct open; [done|]. intros [?|[_ ?]]; simpl; eauto. Qed.

Lemma output_network torn done open w n e :
  fails w = None → output_ok torn done open w →
  output_ok torn done open {| sent := sent w; fails := Some (n, e) |}.
Proof.
  unfold output_ok, dead. intros Hf. destruct open; [done|]. intros [?|[[e' He] _]]; [eauto|].
  congruence.
Qed.

Lemma output_torn (torn torn' : bytes → Prop) done open w :
  (∀ data, torn data → torn' data) → output_ok torn done open w → output_ok torn' done open w.
Proof.
  unfold output_ok. intros Ht. destruct open; [done|]. intros [?|(? & data & n & ? & ?)]; [by left|].
  right. split; [done|]. exists data, n. auto.
Qed.

Lemma answer_to_more fs f data : answer_to fs data → answer_to (fs ++ [f]) data.
Proof. intros (g & resp & Hg & ?). exists g, resp. split; [apply elem_of_app; by left|done]. Qed.

Lemma answer_to_last fs f resp data : answers f resp ∧ Marshal resp = Ok data → answer_to (fs ++ [f]) data.
Proof. intros ?. exists f, resp. split; [apply elem_of_app; right; by left|done]. Qed.

(** A frame that is given up without having been started to be written. *)
Lemma output_drop fs f done open w :
  output_ok (answer_to fs) done open w → output_ok (answer_to (fs ++ [f])) done open w.
Proof. apply output_torn. intros data. apply answer_to_more. Qed.

Lemma output_header torn done data w w' :
  output_ok torn done None w → Write (frame_header data) w = (Ok tt, w') →
  output_ok torn done (Some data) w'.
Proof.
  intros Hout [(_ & Hs & Hd)|(e & n & ? & _)]%Write_cases; [|done].
  destruct Hout as [Ho|[Ho _]]; [|by apply Hd in Ho]. simpl. by rewrite Hs, Ho.
Qed.

Lemma output_header_err fs f resp done data w e w' :
  output_ok (answer_to fs) done None w → answers f resp ∧ Marshal resp = Ok data →
  Write (frame_header data) w = (Err e, w') → output_ok (answer_to (fs ++ [f])) done None w'.
Proof.
  intros Hout Ha [(? & _)|(e' & n & _ & Hdead & Hn & Hs & Hd)]%Write_cases; [done|].
  right. split; [done|]. destruct Hout as [Ho|[Ho (d & k & Ht & Hk & Ho')]].
  - exists data, n. split; [by eapply answer_to_last|].
    simpl in Hn. change (length (frame data)) with (4 + length data)%nat. split; [lia|].
    rewrite Hs, Ho. f_equal. unfold frame. rewrite take_app_le; [done|]. simpl. lia.
  - exists d, k. split; [by apply answer_to_more|]. split; [done|].
    by rewrite Hs, (Hd Ho), Ho', take_0, app_nil_r.
Qed.

Lemma output_body torn done data w w' :
  output_ok torn done (Some data) w → Write data w = (Ok tt, w') →
  output_ok torn (done ++ [data]) None w'.
Proof.
  intros Hout [(_ & Hs & _)|(e & n & ? & _)]%Write_cases; [|done]. left. simpl in Hout.
  rewrite Hs, Hout, fmap_app, join_app. simpl. unfold frame. by rewrite app_nil_r, <- app_assoc.
Qed.

Lemma output_body_err fs f resp done data w e w' :
  output_ok (answer_to fs) done (Some data) w → answers f resp ∧ Marshal resp = Ok data →
  Write data w = (Err e, w') → output_ok (answer_to (fs ++ [f])) done None w'.
Proof.
  intros Hout Ha [(? & _)|(e' & n & _ & Hdead & Hn & Hs & Hd)]%Write_cases; [done|].
  right. split; [done|]. exists data, (4 + n)%nat. split; [by eapply answer_to_last|].
  split; [change (length (frame data)) with (4 + length data)%nat; lia|].
  simpl in Hout. rewrite Hs, Hout, <- app_assoc. by f_equal.
Qed.

#[local] Arguments output_ok : simpl never.

Lemma open_message_other s i t t' :
  inv_mutex s → tasks s !! i = Some t → task_holds t = false →
  ∀ s', writeMu s' = writeMu s → main s' = main s → tasks s' = <[i := t']> (tasks s) →
  open_message s' = open_message s.
Proof.
  intros [_ Hm] Hi Ht s' Emu Em Et. unfold open_message. rewrite Emu, Em, Et.
  destruct (writeMu s) as [[|j]|] eqn:E; [done| |done].
  destruct (decide (i = j)) as [->|]; [|by rewrite list_lookup_insert_ne].
  specialize (Hm j). unfold holds_at in Hm. rewrite Hi, Ht in Hm.
  by rewrite bool_decide_true in Hm.
Qed.

Lemma holder_main s : inv_mutex s → main_holds (main s) = true → writeMu s = Some OMain.
Proof. intros [H _] E. rewrite E in H. symmetry in H. by apply bool_decide_eq_true in H. Qed.

Lemma holder_task s i t :
  inv_mutex s → tasks s !! i = Some t → task_holds t = true → writeMu s = Some (OTask i).
Proof.
  intros [_ H] Hi E. specialize (H i). unfold holds_at in H. rewrite Hi, E in H.
  symmetry in H. by apply bool_decide_eq_true in H.
Qed.

Lemma open_message_main s s' :
  writeMu s' = writeMu s → tasks s' = tasks s → main_open (main s') = main_open (main s) →
  open_message s' = open_message s.
Proof. intros E1 E2 E3. unfold open_message. by rewrite E1, E2, E3. Qed.

Lemma open_message_spawn s s' t :
  writeMu s' = writeMu s → main s' = main s → tasks s' = tasks s ++ [t] → task_open t = None →
  open_message s' = open_message s.
Proof.
  intros E1 E2 E3 Ht. unfold open_message. rewrite E1, E2, E3.
  destruct (writeMu s) as [[|i]|]; [done| |done]. rewrite lookup_app.
  destruct (tasks s !! i) as [|] eqn:E; [done|].
  by destruct (i - length (tasks s))%nat as [|[|]].
Qed.

Lemma open_message_holder s i t : tasks s !! i = Some t → writeMu s = Some (OTask i) →
  open_message s = task_open t.
Proof. intros E1 E2. unfold open_message. by rewrite E2, E1. Qed.

Lemma inv_output_step s s' : inv_content s → inv_mutex s → inv_output s → step s s' → inv_output s'.
Proof.
  intros (Hmain & Htasks & _) Hmu Hout Hstep. unfold inv_output in *.
  assert (Htask : ∀ i pc, tasks s !! i = Some pc → task_ok pc).
  { intros i pc Hi. by eapply Forall_lookup_1 in Htasks. }
  destruct Hstep as
    [s ? ? Hm|s ? ? ? Hm|s ? ? ? Hm|s ? ? ? ? Hm|s ? ? Hm Hmu0|s ? ? ? Hm|s ? ? ? Hm|s ? ? ? ? Hm Hw
    |s ? ? ? ? ? Hm Hw|s ? ? ? ? Hm Hw|s ? ? ? ? ? Hm Hw|s i f req h ? ? ? Hi|s i ? ? ? ? ? Hi
    |s i ? ? ? Hi|s i ? ? ? Hi|s i ? ? ? Hi Hmu0|s i ? ? ? ? Hi Hw|s i ? ? ? ? ? Hi Hw
    |s i ? ? ? ? Hi Hw|s i ? ? ? ? ? Hi Hw|s ? ? Hf];
    try (pose proof (Htask _ _ Hi) as Hpc); try rewrite Hm in Hmain;
    try (pose proof (holder_main s Hmu ltac:(by rewrite Hm)) as Hh;
         unfold open_message in *; rewrite Hh, Hm in Hout);
    try (pose proof (holder_task s i _ Hmu Hi eq_refl) as Hh;
         rewrite (open_message_holder s i _ Hi Hh) in Hout);
    try (apply lookup_lt_Some in Hi as Hlt);
    try (erewrite (open_message_main s) by (simpl; by rewrite ?Hm));
    try (erewrite (open_message_other s) by done);
    try (erewrite (open_message_spawn s) by done);
    unfold open_message in *; simpl in *; rewrite ?Hh, ?Hmu0, ?Hm in *; simpl in *;
    rewrite ?list_lookup_insert_eq in * by done; simpl in *; rewrite ?fmap_app;
    eauto using output_close, output_network, output_drop, output_header, output_header_err,
      output_body, output_body_err.
Qed.

(** *** Input *)

(** What was read and what is still to be read is the peer's sequence of frames. *)
Definition inv_input (r : reader) (s : state) : Prop :=
  received s ++ (read_all (input s)).1 = (read_all r).1 ∧
  (main s = MClosed → (read_all (input s)).1 = []).

Lemma inv_input_step r s s' : inv_input r s → step s s' → inv_input r s'.
Proof.
  unfold inv_input. intros [Hr Hc] Hstep.
  destruct Hstep; simpl; (split; [|try done]); try done;
    try (rewrite <- app_assoc; simpl; by erewrite <- read_all_Ok).
  all: try congruence. intros _. by erewrite read_all_Err.
Qed.

(** The frames that get no answer although the connection works: the handler
    panicked, or the response has no serialised form. *)
Inductive lost (f : bytes) : Prop :=
| lost_panic req h w w' p :
    Unmarshal f = Ok req → Router.Route router (req_Service req) (req_Method req) = Some h →
    h w (req_Payload req) = (w', Panic p) → lost f
| lost_marshal resp e : answers f resp → Marshal resp = Err e → lost f.

Definition inv_lost (s : state) : Prop :=
  fails (conn s) = None → Forall lost (unanswered s).

Lemma Write_fails p w r w' :
  Write p w = (r, w') → fails w' = None → r = Ok tt ∧ fails w = None.
Proof. unfold Write. destruct (fails w) as [[n e]|]; [case_match|]; by intros [= <- <-]. Qed.

Lemma inv_lost_step s s' : inv_content s → inv_lost s → step s s' → inv_lost s'.
Proof.
  intros (Hm & Ht & _) Hl Hstep Hf.
  assert (Htask : ∀ i pc, tasks s !! i = Some pc → task_ok pc).
  { intros i pc Hi. by eapply Forall_lookup_1 in Ht. }
  destruct Hstep; simpl in *;
    repeat match goal with
    | H : main s = _ |- _ => rewrite H in *
    | H : tasks s !! _ = Some _ |- _ => apply Htask in H; simpl in H
    | H : Write _ _ = _ |- _ => apply Write_fails in H as [? ?]; [|done]
    end; simpl in *; destruct_and?; try done; try (by apply Hl);
    (apply Forall_app; split; [by apply Hl|]; constructor; [|constructor]);
    eauto using lost.
Qed.

(** All invariants together *)

Record inv (r : reader) (s : state) : Prop := {
  inv_content_of : inv_content s;
  inv_mutex_of : inv_mutex s;
  inv_conserved_of : inv_conserved s;
  inv_output_of : inv_output s;
  inv_input_of : inv_input r s;
  inv_lost_of : inv_lost s;
}.

Lemma inv_step r s s' : inv r s → step s s' → inv r s'.
Proof.
  intros [] ?. constructor; eauto using inv_content_step, inv_mutex_step, inv_conserved_step,
    inv_output_step, inv_input_step, inv_lost_step.
Qed.

Lemma inv_accepted r w : inv r (accepted r w).
Proof. constructor; [by repeat constructor|done|done|by left|done|by constructor]. Qed.

Lemma reachable_inv r w s : reachable r w s → inv r s.
Proof.
  unfold reachable. intros H. pose proof (inv_accepted r w) as Hi. revert Hi.
  induction H; eauto using inv_step.
Qed.

(** *** Termination and progress *)

Definition main_weight (pc : main_pc) : nat :=
  match pc with
  | MClosed => 0 | MReading => 1 | MBody _ _ _ => 2 | MHeader _ _ _ => 3
  | MLocked _ _ => 4 | MWant _ _ => 5
  end.
Definition task_weight (pc : task_pc) : nat :=
  match pc with
  | TDone => 0 | TBody _ _ _ => 1 | THeader _ _ _ => 2 | TWant _ _ _ => 3
  | TMarshal _ _ => 4 | TRun _ _ _ => 5
  end.
Definition tasks_weight (ts : list task_pc) : nat := sum_list_with task_weight ts.

(** An upper bound on the number of steps that are left. *)
Definition measure (s : state) : nat :=
  2 * length (stream (input s)) + main_weight (main s) + tasks_weight (tasks s)
  + match fails (conn s) with None => 1 | Some _ => 0 end.

Lemma tasks_weight_insert ts i t t' :
  ts !! i = Some t →
  (tasks_weight (<[i := t']> ts) + task_weight t = tasks_weight ts + task_weight t')%nat.
Proof. apply sum_list_with_insert. Qed.

Lemma Write_fails_some p w r w' :
  Write p w = (r, w') → fails w' = None ∧ fails w = None ∨ is_Some (fails w') ∧ is_Some (fails w).
Proof. unfold Write. destruct (fails w) as [[n e]|]; [case_match|]; intros [= <- <-]; eauto. Qed.

Lemma measure_step s s' : step s s' → (measure s' < measure s)%nat.
Proof.
  intros Hstep. unfold measure. destruct Hstep; simpl;
    repeat match goal with
    | H : main s = _ |- _ => rewrite ?H; clear H
    | H : ReadFrame _ = (Ok _, _) |- _ => apply ReadFrame_shorter in H
    | H : tasks s !! ?i = Some _ |- context [<[?i := ?t']> _] =>
      pose proof (tasks_weight_insert _ _ _ t' H); clear H
    | H : Write _ _ = _ |- _ => apply Write_fails_some in H as [[Ha Hb]|[[? Ha] [? Hb]]]; rewrite Ha, Hb
    | H : fails _ = _ |- _ => rewrite H
    end; unfold tasks_weight in *; rewrite ?sum_list_with_app; simpl in *;
    try (destruct (fails (conn s))); lia.
Qed.

(** The handler of a request goroutine does not return. *)
Definition diverging (s : state) (t : task_pc) : Prop :=
  match t with
  | TRun _ req h => ∃ w', h (world s) (req_Payload req) = (w', Diverge)
  | _ => False
  end.

Definition finished (s : state) : Prop :=
  main s = MClosed ∧ Forall (λ t, t = TDone ∨ diverging s t) (tasks s).

(** A goroutine that holds the mutex can take its next step. *)
Lemma holder_steps s : inv_mutex s → is_Some (writeMu s) → ∃ s', step s s'.
Proof.
  intros [Hm Ht] [[|i] Emu]; [|specialize (Ht i); unfold holds_at in Ht];
    rewrite Emu in *; rewrite bool_decide_true in * by done.
  - destruct (main s) as [| |f resp|f resp data|f resp data|] eqn:E; try done.
    + destruct (Marshal resp) eqn:?; eauto using step.
    + destruct (Write (frame_header data) (conn s)) as [[[]|] ?] eqn:?; eauto using step.
    + destruct (Write data (conn s)) as [[[]|] ?] eqn:?; eauto using step.
  - destruct (tasks s !! i) as [[| | |f resp data|f resp data|]|] eqn:E; try done.
    + destruct (Write (frame_header data) (conn s)) as [[[]|] ?] eqn:?; eauto using step.
    + destruct (Write data (conn s)) as [[[]|] ?] eqn:?; eauto using step.
Qed.

Lemma task_steps s i t :
  inv_mutex s → tasks s !! i = Some t → (∃ s', step s s') ∨ t = TDone ∨ diverging s t.
Proof.
  intros Hmu Hi. destruct (writeMu s) eqn:Emu; [left; apply holder_steps; eauto|].
  destruct t as [f req h|f resp|f resp data|f resp data|f resp data|].
  - destruct (h (world s) (req_Payload req)) as [w [b|e|p|]] eqn:E;
      [left; eexists; by eapply step_handler..|left; eauto using step|simpl; eauto].
  - destruct (Marshal resp) eqn:?; eauto using step.
  - eauto using step.
  - left. destruct (Write (frame_header data) (conn s)) as [[[]|] ?] eqn:?; eauto using step.
  - left. destruct (Write data (conn s)) as [[[]|] ?] eqn:?; eauto using step.
  - auto.
Qed.

Lemma progress s : inv_mutex s → (∃ s', step s s') ∨ finished s.
Proof.
  intros Hmu. destruct (writeMu s) eqn:Emu; [left; apply holder_steps; eauto|].
  assert (Hts : (∃ s', step s s') ∨ Forall (λ t, t = TDone ∨ diverging s t) (tasks s)).
  { apply Forall_or_lookup. eauto using task_steps. }
  destruct Hts as [?|Hts]; [by left|].
  destruct (main s) as [|f resp|f resp|f resp data|f resp data|] eqn:E.
  - left. destruct (ReadFrame (input s)) as [[f|e] r] eqn:Er;
      [|eexists; by eapply step_read_err].
    destruct (Unmarshal f : result string RpcRequest) as [req|e] eqn:Eu; [|eexists; by eapply step_read_bad].
    destruct (Router.Route router (req_Service req) (req_Method req)) eqn:?; eexists;
      [by eapply step_read_request|by eapply step_read_unknown].
  - left. eauto using step.
  - destruct Hmu as [Hm _]. rewrite E, Emu in Hm. done.
  - destruct Hmu as [Hm _]. rewrite E, Emu in Hm. done.
  - destruct Hmu as [Hm _]. rewrite E, Emu in Hm. done.
  - by right.
Qed.

Lemma runs_to_finish s : inv_mutex s → ∃ s', rtc step s s' ∧ finished s'.
Proof.
  remember (measure s) as n eqn:Hn. revert s Hn.
  induction (lt_wf n) as [n _ IH]. intros s -> Hmu.
  destruct (progress s Hmu) as [[s1 Hs]|Hf]; [|by exists s].
  destruct (IH (measure s1) (measure_step _ _ Hs) s1 eq_refl (inv_mutex_step _ _ Hmu Hs))
    as (s' & ? & ?).
  exists s'. split; [by eapply rtc_l|done].
Qed.

(** ** The step relation as a function of the scheduler's choice *)

Inductive choice : Type := CMain | CTask (i : nat) | CNetwork (n : nat) (e : io_error).

Definition exec_main (s : state) : option state :=
  match main s with
  | MReading =>
    match ReadFrame (input s) with
    | (Err _, _) => Some (set_conn (close_conn (conn s)) (set_main MClosed (writeMu s) s))
    | (Ok f, r) =>
      match (Unmarshal f : result string RpcRequest) with
      | Err e => Some (set_main (MWant f (bad_request e)) (writeMu s) (got_frame f r s))
      | Ok req =>
        match Router.Route router (req_Service req) (req_Method req) with
        | None => Some (set_main (MWant f (not_found req)) (writeMu s) (got_frame f r s))
        | Some h => Some (spawn (TRun f req h) (got_frame f r s))
        end
      end
    end
  | MWant f resp =>
    match writeMu s with None => Some (set_main (MLocked f resp) (Some OMain) s) | Some _ => None end
  | MLocked f resp =>
    match Marshal resp with
    | Err _ => Some (dropped f (set_main MReading None s))
    | Ok data => Some (set_main (MHeader f resp data) (writeMu s) s)
    end
  | MHeader f resp data =>
    match Write (frame_header data) (conn s) with
    | (Ok _, w) => Some (set_conn w (set_main (MBody f resp data) (writeMu s) s))
    | (Err _, w) => Some (dropped f (set_conn w (set_main MReading None s)))
    end
  | MBody f resp data =>
    match Write data (conn s) with
    | (Ok _, w) => Some (done_with (f, resp, data) (set_conn w (set_main MReading None s)))
    | (Err _, w) => Some (dropped f (set_conn w (set_main MReading None s)))
    end
  | MClosed => None
  end.

Definition exec_task (i : nat) (s : state) : option state :=
  match tasks s !! i with
  | None | Some TDone => None
  | Some (TRun f req h) =>
    match h (world s) (req_Payload req) with
    | (w, Panic _) => Some (dropped f (set_task i TDone (writeMu s) (set_world w s)))
    | (w, o) =>
      (λ resp, set_task i (TMarshal f resp) (writeMu s) (set_world w s)) <$> handler_response req o
    end
  | Some (TMarshal f resp) =>
    match Marshal resp with
    | Err _ => Some (dropped f (set_task i TDone (writeMu s) s))
    | Ok data => Some (set_task i (TWant f resp data) (writeMu s) s)
    end
  | Some (TWant f resp data) =>
    match writeMu s with
    | None => Some (set_task i (THeader f resp data) (Some (OTask i)) s)
    | Some _ => None
    end
  | Some (THeader f resp data) =>
    match Write (frame_header data) (conn s) with
    | (Ok _, w) => Some (set_conn w (set_task i (TBody f resp data) (writeMu s) s))
    | (Err _, w) => Some (dropped f (set_conn w (set_task i TDone None s)))
    end
  | Some (TBody f resp data) =>
    match Write data (conn s) with
    | (Ok _, w) => Some (done_with (f, resp, data) (set_conn w (set_task i TDone None s)))
    | (Err _, w) => Some (dropped f (set_conn w (set_task i TDone None s)))
    end
  end.

Definition exec (c : choice) (s : state) : option state :=
  match c with
  | CMain => exec_main s
  | CTask i => exec_task i s
  | CNetwork n e =>
    match fails (conn s) with
    | None => Some (set_conn {| sent := sent (conn s); fails := Some (n, e) |} s)
    | Some _ => None
    end
  end.

Definition exec_all (cs : list choice) (s : state) : option state :=
  foldl (λ o c, o ≫= exec c) (Some s) cs.

Lemma exec_sound c s s' : exec c s = Some s' → step s s'.
Proof.
  destruct c as [|i|n e]; simpl; unfold exec_main, exec_task; intros;
    repeat (case_match; simplify_eq/=);
    match goal with u : unit |- _ => destruct u | _ => idtac end; 
    eauto using step.
Qed.

Lemma exec_all_sound cs s s' : exec_all cs s = Some s' → rtc step s s'.
Proof.
  unfold exec_all. revert s. induction cs as [|c cs IH]; intros s; simpl; [by intros [= ->]|].
  destruct (exec c s) as [s1|] eqn:E; [|].
  - intros H. eapply rtc_l; [by eapply exec_sound|by apply IH].
  - intros H. exfalso. revert H. clear. by induction cs.
Qed.

(** ** Properties *)

(** What follows the complete frames in the bytes sent: nothing; the header of an answer
    to a frame in work, whose goroutine holds the mutex; or, once a write has failed and
    with it every later one, a proper part of the frame of an answer to a frame that was
    given up. *)
Inductive tail_ok (s : state) : bytes → Prop :=
| tail_none : tail_ok s []
| tail_open data :
    is_Some (writeMu s) → answer_to (pending s) data → tail_ok s (frame_header data)
| tail_torn data n :
    dead (conn s) → answer_to (unanswered s) data → (n < length (frame data))%nat →
    tail_ok s (take n (frame data)).

Lemma open_answer s data :
  inv_content s → open_message s = Some data → is_Some (writeMu s) ∧ answer_to (pending s) data.
Proof.
  intros (Hm & Ht & _). unfold open_message, pending. destruct (writeMu s) as [[|i]|]; [| |done].
  - destruct (main s) as [| | | |f resp d|]; simpl; try done. intros [= ->]. split; [done|].
    exists f, resp. split; [by left|done].
  - destruct (tasks s !! i) as [[| | | |f resp d|]|] eqn:Hi; simpl; try done. intros [= ->].
    split; [done|]. eapply Forall_lookup_1 in Ht; [|exact Hi]. exists f, resp. split; [|done].
    apply elem_of_app. right. apply list_elem_of_omap.
    exists (TBody f resp data). split; [by eapply list_elem_of_lookup_2|done].
Qed.

Lemma inv_framed (r : reader) (s : state) :
  inv r s →
  (∃ tail, sent (conn s) = mjoin (frame <$> (answer_data <$> answered s)) ++ tail ∧ tail_ok s tail) ∧
  (writeMu s = None → fails (conn s) = None → Forall fits (answer_data <$> answered s) →
   ∀ cs e, mjoin cs = sent (conn s) →
   read_all (Reader cs e) = (answer_data <$> answered s, Some (CodecIo e))).
Proof.
  intros Hr. pose proof (inv_output_of _ _ Hr) as Ho.
  unfold inv_output, output_ok in Ho. split.
  - destruct (open_message s) as [data|] eqn:Eo.
    { eexists. split; [exact Ho|]. destruct (open_answer s data (inv_content_of _ _ Hr) Eo).
      by apply tail_open. }
    destruct Ho as [Ho|[Hd (data & n & Ht & Hn & Ho)]].
    + exists []. split; [by rewrite app_nil_r|constructor].
    + eexists. split; [exact Ho|by apply tail_torn].
  - intros Emu Hf Hfit cs e Hcs. unfold open_message in Ho. rewrite Emu in Ho.
    destruct Ho as [Ho|[[e' He] _]]; [|congruence].
    apply (read_loop_frames _ _ (Reader cs e)); [done| |unfold stream; simpl; congruence].
    unfold stream. simpl. rewrite Hcs, Ho.
    pose proof (length_frames (answer_data <$> answered s)). lia.
Qed.

(** C5: whatever the interleaving of the reading goroutine, the request goroutines
    and failures of the network, the bytes sent on a connection are the complete
    frames of the answers, in the order in which they were finished, followed by
    at most a part of one more frame: frames are never interleaved.  The part is the
    header of a correct answer to a frame in work, written by the holder of the mutex, or,
    when a write has failed so that nothing more will be sent, a proper prefix of the
    frame of a correct answer to a frame that was given up.  While no goroutine is
    writing and no write has failed there is no such part, so that the peer reads exactly
    these answers, however the bytes are chunked. *)
Theorem responses_framed (r : reader) (w : W) (s : state) :
  reachable r w s →
  (∃ tail, sent (conn s) = mjoin (frame <$> (answer_data <$> answered s)) ++ tail ∧ tail_ok s tail) ∧
  (writeMu s = None → fails (conn s) = None → Forall fits (answer_data <$> answered s) →
   ∀ cs e, mjoin cs = sent (conn s) →
   read_all (Reader cs e) = (answer_data <$> answered s, Some (CodecIo e))).
Proof. intros Hr%reachable_inv. by apply (inv_framed r). Qed.

Lemma inv_accounted (r : reader) (s : state) :
  inv r s →
  received s ++ (read_all (input s)).1 = (read_all r).1 ∧
  received s ≡ₚ (answer_frame <$> answered s) ++ unanswered s ++ pending s ∧
  Forall (λ '(f, resp, data), answers f resp ∧ Unmarshal data = Ok resp) (answered s) ∧
  (fails (conn s) = None → Forall lost (unanswered s)).
Proof.
  intros Hr. split_and!.
  - apply (inv_input_of _ _ Hr).
  - apply Permutation_cnt. intros x. rewrite !cnt_app, (inv_conserved_of _ _ Hr x). lia.
  - destruct (inv_content_of _ _ Hr) as (_ & _ & Ha). eapply Forall_impl; [exact Ha|].
    intros [[f resp] data] [? ?]. split; [done|]. by apply Unmarshal_Marshal.
  - apply (inv_lost_of _ _ Hr).
Qed.

(** C6: every frame the server reads is accounted for exactly once.  The frames
    read so far, in order, are the beginning of what the peer sent; as a
    multiset they are the frames answered, the frames given up and the
    frames still being worked on; every answer is a correct one for its frame
    and decodes to that response; and on a connection that has neither been closed
    nor failed, a frame is given up only if its handler panicked or its response
    cannot be serialised. *)
Theorem requests_accounted (r : reader) (w : W) (s : state) :
  reachable r w s →
  received s ++ (read_all (input s)).1 = (read_all r).1 ∧
  received s ≡ₚ (answer_frame <$> answered s) ++ unanswered s ++ pending s ∧
  Forall (λ '(f, resp, data), answers f resp ∧ Unmarshal data = Ok resp) (answered s) ∧
  (fails (conn s) = None → Forall lost (unanswered s)).
Proof. intros Hr%reachable_inv. by apply inv_accounted. Qed.

(** C7: a connection never deadlocks and never runs forever.  Every step
    decreases [measure]; from every reachable state some schedule leads to a
    state in which the reading goroutine has returned after reading all of the
    peer's frames and every request goroutine has returned or is inside a
    handler that does not return; and a state without a step is such a state. *)
Theorem connection_finishes (r : reader) (w : W) (s : state) :
  reachable r w s →
  (∀ s', step s s' → (measure s' < measure s)%nat) ∧
  (∃ s', rtc step s s' ∧ finished s' ∧ received s' = (read_all r).1) ∧
  ((∀ s', ¬ step s s') → finished s ∧ received s = (read_all r).1).
Proof.
  intros Hr. pose proof (reachable_inv _ _ _ Hr) as Hinv.
  assert (Hread : ∀ s, reachable r w s → finished s → received s = (read_all r).1).
  { intros s1 Hr1%reachable_inv [Hc _]. destruct (inv_input_of _ _ Hr1) as [<- Hnil].
    by rewrite Hnil, app_nil_r. }
  split_and!; [eauto using measure_step| |].
  - destruct (runs_to_finish s (inv_mutex_of _ _ Hinv)) as (s' & Hs & Hf).
    exists s'. split_and!; [done..|]. apply Hread; [|done]. unfold reachable in *. by transitivity s.
  - intros Hstuck. destruct (progress s (inv_mutex_of _ _ Hinv)) as [[s' ?]|Hf]; [naive_solver|].
    auto.
Qed.
End server.

(** ** A connection with two requests *)

Section demo.
Import Wire.

Definition demo_router : Router.Router (HandlerFunc unit) :=
  Router.Register Router.New "Echo" "echo" (λ w p, (w, Return p)).

Definition demo_frame (id method : string) : bytes :=
  match Marshal {| req_RequestId := id; req_Service := "Echo"; req_Method := method;
                   req_Payload := str_bytes "hi" |} with
  | Ok b => b
  | Err _ => []
  end.

Definition demo_input : reader :=
  Reader [mjoin (frame <$> [demo_frame "1" "echo"; demo_frame "2" "nope"])] EOF.

(** The second request is answered while the first one is in its handler. *)
Definition demo_schedule : list choice :=
  [CMain; CMain; CTask 0; CMain; CTask 0; CMain; CMain; CMain; CTask 0; CTask 0; CTask 0].

Definition demo_state : state :=
  match exec_all demo_router demo_schedule (accepted demo_input tt) with
  | Some s => s
  | None => accepted demo_input tt
  end.

Lemma demo_reachable : reachable demo_router demo_input tt demo_state.
Proof. apply (exec_all_sound _ demo_schedule). vm_compute. reflexivity. Qed.

Lemma responses_framed_witness :
  read_all (Reader [sent (conn demo_state)] EOF)
  = (answer_data <$> answered demo_state, Some (CodecIo EOF)) ∧ length (answered demo_state) = 2%nat.
Proof.
  split; [|vm_compute; reflexivity].
  apply (responses_framed demo_router demo_input tt demo_state demo_reachable).
  - vm_compute. reflexivity.
  - vm_compute. reflexivity.
  - repeat constructor; vm_compute; discriminate.
  - apply app_nil_r.
Defined.

Lemma requests_accounted_witness :
  received demo_state ≡ₚ [demo_frame "2" "nope"; demo_frame "1" "echo"] ++ [] ++ [].
Proof.
  destruct (requests_accounted demo_router demo_input tt demo_state demo_reachable)
    as (_ & H & _). vm_compute in H |- *. exact H.
Defined.

Lemma connection_finishes_witness :
  ∃ s', rtc (step demo_router) demo_state s' ∧ finished s' ∧
        received s' = [demo_frame "1" "echo"; demo_frame "2" "nope"].
Proof.
  exact (proj1 (proj2 (connection_finishes demo_router demo_input tt demo_state demo_reachable))).
Defined.
End demo.
End Server.
