(* ===== verification/RegistryClient.v ===== *)
(** * The registry client: [src/server/internal/registry/client.go]

    The client keeps one connection to the registry: it registers, sends
    heartbeats, reads the registry's responses in a goroutine of its own, and
    reconnects with a growing delay when the connection is lost.

    First part: the methods that one goroutine executes on the client and the
    network ([Register] in its three stages, [writeFrame], [readFrame],
    [closeConn], [Deregister], one heartbeat, one response).  Connections are
    values of a store, and the client refers to its connection by its position,
    so that a connection that is replaced is still there.  The outcome of the
    [n]-th call of [DialContext] is given by the function [dial].

    Second part: [Run], the reading goroutine and [Stop] as a step relation over
    these methods, with every interleaving; [own] are the steps that wait neither for the
    registry nor for anybody else. *)

From S2P Require Import Prelude Codec Pb Wire Config.

Module RegistryClient.
Import Io Codec Reg.

(** ** State *)

Record connection : Type := { rd : reader; wr : writer; closed : bool }.

Record Client : Type := {
  registryAddr : string;
  selfPort : Z;
  serviceName : string;
  heartbeatInterval : Z;
  heartbeatMaxFail : Z;
  reconnectBackoff : Z;
  reconnectMaxBackoff : Z;
  conn : option nat;
  stopCh : bool;      (* closed *)
  stopOnce : bool;    (* done *)
}.

Definition NewClient (registryAddr : string) (selfPort : Z) (serviceName : string)
    (heartbeatInterval heartbeatMaxFail reconnectBackoff reconnectMaxBackoff : Z) : Client :=
  {| registryAddr := registryAddr; selfPort := selfPort; serviceName := serviceName;
     heartbeatInterval := heartbeatInterval; heartbeatMaxFail := heartbeatMaxFail;
     reconnectBackoff := reconnectBackoff; reconnectMaxBackoff := reconnectMaxBackoff;
     conn := None; stopCh := false; stopOnce := false |}.

Definition set_conn (o : option nat) (c : Client) : Client :=
  {| registryAddr := registryAddr c; selfPort := selfPort c; serviceName := serviceName c;
     heartbeatInterval := heartbeatInterval c; heartbeatMaxFail := heartbeatMaxFail c;
     reconnectBackoff := reconnectBackoff c; reconnectMaxBackoff := reconnectMaxBackoff c;
     conn := o; stopCh := stopCh c; stopOnce := stopOnce c |}.

Definition set_stopped (c : Client) : Client :=
  {| registryAddr := registryAddr c; selfPort := selfPort c; serviceName := serviceName c;
     heartbeatInterval := heartbeatInterval c; heartbeatMaxFail := heartbeatMaxFail c;
     reconnectBackoff := reconnectBackoff c; reconnectMaxBackoff := reconnectMaxBackoff c;
     conn := conn c; stopCh := true; stopOnce := true |}.

(** The client with the connections it ever had and the number of dials. *)
Record world : Type := { client : Client; conns : list connection; dialed : nat }.

Definition on_client (f : Client → Client) (s : world) : world :=
  {| client := f (client s); conns := conns s; dialed := dialed s |}.
Definition on_conns (f : list connection → list connection) (s : world) : world :=
  {| client := client s; conns := f (conns s); dialed := dialed s |}.

(** ** Errors *)

Inductive io_failure : Type :=
| NotConnected              (* "not connected" *)
| WriteFailed (e : io_error)
| ReadFailed (e : codec_error).

(** The errors of [Register], by the text that is wrapped around the cause. *)
Inductive register_error : Type :=
| ConnectToRegistry (e : string)
| MarshalRegister (e : string)
| WriteRegister (e : io_failure)
| ReadRegisterResponse (e : io_failure)
| UnmarshalRegisterResponse (e : string)
| RegistrationFailed (msg : string).

(** ** The connection *)

(** A connection that [DialContext] returned: what it will read, and when its
    writes are going to fail. *)
Definition opened (d : reader * option (nat * io_error)) : connection :=
  {| rd := d.1; wr := Writer [] d.2; closed := false |}.

(** [conn.Close]: later reads and writes fail. *)
Definition Close (c : connection) : connection :=
  {| rd := Reader [] (IoErr "use of closed network connection");
     wr := Writer (sent (wr c)) (Some (0%nat, IoErr "use of closed network connection"));
     closed := true |}.

Definition closeConn (s : world) : world :=
  match conn (client s) with
  | Some i => on_client (set_conn None) (on_conns (alter Close i) s)
  | None => s
  end.

Definition writeFrame (data : bytes) (s : world) : result io_failure unit * world :=
  match conn (client s) ≫= λ i, (λ c, (i, c)) <$> conns s !! i with
  | None => (Err NotConnected, s)
  | Some (i, c) =>
    let '(r, w) := WriteFrame data (wr c) in
    (map_err WriteFailed r,
     on_conns (<[i := {| rd := rd c; wr := w; closed := closed c |}]>) s)
  end.

(** What a read returns: the bytes the registry sends, or an error.  It may have to wait
    for them; which steps can wait is [waits] below. *)
Definition readFrame (s : world) : result io_failure bytes * world :=
  match conn (client s) ≫= λ i, (λ c, (i, c)) <$> conns s !! i with
  | None => (Err NotConnected, s)
  | Some (i, c) =>
    let '(r, rd') := ReadFrame (rd c) in
    (map_err ReadFailed r,
     on_conns (<[i := {| rd := rd'; wr := wr c; closed := closed c |}]>) s)
  end.

Definition Deregister (s : world) : world :=
  closeConn (if stopOnce (client s) then s else on_client set_stopped s).

Definition Stop (s : world) : world := Deregister s.

Section client.
Context `{!Message RegistryMessage}.
Context (dial : nat → result string (reader * option (nat * io_error))).

(** ** [Register] *)

Definition register_msg (c : Client) : RegistryMessage :=
  {| payload := Some (PRegister {| rr_Port := wrap_i32 (selfPort c); rr_Service := serviceName c |}) |}.

(** [DialContext], then the new connection is stored in the client. *)
Definition register_dial (s : world) : result register_error unit * world :=
  match dial (dialed s) with
  | Err e =>
    (Err (ConnectToRegistry e),
     {| client := client s; conns := conns s; dialed := S (dialed s) |})
  | Ok d =>
    (Ok tt,
     {| client := set_conn (Some (length (conns s))) (client s); conns := conns s ++ [opened d];
        dialed := S (dialed s) |})
  end.

Definition register_send (s : world) : result register_error unit * world :=
  match Marshal (register_msg (client s)) with
  | Err e => (Err (MarshalRegister e), closeConn s)
  | Ok data =>
    match writeFrame data s with
    | (Err e, s) => (Err (WriteRegister e), closeConn s)
    | (Ok _, s) => (Ok tt, s)
    end
  end.

Definition check_response (resp : RegistryMessage) : result register_error unit :=
  match payload resp with
  | Some (PResponse r) =>
    if Success r then Ok tt else Err (RegistrationFailed (RespMessage r))
  | _ => Err (RegistrationFailed "unknown error")
  end.

Definition register_recv (s : world) : result register_error unit * world :=
  match readFrame s with
  | (Err e, s) => (Err (ReadRegisterResponse e), closeConn s)
  | (Ok respData, s) =>
    match Unmarshal respData with
    | Err e => (Err (UnmarshalRegisterResponse e), closeConn s)
    | Ok resp =>
      match check_response resp with
      | Err e => (Err e, closeConn s)
      | Ok _ => (Ok tt, s)
      end
    end
  end.

Definition Register (s : world) : result register_error unit * world :=
  match register_dial s with
  | (Err e, s) => (Err e, s)
  | (Ok _, s) =>
    match register_send s with
    | (Err e, s) => (Err e, s)
    | (Ok _, s) => register_recv s
    end
  end.

(** ** One round of the two loops *)

Definition heartbeat_msg (c : Client) : RegistryMessage :=
  {| payload := Some (PHeartbeat {| hb_Port := wrap_i32 (selfPort c) |}) |}.

(** The [ticker.C] case of [heartbeatLoop]: the new failure count, or the loop
    returns ([None]). *)
Definition heartbeat (failCount : Z) (s : world) : option Z * world :=
  match Marshal (heartbeat_msg (client s)) with
  | Err _ => (Some failCount, s)
  | Ok data =>
    match writeFrame data s with
    | (Err _, s) =>
      let failCount := wrap_i64 (failCount + 1) in
      ((if heartbeatMaxFail (client s) <=? failCount then None else Some failCount), s)
    | (Ok _, s) => (Some 0, s)
    end
  end.

(** The body of [readLoop] after its [select]: whether the loop goes on. *)
Definition read_response (s : world) : bool * world :=
  match readFrame s with
  | (Err _, s) => (false, s)
  | (Ok data, s) =>
    match Unmarshal data with
    | Err _ => (true, s)
    | Ok resp =>
      match payload resp with
      | Some (PResponse r) => if Success r then (true, s) else (false, closeConn s)
      | _ => (true, s)
      end
    end
  end.

(** The delay after the next one. *)
Definition next_backoff (maxBackoff backoff : Z) : Z :=
  if backoff <? maxBackoff then wrap_i64 (backoff * 2) else backoff.

(** ** [Register] in one piece *)

(** What a registration over the connection [c] amounts to. *)
Definition handshake (msg : RegistryMessage) (c : connection) : result register_error unit :=
  data ← map_err MarshalRegister (Marshal msg);
  _ ← map_err (WriteRegister ∘ WriteFailed) (WriteFrame data (wr c)).1;
  respData ← map_err (ReadRegisterResponse ∘ ReadFailed) (ReadFrame (rd c)).1;
  resp ← map_err UnmarshalRegisterResponse (Unmarshal respData);
  match payload resp with
  | Some (PResponse {| Success := true |}) => Ok tt
  | Some (PResponse {| Success := false; RespMessage := msg |}) => Err (RegistrationFailed msg)
  | _ => Err (RegistrationFailed "unknown error")
  end.

Lemma check_response_spec resp :
  check_response resp =
  match payload resp with
  | Some (PResponse {| Success := true |}) => Ok tt
  | Some (PResponse {| Success := false; RespMessage := msg |}) => Err (RegistrationFailed msg)
  | _ => Err (RegistrationFailed "unknown error")
  end.
Proof. unfold check_response. by destruct (payload resp) as [[| | |[[] msg]|]|]. Qed.

Lemma alter_snoc {A} (f : A → A) (l : list A) a : alter f (length l) (l ++ [a]) = l ++ [f a].
Proof. induction l as [|b l IH]; simpl; [done|]. f_equal. apply IH. Qed.

Lemma insert_snoc {A} (l : list A) a b : <[length l := b]> (l ++ [a]) = l ++ [b].
Proof. by rewrite insert_app_r_alt, Nat.sub_diag by lia. Qed.

(** The world after [DialContext] returned [c]. *)
Definition fresh (s : world) (c : connection) : world :=
  {| client := set_conn (Some (length (conns s))) (client s); conns := conns s ++ [c];
     dialed := S (dialed s) |}.

Lemma writeFrame_fresh s c data :
  writeFrame data (fresh s c) =
  (map_err WriteFailed (WriteFrame data (wr c)).1,
   fresh s {| rd := rd c; wr := (WriteFrame data (wr c)).2; closed := closed c |}).
Proof.
  unfold writeFrame. simpl. rewrite list_lookup_middle by done. simpl.
  destruct (WriteFrame data (wr c)) as [r w]. unfold on_conns, fresh. simpl. by rewrite insert_snoc.
Qed.

Lemma readFrame_fresh s c :
  readFrame (fresh s c) =
  (map_err ReadFailed (ReadFrame (rd c)).1,
   fresh s {| rd := (ReadFrame (rd c)).2; wr := wr c; closed := closed c |}).
Proof.
  unfold readFrame. simpl. rewrite list_lookup_middle by done. simpl.
  destruct (ReadFrame (rd c)) as [r w]. unfold on_conns, fresh. simpl. by rewrite insert_snoc.
Qed.

Lemma closeConn_fresh s c :
  closeConn (fresh s c) =
  {| client := set_conn None (client s); conns := conns s ++ [Close c]; dialed := S (dialed s) |}.
Proof.
  unfold closeConn, on_client, on_conns, fresh. simpl. by rewrite alter_snoc.
Qed.

Lemma WriteFrame_sent data w :
  (WriteFrame data w).1 = Ok tt → sent (WriteFrame data w).2 = sent w ++ frame data.
Proof.
  unfold WriteFrame, Write, frame. destruct (fails w) as [[n e]|]; simpl.
  - destruct (4 <=? n)%nat; [simpl|done]. destruct (length data <=? n - 4)%nat; [|done].
    intros _. simpl. by rewrite <- app_assoc.
  - intros _. by rewrite <- app_assoc.
Qed.

Ltac handshake_solve :=
  unfold handshake; repeat (match goal with H : _ = _ |- _ => rewrite H; clear H end; simpl).

(** C14: [Register] dials exactly once.  If dialing fails the client and its
    connection stay as they were.  Otherwise the result is that of the handshake
    over the new connection: on success the client uses the new connection,
    on which exactly one frame was sent, the registration; on every
    error the new connection is closed and the client has none.  No other
    connection is touched, the client's previous one included. *)
Theorem Register_outcome (s : world) :
  let '(res, s') := Register s in
  dialed s' = S (dialed s) ∧
  match dial (dialed s) with
  | Err e => res = Err (ConnectToRegistry e) ∧ client s' = client s ∧ conns s' = conns s
  | Ok d =>
    res = handshake (register_msg (client s)) (opened d) ∧
    ∃ c', conns s' = conns s ++ [c'] ∧
      if is_ok res then
        client s' = set_conn (Some (length (conns s))) (client s) ∧ closed c' = false ∧
        ∃ data, Marshal (register_msg (client s)) = Ok data ∧ sent (wr c') = frame data
      else client s' = set_conn None (client s) ∧ closed c' = true
  end.
Proof.
  unfold Register, register_dial. destruct (dial (dialed s)) as [d|e]; [|done].
  set (c := opened d). assert (closed c = false ∧ sent (wr c) = []) as [Hcl Hsent] by done.
  clearbody c.
  change {| client := _; conns := conns s ++ [c]; dialed := _ |} with (fresh s c).
  unfold register_send. change (register_msg (client (fresh s c))) with (register_msg (client s)).
  assert (Hleaf : ∀ e c' (h : result register_error unit), Err e = h →
    S (dialed s) = S (dialed s) ∧ Err e = h ∧
    ∃ c'0, conns s ++ [Close c'] = conns s ++ [c'0] ∧
      set_conn None (client s) = set_conn None (client s) ∧ closed c'0 = true).
  { intros e c' h H. split_and!; [done|exact H|]. by exists (Close c'). }
  destruct (Marshal (register_msg (client s))) as [data|e] eqn:Em; rewrite ?closeConn_fresh;
    [|apply Hleaf; by handshake_solve].
  rewrite writeFrame_fresh. pose proof (WriteFrame_sent data (wr c)) as Hw.
  destruct (WriteFrame data (wr c)) as [[[]|e] w] eqn:Ew; cbn [fst snd map_err] in *;
    rewrite ?closeConn_fresh; [|apply Hleaf; by handshake_solve].
  unfold register_recv. rewrite readFrame_fresh. cbn [rd].
  destruct (ReadFrame (rd c)) as [[respData|e] r] eqn:Er; cbn [fst snd map_err];
    rewrite ?closeConn_fresh; [|apply Hleaf; by handshake_solve].
  destruct (Unmarshal respData) as [resp|e] eqn:Eu; rewrite ?closeConn_fresh;
    [|apply Hleaf; by handshake_solve].
  destruct (check_response resp) as [[]|e] eqn:Ec; rewrite check_response_spec in Ec;
    rewrite ?closeConn_fresh; [|apply Hleaf; by handshake_solve].
  split_and!; [done|by handshake_solve|]. eexists. split_and!; [done..|]. simpl.
  split_and!; [done..|]. exists data. rewrite Hw, Hsent; done.
Qed.

(** ** What every method preserves *)

Definition cfg (c : Client) : string * Z * string * Z * Z * Z * Z :=
  (registryAddr c, selfPort c, serviceName c, heartbeatInterval c, heartbeatMaxFail c,
   reconnectBackoff c, reconnectMaxBackoff c).

(** The client's connection is an open one. *)
Definition wf (s : world) : Prop :=
  ∀ i, conn (client s) = Some i → ∃ c, conns s !! i = Some c ∧ closed c = false.

(** An open connection that the client does not refer to. *)
Definition abandoned (s : world) (i : nat) : Prop :=
  conn (client s) ≠ Some i ∧ ∃ c, conns s !! i = Some c ∧ closed c = false.

Record evolves (s s' : world) : Prop := {
  ev_cfg : cfg (client s') = cfg (client s);
  ev_stop : stopCh (client s) = true → stopCh (client s') = true;
  ev_dialed : dialed s' = dialed s;
  ev_abandoned : ∀ i, abandoned s i → abandoned s' i;
  ev_wf : wf s → wf s';
}.

#[export] Instance evolves_preorder : PreOrder evolves.
Proof.
  split; [by constructor|]. intros x y z [] []. constructor; eauto; congruence.
Qed.

Lemma closeConn_evolves s : evolves s (closeConn s).
Proof.
  unfold closeConn. destruct (conn (client s)) as [i|] eqn:E; [|reflexivity].
  constructor; simpl; [done..| |by intros _ ?].
  intros j [Hj (c & Hc & Hcl)]. split; [done|]. exists c. split; [|done].
  simpl. rewrite list_lookup_alter_ne; [done|]. congruence.
Qed.

(** Replacing a connection by one that is open exactly when it was. *)
Lemma insert_conn_evolves s i c c' :
  conns s !! i = Some c → closed c' = closed c → evolves s (on_conns (<[i := c']>) s).
Proof.
  intros Hi Hc. apply lookup_lt_Some in Hi as Hlt.
  assert (Hopen : ∀ j, (∃ d, conns s !! j = Some d ∧ closed d = false) →
    ∃ d, <[i := c']> (conns s) !! j = Some d ∧ closed d = false).
  { intros j (d & Hd & Hcl). destruct (decide (i = j)) as [<-|].
    - exists c'. rewrite list_lookup_insert_eq by done. split; [done|]. congruence.
    - exists d. by rewrite list_lookup_insert_ne. }
  constructor; simpl; [done..| |].
  - intros j [Hj Ho]. split; [done|]. by apply Hopen.
  - intros Hwf j Hj. by apply Hopen, Hwf.
Qed.

Lemma writeFrame_evolves data s r s' : writeFrame data s = (r, s') → evolves s s'.
Proof.
  unfold writeFrame. destruct (conn (client s)) as [i|]; simpl; [|by intros [= _ <-]].
  destruct (conns s !! i) as [c|] eqn:Hi; simpl; [|by intros [= _ <-]].
  destruct (WriteFrame data (wr c)). intros [= _ <-]. by eapply insert_conn_evolves.
Qed.

Lemma readFrame_evolves s r s' : readFrame s = (r, s') → evolves s s'.
Proof.
  unfold readFrame. destruct (conn (client s)) as [i|]; simpl; [|by intros [= _ <-]].
  destruct (conns s !! i) as [c|] eqn:Hi; simpl; [|by intros [= _ <-]].
  destruct (ReadFrame (rd c)). intros [= _ <-]. by eapply insert_conn_evolves.
Qed.

Ltac evolve :=
  repeat match goal with
  | H : writeFrame _ _ = _ |- _ => apply writeFrame_evolves in H
  | H : readFrame _ = _ |- _ => apply readFrame_evolves in H
  end;
  first [done | reflexivity | apply closeConn_evolves
        | etransitivity; [eassumption|apply closeConn_evolves]].

Lemma register_send_evolves s r s' : register_send s = (r, s') → evolves s s'.
Proof. unfold register_send. repeat case_match; intros [= _ <-]; evolve. Qed.

Lemma register_recv_evolves s r s' : register_recv s = (r, s') → evolves s s'.
Proof. unfold register_recv. repeat case_match; intros [= _ <-]; evolve. Qed.

Lemma heartbeat_evolves n s r s' : heartbeat n s = (r, s') → evolves s s'.
Proof. unfold heartbeat. repeat case_match; intros [= _ <-]; evolve. Qed.

Lemma read_response_evolves s r s' : read_response s = (r, s') → evolves s s'.
Proof. unfold read_response. repeat case_match; intros [= _ <-]; evolve. Qed.

Lemma stop_evolves s : evolves s (if stopOnce (client s) then s else on_client set_stopped s).
Proof. by destruct (stopOnce (client s)); constructor. Qed.


(** The world in which a dial was counted. *)
Definition bump (s : world) : world :=
  {| client := client s; conns := conns s; dialed := S (dialed s) |}.

Lemma register_dial_evolves s r s' : register_dial s = (r, s') → evolves (bump s) s'.
Proof.
  unfold register_dial. destruct (dial (dialed s)) as [d|e]; intros [= <- <-]; [|reflexivity].
  constructor; simpl; [done..| |].
  - intros i [Hi (c & Hc & Hcl)]. apply lookup_lt_Some in Hc as Hlt. simpl in *. split.
    + simpl. intros [= <-]. lia.
    + exists c. simpl. by rewrite lookup_app_l.
  - intros _ i [= <-]. exists (opened d). simpl. by rewrite list_lookup_middle.
Qed.

(** ** [Run], [readLoop] and [Stop] together *)

(** Where [Run] is: the [select] at the top of the loop; the stages of
    [Register]; after a failed one; before the reading goroutine is
    started; before [NewTicker]; in [heartbeatLoop]; before [cancelReader]; at
    [<-doneCh]; at the last [select]; returned; stopped by a panic, with the
    process. *)
Inductive runner_pc : Type :=
| RTop (backoff : Z)
| RDial (backoff : Z)
| RSend (backoff : Z)
| RRecv (backoff : Z)
| RFailed (backoff : Z)
| RStart
| RTicker
| RBeat (failCount : Z)
| RCancel
| RJoin
| RLost
| RDone
| RCrashed.

(** The reading goroutine: none, or returned; at its [select]; in [readFrame]. *)
Inductive reader_pc : Type := LDone | LCheck | LRead.

(** [Stop]: not called, or returned; between [close] and [closeConn]. *)
Inductive stop_pc : Type := SIdle | SClosing.

(** The ghost fields: the delays that were slept with the number of delays since
    the last registration, that number, and the results of the heartbeats
    written since [heartbeatLoop] was called. *)
Record sys : Type := {
  net : world;
  runner : runner_pc;
  rloop : reader_pc;
  stopper : stop_pc;
  ctxDone : bool;
  readerCancelled : bool;
  sleeps : list (nat * Z);
  streak : nat;
  beats : list bool;
}.

Definition stopping (s : sys) : Prop := ctxDone s = true ∨ stopCh (client (net s)) = true.

Definition set_runner (pc : runner_pc) (s : sys) : sys :=
  {| net := net s; runner := pc; rloop := rloop s; stopper := stopper s; ctxDone := ctxDone s;
     readerCancelled := readerCancelled s; sleeps := sleeps s; streak := streak s;
     beats := beats s |}.
Definition set_net (w : world) (s : sys) : sys :=
  {| net := w; runner := runner s; rloop := rloop s; stopper := stopper s; ctxDone := ctxDone s;
     readerCancelled := readerCancelled s; sleeps := sleeps s; streak := streak s;
     beats := beats s |}.
Definition set_reader (pc : reader_pc) (cancelled : bool) (s : sys) : sys :=
  {| net := net s; runner := runner s; rloop := pc; stopper := stopper s; ctxDone := ctxDone s;
     readerCancelled := cancelled; sleeps := sleeps s; streak := streak s; beats := beats s |}.
Definition set_stopper (pc : stop_pc) (s : sys) : sys :=
  {| net := net s; runner := runner s; rloop := rloop s; stopper := pc; ctxDone := ctxDone s;
     readerCancelled := readerCancelled s; sleeps := sleeps s; streak := streak s;
     beats := beats s |}.
Definition set_ctxDone (s : sys) : sys :=
  {| net := net s; runner := runner s; rloop := rloop s; stopper := stopper s; ctxDone := true;
     readerCancelled := readerCancelled s; sleeps := sleeps s; streak := streak s;
     beats := beats s |}.
Definition set_streak (n : nat) (s : sys) : sys :=
  {| net := net s; runner := runner s; rloop := rloop s; stopper := stopper s;
     ctxDone := ctxDone s; readerCancelled := readerCancelled s; sleeps := sleeps s;
     streak := n; beats := beats s |}.
Definition set_beats (l : list bool) (s : sys) : sys :=
  {| net := net s; runner := runner s; rloop := rloop s; stopper := stopper s;
     ctxDone := ctxDone s; readerCancelled := readerCancelled s; sleeps := sleeps s;
     streak := streak s; beats := l |}.

(** [time.Sleep(backoff)], then the delay is doubled below its limit. *)
Definition sleep (backoff : Z) (s : sys) : sys :=
  {| net := net s; runner := RTop (next_backoff (reconnectMaxBackoff (client (net s))) backoff);
     rloop := rloop s; stopper := stopper s; ctxDone := ctxDone s;
     readerCancelled := readerCancelled s; sleeps := sleeps s ++ [(streak s, backoff)];
     streak := S (streak s); beats := beats s |}.

(** Whether a heartbeat can be written; [None] when it has no serialised form. *)
Definition beat_result (w : world) : option bool :=
  match Marshal (heartbeat_msg (client w)) with
  | Err _ => None
  | Ok data => Some (is_ok (writeFrame data w).1)
  end.

Inductive step : sys → sys → Prop :=
| step_top s b : runner s = RTop b → ¬ stopping s → step s (set_runner (RDial b) s)
| step_top_return s b : runner s = RTop b → stopping s → step s (set_runner RDone s)
| step_dial s b w :
    runner s = RDial b → register_dial (net s) = (Ok tt, w) →
    step s (set_net w (set_runner (RSend b) s))
| step_dial_err s b e w :
    runner s = RDial b → register_dial (net s) = (Err e, w) →
    step s (set_net w (set_runner (RFailed b) s))
| step_send s b w :
    runner s = RSend b → register_send (net s) = (Ok tt, w) →
    step s (set_net w (set_runner (RRecv b) s))
| step_send_err s b e w :
    runner s = RSend b → register_send (net s) = (Err e, w) →
    step s (set_net w (set_runner (RFailed b) s))
| step_recv s b w :
    runner s = RRecv b → register_recv (net s) = (Ok tt, w) →
    step s (set_streak 0 (set_net w (set_runner RStart s)))
| step_recv_err s b e w :
    runner s = RRecv b → register_recv (net s) = (Err e, w) →
    step s (set_net w (set_runner (RFailed b) s))
| step_failed_return s b : runner s = RFailed b → stopping s → step s (set_runner RDone s)
| step_failed s b : runner s = RFailed b → ¬ stopping s → step s (sleep b s)
| step_start s :
    runner s = RStart → step s (set_runner RTicker (set_reader LCheck false s))
| step_ticker s :
    runner s = RTicker → 0 < heartbeatInterval (client (net s)) →
    step s (set_beats [] (set_runner (RBeat 0) s))
| step_ticker_panic s :
    runner s = RTicker → heartbeatInterval (client (net s)) ≤ 0 → step s (set_runner RCrashed s)
| step_beat_return s n : runner s = RBeat n → stopping s → step s (set_runner RCancel s)
| step_beat s n n' w :
    runner s = RBeat n → heartbeat n (net s) = (Some n', w) →
    step s (set_beats (beats s ++ option_list (beat_result (net s)))
             (set_net w (set_runner (RBeat n') s)))
| step_beat_lost s n w :
    runner s = RBeat n → heartbeat n (net s) = (None, w) →
    step s (set_beats (beats s ++ option_list (beat_result (net s)))
             (set_net w (set_runner RCancel s)))
| step_cancel s : runner s = RCancel → step s (set_runner RJoin (set_reader (rloop s) true s))
| step_join s : runner s = RJoin → rloop s = LDone → step s (set_runner RLost s)
| step_lost_return s : runner s = RLost → stopping s → step s (set_runner RDone s)
| step_lost s :
    runner s = RLost → ¬ stopping s → step s (sleep (reconnectBackoff (client (net s))) s)
(* the reading goroutine *)
| step_check s :
    runner s ≠ RCrashed → rloop s = LCheck → ¬ (stopping s ∨ readerCancelled s = true) →
    step s (set_reader LRead (readerCancelled s) s)
| step_check_return s :
    runner s ≠ RCrashed → rloop s = LCheck → stopping s ∨ readerCancelled s = true →
    step s (set_reader LDone (readerCancelled s) s)
| step_read s go w :
    runner s ≠ RCrashed → rloop s = LRead → read_response (net s) = (go, w) →
    step s (set_net w (set_reader (if go : bool then LCheck else LDone) (readerCancelled s) s))
(* [Stop], the end of the context, and the network *)
| step_stop s :
    runner s ≠ RCrashed → stopper s = SIdle →
    step s (set_stopper SClosing
      (set_net (if stopOnce (client (net s)) then net s else on_client set_stopped (net s)) s))
| step_stop_close s :
    runner s ≠ RCrashed → stopper s = SClosing →
    step s (set_stopper SIdle (set_net (closeConn (net s)) s))
| step_ctx s : runner s ≠ RCrashed → step s (set_ctxDone s)
| step_network s i c n e :
    conns (net s) !! i = Some c → fails (wr c) = None →
    step s (set_net (on_conns (<[i := {| rd := rd c; wr := Writer (sent (wr c)) (Some (n, e));
                                         closed := closed c |}]>) (net s)) s).

(** [Run] has just been called. *)
Definition run (w : world) : sys :=
  {| net := w; runner := RTop (reconnectBackoff (client w)); rloop := LDone; stopper := SIdle;
     ctxDone := false; readerCancelled := false; sleeps := []; streak := 0; beats := [] |}.

(** *** What every step preserves *)

Lemma step_evolves s s' :
  step s s' →
  evolves (net s) (net s') ∨
  evolves (bump (net s)) (net s') ∧
    ∃ b, runner s = RDial b ∧ (runner s' = RSend b ∨ runner s' = RFailed b).
Proof.
  destruct 1; simpl; try (left; reflexivity);
    eauto using register_dial_evolves, register_send_evolves, register_recv_evolves,
      heartbeat_evolves, read_response_evolves, closeConn_evolves, stop_evolves,
      insert_conn_evolves; right; split; eauto using register_dial_evolves.
Qed.

Lemma step_cfg s s' : step s s' → cfg (client (net s')) = cfg (client (net s)).
Proof. intros [[]|[[] _]]%step_evolves; done. Qed.

Lemma step_stopping s s' : step s s' → stopping s → stopping s'.
Proof.
  intros Hs. assert (Hctx : ctxDone s = true → ctxDone s' = true) by (by destruct Hs).
  destruct (step_evolves _ _ Hs) as [[]|[[] _]]; intros [?|?]; [left|right|left|right]; auto.
Qed.

Lemma run_abandoned s s' i : rtc step s s' → abandoned (net s) i → abandoned (net s') i.
Proof.
  induction 1 as [|x y z Hs _ IH]; [done|]. intros Ha. apply IH.
  destruct (step_evolves _ _ Hs) as [[]|[[] _]]; auto.
Qed.

Lemma run_wf s s' : rtc step s s' → wf (net s) → wf (net s').
Proof.
  induction 1 as [|x y z Hs _ IH]; [done|]. intros Ha. apply IH.
  destruct (step_evolves _ _ Hs) as [[]|[[] _]]; auto.
Qed.

(** *** Delays *)

Definition delay (c : Client) (k : nat) : Z :=
  Nat.iter k (next_backoff (reconnectMaxBackoff c)) (reconnectBackoff c).





(** *** Heartbeats *)

(** The last [k] heartbeats failed, and the one before them, if any, did not. *)
Definition last_failures (k : nat) (l : list bool) : Prop :=
  ∃ pre, l = pre ++ replicate k false ∧ default true (last pre) = true.

Lemma last_failures_true l : last_failures 0 (l ++ [true]).
Proof. exists (l ++ [true]). by rewrite app_nil_r, last_snoc. Qed.

Lemma last_failures_false k l : last_failures k l → last_failures (S k) (l ++ [false]).
Proof.
  intros (pre & -> & Hp). exists pre. split; [|done].
  by rewrite <- app_assoc, <- replicate_cons_app.
Qed.

Lemma cfg_maxFail c c' : cfg c' = cfg c → heartbeatMaxFail c' = heartbeatMaxFail c.
Proof. by intros [=]. Qed.

Lemma heartbeat_result n w o w' :
  heartbeat n w = (o, w') →
  o = match beat_result w with
      | None => Some n
      | Some true => Some 0
      | Some false =>
        if heartbeatMaxFail (client w) <=? wrap_i64 (n + 1) then None else Some (wrap_i64 (n + 1))
      end.
Proof.
  unfold heartbeat, beat_result. destruct (Marshal (heartbeat_msg (client w))) as [data|]; [|congruence].
  destruct (writeFrame data w) as [[[]|e] w1] eqn:E; intros [= <- <-]; simpl; [done|].
  apply writeFrame_evolves, ev_cfg in E. apply cfg_maxFail in E. by rewrite E.
Qed.

Definition inv_beats (s : sys) : Prop :=
  let maxFail := heartbeatMaxFail (client (net s)) in
  match runner s with
  | RBeat n => ∃ k, n = Z.of_nat k ∧ last_failures k (beats s) ∧ (k = 0%nat ∨ n < maxFail)
  | RCancel | RJoin | RLost =>
    stopping s ∨ ∃ k, Z.of_nat k = Z.max 1 maxFail ∧ last_failures k (beats s)
  | _ => True
  end.

Lemma inv_beats_step s s' :
  in_i64 (heartbeatMaxFail (client (net s))) → inv_beats s → step s s' → inv_beats s'.
Proof.
  intros Hin Hinv Hs. pose proof (step_stopping _ _ Hs) as Hst.
  pose proof (cfg_maxFail _ _ (step_cfg _ _ Hs)) as Hcfg. unfold inv_beats in *. rewrite Hcfg.
  destruct Hs as [| | | | | | | | | | | | | |s n n' w Hr Hb|s n w Hr Hb| | | | | | | | | | |];
    simpl in *;
    try (repeat match goal with H : runner s = _ |- _ => rewrite H in * end; by auto);
    try (destruct (runner s); destruct_or?; auto; fail).
  - exists 0%nat. split_and!; [done|by exists []|by left].
  - rewrite Hr in Hinv. destruct Hinv as (k & -> & Hk & Hlt). apply heartbeat_result in Hb.
    assert (Hwrap : wrap_i64 (Z.of_nat k + 1) = Z.of_nat (S k))
      by (rewrite wrap_i64_id; unfold in_i64 in *; lia).
    rewrite Hwrap in Hb. destruct (beat_result (net s)) as [[]|]; simpl.
    + injection Hb as ->. exists 0%nat. eauto using last_failures_true.
    + destruct (Z.leb_spec (heartbeatMaxFail (client (net s))) (Z.of_nat (S k))); [done|].
      injection Hb as ->. exists (S k). eauto using last_failures_false.
    + injection Hb as ->. exists k. rewrite app_nil_r. eauto.
  - rewrite Hr in Hinv. destruct Hinv as (k & -> & Hk & Hlt). apply heartbeat_result in Hb.
    assert (Hwrap : wrap_i64 (Z.of_nat k + 1) = Z.of_nat (S k))
      by (rewrite wrap_i64_id; unfold in_i64 in *; lia).
    rewrite Hwrap in Hb. destruct (beat_result (net s)) as [[]|]; [done| |done].
    destruct (Z.leb_spec (heartbeatMaxFail (client (net s))) (Z.of_nat (S k))); [|done].
    right. exists (S k). split; [lia|]. by apply last_failures_false.
Qed.

(** *** One reading goroutine *)

Definition inv_reader (s : sys) : Prop :=
  match runner s with
  | RTicker | RBeat _ | RCancel | RJoin | RCrashed => True
  | _ => rloop s = LDone
  end.

Lemma inv_reader_step s s' : inv_reader s → step s s' → inv_reader s'.
Proof.
  unfold inv_reader. intros Hinv Hs. destruct Hs; simpl in *;
    repeat match goal with H : runner s = _ |- _ => rewrite H in * end; try done;
    destruct (runner s); congruence.
Qed.

(** *** After [Stop] *)

(** One more dial is counted for a call of [DialContext] that is about to start. *)
Definition dials (s : sys) : nat :=
  dialed (net s) + match runner s with RDial _ => 1 | _ => 0 end.

Lemma stopped_dials s s' :
  stopping s → step s s' → (dials s' ≤ dials s)%nat.
Proof.
  intros Hst Hs. unfold dials.
  destruct (step_evolves _ _ Hs) as [[? ? Hd]|[[? ? Hd] (b & Hb & [Hb'|Hb'])]]; rewrite Hd.
  - destruct Hs; simpl in *; try done; try lia;
      repeat match goal with H : runner s = _ |- _ => rewrite H in * end; lia.
  - rewrite Hb, Hb'. simpl. lia.
  - rewrite Hb, Hb'. simpl. lia.
Qed.

(** *** A ticker needs a positive interval *)

Definition inv_interval (s : sys) : Prop :=
  beats s = [] ∧
  match runner s with RBeat _ | RCancel | RJoin | RLost => False | _ => True end.

Lemma inv_interval_step s s' :
  heartbeatInterval (client (net s)) ≤ 0 → inv_interval s → step s s' → inv_interval s'.
Proof.
  unfold inv_interval. intros Hi [Hb Hr] Hs. destruct Hs; simpl in *;
    repeat match goal with H : runner s = _ |- _ => rewrite H in * end; split; try done; lia.
Qed.

(** Invariants under a condition on the configuration. *)
Lemma run_inv (P : Client → Prop) (I : sys → Prop) w s :
  (∀ c c', cfg c' = cfg c → P c → P c') →
  (∀ s s', P (client (net s)) → I s → step s s' → I s') →
  P (client w) → I (run w) → rtc step (run w) s → P (client (net s)) ∧ I s.
Proof.
  intros HP Hstep Hw Hi Hrun. change (client w) with (client (net (run w))) in Hw.
  induction Hrun as [|x y z Hs _ IH]; [done|].
  apply IH; [|by eapply Hstep]. by eapply HP; [apply step_cfg|].
Qed.

Lemma run_cfg w s : rtc step (run w) s → cfg (client (net s)) = cfg (client w).
Proof.
  intros H. apply (run_inv (λ c, cfg c = cfg (client w)) (λ _, True) w s);
    [congruence|done..|exact H].
Qed.

(** ** The step relation as a function of the scheduler's choice *)

Inductive choice : Type :=
| Go | Tick | GoReader | GoStop | GoCtx | Network (i n : nat) (e : io_error).

Definition stoppingb (s : sys) : bool := ctxDone s || stopCh (client (net s)).

Lemma stoppingb_spec s : reflect (stopping s) (stoppingb s).
Proof.
  unfold stoppingb, stopping. destruct (ctxDone s), (stopCh (client (net s))); constructor; auto.
  by intros [].
Qed.

(** A stage of [Register]. *)
Definition stage (m : world → result register_error unit * world) (b : Z) (next : sys → sys)
    (s : sys) : sys :=
  match m (net s) with
  | (Ok _, w) => next (set_net w s)
  | (Err _, w) => set_net w (set_runner (RFailed b) s)
  end.

(** One step of [Run] other than a heartbeat. *)
Definition exec_runner (s : sys) : option sys :=
  match runner s with
  | RTop b => Some (set_runner (if stoppingb s then RDone else RDial b) s)
  | RDial b => Some (stage register_dial b (set_runner (RSend b)) s)
  | RSend b => Some (stage register_send b (set_runner (RRecv b)) s)
  | RRecv b => Some (stage register_recv b (λ s, set_streak 0 (set_runner RStart s)) s)
  | RFailed b => Some (if stoppingb s then set_runner RDone s else sleep b s)
  | RStart => Some (set_runner RTicker (set_reader LCheck false s))
  | RTicker =>
    Some (if 0 <? heartbeatInterval (client (net s)) then set_beats [] (set_runner (RBeat 0) s)
          else set_runner RCrashed s)
  | RBeat _ => if stoppingb s then Some (set_runner RCancel s) else None
  | RCancel => Some (set_runner RJoin (set_reader (rloop s) true s))
  | RJoin => match rloop s with LDone => Some (set_runner RLost s) | _ => None end
  | RLost =>
    Some (if stoppingb s then set_runner RDone s
          else sleep (reconnectBackoff (client (net s))) s)
  | RDone | RCrashed => None
  end.

Definition exec_tick (s : sys) : option sys :=
  match runner s with
  | RBeat n =>
    let '(o, w) := heartbeat n (net s) in
    let pc := match o with Some n' => RBeat n' | None => RCancel end in
    Some (set_beats (beats s ++ option_list (beat_result (net s))) (set_net w (set_runner pc s)))
  | _ => None
  end.

Definition exec_reader (s : sys) : option sys :=
  match rloop s with
  | LDone => None
  | LCheck =>
    let pc := if stoppingb s || readerCancelled s then LDone else LRead in
    Some (set_reader pc (readerCancelled s) s)
  | LRead =>
    let '(go, w) := read_response (net s) in
    Some (set_net w (set_reader (if go : bool then LCheck else LDone) (readerCancelled s) s))
  end.

Definition exec_stop (s : sys) : sys :=
  match stopper s with
  | SIdle =>
    set_stopper SClosing
      (set_net (if stopOnce (client (net s)) then net s else on_client set_stopped (net s)) s)
  | SClosing => set_stopper SIdle (set_net (closeConn (net s)) s)
  end.

Definition exec (c : choice) (s : sys) : option sys :=
  match runner s with
  | RCrashed => None
  | _ =>
    match c with
    | Go => exec_runner s
    | Tick => exec_tick s
    | GoReader => exec_reader s
    | GoStop => Some (exec_stop s)
    | GoCtx => Some (set_ctxDone s)
    | Network i n e =>
      c ← conns (net s) !! i;
      match fails (wr c) with
      | Some _ => None
      | None =>
        Some (set_net (on_conns (<[i := {| rd := rd c; wr := Writer (sent (wr c)) (Some (n, e));
                                          closed := closed c |}]>) (net s)) s)
      end
    end
  end.

Definition exec_all (cs : list choice) (s : sys) : option sys :=
  foldl (λ o c, o ≫= exec c) (Some s) cs.

Lemma stage_sound m b next s (P : sys → Prop) :
  (∀ w, m (net s) = (Ok tt, w) → P (next (set_net w s))) →
  (∀ e w, m (net s) = (Err e, w) → P (set_net w (set_runner (RFailed b) s))) →
  P (stage m b next s).
Proof. unfold stage. destruct (m (net s)) as [[[]|e] w]; eauto. Qed.

Lemma exec_runner_sound s s' : exec_runner s = Some s' → step s s'.
Proof.
  unfold exec_runner. pose proof (stoppingb_spec s) as Hst.
  destruct (runner s) eqn:Hr; intros Hs; try discriminate Hs; try (injection Hs as <-);
    try (apply stage_sound; intros; first
      [ by apply (step_dial s _ _ Hr) | by apply (step_send s _ _ Hr) | by apply (step_recv s _ _ Hr)
      | eauto using step ]; fail);
    try (destruct Hst; [eauto using step|eauto using step]; fail); eauto using step.
  - destruct (Z.ltb_spec 0 (heartbeatInterval (client (net s)))); eauto using step.
  - destruct Hst; simplify_eq. eauto using step.
  - destruct (rloop s) eqn:E; simplify_eq. eauto using step.
Qed.

Lemma exec_tick_sound s s' : exec_tick s = Some s' → step s s'.
Proof.
  unfold exec_tick. destruct (runner s) eqn:Hr; try done.
  destruct (heartbeat failCount (net s)) as [[n'|] w] eqn:E; intros [= <-]; eauto using step.
Qed.

Lemma exec_reader_sound s s' : runner s ≠ RCrashed → exec_reader s = Some s' → step s s'.
Proof.
  unfold exec_reader. intros Hr. destruct (rloop s) eqn:El; [done| |].
  - intros [= <-].
    assert (Hb : reflect (stopping s ∨ readerCancelled s = true) (stoppingb s || readerCancelled s)).
    { destruct (stoppingb_spec s), (readerCancelled s); constructor; auto. by intros []. }
    destruct Hb; [by apply step_check_return|by apply step_check].
  - destruct (read_response (net s)) eqn:E; intros [= <-]. by apply step_read.
Qed.

Lemma run_exec_sound c s s' : exec c s = Some s' → step s s'.
Proof.
  intros H. assert (Hr : runner s ≠ RCrashed) by (intros Hr; unfold exec in H; by rewrite Hr in H).
  assert (H' : match c with
    | Go => exec_runner s | Tick => exec_tick s | GoReader => exec_reader s
    | GoStop => Some (exec_stop s) | GoCtx => Some (set_ctxDone s) | _ => exec c s end = Some s').
  { rewrite <- H. unfold exec. destruct c, (runner s); done. }
  destruct c as [| | | | |i n e]; eauto using exec_runner_sound, exec_tick_sound, exec_reader_sound.
  - injection H' as <-. unfold exec_stop. destruct (stopper s) eqn:E; eauto using step.
  - injection H' as <-. eauto using step.
  - unfold exec in H. destruct (conns (net s) !! i) as [c|] eqn:Ec;
      [|by destruct (runner s)].
    destruct (fails (wr c)) eqn:Ef; simpl in H; rewrite Ef in H; [by destruct (runner s)|].
    destruct (runner s); try done; injection H as <-; eauto using step.
Qed.

Lemma run_exec_all_sound cs s s' : exec_all cs s = Some s' → rtc step s s'.
Proof.
  unfold exec_all. revert s. induction cs as [|c cs IH]; intros s; simpl; [by intros [= ->]|].
  destruct (exec c s) as [s1|] eqn:E.
  - intros H. eapply rtc_l; [by eapply run_exec_sound|by apply IH].
  - intros H. exfalso. revert H. clear. by induction cs.
Qed.

(** *** Steps that wait for nobody *)

(** Whether the client's connection is open: a read on it can block for as long as the
    registry sends nothing, and returns when the connection is closed. *)
Definition connected (w : world) : bool :=
  match conn (client w) ≫= λ i, conns w !! i with Some c => negb (closed c) | None => false end.

(** Whether a step needs more than the goroutines of [Run]: the registry that answers a
    dial or sends bytes to read, the ticker, or somebody who stops the client. *)
Definition waits (c : choice) (s : sys) : bool :=
  match c with
  | Go => match runner s with RDial _ => true | RRecv _ => connected (net s) | _ => false end
  | GoReader => match rloop s with LRead => connected (net s) | _ => false end
  | Tick | GoStop | GoCtx | Network _ _ _ => true
  end.

(** A step that [Run] or its reading goroutine takes by itself. *)
Definition own (s s' : sys) : Prop := ∃ c, waits c s = false ∧ exec c s = Some s'.

Lemma own_go s s' : runner s ≠ RCrashed → waits Go s = false → exec_runner s = Some s' → own s s'.
Proof. intros Hr Hw He. exists Go. split; [done|]. unfold exec. by destruct (runner s). Qed.

Lemma own_reader s s' :
  runner s ≠ RCrashed → waits GoReader s = false → exec_reader s = Some s' → own s s'.
Proof. intros Hr Hw He. exists GoReader. split; [done|]. unfold exec. by destruct (runner s). Qed.

(** A reading goroutine that is in a read on an open connection keeps [Run] waiting, also
    when the context is done. *)
Lemma join_blocked s s' :
  runner s = RJoin → rloop s = LRead → connected (net s) = true → ¬ own s s'.
Proof.
  intros Hr Hl Hc ([] & Hw & He); simpl in Hw; try done.
  - unfold exec, exec_runner in He. by rewrite Hr, Hl in He.
  - by rewrite Hl, Hc in Hw.
Qed.

(** ... and so does a registration that is not answered. *)
Lemma recv_blocked s s' b :
  runner s = RRecv b → rloop s = LDone → connected (net s) = true → ¬ own s s'.
Proof.
  intros Hr Hl Hc ([] & Hw & He); simpl in Hw; try done.
  - by rewrite Hr, Hc in Hw.
  - unfold exec, exec_reader in He. by rewrite Hr, Hl in He.
Qed.

(** *** Without a connection *)

Lemma closeConn_detached w : conn (client w) = None → closeConn w = w.
Proof. unfold closeConn. by intros ->. Qed.
Lemma writeFrame_detached data w : conn (client w) = None → writeFrame data w = (Err NotConnected, w).
Proof. unfold writeFrame. by intros ->. Qed.
Lemma readFrame_detached w : conn (client w) = None → readFrame w = (Err NotConnected, w).
Proof. unfold readFrame. by intros ->. Qed.

Lemma register_send_detached w :
  conn (client w) = None → ∃ e, register_send w = (Err e, w).
Proof.
  intros Hc. unfold register_send. destruct (Marshal _); rewrite ?writeFrame_detached by done;
    rewrite closeConn_detached by done; eauto.
Qed.
Lemma register_recv_detached w :
  conn (client w) = None → ∃ e, register_recv w = (Err e, w).
Proof. intros Hc. unfold register_recv. rewrite readFrame_detached, closeConn_detached by done. eauto. Qed.
Lemma heartbeat_detached n w : conn (client w) = None → (heartbeat n w).2 = w.
Proof. intros Hc. unfold heartbeat. destruct (Marshal _); [|done]. by rewrite writeFrame_detached. Qed.
Lemma read_response_detached w : conn (client w) = None → read_response w = (false, w).
Proof. intros Hc. unfold read_response. by rewrite readFrame_detached. Qed.

(** [Stop] has closed the client's connection, and [Run] is not in a dial. *)
Record detached (n : nat) (s : sys) : Prop := {
  det_stop : stopCh (client (net s)) = true;
  det_conn : conn (client (net s)) = None;
  det_dialed : dialed (net s) = n;
  det_interval : 0 < heartbeatInterval (client (net s));
  det_runner : match runner s with RDial _ | RCrashed => False | _ => True end;
}.

Lemma cfg_interval c c' : cfg c' = cfg c → heartbeatInterval c' = heartbeatInterval c.
Proof. by intros [=]. Qed.

(** It stays like that. *)
Lemma detached_step n s s' : detached n s → step s s' → detached n s'.
Proof.
  intros [Hs Hc Hd Hi Hr] Hstep.
  pose proof (cfg_interval _ _ (step_cfg _ _ Hstep)) as Hi'. rewrite <- Hi' in Hi. clear Hi'.
  assert (Hst : stopping s) by (by right).
  assert (Hsame : ∀ w, w = net s → stopCh (client w) = true ∧ conn (client w) = None ∧ dialed w = n)
    by (by intros w ->).
  destruct Hstep as [s b Hb|s b Hb|s b w Hb Hw|s b e w Hb Hw|s b w Hb Hw|s b e w Hb Hw|s b w Hb Hw
    |s b e w Hb Hw|s b Hb|s b Hb|s Hb|s Hb|s Hb|s k Hb|s k k' w Hb Hw|s k w Hb Hw|s Hb|s Hb|s Hb|s Hb
    |s|s|s go w Hb Hl Hw|s Hb Hl|s Hb Hl|s Hb|s i c k e Hic Hf]; try done;
    try (rewrite Hb in Hr; done); split; simpl in *; try done; try (by rewrite Hb);
    repeat match goal with
    | H : register_send _ = _ |- _ => destruct (register_send_detached _ Hc) as [? E0]; rewrite E0 in H; simplify_eq; done
    | H : register_recv _ = _ |- _ => destruct (register_recv_detached _ Hc) as [? E0]; rewrite E0 in H; simplify_eq; done
    | H : heartbeat ?k _ = _ |- _ =>
      pose proof (heartbeat_detached k _ Hc); rewrite H in *; simpl in *; subst w; done
    | H : read_response _ = _ |- _ => rewrite (read_response_detached _ Hc) in H; simplify_eq; done
    | |- context [closeConn _] => rewrite (closeConn_detached _ Hc); done
    | |- context [stopOnce ?c] => destruct (stopOnce c); done
    end; try lia.
Qed.

Lemma detached_run n s s' : detached n s → rtc step s s' → detached n s'.
Proof. intros Hd Hr. induction Hr; eauto using detached_step. Qed.

Lemma own_step s s' : own s s' → step s s'.
Proof. intros (c & _ & H). by eapply run_exec_sound. Qed.

Definition rank (pc : runner_pc) : nat :=
  match pc with
  | RDone | RCrashed => 0 | RTop _ | RFailed _ | RLost => 1 | RJoin => 2 | RCancel => 3
  | RBeat _ => 4 | RTicker => 5 | RStart => 6 | RRecv _ => 7 | RSend _ => 8 | RDial _ => 9
  end.

Lemma detached_connected n s : detached n s → connected (net s) = false.
Proof. intros [_ Hc _ _ _]. unfold connected. by rewrite Hc. Qed.

(** The reading goroutine returns by itself. *)
Lemma detached_reader n s :
  detached n s → runner s = RJoin → ∃ s', rtc own s s' ∧ runner s' = RJoin ∧ rloop s' = LDone.
Proof.
  intros Hd Hr. destruct (rloop s) eqn:El; [by exists s| |]; eexists; split.
  - apply rtc_once, own_reader; [congruence|simpl; by rewrite El|]. unfold exec_reader. by rewrite El.
  - unfold stoppingb. by rewrite (det_stop _ _ Hd), orb_true_r.
  - apply rtc_once, own_reader; [congruence| |].
    + simpl. rewrite El. by eapply detached_connected.
    + unfold exec_reader. rewrite El, read_response_detached by apply Hd. reflexivity.
  - done.
Qed.

Lemma detached_progress n s :
  detached n s → runner s = RDone ∨ ∃ s', rtc own s s' ∧ (rank (runner s') < rank (runner s))%nat.
Proof.
  intros Hd. pose proof Hd as [Hst Hc _ Hi Hpc].
  assert (Hsb : stoppingb s = true) by (unfold stoppingb; by rewrite Hst, orb_true_r).
  pose proof (detached_connected n s Hd) as Hco.
  assert (Hone : ∀ s', exec_runner s = Some s' → waits Go s = false → runner s ≠ RCrashed →
    (rank (runner s') < rank (runner s))%nat →
    runner s = RDone ∨ ∃ s', rtc own s s' ∧ (rank (runner s') < rank (runner s))%nat).
  { intros s' He Hw Hr Hlt. right. exists s'. split; [|done]. by apply rtc_once, own_go. }
  unfold exec_runner in Hone. cbn [waits] in Hone.
  destruct (runner s) as [b|b|b|b|b| | |k| | | | |] eqn:Hr; try done;
    rewrite ?Hsb in Hone; try (eapply Hone; [reflexivity|done|done|simpl; lia]).
  - eapply Hone; [reflexivity|done|done|]. unfold stage.
    destruct (register_send_detached _ Hc) as [e ->]. simpl. lia.
  - eapply Hone; [reflexivity|done|done|]. unfold stage.
    destruct (register_recv_detached _ Hc) as [e ->]. simpl. lia.
  - eapply Hone; [reflexivity|done|done|]. rewrite (proj2 (Z.ltb_lt _ _) Hi). simpl. lia.
  - right. destruct (detached_reader n s Hd Hr) as (s1 & Hs1 & Hr1 & Hl1).
    exists (set_runner RLost s1). split; [|simpl; lia]. etrans; [exact Hs1|].
    apply rtc_once, own_go; [congruence|simpl; by rewrite Hr1|].
    unfold exec_runner. by rewrite Hr1, Hl1.
  - by left.
Qed.

Lemma detached_ends n s : detached n s → ∃ s', rtc own s s' ∧ runner s' = RDone.
Proof.
  remember (rank (runner s)) as m eqn:Hm. revert s Hm.
  induction (lt_wf m) as [m _ IH]. intros s -> Hd.
  destruct (detached_progress n s Hd) as [?|(s1 & Hs1 & Hlt)]; [by exists s|].
  destruct (IH _ Hlt s1 eq_refl) as (s' & ? & ?).
  - eapply detached_run; [exact Hd|]. eapply (rtc_congruence id), Hs1. apply own_step.
  - exists s'. split; [by etrans|done].
Qed.

(** The step with which [Stop] returns. *)
Lemma stop_returns s s1 :
  step s s1 → stopper s = SClosing → stopper s1 = SIdle →
  runner s ≠ RCrashed ∧ s1 = set_stopper SIdle (set_net (closeConn (net s)) s).
Proof. intros Hs E1 E2. destruct Hs; simpl in *; congruence || done. Qed.

Lemma closeConn_none w : conn (client (closeConn w)) = None ∧ dialed (closeConn w) = dialed w.
Proof. unfold closeConn. by destruct (conn (client w)) eqn:E. Qed.

(** ** Properties *)


(** One failed attempt. *)
Lemma failed_attempt s b :
  runner s = RTop b → ¬ stopping s → (∀ n, ∃ e, dial n = Err e) →
  ∃ s', rtc step s s' ∧ ¬ stopping s' ∧ s' = sleep b (set_net (bump (net s)) s).
Proof.
  intros Hr Hst Hdial. destruct (Hdial (dialed (net s))) as [e He].
  set (s1 := set_runner (RDial b) s). set (s2 := set_net (bump (net s)) (set_runner (RFailed b) s1)).
  assert (Hs2 : step s1 s2).
  { eapply step_dial_err; [done|]. unfold register_dial. simpl. by rewrite He. }
  exists (sleep b s2). split_and!; [|exact Hst|done].
  eapply rtc_l; [by apply step_top|]. eapply rtc_l; [exact Hs2|].
  apply rtc_once. by apply (step_failed s2 b).
Qed.

(** While the registry cannot be reached [Run] keeps trying: every number of
    attempts is reached, and the delays between them are [delay 0],
    [delay 1], and so on. *)
Theorem unreachable_registry (w : world) (k : nat) :
  (∀ n, ∃ e, dial n = Err e) → stopCh (client w) = false →
  ∃ s, rtc step (run w) s ∧ runner s = RTop (delay (client w) k) ∧
       dialed (net s) = (dialed w + k)%nat ∧
       sleeps s = (λ j, (j, delay (client w) j)) <$> seq 0 k.
Proof.
  intros Hdial Hstop.
  cut (∃ s, rtc step (run w) s ∧ runner s = RTop (delay (client w) k) ∧
    dialed (net s) = (dialed w + k)%nat ∧ streak s = k ∧ ¬ stopping s ∧
    client (net s) = client w ∧ sleeps s = (λ j, (j, delay (client w) j)) <$> seq 0 k);
    [intros (s & ? & ? & ? & ? & ? & ? & ?); by exists s|].
  induction k as [|k (s & Hrun & Hr & Hd & Hk & Hst & Hc & Hs)].
  - exists (run w). rewrite Nat.add_0_r. split_and!; [done..| |done|done].
    intros [?|?]; simpl in *; congruence.
  - destruct (failed_attempt s _ Hr Hst Hdial) as (s' & Hrun' & Hst' & ->).
    eexists. split_and!; [by etransitivity|simpl; by rewrite Hc|simpl; lia|simpl; by rewrite Hk|done..|].
    rewrite seq_S, fmap_app, <- Hs. simpl. by rewrite Hk.
Qed.

(** C15: a connection is given up only for a reason.  While heartbeats are sent,
    the failure count is the number of failures since the last success and is
    below the limit; when [heartbeatLoop] has returned, either the client is
    being stopped or exactly [max 1 heartbeatMaxFail] heartbeats in a row
    have just failed. *)
Theorem heartbeat_threshold (w : world) (s : sys) :
  rtc step (run w) s → in_i64 (heartbeatMaxFail (client w)) →
  match runner s with
  | RBeat n =>
    ∃ k, n = Z.of_nat k ∧ last_failures k (beats s) ∧ (k = 0%nat ∨ n < heartbeatMaxFail (client w))
  | RCancel | RJoin | RLost =>
    stopping s ∨
    ∃ k, Z.of_nat k = Z.max 1 (heartbeatMaxFail (client w)) ∧ last_failures k (beats s)
  | _ => True
  end.
Proof.
  intros Hrun Hin.
  destruct (run_inv (λ c, in_i64 (heartbeatMaxFail c)) inv_beats w s) as [_ Hi];
    [|eauto using inv_beats_step|done..|].
  { intros c c' Hc. by rewrite (cfg_maxFail _ _ Hc). }
  unfold inv_beats in Hi. by rewrite (cfg_maxFail _ _ (run_cfg _ _ Hrun)) in Hi.
Qed.

(** The client never registers while a reading goroutine of an earlier
    connection is alive: whenever [Run] is outside the part between starting
    that goroutine and waiting for it, the goroutine has returned. *)
Theorem one_reader (w : world) (s : sys) :
  rtc step (run w) s →
  match runner s with
  | RTicker | RBeat _ | RCancel | RJoin | RCrashed => True
  | _ => rloop s = LDone
  end.
Proof.
  intros Hrun. destruct (run_inv (λ _, True) inv_reader w s); eauto using inv_reader_step. done.
Qed.

(** C17: [Stop] ends [Run].  After [Stop] or the end of the context, [Run] calls
    [DialContext] at most once more, in an attempt that had already begun.  Once [Stop]
    has returned while [Run] was not in that call, the client has no connection and gets
    none, [Run] does not dial again, and from every later state it can run to its
    [return] by its own steps and those of the reading goroutine, without waiting for the
    registry, the ticker or anybody else: a read that was blocked fails because
    [Stop] has closed the connection.  The end of the context alone is not enough: while
    the connection is open and the reading goroutine is in a read, [Run] waits for it. *)
Theorem stop_ends_run (s s1 s' : sys) :
  (stopping s → rtc step s s' →
   (dialed (net s') ≤ dialed (net s) + match runner s with RDial _ => 1 | _ => 0 end)%nat) ∧
  (step s s1 → stopper s = SClosing → stopper s1 = SIdle → stopCh (client (net s)) = true →
   0 < heartbeatInterval (client (net s)) → (∀ b, runner s ≠ RDial b) → rtc step s1 s' →
   conn (client (net s')) = None ∧ dialed (net s') = dialed (net s) ∧
   ∃ s'', rtc own s' s'' ∧ runner s'' = RDone) ∧
  (runner s = RJoin → rloop s = LRead → connected (net s) = true → ¬ own s s').
Proof.
  split_and!.
  - intros Hst Hrun. assert (Hd : (dials s' ≤ dials s)%nat).
    { induction Hrun as [|x y z Hs _ IH]; [done|].
      pose proof (stopped_dials _ _ Hst Hs). specialize (IH (step_stopping _ _ Hs Hst)). lia. }
    unfold dials in *. lia.
  - intros Hs E1 E2 Hst Hi Hr Hrun. destruct (stop_returns _ _ Hs E1 E2) as [Hcr ->].
    destruct (closeConn_none (net s)) as [Hc Hd].
    pose proof (ev_stop _ _ (closeConn_evolves (net s)) Hst) as Hst'.
    pose proof (cfg_interval _ _ (ev_cfg _ _ (closeConn_evolves (net s)))) as Hi'.
    assert (Hdet : detached (dialed (net s)) s').
    { eapply detached_run; [|exact Hrun]. split; simpl; [done..|lia|].
      destruct (runner s) eqn:E; try done. by destruct (Hr backoff). }
    split_and!; [apply Hdet|apply Hdet|by eapply detached_ends].
  - apply join_blocked.
Qed.

(** C22: a connection that [Register] replaces is lost: if the client has a
    connection when [DialContext] succeeds, then from then on, whatever
    happens, that connection is open and the client does not refer to it, so
    that neither [closeConn] nor [Stop] closes it. *)
Theorem replaced_connection_leaks (s s' : sys) (b : Z) (i : nat) (w : world) :
  wf (net s) → conn (client (net s)) = Some i →
  register_dial (net s) = (Ok tt, w) →
  rtc step (set_net w (set_runner (RSend b) s)) s' →
  conn (client (net s')) ≠ Some i ∧ ∃ c, conns (net s') !! i = Some c ∧ closed c = false.
Proof.
  intros Hwf Hi Hdial Hrun. apply (run_abandoned _ _ _ Hrun). simpl.
  destruct (Hwf i Hi) as (c & Hc & Hcl). apply lookup_lt_Some in Hc as Hlt.
  unfold register_dial in Hdial. destruct (dial (dialed (net s))) as [d|e]; [|done].
  injection Hdial as <-. split; simpl.
  - intros [= <-]. lia.
  - exists c. by rewrite lookup_app_l.
Qed.

(** With an interval that is not positive [time.NewTicker] panics: no heartbeat
    is ever sent, and the first successful registration ends the process. *)
Theorem nonpositive_interval (w : world) (s : sys) :
  rtc step (run w) s → heartbeatInterval (client w) ≤ 0 →
  beats s = [] ∧
  (runner s = RTicker → ∀ s', step s s' → runner s' = RTicker ∨ runner s' = RCrashed).
Proof.
  intros Hrun Hint.
  destruct (run_inv (λ c, heartbeatInterval c ≤ 0) inv_interval w s) as [Hp [Hb _]];
    [intros c c' [=] ?; lia|eauto using inv_interval_step|done..|].
  split; [done|]. intros Hr s' Hs. destruct Hs; simpl in *; auto; try congruence; lia.
Qed.
(** The stages of a registration that succeeds. *)
Lemma register_stages w c :
  handshake (register_msg (client w)) c = Ok tt →
  ∃ data c1 c2, Marshal (register_msg (client w)) = Ok data ∧
    register_send (fresh w c) = (Ok tt, fresh w c1) ∧ closed c1 = closed c ∧
    register_recv (fresh w c1) = (Ok tt, fresh w c2) ∧ closed c2 = closed c ∧
    sent (wr c2) = sent (wr c) ++ frame data.
Proof.
  unfold handshake. destruct (Marshal (register_msg (client w))) as [data|] eqn:Em; [|done]. simpl.
  destruct (WriteFrame data (wr c)) as [[[]|] w'] eqn:Ew; [|done]. simpl.
  destruct (ReadFrame (rd c)) as [[respData|] r'] eqn:Er; [|done]. simpl.
  destruct (Unmarshal respData) as [resp|] eqn:Eu; [|done]. simpl. intros Hok.
  exists data, {| rd := rd c; wr := w'; closed := closed c |}, {| rd := r'; wr := w'; closed := closed c |}.
  split; [done|]. split.
  { unfold register_send. change (register_msg (client (fresh w c))) with (register_msg (client w)).
    by rewrite Em, writeFrame_fresh, Ew. }
  split; [done|]. split.
  { unfold register_recv. rewrite readFrame_fresh. simpl. rewrite Er. simpl. rewrite Eu.
    by rewrite check_response_spec, Hok. }
  split; [done|]. simpl. pose proof (WriteFrame_sent data (wr c)) as Hs. rewrite Ew in Hs. by apply Hs.
Qed.

Lemma exec_cons c cs s s1 o : exec c s = Some s1 → exec_all cs s1 = o → exec_all (c :: cs) s = o.
Proof. unfold exec_all. simpl. by intros ->. Qed.

(** A stage of [Register] with the result [E]. *)
Ltac go_stage E :=
  unfold exec, exec_runner, stage; cbn [runner net set_runner set_net]; rewrite E; reflexivity.

(** From the answer of the registry to the end of [Run]. *)
Definition register_rest : list choice := [Go; Go; GoReader; Go; Go; Go; Go; Go].

(** The client when [Stop] has returned. *)
Definition stopped (w : world) : world := closeConn (on_client set_stopped w).

Lemma stopped_client w : client (stopped w) = set_conn None (set_stopped (client w)).
Proof.
  unfold stopped, closeConn. simpl. destruct (conn (client w)) eqn:E; [done|]. simpl.
  by destruct (client w); simpl in *; subst.
Qed.

Lemma stopped_dialed w : dialed (stopped w) = dialed w.
Proof. unfold stopped, closeConn. simpl. by destruct (conn (client w)). Qed.

Lemma stopped_conns w i c :
  conn (client w) = Some i → conns w !! i = Some c → conns (stopped w) !! i = Some (Close c).
Proof.
  intros Hc Hi. unfold stopped, closeConn. simpl. rewrite Hc. simpl. by rewrite list_lookup_alter_eq, Hi.
Qed.

#[local] Arguments stopped : simpl never.

(** C40: [Stop] during an attempt to connect does not deregister.  Take any state in
    which [Run] is about to call [DialContext], and let [Stop] be called and return: the
    connection that the client had is closed, and the client has none.  If the dial then
    succeeds, [Run] sends the registration and waits for the answer, for as long as the
    registry does not send one, although the client was stopped.  If the registry accepts
    it, [Run] goes on to its end, and leaves the client with the new connection, open and
    with the registration sent on it, which nobody closes or keeps alive. *)
Theorem stop_race (s : sys) (b : Z) (d : reader * option (nat * io_error)) :
  runner s = RDial b → stopper s = SIdle → rloop s = LDone → stopOnce (client (net s)) = false →
  0 < heartbeatInterval (client (net s)) → dial (dialed (net s)) = Ok d →
  handshake (register_msg (client (net s))) (opened d) = Ok tt →
  ∃ s1 s2 s',
    exec_all [GoStop; GoStop] s = Some s1 ∧
    (runner s1 = RDial b ∧ stopper s1 = SIdle ∧ stopCh (client (net s1)) = true ∧
     conn (client (net s1)) = None ∧
     ∀ i c, conn (client (net s)) = Some i → conns (net s) !! i = Some c →
       conns (net s1) !! i = Some (Close c)) ∧
    exec_all [Go; Go] s1 = Some s2 ∧ (runner s2 = RRecv b ∧ ∀ s3, ¬ own s2 s3) ∧
    exec_all register_rest s2 = Some s' ∧ runner s' = RDone ∧ rloop s' = LDone ∧ stopper s' = SIdle ∧
    ∃ c data, conn (client (net s')) = Some (length (conns (net s1))) ∧
      conns (net s') !! length (conns (net s1)) = Some c ∧ closed c = false ∧
      Marshal (register_msg (client (net s))) = Ok data ∧ sent (wr c) = frame data.
Proof.
  intros Hr Hst Hl Hso Hi Hd Hh. destruct s as [w pc rl sp ctx rc sl sk bt]. simpl in *. subst pc rl sp.
  assert (Hmsg : register_msg (client (stopped w)) = register_msg (client w)) by (by rewrite stopped_client).
  rewrite <- Hmsg in Hh. destruct (register_stages (stopped w) (opened d) Hh)
    as (data & c1 & c2 & Em & Es & Hc1 & Er & Hc2 & Hsent). rewrite Hmsg in Em.
  assert (Ed : register_dial (stopped w) = (Ok tt, fresh (stopped w) (opened d))).
  { unfold register_dial. by rewrite <- stopped_dialed in Hd; rewrite Hd. }
  assert (Hsc : stopCh (client (stopped w)) = true) by (by rewrite stopped_client).
  assert (Hi' : (0 <? heartbeatInterval (client (stopped w))) = true) by (rewrite stopped_client; simpl; lia).
  assert (Hcn : connected (fresh (stopped w) c1) = true).
  { unfold connected. simpl. rewrite list_lookup_middle by done. by rewrite Hc1. }
  eexists {| net := stopped w; runner := RDial b; rloop := LDone; stopper := SIdle; ctxDone := ctx;
    readerCancelled := rc; sleeps := sl; streak := sk; beats := bt |},
    {| net := fresh (stopped w) c1; runner := RRecv b; rloop := LDone; stopper := SIdle; ctxDone := ctx;
    readerCancelled := rc; sleeps := sl; streak := sk; beats := bt |}, _.
  split. { unfold exec_all. simpl. unfold exec_stop. simpl. by rewrite Hso. }
  split. { split_and!; [done..|simpl; by rewrite stopped_client|]. intros i c. apply stopped_conns. }
  split.
  { eapply exec_cons; [go_stage Ed|].
    eapply exec_cons; [go_stage Es|]. done. }
  split. { split; [done|]. intros s3. by apply (recv_blocked _ s3 b). }
  split.
  { unfold register_rest.
    eapply exec_cons; [go_stage Er|].
    eapply exec_cons; [reflexivity|].
    eapply exec_cons; [unfold exec, exec_reader, stoppingb; simpl; rewrite Hsc, orb_true_r; reflexivity|].
    eapply exec_cons; [unfold exec, exec_runner; simpl; rewrite Hi'; reflexivity|].
    eapply exec_cons; [unfold exec, exec_runner, stoppingb; simpl; rewrite Hsc, orb_true_r; reflexivity|].
    eapply exec_cons; [reflexivity|]. eapply exec_cons; [reflexivity|].
    eapply exec_cons; [unfold exec, exec_runner, stoppingb; simpl; rewrite Hsc, orb_true_r; reflexivity|].
    reflexivity. }
  simpl. split_and!; [done..|]. exists c2, data. rewrite list_lookup_middle by done.
  split_and!; [done|done|by rewrite Hc2|done|done].
Qed.
End client.

(** ** Concrete runs *)

Section demo.
Import Wire.

Definition demo_client (interval : Z) : Client :=
  NewClient "registry:7000" 9000 "svc" interval 3 Config.Second (30 * Config.Second).

Definition demo_world (interval : Z) : world :=
  {| client := demo_client interval; conns := []; dialed := 0 |}.

(** A registry that cannot be reached, and one that accepts every registration. *)
Definition dial_down (n : nat) : result string (reader * option (nat * io_error)) :=
  Err "connection refused".

Definition accepted_msg : bytes :=
  match Marshal {| payload := Some (PResponse {| Success := true; RespMessage := "ok" |}) |} with
  | Ok b => b
  | Err _ => []
  end.

Definition dial_up (n : nat) : result string (reader * option (nat * io_error)) :=
  Ok (Reader [frame accepted_msg] EOF, None).

Definition demo_run dial (interval : Z) (cs : list choice) : sys :=
  match exec_all dial cs (run (demo_world interval)) with
  | Some s => s
  | None => run (demo_world interval)
  end.

Lemma demo_run_reachable dial interval cs s :
  exec_all dial cs (run (demo_world interval)) = Some s →
  rtc (step dial) (run (demo_world interval)) (demo_run dial interval cs).
Proof. intros H. unfold demo_run. rewrite H. by apply (run_exec_all_sound _ cs). Qed.

Definition registered : list choice := [Go; Go; Go; Go; Go; Go].


(** The sixth delay of the default configuration is 32 seconds, the limit is 30. *)
Lemma unreachable_registry_witness :
  ∃ s, rtc (step dial_down) (run (demo_world 5)) s ∧
       (5%nat, 32 * Config.Second) ∈ sleeps s ∧
       30 * Config.Second = reconnectMaxBackoff (demo_client 5).
Proof.
  destruct (unreachable_registry dial_down (demo_world 5) 6) as (s & Hs & _ & _ & Hl).
  - intros n. by eexists.
  - reflexivity.
  - exists s. split_and!; [exact Hs| |reflexivity]. rewrite Hl. vm_compute.
    do 5 right. left.
Defined.

Lemma heartbeat_threshold_witness :
  let s := demo_run dial_up 5 (registered ++ [Network 0 0 EOF; Tick; Tick; Tick]) in
  runner s = RCancel ∧ (stopping s ∨ ∃ k, Z.of_nat k = 3 ∧ last_failures k (beats s)).
Proof.
  intros s. split; [vm_compute; reflexivity|].
  apply (heartbeat_threshold dial_up (demo_world 5) s).
  - eapply demo_run_reachable. vm_compute. reflexivity.
  - vm_compute. split; discriminate || reflexivity.
Defined.

Lemma one_reader_witness :
  rloop (demo_run dial_up 5 (registered ++ [Network 0 0 EOF; Tick; Tick; Tick; Go; GoReader; Go])) = LDone.
Proof.
  apply (one_reader dial_up (demo_world 5)
    (demo_run dial_up 5 (registered ++ [Network 0 0 EOF; Tick; Tick; Tick; Go; GoReader; Go]))).
  eapply demo_run_reachable. vm_compute. reflexivity.
Defined.

(** [Stop] while the reading goroutine is in a read. *)
Lemma stop_ends_run_witness :
  let s := demo_run dial_up 5 (registered ++ [GoReader; GoStop]) in
  let s1 := exec_stop s in
  runner s = RBeat 0 ∧ rloop s = LRead ∧ connected (net s) = true ∧
  ∃ s'', rtc (own dial_up) s1 s'' ∧ runner s'' = RDone.
Proof.
  intros s s1. do 3 (split; [vm_compute; reflexivity|]).
  apply (stop_ends_run dial_up s s1 s1).
  - apply (run_exec_sound _ GoStop). vm_compute. reflexivity.
  - vm_compute. reflexivity.
  - vm_compute. reflexivity.
  - vm_compute. reflexivity.
  - vm_compute. reflexivity.
  - intros b. vm_compute. discriminate.
  - reflexivity.
Defined.

(** [Server.Start] registers and starts [Run], which registers again: here the
    world after the first registration. *)
Definition started_world : world := (Register dial_up (demo_world 5)).2.

Lemma replaced_connection_leaks_witness :
  let s := set_runner (RDial 1) (run started_world) in
  let w := (register_dial dial_up (net s)).2 in
  ∃ c, conns w !! 0%nat = Some c ∧ closed c = false.
Proof.
  intros s w. apply (replaced_connection_leaks dial_up s (set_net w (set_runner (RSend 1) s)) 1 0 w).
  - intros i [= <-]. eexists. split; vm_compute; reflexivity.
  - reflexivity.
  - reflexivity.
  - reflexivity.
Defined.

Lemma nonpositive_interval_witness :
  let s := demo_run dial_up 0 (take 5 registered) in
  beats s = [] ∧ runner s = RTicker ∧
  (∀ s', step dial_up s s' → runner s' = RTicker ∨ runner s' = RCrashed).
Proof.
  intros s. assert (Hr : runner s = RTicker) by (vm_compute; reflexivity).
  destruct (nonpositive_interval dial_up (demo_world 0) s) as [Hb Hs].
  - eapply demo_run_reachable. vm_compute. reflexivity.
  - vm_compute. discriminate.
  - split_and!; [exact Hb|exact Hr|exact (Hs Hr)].
Defined.

(** [Stop] while [Run] dials for the second time: the connection of [Server.Start] is
    closed, and the new one is left open. *)
Lemma stop_race_witness :
  let s := set_runner (RDial Config.Second) (run started_world) in
  ∃ s1, exec_all dial_up [GoStop; GoStop] s = Some s1 ∧
    closed <$> conns (net s1) !! 0%nat = Some true ∧
    ∃ s' c, exec_all dial_up ([Go; Go] ++ register_rest) s1 = Some s' ∧ runner s' = RDone ∧
      conn (client (net s')) = Some 1%nat ∧ conns (net s') !! 1%nat = Some c ∧ closed c = false.
Proof.
  intros s.
  destruct (stop_race dial_up s Config.Second (Reader [frame accepted_msg] EOF, None))
    as (s1 & s2 & s' & H1 & (_ & _ & _ & _ & Hold) & H2 & _ & H3 & Hr & _ & _ & c & data & Hc & Hl & Ho & _).
  - reflexivity.
  - reflexivity.
  - reflexivity.
  - vm_compute. reflexivity.
  - vm_compute. reflexivity.
  - reflexivity.
  - vm_compute. reflexivity.
  - assert (Hlen : length (conns (net s1)) = 1%nat)
      by (vm_compute in H1; injection H1 as <-; reflexivity).
    rewrite Hlen in Hc, Hl. exists s1. split; [exact H1|]. split.
    { destruct (conns (net s) !! 0%nat) as [c0|] eqn:E0; [|vm_compute in E0; discriminate E0].
      rewrite (Hold 0%nat c0); [reflexivity|vm_compute; reflexivity|reflexivity || exact E0]. }
    exists s', c. split_and!; [|exact Hr|exact Hc|exact Hl|exact Ho].
    unfold exec_all in *. rewrite foldl_app, H2. exact H3.
Defined.
End demo.
End RegistryClient.
