(* ===== verification/Log.v ===== *)
(** * Log lines: [src/server/internal/log/log.go]

    [CompactHandler] prints a record of [log/slog] as one line: time, level and
    message in columns, then the attributes of the logger and of the record.
    The text of an attribute's value is what package [fmt] prints for it. *)

From S2P Require Import Prelude Codec GoLib.

Module Log.
Import Io.

(** ** What the handler uses of [log/slog], [time] and [fmt] *)

Definition LevelDebug : Z := -4.
Definition LevelInfo : Z := 0.
Definition LevelWarn : Z := 4.
Definition LevelError : Z := 8.

(** [Level.String]: the name of the level below, and the distance to it. *)
Definition level_string (l : Z) : string :=
  let str (base : string) (val : Z) :=
    if val =? 0 then base
    else base +:+ (if 0 <? val then "+" else "") +:+ Strconv.fmt_d val in
  if l <? LevelInfo then str "DEBUG" (l - LevelDebug)
  else if l <? LevelWarn then str "INFO" (l - LevelInfo)
  else if l <? LevelError then str "WARN" (l - LevelWarn)
  else str "ERROR" (l - LevelError).

(** [Time.Format("15:04:05")] of a time of day. *)
Definition two_digits (n : Z) : string :=
  (if n <? 10 then "0" else "") +:+ Strconv.fmt_d n.

Record clock : Type := { hour : Z; minute : Z; second : Z }.

Definition format_time (t : clock) : string :=
  two_digits (hour t) +:+ ":" +:+ two_digits (minute t) +:+ ":" +:+ two_digits (second t).

Fixpoint spaces (n : nat) : string :=
  match n with O => "" | S n => String " " (spaces n) end.

(** [%-ns]: padded on the right to [n] runes. *)
Definition pad (n : nat) (s : string) : string := s +:+ spaces (n - Utf8.rune_count s).

Record Attr : Type := { Key : string; Value : string }.

Record Record_ : Type := { Time : clock; Level : Z; Message : string; Attrs : list Attr }.

(** ** The handler *)

Record CompactHandler : Type := { w : writer; attrs : list Attr }.

Definition NewCompactHandler (w : writer) : CompactHandler := {| w := w; attrs := [] |}.

Definition Enabled (h : CompactHandler) (level : Z) : bool := LevelDebug <=? level.

Definition print_attr (buf : string) (a : Attr) : string :=
  buf +:+ " " +:+ Key a +:+ "=" +:+ Value a.

(** The contents of the buffer when it is written. *)
Definition line (h : CompactHandler) (r : Record_) : string :=
  let buf := format_time (Time r) +:+ " " +:+ pad 5 (level_string (Level r)) +:+ " "
             +:+ pad 28 (Message r) in
  let buf := foldl print_attr buf (attrs h) in
  let buf := foldl print_attr buf (Attrs r) in
  buf +:+ String "010"%char "".

Definition Handle (h : CompactHandler) (r : Record_) : result io_error unit * CompactHandler :=
  let '(err, w') := Write (str_bytes (line h r)) (w h) in
  (err, {| w := w'; attrs := attrs h |}).

(** [make] and the two calls of [copy]; the writer is shared. *)
Definition WithAttrs (h : CompactHandler) (as_ : list Attr) : CompactHandler :=
  {| w := w h; attrs := attrs h ++ as_ |}.

(** [New], with the handler of [slog.Default()]: [With] passes the attribute to
    [WithAttrs]. *)
Definition New (default : CompactHandler) (component : string) : CompactHandler :=
  WithAttrs default [{| Key := "component"; Value := component |}].

Definition WithGroup (h : CompactHandler) (name : string) : CompactHandler := h.

(** ** Lemmas *)

(** The characters of a string that are a line feed. *)
Fixpoint newlines (s : string) : nat :=
  match s with
  | EmptyString => 0
  | String c s => (if ascii_dec c "010"%char then 1 else 0) + newlines s
  end.

Lemma append_cons c a b : String c a +:+ b = String c (a +:+ b).
Proof. done. Qed.

Lemma newlines_app a b : newlines (a +:+ b) = (newlines a + newlines b)%nat.
Proof. induction a as [|c a IH]; [done|]. rewrite append_cons. simpl. rewrite IH. lia. Qed.

Lemma newlines_spaces n : newlines (spaces n) = 0%nat.
Proof. by induction n. Qed.

Lemma app_assoc_str a b c : (a +:+ b) +:+ c = a +:+ (b +:+ c).
Proof. induction a as [|x a IH]; [done|]. by rewrite !append_cons, IH. Qed.

(** The attributes of a line. *)
Definition attrs_text (l : list Attr) : string := foldl print_attr "" l.

Lemma foldl_print buf l : foldl print_attr buf l = buf +:+ attrs_text l.
Proof.
  unfold attrs_text. revert buf. induction l as [|a l IH]; intros buf; simpl.
  - induction buf as [|c buf IHb]; [done|]. by rewrite append_cons, <- IHb.
  - rewrite IH, (IH (print_attr "" a)). unfold print_attr. simpl. by rewrite app_assoc_str.
Qed.

Definition digit (n : Z) : ascii := ascii_of_N (Z.to_N (48 + n)).

Lemma fmt_d_small n : 0 ≤ n < 60 →
  two_digits n = String (digit (n / 10)) (String (digit (n mod 10)) "").
Proof.
  intros Hn. assert (Hall : Forall (λ k, two_digits (Z.of_nat k) =
    String (digit (Z.of_nat k / 10)) (String (digit (Z.of_nat k mod 10)) "")) (seq 0 60))
    by (repeat constructor; vm_compute; reflexivity).
  rewrite Forall_forall in Hall. specialize (Hall (Z.to_nat n)).
  rewrite Z2Nat.id in Hall by lia. apply Hall, elem_of_seq. lia.
Qed.

(** The line feeds of a list of attributes. *)
Definition attr_newlines (l : list Attr) : nat :=
  sum_list_with (λ a, newlines (Key a) + newlines (Value a))%nat l.

Lemma newlines_attrs l : newlines (attrs_text l) = attr_newlines l.
Proof.
  induction l as [|a l IH]; [done|].
  change (attrs_text (a :: l)) with (foldl print_attr (print_attr "" a) l).
  rewrite foldl_print, newlines_app, IH. unfold print_attr. rewrite !newlines_app.
  change (attr_newlines (a :: l)) with (newlines (Key a) + newlines (Value a) + attr_newlines l)%nat.
  simpl. lia.
Qed.

Lemma line_text h r :
  line h r = format_time (Time r) +:+ " " +:+ pad 5 (level_string (Level r)) +:+ " "
             +:+ pad 28 (Message r) +:+ attrs_text (attrs h ++ Attrs r) +:+ String "010"%char "".
Proof.
  unfold line. rewrite !foldl_print.
  replace (attrs_text (attrs h ++ Attrs r)) with (attrs_text (attrs h) +:+ attrs_text (Attrs r)).
  - by rewrite !app_assoc_str.
  - rewrite <- foldl_print. unfold attrs_text. by rewrite foldl_app.
Qed.

Definition clock_ok (t : clock) : Prop :=
  0 ≤ hour t < 24 ∧ 0 ≤ minute t < 60 ∧ 0 ≤ second t < 60.

Lemma newlines_time t : clock_ok t → newlines (format_time t) = 0%nat.
Proof.
  intros (H1 & H2 & H3). unfold format_time. rewrite !fmt_d_small by lia.
  assert (Hd : ∀ n, 0 ≤ n < 10 → newlines (String (digit n) "") = 0%nat).
  { intros n Hn. assert (Hall : Forall (λ k, newlines (String (digit (Z.of_nat k)) "") = 0%nat) (seq 0 10))
      by (repeat constructor).
    rewrite Forall_forall in Hall. specialize (Hall (Z.to_nat n)).
    rewrite Z2Nat.id in Hall by lia. apply Hall, elem_of_seq. lia. }
  assert (Hdd : ∀ n, 0 ≤ n < 60 → newlines (String (digit (n / 10)) (String (digit (n mod 10)) "")) = 0%nat).
  { intros n Hn. pose proof (Hd (n / 10) ltac:(Z.div_mod_to_equations; lia)).
    pose proof (Hd (n mod 10) ltac:(Z.div_mod_to_equations; lia)). simpl in *. lia. }
  rewrite !newlines_app, !Hdd by lia. done.
Qed.

(** ** Properties *)

(** A record on one of the four levels, logged through loggers derived with
    [With] from the handler, is written in one write as time, level, message,
    the attributes of the loggers from the outermost on and the record's own,
    in this order; the line feeds of that text are the final one and
    those inside the message and the attributes, so that a record is one line
    exactly when these contain none. *)
Theorem Handle_line (h : CompactHandler) (withs : list (list Attr)) (r : Record_) :
  clock_ok (Time r) → Level r ∈ [LevelDebug; LevelInfo; LevelWarn; LevelError] →
  fails (w h) = None →
  let h' := foldl WithAttrs h withs in
  let all := attrs h ++ mjoin withs ++ Attrs r in
  let text := format_time (Time r) +:+ " " +:+ pad 5 (level_string (Level r)) +:+ " "
              +:+ pad 28 (Message r) +:+ attrs_text all +:+ String "010"%char "" in
  (Handle h' r).1 = Ok tt ∧
  sent (w (Handle h' r).2) = sent (w h) ++ str_bytes text ∧
  newlines text = (1 + newlines (Message r) + attr_newlines all)%nat.
Proof.
  intros Ht Hl Hw h' all text.
  assert (Hh : w h' = w h ∧ attrs h' = attrs h ++ mjoin withs).
  { subst h' all text. revert h Hw. induction withs as [|a l IH]; intros h Hw; simpl;
      [by rewrite app_nil_r|]. destruct (IH (WithAttrs h a)) as [-> ->]; [done|].
    simpl. by rewrite <- app_assoc. }
  destruct Hh as [Hwh Hah].
  assert (Hline : line h' r = text).
  { rewrite line_text, Hah. subst text all. by rewrite <- app_assoc. }
  unfold Handle. rewrite Hline, Hwh. unfold Write. rewrite Hw. split_and!; [done..|].
  unfold text, pad. rewrite !newlines_app, newlines_time, !newlines_spaces, newlines_attrs by done.
  assert (newlines (level_string (Level r)) = 0%nat) as ->.
  { repeat (apply elem_of_cons in Hl as [->|Hl]; [reflexivity|]). by apply not_elem_of_nil in Hl. }
  simpl. lia.
Qed.

Lemma Handle_line_witness :
  sent (w (Handle (foldl WithAttrs (NewCompactHandler (Writer [] None)) [[{| Key := "svc"; Value := "a" |}]])
     {| Time := {| hour := 9; minute := 5; second := 0 |}; Level := LevelInfo; Message := "started";
        Attrs := [{| Key := "addr"; Value := ":80" |}] |}).2)
  = str_bytes ("09:05:00 INFO  started                      svc=a addr=:80"
               +:+ String "010"%char "").
Proof.
  refine (proj1 (proj2 (Handle_line (NewCompactHandler (Writer [] None)) [[{| Key := "svc"; Value := "a" |}]]
    {| Time := {| hour := 9; minute := 5; second := 0 |}; Level := LevelInfo; Message := "started";
       Attrs := [{| Key := "addr"; Value := ":80" |}] |} _ _ _))).
  - unfold clock_ok. simpl. lia.
  - right. left.
  - reflexivity.
Defined.

(** A component's logger adds its name to every line. *)
Example New_line :
  line (New (NewCompactHandler (Writer [] None)) "registry")
    {| Time := {| hour := 9; minute := 5; second := 0 |}; Level := LevelWarn; Message := "retry";
       Attrs := [{| Key := "delay"; Value := "2s" |}] |}
  = "09:05:00 WARN  retry                        component=registry delay=2s" +:+ String "010"%char "".
Proof. vm_compute. reflexivity. Qed.

End Log.
