(* ===== verification/Regexp.v ===== *)
(** * Regular expressions: the part of Go's [regexp] that the generators use

    A backtracking matcher with the preference order of [regexp] (leftmost match;
    the first alternative, greedy or lazy repetition first).  Strings are byte
    strings: the expressions of the generators test ASCII characters only, and
    a class that is negated takes the bytes of a longer rune one by one. *)

From S2P Require Import Prelude.

Module Regexp.

Inductive re : Type :=
| Eps
| Cls (p : ascii → bool)
| Cat (a b : re)
| Alt (a b : re)
| Star (greedy : bool) (a : re)
| Cap (n : nat) (a : re)
| Bol.

Definition chr (c : ascii) : re := Cls (λ x, bool_decide (x = c)).
Definition plus (a : re) : re := Cat a (Star true a).
Definition star (a : re) : re := Star true a.

Fixpoint lit (s : string) : re :=
  match s with EmptyString => Eps | String c s => Cat (chr c) (lit s) end.

(** [\s] and [\w]. *)
Definition in_range (lo hi : N) (c : ascii) : bool :=
  (lo <=? N_of_ascii c)%N && (N_of_ascii c <=? hi)%N.
Definition is_space (c : ascii) : bool :=
  in_range 9 10 c || in_range 12 13 c || in_range 32 32 c.
Definition is_word (c : ascii) : bool :=
  in_range 48 57 c || in_range 65 90 c || in_range 95 95 c || in_range 97 122 c.

(** The position in a text: the character before it, what follows, and the
    groups recorded so far, the latest first. *)
Record pos : Type := { prev : option ascii; rest : string; caps : list (nat * string) }.

(** The part of [s] before its suffix [t]. *)
Definition before (s t : string) : string := String.substring 0 (String.length s - String.length t) s.

Definition newline : ascii := "010".
Definition line_start (p : pos) : bool :=
  match prev p with None => true | Some c => bool_decide (c = newline) end.

(** A repetition of [body]; [k] is what must match afterwards.  A round that takes
    nothing is not repeated, so that [n] rounds for [n] characters are enough. *)
Fixpoint loop {B} (body : pos → (pos → option B) → option B) (greedy : bool)
    (k : pos → option B) (n : nat) (p : pos) : option B :=
  match n with
  | O => k p
  | S n =>
    let more := body p (λ p',
      if (String.length (rest p') <? String.length (rest p))%nat
      then loop body greedy k n p' else None) in
    if greedy then match more with Some x => Some x | None => k p end
    else match k p with Some x => Some x | None => more end
  end.

Fixpoint exec {B} (r : re) (p : pos) (k : pos → option B) {struct r} : option B :=
  match r with
  | Eps => k p
  | Cls f =>
    match rest p with
    | String c t => if f c then k {| prev := Some c; rest := t; caps := caps p |} else None
    | EmptyString => None
    end
  | Cat a b => exec a p (λ p, exec b p k)
  | Alt a b => match exec a p k with Some x => Some x | None => exec b p k end
  | Star greedy a => loop (λ p k, exec a p k) greedy k (S (String.length (rest p))) p
  | Cap n a =>
    exec a p (λ p', k {| prev := prev p'; rest := rest p';
                         caps := (n, before (rest p) (rest p')) :: caps p' |})
  | Bol => if line_start p then k p else None
  end.

(** ** Searching *)

(** The leftmost match: the text before it and the position after it. *)
Fixpoint find (r : re) (pr : option ascii) (s : string) : option (string * pos) :=
  match exec r {| prev := pr; rest := s; caps := [] |} Some with
  | Some p => Some ("", p)
  | None =>
    match s with
    | EmptyString => None
    | String c t => (λ '(pre, p), (String c pre, p)) <$> find r (Some c) t
    end
  end.

(** The text of a group, empty when it took no part. *)
Fixpoint lookup_group (n : nat) (l : list (nat * string)) : string :=
  match l with
  | [] => ""
  | (m, t) :: l => if (m =? n)%nat then t else lookup_group n l
  end.
Definition group (n : nat) (p : pos) : string := lookup_group n (caps p).

(** [FindStringSubmatch] *)
Definition find_submatch (r : re) (s : string) : option pos := snd <$> find r None s.

(** [FindAllStringSubmatch(s, -1)] for an expression whose matches are not
    empty: each search starts where the last match ended. *)
Fixpoint find_all_from (n : nat) (r : re) (pr : option ascii) (s : string) : list pos :=
  match n with
  | O => []
  | S n =>
    match find r pr s with
    | None => []
    | Some (_, p) => p :: find_all_from n r (prev p) (rest p)
    end
  end.

Definition find_all (r : re) (s : string) : list pos := find_all_from (String.length s) r None s.

(** [ReplaceAllString(s, "")], for such an expression. *)
Fixpoint delete_all_from (n : nat) (r : re) (pr : option ascii) (s : string) : string :=
  match n with
  | O => s
  | S n =>
    match find r pr s with
    | None => s
    | Some (pre, p) => pre +:+ delete_all_from n r (prev p) (rest p)
    end
  end.

Definition delete_all (r : re) (s : string) : string := delete_all_from (String.length s) r None s.

(** ** What a match means *)

(** The texts an expression stands for. *)
Inductive lang : re → string → Prop :=
| lang_Eps : lang Eps ""
| lang_Cls f c : f c = true → lang (Cls f) (String c "")
| lang_Cat a b s t : lang a s → lang b t → lang (Cat a b) (s +:+ t)
| lang_Alt_l a b s : lang a s → lang (Alt a b) s
| lang_Alt_r a b s : lang b s → lang (Alt a b) s
| lang_Star_nil g a : lang (Star g a) ""
| lang_Star_cons g a s t : lang a s → lang (Star g a) t → lang (Star g a) (s +:+ t)
| lang_Cap n a s : lang a s → lang (Cap n a) s
| lang_Bol : lang Bol "".

(** The groups of an expression. *)
Fixpoint groups (r : re) : list (nat * re) :=
  match r with
  | Eps | Cls _ | Bol => []
  | Cat a b | Alt a b => groups a ++ groups b
  | Star _ a => groups a
  | Cap n a => (n, a) :: groups a
  end.

(** The text of a recorded group is one its expression stands for. *)
Definition cap_ok (gs : list (nat * re)) (c : nat * string) : Prop :=
  ∃ a, (c.1, a) ∈ gs ∧ lang a c.2.

(** The groups that every match records. *)
Fixpoint mandatory (r : re) : list nat :=
  match r with
  | Eps | Cls _ | Bol | Alt _ _ | Star _ _ => []
  | Cat a b => mandatory a ++ mandatory b
  | Cap n a => n :: mandatory a
  end.

(** [p'] is reached from [p] over the text [t], recording groups of [gs] and
    among them those of [ms]. *)
Definition reaches (gs : list (nat * re)) (ms : list nat) (p : pos) (t : string) (p' : pos) : Prop :=
  rest p = t +:+ rest p' ∧
  ∃ new, caps p' = new ++ caps p ∧ Forall (cap_ok gs) new ∧ (∀ n, n ∈ ms → n ∈ new.*1).

Lemma reaches_refl gs p : reaches gs [] p "" p.
Proof. split; [done|]. exists []. split_and!; [done|done|]. set_solver. Qed.

Lemma str_app_assoc a b c : (a +:+ b) +:+ c = a +:+ (b +:+ c).
Proof.
  induction a as [|x a IH]; [done|].
  change (String x ((a +:+ b) +:+ c) = String x (a +:+ (b +:+ c))). by rewrite IH.
Qed.

Lemma reaches_trans gs ms ms' p t q u q' :
  reaches gs ms p t q → reaches gs ms' q u q' → reaches gs (ms ++ ms') p (t +:+ u) q'.
Proof.
  intros [H1 (n1 & C1 & F1 & M1)] [H2 (n2 & C2 & F2 & M2)].
  split; [by rewrite H1, H2, str_app_assoc|].
  exists (n2 ++ n1). rewrite C2, C1, app_assoc. split_and!; [done|by apply Forall_app|].
  intros n. rewrite fmap_app. set_solver.
Qed.

Lemma reaches_mono gs gs' ms ms' p t q :
  (∀ g, g ∈ gs → g ∈ gs') → (∀ n, n ∈ ms' → n ∈ ms) →
  reaches gs ms p t q → reaches gs' ms' p t q.
Proof.
  intros Hs Hm [H1 (n & C & F & M)]. split; [done|]. exists n. split_and!; [done| |auto].
  eapply Forall_impl; [exact F|]. intros c (a & Ha & Hl). exists a. auto.
Qed.

Lemma str_length_app a b : String.length (a +:+ b) = (String.length a + String.length b)%nat.
Proof. induction a as [|x a IH]; [done|]. change (S (String.length (a +:+ b)) = S (String.length a + String.length b)). by rewrite IH. Qed.

Lemma substring_prefix a b : String.substring 0 (String.length a) (a +:+ b) = a.
Proof.
  induction a as [|x a IH]; [by destruct b|].
  change (String x (String.substring 0 (String.length a) (a +:+ b)) = String x a). by rewrite IH.
Qed.

Lemma before_app t s : before (t +:+ s) s = t.
Proof.
  unfold before. rewrite str_length_app.
  replace (String.length t + String.length s - String.length s)%nat with (String.length t) by lia.
  apply substring_prefix.
Qed.

Definition sound_body {B} (gs : list (nat * re)) (ms : list nat) (a : re)
    (body : pos → (pos → option B) → option B) : Prop :=
  ∀ p k x, body p k = Some x → ∃ t p', lang a t ∧ reaches gs ms p t p' ∧ k p' = Some x.

Lemma loop_sound {B} gs ms a (body : pos → (pos → option B) → option B) g k n :
  sound_body gs ms a body →
  ∀ p x, loop body g k n p = Some x →
  ∃ t p', lang (Star g a) t ∧ reaches gs [] p t p' ∧ k p' = Some x.
Proof.
  intros Hb. induction n as [|n IH]; intros p x H; simpl in H.
  - exists "", p. eauto using lang, reaches_refl.
  - assert (Hmore : ∀ x, body p (λ p', if (String.length (rest p') <? String.length (rest p))%nat
        then loop body g k n p' else None) = Some x →
        ∃ t p', lang (Star g a) t ∧ reaches gs [] p t p' ∧ k p' = Some x).
    { intros y Hy. apply Hb in Hy as (t & q & Hl & Hr & Hq). case_match; [|done].
      apply IH in Hq as (u & q' & Hu & Hr' & Hk). exists (t +:+ u), q'.
      split_and!; [by constructor| |done].
      apply (reaches_mono gs gs (ms ++ []) []); [done|set_solver|]. by eapply reaches_trans. }
    destruct g; case_match; simplify_eq; eauto using lang, reaches_refl.
Qed.

Lemma exec_lang {B} r : sound_body (B := B) (groups r) (mandatory r) r (exec r).
Proof.
  induction r as [|f|a IHa b IHb|a IHa b IHb|g a IHa|n a IHa|]; intros p k x H; simpl in H.
  - exists "", p. eauto using lang, reaches_refl.
  - destruct (rest p) as [|c t] eqn:E; [done|]. destruct (f c) eqn:Ef; [|done].
    eexists (String c ""), _. split_and!; [by constructor| |exact H]. split; [done|].
    exists []. split_and!; [done|done|set_solver].
  - apply IHa in H as (t & q & Hl & Hr & H). apply IHb in H as (u & q' & Hl' & Hr' & H).
    exists (t +:+ u), q'. split_and!; [by constructor| |done]. simpl.
    eapply reaches_trans; (eapply reaches_mono; [| |eassumption]); set_solver.
  - destruct (exec a p k) eqn:E; simplify_eq.
    + apply IHa in E as (t & q & Hl & Hr & H). exists t, q.
      split_and!; [by constructor| |done]. eapply reaches_mono; [| |eassumption]; set_solver.
    + apply IHb in H as (t & q & Hl & Hr & H). exists t, q.
      split_and!; [by constructor| |done]. eapply reaches_mono; [| |eassumption]; set_solver.
  - exact (loop_sound _ _ _ _ _ _ (S (String.length (rest p))) IHa p x H).
  - apply IHa in H as (t & q & Hl & [Hr (new & Hc & Hf & Hm)] & H). eexists t, _.
    split_and!; [by constructor| |exact H]. split; [done|]. simpl.
    exists ((n, before (rest p) (rest q)) :: new). rewrite Hc. split_and!; [done| |set_solver].
    constructor.
    + exists a. simpl. rewrite Hr, before_app. split; [left|done].
    + eapply Forall_impl; [exact Hf|]. intros c (b & Hb & Hlb). exists b. split; [by right|done].
  - destruct (line_start p); [|done]. exists "", p. eauto using lang, reaches_refl.
Qed.

(** A group of a match has the text its expression stands for. *)
Definition match_ok (r : re) (p : pos) : Prop :=
  ∀ n a, n ∈ mandatory r → (∀ b, (n, b) ∈ groups r → b = a) → lang a (group n p).

Lemma lookup_group_ok gs n l :
  Forall (cap_ok gs) l → n ∈ l.*1 → ∃ a, (n, a) ∈ gs ∧ lang a (lookup_group n l).
Proof.
  induction 1 as [|[m t] l Hc _ IH]; [set_solver|]. simpl. intros Hn.
  destruct (Nat.eqb_spec m n) as [->|Hne]; [exact Hc|]. apply IH. set_solver.
Qed.

Lemma find_ok r s : ∀ pr pre p, find r pr s = Some (pre, p) →
  match_ok r p ∧ ∃ t, s = pre +:+ (t +:+ rest p) ∧ lang r t.
Proof.
  assert (Hexec : ∀ pr s p, exec r {| prev := pr; rest := s; caps := [] |} Some = Some p →
    match_ok r p ∧ ∃ t, s = t +:+ rest p ∧ lang r t).
  { intros pr u p Hp. apply exec_lang in Hp as (t & q & Hl & [Hr (new & Hc & Hf & Hm)] & [= ->]).
    split; [|by exists t]. intros n a Hn Hu. simpl in Hc. rewrite app_nil_r in Hc. subst new.
    destruct (lookup_group_ok _ n _ Hf (Hm n Hn)) as (b & Hb & Hlb). by rewrite (Hu b Hb) in Hlb. }
  induction s as [|c s IH]; intros pr pre p H; cbn [find] in H;
    destruct (exec r _ Some) as [q|] eqn:E; simplify_eq/=.
  - destruct (Hexec _ _ _ E) as (? & t & ? & ?). split; [done|]. by exists t.
  - destruct (Hexec _ _ _ E) as (? & t & ? & ?). split; [done|]. by exists t.
  - destruct (find r (Some c) s) as [[pre' q]|] eqn:Ef; simplify_eq/=.
    destruct (IH _ _ _ Ef) as (? & t & -> & ?). split; [done|]. by exists t.
Qed.

Lemma find_all_ok r s : Forall (match_ok r) (find_all r s).
Proof.
  unfold find_all. generalize (String.length s) at 1. intros n. generalize (None : option ascii).
  revert s. induction n as [|n IH]; intros s pr; [constructor|]. simpl.
  destruct (find r pr s) as [[pre p]|] eqn:E; [|constructor].
  constructor; [by apply find_ok in E as [? _]|apply IH].
Qed.

Lemma lang_Star_class g f s : lang (Star g (Cls f)) s →
  Forall (λ c, f c = true) (String.list_ascii_of_string s).
Proof.
  intros H. remember (Star g (Cls f)) as r eqn:Hr. revert Hr.
  induction H as [| | | | | |g' a s t Ha _ _ IH| |]; intros Hr; simplify_eq/=; [constructor|].
  inversion Ha; subst. simpl. constructor; [done|by apply IH].
Qed.

Lemma lang_plus_class f s : lang (plus (Cls f)) s →
  s ≠ "" ∧ Forall (λ c, f c = true) (String.list_ascii_of_string s).
Proof.
  intros H. inversion H as [| |a b u t Hu Ht| | | | | |]; subst. inversion Hu; subst.
  split; [done|]. simpl. constructor; [done|]. by eapply lang_Star_class.
Qed.

(** ** Running an expression on a known text *)

(** The character before the position after [w]. *)
Fixpoint after (pr : option ascii) (w : string) : option ascii :=
  match w with EmptyString => pr | String c w => after (Some c) w end.

(** The text does not start with a character of the class. *)
Definition stops (f : ascii → bool) (t : string) : Prop :=
  match t with EmptyString => True | String c _ => f c = false end.

Definition all_chars (f : ascii → bool) (w : string) : Prop :=
  Forall (λ c, f c = true) (String.list_ascii_of_string w).

Lemma exec_lit {B} w : ∀ pr t cs (k : pos → option B),
  exec (lit w) {| prev := pr; rest := w +:+ t; caps := cs |} k =
  k {| prev := after pr w; rest := t; caps := cs |}.
Proof.
  induction w as [|c w IH]; intros pr t cs k; [done|].
  change (String c w +:+ t) with (String c (w +:+ t)). simpl.
  rewrite bool_decide_true by done. apply IH.
Qed.

Lemma loop_class {B} f (body : pos → (pos → option B) → option B) w :
  (∀ p k, body p k = exec (Cls f) p k) → ∀ n pr t cs (k : pos → option B) x,
  all_chars f w → stops f t → (String.length w < n)%nat →
  k {| prev := after pr w; rest := t; caps := cs |} = Some x →
  loop body true k n {| prev := pr; rest := w +:+ t; caps := cs |} = Some x.
Proof.
  intros Hb. induction w as [|c w IH]; intros [|n] pr t cs k x Hw Ht Hn Hk; try (simpl in Hn; lia).
  - change ("" +:+ t) with t. simpl. rewrite Hb. simpl. destruct t as [|d t]; [done|].
    simpl in Ht. by rewrite Ht.
  - apply Forall_cons in Hw as [Hc Hw].
    change (String c w +:+ t) with (String c (w +:+ t)). simpl. rewrite Hb. simpl. rewrite Hc.
    replace (String.length (w +:+ t) <? S (String.length (w +:+ t)))%nat with true
      by (symmetry; apply Nat.ltb_lt; lia).
    by rewrite (IH n (Some c) t cs k x Hw Ht ltac:(simpl in Hn; lia) Hk).
Qed.

Lemma exec_star_class {B} f w pr t cs (k : pos → option B) x :
  all_chars f w → stops f t →
  k {| prev := after pr w; rest := t; caps := cs |} = Some x →
  exec (star (Cls f)) {| prev := pr; rest := w +:+ t; caps := cs |} k = Some x.
Proof.
  intros. apply (loop_class f (λ p k, exec (Cls f) p k)); try done.
  cbn [rest]. rewrite str_length_app. lia.
Qed.

Lemma exec_plus_class {B} f w pr t cs (k : pos → option B) x :
  w ≠ "" → all_chars f w → stops f t →
  k {| prev := after pr w; rest := t; caps := cs |} = Some x →
  exec (plus (Cls f)) {| prev := pr; rest := w +:+ t; caps := cs |} k = Some x.
Proof.
  intros Hne Hw Ht Hk. destruct w as [|c w]; [done|]. apply Forall_cons in Hw as [Hc Hw].
  change (String c w +:+ t) with (String c (w +:+ t)).
  transitivity (exec (star (Cls f)) {| prev := Some c; rest := w +:+ t; caps := cs |} k);
    [|by apply exec_star_class].
  unfold plus. cbn [exec rest]. by rewrite Hc.
Qed.

Lemma exec_cap_plus {B} n f w pr t cs (k : pos → option B) x :
  w ≠ "" → all_chars f w → stops f t →
  k {| prev := after pr w; rest := t; caps := (n, w) :: cs |} = Some x →
  exec (Cap n (plus (Cls f))) {| prev := pr; rest := w +:+ t; caps := cs |} k = Some x.
Proof.
  intros Hne Hw Ht Hk.
  transitivity (exec (plus (Cls f)) {| prev := pr; rest := w +:+ t; caps := cs |} (λ q,
    k {| prev := prev q; rest := rest q; caps := (n, before (w +:+ t) (rest q)) :: caps q |}));
    [done|].
  apply exec_plus_class; try done. cbn [prev rest caps]. by rewrite before_app.
Qed.

(** A search passes over a position where nothing matches. *)
Lemma find_skip r pr c s :
  exec r {| prev := pr; rest := String c s; caps := [] |} Some = None →
  find r pr (String c s) = (λ '(pre, p), (String c pre, p)) <$> find r (Some c) s.
Proof. intros H. cbn [find]. by rewrite H. Qed.

Lemma find_here r pr s p :
  exec r {| prev := pr; rest := s; caps := [] |} Some = Some p → find r pr s = Some ("", p).
Proof. intros H. destruct s; cbn [find]; by rewrite H. Qed.

End Regexp.
