(* ===== verification/Genrpc.v ===== *)
(** * The code generators: [src/server/cmd/genrpc/main.go] and
      [src/server/cmd/genrpc-java/main.go]

    Both read the service definitions of [.proto] files with regular expressions.
    [genrpc] prints the Go interfaces and the registration functions of the
    services, [genrpc-java] a Java interface per service, whose calls the client
    library sends under the names of the interface's methods. *)

From S2P Require Import Prelude GoLib Json Regexp Router.

Module Genrpc.
Import Regexp.

(** ** Strings *)

Definition dquote : ascii := "034".
Definition dquote_s : string := String dquote "".

(** [strings.TrimPrefix] *)
Definition TrimPrefix (s prefix : string) : string :=
  match Json.strip prefix s with Some t => t | None => s end.

(** The text before and after the last occurrence of a character
    ([strings.LastIndex]). *)
Fixpoint cut_last (c : ascii) (s : string) : option (string * string) :=
  match s with
  | EmptyString => None
  | String x t =>
    match cut_last c t with
    | Some (a, b) => Some (String x a, b)
    | None => if ascii_dec x c then Some ("", t) else None
    end
  end.

(** [strings.SplitN(s, c, 2)], when the separator occurs. *)
Fixpoint cut_first (c : ascii) (s : string) : option (string * string) :=
  match s with
  | EmptyString => None
  | String x t =>
    if ascii_dec x c then Some ("", t) else (λ '(a, b), (String x a, b)) <$> cut_first c t
  end.

Definition nl : string := String newline "".
Definition quoted (s : string) : string := dquote_s +:+ s +:+ dquote_s.
Definition concat_all (l : list string) : string := foldr String.append "" l.

(** [strings.TrimRight(s, "/")] *)
Fixpoint trim_slashes (s : string) : string :=
  match s with
  | EmptyString => ""
  | String x t =>
    let t := trim_slashes t in
    if ascii_dec x "/" then match t with "" => "" | _ => String x t end else String x t
  end.

(** [strings.ToLower] on one byte: an ASCII letter, or what is not UTF-8. *)
Definition lower_byte (c : ascii) : string :=
  let n := Utf8.code c in
  if 128 <=? n then Utf8.encode_rune Utf8.RuneError
  else if (65 <=? n) && (n <=? 90) then String (Utf8.chr (n + 32)) "" else String c "".

Definition lowerFirst (s : string) : string :=
  match s with "" => "" | String c t => lower_byte c +:+ t end.

(** ** Expressions *)

Fixpoint cat (l : list re) : re := match l with [] => Eps | [a] => a | a :: l => Cat a (cat l) end.

Definition s0 : re := star (Cls is_space).
Definition s1 : re := plus (Cls is_space).
Definition name_re : re := plus (Cls is_word).
Definition not_char (c : ascii) (x : ascii) : bool := bool_decide (x ≠ c).
Definition type_re : re := plus (Cls (λ x, not_char ")" x && negb (is_space x))).

Definition rePackage : re := cat [Bol; s0; lit "package"; s1; Cap 1 name_re; s0; lit ";"].
Definition reOption (opt : string) : re :=
  cat [lit "option"; s1; lit opt; s0; lit "="; s0; lit dquote_s; Cap 1 (plus (Cls (not_char dquote)));
       lit dquote_s; s0; lit ";"].
Definition reGoPackage : re := reOption "go_package".
Definition reJavaPkg : re := reOption "java_package".
Definition reService : re :=
  cat [lit "service"; s1; Cap 1 name_re; s0; lit "{"; Cap 2 (plus (Cls (not_char "}"))); lit "}"].
Definition reRpc : re :=
  cat [lit "rpc"; s1; Cap 1 name_re; s0; lit "("; s0; Cap 2 type_re; s0; lit ")"; s0;
       lit "returns"; s0; lit "("; s0; Cap 3 type_re; s0; lit ")"; s0; lit ";"].
Definition reComment : re :=
  Alt (cat [lit "//"; star (Cls (not_char newline))])
      (cat [lit "/*"; Star false (Cls (λ _, true)); lit "*/"]).

(** ** Parsing *)

Record methodDef : Type := { m_name : string; requestType : string; responseType : string }.
Record serviceDef : Type := { s_name : string; methods : list methodDef }.
Record protoFile : Type := {
  path : string; pkg : string; goPackage : string; services : list serviceDef }.

Definition submatch_1 (r : re) (content : string) : string :=
  match find_submatch r content with Some m => group 1 m | None => "" end.

Definition parse_method (rpcMatch : pos) : methodDef :=
  {| m_name := group 1 rpcMatch; requestType := TrimPrefix (group 2 rpcMatch) ".";
     responseType := TrimPrefix (group 3 rpcMatch) "." |}.

Definition parse_service (svcMatch : pos) : serviceDef :=
  {| s_name := group 1 svcMatch; methods := parse_method <$> find_all reRpc (group 2 svcMatch) |}.

(** [parseProto] of genrpc, on the text of the file. *)
Definition parseProto (path data : string) : protoFile :=
  let content := delete_all reComment data in
  {| path := path; pkg := submatch_1 rePackage content;
     goPackage := submatch_1 reGoPackage content;
     services := parse_service <$> find_all reService content |}.

(** ** [genrpc] *)

Record goType : Type := { pkgPath : string; pkgName : string; typeName : string }.
Record methodTemplateData : Type := {
  RpcName : string; RouterKey : string; RequestGo : string; ResponseGo : string; RequestNew : string }.
Record serviceTemplateData : Type := {
  ServiceName : string; HandlerName : string; Methods : list methodTemplateData }.

Definition lastPathSegment (path : string) : string :=
  let path := trim_slashes path in
  match cut_last "/" path with Some (_, b) => b | None => path end.

Definition toAlias (path : string) : string :=
  let base := lastPathSegment path in
  if String.eqb base "rpc" then "rpcproto" else "pb_" +:+ base.

Definition go_path (pkgMap : gmap string string) (pkg : string) : string :=
  match pkgMap !! pkg with
  | Some p => if String.eqb p "" then "rpc-server/pb/" +:+ pkg else p
  | None => "rpc-server/pb/" +:+ pkg
  end.

Definition resolveType (type currentPkg : string) (pkgMap : gmap string string) : goType :=
  match cut_last "." type with
  | Some (pkg, name) =>
    let p := go_path pkgMap pkg in
    {| pkgPath := p; pkgName := lastPathSegment p; typeName := name |}
  | None =>
    let p := go_path pkgMap currentPkg in
    {| pkgPath := p; pkgName := lastPathSegment p; typeName := type |}
  end.

Definition keyFor (alias path : string) : string := alias +:+ " " +:+ path.

Definition build_pkgMap (pfs : list protoFile) : gmap string string :=
  foldl (λ m pf, if negb (String.eqb (pkg pf) "") && negb (String.eqb (goPackage pf) "")
                 then <[pkg pf := goPackage pf]> m else m) ∅ pfs.

Definition method_data (pkgMap : gmap string string) (pf : protoFile) (m : methodDef)
    : methodTemplateData :=
  let reqType := resolveType (requestType m) (pkg pf) pkgMap in
  let respType := resolveType (responseType m) (pkg pf) pkgMap in
  let alias := toAlias (pkgPath reqType) in
  let alias2 := toAlias (pkgPath respType) in
  {| RpcName := m_name m; RouterKey := lowerFirst (m_name m);
     RequestGo := alias +:+ "." +:+ typeName reqType;
     ResponseGo := alias2 +:+ "." +:+ typeName respType;
     RequestNew := "&" +:+ alias +:+ "." +:+ typeName reqType +:+ "{}" |}.

Definition method_imports (pkgMap : gmap string string) (pf : protoFile) (m : methodDef)
    : list string :=
  (λ t, let p := pkgPath (resolveType t (pkg pf) pkgMap) in keyFor (toAlias p) p)
    <$> [requestType m; responseType m].

Definition service_data (pkgMap : gmap string string) (pf : protoFile) (svc : serviceDef)
    : serviceTemplateData :=
  {| ServiceName := s_name svc; HandlerName := s_name svc +:+ "Handler";
     Methods := method_data pkgMap pf <$> methods svc |}.

(** The files with services, in the order of the walk; a file that cannot be read
    is skipped. *)
Definition proto_files (files : list (string * option string)) : list protoFile :=
  List.filter (λ pf, negb (bool_decide (services pf = [])))
    (omap (λ '(path, data), parseProto path <$> data) files).

(** [importSet] and [data.Services]; the imports are printed in the order of a Go
    map, which is any order. *)
Definition template_imports (pfs : list protoFile) : gset string :=
  list_to_set (pf ← pfs; svc ← services pf; m ← methods svc;
               method_imports (build_pkgMap pfs) pf m).

Definition template_services (pfs : list protoFile) : list serviceTemplateData :=
  pf ← pfs; service_data (build_pkgMap pfs) pf <$> services pf.

(** *** The template [genTemplate] *)

Record importEntry : Type := { Alias : string; Path : string }.
Record templateData : Type := { Imports : list importEntry; Services : list serviceTemplateData }.

(** [strings.SplitN(key, " ", 2)]; a key has a space. *)
Definition import_entry (key : string) : option importEntry :=
  (λ '(alias, path), {| Alias := alias; Path := path |}) <$> cut_first " " key.

Definition render_import (e : importEntry) : string :=
  "	" +:+ Alias e +:+ " " +:+ quoted (Path e) +:+ nl.

Definition render_signature (m : methodTemplateData) : string :=
  nl +:+ "	" +:+ RpcName m +:+ "(ctx context.Context, req *" +:+ RequestGo m +:+ ") (*"
  +:+ ResponseGo m +:+ ", error)".

Definition render_registration (svc : serviceTemplateData) (m : methodTemplateData) : string :=
  nl +:+ "	r.Register(" +:+ quoted (ServiceName svc) +:+ ", " +:+ quoted (RouterKey m)
  +:+ ", func(ctx context.Context, payload []byte) ([]byte, error) {
		req := " +:+ RequestNew m +:+ "
		if err := proto.Unmarshal(payload, req); err != nil {
			return nil, err
		}
		resp, err := svc." +:+ RpcName m +:+ "(ctx, req)
		if err != nil {
			return nil, err
		}
		return proto.Marshal(resp)
	})".

Definition render_service (svc : serviceTemplateData) : string :=
  nl +:+ "type " +:+ HandlerName svc +:+ " interface {"
  +:+ concat_all (render_signature <$> Methods svc) +:+ nl +:+ "}" +:+ nl +:+ nl
  +:+ "func Register" +:+ ServiceName svc +:+ "(r *router.Router, svc " +:+ HandlerName svc +:+ ") {"
  +:+ concat_all (render_registration svc <$> Methods svc) +:+ nl +:+ "}" +:+ nl.

(** The imports that are in the template itself. *)
Definition fixed_imports : list string :=
  ["context"; "google.golang.org/protobuf/proto"; "rpc-server/internal/router"].

(** What follows the imports. *)
Definition render_body (data : templateData) : string :=
  concat_all (render_service <$> Services data).

(** The generated file. *)
Definition render_go (data : templateData) : string :=
  "// Code generated by genrpc; DO NOT EDIT.

package rpc

import (
" +:+ String.concat nl ((λ p, "	" +:+ quoted p +:+ nl) <$> fixed_imports)
  +:+ concat_all (render_import <$> Imports data) +:+ ")" +:+ nl
  +:+ render_body data.

Definition emptyGenFile : string :=
  "// Code generated by genrpc; DO NOT EDIT.

package rpc

// No protobuf service definitions found.
".

(** The text of the generated file, given the order in which the map of imports is
    traversed. *)
Definition generate (order : gset string → list string) (files : list (string * option string))
    : string :=
  match proto_files files with
  | [] => emptyGenFile
  | pfs => render_go {| Imports := omap import_entry (order (template_imports pfs));
                       Services := template_services pfs |}
  end.

(** [main]: what is written to the output file, what is printed, and the exit status;
    [create] says whether the file can be created.  The empty file is written without
    looking at the error. *)
Definition genrpc_main (outPath : string) (create : bool) (order : gset string → list string)
    (files : list (string * option string)) : option string * string * Z :=
  let content := if create then Some (generate order files) else None in
  match proto_files files with
  | [] => (content, "", 0)
  | pfs =>
    if create then
      (content, "genrpc: wrote " +:+ outPath +:+ " ("
         +:+ Strconv.fmt_d (Z.of_nat (length (template_services pfs))) +:+ " service(s))" +:+ nl, 0)
    else (None, "", 1)
  end.

(** ** [genrpc-java] *)

Record javaProtoFile : Type := {
  java_path : string; java_pkg : string; javaPkg : string; java_services : list serviceDef }.
Record javaMethod : Type := {
  JavaRpcName : string; JavaName : string; JavaRequest : string; JavaResponse : string }.
Record javaFileData : Type := { Service : string; ProtoPkg : string; JavaMethods : list javaMethod }.

(** [parse]; a file that cannot be read is parsed as empty. *)
Definition java_parse (path : string) (data : option string) : javaProtoFile :=
  let content := delete_all reComment (default "" data) in
  {| java_path := path; java_pkg := submatch_1 rePackage content;
     javaPkg := submatch_1 reJavaPkg content; java_services := parse_service <$> find_all reService content |}.

Definition java_typeName (s : string) : string :=
  match cut_last "." s with Some (_, b) => b | None => s end.

Definition java_lowerFirst (s : string) : string :=
  match s with "" => "" | String c t => lower_byte c +:+ t end.

Definition java_method (m : methodDef) : javaMethod :=
  {| JavaRpcName := m_name m; JavaName := java_lowerFirst (m_name m);
     JavaRequest := java_typeName (requestType m); JavaResponse := java_typeName (responseType m) |}.

Definition java_file (pf : javaProtoFile) (svc : serviceDef) : javaFileData :=
  {| Service := s_name svc; ProtoPkg := javaPkg pf; JavaMethods := java_method <$> methods svc |}.

Definition java_files (files : list (string * option string)) : list javaFileData :=
  '(path, data) ← files;
  let pf := java_parse path data in java_file pf <$> java_services pf.

(** *** The template [javaTmpl] *)

Definition render_java_method (m : javaMethod) : string :=
  nl +:+ "    @RpcMethod(requestType = " +:+ JavaRequest m +:+ ".class, responseType = "
  +:+ JavaResponse m +:+ ".class)" +:+ nl
  +:+ "    " +:+ JavaResponse m +:+ " " +:+ JavaName m +:+ "(" +:+ JavaRequest m +:+ " request);".

Definition render_java (d : javaFileData) : string :=
  "package tech.bobliu.rpc.app;

import " +:+ ProtoPkg d +:+ ".*;
import tech.bobliu.rpc.annotation.RpcMethod;
import tech.bobliu.rpc.annotation.RpcService;

@RpcService(" +:+ quoted (Service d) +:+ ")
public interface " +:+ Service d +:+ "Rpc {" +:+ concat_all (render_java_method <$> JavaMethods d)
  +:+ nl +:+ "}" +:+ nl.

(** [main]: the files written, in order, and the text on standard output; [create] says
    which files can be created. *)
Definition java_main (outDir : string) (create : string → bool) (files : list (string * option string))
    : list (string * string) * list string :=
  let outputs := (λ d, (outDir +:+ "/" +:+ Service d +:+ "Rpc.java", render_java d)) <$> java_files files in
  let written := List.filter (λ x, create x.1) outputs in
  (written,
   ((λ x, "genrpc-java: wrote " +:+ x.1 +:+ nl) <$> written)
   ++ match written with [] => ["genrpc-java: no service definitions found" +:+ nl] | _ => [] end).

(** ** Names *)

Definition word (s : string) : Prop := s ≠ "" ∧ Forall (λ c, is_word c = true) (Router.chars s).

Definition type_text (s : string) : Prop :=
  Forall (λ c, (not_char ")" c && negb (is_space c)) = true) (Router.chars s).

Ltac in_groups := simpl; intros b Hb; repeat (apply elem_of_cons in Hb as [Hb|Hb]; [by simplify_eq|]);
  by apply not_elem_of_nil in Hb.

Lemma group_word r p :
  match_ok r p → 1%nat ∈ mandatory r → (∀ b, (1%nat, b) ∈ groups r → b = name_re) →
  word (group 1 p).
Proof. intros Hm Hn Hg. apply lang_plus_class. by apply (Hm 1%nat). Qed.

Lemma strip_suffix pre : ∀ s t, Json.strip pre s = Some t → s = pre +:+ t.
Proof.
  induction pre as [|c pre IH]; intros [|x s] t H; simplify_eq/=; try done.
  destruct (Ascii.eqb_spec c x) as [->|]; [|done]. apply IH in H as ->. done.
Qed.

Lemma type_text_trim s : type_text s → type_text (TrimPrefix s ".").
Proof.
  unfold TrimPrefix, type_text. destruct (Json.strip "." s) as [t|] eqn:E; [|done].
  apply strip_suffix in E as ->. rewrite Router.chars_app. intros H. by apply Forall_app in H as [_ ?].
Qed.

Lemma group_type r n p :
  match_ok r p → n ∈ mandatory r → (∀ b, (n, b) ∈ groups r → b = type_re) →
  type_text (group n p).
Proof. intros Hm Hn Hg. apply lang_plus_class. by apply (Hm n). Qed.

(** The names and types of a service. *)
Definition method_ok (m : methodDef) : Prop :=
  word (m_name m) ∧ type_text (requestType m) ∧ type_text (responseType m).
Definition service_ok (svc : serviceDef) : Prop :=
  word (s_name svc) ∧ Forall method_ok (methods svc).

Lemma parse_method_ok p : match_ok reRpc p → method_ok (parse_method p).
Proof.
  intros Hm. split_and!; simpl.
  - apply (group_word reRpc); [done|simpl; set_solver|in_groups].
  - apply type_text_trim, (group_type reRpc); [done|simpl; set_solver|in_groups].
  - apply type_text_trim, (group_type reRpc); [done|simpl; set_solver|in_groups].
Qed.

Lemma parse_service_ok p : match_ok reService p → service_ok (parse_service p).
Proof.
  intros Hm. split; simpl.
  - apply (group_word reService); [done|simpl; set_solver|in_groups].
  - apply Forall_fmap. eapply Forall_impl; [apply find_all_ok|]. apply parse_method_ok.
Qed.

Lemma parse_services_ok path data : Forall service_ok (services (parseProto path data)).
Proof.
  simpl. apply Forall_fmap. eapply Forall_impl; [apply find_all_ok|]. apply parse_service_ok.
Qed.

Lemma word_dot_free s : word s → Router.dot_free s.
Proof.
  intros [_ H] Hin. rewrite Forall_forall in H. by apply H in Hin.
Qed.

Lemma lower_byte_word c : is_word c = true → ∃ d, lower_byte c = String d "" ∧ is_word d = true.
Proof.
  intros H. destruct c as [[] [] [] [] [] [] [] []]; try discriminate H;
    (eexists; split; [vm_compute; reflexivity|reflexivity]).
Qed.

Lemma lowerFirst_word s : word s → word (lowerFirst s).
Proof.
  intros [Hne Hs]. destruct s as [|c s]; [done|]. unfold Router.chars in Hs. simpl in Hs.
  apply Forall_cons in Hs as [Hc Hs].
  destruct (lower_byte_word c Hc) as (d & Hd & Hw). simpl. rewrite Hd.
  change (String d "" +:+ s) with (String d s). split; [done|].
  unfold Router.chars. simpl. by constructor.
Qed.

(** ** Registrations *)

(** The registrations that the generated functions make, in order: service,
    router key, and the service and method that are called. *)
Definition registrations (svcs : list serviceTemplateData) : list (string * string * (string * string)) :=
  svc ← svcs;
  (λ m, (ServiceName svc, RouterKey m, (ServiceName svc, RpcName m))) <$> Methods svc.

Lemma in_registrations pfs s k h :
  (s, k, h) ∈ registrations (template_services pfs) ↔
  ∃ pf svc m, pf ∈ pfs ∧ svc ∈ services pf ∧ m ∈ methods svc ∧
    s = s_name svc ∧ k = lowerFirst (m_name m) ∧ h = (s_name svc, m_name m).
Proof.
  unfold registrations, template_services. rewrite list_elem_of_bind. split.
  - intros (sd & Hm & Hsd). apply list_elem_of_bind in Hsd as (pf & Hpf & Hin).
    apply list_elem_of_fmap in Hpf as (svc & -> & Hsvc).
    apply list_elem_of_fmap in Hm as (md & [= -> -> ->] & Hmd). simpl in *.
    apply list_elem_of_fmap in Hmd as (m & -> & Hm). simpl. eauto 10.
  - intros (pf & svc & m & H1 & H2 & H3 & -> & -> & ->).
    exists (service_data (build_pkgMap pfs) pf svc). split.
    + apply list_elem_of_fmap. exists (method_data (build_pkgMap pfs) pf m). split; [done|].
      simpl. by apply list_elem_of_fmap_2.
    + apply list_elem_of_bind. exists pf. split; [|done]. by apply list_elem_of_fmap_2.
Qed.

Lemma last_in {A} (l : list A) x : last l = Some x → x ∈ l.
Proof. intros H. apply last_Some in H as [l' ->]. set_solver. Qed.

(** Routing after the generated registrations. *)
Lemma Route_registrations pfs s k :
  Forall (λ pf, Forall service_ok (services pf)) pfs →
  let regs := registrations (template_services pfs) in
  let found := Router.Route (Router.register_all regs Router.New) s k in
  (∀ h, found = Some h → (s, k, h) ∈ regs) ∧ (∀ h, (s, k, h) ∈ regs → is_Some found).
Proof.
  intros Hok regs found.
  assert (Hroute : found =
    last (omap (λ '(s', m, h), if decide (s' = s ∧ m = k) then Some h else None) regs)).
  { apply Router.Route_register_all. apply Forall_forall. intros [[s' m] h] Hin.
    apply in_registrations in Hin as (pf & svc & md & Hpf & Hsvc & Hmd & -> & -> & _).
    rewrite Forall_forall in Hok. specialize (Hok pf Hpf). rewrite Forall_forall in Hok.
    destruct (Hok svc Hsvc) as [Hw Hms]. rewrite Forall_forall in Hms.
    destruct (Hms md Hmd) as [Hmw _].
    split; apply word_dot_free; [done|by apply lowerFirst_word]. }
  rewrite Hroute. split.
  - intros h Hl. apply last_in, list_elem_of_omap in Hl as ([[s' m] h'] & Hin & Hd).
    case_decide as Hc; simplify_eq. by destruct Hc as [-> ->].
  - intros h Hin. destruct (last _) as [x|] eqn:E; [done|]. apply last_None in E.
    assert (Hh : h ∈ omap (λ '(s', m, h), if decide (s' = s ∧ m = k) then Some h else None) regs).
    { apply list_elem_of_omap. exists (s, k, h). split; [done|]. by rewrite decide_True. }
    rewrite E in Hh. by apply not_elem_of_nil in Hh.
Qed.

(** ** Printing service definitions *)

(** A service in the layout of the repository's files. *)
Definition print_method (m : methodDef) : string :=
  nl +:+ "  rpc " +:+ m_name m +:+ "(" +:+ requestType m +:+ ") returns ("
  +:+ responseType m +:+ ");".

Definition print_service (svc : serviceDef) : string :=
  "service " +:+ s_name svc +:+ " {" +:+ (concat_all (print_method <$> methods svc) +:+ nl) +:+ "}"
  +:+ nl.

Definition print_services (svcs : list serviceDef) : string :=
  concat_all (print_service <$> svcs).

(** A type name: words separated by dots. *)
Definition is_type_char (c : ascii) : bool := is_word c || bool_decide (c = "."%char).
Definition type_name (s : string) : Prop :=
  all_chars is_type_char s ∧ match s with String c _ => is_word c = true | "" => False end.

Definition printable_method (m : methodDef) : Prop :=
  word (m_name m) ∧ type_name (requestType m) ∧ type_name (responseType m).
Definition printable (svc : serviceDef) : Prop :=
  word (s_name svc) ∧ Forall printable_method (methods svc).

Lemma all_chars_impl f g s :
  (∀ c, f c = true → g c = true) → all_chars f s → all_chars g s.
Proof. intros H Hs. eapply Forall_impl; [exact Hs|exact H]. Qed.

Lemma all_chars_app f a b : all_chars f a → all_chars f b → all_chars f (a +:+ b).
Proof. unfold all_chars. rewrite Router.chars_app. intros. by apply Forall_app. Qed.

Ltac by_chars := intros c; destruct c as [[] [] [] [] [] [] [] []]; vm_compute; done.

Lemma type_char_type c : is_type_char c = true → (not_char ")" c && negb (is_space c)) = true.
Proof. revert c. by_chars. Qed.
Lemma type_char_body c : is_type_char c = true → not_char "}" c = true.
Proof. revert c. by_chars. Qed.
Lemma type_char_slash c : is_type_char c = true → not_char "/" c = true.
Proof. revert c. by_chars. Qed.
Lemma word_type_char c : is_word c = true → is_type_char c = true.
Proof. unfold is_type_char. by intros ->. Qed.
Lemma word_not_space c : is_word c = true → is_space c = false.
Proof. revert c. by_chars. Qed.

Lemma word_stops s t : word s → stops is_space (s +:+ t).
Proof.
  intros [Hne Hs]. destruct s as [|c s]; [done|]. apply Forall_cons in Hs as [Hc _].
  by apply word_not_space.
Qed.

Lemma type_stops s t : type_name s → stops is_space (s +:+ t).
Proof. intros [_ Hs]. destruct s as [|c s]; [done|]. by apply word_not_space. Qed.

Lemma exec_Cat {B} a b p (k : pos → option B) : exec (Cat a b) p k = exec a p (λ p, exec b p k).
Proof. done. Qed.

Lemma exec_cat_lit {B} w b pr t cs (k : pos → option B) x :
  exec b {| prev := after pr w; rest := t; caps := cs |} k = Some x →
  exec (Cat (lit w) b) {| prev := pr; rest := w +:+ t; caps := cs |} k = Some x.
Proof. intros H. rewrite exec_Cat, exec_lit. exact H. Qed.

Lemma exec_cat_s0 {B} w b pr t cs (k : pos → option B) x :
  all_chars is_space w → stops is_space t →
  exec b {| prev := after pr w; rest := t; caps := cs |} k = Some x →
  exec (Cat s0 b) {| prev := pr; rest := w +:+ t; caps := cs |} k = Some x.
Proof. intros ? ? H. rewrite exec_Cat. by apply exec_star_class. Qed.

Lemma exec_cat_s1 {B} w b pr t cs (k : pos → option B) x :
  w ≠ "" → all_chars is_space w → stops is_space t →
  exec b {| prev := after pr w; rest := t; caps := cs |} k = Some x →
  exec (Cat s1 b) {| prev := pr; rest := w +:+ t; caps := cs |} k = Some x.
Proof. intros ? ? ? H. rewrite exec_Cat. by apply exec_plus_class. Qed.

Lemma exec_cat_cap {B} n f b w pr t cs (k : pos → option B) x :
  w ≠ "" → all_chars f w → stops f t →
  exec b {| prev := after pr w; rest := t; caps := (n, w) :: cs |} k = Some x →
  exec (Cat (Cap n (plus (Cls f))) b) {| prev := pr; rest := w +:+ t; caps := cs |} k = Some x.
Proof. intros ? ? ? H. rewrite exec_Cat. by apply exec_cap_plus. Qed.

Lemma type_name_ne s : type_name s → s ≠ "".
Proof. intros [_ H] ->. done. Qed.

Lemma exec_rpc m pr t :
  printable_method m →
  ∃ pr', exec reRpc {| prev := pr; rest := "rpc " +:+ m_name m +:+ "(" +:+ requestType m
      +:+ ") returns (" +:+ responseType m +:+ ");" +:+ t; caps := [] |} Some =
    Some {| prev := pr'; rest := t;
            caps := [(3%nat, responseType m); (2%nat, requestType m); (1%nat, m_name m)] |}.
Proof.
  intros (Hw & Hq & Hp). eexists. unfold reRpc. cbn [cat].
  eapply (exec_cat_lit "rpc"), (exec_cat_s1 " "); [done|by repeat constructor|by apply word_stops|].
  destruct Hw as [Hne Hw].
  eapply (exec_cat_cap 1 is_word); [done|done|done|].
  eapply (exec_cat_s0 ""); [by constructor|done|].
  eapply (exec_cat_lit "("), (exec_cat_s0 ""); [by constructor|by apply type_stops|].
  eapply exec_cat_cap; [by apply type_name_ne|by eapply all_chars_impl, Hq; apply type_char_type|done|].
  eapply (exec_cat_s0 ""); [by constructor|done|].
  eapply (exec_cat_lit ")"), (exec_cat_s0 " "); [by repeat constructor|done|].
  eapply (exec_cat_lit "returns"), (exec_cat_s0 " "); [by repeat constructor|done|].
  eapply (exec_cat_lit "("), (exec_cat_s0 ""); [by constructor|by apply type_stops|].
  eapply exec_cat_cap; [by apply type_name_ne|by eapply all_chars_impl, Hp; apply type_char_type|done|].
  eapply (exec_cat_s0 ""); [by constructor|done|].
  eapply (exec_cat_lit ")"), (exec_cat_s0 ""); [by constructor|done|].
  apply (exec_lit ";").
Qed.

Lemma TrimPrefix_type s : type_name s → TrimPrefix s "." = s.
Proof.
  intros [_ H]. destruct s as [|c s]; [done|]. unfold TrimPrefix.
  change (Json.strip "." (String c s)) with (if Ascii.eqb "." c then Some s else None).
  destruct (Ascii.eqb_spec "."%char c) as [<-|]; [vm_compute in H; discriminate H|done].
Qed.

(** The definition at the front of a text is found, over the white space before it. *)
Lemma find_rpc m pr t :
  printable_method m →
  ∃ pre q, find reRpc pr (print_method m +:+ t) = Some (pre, q) ∧ rest q = t ∧ parse_method q = m.
Proof.
  intros Hm. destruct (exec_rpc m (Some " "%char) t Hm) as (pr' & He).
  eexists _, _. split.
  - unfold print_method. rewrite !str_app_assoc.
    change (nl +:+ ("  rpc " +:+ ?x)) with (String newline (String " " (String " " ("rpc " +:+ x)))).
    rewrite (find_skip reRpc pr newline) by reflexivity.
    rewrite (find_skip reRpc _ " "%char) by reflexivity.
    rewrite (find_skip reRpc _ " "%char) by reflexivity.
    rewrite (find_here _ _ _ _ He). reflexivity.
  - split; [done|]. destruct Hm as (_ & Hq & Hp). destruct m as [n a b]. unfold parse_method, group. simpl in *.
    by rewrite !TrimPrefix_type.
Qed.

Lemma find_all_rpc ms : ∀ n pr, Forall printable_method ms → (length ms ≤ n)%nat →
  parse_method <$> find_all_from n reRpc pr (concat_all (print_method <$> ms) +:+ nl) = ms.
Proof.
  induction ms as [|m ms IH]; intros n pr Hms Hn.
  - destruct n as [|n]; [done|]. reflexivity.
  - apply Forall_cons in Hms as [Hm Hms]. destruct n as [|n]; [simpl in Hn; lia|].
    change (concat_all (print_method <$> m :: ms))
      with (print_method m +:+ concat_all (print_method <$> ms)).
    rewrite str_app_assoc.
    destruct (find_rpc m pr (concat_all (print_method <$> ms) +:+ nl) Hm) as (pre & q & Hf & Hr & Hq).
    cbn [find_all_from]. rewrite Hf, Hr. simpl. rewrite Hq. f_equal. apply IH; [done|].
    simpl in Hn. lia.
Qed.

Lemma concat_length {A} (f : A → string) l :
  (∀ a, f a ≠ "") → (length l ≤ String.length (concat_all (f <$> l)))%nat.
Proof.
  intros Hf. induction l as [|a l IH]; [done|].
  change (concat_all (f <$> a :: l)) with (f a +:+ concat_all (f <$> l)).
  rewrite str_length_app. specialize (Hf a). destruct (f a); [done|]. simpl in *. lia.
Qed.

Lemma body_chars f ms :
  (∀ c, is_type_char c = true → f c = true) →
  Forall (all_chars f) [nl; "  rpc "; "("; ") returns ("; ");"] →
  Forall printable_method ms → all_chars f (concat_all (print_method <$> ms) +:+ nl).
Proof.
  intros Hf Hfix Hms. repeat (apply Forall_cons in Hfix as [? Hfix]).
  apply all_chars_app; [|done]. induction Hms as [|m ms (Hw & Hq & Hp) _ IH]; [constructor|].
  change (concat_all (print_method <$> m :: ms))
    with (print_method m +:+ concat_all (print_method <$> ms)).
  apply all_chars_app; [|exact IH]. unfold print_method.
  repeat (apply all_chars_app; [try done|]); try done; eapply all_chars_impl; try exact Hf.
  - eapply all_chars_impl; [apply word_type_char|apply Hw].
  - apply Hq.
  - apply Hp.
Qed.

Lemma exec_service svc pr t :
  printable svc →
  ∃ pr', exec reService {| prev := pr; rest := print_service svc +:+ t; caps := [] |} Some =
    Some {| prev := pr'; rest := nl +:+ t;
            caps := [(2%nat, concat_all (print_method <$> methods svc) +:+ nl); (1%nat, s_name svc)] |}.
Proof.
  intros [Hw Hms]. eexists. unfold print_service. rewrite !str_app_assoc.
  rewrite <- (str_app_assoc (concat_all _) nl). unfold reService. cbn [cat].
  eapply (exec_cat_lit "service"), (exec_cat_s1 " "); [done|by repeat constructor|by apply word_stops|].
  destruct Hw as [Hne Hw]. eapply (exec_cat_cap 1 is_word); [done|done|done|].
  eapply (exec_cat_s0 " "); [by repeat constructor|done|]. eapply (exec_cat_lit "{").
  eapply exec_cat_cap; [|apply body_chars; [apply type_char_body|by repeat constructor|done]|done|].
  { by destruct (concat_all _). }
  apply (exec_lit "}").
Qed.

Lemma find_service svc pr t :
  printable svc →
  ∃ q, find reService pr (print_service svc +:+ t) = Some ("", q) ∧ rest q = nl +:+ t ∧
       parse_service q = svc.
Proof.
  intros Hs. destruct (exec_service svc pr t Hs) as (pr' & He). eexists.
  split; [by apply find_here|]. split; [done|]. destruct Hs as [_ Hms]. destruct svc as [n ms].
  unfold parse_service, group. simpl. f_equal. apply find_all_rpc; [done|].
  rewrite str_length_app.
  pose proof (concat_length print_method ms ltac:(intros m; discriminate)). lia.
Qed.

Lemma find_all_services svcs : ∀ n pr, Forall printable svcs → (length svcs ≤ n)%nat →
  parse_service <$> find_all_from n reService pr (nl +:+ print_services svcs) = svcs.
Proof.
  induction svcs as [|svc svcs IH]; intros n pr Hs Hn.
  - destruct n as [|n]; [done|]. reflexivity.
  - apply Forall_cons in Hs as [Hsvc Hs]. destruct n as [|n]; [simpl in Hn; lia|].
    change (print_services (svc :: svcs)) with (print_service svc +:+ print_services svcs).
    destruct (find_service svc (Some newline) (print_services svcs) Hsvc) as (q & Hf & Hr & Hq).
    cbn [find_all_from].
    change (nl +:+ ?x) with (String newline x) at 1.
    rewrite (find_skip reService pr newline) by reflexivity. rewrite Hf. simpl.
    rewrite Hr, Hq. f_equal. apply IH; [done|]. simpl in Hn. lia.
Qed.

(** A text without a slash has no comments. *)
Lemma no_comment s : all_chars (not_char "/") s → ∀ pr, find reComment pr s = None.
Proof.
  induction s as [|c s IH]; intros Hs pr; [reflexivity|]. apply Forall_cons in Hs as [Hc Hs].
  rewrite find_skip; [by rewrite IH|].
  unfold not_char in Hc. apply bool_decide_eq_true in Hc.
  unfold reComment. simpl. by rewrite bool_decide_false.
Qed.

Lemma services_no_slash svcs :
  Forall printable svcs → all_chars (not_char "/") (nl +:+ print_services svcs).
Proof.
  intros Hs. apply all_chars_app; [by repeat constructor|].
  induction Hs as [|svc svcs [Hw Hms] _ IH]; [constructor|].
  change (print_services (svc :: svcs)) with (print_service svc +:+ print_services svcs).
  apply all_chars_app; [|exact IH]. unfold print_service.
  apply all_chars_app; [by repeat constructor|]. apply all_chars_app.
  { eapply all_chars_impl; [|apply Hw]. intros c Hc. by apply type_char_slash, word_type_char. }
  apply all_chars_app; [by repeat constructor|]. apply all_chars_app; [|by repeat constructor].
  apply body_chars; [apply type_char_slash|by repeat constructor|done].
Qed.
(** ** Imports *)

Lemma cut_first_app c a b :
  c ∉ Router.chars a → cut_first c (a +:+ String c b) = Some (a, b).
Proof.
  unfold Router.chars. induction a as [|x a IH]; simpl; [by destruct (ascii_dec c c)|].
  intros [Hx Ha]%not_elem_of_cons. destruct (ascii_dec x c) as [->|]; [done|].
  simpl in IH. by rewrite IH.
Qed.

Lemma toAlias_segment p q : toAlias p = toAlias q → lastPathSegment p = lastPathSegment q.
Proof.
  unfold toAlias. destruct (String.eqb_spec (lastPathSegment p) "rpc") as [->|],
    (String.eqb_spec (lastPathSegment q) "rpc") as [->|]; intros H; simplify_eq/=; done.
Qed.

Lemma import_entry_key p :
  " "%char ∉ Router.chars (toAlias p) →
  import_entry (keyFor (toAlias p) p) = Some {| Alias := toAlias p; Path := p |}.
Proof.
  intros H. unfold import_entry, keyFor.
  change (toAlias p +:+ " " +:+ p) with (toAlias p +:+ String " " p). by rewrite cut_first_app.
Qed.

(** The packages that the methods of the files use. *)
Definition used_paths (pfs : list protoFile) : list string :=
  pf ← pfs; svc ← services pf; m ← methods svc;
  (λ t, pkgPath (resolveType t (pkg pf) (build_pkgMap pfs))) <$> [requestType m; responseType m].

Lemma used_by_method pfs p :
  p ∈ used_paths pfs ↔
  ∃ pf svc m t, pf ∈ pfs ∧ svc ∈ services pf ∧ m ∈ methods svc ∧ t ∈ [requestType m; responseType m] ∧
    p = pkgPath (resolveType t (pkg pf) (build_pkgMap pfs)).
Proof.
  unfold used_paths. rewrite list_elem_of_bind. setoid_rewrite list_elem_of_bind.
  setoid_rewrite list_elem_of_bind. setoid_rewrite list_elem_of_fmap. naive_solver.
Qed.

Lemma elem_of_imports pfs key :
  key ∈ template_imports pfs ↔ ∃ p, p ∈ used_paths pfs ∧ key = keyFor (toAlias p) p.
Proof.
  setoid_rewrite used_by_method. unfold template_imports, method_imports. rewrite elem_of_list_to_set.
  rewrite list_elem_of_bind. setoid_rewrite list_elem_of_bind. setoid_rewrite list_elem_of_bind.
  setoid_rewrite list_elem_of_fmap. naive_solver.
Qed.

(** *** The packages that the generated code refers to *)

(** The text refers to a package by its name. *)
Definition mentions (name text : string) : Prop := ∃ a b, text = a +:+ name +:+ "." +:+ b.

Lemma mentions_app_l name a s : mentions name s → mentions name (a +:+ s).
Proof. intros (x & y & ->). exists (a +:+ x), y. by rewrite str_app_assoc. Qed.
Lemma mentions_app_r name s b : mentions name s → mentions name (s +:+ b).
Proof. intros (x & y & ->). exists x, (y +:+ b). by rewrite !str_app_assoc. Qed.

Lemma mentions_concat name s l : s ∈ l → mentions name s → mentions name (concat_all l).
Proof.
  intros Hin Hs. induction l as [|x l IH]; [by apply not_elem_of_nil in Hin|]. simpl.
  apply elem_of_cons in Hin as [<-|Hin]; [by apply mentions_app_r|by apply mentions_app_l, IH].
Qed.

(** Every dot in a text follows the letter [c]; [prev] is the character before it. *)
Fixpoint dots_follow (c prev : ascii) (s : string) : bool :=
  match s with
  | EmptyString => true
  | String x t => (negb (Ascii.eqb x ".") || Ascii.eqb prev c) && dots_follow c x t
  end.

Definition dots_after (c : ascii) (s : string) : Prop := ∀ prev, dots_follow c prev s = true.

Lemma dots_after_app c a b : dots_after c a → dots_after c b → dots_after c (a +:+ b).
Proof.
  intros Ha Hb prev. specialize (Ha prev). revert prev Ha. induction a as [|x a IH]; intros prev Ha; [apply Hb|].
  simpl in Ha |- *. apply andb_true_iff in Ha as [-> Ha]. by apply IH.
Qed.

Lemma dots_after_concat c l : Forall (dots_after c) l → dots_after c (concat_all l).
Proof. induction 1; simpl; [done|by apply dots_after_app]. Qed.

Lemma dots_after_free c s : Router.dot_free s → dots_after c s.
Proof.
  unfold Router.dot_free. intros Hs prev. revert prev. induction s as [|x s IH]; intros prev; [done|]. simpl.
  simpl in Hs. apply not_elem_of_cons in Hs as [Hx Hs]. apply andb_true_iff. split; [|by apply IH].
  destruct (Ascii.eqb_spec x "."); [congruence|done].
Qed.

Lemma dots_follow_app_inv c prev a b :
  dots_follow c prev (a +:+ b) = true → ∃ prev', dots_follow c prev' b = true.
Proof.
  revert prev. induction a as [|x a IH]; intros prev H; [by exists prev|]. simpl in H.
  apply andb_true_iff in H as [_ H]. by eapply IH.
Qed.

(** A package whose name ends in another letter is not referred to. *)
Lemma dots_after_mentions c s name x :
  dots_after c s → x ≠ c → ¬ mentions (name +:+ String x "") s.
Proof.
  intros Hs Hx (a & b & ->). specialize (Hs " "%char).
  rewrite str_app_assoc in Hs. apply dots_follow_app_inv in Hs as [p1 Hs].
  apply dots_follow_app_inv in Hs as [p2 Hs]. simpl in Hs.
  destruct (Ascii.eqb_spec x c); [done|]. by rewrite andb_false_r in Hs.
Qed.

Abbreviation body pfs := (render_body {| Imports := []; Services := template_services pfs |}).

Lemma body_service name pfs svc :
  svc ∈ template_services pfs → mentions name (render_service svc) → mentions name (body pfs).
Proof. intros Hsvc. apply mentions_concat. by apply list_elem_of_fmap_2. Qed.

Lemma service_signature name svc m :
  m ∈ Methods svc → mentions name (render_signature m) → mentions name (render_service svc).
Proof.
  intros Hm Hs. unfold render_service. do 4 apply mentions_app_l. apply mentions_app_r.
  eapply mentions_concat; [|exact Hs]. by apply list_elem_of_fmap_2.
Qed.

Lemma service_registration name svc m :
  m ∈ Methods svc → mentions name (render_registration svc m) → mentions name (render_service svc).
Proof.
  intros Hm Hs. unfold render_service. do 14 apply mentions_app_l. apply mentions_app_r.
  eapply mentions_concat; [|exact Hs]. by apply list_elem_of_fmap_2.
Qed.

Lemma service_router svc : mentions "router" (render_service svc).
Proof.
  unfold render_service. do 11 apply mentions_app_l. apply mentions_app_r.
  exists "(r *", "Router, svc ". reflexivity.
Qed.

Lemma signature_context m : mentions "context" (render_signature m).
Proof.
  unfold render_signature. do 3 apply mentions_app_l. apply mentions_app_r.
  exists "(ctx ", "Context, req *". reflexivity.
Qed.

Lemma registration_proto svc m : mentions "proto" (render_registration svc m).
Proof.
  unfold render_registration. do 7 apply mentions_app_l. apply mentions_app_r. eexists _, _.
  exact (eq_refl : "
		if err := proto.Unmarshal(payload, req); err != nil {
			return nil, err
		}
		resp, err := svc." = "
		if err := " +:+ "proto" +:+ "." +:+ "Unmarshal(payload, req); err != nil {
			return nil, err
		}
		resp, err := svc.").
Qed.

(** A signature refers to the packages of its types. *)
Lemma signature_types m alias t :
  RequestGo m = alias +:+ "." +:+ t ∨ ResponseGo m = alias +:+ "." +:+ t →
  mentions alias (render_signature m).
Proof.
  intros Ht. unfold render_signature. destruct Ht as [-> | ->];
    [do 4 apply mentions_app_l|do 6 apply mentions_app_l]; apply mentions_app_r; by exists "", t.
Qed.

(** The text of a service without methods. *)
Lemma service_without_methods svc :
  Router.dot_free (ServiceName svc) → Router.dot_free (HandlerName svc) → Methods svc = [] →
  dots_after "r" (render_service svc).
Proof.
  intros Hs Hh Hm. unfold render_service. rewrite Hm. cbn [fmap list_fmap concat_all foldr].
  repeat apply dots_after_app; try (by apply dots_after_free); by intros prev.
Qed.

Lemma dot_free_app a b : Router.dot_free a → Router.dot_free b → Router.dot_free (a +:+ b).
Proof. unfold Router.dot_free. rewrite Router.chars_app. set_solver. Qed.

Lemma parsed_ok files : Forall (λ pf, Forall service_ok (services pf)) (proto_files files).
Proof.
  apply Forall_forall. intros pf Hpf. unfold proto_files in Hpf.
  apply list_elem_of_In, filter_In in Hpf as [Hpf _].
  apply list_elem_of_In, list_elem_of_omap in Hpf as ([path [data|]] & _ & [= <-]).
  apply parse_services_ok.
Qed.

Lemma body_without_methods files :
  (∀ svc, svc ∈ template_services (proto_files files) → Methods svc = []) →
  dots_after "r" (body (proto_files files)).
Proof.
  intros Hno. apply dots_after_concat, Forall_fmap, Forall_forall. intros svc Hsvc. simpl in Hsvc.
  pose proof Hsvc as H. apply list_elem_of_bind in H as (pf & H & Hpf).
  apply list_elem_of_fmap in H as (sd & -> & Hsd).
  pose proof (parsed_ok files) as Hok. rewrite Forall_forall in Hok. specialize (Hok pf Hpf).
  rewrite Forall_forall in Hok. destruct (Hok sd Hsd) as [Hw _]. apply word_dot_free in Hw.
  apply service_without_methods; [done| |by apply Hno]. simpl. apply dot_free_app; [done|].
  by apply (bool_decide_unpack _).
Qed.

Lemma some_service files :
  proto_files files ≠ [] → ∃ svc, svc ∈ template_services (proto_files files).
Proof.
  intros Hne. destruct (proto_files files) as [|pf pfs] eqn:E; [done|].
  assert (Hpf : pf ∈ proto_files files) by (rewrite E; by left).
  unfold proto_files in Hpf. apply list_elem_of_In, filter_In in Hpf as [_ Hs].
  destruct (services pf) as [|sd sds] eqn:Es; [done|]. eexists. apply list_elem_of_bind. exists pf.
  split; [|by left]. rewrite Es. by left.
Qed.

Lemma imports_mentioned pfs key :
  key ∈ template_imports pfs → ∃ p, key = keyFor (toAlias p) p ∧ mentions (toAlias p) (body pfs).
Proof.
  intros (p & Hp & ->)%elem_of_imports. exists p. split; [done|].
  apply used_by_method in Hp as (pf & sd & md & t & Hpf & Hsd & Hmd & Ht & ->).
  apply (body_service _ pfs (service_data (build_pkgMap pfs) pf sd)).
  - apply list_elem_of_bind. exists pf. split; [|exact Hpf]. by apply list_elem_of_fmap_2.
  - apply (service_signature _ _ (method_data (build_pkgMap pfs) pf md)).
    + simpl. by apply list_elem_of_fmap_2.
    + apply (signature_types _ _ (typeName (resolveType t (pkg pf) (build_pkgMap pfs)))).
      apply elem_of_cons in Ht as [->|Ht]; [by left|]. apply list_elem_of_singleton in Ht as ->. by right.
Qed.

Lemma fixed_imports_used files :
  let pfs := proto_files files in
  pfs ≠ [] →
  mentions "router" (body pfs) ∧
  ((∀ p, p ∈ fixed_imports → mentions (lastPathSegment p) (body pfs)) ↔
   ∃ svc m, svc ∈ template_services pfs ∧ m ∈ Methods svc).
Proof.
  intros pfs Hne. destruct (some_service files Hne) as [svc0 H0].
  assert (Hrouter : mentions "router" (body pfs)) by (eapply body_service, service_router; exact H0).
  split; [done|]. split.
  - intros Hall. specialize (Hall "context" ltac:(left)).
    destruct (decide (Forall (λ svc, Methods svc = []) (template_services pfs))) as [Hno|Hsome].
    + exfalso. rewrite Forall_forall in Hno. revert Hall.
      apply (dots_after_mentions "r" _ "contex" "t"); [by apply body_without_methods|done].
    + apply not_Forall_Exists in Hsome; [|apply _]. apply Exists_exists in Hsome as (svc & Hsvc & Hm).
      destruct (Methods svc) as [|m ms] eqn:E; [done|]. exists svc, m. rewrite E. split; [done|by left].
  - intros (svc & m & Hsvc & Hm) p Hp. apply (body_service _ _ _ Hsvc).
    apply elem_of_cons in Hp as [->|Hp]; [eapply service_signature, signature_context; exact Hm|].
    apply elem_of_cons in Hp as [->|Hp]; [eapply service_registration, registration_proto; exact Hm|].
    apply list_elem_of_singleton in Hp as ->. apply service_router.
Qed.

(** ** Properties *)

(** Whatever a [.proto] file contains, the names of the services and methods
    that the generators take from it are non-empty words of ASCII letters, digits
    and underscores, and the names of types contain neither spaces nor a
    closing parenthesis, so that the generated registrations have no dots in
    their names and routing cannot confuse them. *)
Theorem parsed_names (path data : string) :
  Forall (λ svc,
    word (s_name svc) ∧ Router.dot_free (s_name svc) ∧
    Forall (λ m, word (m_name m) ∧ Router.dot_free (lowerFirst (m_name m)) ∧
                 type_text (requestType m) ∧ type_text (responseType m)) (methods svc))
    (services (parseProto path data)).
Proof.
  eapply Forall_impl; [apply parse_services_ok|]. intros svc [Hw Hm].
  split_and!; [done|by apply word_dot_free|]. eapply Forall_impl; [exact Hm|].
  intros m (Hn & Hq & Hp). split_and!; try done. by apply word_dot_free, lowerFirst_word.
Qed.

(** C35: the two generators agree.  Every method of a Java interface that
    genrpc-java generates from a file is, under its service's and its own name,
    routed by the registrations that genrpc generates from a set of files with
    that file in it, to a method of that service with the same Java name, and
    to the very method when no two registrations share their names. *)
Theorem java_calls_routed (go_files java_proto_files : list (string * option string))
    (j : javaFileData) (jm : javaMethod) :
  java_proto_files ⊆ go_files → j ∈ java_files java_proto_files → jm ∈ JavaMethods j →
  let regs := registrations (template_services (proto_files go_files)) in
  ∃ rpc, Router.Route (Router.register_all regs Router.New) (Service j) (JavaName jm)
           = Some (Service j, rpc) ∧
         lowerFirst rpc = JavaName jm ∧ (NoDup regs.*1 → rpc = JavaRpcName jm).
Proof.
  intros Hsub Hj Hjm regs.
  assert (Hin : (Service j, JavaName jm, (Service j, JavaRpcName jm)) ∈ regs).
  { apply list_elem_of_bind in Hj as ([path data] & Hj & Hfile).
    apply list_elem_of_fmap in Hj as (svc & -> & Hsvc).
    apply list_elem_of_fmap in Hjm as (m & -> & Hm). simpl.
    destruct data as [data|]; [|vm_compute in Hsvc; by apply not_elem_of_nil in Hsvc].
    apply in_registrations. exists (parseProto path data), svc, m. split_and!; try done.
    unfold proto_files. apply list_elem_of_In, filter_In. split.
    - apply list_elem_of_In, list_elem_of_omap. exists (path, Some data). split; [by apply Hsub|done].
    - apply negb_true_iff, bool_decide_eq_false. intros E.
      change (svc ∈ services (parseProto path data)) in Hsvc. rewrite E in Hsvc.
      by apply not_elem_of_nil in Hsvc. }
  pose proof (parsed_ok go_files) as Hok.
  destruct (Route_registrations _ (Service j) (JavaName jm) Hok) as [Hfound Hsome].
  destruct (Hsome _ Hin) as [h Hh]. specialize (Hfound h Hh). fold regs in Hfound, Hh.
  pose proof Hfound as Hf. apply in_registrations in Hf as (pf & svc & m & _ & _ & _ & Es & Ek & ->).
  exists (m_name m). rewrite Hh, Es. split_and!; [done|done|]. intros Hnd.
  rewrite Es, Ek in Hin, Hfound. apply list_elem_of_lookup in Hin as [i Hi].
  apply list_elem_of_lookup in Hfound as [i' Hi'].
  assert (i = i') as <-.
  { eapply (NoDup_lookup regs.*1); [done| |]; by rewrite list_lookup_fmap, ?Hi, ?Hi'. }
  congruence.
Qed.

(** C36: the imports of the generated file.  Every type in a generated signature and in
    a generated [proto.Unmarshal] is qualified with the alias of an imported package, and
    every import of a package with messages is used by the generated code.  When no two
    packages in use end in the same path segment and no segment has a space, an alias
    stands for one package only and the entry printed for it binds the alias to the
    package's path.  Of the imports that are fixed in the template, [router] is always
    used, [context] and [proto] exactly if some service has a method: a file in which no
    method was recognised (one whose methods all stream, say) has unused imports, which
    Go rejects. *)
Theorem generated_imports_ok (pfs : list protoFile) :
  (∀ svc m, svc ∈ template_services pfs → m ∈ Methods svc →
     ∃ p q tp tq, p ∈ used_paths pfs ∧ q ∈ used_paths pfs ∧
       RequestGo m = toAlias p +:+ "." +:+ tp ∧ ResponseGo m = toAlias q +:+ "." +:+ tq ∧
       RequestNew m = "&" +:+ toAlias p +:+ "." +:+ tp +:+ "{}" ∧
       keyFor (toAlias p) p ∈ template_imports pfs ∧ keyFor (toAlias q) q ∈ template_imports pfs) ∧
  (∀ key, key ∈ template_imports pfs →
     ∃ p, key = keyFor (toAlias p) p ∧ mentions (toAlias p) (body pfs)) ∧
  ((∀ p q, p ∈ used_paths pfs → q ∈ used_paths pfs → lastPathSegment p = lastPathSegment q → p = q) →
   ∀ p q, p ∈ used_paths pfs → q ∈ used_paths pfs →
     (toAlias p = toAlias q → p = q) ∧
     (" "%char ∉ Router.chars (toAlias p) →
      import_entry (keyFor (toAlias p) p) = Some {| Alias := toAlias p; Path := p |})) ∧
  (∀ files, pfs = proto_files files → pfs ≠ [] →
     mentions "router" (body pfs) ∧
     ((∀ p, p ∈ fixed_imports → mentions (lastPathSegment p) (body pfs)) ↔
      ∃ svc m, svc ∈ template_services pfs ∧ m ∈ Methods svc)).
Proof.
  split_and!.
  - intros svc m Hsvc Hm. unfold template_services in Hsvc.
    apply list_elem_of_bind in Hsvc as (pf & H & Hpf). apply list_elem_of_fmap in H as (sd & -> & Hsd).
    simpl in Hm. apply list_elem_of_fmap in Hm as (md & -> & Hmd).
    assert (Hu : ∀ t, t ∈ [requestType md; responseType md] →
      pkgPath (resolveType t (pkg pf) (build_pkgMap pfs)) ∈ used_paths pfs).
    { intros t Ht. apply used_by_method. by exists pf, sd, md, t. }
    do 4 eexists. split; [apply (Hu (requestType md)); left|].
    split; [apply (Hu (responseType md)); right; left|].
    split_and!; [done|done|done|apply elem_of_imports; eexists; split; [|done]..].
    + apply Hu. left.
    + apply Hu. right. left.
  - apply imports_mentioned.
  - intros Hinj p q Hp Hq. split; [|apply import_entry_key].
    intros H%toAlias_segment. by apply Hinj.
  - intros files -> Hne. apply fixed_imports_used. done.
Qed.

(** A service whose only method streams. *)
Definition streaming_files : list (string * option string) :=
  [("a.proto", Some "package app; service Feed { rpc Watch (stream Query) returns (Event); }")].

Example streaming_service :
  (λ svc, (ServiceName svc, Methods svc)) <$> template_services (proto_files streaming_files)
  = [("Feed", [])].
Proof. vm_compute. reflexivity. Qed.

Lemma generated_imports_ok_witness :
  mentions "router" (body (proto_files streaming_files)) ∧
  ¬ (∀ p, p ∈ fixed_imports → mentions (lastPathSegment p) (body (proto_files streaming_files))).
Proof.
  destruct (generated_imports_ok (proto_files streaming_files)) as (_ & _ & _ & H).
  destruct (H streaming_files eq_refl) as [H1 H2].
  { vm_compute. discriminate. }
  split; [exact H1|]. rewrite H2. intros (svc & m & Hs & Hm).
  assert (E : Methods <$> template_services (proto_files streaming_files) = [[]]) by (vm_compute; reflexivity).
  apply (list_elem_of_fmap_2 Methods) in Hs. rewrite E in Hs. apply list_elem_of_singleton in Hs.
  rewrite Hs in Hm. by apply not_elem_of_nil in Hm.
Defined.

(** C34: parsing inverts printing.  A file that consists of service definitions in
    the layout of the repository's files, with words as names and dotted words
    as types, is parsed to exactly these definitions. *)
Theorem services_roundtrip (path : string) (svcs : list serviceDef) :
  Forall printable svcs →
  services (parseProto path (nl +:+ print_services svcs)) = svcs.
Proof.
  intros Hs. simpl. unfold delete_all.
  replace (delete_all_from _ reComment None _) with (nl +:+ print_services svcs).
  2: { destruct (String.length _) as [|n]; [done|]. cbn [delete_all_from].
       by rewrite (no_comment _ (services_no_slash _ Hs)). }
  apply find_all_services; [done|]. rewrite str_length_app.
  pose proof (concat_length print_service svcs ltac:(intros x; discriminate)). simpl.
  unfold print_services. lia.
Qed.

(** ** The repository's definitions *)

(** [src/proto/app/gacha_service.proto] *)
Definition gacha_service_proto : string := Json.requote "syntax = 'proto3';
package app;
option go_package = 'rpc-server/pb/app';
option java_package = 'tech.bobliu.rpc.proto.app';
option java_multiple_files = true;

message DrawRequest {
  int64 user_id = 1;
  int32 count = 2;
}

message Card {
  string name = 1;
  int32 stars = 2;
}

message DrawResponse {
  repeated Card cards = 1;
  string instance = 2;
}

service GachaService {
  rpc Draw(DrawRequest) returns (DrawResponse);
}
".

(** [src/proto/app/user_service.proto] *)
Definition user_service_proto : string := Json.requote "syntax = 'proto3';
package app;
option go_package = 'rpc-server/pb/app';
option java_package = 'tech.bobliu.rpc.proto.app';
option java_multiple_files = true;

message RegisterRequest {
  string name = 1;
  string password = 2;
}

message RegisterResponse {
  int64 user_id = 1;
  string message = 2;
}

message LoginRequest {
  string name = 1;
  string password = 2;
}

message LoginResponse {
  int64 user_id = 1;
  string message = 2;
}

message LogoutRequest {
  int64 user_id = 1;
}

message LogoutResponse {
  string message = 1;
}

service UserService {
  rpc Register(RegisterRequest) returns (RegisterResponse);
  rpc Login(LoginRequest) returns (LoginResponse);
  rpc Logout(LogoutRequest) returns (LogoutResponse);
}
".

(** [src/proto/framework/registry.proto] *)
Definition registry_proto : string := Json.requote "syntax = 'proto3';
package registry;
option go_package = 'rpc-server/pb';
option java_package = 'tech.bobliu.rpc.proto';
option java_multiple_files = true;

message RegisterRequest {
  int32 port = 1;
  string service = 2;
}

message HeartbeatRequest {
  int32 port = 1;
}

message SubscribeRequest {}

message RegistryResponse {
  bool success = 1;
  string message = 2;
}

message ServiceInfo {
  string ip = 1;
  int32 port = 2;
}

message ServiceListEntry {
  repeated ServiceInfo instances = 1;
}

message ServiceList {
  map<string, ServiceListEntry> services = 1;
}

message RegistryMessage {
  oneof payload {
    RegisterRequest register = 1;
    HeartbeatRequest heartbeat = 2;
    SubscribeRequest subscribe = 3;
    RegistryResponse response = 4;
    ServiceList service_list = 5;
  }
}
".

(** [src/proto/framework/rpc.proto] *)
Definition rpc_proto : string := Json.requote "syntax = 'proto3';
package rpc;
option go_package = 'rpc-server/pb';
option java_package = 'tech.bobliu.rpc.proto';
option java_multiple_files = true;

message RpcRequest {
  string request_id = 1;
  string service = 2;
  string method = 3;
  bytes payload = 4;
}

message RpcResponse {
  string request_id = 1;
  bytes payload = 2;
  Error error = 3;
}

message Error {
  int32 code = 1;
  string message = 2;
}
".

(** The files that each generator walks over, in its order. *)
Definition java_protos : list (string * option string) :=
  [("app/gacha_service.proto", Some gacha_service_proto);
   ("app/user_service.proto", Some user_service_proto)].
Definition go_protos : list (string * option string) :=
  java_protos ++ [("framework/registry.proto", Some registry_proto);
                  ("framework/rpc.proto", Some rpc_proto)].

(** A file without services is not in [pkgMap]: types of its package are looked for
    under a guessed path and not under its [go_package]. *)
Example unlisted_package :
  pkgPath (resolveType "registry.ServiceInfo" "app" (build_pkgMap (proto_files go_protos)))
    = "rpc-server/pb/registry" ∧
  goPackage (parseProto "framework/registry.proto" registry_proto) = "rpc-server/pb".
Proof. vm_compute. split; reflexivity. Qed.

Example generated_imports :
  elements (template_imports (proto_files go_protos)) = ["pb_app rpc-server/pb/app"].
Proof. vm_compute. reflexivity. Qed.

Definition demo_services : list serviceDef :=
  [{| s_name := "UserService"; methods :=
        [{| m_name := "Login"; requestType := "app.LoginRequest"; responseType := "LoginResponse" |}] |}].

Lemma services_roundtrip_witness :
  services (parseProto "p" (nl +:+ print_services demo_services)) = demo_services.
Proof.
  apply (services_roundtrip "p" demo_services).
  constructor; [|constructor]. split; [by repeat constructor|]. constructor; [|constructor].
  split_and!; by repeat constructor.
Defined.

Lemma java_calls_routed_witness :
  ∃ rpc, Router.Route (Router.register_all
           (registrations (template_services (proto_files go_protos))) Router.New)
           "GachaService" "draw" = Some ("GachaService", rpc) ∧ lowerFirst rpc = "draw".
Proof.
  destruct (java_calls_routed go_protos java_protos
    {| Service := "GachaService"; ProtoPkg := "tech.bobliu.rpc.proto.app"; JavaMethods :=
         [{| JavaRpcName := "Draw"; JavaName := "draw"; JavaRequest := "DrawRequest";
             JavaResponse := "DrawResponse" |}] |}
    {| JavaRpcName := "Draw"; JavaName := "draw"; JavaRequest := "DrawRequest";
       JavaResponse := "DrawResponse" |}) as (rpc & H1 & H2 & _).
  - intros x Hx. apply elem_of_app. by left.
  - vm_compute. left.
  - left.
  - exists rpc. split; [exact H1|exact H2].
Defined.

End Genrpc.
