(* ===== verification/Registry.v ===== *)
(** * The registry: [src/registry/src]

    The store of service instances ([registry/store.rs]), the frame codec
    ([network/codec.rs]) and the handling of one connection
    ([network/server.rs]).  Both locks of the store are held for the whole of
    [register], [deregister] and [remove_expired], which are therefore one step
    each; the time is an argument.  [heartbeat] and [cleanup_connection] are one step here
    too, although the locks are taken twice in the one and once per address in the other:
    [RegistrySystem.v] has their parts as steps that interleave with other tasks, and
    [heartbeat_late] there says when the second part of a heartbeat does what the whole
    does.  The locks, the sockets and the tasks of tokio
    are not modelled: a connection is the list of what happens on it, with what
    others do to the store in between ([event]); a failure of [peer_addr] is an
    error of the socket. *)

From S2P Require Import Prelude Codec Pb Wire.

Module Registry.
Import Reg.

(** ** The store *)

Abbreviation key := (string * Z)%type.

Record ServiceInstance : Type := { ip : string; port : Z; last_heartbeat : Z }.

Record ServiceStore : Type := {
  inner : gmap string (list ServiceInstance);
  index : gmap key string;
}.

Definition new : ServiceStore := {| inner := ∅; index := ∅ |}.

Definition key_of (i : ServiceInstance) : key := (ip i, port i).
Definition with_key (k : key) (i : ServiceInstance) : bool := bool_decide (key_of i = k).

(** The loop over [iter_mut]: the first instance with the key gets the time. *)
Fixpoint touch (k : key) (now : Z) (l : list ServiceInstance) : option (list ServiceInstance) :=
  match l with
  | [] => None
  | i :: l =>
    if with_key k i then Some ({| ip := ip i; port := port i; last_heartbeat := now |} :: l)
    else (i ::.) <$> touch k now l
  end.

Definition without (k : key) (l : list ServiceInstance) : list ServiceInstance :=
  List.filter (λ i, negb (with_key k i)) l.

(** Insertion of a new instance at the end of its service's list. *)
Definition push (k : key) (service : string) (now : Z) (s : ServiceStore) : ServiceStore :=
  {| inner := <[service := default [] (inner s !! service)
                           ++ [{| ip := k.1; port := k.2; last_heartbeat := now |}]]> (inner s);
     index := <[k := service]> (index s) |}.

Definition register (k : key) (service : string) (now : Z) (s : ServiceStore) : ServiceStore * bool :=
  match index s !! k with
  | Some old_service =>
    if String.eqb old_service service then
      match inner s !! service ≫= touch k now with
      | Some l => ({| inner := <[service := l]> (inner s); index := index s |}, false)
      | None => (push k service now s, true)
      end
    else
      (push k service now {| inner := alter (without k) old_service (inner s); index := index s |},
       true)
  | None => (push k service now s, true)
  end.

(** [heartbeat] takes the two locks one after the other: what happens after the
    index was read. *)
Definition heartbeat_service (k : key) (service : string) (now : Z) (s : ServiceStore)
    : ServiceStore * bool :=
  match inner s !! service ≫= touch k now with
  | Some l => ({| inner := <[service := l]> (inner s); index := index s |}, true)
  | None => (s, false)
  end.

Definition heartbeat (k : key) (now : Z) (s : ServiceStore) : ServiceStore * bool :=
  match index s !! k with
  | None => (s, false)
  | Some service => heartbeat_service k service now s
  end.

Definition deregister (k : key) (s : ServiceStore) : ServiceStore * bool :=
  match index s !! k with
  | None => (s, false)
  | Some service =>
    let inner' :=
      match inner s !! service with
      | None => inner s
      | Some l =>
        match without k l with
        | [] => delete service (inner s)
        | l' => <[service := l']> (inner s)
        end
      end in
    ({| inner := inner'; index := delete k (index s) |}, true)
  end.

(** [last_heartbeat.elapsed() < timeout] *)
Definition alive (timeout now : Z) (i : ServiceInstance) : bool := now - last_heartbeat i <? timeout.

Definition expired (timeout now : Z) (s : ServiceStore) : list (string * ServiceInstance) :=
  '(service, l) ← map_to_list (inner s);
  (λ i, (service, i)) <$> List.filter (λ i, negb (alive timeout now i)) l.

Definition remove_expired (timeout now : Z) (s : ServiceStore)
    : ServiceStore * list (string * string * Z) :=
  let removed := expired timeout now s in
  ({| inner := omap (λ l, match List.filter (alive timeout now) l with [] => None | l => Some l end)
                 (inner s);
      index := foldl (λ m x, delete (key_of x.2) m) (index s) removed |},
   (λ x, (x.1, ip x.2, port x.2)) <$> removed).

Definition build_service_list (s : ServiceStore) : ServiceList :=
  omap (λ l, match l with
             | [] => None
             | _ => Some ((λ i, {| si_Ip := ip i; si_Port := port i |}) <$> l) end) (inner s).

(** ** The frame codec *)

Section codec.
Context `{!Message RegistryMessage}.

(** [decode]: an error, more bytes needed, or a message and the bytes after it. *)
Definition decode (src : bytes) : result string (option (RegistryMessage * bytes)) :=
  if (length src <? 4)%nat then Ok None
  else
    let len := Codec.Uint32 (take 4 src) in
    if Codec.max_frame <? len then Err "frame size exceeds max"
    else if (length src <? 4 + Z.to_nat len)%nat then Ok None
    else
      match Unmarshal (take (Z.to_nat len) (drop 4 src)) with
      | Err e => Err e
      | Ok msg => Ok (Some (msg, drop (Z.to_nat len) (drop 4 src)))
      end.

(** [encode] of a message with the serialised form [data]: [put_u32] and
    [put_slice]. *)
Definition encode (item : RegistryMessage) : result string bytes :=
  (λ data, Codec.PutUint32 (wrap_u32 (Z.of_nat (length data))) ++ data) <$> Marshal item.

End codec.

(** ** One connection *)

(** The store with the addresses registered over the connection, the messages sent
    on it and the lists broadcast to the subscribers. *)
Record connection : Type := {
  store : ServiceStore;
  registered_instances : list key;
  sent : list Payload;
  notified : list ServiceList;
}.

(** What the connection delivers: a message, at the time [now], with whether the
    answer to it can be sent; or an error of the codec or of the socket.  Between
    two messages the other connections and the health check change the store. *)
Inductive event : Type :=
| EMessage (msg : RegistryMessage) (now : Z) (send_ok : bool)
| EOther (others : ServiceStore → ServiceStore)
| EError.

Definition response (success : bool) (message : string) : Payload :=
  PResponse {| Success := success; RespMessage := message |}.

Definition handle_register (peer_ip : string) (now : Z) (send_ok : bool) (req : RegisterRequest)
    (c : connection) : connection * result unit unit :=
  let k := (peer_ip, rr_Port req) in
  let '(st, changed) := register k (rr_Service req) now (store c) in
  let registered := registered_instances c ++ [k] in
  if send_ok then
    ({| store := st; registered_instances := registered;
        sent := sent c ++ [response true "registered"];
        notified := notified c ++ (if changed : bool then [build_service_list st] else []) |}, Ok tt)
  else
    ({| store := st; registered_instances := registered; sent := sent c; notified := notified c |},
     Err tt).

Definition handle_heartbeat (peer_ip : string) (now : Z) (send_ok : bool) (req : HeartbeatRequest)
    (c : connection) : connection * result unit unit :=
  let '(st, found) := heartbeat (peer_ip, hb_Port req) now (store c) in
  let resp := if found : bool then response true "alive" else response false "unknown instance" in
  if send_ok then
    ({| store := st; registered_instances := registered_instances c; sent := sent c ++ [resp];
        notified := notified c |}, Ok tt)
  else
    ({| store := st; registered_instances := registered_instances c; sent := sent c;
        notified := notified c |}, Err tt).

(** The loop over the messages; [Ok true] once the peer has subscribed. *)
Fixpoint handle_server_messages (peer_ip : string) (es : list event) (c : connection)
    : connection * result unit bool :=
  match es with
  | [] => (c, Ok false)
  | EError :: _ => (c, Err tt)
  | EOther f :: es =>
    handle_server_messages peer_ip es
      {| store := f (store c); registered_instances := registered_instances c;
         sent := sent c; notified := notified c |}
  | EMessage msg now send_ok :: es =>
    match payload msg with
    | Some (PRegister req) =>
      match handle_register peer_ip now send_ok req c with
      | (c, Ok _) => handle_server_messages peer_ip es c
      | (c, Err e) => (c, Err e)
      end
    | Some (PHeartbeat req) =>
      match handle_heartbeat peer_ip now send_ok req c with
      | (c, Ok _) => handle_server_messages peer_ip es c
      | (c, Err e) => (c, Err e)
      end
    | Some PSubscribe =>
      if send_ok then
        ({| store := store c; registered_instances := registered_instances c;
            sent := sent c ++ [PServiceList (build_service_list (store c))];
            notified := notified c |}, Ok true)
      else (c, Err tt)
    | _ => handle_server_messages peer_ip es c
    end
  end.

(** [cleanup_connection] *)
Definition deregister_all (ks : list key) (s : ServiceStore) : ServiceStore * bool :=
  foldl (λ '(s, changed) k, let '(s, found) := deregister k s in (s, changed || found)) (s, false) ks.

Definition cleanup_connection (c : connection) : connection :=
  let '(st, changed) := deregister_all (registered_instances c) (store c) in
  {| store := st; registered_instances := registered_instances c; sent := sent c;
     notified := notified c ++ (if changed : bool then [build_service_list st] else []) |}.

(** [handle_connection]; [client] is how [handle_client_notifications] ends, if the
    peer subscribes. *)
Definition handle_connection (peer_ip : string) (es : list event) (client : result unit unit)
    (s : ServiceStore) : connection * result unit unit :=
  let c := {| store := s; registered_instances := []; sent := []; notified := [] |} in
  match handle_server_messages peer_ip es c with
  | (c, Err e) => (c, Err e)
  | (c, Ok false) => (cleanup_connection c, Ok tt)
  | (c, Ok true) =>
    match client with
    | Err e => (c, Err e)
    | Ok _ => (cleanup_connection c, Ok tt)
    end
  end.

(** ** The store as a map *)

(** The instances, each with its service and the time of its last sign of life. *)
Abbreviation registry_map := (gmap key (string * Z)).

Definition entry (k : key) (t : Z) : ServiceInstance :=
  {| ip := k.1; port := k.2; last_heartbeat := t |}.

(** The lists hold exactly the entries of the map, each once. *)
Record lists_represent (inn : gmap string (list ServiceInstance)) (m : registry_map) : Prop := {
  rep_inner k service t :
    m !! k = Some (service, t) ↔ ∃ l, inn !! service = Some l ∧ entry k t ∈ l;
  rep_nodup service l : inn !! service = Some l → NoDup (key_of <$> l);
}.

(** ... and so does the store. *)
Definition represents (s : ServiceStore) (m : registry_map) : Prop :=
  lists_represent (inner s) m ∧ ∀ k, index s !! k = fst <$> m !! k.

(** *** Lists of instances *)

Lemma entry_eta i : i = entry (key_of i) (last_heartbeat i).
Proof. by destruct i. Qed.

Lemma key_of_entry k t : key_of (entry k t) = k.
Proof. by destruct k. Qed.

Lemma entry_inj k t k' t' : entry k t = entry k' t' → k = k' ∧ t = t'.
Proof. destruct k, k'. by intros [= -> -> ->]. Qed.

Lemma with_key_entry k j t : with_key k (entry j t) = bool_decide (j = k).
Proof. unfold with_key. by destruct j. Qed.

Lemma elem_without k l j t : entry j t ∈ without k l ↔ entry j t ∈ l ∧ j ≠ k.
Proof.
  unfold without. rewrite list_elem_of_In, filter_In, <- list_elem_of_In, with_key_entry.
  by rewrite negb_true_iff, bool_decide_eq_false.
Qed.

Lemma filter_nodup f l : NoDup (key_of <$> l) → NoDup (key_of <$> List.filter f l).
Proof.
  induction l as [|i l IH]; simpl; [done|]. intros [Hi Hl]%NoDup_cons.
  destruct (f i); [|by apply IH]. rewrite fmap_cons. apply NoDup_cons. split; [|by apply IH].
  intros Hin. apply Hi. apply list_elem_of_fmap in Hin as (j & -> & Hj).
  apply list_elem_of_fmap_2. apply list_elem_of_In, filter_In in Hj as [Hj _].
  by apply list_elem_of_In.
Qed.

Lemma touch_spec k now l t :
  NoDup (key_of <$> l) → entry k t ∈ l →
  ∃ l', touch k now l = Some l' ∧ key_of <$> l' = key_of <$> l ∧
    ∀ j u, entry j u ∈ l' ↔ (j = k ∧ u = now) ∨ (j ≠ k ∧ entry j u ∈ l).
Proof.
  induction l as [|i l IH]; intros Hnd Hin; [by apply not_elem_of_nil in Hin|].
  rewrite fmap_cons in Hnd. apply NoDup_cons in Hnd as [Hni Hnd].
  simpl. unfold with_key. case_bool_decide as Hk.
  - eexists. split; [done|]. split; [done|]. intros j u.
    assert (Hkl : ∀ u, entry k u ∉ l).
    { intros v Hv. apply Hni. rewrite Hk. apply (list_elem_of_fmap_2 key_of) in Hv. by destruct k. }
    change {| ip := ip i; port := port i; last_heartbeat := now |} with (entry (key_of i) now).
    rewrite !elem_of_cons, Hk. split.
    + intros [[-> ->]%entry_inj|Hj]; [auto|]. right. split; [|auto]. intros ->. by apply Hkl in Hj.
    + intros [[-> ->]|[Hne [Hj|Hj]]]; [auto| |auto]. exfalso. apply Hne. rewrite <- Hk, <- Hj. by destruct j.
  - apply elem_of_cons in Hin as [Hin|Hin]; [exfalso; apply Hk; rewrite <- Hin; by destruct k|].
    destruct (IH Hnd Hin) as (l' & -> & Hkeys & Hl'). eexists. split; [done|].
    split; [by rewrite !fmap_cons, Hkeys|]. intros j u. rewrite !elem_of_cons, Hl'. split.
    + intros [Hj|[?|[??]]]; [|auto|auto]. right. split; [|auto]. intros ->. apply Hk.
      rewrite <- Hj. by destruct k.
    + intros [?|[? [?|?]]]; auto.
Qed.

(** *** Representation *)

Lemma rep_absent inn m k :
  lists_represent inn m → m !! k = None → ∀ service l t, inn !! service = Some l → entry k t ∉ l.
Proof.
  intros [Hr _] Hk service l t Hl Hin.
  assert (m !! k = Some (service, t)) by (apply Hr; eauto). congruence.
Qed.

(** The list of a service is replaced; the entries of other services stay. *)
Lemma rep_insert inn m m' service l' :
  lists_represent inn m → NoDup (key_of <$> l') →
  (∀ k sv t, sv ≠ service → m' !! k = Some (sv, t) ↔ m !! k = Some (sv, t)) →
  (∀ k t, m' !! k = Some (service, t) ↔ entry k t ∈ l') →
  lists_represent (<[service := l']> inn) m'.
Proof.
  intros [Hr Hn] Hnd Hother Hl. constructor.
  - intros k sv t. destruct (decide (sv = service)) as [->|Hne].
    + rewrite Hl. setoid_rewrite lookup_insert_eq. naive_solver.
    + rewrite Hother by done. rewrite Hr. setoid_rewrite lookup_insert_ne; [done|done].
  - intros sv l. rewrite lookup_insert_Some. intros [[-> ->]|[_ H]]; [done|]. by eapply Hn.
Qed.

Lemma rep_push inn m k service now :
  lists_represent inn m → m !! k = None →
  lists_represent (<[service := default [] (inn !! service) ++ [entry k now]]> inn)
    (<[k := (service, now)]> m).
Proof.
  intros Hrep Hk. pose proof (rep_absent _ _ _ Hrep Hk) as Habs.
  assert (Hold : ∀ j t, entry j t ∈ default [] (inn !! service) ↔ m !! j = Some (service, t)).
  { intros j t. rewrite (rep_inner _ _ Hrep). destruct (inn !! service) as [l|]; simpl.
    - naive_solver.
    - rewrite elem_of_nil. naive_solver. }
  apply (rep_insert inn m); [done| | |].
  - rewrite fmap_app, NoDup_app. split_and!.
    + destruct (inn !! service) as [l|] eqn:E; [by eapply rep_nodup|constructor].
    + intros j Hj Hjk. apply list_elem_of_singleton in Hjk. rewrite key_of_entry in Hjk. subst j.
      apply list_elem_of_fmap in Hj as (i & Hi & Hin). rewrite (entry_eta i), <- Hi in Hin.
      apply Hold in Hin. congruence.
    + apply NoDup_singleton.
  - intros j sv t Hne. destruct (decide (j = k)) as [->|].
    + rewrite lookup_insert_eq, Hk. split; [intros [= <- _]; done|done].
    + by rewrite lookup_insert_ne.
  - intros j t. rewrite elem_of_app, list_elem_of_singleton, Hold.
    destruct (decide (j = k)) as [->|].
    + rewrite lookup_insert_eq, Hk. split; [intros [= <-]; auto|].
      intros [?|[_ ->]%entry_inj]; done.
    + rewrite lookup_insert_ne by done. split; [auto|]. intros [?|[-> _]%entry_inj]; done.
Qed.

Lemma rep_without inn m k service t l :
  lists_represent inn m → m !! k = Some (service, t) → inn !! service = Some l →
  lists_represent (<[service := without k l]> inn) (delete k m).
Proof.
  intros Hrep Hk Hl.
  apply (rep_insert inn m); [done|by apply filter_nodup; eapply rep_nodup| |].
  - intros j sv u Hne. destruct (decide (j = k)) as [->|].
    + rewrite lookup_delete_eq, Hk. naive_solver.
    + by rewrite lookup_delete_ne.
  - intros j u. rewrite elem_without, lookup_delete_Some, (rep_inner _ _ Hrep). naive_solver.
Qed.

Lemma rep_drop_empty inn m service :
  lists_represent (<[service := []]> inn) m → lists_represent (delete service inn) m.
Proof.
  intros [Hr Hn]. constructor.
  - intros k sv t. rewrite Hr. setoid_rewrite lookup_insert_Some. setoid_rewrite lookup_delete_Some.
    split; [|naive_solver]. intros (l & [[_ <-]|?] & Hin); [by apply not_elem_of_nil in Hin|eauto].
  - intros sv l [? H]%lookup_delete_Some. apply (Hn sv). by rewrite lookup_insert_ne.
Qed.

Lemma rep_touch inn m k service t now :
  lists_represent inn m → m !! k = Some (service, t) →
  ∃ l', inn !! service ≫= touch k now = Some l' ∧
        lists_represent (<[service := l']> inn) (<[k := (service, now)]> m).
Proof.
  intros Hrep Hk. pose proof Hk as (l & Hl & Hin)%(rep_inner _ _ Hrep).
  pose proof (rep_nodup _ _ Hrep _ _ Hl) as Hnd.
  destruct (touch_spec k now l t Hnd Hin) as (l' & Ht & Hkeys & Hl'). exists l'.
  rewrite Hl. split; [done|]. apply (rep_insert inn m); [done|by rewrite Hkeys| |].
  - intros j sv u Hne. destruct (decide (j = k)) as [->|].
    + rewrite lookup_insert_eq, Hk. naive_solver.
    + by rewrite lookup_insert_ne.
  - intros j u. rewrite Hl', lookup_insert_Some, (rep_inner _ _ Hrep). naive_solver.
Qed.

(** *** Operations *)

Lemma index_insert (idx : gmap key string) (m : registry_map) k service now :
  (∀ j, j ≠ k → idx !! j = fst <$> m !! j) →
  ∀ j, <[k := service]> idx !! j = fst <$> <[k := (service, now)]> m !! j.
Proof.
  intros H j. destruct (decide (j = k)) as [->|]; [by rewrite !lookup_insert_eq|].
  rewrite !lookup_insert_ne by done. by apply H.
Qed.

Lemma push_represents s m k service now :
  lists_represent (inner s) (delete k m) → (∀ j, index s !! j = fst <$> m !! j) →
  represents (push k service now s) (<[k := (service, now)]> m).
Proof.
  intros Hl Hi. split.
  - rewrite <- (insert_delete_eq m). apply rep_push; [done|]. apply lookup_delete_eq.
  - apply index_insert. auto.
Qed.

Lemma register_represents s m k service now :
  represents s m →
  represents (register k service now s).1 (<[k := (service, now)]> m) ∧
  (register k service now s).2 = negb (bool_decide (fst <$> m !! k = Some service)).
Proof.
  intros [Hl Hi]. unfold register. rewrite Hi.
  destruct (m !! k) as [[old t]|] eqn:Hk; simpl.
  - destruct (String.eqb_spec old service) as [->|Hne].
    + rewrite bool_decide_true by done.
      destruct (rep_touch _ _ k service t now Hl Hk) as (l' & -> & Hrep). simpl. split; [|done].
      split; [done|]. intros j. simpl. rewrite Hi.
      destruct (decide (j = k)) as [->|]; [by rewrite lookup_insert_eq, Hk|by rewrite lookup_insert_ne].
    + rewrite bool_decide_false by congruence. split; [|done]. apply push_represents; [|done].
      simpl. pose proof Hk as (l & Hin & _)%(rep_inner _ _ Hl).
      replace (alter (without k) old (inner s)) with (<[old := without k l]> (inner s)).
      * by eapply rep_without.
      * symmetry. rewrite <- (insert_id (inner s) old l) at 1 by done. by rewrite alter_insert_eq.
  - split; [|done]. apply push_represents; [|done]. by rewrite delete_id.
Qed.

Lemma heartbeat_represents s m k now :
  represents s m →
  match m !! k with
  | Some (service, _) =>
    represents (heartbeat k now s).1 (<[k := (service, now)]> m) ∧ (heartbeat k now s).2 = true
  | None => heartbeat k now s = (s, false)
  end.
Proof.
  intros [Hl Hi]. unfold heartbeat, heartbeat_service. rewrite Hi.
  destruct (m !! k) as [[service t]|] eqn:Hk; [|done]. simpl.
  destruct (rep_touch _ _ k service t now Hl Hk) as (l' & -> & Hrep). split; [|done].
  split; [done|]. intros j. simpl. rewrite Hi.
  destruct (decide (j = k)) as [->|]; [by rewrite lookup_insert_eq, Hk|by rewrite lookup_insert_ne].
Qed.

Lemma deregister_represents s m k :
  represents s m →
  represents (deregister k s).1 (delete k m) ∧
  (deregister k s).2 = bool_decide (is_Some (m !! k)).
Proof.
  intros [Hl Hi]. unfold deregister. rewrite Hi. destruct (m !! k) as [[service t]|] eqn:Hk; simpl.
  - split; [|done].
    pose proof Hk as (l & Hin & _)%(rep_inner _ _ Hl). rewrite Hin.
    pose proof (rep_without _ _ _ _ _ _ Hl Hk Hin) as Hrep. split.
    + destruct (without k l) eqn:E; [|exact Hrep]. by apply rep_drop_empty.
    + intros j. simpl. destruct (decide (j = k)) as [->|].
      * by rewrite !lookup_delete_eq.
      * by rewrite !lookup_delete_ne, Hi.
  - rewrite delete_id by done. by split; [split|].
Qed.

Lemma elem_filter_alive timeout now l k t :
  entry k t ∈ List.filter (alive timeout now) l ↔ entry k t ∈ l ∧ now - t < timeout.
Proof. rewrite list_elem_of_In, filter_In, <- list_elem_of_In. unfold alive. simpl. by rewrite Z.ltb_lt. Qed.

Lemma elem_expired timeout now s sv k t :
  (sv, entry k t) ∈ expired timeout now s ↔
  ∃ l, inner s !! sv = Some l ∧ entry k t ∈ l ∧ timeout ≤ now - t.
Proof.
  unfold expired. rewrite list_elem_of_bind. split.
  - intros ([sv' l] & Hin & Hl). apply elem_of_map_to_list in Hl.
    apply list_elem_of_fmap in Hin as (i & [= <- <-] & Hi).
    apply list_elem_of_In, filter_In in Hi as [Hi Ha]. apply list_elem_of_In in Hi.
    unfold alive in Ha. simpl in Ha. apply negb_true_iff, Z.ltb_ge in Ha. eauto.
  - intros (l & Hl & Hin & Ht). exists (sv, l). split; [|by apply elem_of_map_to_list].
    apply list_elem_of_fmap. exists (entry k t). split; [done|].
    apply list_elem_of_In, filter_In. split; [by apply list_elem_of_In|].
    unfold alive. simpl. by apply negb_true_iff, Z.ltb_ge.
Qed.

Lemma foldl_delete (l : list (string * ServiceInstance)) (idx : gmap key string) k :
  foldl (λ m x, delete (key_of x.2) m) idx l !! k =
  if decide (k ∈ key_of <$> l.*2) then None else idx !! k.
Proof.
  revert idx. induction l as [|x l IH]; intros idx; simpl; [done|]. rewrite IH.
  destruct (decide (k ∈ key_of <$> l.*2)) as [Hin|Hn].
  - rewrite decide_True; [done|]. by right.
  - destruct (decide (k = key_of x.2)) as [->|Hne].
    + rewrite lookup_delete_eq, decide_True; [done|]. by left.
    + rewrite lookup_delete_ne, decide_False; [done| |done]. by intros [?|?]%elem_of_cons.
Qed.

(** The entries that are alive. *)
Definition still_alive (timeout now : Z) (x : key * (string * Z)) : Prop := now - x.2.2 < timeout.
#[export] Instance still_alive_dec timeout now x : Decision (still_alive timeout now x).
Proof. unfold still_alive. apply _. Defined.

Lemma remove_expired_represents s m timeout now :
  represents s m →
  represents (remove_expired timeout now s).1 (filter (still_alive timeout now) m) ∧
  ∀ sv i p, (sv, i, p) ∈ (remove_expired timeout now s).2 ↔
            ∃ t, m !! (i, p) = Some (sv, t) ∧ timeout ≤ now - t.
Proof.
  intros [Hl Hi]. split; [split|].
  - constructor.
    + intros k sv t. rewrite map_lookup_filter_Some, (rep_inner _ _ Hl). unfold still_alive. simpl.
      rewrite lookup_omap. split.
      * intros [(l & -> & Hin) Ht]. simpl.
        assert (Hf : entry k t ∈ List.filter (alive timeout now) l) by (by apply elem_filter_alive).
        destruct (List.filter _ l) as [|x l']; [by apply not_elem_of_nil in Hf|]. eauto.
      * intros (l' & Ho & Hin). destruct (inner s !! sv) as [l|] eqn:El; [|done]. simpl in Ho.
        assert (Hl' : l' = List.filter (alive timeout now) l) by (by case_match; simplify_eq).
        subst l'. apply elem_filter_alive in Hin as [? ?]. eauto.
    + intros sv l'. simpl. rewrite lookup_omap. destruct (inner s !! sv) as [l|] eqn:El; [|done].
      simpl. intros Ho.
      assert (l' = List.filter (alive timeout now) l) as -> by (by case_match; simplify_eq).
      apply filter_nodup. by eapply rep_nodup.
  - intros k. simpl. rewrite foldl_delete, Hi. case_decide as Hd.
    + symmetry. apply fmap_None, map_lookup_filter_None. right. intros [sv t] Hk Ha.
      apply list_elem_of_fmap in Hd as (i & Hki & Hin). apply list_elem_of_fmap in Hin as ([sv' j] & -> & Hin).
      simpl in Hki. rewrite (entry_eta j), <- Hki in Hin. apply elem_expired in Hin as (l & Hl' & Hin & Ht).
      assert (m !! k = Some (sv', last_heartbeat j)) by (apply (rep_inner _ _ Hl); eauto).
      unfold still_alive in Ha. simplify_eq/=. lia.
    + destruct (m !! k) as [[sv t]|] eqn:Hk.
      * rewrite (proj2 (map_lookup_filter_Some _ _ _ (sv, t))); [done|]. split; [done|].
        unfold still_alive. simpl. destruct (Z.lt_ge_cases (now - t) timeout); [done|].
        exfalso. apply Hd. apply list_elem_of_fmap. exists (entry k t). split; [by rewrite key_of_entry|].
        apply list_elem_of_fmap. exists (sv, entry k t). split; [done|]. apply elem_expired.
        apply (rep_inner _ _ Hl) in Hk as (l & ? & ?). eauto.
      * rewrite (proj2 (map_lookup_filter_None _ _ _)); [done|by left].
  - intros sv i p. simpl. rewrite list_elem_of_fmap. split.
    + intros ([sv' j] & [= -> -> ->] & Hin). rewrite (entry_eta j) in Hin.
      apply elem_expired in Hin as (l & Hl' & Hin & Ht). exists (last_heartbeat j).
      split; [|done]. apply (rep_inner _ _ Hl). eauto.
    + intros (t & Hk & Ht). exists (sv, entry (i, p) t). split; [done|]. apply elem_expired.
      apply (rep_inner _ _ Hl) in Hk as (l & ? & ?). eauto.
Qed.

Lemma build_list_exact s m sv :
  represents s m →
  match build_service_list s !! sv with
  | Some infos =>
    infos ≠ [] ∧ NoDup infos ∧
    (∀ i p, {| si_Ip := i; si_Port := p |} ∈ infos ↔ ∃ t, m !! (i, p) = Some (sv, t))
  | None => ∀ k t, m !! k ≠ Some (sv, t)
  end.
Proof.
  intros [Hl _]. unfold build_service_list. rewrite lookup_omap.
  destruct (inner s !! sv) as [l|] eqn:El; simpl.
  - assert (Hin : ∀ k t, m !! k = Some (sv, t) ↔ entry k t ∈ l).
    { intros k t. rewrite (rep_inner _ _ Hl). naive_solver. }
    destruct l as [|x l]; simpl.
    + intros k t Hk. apply Hin in Hk. by apply not_elem_of_nil in Hk.
    + set (infos := _ :: _). assert (Hi : infos = (λ i, {| si_Ip := ip i; si_Port := port i |}) <$> (x :: l)) by done.
      clearbody infos. subst infos. split_and!; [done| |].
      * apply (NoDup_fmap_1 (λ si, (si_Ip si, si_Port si))). rewrite <- list_fmap_compose.
        exact (rep_nodup _ _ Hl _ _ El).
      * intros i p. rewrite list_elem_of_fmap. split.
        -- intros (j & [= -> ->] & Hj). exists (last_heartbeat j). apply Hin. by rewrite (entry_eta j) in Hj.
        -- intros (t & Ht). apply Hin in Ht. by exists (entry (i, p) t).
  - intros k t Hk. apply (rep_inner _ _ Hl) in Hk as (l & ? & _). congruence.
Qed.

Lemma deregister_all_represents ks : ∀ s m b,
  represents s m →
  let r := foldl (λ '(s, changed) k, let '(s, found) := deregister k s in (s, changed || found)) (s, b) ks in
  represents r.1 (foldl (λ m k, delete k m) m ks) ∧
  r.2 = b || existsb (λ k, bool_decide (is_Some (m !! k))) ks.
Proof.
  induction ks as [|k ks IH]; intros s m b Hrep; simpl; [by rewrite orb_false_r|].
  destruct (deregister k s) as [s' found] eqn:E.
  destruct (deregister_represents s m k Hrep) as [Hr Hf]. rewrite E in Hr, Hf. simpl in Hr, Hf.
  destruct (IH s' (delete k m) (b || found) Hr) as [H1 H2]. split; [done|].
  rewrite H2, Hf, <- orb_assoc. f_equal.
  destruct (bool_decide (is_Some (m !! k))) eqn:Hk; [done|]. simpl.
  apply bool_decide_eq_false in Hk. rewrite delete_id; [done|]. by destruct (m !! k); [destruct Hk|].
Qed.

(** ** Connections *)

(** The addresses whose registration a connection has handled. *)
Fixpoint registered_by (peer_ip : string) (es : list event) : list key :=
  match es with
  | [] | EError :: _ => []
  | EOther _ :: es => registered_by peer_ip es
  | EMessage msg _ send_ok :: es =>
    match payload msg with
    | Some (PRegister req) =>
      (peer_ip, rr_Port req) :: if send_ok then registered_by peer_ip es else []
    | Some (PHeartbeat _) => if send_ok then registered_by peer_ip es else []
    | Some PSubscribe => []
    | _ => registered_by peer_ip es
    end
  end.

(** Nothing else touches the store. *)
Definition alone (e : event) : Prop := match e with EOther _ => False | _ => True end.

(** The others keep the store well formed. *)
Definition harmless (e : event) : Prop :=
  match e with
  | EOther f => ∀ s m, represents s m → ∃ m', represents (f s) m'
  | _ => True
  end.

(** [m'] has the addresses [ks] and differs from [m] in nothing else but times. *)
Definition gained (ks : list key) (m m' : registry_map) : Prop :=
  ∀ k, (k ∈ ks → is_Some (m' !! k)) ∧ (k ∉ ks → fst <$> m' !! k = fst <$> m !! k).

Lemma gained_refl m : gained [] m m.
Proof. intros k. split; [by intros ?%not_elem_of_nil|done]. Qed.

Lemma gained_same ks m m1 m' :
  (∀ k, fst <$> m1 !! k = fst <$> m !! k) → gained ks m1 m' → gained ks m m'.
Proof. intros H1 H2 k. destruct (H2 k) as [Ha Hb]. split; [done|]. intros Hk. by rewrite Hb, H1. Qed.

Lemma gained_cons k v ks m m' : gained ks (<[k := v]> m) m' → gained (k :: ks) m m'.
Proof.
  intros H j. destruct (H j) as [Ha Hb]. destruct (decide (j ∈ ks)) as [Hj|Hj].
  - split; [auto|]. intros Hn. exfalso. apply Hn. by right.
  - specialize (Hb Hj). split.
    + intros [->|?]%elem_of_cons; [|done]. rewrite lookup_insert_eq in Hb.
      destruct (m' !! k); [done|discriminate].
    + intros [Hne _]%not_elem_of_cons. by rewrite Hb, lookup_insert_ne.
Qed.

Lemma heartbeat_keeps s m k now :
  represents s m →
  ∃ m', represents (heartbeat k now s).1 m' ∧ ∀ j, fst <$> m' !! j = fst <$> m !! j.
Proof.
  intros Hrep. pose proof (heartbeat_represents s m k now Hrep) as H.
  destruct (m !! k) as [[sv t]|] eqn:Hk.
  - exists (<[k := (sv, now)]> m). split; [apply H|]. intros j.
    destruct (decide (j = k)) as [->|]; [by rewrite lookup_insert_eq, Hk|by rewrite lookup_insert_ne].
  - rewrite H. eauto.
Qed.

(** The invariant of the loop over the messages. *)
Lemma handle_server_messages_inv peer_ip es : ∀ c m,
  represents (store c) m → Forall harmless es →
  ∃ m', let '(c', r) := handle_server_messages peer_ip es c in
        represents (store c') m' ∧
        registered_instances c' = registered_instances c ++ registered_by peer_ip es ∧
        (Forall alone es → gained (registered_by peer_ip es) m m').
Proof.
  induction es as [|[msg now send_ok|f|] es IH]; intros c m Hrep Hes; simpl.
  - exists m. rewrite app_nil_r. auto using gained_refl.
  - apply Forall_cons in Hes as [_ Hes].
    destruct (payload msg) as [[req|req| |resp|sl]|]; try by (
      destruct (IH c m Hrep Hes) as [m' Hm']; exists m'; destruct handle_server_messages;
      destruct Hm' as (? & ? & Hg); split_and!; [done|done|]; intros [_ ?]%Forall_cons; auto).
    + unfold handle_register.
      destruct (register_represents (store c) m (peer_ip, rr_Port req) (rr_Service req) now Hrep) as [Hr _].
      destruct register as [st changed]; simpl in Hr. destruct send_ok.
      * match goal with |- context [handle_server_messages _ _ ?c1] => destruct (IH c1 _ Hr Hes) as [m' Hm'] end.
        exists m'. destruct handle_server_messages. destruct Hm' as (? & Hreg & Hg). split_and!; [done| |].
        -- rewrite Hreg. simpl. by rewrite <- app_assoc.
        -- intros [_ ?]%Forall_cons. eapply gained_cons; auto.
      * eexists. split_and!; [exact Hr|done|]. intros _. eapply gained_cons, gained_refl.
    + unfold handle_heartbeat.
      destruct (heartbeat_keeps (store c) m (peer_ip, hb_Port req) now Hrep) as (m1 & Hr & Hsame).
      destruct heartbeat as [st found]; simpl in Hr. destruct send_ok.
      * match goal with |- context [handle_server_messages _ _ ?c1] => destruct (IH c1 _ Hr Hes) as [m' Hm'] end.
        exists m'. destruct handle_server_messages. destruct Hm' as (? & Hreg & Hg). split_and!; [done|done|].
        intros [_ ?]%Forall_cons. eapply gained_same; eauto.
      * exists m1. rewrite app_nil_r. split_and!; [done|done|]. intros _.
        by eapply gained_same, gained_refl.
    + exists m. destruct send_ok; simpl; rewrite app_nil_r; auto using gained_refl.
  - apply Forall_cons in Hes as [Hf Hes]. destruct (Hf _ _ Hrep) as [m1 Hm1].
    match goal with |- context [handle_server_messages _ _ ?c1] => destruct (IH c1 _ Hm1 Hes) as [m' Hm'] end.
    exists m'. destruct handle_server_messages. destruct Hm' as (? & ? & _). split_and!; [done|done|].
    by intros [[] _]%Forall_cons.
  - exists m. rewrite app_nil_r. auto using gained_refl.
Qed.

Lemma foldl_delete_lookup ks : ∀ (m : registry_map) k,
  foldl (λ m k, delete k m) m ks !! k = if decide (k ∈ ks) then None else m !! k.
Proof.
  induction ks as [|j ks IH]; intros m k; simpl; [done|]. rewrite IH.
  destruct (decide (k ∈ ks)); [by rewrite decide_True by set_solver|].
  destruct (decide (k = j)) as [->|].
  - by rewrite lookup_delete_eq, decide_True by set_solver.
  - by rewrite lookup_delete_ne, decide_False by set_solver.
Qed.

Lemma cleanup_represents c m :
  represents (store c) m →
  ∃ m', represents (store (cleanup_connection c)) m' ∧
        registered_instances (cleanup_connection c) = registered_instances c ∧
        ∀ k, m' !! k = if decide (k ∈ registered_instances c) then None else m !! k.
Proof.
  intros Hrep. destruct (deregister_all_represents (registered_instances c) _ _ false Hrep) as [H _].
  unfold cleanup_connection, deregister_all. destruct foldl as [st changed]. simpl in *.
  eexists. split_and!; [exact H|done|]. apply foldl_delete_lookup.
Qed.

(** ** The two codecs *)

Section interop.
Context `{!Message RegistryMessage}.

Lemma decode_parse src :
  decode src =
  match Codec.parse_frame src Io.EOF with
  | (Ok data, rest) =>
    match Unmarshal data with Err e => Err e | Ok msg => Ok (Some (msg, rest)) end
  | (Err Codec.ErrFrameTooLarge, _) => Err "frame size exceeds max"
  | (Err (Codec.CodecIo _), _) => Ok None
  end.
Proof.
  unfold decode, Codec.parse_frame. destruct (Nat.ltb_spec (length src) 4); [done|].
  destruct (_ <? _); [done|]. rewrite length_drop.
  destruct (Nat.ltb_spec (length src) (4 + Z.to_nat (Codec.Uint32 (take 4 src)))),
    (Nat.ltb_spec (length src - 4) (Z.to_nat (Codec.Uint32 (take 4 src)))); done || lia.
Qed.

Lemma encode_frame msg data :
  Marshal msg = Ok data → encode msg = Ok (Codec.frame data).
Proof. intros H. unfold encode. by rewrite H. Qed.

(** C20: The registry and the Go programs speak the same frames.  On any bytes the
    registry's [decode] finds what Go's [ReadFrame] finds on the same stream: the
    message of the first frame and the same remaining bytes, the same refusal of an
    oversized frame, and "more bytes needed" exactly where [ReadFrame] meets the end
    of the stream.  A message that Go writes is decoded to itself once all the bytes
    of its frame are there and not before, whatever follows; and what [encode] writes,
    [ReadFrame] returns to the Go client, which unmarshals it to the message. *)
Theorem registry_codec_interop (msg : RegistryMessage) (data rest : bytes) :
  Marshal msg = Ok data → Codec.fits data →
  (∀ r, Io.read_err r = Io.EOF →
     match (Codec.ReadFrame r).1 with
     | Ok d => decode (Io.stream r) =
       match Unmarshal d with
       | Err e => Err e | Ok m => Ok (Some (m, Io.stream (Codec.ReadFrame r).2)) end
     | Err Codec.ErrFrameTooLarge => decode (Io.stream r) = Err "frame size exceeds max"
     | Err (Codec.CodecIo _) => decode (Io.stream r) = Ok None
     end) ∧
  decode (Io.sent (Codec.WriteFrame data (Io.Writer [] None)).2 ++ rest) = Ok (Some (msg, rest)) ∧
  (∀ n, (n < length (Codec.frame data))%nat → decode (take n (Codec.frame data)) = Ok None) ∧
  ∃ out, encode msg = Ok out ∧
    ∀ r, Io.stream r = out ++ rest →
      ∃ r', Codec.ReadFrame r = (Ok data, r') ∧ Io.stream r' = rest ∧ Unmarshal data = Ok msg.
Proof.
  intros Hm Hfit. pose proof (Unmarshal_Marshal _ _ Hm) as Hu. split_and!.
  - intros r He. destruct (Codec.ReadFrame_parse r) as (r' & -> & Hs & _). rewrite decode_parse, He in *.
    simpl. rewrite Hs. destruct Codec.parse_frame as [[d|[]] rest']; done.
  - rewrite Codec.WriteFrame_ok by done. cbn [snd Io.sent]. rewrite app_nil_l.
    by rewrite decode_parse, Codec.parse_frame_frame, Hu.
  - intros n Hn. rewrite decode_parse. pose proof (Codec.parse_frame_truncated data n Hfit Hn) as Ht.
    destruct Codec.parse_frame as [res rest']. simpl in Ht. by rewrite Ht.
  - exists (Codec.frame data). split; [by apply encode_frame|]. intros r Hr.
    destruct (Codec.ReadFrame_parse r) as (r' & -> & Hs & _).
    rewrite Hr in *. rewrite Codec.parse_frame_frame in Hs by done.
    rewrite Codec.parse_frame_frame by done. eauto.
Qed.

End interop.

(** ** Properties *)

(** C18: The store behaves as one map from addresses to a service and the time of the
    last sign of life.  [register] sets the entry of the address and says whether its
    service changed, [heartbeat] sets the time of an entry that exists and answers
    false otherwise, [deregister] removes the entry and says whether there was one,
    [remove_expired] keeps exactly the entries younger than the timeout and returns
    exactly the others, and [build_service_list] lists under a service exactly the
    addresses of its entries, each once, and no service without instances. *)
Theorem store_refines (s : ServiceStore) (m : registry_map) (k : key) (service : string) (now timeout : Z) :
  represents s m →
  (represents (register k service now s).1 (<[k := (service, now)]> m) ∧
   (register k service now s).2 = negb (bool_decide (fst <$> m !! k = Some service))) ∧
  match m !! k with
  | Some (sv, _) =>
    represents (heartbeat k now s).1 (<[k := (sv, now)]> m) ∧ (heartbeat k now s).2 = true
  | None => heartbeat k now s = (s, false)
  end ∧
  (represents (deregister k s).1 (delete k m) ∧
   (deregister k s).2 = bool_decide (is_Some (m !! k))) ∧
  (represents (remove_expired timeout now s).1 (filter (still_alive timeout now) m) ∧
   ∀ sv i p, (sv, i, p) ∈ (remove_expired timeout now s).2 ↔
             ∃ t, m !! (i, p) = Some (sv, t) ∧ timeout ≤ now - t) ∧
  match build_service_list s !! service with
  | Some infos =>
    infos ≠ [] ∧ NoDup infos ∧
    (∀ i p, {| si_Ip := i; si_Port := p |} ∈ infos ↔ ∃ t, m !! (i, p) = Some (service, t))
  | None => ∀ k t, m !! k ≠ Some (service, t)
  end.
Proof.
  intros H. split; [by apply register_represents|]. split; [by apply heartbeat_represents|].
  split; [by apply deregister_represents|]. split; [by apply remove_expired_represents|].
  by apply build_list_exact.
Qed.

(** C19: Connections and the store.  Whatever the other connections do in between, the
    addresses a connection is responsible for are those of the registrations it
    handled, and when it ends in order none of them is left in the store.  When it
    ends with an error (of the codec, of the socket or of a send), nothing is
    deregistered: if nothing else touched the store, every address the connection
    registered is still there.  The services of other addresses do not change. *)
Theorem connection_cleanup (peer_ip : string) (es : list event) (client : result unit unit)
    (s : ServiceStore) (m : registry_map) :
  represents s m → Forall harmless es →
  let '(c, r) := handle_connection peer_ip es client s in
  let ks := registered_by peer_ip es in
  registered_instances c = ks ∧
  ∃ m', represents (store c) m' ∧
    match r with
    | Ok _ => ∀ k, k ∈ ks → m' !! k = None
    | Err _ => Forall alone es → ∀ k, k ∈ ks → is_Some (m' !! k)
    end ∧
    (Forall alone es → ∀ k, k ∉ ks → fst <$> m' !! k = fst <$> m !! k).
Proof.
  intros Hrep Hes. unfold handle_connection.
  match goal with |- context [handle_server_messages _ _ ?c] =>
    destruct (handle_server_messages_inv peer_ip es c m Hrep Hes) as (m1 & H1) end.
  destruct handle_server_messages as [c r]. destruct H1 as (Hm1 & Hreg & Hg). simpl in Hreg.
  assert (Herr : registered_instances c = registered_by peer_ip es ∧
    ∃ m', represents (store c) m' ∧
      (Forall alone es → ∀ k, k ∈ registered_by peer_ip es → is_Some (m' !! k)) ∧
      (Forall alone es → ∀ k, k ∉ registered_by peer_ip es → fst <$> m' !! k = fst <$> m !! k)).
  { split; [done|]. exists m1. split_and!; [done|..]; intros Ha k; by apply (Hg Ha). }
  destruct (cleanup_represents c m1 Hm1) as (m2 & Hm2 & Hreg2 & Hl). rewrite Hreg in Hreg2, Hl.
  assert (Hok : registered_instances (cleanup_connection c) = registered_by peer_ip es ∧
    ∃ m', represents (store (cleanup_connection c)) m' ∧
      (∀ k, k ∈ registered_by peer_ip es → m' !! k = None) ∧
      (Forall alone es → ∀ k, k ∉ registered_by peer_ip es → fst <$> m' !! k = fst <$> m !! k)).
  { split; [done|]. exists m2. split_and!; [done|..].
    - intros k Hk. by rewrite Hl, decide_True.
    - intros Ha k Hk. rewrite Hl, decide_False by done. by apply (Hg Ha). }
  destruct r as [[]|e]; [destruct client|..]; (exact Hok || exact Herr).
Qed.

(** C39: Closing a connection can take down the registration of a newer one.  An
    instance registers over one connection and, with the same address, over a second
    one, whose registration is answered with success; when the first connection is
    then cleaned up, the address is gone from the store, and the next heartbeat over
    the second connection is answered with failure. *)
Theorem stale_cleanup (s : ServiceStore) (m : registry_map) (peer_ip service : string) (p t1 t2 t3 : Z) :
  represents s m →
  let register_msg := {| payload := Some (PRegister {| rr_Service := service; rr_Port := p |}) |} in
  let heartbeat_msg := {| payload := Some (PHeartbeat {| hb_Port := p |}) |} in
  let first := (handle_server_messages peer_ip [EMessage register_msg t1 true]
                  {| store := s; registered_instances := []; sent := []; notified := [] |}).1 in
  let cleanup st := store (cleanup_connection
                      {| store := st; registered_instances := registered_instances first;
                         sent := sent first; notified := notified first |}) in
  let second := (handle_server_messages peer_ip
                   [EMessage register_msg t2 true; EOther cleanup; EMessage heartbeat_msg t3 true]
                   {| store := store first; registered_instances := []; sent := []; notified := [] |}).1 in
  sent second = [response true "registered"; response false "unknown instance"] ∧
  represents (store second) (delete (peer_ip, p) m).
Proof.
  intros Hrep register_msg heartbeat_msg first cleanup second.
  set (k := (peer_ip, p)).
  destruct (register_represents s m k service t1 Hrep) as [H1 _].
  destruct (register_represents _ _ k service t2 H1) as [H2 _].
  destruct (deregister_represents _ _ k H2) as [H3 _].
  rewrite !delete_insert_eq in H3.
  set (s1 := (register k service t1 s).1) in *. set (s2 := (register k service t2 s1).1) in *.
  assert (Hfirst : store first = s1 ∧ registered_instances first = [k]).
  { subst first s1. simpl. unfold handle_register. simpl. fold k. by destruct register. }
  destruct Hfirst as [Hs1 Hks].
  pose proof (heartbeat_represents _ _ k t3 H3) as H4. rewrite lookup_delete_eq in H4.
  assert (Hc : cleanup s2 = (deregister k s2).1).
  { subst cleanup. simpl. unfold cleanup_connection. simpl. rewrite Hks. unfold deregister_all. simpl.
    by destruct deregister. }
  subst second. cbn [handle_server_messages payload]. rewrite Hs1. unfold handle_register. simpl. fold k.
  destruct (register k service t2 s1) as [st changed] eqn:E2. subst s2. simpl in *.
  unfold handle_heartbeat. simpl. fold k. rewrite Hc, H4. simpl. by destruct changed.
Qed.

(** ** Witnesses *)

Lemma new_represents : represents new ∅.
Proof.
  split; [constructor|].
  - intros k sv t. rewrite lookup_empty. split; [done|]. intros (l & [=] & _).
  - intros sv l [=].
  - done.
Qed.

Lemma store_refines_witness :
  (register ("10.0.0.1", 9000) "Gacha" 5 new).2 = true ∧
  (heartbeat ("10.0.0.1", 9000) 5 new).2 = false.
Proof.
  destruct (store_refines new ∅ ("10.0.0.1", 9000) "Gacha" 5 15 new_represents)
    as ((_ & H1) & H2 & _). rewrite lookup_empty in H1, H2. rewrite H1, H2. split; reflexivity.
Defined.

Definition example_events : list event :=
  [EMessage {| payload := Some (PRegister {| rr_Service := "Gacha"; rr_Port := 9000 |}) |} 1 true;
   EOther (λ s, (remove_expired 15 2 s).1);
   EMessage {| payload := Some (PHeartbeat {| hb_Port := 9000 |}) |} 3 true].

Lemma connection_cleanup_witness :
  registered_instances (handle_connection "10.0.0.1" example_events (Ok tt) new).1 = [("10.0.0.1", 9000)] ∧
  registered_instances (handle_connection "10.0.0.1" (example_events ++ [EError]) (Ok tt) new).1
    = [("10.0.0.1", 9000)].
Proof.
  assert (Hh : Forall harmless (example_events ++ [EError])).
  { repeat constructor. intros s m H. eexists. apply remove_expired_represents, H. }
  split.
  - pose proof (connection_cleanup "10.0.0.1" example_events (Ok tt) new ∅ new_represents
      (proj1 (proj1 (Forall_app _ _ _) Hh))) as H.
    destruct handle_connection as [c r]. exact (proj1 H).
  - pose proof (connection_cleanup "10.0.0.1" (example_events ++ [EError]) (Ok tt) new ∅ new_represents Hh) as H.
    destruct handle_connection as [c r]. exact (proj1 H).
Defined.

Lemma stale_cleanup_witness :
  ∃ second : connection,
    sent second = [response true "registered"; response false "unknown instance"] ∧
    represents (store second) (delete ("10.0.0.1", 9000) ∅).
Proof.
  eexists. exact (stale_cleanup new ∅ "10.0.0.1" "Gacha" 9000 1 2 3 new_represents).
Defined.

Import Wire.

Definition example_heartbeat : RegistryMessage :=
  {| payload := Some (PHeartbeat {| hb_Port := 9000 |}) |}.

Lemma registry_codec_interop_witness :
  ∃ data, Marshal example_heartbeat = Ok data ∧
    decode (Io.sent (Codec.WriteFrame data (Io.Writer [] None)).2) = Ok (Some (example_heartbeat, [])).
Proof.
  assert (∃ data, Marshal example_heartbeat = Ok data ∧ Codec.fits data) as (data & Hm & Hfit).
  { eexists. split; [vm_compute; reflexivity|]. unfold Codec.fits, Codec.max_frame. simpl. lia. }
  exists data. split; [exact Hm|].
  destruct (registry_codec_interop example_heartbeat data [] Hm Hfit) as (_ & H & _).
  rewrite app_nil_r in H. exact H.
Defined.

End Registry.
