(* ===== verification/Main.v ===== *)
(** * The process: [src/server/cmd/server/main.go] and [server.Start]

    [main] loads the configuration, opens the database, builds the services, the
    router, the registry client and the server, and starts the server;
    [Server.Start] registers, starts [Run], listens and accepts connections;
    [Server.Stop] closes the listener and stops the registry client.  What
    happens on a connection is in [Server.v], what [Run] does in
    [RegistryClient.v]. *)

From S2P Require Import Prelude Codec GoLib Pb Wire Config Router Handler Db Rand Gacha User.
From S2P Require Import RegistryClient Genrpc.

Module Main.
Import Io Handler Gacha.

(** ** [server.Server] *)

Section server.
Context {H : Type} `{!Message Reg.RegistryMessage}.
Context (dial : nat → result string (reader * option (nat * io_error))).

(** The listener is [nil] until [Start] has opened it. *)
Inductive listener_state : Type := Nil | Listening | ListenerClosed.

(** The registry client is part of the world of [RegistryClient]. *)
Record Server : Type := {
  addr : string;
  router : Router.Router H;
  listener : listener_state;
  registry : RegistryClient.world;
}.

Definition New (addr : string) (r : Router.Router H) (reg : RegistryClient.Client) : Server :=
  {| addr := addr; router := r; listener := Nil;
     registry := {| RegistryClient.client := reg; RegistryClient.conns := [];
                    RegistryClient.dialed := 0 |} |}.

(** What the calls of [Accept] deliver: a connection, or an error together with
    whether the context is done at that moment. *)
Inductive accept_event : Type :=
| AConn (conn : reader)
| AErr (e : string) (ctxDone : bool).

Inductive start_error : Type :=
| StartRegister (e : RegistryClient.register_error)
| StartListen (e : string).

(** The connections handed to [handleConnection], and whether the loop returned
    ([None]: it is blocked in [Accept] after these events). *)
Fixpoint accept_loop (es : list accept_event) : list reader * option unit :=
  match es with
  | [] => ([], None)
  | AConn conn :: es => let '(conns, r) := accept_loop es in (conn :: conns, r)
  | AErr _ true :: _ => ([], Some tt)
  | AErr _ false :: es => accept_loop es
  end.

Record started : Type := {
  server : Server;
  run : option RegistryClient.sys;       (* the goroutine of [registry.Run] *)
  handled : list reader;                 (* the connections of the goroutines *)
  returned : option (result start_error unit);
}.

Definition set_registry (w : RegistryClient.world) (l : listener_state) (s : Server) : Server :=
  {| addr := addr s; router := router s; listener := l; registry := w |}.

Definition Start (s : Server) (listen : result string unit) (es : list accept_event) : started :=
  match RegistryClient.Register dial (registry s) with
  | (Err e, w) =>
    {| server := set_registry w (listener s) s; run := None; handled := [];
       returned := Some (Err (StartRegister e)) |}
  | (Ok _, w) =>
    let goroutine := RegistryClient.run w in
    match listen with
    | Err e =>
      {| server := set_registry w (listener s) s; run := Some goroutine; handled := [];
         returned := Some (Err (StartListen e)) |}
    | Ok _ =>
      let '(conns, r) := accept_loop es in
      {| server := set_registry w Listening s; run := Some goroutine; handled := conns;
         returned := Ok <$> r |}
    end
  end.

Definition Stop (s : Server) : Server :=
  {| addr := addr s; router := router s;
     listener := match listener s with Nil => Nil | _ => ListenerClosed end;
     registry := RegistryClient.Stop (registry s) |}.

(** ** Lemmas *)

Definition event_conn (e : accept_event) : option reader :=
  match e with AConn c => Some c | AErr _ _ => None end.
Definition event_last (e : accept_event) : bool :=
  match e with AErr _ true => true | _ => false end.

(** The events up to the one at which the loop returns. *)
Lemma accept_loop_split es :
  (forallb (λ e, negb (event_last e)) es = true ∧ accept_loop es = (omap event_conn es, None)) ∨
  (∃ pre e post, es = pre ++ e :: post ∧ event_last e = true ∧
     forallb (λ e, negb (event_last e)) pre = true ∧
     accept_loop es = (omap event_conn pre, Some tt)).
Proof.
  induction es as [|ev es IH]; [by left|].
  destruct ev as [c|msg []].
  - destruct IH as [[H1 H2]|(pre & e & post & -> & H1 & H2 & H3)].
    + left. simpl. by rewrite H2.
    + right. exists (AConn c :: pre), e, post. simpl in *. rewrite H3. by split_and!.
  - right. by exists [], (AErr msg true), es.
  - destruct IH as [[H1 H2]|(pre & e & post & -> & H1 & H2 & H3)].
    + left. simpl. by rewrite H2.
    + right. exists (AErr msg false :: pre), e, post. simpl in *. rewrite H3. by split_and!.
Qed.

(** ** Properties *)

(** [Start] fails without listening when the registration fails; it fails when
    the address cannot be listened on, with the registry client already
    running; otherwise it hands every accepted connection to a goroutine of its
    own, in order, goes on after every error of [Accept] while the context is
    not done, and returns [nil] at the first error when it is. *)
Theorem Start_outcome (s : Server) (listen : result string unit) (es : list accept_event) :
  let t := Start s listen es in
  match RegistryClient.Register dial (registry s), listen with
  | (Err e, w), _ =>
    returned t = Some (Err (StartRegister e)) ∧ run t = None ∧ handled t = [] ∧
    listener (server t) = listener s
  | (Ok _, w), Err e =>
    returned t = Some (Err (StartListen e)) ∧ run t = Some (RegistryClient.run w) ∧
    handled t = [] ∧ listener (server t) = listener s
  | (Ok _, w), Ok _ =>
    run t = Some (RegistryClient.run w) ∧ listener (server t) = Listening ∧
    registry (server t) = w ∧
    ((forallb (λ e, negb (event_last e)) es = true ∧
        handled t = omap event_conn es ∧ returned t = None) ∨
     (∃ pre e post, es = pre ++ e :: post ∧ event_last e = true ∧
        forallb (λ e, negb (event_last e)) pre = true ∧
        handled t = omap event_conn pre ∧ returned t = Some (Ok tt)))
  end.
Proof.
  unfold Start. destruct (RegistryClient.Register dial (registry s)) as [[[]|e] w]; [|done].
  destruct listen as [[]|e]; [|done].
  destruct (accept_loop_split es) as [[H1 H2]|(pre & e & post & H1 & H2 & H3 & H4)].
  - rewrite H2. simpl. split_and!; [done..|]. by left.
  - rewrite H4. simpl. split_and!; [done..|]. right. exists pre, e, post. done.
Qed.

(** [Stop] closes the listener and the client's connection to the registry,
    signals [Run] to end, leaves every other connection alone, and a second call
    changes nothing. *)
Theorem Stop_releases (s : Server) :
  let w := registry s in
  let w' := registry (Stop s) in
  (RegistryClient.stopOnce (RegistryClient.client w) = RegistryClient.stopCh (RegistryClient.client w)) →
  listener (Stop s) ≠ Listening ∧
  RegistryClient.stopCh (RegistryClient.client w') = true ∧
  RegistryClient.conn (RegistryClient.client w') = None ∧
  RegistryClient.conns w' =
    match RegistryClient.conn (RegistryClient.client w) with
    | Some i => alter RegistryClient.Close i (RegistryClient.conns w)
    | None => RegistryClient.conns w
    end ∧
  Stop (Stop s) = Stop s.
Proof.
  intros w w' Honce.
  assert (Hl : ∀ l, match match l with Nil => Nil | _ => ListenerClosed end with
                    | Nil => Nil | _ => ListenerClosed end
                    = match l with Nil => Nil | _ => ListenerClosed end) by (by intros []).
  unfold w'. clear w'. subst w. destruct s as [a r l [c cs d]]. simpl in *.
  unfold Stop, RegistryClient.Stop, RegistryClient.Deregister, RegistryClient.closeConn. simpl.
  destruct (RegistryClient.stopOnce c) eqn:E1, (RegistryClient.conn c) as [i|] eqn:E2; simpl;
    rewrite ?E1, ?E2; simpl; rewrite ?E1, ?E2; simpl; rewrite ?Hl, ?E2;
    split_and!; try done; by destruct l; rewrite ?E2.
Qed.

End server.
Arguments Server : clear implicits.

(** ** [main] *)

Section main.
Context {DB : Type} `{!Db.Database DB}.
Context `{!Message App.RegisterRequest, !Message App.RegisterResponse,
          !Message App.LoginRequest, !Message App.LoginResponse,
          !Message App.LogoutRequest, !Message App.LogoutResponse,
          !Message App.DrawRequest, !Message App.DrawResponse}.
(** The pool of the gacha service, and the bound on the draws of the random
    source that one call uses. *)
Context (fuel : nat) (pool : gmap Z (list string)).

(** [*UserService] and [*GachaService] as the generated interfaces. *)
Definition userSvc : UserServiceHandler (world DB) :=
  {| us_Register := User.Register; us_Login := User.Login; us_Logout := User.Logout |}.

Definition gachaSvc (hostname : string) (cfg : Config.Config) : GachaServiceHandler (world DB) :=
  let svc := NewGachaService hostname in
  let svc := SetInstance svc
    (Config.ServiceName cfg +:+ ":" +:+ Strconv.fmt_d (Config.Port cfg)) in
  {| gs_Draw := Draw fuel pool svc |}.

Definition main_router (hostname : string) (cfg : Config.Config)
    : Router.Router (HandlerFunc (world DB)) :=
  let r := Router.New in
  let r := RegisterUserService r userSvc in
  RegisterGachaService r (gachaSvc hostname cfg).

Definition main_client (cfg : Config.Config) : RegistryClient.Client :=
  RegistryClient.NewClient (Config.RegistryAddr cfg) (Config.Port cfg) (Config.ServiceName cfg)
    (Config.HeartbeatInterval cfg) (Config.HeartbeatMaxFail cfg)
    (Config.ReconnectBackoff cfg) (Config.ReconnectMaxBackoff cfg).

(** [main] up to [srv.Start]: exit status 1, or the server and the database. *)
Definition main (serverRoot hostname : string) (env : string → string)
    (fs : string → option string) (open : string → result string DB)
    : result Z (Server (HandlerFunc (world DB)) * DB) :=
  let cfg := Config.Load serverRoot env fs in
  match open (Config.DatabaseURL cfg) with
  | Err _ => Err 1
  | Ok database =>
    Ok (New (Config.ListenAddr cfg) (main_router hostname cfg) (main_client cfg), database)
  end.

(** The registrations of [main_router] as a list, for the lemmas about it. *)
Definition routes (hostname : string) (cfg : Config.Config)
    : list (string * string * HandlerFunc (world DB)) :=
  [("UserService", "register", generated_handler User.Register);
   ("UserService", "login", generated_handler User.Login);
   ("UserService", "logout", generated_handler User.Logout);
   ("GachaService", "draw", generated_handler (gs_Draw (gachaSvc hostname cfg)))].

Lemma main_router_routes hostname cfg service method :
  Router.Route (main_router hostname cfg) service method =
  last (omap (λ '(s, m, h), if decide (s = service ∧ m = method) then Some h else None)
          (routes hostname cfg)).
Proof.
  apply (Router.Route_register_all (routes hostname cfg)).
  repeat constructor; apply (bool_decide_unpack _); vm_compute; exact I.
Qed.

Lemma main_router_cases (hostname : string) (cfg : Config.Config) (service method : string) :
  Router.Route (main_router hostname cfg) service method =
  if decide (service = "UserService" ∧ method = "register") then Some (generated_handler User.Register)
  else if decide (service = "UserService" ∧ method = "login") then Some (generated_handler User.Login)
  else if decide (service = "UserService" ∧ method = "logout") then Some (generated_handler User.Logout)
  else if decide (service = "GachaService" ∧ method = "draw") then
    Some (generated_handler (Draw fuel pool
      {| instance := Config.ServiceName cfg +:+ ":" +:+ Strconv.fmt_d (Config.Port cfg) |}))
  else None.
Proof.
  rewrite main_router_routes. unfold routes. rewrite !omap_cons.
  destruct (decide (service = "UserService" ∧ method = "register")) as [[-> ->]|N1]; [reflexivity|].
  destruct (decide (service = "UserService" ∧ method = "login")) as [[-> ->]|N2]; [reflexivity|].
  destruct (decide (service = "UserService" ∧ method = "logout")) as [[-> ->]|N3]; [reflexivity|].
  destruct (decide (service = "GachaService" ∧ method = "draw")) as [[-> ->]|N4]; [reflexivity|].
  rewrite !decide_False by (intros [<- <-]; auto). done.
Qed.

(** The server that [main] builds answers exactly the four methods of the
    service definitions, each with its own method; for every other pair of names,
    whatever its text, it has no handler. *)
Theorem main_routes (hostname : string) (cfg : Config.Config) (service method : string) :
  Router.Route (main_router hostname cfg) service method =
  if decide (service = "UserService" ∧ method = "register") then Some (generated_handler User.Register)
  else if decide (service = "UserService" ∧ method = "login") then Some (generated_handler User.Login)
  else if decide (service = "UserService" ∧ method = "logout") then Some (generated_handler User.Logout)
  else if decide (service = "GachaService" ∧ method = "draw") then
    Some (generated_handler (Draw fuel pool
      {| instance := Config.ServiceName cfg +:+ ":" +:+ Strconv.fmt_d (Config.Port cfg) |}))
  else None.
Proof. apply main_router_cases. Qed.

(** The method of a service that a generated handler calls, by its Go name; the request
    and the response types of the handler are those of the method. *)
Definition go_method (hostname : string) (cfg : Config.Config) (called : string * string)
    : option (HandlerFunc (world DB)) :=
  if decide (called = ("UserService", "Register")) then Some (generated_handler (us_Register userSvc))
  else if decide (called = ("UserService", "Login")) then Some (generated_handler (us_Login userSvc))
  else if decide (called = ("UserService", "Logout")) then Some (generated_handler (us_Logout userSvc))
  else if decide (called = ("GachaService", "Draw")) then
    Some (generated_handler (gs_Draw (gachaSvc hostname cfg)))
  else None.

(** The registrations that genrpc generates from the [.proto] files of the repository. *)
Definition generated : list (string * string * (string * string)) :=
  Genrpc.registrations (Genrpc.template_services (Genrpc.proto_files Genrpc.go_protos)).

Lemma generated_methods :
  generated = [("GachaService", "draw", ("GachaService", "Draw"));
               ("UserService", "register", ("UserService", "Register"));
               ("UserService", "login", ("UserService", "Login"));
               ("UserService", "logout", ("UserService", "Logout"))].
Proof. vm_compute. reflexivity. Qed.

(** The router that the generated code builds, with these methods. *)
Definition generated_router (hostname : string) (cfg : Config.Config)
    : Router.Router (HandlerFunc (world DB)) :=
  Router.register_all
    (omap (λ '(s, k, called), (λ h, (s, k, h)) <$> go_method hostname cfg called) generated) Router.New.

(** C37: the handlers of [Handler.v] are those that genrpc generates.  From the [.proto]
    files of the repository genrpc takes registrations each of which calls an existing
    method of its service, and under every service name and every router key, whatever
    their text, the router of [main] finds the handler that the generated registration
    makes from the method it calls, or neither has one. *)
Theorem handlers_as_generated (hostname : string) (cfg : Config.Config) (service method : string) :
  Router.Route (main_router hostname cfg) service method =
  Router.Route (generated_router hostname cfg) service method ∧
  Forall (λ r, is_Some (go_method hostname cfg r.2)) generated.
Proof.
  unfold generated_router. rewrite generated_methods. split; [|by repeat constructor].
  change (omap _ _) with
    [("GachaService", "draw", generated_handler (gs_Draw (gachaSvc hostname cfg)));
     ("UserService", "register", generated_handler (us_Register userSvc));
     ("UserService", "login", generated_handler (us_Login userSvc));
     ("UserService", "logout", generated_handler (us_Logout userSvc))].
  rewrite main_router_cases, Router.Route_register_all;
    [|repeat constructor; apply (bool_decide_unpack _); vm_compute; exact I].
  rewrite !omap_cons.
  destruct (decide (service = "UserService" ∧ method = "register")) as [[-> ->]|N1]; [reflexivity|].
  destruct (decide (service = "UserService" ∧ method = "login")) as [[-> ->]|N2]; [reflexivity|].
  destruct (decide (service = "UserService" ∧ method = "logout")) as [[-> ->]|N3]; [reflexivity|].
  destruct (decide (service = "GachaService" ∧ method = "draw")) as [[-> ->]|N4]; [reflexivity|].
  rewrite !decide_False by (intros [<- <-]; auto). done.
Qed.

(** Over the wire, registering and logging in work together.  The payload of a
    registration whose row the database inserts with the key [id], and then that
    of a login with the same name and password, dispatched by the router of
    [main], give payloads that decode to this positive id. *)
Theorem register_login_served (hostname : string) (cfg : Config.Config) (w : world DB) (db : DB)
    (name password : string) (id : Z) (p1 p2 : bytes) :
  let resp1 := App.Build_RegisterResponse id ("注册成功! user_id=" +:+ Strconv.fmt_d id) in
  let resp2 := App.Build_LoginResponse id ("登录成功! 欢迎回来, " +:+ name) in
  Db.insert_user name (Db.HashPassword password) (w_db w) = (db, Ok id) → Db.available db →
  Marshal (App.Build_RegisterRequest name password) = Ok p1 →
  Marshal (App.Build_LoginRequest name password) = Ok p2 →
  is_ok (Marshal resp1) = true → is_ok (Marshal resp2) = true →
  ∃ h1 h2 w1 o1 o2,
    Router.Route (main_router hostname cfg) "UserService" "register" = Some h1 ∧
    Router.Route (main_router hostname cfg) "UserService" "login" = Some h2 ∧
    h1 w p1 = (w1, Return o1) ∧ h2 w1 p2 = (w1, Return o2) ∧ 0 < id ∧
    Unmarshal o1 = Ok resp1 ∧ Unmarshal o2 = Ok resp2.
Proof.
  intros resp1 resp2 Hins Ha Hp1 Hp2 Hm1 Hm2. rewrite !main_router_routes.
  set (w1 := {| w_db := db; w_rng := w_rng w |}).
  assert (Hreg : User.Register w (App.Build_RegisterRequest name password) = (w1, Return resp1)).
  { unfold User.Register. simpl. by rewrite Hins. }
  apply Db.insert_user_ok in Hins as (_ & Hu & _ & Hid & _).
  assert (Hlogin : User.Login w1 (App.Build_LoginRequest name password) = (w1, Return resp2)).
  { unfold User.Login. simpl. rewrite (Db.select_user_available _ _ _ id); [done|done|].
    rewrite Hu. apply lookup_insert_eq. }
  destruct (generated_handler_ok _ _ _ _ _ _ Hp1 Hreg Hm1) as (o1 & H1 & H1').
  destruct (generated_handler_ok _ _ _ _ _ _ Hp2 Hlogin Hm2) as (o2 & H2 & H2').
  exists (generated_handler User.Register), (generated_handler User.Login), w1, o1, o2.
  by split_and!.
Qed.
End main.

(** ** The process *)

Section process.
Context {H DB : Type}.

(** What the main goroutine waits for: the goroutine of [srv.Start] ends, or one of the
    two signals arrives. *)
Inductive process_event : Type :=
| StartReturned (r : result start_error unit)
| Signal.

(** The server with its registry client, the deferred calls of [main] that have run, and
    the exit status. *)
Record process : Type := {
  srv : Server H;
  databaseClosed : bool;
  ctxCancelled : bool;
  exited : option Z;
}.

Definition launch (s : Server H) : process :=
  {| srv := s; databaseClosed := false; ctxCancelled := false; exited := None |}.

(** An error of [Start] ends the process with [os.Exit(1)], which runs no deferred
    call; a signal stops the server and [main] returns. *)
Definition process_step (p : process) (e : process_event) : process :=
  match exited p, e with
  | Some _, _ => p
  | None, StartReturned (Ok _) => p
  | None, StartReturned (Err _) =>
    {| srv := srv p; databaseClosed := databaseClosed p; ctxCancelled := ctxCancelled p;
       exited := Some 1 |}
  | None, Signal =>
    {| srv := Stop (srv p); databaseClosed := true; ctxCancelled := true; exited := Some 0 |}
  end.

(** The first event that ends the process. *)
Definition ends (e : process_event) : option Z :=
  match e with
  | StartReturned (Ok _) => None
  | StartReturned (Err _) => Some 1
  | Signal => Some 0
  end.

Lemma process_exited es : ∀ p, is_Some (exited p) → foldl process_step p es = p.
Proof.
  induction es as [|e es IH]; intros p [z Hz]; [done|]. simpl.
  unfold process_step at 2. rewrite Hz. apply IH. eauto.
Qed.

Lemma process_run es : ∀ s,
  foldl process_step (launch s) es =
  match head (omap ends es) with
  | None => launch s
  | Some z => {| srv := if z =? 0 then Stop s else s; databaseClosed := z =? 0;
                 ctxCancelled := z =? 0; exited := Some z |}
  end.
Proof.
  induction es as [|[[[]|e]|] es IH]; intros s; [done|apply IH|..]; simpl; by rewrite process_exited.
Qed.

Lemma Stop_stops (s : Server H) :
  listener (Stop s) ≠ Listening ∧
  RegistryClient.conn (RegistryClient.client (registry (Stop s))) = None ∧
  (RegistryClient.stopOnce (RegistryClient.client (registry s)) = false →
   RegistryClient.stopCh (RegistryClient.client (registry (Stop s))) = true).
Proof.
  destruct s as [a r l [c cs d]].
  unfold Stop, RegistryClient.Stop, RegistryClient.Deregister, RegistryClient.closeConn. simpl.
  split_and!; [by destruct l| |];
    destruct (RegistryClient.stopOnce c) eqn:E1, (RegistryClient.conn c) as [i|] eqn:E2; simpl;
    rewrite ?E1, ?E2; simpl; by rewrite ?E1, ?E2.
Qed.

(** How the process ends.  It exits exactly once, at the first signal or the first
    error of [Start], whichever comes first, and goes on when [Start] returns
    without one.  After a signal the status is 0, the listener is closed, the registry
    client is stopped and without a connection, the database is closed and the
    context cancelled; after an error of [Start] the status is 1 and none of this has
    happened: the server is as [Start] left it. *)
Theorem process_exit (s : Server H) (es : list process_event) :
  RegistryClient.stopOnce (RegistryClient.client (registry s)) = false →
  let p := foldl process_step (launch s) es in
  exited p = head (omap ends es) ∧
  match exited p with
  | None => p = launch s
  | Some z =>
    (z = 0 ∧ databaseClosed p = true ∧ ctxCancelled p = true ∧ listener (srv p) ≠ Listening ∧
       RegistryClient.stopCh (RegistryClient.client (registry (srv p))) = true ∧
       RegistryClient.conn (RegistryClient.client (registry (srv p))) = None) ∨
    (z = 1 ∧ databaseClosed p = false ∧ ctxCancelled p = false ∧ srv p = s)
  end.
Proof.
  intros Honce p. unfold p. clear p. rewrite process_run.
  destruct (head (omap ends es)) as [z|] eqn:E; [|done]. split; [done|]. simpl.
  assert (Hz : z = 0 ∨ z = 1).
  { clear -E. induction es as [|[[[]|e]|] es IH]; simpl in E; [done|by apply IH|..]; simplify_eq; auto. }
  destruct (Stop_stops s) as (H1 & H2 & H3).
  destruct Hz as [-> | ->]; [left|right]; simpl; auto 10.
Qed.

End process.

(** ** Instances *)

Section demo.
Import Wire RefDb.

Definition demo_server : Server nat :=
  New "0.0.0.0:8080" Router.New (RegistryClient.demo_client 5).

Lemma Stop_releases_witness :
  Stop (Stop demo_server) = Stop demo_server.
Proof. apply (Stop_releases demo_server). reflexivity. Defined.

Lemma process_exit_witness :
  exited (foldl process_step (launch demo_server) [StartReturned (Ok tt); Signal]) = Some 0.
Proof.
  exact (proj1 (process_exit demo_server [StartReturned (Ok tt); Signal] eq_refl)).
Defined.

Definition demo_w : world ref_db := User.demo_world.

Lemma register_login_served_witness :
  ∃ h1 w1 o1,
    Router.Route (main_router 1 ∅ "host" Config.defaultConfig) "UserService" "register" = Some h1 ∧
    (match Marshal (App.Build_RegisterRequest "bob" "1") with
     | Ok p1 => h1 demo_w p1 = (w1, Return o1) | Err _ => False end) ∧
    Unmarshal o1 = Ok (App.Build_RegisterResponse 2 "注册成功! user_id=2").
Proof.
  destruct (Marshal (App.Build_RegisterRequest "bob" "1")) as [p1|] eqn:E1;
    [|vm_compute in E1; discriminate E1].
  destruct (Marshal (App.Build_LoginRequest "bob" "1")) as [p2|] eqn:E2;
    [|vm_compute in E2; discriminate E2].
  destruct (register_login_served 1 ∅ "host" Config.defaultConfig demo_w
    (Db.insert_user "bob" (Db.HashPassword "1") (w_db demo_w)).1 "bob" "1" 2 p1 p2)
    as (h1 & h2 & w1 & o1 & o2 & R1 & _ & C1 & _ & _ & U1 & _).
  - vm_compute. reflexivity.
  - vm_compute. reflexivity.
  - exact E1.
  - exact E2.
  - vm_compute. reflexivity.
  - vm_compute. reflexivity.
  - exists h1, w1, o1. split_and!; [exact R1|exact C1|exact U1].
Defined.

End demo.
End Main.
