(* ===== verification/Genproto.v ===== *)
(** * The generator of the protobuf code: [src/server/cmd/genproto/main.go]

    The program collects the [.proto] files below a directory and runs [protoc] on
    them.  The working directory, the files that [filepath.Walk] visits and the run of
    [protoc] are parameters; [filepath.Join] and [filepath.Abs] are modelled on
    absolute paths. *)

From S2P Require Import Prelude Router.

Module Genproto.

(** ** [path/filepath] *)

Fixpoint split (s : string) : list string :=
  match s with
  | EmptyString => [""]
  | String x t =>
    if ascii_dec x "/" then "" :: split t
    else match split t with c :: cs => String x c :: cs | [] => [String x ""] end
  end.

(** The components of a cleaned path, one more component added. *)
Definition add_component (cs : list string) (c : string) : list string :=
  if String.eqb c "" || String.eqb c "." then cs
  else if String.eqb c ".." then removelast cs
  else cs ++ [c].

Definition path_of (cs : list string) : string := "/" +:+ String.concat "/" cs.

(** [filepath.Clean] of an absolute path. *)
Definition Clean (s : string) : string := path_of (foldl add_component [] (split s)).

(** [filepath.Join(dir, elems...)] for an absolute [dir] and elements that are not
    empty. *)
Definition Join (dir : string) (elems : list string) : string :=
  Clean (foldl (λ s e, s +:+ "/" +:+ e) dir elems).

(** [filepath.Abs] of an absolute path. *)
Definition Abs (path : string) : string := Clean path.

Definition HasSuffix (s suffix : string) : bool :=
  bool_decide (Router.chars suffix `suffix_of` Router.chars s).

(** ** [main] *)

(** What [Walk] calls the function with. *)
Inductive visit : Type :=
| VFile (path name : string)
| VDir (path : string)
| VError.

(** The function passed to [Walk]; an error ends the walk and is discarded. *)
Fixpoint walk (vs : list visit) : list string :=
  match vs with
  | [] | VError :: _ => []
  | VDir _ :: vs => walk vs
  | VFile path name :: vs => if HasSuffix name ".proto" then Abs path :: walk vs else walk vs
  end.

Record outcome : Type := { created : string; args : list string; status : Z }.

Definition main (wd : string) (walked : string → list visit) (protoc : list string → bool) : outcome :=
  let protoDir := Join wd [".."; ".."; ".."; "proto"] in
  let outDir := Join wd [".."; ".."; "pb"] in
  let protoFiles := walk (walked protoDir) in
  let args := ["--proto_path=" +:+ Abs protoDir; "--go_out=" +:+ Abs outDir;
               "--go_opt=module=rpc-server/pb"] ++ protoFiles in
  {| created := Join outDir ["example"]; args := args; status := if protoc args then 0 else 1 |}.

(** ** Components *)

Definition component (c : string) : Prop :=
  "/"%char ∉ Router.chars c ∧ c ≠ "" ∧ c ≠ "." ∧ c ≠ "..".

Lemma split_app a b : split (a +:+ "/" +:+ b) = split a ++ split b.
Proof.
  induction a as [|x a IH]; [done|]. simpl in *. destruct (ascii_dec x "/"); [by rewrite IH|].
  rewrite IH. destruct (split a) as [|c cs] eqn:E; [|done].
  exfalso. clear -E. destruct a as [|y a]; simpl in E; [done|].
  destruct (ascii_dec y "/"); [done|]. by destruct (split a).
Qed.

Lemma split_free c : "/"%char ∉ Router.chars c → split c = [c].
Proof.
  unfold Router.chars. induction c as [|x c IH]; simpl; [done|]. intros [Hx Hc]%not_elem_of_cons.
  destruct (ascii_dec x "/") as [->|]; [done|]. by rewrite IH.
Qed.

Lemma split_concat c cs :
  Forall component (c :: cs) → split (String.concat "/" (c :: cs)) = c :: cs.
Proof.
  revert c. induction cs as [|d cs IH]; intros c [Hc Hcs]%Forall_cons; [by apply split_free, Hc|].
  change (String.concat "/" (c :: d :: cs)) with (c +:+ "/" +:+ String.concat "/" (d :: cs)).
  rewrite split_app, IH by done. by rewrite split_free by apply Hc.
Qed.

Lemma add_components cs : ∀ acc, Forall component cs → foldl add_component acc cs = acc ++ cs.
Proof.
  induction cs as [|c cs IH]; intros acc H; simpl; [by rewrite app_nil_r|].
  apply Forall_cons in H as [(_ & H1 & H2 & H3) H]. rewrite IH by done. unfold add_component.
  apply String.eqb_neq in H1, H2, H3. rewrite H1, H2, H3. simpl. by rewrite <- app_assoc.
Qed.

(** The components of a path that is written down clean. *)
Lemma split_path_of cs :
  Forall component cs → foldl add_component [] (split (path_of cs)) = cs.
Proof.
  intros H. destruct cs as [|c cs]; [done|]. unfold path_of.
  change ("/" +:+ String.concat "/" (c :: cs)) with ("" +:+ "/" +:+ String.concat "/" (c :: cs)).
  rewrite split_app, split_concat by done. exact (add_components (c :: cs) [] H).
Qed.

Lemma Clean_path_of cs : Forall component cs → Clean (path_of cs) = path_of cs.
Proof. intros H. unfold Clean. by rewrite split_path_of. Qed.

(** [Join] of elements that are components or go up. *)
Lemma Join_path_of cs es :
  Forall component cs → Forall (λ e, "/"%char ∉ Router.chars e) es →
  Join (path_of cs) es = path_of (foldl add_component cs es).
Proof.
  intros Hcs Hes. unfold Join, Clean. f_equal.
  assert (H : ∀ s, foldl add_component [] (split (foldl (λ s e, s +:+ "/" +:+ e) s es))
    = foldl add_component (foldl add_component [] (split s)) es).
  { clear Hcs. induction Hes as [|e es He _ IH]; intros s; simpl; [done|].
    rewrite IH. f_equal. rewrite split_app, foldl_app. by rewrite (split_free e He). }
  by rewrite H, split_path_of.
Qed.

Lemma up root cs c : add_component (root ++ cs ++ [c]) ".." = root ++ cs.
Proof. unfold add_component. simpl. by rewrite app_assoc, removelast_last. Qed.

Definition is_proto (v : visit) : option string :=
  match v with
  | VFile path name => if HasSuffix name ".proto" then Some (Abs path) else None
  | _ => None
  end.

Definition is_error (v : visit) : bool := match v with VError => true | _ => false end.

Lemma walk_spec vs :
  ∃ seen rest, vs = seen ++ rest ∧ forallb (λ v, negb (is_error v)) seen = true ∧
    (rest = [] ∨ ∃ rest', rest = VError :: rest') ∧ walk vs = omap is_proto seen.
Proof.
  induction vs as [|v vs IH]; [by exists [], []; auto|].
  destruct v as [path name|path|]; [| |exists [], (VError :: vs); split_and!; eauto];
    destruct IH as (seen & rest & -> & H1 & H2 & H3).
  - exists (VFile path name :: seen), rest. split_and!; [done|done|done|].
    rewrite omap_cons. cbn [walk is_proto app]. rewrite H3. by destruct (HasSuffix name ".proto").
  - exists (VDir path :: seen), rest. split_and!; [done|done|done|]. by rewrite omap_cons.
Qed.

(** Started by [go generate] in [server/cmd/server] of a repository at [root],
    genproto runs [protoc] with the repository's [proto] directory as its path, the
    directory [server/pb] for the output, and exactly the files with the suffix
    [.proto] that the walk of that directory visited before an error, in
    order; it fails exactly if [protoc] fails. *)
Theorem protoc_args (root : list string) (walked : string → list visit) (protoc : list string → bool) :
  Forall component root →
  let o := main (path_of (root ++ ["server"; "cmd"; "server"])) walked protoc in
  let dir := path_of (root ++ ["proto"]) in
  (∃ seen rest, walked dir = seen ++ rest ∧ forallb (λ v, negb (is_error v)) seen = true ∧
     (rest = [] ∨ ∃ rest', rest = VError :: rest') ∧
     args o = ["--proto_path=" +:+ dir; "--go_out=" +:+ path_of (root ++ ["server"; "pb"]);
               "--go_opt=module=rpc-server/pb"] ++ omap is_proto seen) ∧
  created o = path_of (root ++ ["server"; "pb"; "example"]) ∧
  (status o = 0 ↔ protoc (args o) = true).
Proof.
  intros Hroot o dir.
  assert (Hc : ∀ cs, Forall component cs → Forall component (root ++ cs)) by (intros; by apply Forall_app).
  assert (Hsc : Forall component ["server"; "cmd"; "server"]) by (repeat constructor; done || set_solver).
  pose proof (up root ["server"; "cmd"] "server") as Hup2. pose proof (up root ["server"] "cmd") as Hup1.
  pose proof (up root [] "server") as Hup0. rewrite app_nil_r in Hup0. cbn [app] in Hup2, Hup1, Hup0.
  assert (Hp : Join (path_of (root ++ ["server"; "cmd"; "server"])) [".."; ".."; ".."; "proto"] = dir).
  { rewrite Join_path_of by (auto; repeat constructor; set_solver). unfold dir. f_equal. cbn [foldl].
    rewrite Hup2, Hup1, Hup0. unfold add_component. simpl. done. }
  assert (Ho : Join (path_of (root ++ ["server"; "cmd"; "server"])) [".."; ".."; "pb"]
    = path_of (root ++ ["server"; "pb"])).
  { rewrite Join_path_of by (auto; repeat constructor; set_solver). f_equal. cbn [foldl].
    rewrite Hup2, Hup1. unfold add_component. simpl. by rewrite <- app_assoc. }
  assert (Hcp : Forall component (root ++ ["proto"])) by (apply Hc; repeat constructor; done || set_solver).
  assert (Hco : Forall component (root ++ ["server"; "pb"]))
    by (apply Hc; repeat constructor; done || set_solver).
  unfold o, main. rewrite Hp, Ho. simpl. unfold Abs. unfold dir at 2. rewrite !Clean_path_of by done.
  split_and!.
  - destruct (walk_spec (walked dir)) as (seen & rest & Hv & H1 & H2 & H3).
    exists seen, rest. rewrite H3. by split_and!.
  - rewrite Join_path_of by (done || (repeat constructor; set_solver)). f_equal. simpl.
    unfold add_component. simpl. by rewrite <- app_assoc.
  - by destruct (protoc _).
Qed.

Lemma protoc_args_witness :
  args (main "/repo/server/cmd/server" (λ _, [VDir "/repo/proto"; VFile "/repo/proto/a.proto" "a.proto"])
          (λ _, true))
  = ["--proto_path=/repo/proto"; "--go_out=/repo/server/pb"; "--go_opt=module=rpc-server/pb";
     "/repo/proto/a.proto"].
Proof.
  destruct (protoc_args ["repo"]
    (λ _, [VDir "/repo/proto"; VFile "/repo/proto/a.proto" "a.proto"]) (λ _, true))
    as ((seen & rest & Hv & Hs & Hr & Ha) & _).
  { repeat constructor; done || set_solver. }
  change "/repo/server/cmd/server" with (path_of (["repo"] ++ ["server"; "cmd"; "server"])). rewrite Ha.
  assert (rest = []) as ->.
  { destruct Hr as [?|[rest' ->]]; [done|]. exfalso.
    assert (Hin : VError ∈ [VDir "/repo/proto"; VFile "/repo/proto/a.proto" "a.proto"])
      by (rewrite Hv; set_solver). set_solver. }
  rewrite app_nil_r in Hv. subst seen. vm_compute. reflexivity.
Defined.

End Genproto.
