(* ===== verification/Fault.v ===== *)
(** * Retries of the client library: [src/client/.../fault/FaultTolerance.kt] and
      [src/client/.../balance/LoadBalancer.kt]

    [execute] repeats an action after a failure that [isRetryable] accepts, with
    delays that double up to a limit.  An action changes a state [S] and returns
    or throws; exceptions are values of [throwable], by class.  The state also
    says whether the thread has been interrupted, which is what a call of
    [Thread.sleep] finds. *)

From S2P Require Import Prelude GoLib Pb.

Module Fault.

(** ** Exceptions *)

(** The classes that the library throws, catches or tells apart.  [TimeoutException]
    is that of [java.util.concurrent]; [SocketException] extends [IOException]. *)
Inductive throwable : Type :=
| IOException (msg : string)
| SocketException (msg : string)
| TimeoutException
| RpcException (code : Z) (msg : string) (cause : option throwable)
| ServerException (code : Z) (msg : string)
| ExecutionException (cause : throwable)
| InvocationTargetException (cause : throwable)
| InterruptedException
| RuntimeException (msg : string) (cause : option throwable)
| IllegalArgumentException (msg : string)
| IllegalStateException (msg : string)
| UnsupportedOperationException (msg : string).

Definition class_name (e : throwable) : string :=
  match e with
  | IOException _ => "java.io.IOException"
  | SocketException _ => "java.net.SocketException"
  | TimeoutException => "java.util.concurrent.TimeoutException"
  | RpcException _ _ _ => "tech.bobliu.rpc.exception.RpcException"
  | ServerException _ _ => "tech.bobliu.rpc.exception.ServerException"
  | ExecutionException _ => "java.util.concurrent.ExecutionException"
  | InvocationTargetException _ => "java.lang.reflect.InvocationTargetException"
  | InterruptedException => "java.lang.InterruptedException"
  | RuntimeException _ _ => "java.lang.RuntimeException"
  | IllegalArgumentException _ => "java.lang.IllegalArgumentException"
  | IllegalStateException _ => "java.lang.IllegalStateException"
  | UnsupportedOperationException _ => "java.lang.UnsupportedOperationException"
  end.

(** [getMessage] of [java.lang.Throwable], with [None] for [null]; that of an
    [ExecutionException] is the [toString] of its cause. *)
Fixpoint message (e : throwable) : option string :=
  match e with
  | IOException msg | SocketException msg | RpcException _ msg _ | ServerException _ msg
  | RuntimeException msg _ | IllegalArgumentException msg | IllegalStateException msg
  | UnsupportedOperationException msg => Some msg
  | TimeoutException | InterruptedException | InvocationTargetException _ => None
  | ExecutionException cause =>
    Some (class_name cause +:+ match message cause with Some m => ": " +:+ m | None => "" end)
  end.

(** A message in a string template. *)
Definition shown (e : throwable) : string := default "null" (message e).

Fixpoint isRetryable (e : throwable) : bool :=
  match e with
  | IOException _ | SocketException _ | TimeoutException => true
  | RpcException _ _ cause =>
    match cause with Some cause => isRetryable cause | None => false end
  | _ => false
  end.

(** ** [FaultTolerance] *)

Record FaultTolerance : Type := { maxRetries : Z; baseDelayMs : Z; maxDelayMs : Z }.

(** The default arguments of the constructor. *)
Definition default_tolerance : FaultTolerance :=
  {| maxRetries := 3; baseDelayMs := 200; maxDelayMs := 3000 |}.

Section execute.
Context {S T : Type}.
Context (interrupted : S → bool) (action : S → S * result throwable T).
Context (ft : FaultTolerance).

(** [Thread.sleep]: what it throws. *)
Definition sleep (delay : Z) (s : S) : option throwable :=
  if delay <? 0 then Some (IllegalArgumentException "timeout value is negative")
  else if interrupted s then Some InterruptedException
  else None.

(** The iterations [attempt] to [maxRetries], of which there are [n]; [slept] are the
    delays so far. *)
Fixpoint execute_loop (n : nat) (attempt delay : Z) (slept : list Z) (s : S)
    : S * result throwable T * list Z :=
  match n with
  | O =>
    (s, Err (RpcException (-1)
          ("RPC failed after " +:+ Strconv.fmt_d (maxRetries ft) +:+ " retries") None), slept)
  | Datatypes.S n =>
    match action s with
    | (s, Ok v) => (s, Ok v, slept)
    | (s, Err e) =>
      if (attempt =? maxRetries ft) || negb (isRetryable e) then (s, Err e, slept)
      else
        match sleep delay s with
        | Some e => (s, Err e, slept)
        | None =>
          execute_loop n (attempt + 1) (Z.min (wrap_i64 (delay * 2)) (maxDelayMs ft))
            (slept ++ [delay]) s
        end
    end
  end.

Definition execute (s : S) : S * result throwable T * list Z :=
  execute_loop (Z.to_nat (maxRetries ft + 1)) 0 (baseDelayMs ft) [] s.

(** ** Attempts *)

(** The state before attempt [k], and what the attempt gives. *)
Definition before (k : nat) (s : S) : S := Nat.iter k (λ s, (action s).1) s.
Definition outcome (k : nat) (s : S) : result throwable T := (action (before k s)).2.

Definition retryable (r : result throwable T) : bool :=
  match r with Ok _ => false | Err e => isRetryable e end.

(** The delay after attempt [i]. *)
Definition delay_after (i : Z) : Z := Z.min (baseDelayMs ft * 2 ^ i) (maxDelayMs ft).

Lemma before_S k s : before k (action s).1 = before (Datatypes.S k) s.
Proof. unfold before. by rewrite Nat.iter_succ_r. Qed.

Lemma delay_double i :
  0 ≤ i → 0 ≤ baseDelayMs ft ≤ maxDelayMs ft → maxDelayMs ft < 2 ^ 62 →
  Z.min (wrap_i64 (delay_after i * 2)) (maxDelayMs ft) = delay_after (i + 1).
Proof.
  intros Hi Hb Hm. unfold delay_after. rewrite Z.pow_add_r by lia.
  pose proof (Z.pow_pos_nonneg 2 i ltac:(lia) Hi).
  rewrite wrap_i64_id by (unfold in_i64; nia). lia.
Qed.

Lemma execute_loop_S n attempt delay slept s :
  execute_loop (Datatypes.S n) attempt delay slept s =
  match action s with
  | (s, Ok v) => (s, Ok v, slept)
  | (s, Err e) =>
    if (attempt =? maxRetries ft) || negb (isRetryable e) then (s, Err e, slept)
    else
      match sleep delay s with
      | Some e => (s, Err e, slept)
      | None =>
        execute_loop n (attempt + 1) (Z.min (wrap_i64 (delay * 2)) (maxDelayMs ft))
          (slept ++ [delay]) s
      end
  end.
Proof. done. Qed.

(** The loop from iteration [attempt] on. *)
Lemma execute_loop_spec n : ∀ attempt slept s,
  (∀ s, interrupted s = false) →
  0 ≤ attempt → maxRetries ft = attempt + Z.of_nat n →
  0 ≤ baseDelayMs ft ≤ maxDelayMs ft → maxDelayMs ft < 2 ^ 62 →
  ∃ k, (k ≤ n)%nat ∧ (∀ j, (j < k)%nat → retryable (outcome j s) = true) ∧
    (k = n ∨ retryable (outcome k s) = false) ∧
    execute_loop (Datatypes.S n) attempt (delay_after attempt) slept s =
    (before (Datatypes.S k) s, outcome k s, slept ++ (delay_after <$> seqZ attempt (Z.of_nat k))).
Proof.
  induction n as [|n IH]; intros attempt slept s Hint Hat Hmax Hb Hm;
    rewrite execute_loop_S.
  - exists 0%nat. unfold outcome, before. simpl. rewrite app_nil_r.
    destruct (action s) as [s1 [v|e]]; split_and!; auto; try lia.
    replace (attempt =? maxRetries ft) with true by (symmetry; lia). done.
  - destruct (retryable (action s).2) eqn:Er.
    + destruct (action s) as [s1 [v|e]] eqn:Ea; [done|]. simpl in Er. rewrite Er.
      replace (attempt =? maxRetries ft) with false by (symmetry; lia). cbn [orb negb].
      unfold sleep. rewrite Hint.
      replace (delay_after attempt <? 0) with false
        by (symmetry; apply Z.ltb_ge; unfold delay_after;
            pose proof (Z.pow_nonneg 2 attempt ltac:(lia)); nia).
      rewrite delay_double by done.
      destruct (IH (attempt + 1) (slept ++ [delay_after attempt]) s1) as (k & Hk & Hbefore & Hstop & Heq);
        [done|lia|lia|done|done|].
      assert (Hs : ∀ j, outcome j s1 = outcome (Datatypes.S j) s).
      { intros j. unfold outcome. by rewrite <- (before_S j s), Ea. }
      exists (Datatypes.S k). split_and!; [lia| | |].
      * intros [|j] Hj; [unfold outcome; simpl; by rewrite Ea|]. rewrite <- Hs. apply Hbefore. lia.
      * rewrite <- Hs. destruct Hstop; [left; lia|by right].
      * rewrite Heq, Hs, <- (before_S (Datatypes.S k) s), Ea. simpl.
        rewrite (seqZ_cons attempt) by lia. rewrite <- app_assoc. simpl.
        by replace (Z.pred (Z.of_nat (Datatypes.S k))) with (Z.of_nat k) by lia.
    + exists 0%nat. unfold outcome, before. simpl. rewrite app_nil_r.
      destruct (action s) as [s1 [v|e]]; simpl in Er; split_and!; auto; try lia.
      rewrite Er, orb_true_r. done.
Qed.

(** C24: [execute] makes at most [maxRetries + 1] attempts.  It repeats the action
    exactly while the attempt fails with an exception that [isRetryable] accepts, and
    returns or throws what the last attempt gave; between two attempts it
    sleeps [baseDelayMs], then twice as long each time up to [maxDelayMs], without
    overflow. *)
Theorem execute_attempts (s : S) :
  (∀ s, interrupted s = false) →
  0 ≤ maxRetries ft → 0 ≤ baseDelayMs ft ≤ maxDelayMs ft → maxDelayMs ft < 2 ^ 62 →
  ∃ k, (k ≤ Z.to_nat (maxRetries ft))%nat ∧
    (∀ j, (j < k)%nat → retryable (outcome j s) = true) ∧
    (k = Z.to_nat (maxRetries ft) ∨ retryable (outcome k s) = false) ∧
    execute s = (before (Datatypes.S k) s, outcome k s, delay_after <$> seqZ 0 (Z.of_nat k)).
Proof.
  intros Hint Hmax Hb Hm.
  destruct (execute_loop_spec (Z.to_nat (maxRetries ft)) 0 [] s) as (k & Hk & Hbefore & Hstop & Heq);
    [done|lia|lia|done|done|].
  exists k. split_and!; [done..|]. unfold execute.
  replace (Z.to_nat (maxRetries ft + 1)) with (Datatypes.S (Z.to_nat (maxRetries ft))) by lia.
  replace (baseDelayMs ft) with (delay_after 0) at 1 by (unfold delay_after; lia).
  exact Heq.
Qed.

(** An action that never fails in a retryable way runs once. *)
Lemma execute_once s :
  0 ≤ maxRetries ft → retryable (action s).2 = false →
  execute s = ((action s).1, (action s).2, []).
Proof.
  intros Hmax Hr. unfold execute.
  replace (Z.to_nat (maxRetries ft + 1)) with (Datatypes.S (Z.to_nat (maxRetries ft))) by lia.
  simpl. destruct (action s) as [s1 [v|e]]; [done|]. simpl in *. by rewrite Hr, orb_true_r.
Qed.

End execute.

(** ** [LoadBalancer.select]

    [i] is the number that [random.nextInt(instances.size)] returns. *)
Definition select (instances : list Reg.ServiceInfo) (i : Z) : result throwable Reg.ServiceInfo :=
  match instances with
  | [] => Err (IllegalStateException "No available service instances")
  | _ =>
    match instances !! Z.to_nat i with
    | Some x => Ok x
    | None => Err (RuntimeException "index out of bounds" None)
    end
  end.

Lemma select_in instances i :
  0 ≤ i < Z.of_nat (length instances) → ∃ x, select instances i = Ok x ∧ x ∈ instances.
Proof.
  intros Hi. unfold select. destruct instances as [|y l]; [simpl in *; lia|].
  destruct (lookup_lt_is_Some_2 (y :: l) (Z.to_nat i)) as [x Hx]; [lia|].
  rewrite Hx. exists x. split; [done|]. by eapply list_elem_of_lookup_2.
Qed.

(** ** An action that fails twice *)

Definition flaky (n : nat) : nat * result throwable nat :=
  (S n, if (n <? 2)%nat then Err (SocketException "reset") else Ok n).

Lemma execute_attempts_witness :
  ∃ k, execute (λ _, false) flaky default_tolerance 0%nat =
       (before flaky (S k) 0%nat, outcome flaky k 0%nat, delay_after default_tolerance <$> seqZ 0 (Z.of_nat k)).
Proof.
  destruct (execute_attempts (λ _, false) flaky default_tolerance 0%nat) as (k & _ & _ & _ & H);
    [reflexivity|simpl; lia|simpl; lia|simpl; lia|]. exists k. exact H.
Defined.

Example execute_flaky :
  execute (λ _, false) flaky default_tolerance 0%nat = (3%nat, Ok 2%nat, [200; 400]).
Proof. vm_compute. reflexivity. Qed.

End Fault.
