(* ===== verification/ClientCall.v ===== *)
(** * Calls of the client library: [src/client/.../network/RpcClient.kt] and
      [src/client/.../proxy/RpcInvocationHandler.kt]

    [call] runs in the caller's thread, [ResponseHandler] in the threads of Netty.
    The model is a step relation on the calls, the channels and the futures, one
    step for each operation on a concurrent map, a future or a channel; every
    interleaving of any number of calls is a sequence of steps.  A channel keeps
    the requests written to it and the responses read from it, in order; how they
    become bytes is the frame codec of [Netty.v].  [invoke] is the body of every method
    of a proxy, those of [Object] included. *)

From S2P Require Import Prelude GoLib Pb Db Fault.

Module RpcClient.
Import Rpc Fault.

(** ** State *)

(** [channelInactive] fails the pending futures and then clears the map. *)
Inductive channel_status : Type := Active | Failing | Inactive.

(** A [ChannelContext]; a future is named by the number of its call. *)
Record ChannelContext : Type := {
  key : string;
  status : channel_status;
  pending : gmap string nat;
  written : list RpcRequest;
  read : list RpcResponse;
}.

(** Where a call is: before [getOrCreateChannel]; before [pending[...] = future];
    before [writeAndFlush]; in [future.get]; returned or thrown. *)
Inductive call_pc : Type :=
| CStart
| CHave (ch : nat)
| CPut (ch : nat)
| CWait (ch : nat)
| CEnd (r : result throwable RpcResponse).

Record call : Type := {
  request : RpcRequest;
  host : string;
  port : Z;
  pc : call_pc;
  future : option (result throwable RpcResponse);
}.

Record client : Type := {
  channels : gmap string nat;
  contexts : list ChannelContext;
  calls : list call;
}.

Definition init : client := {| channels := ∅; contexts := []; calls := [] |}.

(** The key of [channels]: host, colon and port. *)
Definition channel_key (c : call) : string := host c +:+ ":" +:+ Strconv.fmt_d (port c).

(** ** Updates *)

Definition set_pc (p : call_pc) (c : call) : call :=
  {| request := request c; host := host c; port := port c; pc := p; future := future c |}.

(** [complete] and [completeExceptionally]: only the first one counts. *)
Definition complete (r : result throwable RpcResponse) (c : call) : call :=
  {| request := request c; host := host c; port := port c; pc := pc c;
     future := match future c with None => Some r | some => some end |}.

Definition on_call (i : nat) (f : call → call) (k : client) : client :=
  {| channels := channels k; contexts := contexts k; calls := alter f i (calls k) |}.

Definition on_context (ch : nat) (f : ChannelContext → ChannelContext) (k : client) : client :=
  {| channels := channels k; contexts := alter f ch (contexts k); calls := calls k |}.

Definition set_pending (p : gmap string nat) (x : ChannelContext) : ChannelContext :=
  {| key := key x; status := status x; pending := p; written := written x; read := read x |}.

Definition set_status (st : channel_status) (x : ChannelContext) : ChannelContext :=
  {| key := key x; status := st; pending := pending x; written := written x; read := read x |}.

(** [writeAndFlush]: a write to a channel that is closed fails, which nobody looks
    at. *)
Definition write (req : RpcRequest) (x : ChannelContext) : ChannelContext :=
  match status x with
  | Active => {| key := key x; status := status x; pending := pending x;
                 written := written x ++ [req]; read := read x |}
  | _ => x
  end.

(** A response is read and its future taken out of [pending]. *)
Definition receive (resp : RpcResponse) (x : ChannelContext) : ChannelContext :=
  {| key := key x; status := status x; pending := delete (resp_RequestId resp) (pending x);
     written := written x; read := read x ++ [resp] |}.

(** A new channel. *)
Definition connect (i : nat) (c : call) (k : client) : client :=
  let ch := length (contexts k) in
  {| channels := <[channel_key c := ch]> (channels k);
     contexts := contexts k ++ [{| key := channel_key c; status := Active; pending := ∅;
                                   written := []; read := [] |}];
     calls := alter (set_pc (CHave ch)) i (calls k) |}.

Definition closed_error : throwable := RuntimeException "Connection closed" None.

(** [pending.values.forEach { it.completeExceptionally(...) }], each of which
    removes its entry. *)
Definition fail_pending (ch : nat) (x : ChannelContext) (k : client) : client :=
  {| channels := delete (key x) (channels k);
     contexts := alter (λ x, set_status Failing (set_pending ∅ x)) ch (contexts k);
     calls := map_fold (λ _ j cs, alter (complete (Err closed_error)) j cs) (calls k) (pending x) |}.

(** What [future.get] makes of the future, with the [catch] of [call]; an exception
    is the cause of an [ExecutionException]. *)
Definition call_failed (e : throwable) : throwable :=
  RpcException (-1) ("RPC call failed: " +:+ shown e) (Some e).

Definition get (r : result throwable RpcResponse) : result throwable RpcResponse :=
  match r with Ok resp => Ok resp | Err e => Err (call_failed (ExecutionException e)) end.

(** The [catch] of [getOrCreateChannel]. *)
Definition connect_failed (c : call) (e : throwable) : throwable :=
  RuntimeException ("Failed to connect to " +:+ channel_key c +:+ ": " +:+ shown e) (Some e).

(** ** Steps *)

Inductive step : client → client → Prop :=
(* [call]: a new call *)
| step_call k req h p :
    step k {| channels := channels k; contexts := contexts k;
              calls := calls k ++ [{| request := req; host := h; port := p; pc := CStart;
                                      future := None |}] |}
(* [getOrCreateChannel]: the channel exists, is created, or cannot be *)
| step_existing k i c ch :
    calls k !! i = Some c → pc c = CStart → channels k !! channel_key c = Some ch →
    step k (on_call i (set_pc (CHave ch)) k)
| step_connect k i c :
    calls k !! i = Some c → pc c = CStart → channels k !! channel_key c = None →
    step k (connect i c k)
| step_connect_failed k i c cause :
    calls k !! i = Some c → pc c = CStart → channels k !! channel_key c = None →
    step k (on_call i (set_pc (CEnd (Err (connect_failed c cause)))) k)
(* [channelCtx.pending[request.requestId] = future], and the timer is started *)
| step_put k i c ch :
    calls k !! i = Some c → pc c = CHave ch →
    step k (on_call i (set_pc (CPut ch))
              (on_context ch (λ x, set_pending (<[req_RequestId (request c) := i]> (pending x)) x) k))
(* [writeAndFlush] *)
| step_write k i c ch :
    calls k !! i = Some c → pc c = CPut ch →
    step k (on_call i (set_pc (CWait ch)) (on_context ch (write (request c)) k))
(* [future.get] returns or throws, or the thread is interrupted in it *)
| step_get k i c ch r :
    calls k !! i = Some c → pc c = CWait ch → future c = Some r →
    step k (on_call i (set_pc (CEnd (get r))) k)
| step_interrupted k i c ch :
    calls k !! i = Some c → pc c = CWait ch →
    step k (on_call i (set_pc (CEnd (Err (call_failed InterruptedException)))) k)
(* [orTimeout]: ten seconds have passed *)
| step_timeout k i c ch :
    calls k !! i = Some c → pc c = CPut ch ∨ pc c = CWait ch → future c = None →
    step k (on_call i (complete (Err TimeoutException))
              (on_context ch (λ x, set_pending (delete (req_RequestId (request c)) (pending x)) x) k))
(* [channelRead] of a response that somebody, or nobody, waits for *)
| step_read k ch x resp i :
    contexts k !! ch = Some x → status x = Active → pending x !! resp_RequestId resp = Some i →
    step k (on_call i (complete (Ok resp)) (on_context ch (receive resp) k))
| step_read_unknown k ch x resp :
    contexts k !! ch = Some x → status x = Active → pending x !! resp_RequestId resp = None →
    step k (on_context ch (receive resp) k)
(* [channelInactive]: the peer, an idle timer, an error or [shutdown] closed the channel *)
| step_inactive k ch x :
    contexts k !! ch = Some x → status x = Active → step k (fail_pending ch x k)
| step_clear k ch x :
    contexts k !! ch = Some x → status x = Failing →
    step k (on_context ch (λ x, set_status Inactive (set_pending ∅ x)) k)
(* [shutdown]: the map of channels is cleared *)
| step_shutdown k :
    step k {| channels := ∅; contexts := contexts k; calls := calls k |}.

Definition reachable (k : client) : Prop := rtc step init k.

(** ** Failures of a call *)

(** Everything a call throws. *)
Inductive call_throws : throwable → Prop :=
| throws_connect c cause : call_throws (connect_failed c cause)
| throws_future e : call_throws (call_failed (ExecutionException e))
| throws_interrupted : call_throws (call_failed InterruptedException).

Lemma call_throws_not_retryable e : call_throws e → isRetryable e = false.
Proof. by destruct 1. Qed.

(** ** Invariant *)

Definition on_channel (k : client) (c : call) (ch : nat) : Prop :=
  ∃ x, contexts k !! ch = Some x ∧ key x = channel_key c.

(** A response with the request's id was read on a channel to the call's server. *)
Definition was_read (k : client) (c : call) (resp : RpcResponse) : Prop :=
  resp_RequestId resp = req_RequestId (request c) ∧
  ∃ ch x, contexts k !! ch = Some x ∧ key x = channel_key c ∧ resp ∈ read x.

Definition pc_ok (k : client) (c : call) : Prop :=
  match pc c with
  | CStart => True
  | CHave ch | CPut ch | CWait ch => on_channel k c ch
  | CEnd (Ok resp) => future c = Some (Ok resp)
  | CEnd (Err e) => call_throws e
  end.

Definition call_ok (k : client) (c : call) : Prop :=
  pc_ok k c ∧ ∀ resp, future c = Some (Ok resp) → was_read k c resp.

Definition context_ok (k : client) (x : ChannelContext) : Prop :=
  (∀ id i, pending x !! id = Some i →
     ∃ c, calls k !! i = Some c ∧ req_RequestId (request c) = id ∧ channel_key c = key x) ∧
  (∀ req, req ∈ written x → ∃ c, c ∈ calls k ∧ request c = req ∧ channel_key c = key x).

Definition channels_ok (k : client) : Prop :=
  ∀ a ch, channels k !! a = Some ch → ∃ x, contexts k !! ch = Some x ∧ key x = a.

Definition inv (k : client) : Prop :=
  Forall (call_ok k) (calls k) ∧ Forall (context_ok k) (contexts k) ∧ channels_ok k.

(** What only grows. *)
Definition same_call (c c' : call) : Prop := request c' = request c ∧ channel_key c' = channel_key c.

Record grows (k k' : client) : Prop := {
  grows_calls i c : calls k !! i = Some c → ∃ c', calls k' !! i = Some c' ∧ same_call c c';
  grows_contexts ch x : contexts k !! ch = Some x →
    ∃ x', contexts k' !! ch = Some x' ∧ key x' = key x ∧ read x ⊆ read x';
}.

Lemma call_ok_mono k k' c : grows k k' → call_ok k c → call_ok k' c.
Proof.
  intros [_ Hx] [Hpc Hf]. split.
  - unfold pc_ok, on_channel in *. destruct (pc c) as [|ch|ch|ch|[]]; try done;
      destruct Hpc as (x & Hc & Hk); destruct (Hx _ _ Hc) as (x' & ? & ? & _); exists x'; by rewrite <- Hk.
  - intros resp Hr. destruct (Hf resp Hr) as (Hid & ch & x & Hc & Hk & Hin).
    destruct (Hx _ _ Hc) as (x' & ? & Hk' & Hsub). split; [done|]. exists ch, x'. rewrite Hk'. auto.
Qed.

Lemma context_ok_mono k k' x : grows k k' → context_ok k x → context_ok k' x.
Proof.
  intros [Hc _] [Hp Hw]. split.
  - intros id i Hi. destruct (Hp id i Hi) as (c & Hi' & <- & <-).
    destruct (Hc _ _ Hi') as (c' & ? & Hr & Hk). exists c'. by rewrite Hr, Hk.
  - intros req Hin. destruct (Hw req Hin) as (c & Hi & <- & <-).
    apply list_elem_of_lookup in Hi as [i Hi]. destruct (Hc _ _ Hi) as (c' & Hi' & Hr & Hk).
    exists c'. rewrite Hr, Hk. by apply list_elem_of_lookup_2 in Hi'.
Qed.

Lemma grows_refl k : grows k k.
Proof. split; unfold same_call; eauto. Qed.

Lemma alter_call {A} (P : A → A → Prop) (f : A → A) (l : list A) i :
  (∀ a, P a a) → (∀ a, P a (f a)) →
  ∀ j a, l !! j = Some a → ∃ a', alter f i l !! j = Some a' ∧ P a a'.
Proof.
  intros H1 H2 j a Hj. destruct (decide (i = j)) as [->|Hne].
  - rewrite list_lookup_alter_eq, Hj. simpl. eauto.
  - rewrite list_lookup_alter_ne by done. eauto.
Qed.

Lemma grows_alter k f i g ch chs :
  (∀ c, same_call c (f c)) → (∀ x, key (g x) = key x ∧ read x ⊆ read (g x)) →
  grows k {| channels := chs; contexts := alter g ch (contexts k); calls := alter f i (calls k) |}.
Proof.
  intros Hf Hg. split; simpl.
  - by apply (alter_call same_call).
  - by apply (alter_call (λ x x', key x' = key x ∧ read x ⊆ read x')).
Qed.

(** A step that changes one call and one channel. *)
Lemma inv_alter k f i g ch :
  let k' := on_call i f (on_context ch g k) in
  inv k → (∀ c, same_call c (f c)) → (∀ x, key (g x) = key x ∧ read x ⊆ read (g x)) →
  (∀ c, calls k !! i = Some c → call_ok k' c → call_ok k' (f c)) →
  (∀ x, contexts k !! ch = Some x → context_ok k' x → context_ok k' (g x)) →
  inv k'.
Proof.
  intros k' (Hcalls & Hctxs & Hchs) Hf Hg Hc Hx.
  assert (Hgr : grows k k') by (exact (grows_alter k f i g ch (channels k) Hf Hg)).
  split_and!.
  - apply Forall_alter.
    + eapply Forall_impl; [exact Hcalls|]. intros c. by apply call_ok_mono.
    + intros c Hl Hok. by apply Hc.
  - apply Forall_alter.
    + eapply Forall_impl; [exact Hctxs|]. intros x. by apply context_ok_mono.
    + intros x Hl Hok. by apply Hx.
  - intros a j Ha. destruct (Hchs a j Ha) as (x & Hl & <-).
    destruct (grows_contexts _ _ Hgr _ _ Hl) as (x' & ? & ? & _). eauto.
Qed.

Lemma on_call_alter i f k : on_call i f k = on_call i f (on_context 0 id k).
Proof. unfold on_call, on_context. simpl. by rewrite (list_alter_id id). Qed.

Lemma on_context_alter ch g k : on_context ch g k = on_call 0 id (on_context ch g k).
Proof. unfold on_call, on_context. simpl. by rewrite (list_alter_id id). Qed.

Lemma inv_on_call k f i :
  inv k → (∀ c, same_call c (f c)) →
  (∀ c, calls k !! i = Some c → call_ok (on_call i f k) c → call_ok (on_call i f k) (f c)) →
  inv (on_call i f k).
Proof. rewrite on_call_alter. intros ? Hf Hc. apply inv_alter; auto. Qed.

Lemma inv_on_context k g ch :
  inv k → (∀ x, key (g x) = key x ∧ read x ⊆ read (g x)) →
  (∀ x, contexts k !! ch = Some x → context_ok (on_context ch g k) x →
        context_ok (on_context ch g k) (g x)) →
  inv (on_context ch g k).
Proof. rewrite on_context_alter. intros ? Hg Hx. apply inv_alter; auto. by intros c. Qed.

(** Channels only forget pending calls, except for the one that is put. *)
Lemma context_ok_less k x p st :
  context_ok k x → p ⊆ pending x → context_ok k (set_status st (set_pending p x)).
Proof.
  intros [Hp Hw] Hsub. split; [|done]. intros id i Hi. apply Hp. by eapply lookup_weaken.
Qed.

Lemma same_set_pc p c : same_call c (set_pc p c).
Proof. done. Qed.
Lemma same_complete r c : same_call c (complete r c).
Proof. done. Qed.

Lemma call_ok_set_pc k p c : call_ok k c → pc_ok k (set_pc p c) → call_ok k (set_pc p c).
Proof. by intros [_ Hf] Hp. Qed.

Lemma call_ok_complete k r c :
  call_ok k c → (∀ resp, r = Ok resp → was_read k c resp) → call_ok k (complete r c).
Proof.
  intros [Hpc Hf] Hr. split.
  - unfold pc_ok in *. simpl. destruct (pc c) as [| | | |[resp|]]; try done. by rewrite Hpc.
  - simpl. intros resp. destruct (future c) as [r'|] eqn:E; [by apply Hf|].
    intros [= ->]. by apply Hr.
Qed.

Lemma fail_calls (p : gmap string nat) r (cs : list call) :
  Forall2 (λ c c', c' = c ∨ c' = complete r c)
    cs (map_fold (λ _ j cs, alter (complete r) j cs) cs p).
Proof.
  apply (map_fold_weak_ind (λ cs' _, Forall2 (λ c c', c' = c ∨ c' = complete r c) cs cs')).
  - apply Forall_Forall2_diag. apply Forall_forall. auto.
  - intros _ j _ cs' _ IH. apply Forall2_alter_r; [done|].
    intros c c' _ _ [-> | ->]; [by right|]. right. unfold complete. simpl. by destruct (future c).
Qed.

Lemma inv_fail_pending k ch x :
  inv k → contexts k !! ch = Some x → inv (fail_pending ch x k).
Proof.
  intros (Hcalls & Hctxs & Hchs) Hx. set (k' := fail_pending ch x k).
  pose proof (fail_calls (pending x) (Err closed_error) (calls k)) as Hf.
  assert (Hgr : grows k k').
  { split; simpl.
    - intros i c Hi. eapply Forall2_lookup_l in Hf as (c' & Hi' & Hc'); [|exact Hi].
      exists c'. split; [done|]. by destruct Hc' as [-> | ->].
    - by apply (alter_call (λ x x', key x' = key x ∧ read x ⊆ read x')). }
  split_and!.
  - simpl. apply Forall_lookup. intros i c' Hi.
    eapply Forall2_lookup_r in Hf as (c & Hc & Hcases); [|exact Hi].
    rewrite Forall_lookup in Hcalls. specialize (Hcalls i c Hc). apply (call_ok_mono _ k') in Hcalls; [|done].
    destruct Hcases as [-> | ->]; [done|]. by apply call_ok_complete.
  - simpl. apply Forall_alter.
    + eapply Forall_impl; [exact Hctxs|]. intros y. by apply context_ok_mono.
    + intros y _ Hy. apply context_ok_less; [done|]. apply map_empty_subseteq.
  - intros a j Ha. simpl in Ha. apply lookup_delete_Some in Ha as [_ Ha].
    destruct (Hchs a j Ha) as (y & Hl & <-).
    destruct (grows_contexts _ _ Hgr _ _ Hl) as (x' & ? & ? & _). eauto.
Qed.

Lemma inv_connect k i c :
  inv k → calls k !! i = Some c → inv (connect i c k).
Proof.
  intros (Hcalls & Hctxs & Hchs) Hi. set (k' := connect i c k).
  assert (Hgr : grows k k').
  { split; simpl.
    - by apply (alter_call same_call).
    - intros ch x Hl. exists x. split; [|done]. by apply lookup_app_l_Some. }
  assert (Hnew : contexts k' !! length (contexts k) = Some
    {| key := channel_key c; status := Active; pending := ∅; written := []; read := [] |})
    by (simpl; by rewrite lookup_app_r, Nat.sub_diag).
  split_and!.
  - simpl. apply Forall_alter.
    + eapply Forall_impl; [exact Hcalls|]. intros c'. by apply call_ok_mono.
    + intros c' Hl Hok. apply call_ok_set_pc; [done|]. assert (c' = c) as -> by congruence.
      eexists. split; [exact Hnew|done].
  - simpl. apply Forall_app. split.
    + eapply Forall_impl; [exact Hctxs|]. intros y. by apply context_ok_mono.
    + repeat constructor; [done|]. intros req Hin. by apply not_elem_of_nil in Hin.
  - intros a j Ha. cbn [channels k' connect] in Ha.
    apply lookup_insert_Some in Ha as [[<- <-]|[_ Ha]]; [eauto|].
    destruct (Hchs a j Ha) as (y & Hl & <-).
    destruct (grows_contexts _ _ Hgr _ _ Hl) as (x' & ? & ? & _). eauto.
Qed.

Lemma inv_new_call k req h p :
  inv k →
  inv {| channels := channels k; contexts := contexts k;
         calls := calls k ++ [{| request := req; host := h; port := p; pc := CStart; future := None |}] |}.
Proof.
  intros (Hcalls & Hctxs & Hchs).
  match goal with |- inv ?x => set (k' := x) end.
  assert (Hgr : grows k k').
  { split; simpl; [|eauto]. intros i c Hl. exists c. split; [|done]. by apply lookup_app_l_Some. }
  split_and!; simpl.
  - apply Forall_app. split.
    + eapply Forall_impl; [exact Hcalls|]. intros c. by apply call_ok_mono.
    + by repeat constructor.
  - eapply Forall_impl; [exact Hctxs|]. intros y. by apply context_ok_mono.
  - exact Hchs.
Qed.

(** The channel of a call is still there. *)
Lemma pc_ok_channel k i c ch :
  inv k → calls k !! i = Some c → pc c = CHave ch ∨ pc c = CPut ch ∨ pc c = CWait ch → on_channel k c ch.
Proof.
  intros (Hcalls & _) Hi Hpc. rewrite Forall_lookup in Hcalls. destruct (Hcalls i c Hi) as [Hok _].
  unfold pc_ok in Hok. by destruct Hpc as [E|[E|E]]; rewrite E in Hok.
Qed.

Lemma inv_lookup_context k ch x : inv k → contexts k !! ch = Some x → context_ok k x.
Proof. intros (_ & H & _) Hx. rewrite Forall_lookup in H. eauto. Qed.

Lemma context_ok_pending_less k x p : context_ok k x → p ⊆ pending x → context_ok k (set_pending p x).
Proof. intros Hx Hp. exact (context_ok_less k x p (status x) Hx Hp). Qed.

Lemma context_ok_receive k x resp : context_ok k x → context_ok k (receive resp x).
Proof.
  intros [Hpend Hw]. split; [|done]. intros id j Hj. simpl in Hj.
  apply lookup_delete_Some in Hj as [_ Hj]. by apply Hpend.
Qed.

Lemma inv_put k i c ch :
  inv k → calls k !! i = Some c → pc c = CHave ch →
  inv (on_call i (set_pc (CPut ch))
         (on_context ch (λ x, set_pending (<[req_RequestId (request c) := i]> (pending x)) x) k)).
Proof.
  intros Hinv Hi Hpc. destruct (pc_ok_channel k i c ch Hinv Hi ltac:(auto)) as (x0 & Hx0 & Hk0).
  apply inv_alter; [done|done|done| |].
  - intros c' Hl Hok. assert (c' = c) as -> by congruence. apply call_ok_set_pc; [done|].
    destruct Hok as [Hok _]. unfold pc_ok in Hok. by rewrite Hpc in Hok.
  - intros x Hx [Hp Hw]. assert (x0 = x) as -> by congruence. split; [|done].
    intros id j Hj. simpl in Hj. apply lookup_insert_Some in Hj as [[<- <-]|[_ Hj]]; [|by apply Hp].
    exists (set_pc (CPut ch) c). simpl. rewrite list_lookup_alter_eq, Hi. auto.
Qed.

Lemma inv_write k i c ch :
  inv k → calls k !! i = Some c → pc c = CPut ch →
  inv (on_call i (set_pc (CWait ch)) (on_context ch (write (request c)) k)).
Proof.
  intros Hinv Hi Hpc. destruct (pc_ok_channel k i c ch Hinv Hi ltac:(auto)) as (x0 & Hx0 & Hk0).
  apply inv_alter; [done|done| | |].
  - intros x. unfold write. by destruct (status x).
  - intros c' Hl Hok. assert (c' = c) as -> by congruence. apply call_ok_set_pc; [done|].
    destruct Hok as [Hok _]. unfold pc_ok in Hok. by rewrite Hpc in Hok.
  - intros x Hx Hok. assert (x0 = x) as -> by congruence. unfold write.
    destruct (status x); [|done..]. destruct Hok as [Hp Hw]. split; [done|]. simpl.
    intros req [Hin|Hin%list_elem_of_singleton]%elem_of_app; [by apply Hw|]. subst req.
    exists (set_pc (CWait ch) c). split; [|done]. apply (list_elem_of_lookup_2 _ i).
    by rewrite list_lookup_alter_eq, Hi.
Qed.

Lemma inv_read k ch x resp i :
  inv k → contexts k !! ch = Some x → pending x !! resp_RequestId resp = Some i →
  inv (on_call i (complete (Ok resp)) (on_context ch (receive resp) k)).
Proof.
  intros Hinv Hx Hp. apply inv_alter; [done|done| | |].
  - intros y. simpl. set_solver.
  - intros c Hc Hok. apply call_ok_complete; [done|]. intros r [= <-].
    destruct (inv_lookup_context k ch x Hinv Hx) as [Hpend _].
    destruct (Hpend _ _ Hp) as (c' & Hc' & Hid & Hkey). assert (c' = c) as -> by congruence.
    split; [done|]. exists ch, (receive resp x). simpl. rewrite list_lookup_alter_eq, Hx.
    split_and!; [done..|]. set_solver.
  - intros y _. apply context_ok_receive.
Qed.

Lemma client_inv_step k k' : inv k → step k k' → inv k'.
Proof.
  intros Hinv Hs. destruct Hs as
    [k req h p|k i c ch Hi Hpc Hch|k i c Hi Hpc Hch|k i c cause Hi Hpc Hch|k i c ch Hi Hpc
    |k i c ch Hi Hpc|k i c ch r Hi Hpc Hf|k i c ch Hi Hpc|k i c ch Hi Hpc Hf|k ch x resp i Hx Hst Hp
    |k ch x resp Hx Hst Hp|k ch x Hx Hst|k ch x Hx Hst|k].
  - by apply inv_new_call.
  - apply inv_on_call; [done|done|]. intros c' Hl Hok. assert (c' = c) as -> by congruence.
    apply call_ok_set_pc; [done|]. destruct Hinv as (_ & _ & Hchs). exact (Hchs _ _ Hch).
  - by apply inv_connect.
  - apply inv_on_call; [done|done|]. intros c' _ Hok. apply call_ok_set_pc; [done|]. constructor.
  - by apply inv_put.
  - by apply inv_write.
  - apply inv_on_call; [done|done|]. intros c' Hl Hok. assert (c' = c) as -> by congruence.
    apply call_ok_set_pc; [done|]. destruct r; [done|constructor].
  - apply inv_on_call; [done|done|]. intros c' Hl Hok. apply call_ok_set_pc; [done|]. constructor.
  - apply inv_alter; [done|done|done| |].
    + intros c' _ Hok. by apply call_ok_complete.
    + intros x _ Hok. apply context_ok_pending_less; [done|]. apply delete_subseteq.
  - by eapply inv_read.
  - apply inv_on_context; [done| |].
    + intros y. simpl. set_solver.
    + intros y _. apply context_ok_receive.
  - by apply inv_fail_pending.
  - apply inv_on_context; [done|done|]. intros y _ Hok. apply context_ok_less; [done|].
    apply map_empty_subseteq.
  - destruct Hinv as (H1 & H2 & _). by split_and!.
Qed.

Lemma inv_init : inv init.
Proof. split_and!; [constructor|constructor|]. intros a ch Ha. simpl in Ha. by rewrite lookup_empty in Ha. Qed.

Lemma client_reachable_inv k : reachable k → inv k.
Proof.
  unfold reachable. intros H. apply (rtc_ind_r inv init inv_init) in H; [done|].
  intros a b _ Hs Ha. by eapply client_inv_step.
Qed.

(** ** Calls end *)

(** How many steps of its own a call still needs, at most. *)
Definition left (c : call) : nat :=
  match pc c with CStart => 5 | CHave _ => 4 | CPut _ => 3 | CWait _ => 2 | CEnd _ => 0 end +
  match future c with None => 1 | Some _ => 0 end.

(** Later states of a call. *)
Definition later (c c' : call) : Prop := same_call c c' ∧ (left c' ≤ left c)%nat.

Lemma later_complete r c : later c (complete r c).
Proof. split; [done|]. unfold left. simpl. destruct (future c); lia. Qed.

Lemma later_set_pc p c : (left (set_pc p c) ≤ left c)%nat → later c (set_pc p c).
Proof. by intros H. Qed.

Lemma later_alter (f : call → call) i (cs : list call) j c :
  (∀ c, cs !! i = Some c → later c (f c)) → cs !! j = Some c →
  ∃ c', alter f i cs !! j = Some c' ∧ later c c'.
Proof.
  intros Hf Hj. destruct (decide (i = j)) as [->|Hne].
  - rewrite list_lookup_alter_eq, Hj. simpl. eauto.
  - rewrite list_lookup_alter_ne by done. exists c. split; [done|]. by split.
Qed.

Ltac later_pc := apply later_alter; [|done]; intros ? ?; simplify_eq; apply later_set_pc;
  unfold left; simpl; match goal with H : pc _ = _ |- _ => rewrite H end; lia.

(** No step of anybody sets a call back. *)
Lemma later_step k k' j c :
  step k k' → calls k !! j = Some c → ∃ c', calls k' !! j = Some c' ∧ later c c'.
Proof.
  intros Hs Hj.
  assert (Hsame : ∃ c', calls k !! j = Some c' ∧ later c c') by (exists c; by split_and!).
  destruct Hs as
    [k req h p|k i d ch Hi Hpc Hch|k i d Hi Hpc Hch|k i d cause Hi Hpc Hch|k i d ch Hi Hpc
    |k i d ch Hi Hpc|k i d ch r Hi Hpc Hf|k i d ch Hi Hpc|k i d ch Hi Hpc Hf|k ch x resp i Hx Hst Hp
    |k ch x resp Hx Hst Hp|k ch x Hx Hst|k ch x Hx Hst|k]; simpl; try done; try later_pc.
  - exists c. split; [by apply lookup_app_l_Some|by split].
  - apply later_alter; [|done]. intros. apply later_complete.
  - apply later_alter; [|done]. intros. apply later_complete.
  - pose proof (fail_calls (pending x) (Err closed_error) (calls k)) as Hf.
    eapply Forall2_lookup_l in Hf as (c' & Hc' & Hcase); [|exact Hj].
    exists c'. split; [exact Hc'|]. destruct Hcase as [-> | ->]; [by split|apply later_complete].
Qed.

(** A step that call [i] takes without help: nothing is read from any channel, no channel
    is closed, and the thread of the call is not interrupted. *)
Definition unaided (i : nat) (k k' : client) : Prop :=
  step k k' ∧
  (∀ ch x, contexts k !! ch = Some x →
     ∃ x', contexts k' !! ch = Some x' ∧ status x' = status x ∧ read x' = read x) ∧
  (∀ c', calls k' !! i = Some c' → pc c' ≠ CEnd (Err (call_failed InterruptedException))).

(** A step in which the channels keep their status and what was read. *)
Lemma unaided_alter i k f g ch :
  let k' := on_call i f (on_context ch g k) in
  step k k' → (∀ x, status (g x) = status x ∧ read (g x) = read x) →
  (∀ c, calls k !! i = Some c → pc (f c) ≠ CEnd (Err (call_failed InterruptedException))) →
  unaided i k k'.
Proof.
  intros k' Hs Hg Hf. split_and!; [done| |].
  - by apply (alter_call (λ x x', status x' = status x ∧ read x' = read x)).
  - intros c'. simpl. rewrite list_lookup_alter_eq. intros (c & Hc & ->)%fmap_Some. by apply Hf.
Qed.

Lemma unaided_call i k f :
  step k (on_call i f k) →
  (∀ c, calls k !! i = Some c → pc (f c) ≠ CEnd (Err (call_failed InterruptedException))) →
  unaided i k (on_call i f k).
Proof. rewrite on_call_alter. intros Hs Hf. by apply unaided_alter. Qed.

Lemma unaided_connect i k c :
  step k (connect i c k) → unaided i k (connect i c k).
Proof.
  intros Hs. split_and!; [done| |].
  - intros ch x Hx. exists x. split; [by apply lookup_app_l_Some|done].
  - intros c'. simpl. rewrite list_lookup_alter_eq. by intros (d & _ & ->)%fmap_Some.
Qed.

(** The call has moved on. *)
Ltac own_step :=
  match goal with Hi : calls _ !! _ = Some _ |- _ => simpl; rewrite list_lookup_alter_eq, Hi end;
  split; [done|]; unfold left; simpl;
  repeat match goal with
  | H : pc _ = _ |- _ => rewrite H
  | H : future _ = _ |- _ => rewrite H
  end; simpl; lia.

(** A call that has not ended can go on without help: at the latest, its timer fires. *)
Lemma call_progress k i c :
  calls k !! i = Some c → (∀ r, pc c ≠ CEnd r) →
  ∃ k' c', unaided i k k' ∧ calls k' !! i = Some c' ∧ (left c' < left c)%nat.
Proof.
  intros Hi Hpc. destruct (pc c) as [|ch|ch|ch|r] eqn:E; [| | | |by destruct (Hpc r)].
  - destruct (channels k !! channel_key c) as [ch|] eqn:Ec; do 2 eexists.
    + split; [apply unaided_call; [by eapply step_existing|done]|]. own_step.
    + split; [apply unaided_connect; by eapply step_connect|]. own_step.
  - do 2 eexists. split; [apply unaided_alter; [by eapply step_put|done|done]|]. own_step.
  - do 2 eexists. split; [apply unaided_alter; [by eapply step_write| |done]|].
    { intros x. unfold write. by destruct (status x) eqn:Est. }
    own_step.
  - destruct (future c) as [r|] eqn:Ef.
    + do 2 eexists. split; [apply unaided_call; [by eapply step_get|by destruct r]|]. own_step.
    + do 2 eexists. split; [apply unaided_alter; [by eapply step_timeout; eauto|done|]|].
      { intros d Hd. simpl. assert (d = c) as -> by congruence. by rewrite E. }
      own_step.
Qed.

(** C9: calls get their own answers.  Whatever the interleaving of callers, of the
    handlers of responses and closed channels, and of timers: a call returns only a
    response with the id of its request that was read on a channel to the host and
    port of the call; a call that throws throws one of the exceptions of
    [call_throws]; and calls end: no step sets a call back, and a call that has not
    ended can take a step that brings it closer to its end, at most six, even if nothing
    is read any more, no channel is closed and nobody interrupts it: when it waits for a
    response this is its timer. *)
Theorem calls_answered (k : client) (i : nat) (c : call) :
  reachable k → calls k !! i = Some c →
  (∀ resp, pc c = CEnd (Ok resp) → was_read k c resp) ∧
  (∀ e, pc c = CEnd (Err e) → call_throws e) ∧
  (left c ≤ 6)%nat ∧
  (∀ k', step k k' → ∃ c', calls k' !! i = Some c' ∧ later c c') ∧
  ((∃ r, pc c = CEnd r) ∨
   ∃ k' c', unaided i k k' ∧ calls k' !! i = Some c' ∧ (left c' < left c)%nat).
Proof.
  intros Hr Hi. pose proof (client_reachable_inv k Hr) as (Hcalls & _).
  rewrite Forall_lookup in Hcalls. destruct (Hcalls i c Hi) as [Hpc Hf]. unfold pc_ok in Hpc.
  split_and!.
  - intros resp E. rewrite E in Hpc. by apply Hf.
  - intros e E. by rewrite E in Hpc.
  - unfold left. destruct (pc c), (future c); lia.
  - intros k' Hs. by eapply later_step.
  - destruct (pc c) eqn:E; [..|by left; eauto]; right; apply call_progress; try done; intros r; congruence.
Qed.

(** ** [RpcInvocationHandler.invoke] *)

(** The methods that reach a proxy; [ofObject] if [Object] declares the method. *)
Record Method : Type := { m_name : string; ofObject : bool; annotated : bool }.

(** An argument: the proxy itself, a protobuf message that is serialised to the bytes,
    or something else. *)
Inductive object : Type := TheProxy | MessageLite (payload : bytes) | OtherObject.

#[export] Instance object_eq_dec : EqDecision object.
Proof. solve_decision. Defined.

(** What a method returns. *)
Inductive value (Resp : Type) : Type :=
| VString (s : string)
| VInt (z : Z)
| VBoolean (b : bool)
| VResponse (r : Resp).
#[global] Arguments VString {_}.
#[global] Arguments VInt {_}.
#[global] Arguments VBoolean {_}.
#[global] Arguments VResponse {_}.

(** [proxy.javaClass.name] and [System.identityHashCode(proxy)]. *)
Record proxy_object : Type := { className : string; identityHashCode : Z }.

(** [Integer.toHexString]: the digits of the unsigned number, without leading zeros. *)
Fixpoint hex_digits (n : nat) (z : Z) (acc : string) : string :=
  match n with
  | O => acc
  | S n =>
    let acc := String (Db.hex_digit (z mod 16)) acc in
    if z / 16 =? 0 then acc else hex_digits n (z / 16) acc
  end.

Definition toHexString (z : Z) : string := hex_digits 8 (wrap_u32 z) "".

(** [args?.getOrNull(0)] *)
Definition getOrNull (args : option (list (option object))) : option object :=
  l ← args; a ← l !! 0%nat; a.

Definition object_method {Resp} (proxy : proxy_object) (name : string)
    (args : option (list (option object))) : result throwable (value Resp) :=
  if String.eqb name "toString" then
    Ok (VString (className proxy +:+ "@" +:+ toHexString (identityHashCode proxy)))
  else if String.eqb name "hashCode" then Ok (VInt (identityHashCode proxy))
  else if String.eqb name "equals" then Ok (VBoolean (bool_decide (getOrNull args = Some TheProxy)))
  else Err (UnsupportedOperationException ("Unsupported Object method: " +:+ name)).

Section invoke.
Context {S Resp : Type}.
(** [registryClient.getInstances], [Random.nextInt], [UUID.randomUUID], [rpcClient.call]
    and [parseFrom] of the response class, on the state [S] of the program. *)
Context (getInstances : string → S → list Reg.ServiceInfo) (nextInt : Z → S → S * Z)
  (randomUUID : S → S * string)
  (call : RpcRequest → string → Z → S → S * result throwable RpcResponse)
  (parseFrom : bytes → result throwable Resp).
Context (interrupted : S → bool) (faultTolerance : FaultTolerance).

(** The block passed to [execute]. *)
Definition attempt (serviceName methodName : string) (payload : bytes) (s : S)
    : S * result throwable Resp :=
  let instances := getInstances serviceName s in
  if bool_decide (instances = []) then
    (s, Err (RpcException (-1) ("No available instances for service: " +:+ serviceName) None))
  else
    let '(s, i) := nextInt (Z.of_nat (length instances)) s in
    match select instances i with
    | Err e => (s, Err e)
    | Ok instance =>
      let '(s, requestId) := randomUUID s in
      let request := {| req_RequestId := requestId; req_Service := serviceName;
                        req_Method := methodName; req_Payload := payload |} in
      match call request (Reg.si_Ip instance) (Reg.si_Port instance) s with
      | (s, Err e) => (s, Err e)
      | (s, Ok response) =>
        match resp_Error response with
        | Some error => (s, Err (ServerException (Code error) (ErrMessage error)))
        | None =>
          (s, match parseFrom (resp_Payload response) with
              | Ok v => Ok v
              | Err e => Err (InvocationTargetException e)
              end)
        end
      end
    end.

(** A call of a method on the proxy: whether the method is one of [Object]; its arguments,
    [None] for [null]. *)
Definition invoke (proxy : proxy_object) (serviceName : string) (method : Method)
    (args : option (list (option object))) (s : S) : S * result throwable (value Resp) * list Z :=
  if ofObject method then (s, object_method proxy (m_name method) args, [])
  else if negb (annotated method) then
    (s, Err (RpcException (-1) ("Method " +:+ m_name method +:+ " is not annotated with @RpcMethod") None), [])
  else
    match getOrNull args with
    | None => (s, Err (RpcException (-1) ("Missing request parameter for " +:+ m_name method) None), [])
    | Some (MessageLite payload) =>
      let '(s, r, slept) := execute interrupted (attempt serviceName (m_name method) payload) faultTolerance s in
      (s, VResponse <$> r, slept)
    | Some _ => (s, Err (RpcException (-1) "Request parameter must be a protobuf message" None), [])
    end.

(** What a call gives is what some call of the client ended with. *)
Definition client_calls : Prop :=
  ∀ req h p s s' r, call req h p s = (s', r) →
    ∃ k i c, reachable k ∧ calls k !! i = Some c ∧ request c = req ∧ host c = h ∧ port c = p ∧
             pc c = CEnd r.

Lemma attempt_not_retryable serviceName methodName payload s :
  client_calls → retryable (attempt serviceName methodName payload s).2 = false.
Proof.
  intros Hcalls. unfold attempt. case_bool_decide; [done|].
  destruct (nextInt _ s) as [s1 i]. unfold select.
  destruct (getInstances serviceName s) as [|x l]; [done|].
  destruct ((x :: l) !! Z.to_nat i) as [instance|]; [|done].
  destruct (randomUUID s1) as [s2 requestId].
  destruct (call _ _ _ s2) as [s3 [resp|e]] eqn:Ec.
  - destruct (resp_Error resp); [done|]. simpl. by destruct (parseFrom _).
  - destruct (Hcalls _ _ _ _ _ _ Ec) as (k & j & c & Hr & Hj & _ & _ & _ & Hpc). simpl.
    apply call_throws_not_retryable. pose proof (client_reachable_inv k Hr) as (Hok & _).
    rewrite Forall_lookup in Hok. destruct (Hok j c Hj) as [Hp _]. unfold pc_ok in Hp. by rewrite Hpc in Hp.
Qed.

(** C23: no failure of a call is ever retried.  Whatever the network does, a method of
    a proxy sleeps not at all and either is a method of [Object], answered without the
    network, or is refused for want of an annotation or a message, or makes exactly one
    attempt, whose result it returns or throws: a connection that cannot
    be made is a [RuntimeException], and a timeout or a closed connection is the
    cause of an [ExecutionException] inside the [RpcException], none of which
    [isRetryable] accepts. *)
Theorem failures_not_retried (proxy : proxy_object) (serviceName : string) (method : Method)
    (args : option (list (option object))) (s : S) :
  client_calls → 0 ≤ maxRetries faultTolerance →
  let '(s', r, slept) := invoke proxy serviceName method args s in
  slept = [] ∧
  (s' = s ∧ r = object_method proxy (m_name method) args ∧ ofObject method = true ∨
   s' = s ∧ (∃ msg, r = Err (RpcException (-1) msg None)) ∧ ofObject method = false ∨
   ∃ payload, getOrNull args = Some (MessageLite payload) ∧ ofObject method = false ∧
     annotated method = true ∧
     s' = (attempt serviceName (m_name method) payload s).1 ∧
     r = VResponse <$> (attempt serviceName (m_name method) payload s).2).
Proof.
  intros Hcalls Hmax. unfold invoke.
  assert (H : ∀ name payload, execute interrupted (attempt serviceName name payload) faultTolerance s
    = (attempt serviceName name payload s, [])).
  { intros name payload. rewrite execute_once; [by destruct attempt|done|by apply attempt_not_retryable]. }
  destruct (ofObject method); [by auto|]. destruct (annotated method); simpl; [|by eauto 8].
  destruct (getOrNull args) as [[|payload|]|]; [by eauto 8| |by eauto 8..].
  rewrite H. destruct (attempt _ _ payload s) as [s' r] eqn:E. split; [done|]. right. right.
  exists payload. by rewrite E.
Qed.

End invoke.

(** ** A call that is answered, and one that is not *)

Lemma waiting_call req h p :
  ∃ k c x, reachable k ∧ calls k = [c] ∧ request c = req ∧ host c = h ∧ port c = p ∧
           pc c = CWait 0 ∧ future c = None ∧ contexts k = [x] ∧ status x = Active ∧
           pending x !! req_RequestId req = Some 0%nat ∧ written x = [req] ∧ read x = [].
Proof.
  set (c0 := {| request := req; host := h; port := p; pc := CStart; future := None |}).
  eexists _, _, _. split.
  - unfold reachable, init. eapply rtc_l; [apply (step_call _ req h p)|]. fold c0. simpl.
    eapply rtc_l; [apply (step_connect _ 0 c0); done|]. unfold connect. simpl.
    eapply rtc_l; [by apply (step_put _ 0 (set_pc (CHave 0) c0) 0)|].
    unfold on_call, on_context. simpl.
    eapply rtc_l; [by apply (step_write _ 0 (set_pc (CPut 0) c0) 0)|].
    unfold on_call, on_context. simpl. apply rtc_refl.
  - split_and!; done || apply lookup_insert_eq.
Qed.

Lemma timed_out_call req h p :
  ∃ k c, reachable k ∧ calls k !! 0%nat = Some c ∧ request c = req ∧ host c = h ∧ port c = p ∧
         pc c = CEnd (Err (call_failed (ExecutionException TimeoutException))).
Proof.
  destruct (waiting_call req h p) as (k & c & x & Hr & Hc & <- & <- & <- & Hpc & Hf & _).
  assert (H0 : calls k !! 0%nat = Some c) by (by rewrite Hc).
  eexists _, _. split.
  - eapply rtc_r; [eapply rtc_r; [exact Hr|]|].
    + apply (step_timeout k 0 c 0); auto.
    + eapply (step_get _ 0 (complete (Err TimeoutException) c) 0); simpl; [by rewrite Hc|done|by rewrite Hf].
  - split; [simpl; by rewrite Hc|done].
Qed.

Lemma answered_call req (h : string) (p : Z) resp :
  resp_RequestId resp = req_RequestId req →
  ∃ k c x, reachable k ∧ calls k = [c] ∧ request c = req ∧ pc c = CEnd (Ok resp) ∧
           contexts k = [x] ∧ written x = [req] ∧ read x = [resp].
Proof.
  intros Hid. destruct (waiting_call req h p)
    as (k & c & x & Hr & Hc & <- & <- & <- & Hpc & Hf & Hx & Hst & Hp & Hw & Hread).
  eexists _, _, _. split.
  - eapply rtc_r; [eapply rtc_r; [exact Hr|]|].
    + apply (step_read k 0 x resp 0); [by rewrite Hx|done|by rewrite Hid].
    + eapply (step_get _ 0 (complete (Ok resp) c) 0); simpl; [by rewrite Hc|done|by rewrite Hf].
  - simpl. rewrite Hc, Hx. simpl. split_and!; try done. simpl. by rewrite Hread.
Qed.

Definition demo_request : RpcRequest :=
  {| req_RequestId := "a"; req_Service := "Echo"; req_Method := "echo"; req_Payload := [] |}.

Lemma calls_answered_witness :
  ∃ k c, reachable k ∧ calls k !! 0%nat = Some c ∧ pc c = CWait 0 ∧ (left c ≤ 6)%nat ∧
         ∃ k' c', unaided 0 k k' ∧ calls k' !! 0%nat = Some c' ∧ (left c' < left c)%nat.
Proof.
  destruct (waiting_call demo_request "h" 1) as (k & c & x & Hr & Hc & _ & _ & _ & Hpc & _).
  assert (H0 : calls k !! 0%nat = Some c) by (by rewrite Hc).
  destruct (calls_answered k 0 c Hr H0) as (_ & _ & Hl & _ & Hp).
  exists k, c. split_and!; [exact Hr|exact H0|exact Hpc|exact Hl|].
  destruct Hp as [[r E]|Hp]; [congruence|exact Hp].
Defined.

Definition demo_proxy : proxy_object := {| className := "com.sun.proxy.$Proxy0"; identityHashCode := 255 |}.

Example demo_toString : @object_method unit demo_proxy "toString" None = Ok (VString "com.sun.proxy.$Proxy0@ff").
Proof. vm_compute. reflexivity. Qed.

Lemma failures_not_retried_witness :
  let '(n, r, slept) :=
    invoke (λ _ _, [{| Reg.si_Ip := "h"; Reg.si_Port := 1 |}]) (λ _ n, (n, 0)) (λ n, (n, "id"))
      (λ _ _ _ n, (S n, Err (call_failed (ExecutionException TimeoutException))))
      (λ b, Ok b) (λ _, false) default_tolerance demo_proxy "Echo"
      {| m_name := "echo"; ofObject := false; annotated := true |} (Some [Some (MessageLite [])]) 0%nat in
  n = 1%nat ∧ slept = [].
Proof.
  pose proof (failures_not_retried (λ _ _, [{| Reg.si_Ip := "h"; Reg.si_Port := 1 |}]) (λ _ n, (n, 0))
    (λ n, (n, "id")) (λ _ _ _ n, (S n, Err (call_failed (ExecutionException TimeoutException))))
    (λ b, Ok b) (λ _, false) default_tolerance demo_proxy "Echo"
    {| m_name := "echo"; ofObject := false; annotated := true |} (Some [Some (MessageLite [])]) 0%nat) as H.
  split; [reflexivity|]. apply H; [|simpl; lia]. intros req h p s s' r [= <- <-].
  destruct (timed_out_call req h p) as (k & c & Hc). exists k, 0%nat, c. exact Hc.
Defined.

End RpcClient.
