(* ===== verification/Discovery.v ===== *)
(** * Service discovery of the client library: [src/client/.../registry/RegistryClient.kt]

    The client subscribes to the registry, keeps the instances of the services it
    was told about in [serviceCache], and tells listeners about every change.  A
    closed connection empties the cache and starts a thread that reconnects. *)

From S2P Require Import Prelude Pb Fault Registry.

Module Discovery.
Import Reg Fault.

(** ** The cache *)

(** The listeners see the same sequence of updates, [updates], from the time they
    are added on. *)
Record RegistryClient : Type := {
  serviceCache : gmap string (list ServiceInfo);
  updates : list (string * list ServiceInfo);
  connected : bool;
}.

Definition new : RegistryClient := {| serviceCache := ∅; updates := []; connected := false |}.

(** One entry of a service list. *)
Definition put (c : RegistryClient) (entry : string * list ServiceInfo) : RegistryClient :=
  {| serviceCache := <[entry.1 := entry.2]> (serviceCache c); updates := updates c ++ [entry];
     connected := connected c |}.

(** [channelRead]; [servicesMap.forEach] goes through the map in some order. *)
Definition channelRead (msg : RegistryMessage) (c : RegistryClient) : RegistryClient :=
  match payload msg with
  | Some (PServiceList serviceList) =>
    let c := foldl put c (map_to_list serviceList) in
    {| serviceCache := serviceCache c; updates := updates c; connected := true |}
  | _ => c
  end.

Definition channelInactive (c : RegistryClient) : RegistryClient :=
  {| serviceCache := ∅;
     updates := updates c ++ ((λ x, (x.1, [])) <$> map_to_list (serviceCache c));
     connected := connected c |}.

Definition getInstances (serviceName : string) (c : RegistryClient) : list ServiceInfo :=
  default [] (serviceCache c !! serviceName).

(** What the handler of a channel gets. *)
Inductive event : Type :=
| Read (msg : RegistryMessage)
| Closed.

Definition handle (c : RegistryClient) (e : event) : RegistryClient :=
  match e with Read msg => channelRead msg c | Closed => channelInactive c end.

Definition list_msg (l : ServiceList) : RegistryMessage := {| payload := Some (PServiceList l) |}.

Lemma foldl_put l : ∀ c,
  serviceCache (foldl put c l) = foldl (λ m x, <[x.1 := x.2]> m) (serviceCache c) l ∧
  updates (foldl put c l) = updates c ++ l ∧ connected (foldl put c l) = connected c.
Proof.
  induction l as [|x l IH]; intros c; simpl; [by rewrite app_nil_r|].
  destruct (IH (put c x)) as (-> & -> & ->). simpl. by rewrite <- app_assoc.
Qed.

Lemma foldl_insert_union (l : ServiceList) (m : gmap string (list ServiceInfo)) :
  foldl (λ m x, <[x.1 := x.2]> m) m (map_to_list l) = l ∪ m.
Proof.
  revert m. induction l as [|k v l Hk Hfirst IH] using map_first_key_ind; intros m.
  - rewrite map_to_list_empty. simpl. by rewrite (left_id_L ∅ (∪)).
  - rewrite map_to_list_insert_first_key by done. simpl. rewrite IH.
    rewrite <- insert_union_r by done. by rewrite insert_union_l.
Qed.

(** A service list replaces the entries of the services in it. *)
Lemma channelRead_cache l c : serviceCache (channelRead (list_msg l) c) = l ∪ serviceCache c.
Proof. simpl. rewrite (proj1 (foldl_put _ c)). apply foldl_insert_union. Qed.

Lemma getInstances_read l c name :
  getInstances name (channelRead (list_msg l) c) =
  match l !! name with Some infos => infos | None => getInstances name c end.
Proof.
  unfold getInstances. rewrite channelRead_cache, lookup_union. by destruct (l !! name), (serviceCache c !! name).
Qed.

(** ** Listeners *)

Definition about {A} (name : string) (x : string * A) : option A :=
  if decide (x.1 = name) then Some x.2 else None.

(** What a listener that sees [us] believes of a service. *)
Definition believed (name : string) (us : list (string * list ServiceInfo)) : list ServiceInfo :=
  default [] (last (omap (about name) us)).

Lemma believed_app name us vs :
  believed name (us ++ vs) =
  match last (omap (about name) vs) with Some infos => infos | None => believed name us end.
Proof.
  unfold believed. rewrite omap_app, last_app. by destruct (last (omap (about name) vs)).
Qed.

Lemma last_about {A} (l : gmap string A) name : last (omap (about name) (map_to_list l)) = l !! name.
Proof.
  induction l as [|k v l Hk Hfirst IH] using map_first_key_ind.
  - by rewrite map_to_list_empty, lookup_empty.
  - rewrite map_to_list_insert_first_key by done. rewrite omap_cons. unfold about at 1. simpl.
    destruct (decide (k = name)) as [->|Hne].
    + rewrite last_cons, IH, Hk. by rewrite lookup_insert_eq.
    + by rewrite IH, lookup_insert_ne.
Qed.

Lemma last_about_cleared (m : gmap string (list ServiceInfo)) name :
  last (omap (about name) ((λ x, (x.1, @nil ServiceInfo)) <$> map_to_list m)) =
  (λ _, []) <$> m !! name.
Proof.
  change ((λ x : string * list ServiceInfo, (x.1, @nil ServiceInfo)) <$> map_to_list m)
    with (prod_map id (λ _, @nil ServiceInfo) <$> map_to_list m).
  rewrite <- map_to_list_fmap, last_about. by rewrite lookup_fmap.
Qed.

Lemma handle_believed c e name :
  believed name (updates c) = getInstances name c →
  believed name (updates (handle c e)) = getInstances name (handle c e).
Proof.
  intros H. destruct e as [msg|].
  - destruct msg as [[[| | | |l]|]]; try exact H. change (handle c _) with (channelRead (list_msg l) c).
    rewrite getInstances_read. simpl. rewrite (proj1 (proj2 (foldl_put _ c))), believed_app, last_about.
    by destruct (l !! name).
  - simpl. rewrite believed_app, last_about_cleared. unfold getInstances in *. simpl.
    rewrite lookup_empty. destruct (serviceCache c !! name); done.
Qed.

(** [onServiceUpdate]: what a listener that is added now is told at once; from then on it
    is told the updates that follow. *)
Definition onServiceUpdate (c : RegistryClient) : list (string * list ServiceInfo) :=
  map_to_list (serviceCache c).

(** Between messages it does not matter when a listener is added: it believes what the
    cache holds, as do those that were there from the start. *)
Lemma late_listener es c name :
  ∃ us, updates (foldl handle c es) = updates c ++ us ∧
  believed name (onServiceUpdate c ++ us) = getInstances name (foldl handle c es).
Proof.
  assert (Hlate : believed name (onServiceUpdate c) = getInstances name c).
  { unfold believed, onServiceUpdate. by rewrite last_about. }
  revert Hlate. generalize (onServiceUpdate c). revert c.
  induction es as [|e es IH]; intros c told Htold.
  { exists []. by rewrite !app_nil_r. }
  simpl. set (c' := {| serviceCache := serviceCache c; updates := told; connected := connected c |}).
  assert (Hh : ∃ us, updates (handle c e) = updates c ++ us ∧ updates (handle c' e) = told ++ us ∧
    serviceCache (handle c' e) = serviceCache (handle c e)).
  { destruct e as [[[[| | | |l]|]]|]; simpl; try (exists []; by rewrite !app_nil_r); [|by eexists].
    rewrite !(proj1 (proj2 (foldl_put _ _))), !(proj1 (foldl_put _ _)). by eexists. }
  destruct Hh as (us & E1 & E2 & E3).
  destruct (IH (handle c e) (told ++ us)) as (us' & E & Hb).
  - rewrite <- E2. unfold getInstances. rewrite <- E3. by apply (handle_believed c').
  - exists (us ++ us'). rewrite E, E1, <- Hb. by rewrite <- !app_assoc.
Qed.

(** ** Connecting *)

Definition maxDelay : Z := 30000.

Definition connect_error (e : throwable) : throwable :=
  RuntimeException ("Failed to connect to registry after retries: " +:+ shown e) (Some e).

(** One round of the loop: the outcome of [doConnect], and the values of [shutdown]
    that the [catch] and the next test of the loop see. *)
Record round : Type := { outcome : result throwable unit; at_catch : bool; at_test : bool }.

(** The loop of [connect]: how it ends ([None]: it goes on after these rounds), and the
    delays. *)
Fixpoint connect_loop (shutdown : bool) (delay : Z) (rounds : list round)
    : option (result throwable unit) * list Z :=
  if shutdown then (Some (Ok tt), [])
  else
    match rounds with
    | [] => (None, [])
    | r :: rounds =>
      match outcome r with
      | Ok _ => (Some (Ok tt), [])
      | Err e =>
        if (delay >=? maxDelay) || at_catch r then (Some (Err (connect_error e)), [])
        else
          let '(res, ds) := connect_loop (at_test r) (Z.min (wrap_i64 (delay * 2)) maxDelay) rounds in
          (res, delay :: ds)
      end
    end.

Definition connect (rounds : list round) : option (result throwable unit) * list Z :=
  connect_loop false 1000 rounds.

(** The delays [ds] follow from the delay [d] and lead to the limit. *)
Fixpoint doubling (d : Z) (ds : list Z) : Prop :=
  match ds with
  | [] => maxDelay ≤ d
  | x :: ds => x = d ∧ d < maxDelay ∧ doubling (Z.min (wrap_i64 (d * 2)) maxDelay) ds
  end.

Definition undisturbed (r : round) : Prop := at_catch r = false ∧ at_test r = false.

Lemma connect_loop_spec ds : ∀ d sh rounds,
  doubling d ds → (length ds < length rounds)%nat →
  (∃ r, (connect_loop sh d rounds).1 = Some r) ∧
  (connect_loop sh d rounds).2 `prefix_of` ds ∧
  (sh = false → Forall undisturbed rounds →
   (Forall (λ r, is_ok (outcome r) = false) (take (S (length ds)) rounds) ↔
    ∃ e, (connect_loop sh d rounds).1 = Some (Err (connect_error e)))).
Proof.
  induction ds as [|x ds IH]; intros d sh [|r rounds] Hd Hlen; try (simpl in Hlen; lia);
    cbn [connect_loop]; (destruct sh; [split_and!; [by eexists|apply prefix_nil|done]|]).
  - simpl in Hd. destruct (outcome r) as [[]|e] eqn:E.
    + split_and!; [by eexists|done|]. intros _ _. simpl. rewrite Forall_cons, E. naive_solver.
    + replace (d >=? maxDelay) with true by (symmetry; lia). simpl.
      split_and!; [by eexists|done|]. intros _ _. rewrite Forall_cons, E. naive_solver.
  - destruct Hd as (-> & Hlt & Hd). simpl in Hlen.
    destruct (outcome r) as [[]|e] eqn:E.
    + split_and!; [by eexists|apply prefix_nil|]. intros _ _. simpl. rewrite Forall_cons, E. naive_solver.
    + replace (d >=? maxDelay) with false by (symmetry; lia). cbn [orb].
      destruct (at_catch r) eqn:Ec.
      { split_and!; [by eexists|apply prefix_nil|]. intros _ [[? _] _]%Forall_cons. congruence. }
      destruct (IH _ (at_test r) rounds Hd ltac:(lia)) as (H1 & H2 & H3).
      destruct connect_loop as [res ds']. simpl in *. split_and!; [done|by apply prefix_cons|].
      intros _ [[_ Ht] Hr]%Forall_cons. rewrite <- (H3 Ht Hr), Forall_cons, E. naive_solver.
Qed.

(** ** Threads that reconnect *)

(** After a [connect] that was answered at once or after refusals: the threads of [scheduleReconnect] before the test of
    their loop or in [Thread.sleep], those in [doConnect], the channels that are open,
    and the flag [shutdown]. *)
Record network : Type := { waiting : nat; connecting : nat; open : nat; shut : bool }.

(** The threads that have not ended. *)
Definition connectors (n : network) : nat := waiting n + connecting n.

(** A thread of [scheduleReconnect] tests [!shutdown && !reconnected] and calls
    [doConnect], or ends; [doConnect] is refused; is answered with a service list, which
    ends the thread; cannot write the subscription, which leaves the channel open;
    gets no list within five seconds and closes the channel, so that
    [channelInactive] starts one more thread; the channel it closes is the one in the
    field, which another thread may have set, but the numbers are the same.  When the peer
    closes the channel while the thread waits for the list, [channelInactive] starts the
    other thread earlier and the first one goes on when its five seconds are over: this
    too is [Silent], up to the time in between, which is not modelled.  An open channel is
    closed, by the peer, an error or [shutdown], and starts a thread.  [shutdown] sets the flag; it closes the
    channel of the field and lets the event loops close the others, each of which is a
    [Dropped] of its own. *)
Inductive attempt : Type := Begin | End | Refused | Answered | Unsent | Silent | Dropped | Shutdown.

(** Where a thread goes on after an exception of [doConnect]: [if (shutdown) break]. *)
Definition retry (n : network) : nat := if shut n then 0 else 1.

Definition net_step (n : network) (a : attempt) : option network :=
  match a with
  | Begin =>
    match waiting n with
    | O => None
    | S w =>
      if shut n then None
      else Some {| waiting := w; connecting := S (connecting n); open := open n; shut := shut n |}
    end
  | End =>
    match waiting n with
    | O => None
    | S w =>
      if shut n then Some {| waiting := w; connecting := connecting n; open := open n; shut := shut n |}
      else None
    end
  | Dropped =>
    match open n with
    | O => None
    | S o => Some {| waiting := S (waiting n); connecting := connecting n; open := o; shut := shut n |}
    end
  | Shutdown => Some {| waiting := waiting n; connecting := connecting n; open := open n; shut := true |}
  | _ =>
    match connecting n with
    | O => None
    | S c =>
      match a with
      | Answered => Some {| waiting := waiting n; connecting := c; open := S (open n); shut := shut n |}
      | Unsent => Some {| waiting := waiting n + retry n; connecting := c; open := S (open n); shut := shut n |}
      | Silent => Some {| waiting := S (waiting n + retry n); connecting := c; open := open n; shut := shut n |}
      | _ => Some {| waiting := waiting n + retry n; connecting := c; open := open n; shut := shut n |}
      end
    end
  end.

Definition net_run (n : network) (l : list attempt) : option network :=
  foldl (λ o a, o ≫= λ n, net_step n a) (Some n) l.

Definition started : network := {| waiting := 0; connecting := 0; open := 1; shut := false |}.

Definition is_stray (a : attempt) : bool := match a with Silent | Unsent => true | _ => false end.

Ltac net_cases := repeat match goal with
  | H : context [match ?x with O => _ | S _ => _ end] |- _ => destruct x eqn:?; try done
  | H : context [if ?b then _ else _] |- _ => destruct b eqn:?; try done
  end; simplify_eq/=.

Lemma net_step_total n a n' :
  net_step n a = Some n' → shut n' = false →
  shut n = false ∧
  (connectors n' + open n' = connectors n + open n + if is_stray a then 1 else 0)%nat.
Proof.
  destruct n as [w c o sh]. unfold connectors. destruct a; simpl; unfold retry; simpl;
    intros H Hs; net_cases; split; try done; lia.
Qed.

Lemma net_run_none l : foldl (λ o a, o ≫= λ n, net_step n a) None l = None.
Proof. by induction l. Qed.

Lemma net_run_total l : ∀ n n',
  net_run n l = Some n' → shut n' = false →
  shut n = false ∧
  (connectors n' + open n' = connectors n + open n + length (List.filter is_stray l))%nat.
Proof.
  unfold net_run. induction l as [|a l IH]; intros n n'; simpl; [intros [= ->]; split; [done|lia]|].
  destruct (net_step n a) as [n1|] eqn:E; [|by rewrite net_run_none].
  intros H Hs. destruct (IH _ _ H Hs) as [Hs1 ->].
  destruct (net_step_total _ _ _ E Hs1) as [Hs0 ->]. split; [done|]. destruct a; simpl; lia.
Qed.

(** The steps that are left after [shutdown]. *)
Definition remaining (n : network) : nat := 3 * connecting n + 2 * open n + waiting n.

Lemma net_step_shut n a n' :
  shut n = true → a ≠ Shutdown → net_step n a = Some n' →
  shut n' = true ∧ a ≠ Begin ∧ (remaining n' < remaining n)%nat ∧
  (connecting n' + (if is_stray a then 1 else 0) ≤ connecting n)%nat.
Proof.
  destruct n as [w c o sh]. simpl. intros -> Ha H. unfold remaining.
  destruct a; simpl in *; unfold retry in *; simpl in *; net_cases; split_and!; done || lia.
Qed.

Lemma net_run_shut l : ∀ n n',
  shut n = true → Shutdown ∉ l → net_run n l = Some n' →
  Begin ∉ l ∧ (length l + remaining n' ≤ remaining n)%nat ∧
  (length (List.filter is_stray l) ≤ connecting n)%nat.
Proof.
  unfold net_run. induction l as [|a l IH]; intros n n' Hs Hno; simpl.
  { intros [= ->]. split; [set_solver|lia]. }
  destruct (net_step n a) as [n1|] eqn:E; [|by rewrite net_run_none]. intros H.
  destruct (net_step_shut n a n1 Hs) as (Hs1 & Hb & Hlt & Hc); [set_solver|done|].
  destruct (IH n1 n' Hs1 ltac:(set_solver) H) as (Hl & Hle & Hst).
  split_and!; [set_solver|lia|]. destruct (is_stray a); simpl; lia.
Qed.

(** A thread that has not ended has a step, and an open channel can be closed. *)
Lemma net_progress n :
  (∀ a, a ≠ Shutdown → net_step n a = None) → connectors n = 0%nat ∧ open n = 0%nat.
Proof.
  intros H. unfold connectors. destruct n as [[|w] [|c] [|o] sh]; try done;
    (exfalso; destruct sh; first
      [by specialize (H End ltac:(done)) | by specialize (H Begin ltac:(done))
      |by specialize (H Refused ltac:(done)) | by specialize (H Dropped ltac:(done))]).
Qed.

(** Any number of threads. *)
Lemma multiply k :
  ∃ n', net_run started (Dropped :: concat (replicate k [Begin; Silent]) ++
          concat (replicate (S k) [Begin; Answered])) = Some n' ∧
        connectors n' = 0%nat ∧ open n' = S k.
Proof.
  assert (H1 : ∀ k w o, net_run {| waiting := S w; connecting := 0; open := o; shut := false |}
    (concat (replicate k [Begin; Silent])) = Some {| waiting := S (k + w); connecting := 0; open := o; shut := false |}).
  { unfold net_run. clear k. induction k as [|k IH]; intros w o; [done|]. simpl. unfold retry. simpl.
    rewrite IH. repeat f_equal. lia. }
  assert (H2 : ∀ k o, net_run {| waiting := k; connecting := 0; open := o; shut := false |}
    (concat (replicate k [Begin; Answered])) = Some {| waiting := 0; connecting := 0; open := k + o; shut := false |}).
  { unfold net_run. clear k. induction k as [|k IH]; intros o; [done|]. simpl. rewrite IH. repeat f_equal. lia. }
  exists {| waiting := 0; connecting := 0; open := S k; shut := false |}. split; [|done].
  unfold net_run, started in *. cbn [foldl mbind option_bind net_step open waiting connecting shut].
  rewrite foldl_app, (H1 k 0 0)%nat, Nat.add_0_r, (H2 (S k) 0)%nat. by rewrite Nat.add_0_r.
Qed.

(** ** Properties *)

(** [connect] gives up after six failed attempts.  Whatever the outcomes of
    [doConnect], six rounds are enough for it to return or throw, and the delays it
    sleeps are the first of 1, 2, 4, 8 and 16 seconds; when nothing shuts the client
    down, it throws exactly if the first six attempts fail. *)
Theorem connect_rounds (rounds : list round) :
  (6 ≤ length rounds)%nat →
  (∃ r, (connect rounds).1 = Some r) ∧
  (connect rounds).2 `prefix_of` [1000; 2000; 4000; 8000; 16000] ∧
  (Forall undisturbed rounds →
   (Forall (λ r, is_ok (outcome r) = false) (take 6 rounds) ↔
    ∃ e, (connect rounds).1 = Some (Err (connect_error e)))).
Proof.
  intros Hlen.
  destruct (connect_loop_spec [1000; 2000; 4000; 8000; 16000] 1000 false rounds) as (H1 & H2 & H3);
    [|simpl; lia|split_and!; [exact H1|exact H2|exact (H3 eq_refl)]].
  repeat (split; [reflexivity|]). vm_compute. discriminate.
Qed.

(** C26: threads that reconnect multiply, until [shutdown].  The connecting threads and the open channels
    together grow by exactly one with every attempt that is accepted but not
    answered (in time, or at all), and by nothing else: without such an attempt there is one thread
    or one channel, never two; but a registry that accepts connections without
    answering drives the client to any number of threads, all of which connect once
    it answers again.  After [shutdown] no thread calls [doConnect] again, only the calls
    that were under way can open a channel; at most [remaining] steps follow in any
    order, and when none is left every thread has ended and every channel is closed. *)
Theorem reconnect_threads (l : list attempt) (n : network) :
  net_run started l = Some n →
  (shut n = false → (connectors n + open n = 1 + length (List.filter is_stray l))%nat) ∧
  (∃ n', net_run started (Dropped :: concat (replicate (length l) [Begin; Silent]) ++
           concat (replicate (S (length l)) [Begin; Answered])) = Some n' ∧
         connectors n' = 0%nat ∧ open n' = S (length l)) ∧
  (∀ l' n', Shutdown ∉ l' → net_run n (Shutdown :: l') = Some n' →
     Begin ∉ l' ∧ (length (List.filter is_stray l') ≤ connecting n)%nat ∧
     (length l' ≤ remaining n)%nat ∧
     ((∀ a, a ≠ Shutdown → net_step n' a = None) → connectors n' = 0%nat ∧ open n' = 0%nat)).
Proof.
  intros H. split_and!.
  - intros Hs. by destruct (net_run_total _ _ _ H Hs) as [_ ->].
  - apply multiply.
  - intros l' n' Hno Hr. change (net_run {| waiting := waiting n; connecting := connecting n;
      open := open n; shut := true |} l' = Some n') in Hr.
    apply net_run_shut in Hr as (Hb & Hle & Hst); [|done|done]. simpl in Hst.
    unfold remaining in *. simpl in Hle.
    split_and!; [done|done|lia|apply net_progress].
Qed.

(** The cache and the listeners agree.  After any messages and closed connections,
    the instances the client has of a service are those in the last list since the
    last closed connection that names the service, and what a listener was last told
    about the service is the same. *)
Theorem cache_contents (es : list event) (name : string) :
  let c := foldl handle new es in
  believed name (updates c) = getInstances name c ∧
  ∀ l,
    getInstances name (handle c (Read (list_msg l))) =
      match l !! name with Some infos => infos | None => getInstances name c end ∧
    getInstances name (handle c Closed) = [].
Proof.
  intros c. split; [|intros l; split; [apply getInstances_read|done]].
  unfold c. clear c. induction es as [|e es IH] using rev_ind; [done|].
  rewrite foldl_snoc. by apply handle_believed.
Qed.

(** C25: a client keeps the instances of a service whose last instance has gone.  When
    the registry's store holds the entries [m] and its service list reaches a client,
    the client has exactly the registered instances of every service that has any;
    but the list does not name a service without instances, and of such a service the
    client keeps what it had. *)
Theorem cache_after_broadcast (s : Registry.ServiceStore) (m : Registry.registry_map)
    (c : RegistryClient) (name : string) :
  Registry.represents s m →
  let c' := channelRead (list_msg (Registry.build_service_list s)) c in
  ((∃ k t, m !! k = Some (name, t)) →
     NoDup (getInstances name c') ∧
     ∀ i p, {| si_Ip := i; si_Port := p |} ∈ getInstances name c' ↔ ∃ t, m !! (i, p) = Some (name, t)) ∧
  ((∀ k t, m !! k ≠ Some (name, t)) → getInstances name c' = getInstances name c).
Proof.
  intros Hrep c'. unfold c'. rewrite getInstances_read.
  pose proof (Registry.build_list_exact s m name Hrep) as H.
  destruct (Registry.build_service_list s !! name) as [infos|].
  - destruct H as (Hne & Hnd & Hin). split; [done|]. intros Hno. exfalso.
    destruct infos as [|[i p] infos]; [done|].
    destruct (proj1 (Hin i p)) as [t Ht]; [by left|]. by apply (Hno _ _ Ht).
  - split; [|done]. intros (k & t & Hk). by destruct (H k t).
Qed.

(** ** Examples *)

Definition refused : round :=
  {| outcome := Err (RuntimeException "Failed to connect to registry" None);
     at_catch := false; at_test := false |}.

Lemma connect_rounds_witness :
  (∃ e, (connect (replicate 6 refused)).1 = Some (Err (connect_error e))).
Proof.
  destruct (connect_rounds (replicate 6 refused)) as (_ & _ & H); [simpl; lia|].
  apply H; repeat constructor.
Defined.

Lemma reconnect_threads_witness :
  ∃ n, net_run started [Dropped; Begin; Silent; Begin] = Some n ∧ (connectors n + open n = 2)%nat ∧
    ∀ l', Shutdown ∉ l' → is_Some (net_run n (Shutdown :: l')) → (length l' ≤ 4)%nat.
Proof.
  eexists. split; [reflexivity|].
  destruct (reconnect_threads [Dropped; Begin; Silent; Begin] _ eq_refl) as (H1 & _ & H2).
  split; [apply H1; reflexivity|]. intros l' Hno [n' Hr].
  destruct (H2 l' n' Hno Hr) as (_ & _ & Hle & _). exact Hle.
Defined.

(** The only instance of a service registers and goes away. *)

Definition demo_key : Registry.key := ("10.0.0.1", 9001).
Definition demo_up : Registry.ServiceStore := (Registry.register demo_key "Gacha" 1 Registry.new).1.
Definition demo_down : Registry.ServiceStore := (Registry.deregister demo_key demo_up).1.

Lemma cache_after_broadcast_witness :
  let c := channelRead (list_msg (Registry.build_service_list demo_up)) new in
  let c' := channelRead (list_msg (Registry.build_service_list demo_down)) c in
  getInstances "Gacha" c' = [{| si_Ip := "10.0.0.1"; si_Port := 9001 |}].
Proof.
  intros c c'.
  assert (H : Registry.represents demo_down (delete demo_key (<[demo_key := ("Gacha", 1)]> ∅))).
  { apply Registry.deregister_represents, Registry.register_represents, Registry.new_represents. }
  transitivity (getInstances "Gacha" c); [|vm_compute; reflexivity].
  apply (cache_after_broadcast demo_down _ c "Gacha" H).
  intros k t. rewrite delete_insert_eq, delete_empty. by rewrite lookup_empty.
Defined.

End Discovery.
