(* ===== verification/RegistrySystem.v ===== *)
(** * The running registry: [src/registry/src/network/server.rs],
      [src/registry/src/registry/health.rs], [src/registry/src/registry/notifier.rs]

    The connections, the health check and the subscribers of the registry run as
    tasks of a multi-threaded runtime.  They share the store and a broadcast
    channel: whoever changes the store then builds the service list and sends it to
    the channel, from which every connection has received since it was accepted.
    The model is a function from actions to states, one action for each access of a
    task to what is shared, so that a list of actions is an interleaving.

    The broadcast channel is that of tokio: a receiver that is more than the
    capacity behind loses the oldest values and is told so at its next [recv]. *)

From S2P Require Import Prelude Pb Registry.

Module RegistrySystem.
Import Reg Registry.

(** ** State *)

(** Where a task is: after [store.register], before its response is sent; in
    [store.heartbeat], between the two locks; in the loop of [cleanup_connection]; before
    [build_service_list]; before [notifier_tx.send]; done. *)
Inductive task : Type :=
| TRegistered (changed : bool)
| TBeat (k : key) (service : string)
| TCleanup (registered_instances : list key) (changed : bool)
| TBuild
| TSend (service_list : ServiceList)
| TDone.

(** The receiving end of a connection: the values it has not received yet, whether it
    has lost some, and the list that was sent to the peer last, if it subscribed. *)
Record receiver : Type := { queue : list ServiceList; lagged : bool; view : option ServiceList }.

Record system : Type := {
  sys_store : ServiceStore;
  tasks : list task;
  receivers : list receiver;
}.

Definition init : system := {| sys_store := new; tasks := []; receivers := [] |}.

Inductive action : Type :=
| ARegister (k : key) (service : string) (now : Z)   (* [store.register] *)
| ARespond (i : nat)                                 (* the response was sent *)
| ARespondFailed (i : nat)                           (* it could not be sent *)
| AHeartbeat (k : key)                               (* the index is read *)
| ABeat (i : nat) (now : Z)                          (* ... and the instance updated *)
| AClose (registered_instances : list key)           (* a connection ends in order *)
| ACleanup (i : nat)                                 (* one round of [cleanup_connection] *)
| ACheck (timeout now : Z)                           (* a tick of the health check *)
| ABuild (i : nat)                                   (* [build_service_list] *)
| ASend (i : nat)                                    (* [notifier_tx.send] *)
| ANotify (i : nat)                                  (* the two, with nothing in between *)
| AAccept                                            (* a new connection *)
| ASubscribe (j : nat)                               (* [Subscribe] is answered *)
| AReceive (j : nat).                                (* [notifier_rx.recv], and the send *)

Section system.
(** [broadcast_channel_capacity] *)
Context (capacity : nat).

Definition push (l : ServiceList) (r : receiver) : receiver :=
  let q := queue r ++ [l] in
  if (capacity <? length q)%nat
  then {| queue := drop 1 q; lagged := true; view := view r |}
  else {| queue := q; lagged := lagged r; view := view r |}.

Definition with_store (st : ServiceStore) (s : system) : system :=
  {| sys_store := st; tasks := tasks s; receivers := receivers s |}.
Definition with_tasks (ts : list task) (s : system) : system :=
  {| sys_store := sys_store s; tasks := ts; receivers := receivers s |}.
Definition with_receiver (j : nat) (r : receiver) (s : system) : system :=
  {| sys_store := sys_store s; tasks := tasks s; receivers := <[j := r]> (receivers s) |}.
Definition set_task (i : nat) (t : task) (s : system) : system :=
  with_tasks (<[i := t]> (tasks s)) s.

Definition broadcast (l : ServiceList) (s : system) : system :=
  {| sys_store := sys_store s; tasks := tasks s; receivers := push l <$> receivers s |}.

(** Before the notification, if the task has something to tell. *)
Definition notify_if (changed : bool) : task := if changed then TBuild else TDone.

(** [handle_client_notifications]: one round of its loop. *)
Definition receive (st : ServiceStore) (r : receiver) : option receiver :=
  match view r with
  | None => None
  | Some _ =>
    if lagged r then
      Some {| queue := queue r; lagged := false; view := Some (build_service_list st) |}
    else
      match queue r with
      | [] => None
      | l :: q => Some {| queue := q; lagged := false; view := Some l |}
      end
  end.

Definition exec (a : action) (s : system) : option system :=
  match a with
  | ARegister k service now =>
    let '(st, changed) := register k service now (sys_store s) in
    Some (with_store st (with_tasks (tasks s ++ [TRegistered changed]) s))
  | ARespond i =>
    match tasks s !! i with
    | Some (TRegistered changed) => Some (set_task i (notify_if changed) s)
    | _ => None
    end
  | ARespondFailed i =>
    match tasks s !! i with Some (TRegistered _) => Some (set_task i TDone s) | _ => None end
  | AHeartbeat k =>
    let t := match index (sys_store s) !! k with Some service => TBeat k service | None => TDone end in
    Some (with_tasks (tasks s ++ [t]) s)
  | ABeat i now =>
    match tasks s !! i with
    | Some (TBeat k service) =>
      Some (with_store (heartbeat_service k service now (sys_store s)).1 (set_task i TDone s))
    | _ => None
    end
  | AClose ks => Some (with_tasks (tasks s ++ [TCleanup ks false]) s)
  | ACleanup i =>
    match tasks s !! i with
    | Some (TCleanup (k :: ks) changed) =>
      let '(st, found) := deregister k (sys_store s) in
      Some (with_store st (set_task i (TCleanup ks (changed || found)) s))
    | Some (TCleanup [] changed) => Some (set_task i (notify_if changed) s)
    | _ => None
    end
  | ACheck timeout now =>
    let '(st, removed) := remove_expired timeout now (sys_store s) in
    Some (with_store st
      (with_tasks (tasks s ++ [notify_if (negb (bool_decide (removed = [])))]) s))
  | ABuild i =>
    match tasks s !! i with
    | Some TBuild => Some (set_task i (TSend (build_service_list (sys_store s))) s)
    | _ => None
    end
  | ASend i =>
    match tasks s !! i with
    | Some (TSend l) => Some (broadcast l (set_task i TDone s))
    | _ => None
    end
  | ANotify i =>
    match tasks s !! i with
    | Some TBuild => Some (broadcast (build_service_list (sys_store s)) (set_task i TDone s))
    | _ => None
    end
  | AAccept =>
    Some {| sys_store := sys_store s; tasks := tasks s;
            receivers := receivers s ++ [{| queue := []; lagged := false; view := None |}] |}
  | ASubscribe j =>
    match receivers s !! j with
    | Some {| queue := q; lagged := lg; view := None |} =>
      Some (with_receiver j
        {| queue := q; lagged := lg; view := Some (build_service_list (sys_store s)) |} s)
    | _ => None
    end
  | AReceive j =>
    match receivers s !! j with
    | Some r => (λ r, with_receiver j r s) <$> receive (sys_store s) r
    | None => None
    end
  end.

Definition run (acts : list action) (s : system) : option system :=
  foldl (λ o a, o ≫= exec a) (Some s) acts.

(** ** When the service list changes *)

Definition info (i : ServiceInstance) : ServiceInfo := {| si_Ip := ip i; si_Port := port i |}.

Lemma touch_infos k now l : ∀ l', touch k now l = Some l' → info <$> l' = info <$> l.
Proof.
  induction l as [|i l IH]; intros l' H; simpl in H; [done|].
  destruct (with_key k i); [by simplify_eq|].
  destruct (touch k now l) as [l1|]; simplify_eq/=. f_equal. by apply IH.
Qed.

Lemma touch_list (inn : gmap string (list ServiceInstance)) idx idx' k service now l' :
  inn !! service ≫= touch k now = Some l' →
  build_service_list {| inner := <[service := l']> inn; index := idx |} =
  build_service_list {| inner := inn; index := idx' |}.
Proof.
  intros H. destruct (inn !! service) as [l|] eqn:E; [|done]. simpl in H.
  pose proof (touch_infos _ _ _ _ H) as Hi. unfold build_service_list. simpl.
  apply map_eq. intros sv. rewrite !lookup_omap. destruct (decide (sv = service)) as [->|Hne].
  - rewrite lookup_insert_eq, E. simpl. destruct l' as [|x' l'], l as [|x l]; try done.
    simpl. f_equal. exact Hi.
  - by rewrite lookup_insert_ne.
Qed.

Lemma register_list k service now st st' :
  register k service now st = (st', false) → build_service_list st' = build_service_list st.
Proof.
  unfold register. destruct st as [inn idx]. simpl. destruct (idx !! k) as [old|]; [|done].
  destruct (String.eqb old service); [|done].
  destruct (inn !! service ≫= touch k now) as [l|] eqn:E; [|done].
  intros [= <-]. by eapply touch_list.
Qed.

Lemma heartbeat_list k service now st :
  build_service_list (heartbeat_service k service now st).1 = build_service_list st.
Proof.
  unfold heartbeat_service. destruct st as [inn idx]. simpl.
  destruct (inn !! service ≫= touch k now) as [l|] eqn:E; [|done]. simpl. by eapply touch_list.
Qed.

Lemma touch_key k now l l' : touch k now l = Some l' → ∃ t, entry k t ∈ l.
Proof.
  revert l'. induction l as [|i l IH]; intros l' H; simpl in H; [done|].
  unfold with_key in H. case_bool_decide as Hk.
  - exists (last_heartbeat i). rewrite <- Hk, <- entry_eta. by left.
  - destruct (touch k now l) as [l1|]; [|done]. destruct (IH _ eq_refl) as [t Ht]. exists t. by right.
Qed.

(** The second half of a heartbeat is the heartbeat of [Registry.v] if the instance is
    still registered under the service that was read, and does nothing otherwise. *)
Lemma heartbeat_late k service now st m :
  represents st m →
  heartbeat_service k service now st =
  if decide (index st !! k = Some service) then heartbeat k now st else (st, false).
Proof.
  intros [Hl Hi]. case_decide as Hk; [unfold heartbeat; by rewrite Hk|].
  unfold heartbeat_service. destruct (inner st !! service) as [l|] eqn:El; [|done]. simpl.
  destruct (touch k now l) as [l'|] eqn:Et; [|done]. exfalso. apply Hk.
  apply touch_key in Et as [t Ht]. rewrite Hi, (proj2 (rep_inner _ _ Hl k service t)); eauto.
Qed.

Lemma deregister_list k st st' : deregister k st = (st', false) → st' = st.
Proof. unfold deregister. destruct (index st !! k); [done|]. by intros [= ->]. Qed.

Lemma filter_all {A} (f : A → bool) l : List.filter (λ x, negb (f x)) l = [] → List.filter f l = l.
Proof.
  induction l as [|x l IH]; [done|]. simpl. destruct (f x); [|done]. simpl. intros H.
  by rewrite IH.
Qed.

Lemma remove_expired_list timeout now st st' :
  remove_expired timeout now st = (st', []) → build_service_list st' = build_service_list st.
Proof.
  unfold remove_expired. intros [= <- He]. apply fmap_nil_inv in He.
  unfold build_service_list. simpl. apply map_eq. intros sv. rewrite !lookup_omap.
  destruct (inner st !! sv) as [l|] eqn:El; [|done]. simpl.
  assert (Hn : List.filter (λ i, negb (alive timeout now i)) l = []).
  { destruct (List.filter _ l) as [|i l'] eqn:Ef; [done|]. exfalso.
    assert (Hin : (sv, i) ∈ expired timeout now st); [|rewrite He in Hin; by apply not_elem_of_nil in Hin].
    unfold expired. apply list_elem_of_bind. exists (sv, l). split.
    - rewrite Ef. by left.
    - by apply elem_of_map_to_list. }
  rewrite (filter_all _ _ Hn). by destruct l.
Qed.

(** ** Subscribers *)

(** Whether a task is going to send a notification. *)
Definition tells (t : task) : bool :=
  match t with
  | TRegistered changed | TCleanup _ changed => changed
  | TBuild | TSend _ => true
  | TBeat _ _ | TDone => false
  end.

Definition quiet (s : system) : Prop := Forall (λ t, tells t = false) (tasks s).

(** The list the peer will have once it has received everything. *)
Definition latest (r : receiver) : option ServiceList := last (option_list (view r) ++ queue r).

Definition up_to_date (st : ServiceStore) (r : receiver) : Prop :=
  match latest r with Some l => l = build_service_list st | None => True end.

(** Notifications are built and sent in one go, and responses arrive. *)
Definition serial (a : action) : bool :=
  match a with ARespondFailed _ | ABuild _ | ASend _ => false | _ => true end.

Definition inv (s : system) : Prop := quiet s → Forall (up_to_date (sys_store s)) (receivers s).

Lemma up_to_date_list st st' r :
  build_service_list st' = build_service_list st → up_to_date st r → up_to_date st' r.
Proof. unfold up_to_date. by intros ->. Qed.

Lemma quiet_insert s i t t' :
  tasks s !! i = Some t → tells t' = tells t → quiet (set_task i t' s) → quiet s.
Proof.
  unfold quiet. simpl. intros Ht Heq H. rewrite Forall_lookup in *. intros j u Hu.
  destruct (decide (j = i)) as [->|Hne].
  - simplify_eq. rewrite <- Heq. apply (H i). apply list_lookup_insert_eq. by eapply lookup_lt_Some.
  - apply (H j). by rewrite list_lookup_insert_ne.
Qed.

Lemma quiet_snoc s t : quiet (with_tasks (tasks s ++ [t]) s) → quiet s ∧ tells t = false.
Proof. unfold quiet. simpl. rewrite Forall_app, Forall_singleton. done. Qed.

Lemma latest_push l r : (1 ≤ capacity)%nat → latest (push l r) = Some l.
Proof.
  intros Hc. unfold latest, push. destruct (Nat.ltb_spec capacity (length (queue r ++ [l]))) as [Hlt|Hge]; simpl.
  - destruct (queue r) as [|x q]; [simpl in Hlt; lia|]. simpl. rewrite ?drop_0. by rewrite app_assoc, last_snoc.
  - by rewrite app_assoc, last_snoc.
Qed.

Lemma up_to_date_view st q lg v lg' :
  up_to_date st {| queue := q; lagged := lg; view := v |} →
  up_to_date st {| queue := q; lagged := lg'; view := Some (build_service_list st) |}.
Proof.
  unfold up_to_date, latest. cbn [view queue]. destruct q as [|x q]; [done|].
  rewrite !last_app, !last_cons. by destruct (last q).
Qed.

Lemma up_to_date_receive st r r' :
  receive st r = Some r' → up_to_date st r → up_to_date st r'.
Proof.
  destruct r as [q lg v]. unfold receive. simpl. destruct v as [v|]; [|done].
  destruct lg; [intros [= <-]; apply up_to_date_view|].
  destruct q as [|l q]; [done|]. intros [= <-]. unfold up_to_date, latest. simpl. done.
Qed.

Lemma inv_same_list s s' :
  inv s → (quiet s' → quiet s) → receivers s' = receivers s →
  (quiet s' → build_service_list (sys_store s') = build_service_list (sys_store s)) → inv s'.
Proof.
  intros Hinv Hq Hr Hl Hq'. rewrite Hr. eapply Forall_impl; [by apply Hinv, Hq|].
  intros r. apply up_to_date_list. by apply Hl.
Qed.

Lemma inv_receiver s j r r' :
  inv s → receivers s !! j = Some r →
  (up_to_date (sys_store s) r → up_to_date (sys_store s) r') → inv (with_receiver j r' s).
Proof.
  intros Hinv Hj Hr Hq. simpl. apply Forall_insert; [by apply Hinv|]. apply Hr.
  specialize (Hinv Hq). rewrite Forall_lookup in Hinv. by eapply Hinv.
Qed.

Lemma inv_exec a s s' :
  (1 ≤ capacity)%nat → serial a = true → exec a s = Some s' → inv s → inv s'.
Proof.
  intros Hcap Hser He Hinv. destruct a as [k sv now|i|i|k|i now|ks|i|timeout now|i|i|i| |j|j];
    try done; cbn [exec] in He.
  - destruct (register k sv now (sys_store s)) as [st changed] eqn:E. injection He as <-.
    apply (inv_same_list s); [done| |done|].
    + intros Hq. by apply (quiet_snoc s) in Hq as [? _].
    + intros Hq. destruct changed; [|by eapply register_list].
      by apply (quiet_snoc s (TRegistered true)) in Hq as [_ [=]].
  - destruct (tasks s !! i) as [[changed| | | | |]|] eqn:E; try done. injection He as <-.
    apply (inv_same_list s); [done| |done|done]. apply (quiet_insert _ _ _ _ E). by destruct changed.
  - injection He as <-. apply (inv_same_list s); [done| |done|done]. by intros [? _]%quiet_snoc.
  - destruct (tasks s !! i) as [[|k sv| | | |]|] eqn:E; try done. injection He as <-.
    apply (inv_same_list s); [done|by apply (quiet_insert _ _ _ _ E)|done|]. intros _. apply heartbeat_list.
  - injection He as <-. apply (inv_same_list s); [done| |done|done]. by intros [? _]%quiet_snoc.
  - destruct (tasks s !! i) as [[| |[|k ks] changed| | |]|] eqn:E; try done.
    + injection He as <-. apply (inv_same_list s); [done| |done|done].
      apply (quiet_insert _ _ _ _ E). by destruct changed.
    + destruct (deregister k (sys_store s)) as [st found] eqn:Ed. injection He as <-.
      assert (Hq : quiet (set_task i (TCleanup ks (changed || found)) s) → found = false ∧ changed = false).
      { intros Hq. unfold quiet in Hq. simpl in Hq. rewrite Forall_lookup in Hq.
        specialize (Hq i _ (list_lookup_insert_eq _ _ _ (lookup_lt_Some _ _ _ E))). simpl in Hq.
        by destruct changed, found. }
      apply (inv_same_list s); [done| |done|].
      * intros H. destruct (Hq H) as [-> ->]. by apply (quiet_insert _ _ _ _ E) in H.
      * intros H. destruct (Hq H) as [-> ->]. by rewrite (deregister_list _ _ _ Ed).
  - destruct (remove_expired timeout now (sys_store s)) as [st removed] eqn:E. injection He as <-.
    apply (inv_same_list s); [done| |done|].
    + intros Hq. by apply (quiet_snoc s) in Hq as [? _].
    + intros Hq. apply (quiet_snoc s) in Hq as [_ Hq]. destruct removed as [|x removed];
        [|by rewrite bool_decide_false in Hq by done].
      by eapply remove_expired_list.
  - destruct (tasks s !! i) as [[| | | | |]|]; try done. injection He as <-. intros _. simpl.
    apply Forall_fmap, Forall_forall. intros r _. unfold up_to_date. simpl. by rewrite latest_push.
  - injection He as <-. intros Hq. simpl. apply Forall_app. split; [by apply Hinv|]. by repeat constructor.
  - destruct (receivers s !! j) as [[q lg [v|]]|] eqn:E; try done. injection He as <-.
    apply (inv_receiver s j _ _ Hinv E). apply up_to_date_view.
  - destruct (receivers s !! j) as [r|] eqn:E; [|done].
    destruct (receive (sys_store s) r) as [r'|] eqn:Er; [|done]. injection He as <-.
    apply (inv_receiver s j _ _ Hinv E). by apply up_to_date_receive.
Qed.

Lemma run_none acts : foldl (λ o a, o ≫= exec a) None acts = None.
Proof. by induction acts. Qed.

Lemma inv_run acts : ∀ s s',
  (1 ≤ capacity)%nat → forallb serial acts = true → run acts s = Some s' → inv s → inv s'.
Proof.
  unfold run. induction acts as [|a acts IH]; intros s s' Hcap Hser Hrun Hinv; simpl in *; [by simplify_eq|].
  apply andb_true_iff in Hser as [Ha Hser]. destruct (exec a s) as [s1|] eqn:E; [|by rewrite run_none in Hrun].
  apply (IH s1); [done..|]. by eapply inv_exec.
Qed.

(** C10: subscribers converge to the store.  As long as every notification is built
    and sent without another task in between and every registration is answered,
    the following holds for any interleaving of registrations, heartbeats, closed
    connections, health checks and subscriptions: once no task has a
    notification left to send, a subscriber that has received everything holds
    exactly the current service list, also when it lagged behind. *)
Theorem subscribers_current (acts : list action) (s : system) (j : nat) (r : receiver) (l : ServiceList) :
  (1 ≤ capacity)%nat → forallb serial acts = true → run acts init = Some s → quiet s →
  receivers s !! j = Some r → view r = Some l → queue r = [] →
  l = build_service_list (sys_store s).
Proof.
  intros Hcap Hser Hrun Hq Hj Hv He.
  assert (Hinv : inv s) by (apply (inv_run acts init); [done..|]; intros _; constructor).
  specialize (Hinv Hq). rewrite Forall_lookup in Hinv. specialize (Hinv j r Hj).
  unfold up_to_date, latest in Hinv. by rewrite Hv, He in Hinv.
Qed.
End system.

(** A subscriber, and two instances that register at the same time, with notifications
    that are built and sent in one go. *)
Definition orderly : list action :=
  [AAccept; ASubscribe 0; ARegister ("10.0.0.1", 9001) "Gacha" 1; ARespond 0;
   ARegister ("10.0.0.2", 9001) "Gacha" 1; ARespond 1; ANotify 1; ANotify 0;
   AReceive 0; AReceive 0].

(** ** Outdated lists *)

(** Two instances register at the same time, as tasks [n] and [n + 1]: the list of the
    first is built before the second one registers, and sent after the second one's;
    subscriber [j] receives both. *)
Definition race (n : nat) (k1 k2 : key) (sv1 sv2 : string) (t1 t2 : Z) (j : nat) : list action :=
  [ARegister k1 sv1 t1; ARespond n; ABuild n; ARegister k2 sv2 t2; ARespond (S n); ABuild (S n);
   ASend (S n); ASend n; AReceive j; AReceive j].

(** A registration whose response cannot be sent. *)
Definition unanswered (n : nat) (k : key) (sv : string) (t : Z) : list action :=
  [ARegister k sv t; ARespondFailed n].

(** A list has an instance, under some service. *)
Definition knows (l : ServiceList) (k : key) : Prop :=
  ∃ sv infos, l !! sv = Some infos ∧ {| si_Ip := k.1; si_Port := k.2 |} ∈ infos.

Lemma knows_iff st m k : represents st m → knows (build_service_list st) k ↔ is_Some (m !! k).
Proof.
  intros Hrep. destruct k as [i p]. split.
  - intros (sv & infos & Hl & Hin). pose proof (build_list_exact st m sv Hrep) as H. rewrite Hl in H.
    destruct H as (_ & _ & H). simpl in Hin. apply H in Hin as [t ->]. done.
  - intros [[sv t] Hk]. pose proof (build_list_exact st m sv Hrep) as H.
    destruct (build_service_list st !! sv) as [infos|] eqn:Hl; [|by destruct (H (i, p) t)].
    destruct H as (_ & _ & H). exists sv, infos. split; [done|]. apply H. eauto.
Qed.

Lemma register_new st m k sv t :
  represents st m → m !! k = None →
  ∃ st', register k sv t st = (st', true) ∧ represents st' (<[k := (sv, t)]> m).
Proof.
  intros Hrep Hk. destruct (register_represents st m k sv t Hrep) as [H1 H2].
  rewrite Hk, bool_decide_false in H2 by done.
  destruct (register k sv t st) as [st' b]. simpl in *. subst b. eauto.
Qed.

Section outdated.
Context (capacity : nat).

(** Steps between states in which nobody has a notification to send. *)
Definition quiet_step (s s' : system) : Prop :=
  (∃ a, exec capacity a s = Some s') ∧ quiet s'.

Lemma quiet_tells s i t : quiet s → tasks s !! i = Some t → tells t = false.
Proof. unfold quiet. rewrite Forall_lookup. eauto. Qed.

(** Then the service list does not change, and a subscriber that has received
    everything is sent nothing. *)
Lemma quiet_step_same s s' j l :
  let r := {| queue := []; lagged := false; view := Some l |} in
  quiet s → quiet_step s s' → receivers s !! j = Some r →
  build_service_list (sys_store s') = build_service_list (sys_store s) ∧ receivers s' !! j = Some r.
Proof.
  intros r Hq [[a He] Hq'] Hj. unfold r in *. clear r. destruct a as [k sv now|i|i|k|i now|ks|i|timeout now|i|i|i| |j'|j'];
    cbn [exec] in He.
  - destruct (register k sv now (sys_store s)) as [st changed] eqn:E. injection He as <-.
    split; [|done]. destruct changed; [|by eapply register_list].
    by apply (quiet_snoc s (TRegistered true)) in Hq' as [_ [=]].
  - destruct (tasks s !! i) as [[changed| | | | |]|]; simplify_eq. done.
  - destruct (tasks s !! i) as [[changed| | | | |]|]; simplify_eq. done.
  - injection He as <-. done.
  - destruct (tasks s !! i) as [[|k sv| | | |]|]; simplify_eq. split; [apply heartbeat_list|done].
  - injection He as <-. done.
  - destruct (tasks s !! i) as [[| |[|k ks] changed| | |]|] eqn:E; simplify_eq; [done|].
    destruct (deregister k (sys_store s)) as [st found] eqn:Ed. injection He as <-. split; [|done].
    unfold quiet in Hq'. simpl in Hq'. rewrite Forall_lookup in Hq'.
    specialize (Hq' i _ (list_lookup_insert_eq _ _ _ (lookup_lt_Some _ _ _ E))). simpl in Hq'.
    destruct changed, found; try done. by rewrite (deregister_list _ _ _ Ed).
  - destruct (remove_expired timeout now (sys_store s)) as [st removed] eqn:E. injection He as <-.
    split; [|done]. apply (quiet_snoc s) in Hq' as [_ Hq'].
    destruct removed as [|x removed]; [|by rewrite bool_decide_false in Hq' by done].
    by eapply remove_expired_list.
  - destruct (tasks s !! i) as [[| | | | |]|] eqn:E; try done. by apply quiet_tells in E.
  - destruct (tasks s !! i) as [[| | | | |]|] eqn:E; try done. by apply quiet_tells in E.
  - destruct (tasks s !! i) as [[| | | | |]|] eqn:E; try done. by apply quiet_tells in E.
  - injection He as <-. split; [done|]. simpl. by apply lookup_app_l_Some.
  - destruct (receivers s !! j') as [[q lg [v|]]|] eqn:E; try done. injection He as <-.
    split; [done|]. simpl. by rewrite list_lookup_insert_ne by congruence.
  - destruct (receivers s !! j') as [r'|] eqn:E; [|done].
    destruct (receive (sys_store s) r') as [r''|] eqn:Er; [|done]. injection He as <-.
    split; [done|]. simpl. rewrite list_lookup_insert_ne; [done|]. by intros ->; simplify_eq.
Qed.

(** Subscriber [j] has received everything there is, and does not know [k], which is in
    the store; and so it stays until somebody has a notification to send. *)
Definition outdated (j : nat) (k : key) (s : system) : Prop :=
  quiet s ∧ ∃ l, ¬ knows l k ∧
    ∀ s', rtc quiet_step s s' →
      receivers s' !! j = Some {| queue := []; lagged := false; view := Some l |} ∧
      knows (build_service_list (sys_store s')) k.

Lemma outdated_intro j k s l :
  quiet s → receivers s !! j = Some {| queue := []; lagged := false; view := Some l |} →
  knows (build_service_list (sys_store s)) k → ¬ knows l k → outdated j k s.
Proof.
  intros Hq Hj Hk Hl. split; [done|]. exists l. split; [done|]. intros s' Hr. clear Hl.
  induction Hr as [|s s1 s' Hs _ IH]; [done|].
  destruct (quiet_step_same s s1 j l Hq Hs Hj) as [E1 E2].
  apply IH; [by destruct Hs|done|by rewrite E1].
Qed.

(** The first and the second task after [ts]. *)
Lemma first_lookup (ts x : list task) : (ts ++ x) !! length ts = x !! 0%nat.
Proof. rewrite lookup_app_r, Nat.sub_diag; done. Qed.
Lemma second_lookup (ts x : list task) : (ts ++ x) !! S (length ts) = x !! 1%nat.
Proof. rewrite lookup_app_r by lia. f_equal. lia. Qed.
Lemma first_insert (ts x : list task) t : <[length ts := t]> (ts ++ x) = ts ++ <[0%nat := t]> x.
Proof. rewrite <- insert_app_r. f_equal. lia. Qed.
Lemma second_insert (ts x : list task) t : <[S (length ts) := t]> (ts ++ x) = ts ++ <[1%nat := t]> x.
Proof. rewrite <- insert_app_r. f_equal. lia. Qed.

Lemma run_cons a acts s s1 o :
  exec capacity a s = Some s1 → run capacity acts s1 = o → run capacity (a :: acts) s = o.
Proof. unfold run. simpl. by intros ->. Qed.

(** The system with two new tasks. *)
Definition with_two (ts : list task) (st : ServiceStore) (x : list task) (rs : list receiver) : system :=
  {| sys_store := st; tasks := ts ++ x; receivers := rs |}.

Ltac new_task :=
  eapply run_cons;
  [unfold with_two; cbn [exec tasks sys_store receivers];
   first [rewrite first_lookup | rewrite second_lookup];
   cbn [lookup list_lookup set_task with_tasks with_store tasks sys_store receivers];
   unfold set_task, with_tasks, broadcast; cbn [tasks sys_store receivers];
   first [rewrite first_insert | rewrite second_insert];
   cbn [insert list_insert notify_if]; reflexivity|].

Lemma push_two l1 l2 v :
  (2 ≤ capacity)%nat →
  push capacity l1 (push capacity l2 {| queue := []; lagged := false; view := v |}) =
  {| queue := [l2; l1]; lagged := false; view := v |}.
Proof.
  intros Hc. unfold push. simpl. destruct (Nat.ltb_spec capacity 1); [lia|]. simpl.
  by destruct (Nat.ltb_spec capacity 2); [lia|].
Qed.

Lemma receive_two s j l0 l1 l2 :
  receivers s !! j = Some {| queue := [l2; l1]; lagged := false; view := Some l0 |} →
  run capacity [AReceive j; AReceive j] s =
  Some (with_receiver j {| queue := []; lagged := false; view := Some l1 |} s).
Proof.
  intros Hj. eapply run_cons; [cbn [exec]; rewrite Hj; reflexivity|].
  eapply run_cons; [cbn [exec with_receiver receivers];
    rewrite list_lookup_insert_eq by (by eapply lookup_lt_Some); reflexivity|].
  unfold run, with_receiver. simpl. by rewrite list_insert_insert_eq.
Qed.

Lemma race_runs st m ts rs j l0 k1 k2 sv1 sv2 t1 t2 :
  (2 ≤ capacity)%nat → represents st m → m !! k1 = None → m !! k2 = None → k1 ≠ k2 →
  rs !! j = Some {| queue := []; lagged := false; view := Some l0 |} →
  ∃ st1 st2 rs', represents st1 (<[k1 := (sv1, t1)]> m) ∧
    represents st2 (<[k2 := (sv2, t2)]> (<[k1 := (sv1, t1)]> m)) ∧
    run capacity (race (length ts) k1 k2 sv1 sv2 t1 t2 j)
      {| sys_store := st; tasks := ts; receivers := rs |} =
    Some (with_two ts st2 [TDone; TDone] rs') ∧
    rs' !! j = Some {| queue := []; lagged := false; view := Some (build_service_list st1) |}.
Proof.
  intros Hcap Hrep H1 H2 Hne Hj.
  destruct (register_new st m k1 sv1 t1 Hrep H1) as (st1 & E1 & Hrep1).
  destruct (register_new st1 _ k2 sv2 t2 Hrep1) as (st2 & E2 & Hrep2); [by rewrite lookup_insert_ne|].
  exists st1, st2. eexists. split; [exact Hrep1|]. split; [exact Hrep2|]. split.
  - eapply run_cons.
    { cbn [exec sys_store]. rewrite E1. reflexivity. }
    change (with_store _ _) with (with_two ts st1 [TRegistered true] rs).
    new_task. new_task.
    eapply run_cons.
    { cbn [exec sys_store]. rewrite E2. reflexivity. }
    unfold with_tasks, with_store. cbn [tasks receivers]. rewrite <- app_assoc. cbn [app].
    new_task. new_task. new_task. new_task.
    erewrite receive_two; [reflexivity|]. cbn [receivers]. rewrite !list_lookup_fmap, Hj. simpl.
    by rewrite push_two.
  - simpl. rewrite list_lookup_insert_eq; [done|]. rewrite !length_fmap. by eapply lookup_lt_Some.
Qed.

(** C11: a subscriber can be left with an outdated list.  Take any state in which no task
    has a notification to send, and a subscriber that has received everything.  If two new
    instances register at the same time, so that the list of the first is built before
    the second registers and sent after the second one's, the subscriber receives both
    and is left without the second instance, although it is in the store; if one new
    instance registers and its response cannot be sent, the subscriber is not told at
    all.  It stays like that, whatever else happens, until some task has a notification to
    send again. *)
Theorem stale_broadcast (s : system) (m : registry_map) (j : nat) (l : ServiceList)
    (k1 k2 : key) (sv1 sv2 : string) (t1 t2 : Z) :
  (2 ≤ capacity)%nat → represents (sys_store s) m → quiet s →
  receivers s !! j = Some {| queue := []; lagged := false; view := Some l |} →
  m !! k1 = None → m !! k2 = None → k1 ≠ k2 →
  (∃ s', run capacity (race (length (tasks s)) k1 k2 sv1 sv2 t1 t2 j) s = Some s' ∧ outdated j k2 s') ∧
  (¬ knows l k1 →
   ∃ s', run capacity (unanswered (length (tasks s)) k1 sv1 t1) s = Some s' ∧ outdated j k1 s').
Proof.
  intros Hcap Hrep Hq Hj H1 H2 Hne. destruct s as [st ts rs]. simpl in *. split.
  - destruct (race_runs st m ts rs j l k1 k2 sv1 sv2 t1 t2 Hcap Hrep H1 H2 Hne Hj)
      as (st1 & st2 & rs' & Hrep1 & Hrep2 & Hrun & Hj').
    eexists. split; [exact Hrun|]. eapply outdated_intro; [|exact Hj'|..].
    + apply Forall_app. split; [done|by repeat constructor].
    + apply (knows_iff _ _ _ Hrep2). by rewrite lookup_insert_eq.
    + rewrite (knows_iff _ _ _ Hrep1), lookup_insert_ne, H2 by done. by intros [].
  - intros Hl. destruct (register_new st m k1 sv1 t1 Hrep H1) as (st1 & E1 & Hrep1). eexists. split.
    + eapply run_cons.
      { cbn [exec sys_store]. rewrite E1. reflexivity. }
      change (with_store _ _) with (with_two ts st1 [TRegistered true] rs). new_task. reflexivity.
    + eapply outdated_intro; [|exact Hj|..|exact Hl].
      * apply Forall_app. split; [done|by repeat constructor].
      * apply (knows_iff _ _ _ Hrep1). by rewrite lookup_insert_eq.
Qed.

End outdated.

(** ** Expiry *)

(** Operations on the store, with the times at which they happen. *)
Inductive op : Type :=
| ORegister (k : key) (service : string)
| OHeartbeat (k : key)
| ODeregister (k : key)
| OCheck.

Section expiry.
(** [heartbeat_timeout_secs], and an instance. *)
Context (timeout : Z) (k : key).

Definition apply_op (s : ServiceStore) (x : Z * op) : ServiceStore :=
  match x.2 with
  | ORegister j service => (register j service x.1 s).1
  | OHeartbeat j => (heartbeat j x.1 s).1
  | ODeregister j => (deregister j s).1
  | OCheck => (remove_expired timeout x.1 s).1
  end.

(** The last sign of life of an instance whose last one was at [t], or nothing once a
    check has come [timeout] or more after it. *)
Fixpoint fate (t : Z) (ops : list (Z * op)) : option Z :=
  match ops with
  | [] => Some t
  | (now, OHeartbeat j) :: ops => fate (if decide (j = k) then now else t) ops
  | (now, OCheck) :: ops => if now - t <? timeout then fate t ops else None
  | _ :: ops => fate t ops
  end.

(** Operations that neither register nor deregister the instance. *)
Definition hands_off (x : Z * op) : Prop :=
  match x.2 with ORegister j _ | ODeregister j => j ≠ k | _ => True end.

(** One operation on the map. *)
Lemma apply_op_represents s m x :
  represents s m →
  ∃ m', represents (apply_op s x) m' ∧
    (hands_off x →
     m' !! k = match m !! k with
               | Some (sv, t) => (λ t, (sv, t)) <$> fate t [x]
               | None => None
               end).
Proof.
  intros Hrep. destruct x as [now [j sv|j|j|]]; unfold apply_op, hands_off; simpl.
  - eexists. split; [by apply register_represents|]. intros Hne.
    rewrite lookup_insert_ne by done. by destruct (m !! k) as [[]|].
  - pose proof (heartbeat_represents s m j now Hrep) as H.
    destruct (m !! j) as [[sv t]|] eqn:Ej.
    + eexists. split; [apply H|]. intros _. destruct (decide (j = k)) as [->|Hne].
      * by rewrite lookup_insert_eq, Ej.
      * rewrite lookup_insert_ne by done. by destruct (m !! k) as [[]|].
    + rewrite H. exists m. split; [done|]. intros _. destruct (m !! k) as [[sv t]|] eqn:Ek; [|done].
      by rewrite decide_False by congruence.
  - eexists. split; [by apply deregister_represents|]. intros Hne.
    rewrite lookup_delete_ne by done. by destruct (m !! k) as [[]|].
  - eexists. split; [by apply remove_expired_represents|]. intros _.
    destruct (m !! k) as [[sv t]|] eqn:Ek.
    + destruct (Z.ltb_spec (now - t) timeout).
      * by apply map_lookup_filter_Some.
      * apply map_lookup_filter_None. right. intros x Hx Ha. simplify_eq.
        unfold still_alive in Ha. simpl in Ha. lia.
    + apply map_lookup_filter_None. by left.
Qed.

Lemma ops_represents ops : ∀ s m,
  represents s m → Forall hands_off ops →
  ∃ m', represents (foldl apply_op s ops) m' ∧
    m' !! k = match m !! k with
              | Some (sv, t) => (λ t, (sv, t)) <$> fate t ops
              | None => None
              end.
Proof.
  induction ops as [|x ops IH]; intros s m Hrep Hops; simpl.
  - exists m. split; [done|]. by destruct (m !! k) as [[]|].
  - apply Forall_cons in Hops as [Hx Hops].
    destruct (apply_op_represents s m x Hrep) as (m1 & Hm1 & Hk1). specialize (Hk1 Hx).
    destruct (IH _ _ Hm1 Hops) as (m' & Hm' & Hk'). exists m'. split; [done|]. rewrite Hk', Hk1.
    destruct (m !! k) as [[sv t]|]; [|done]. destruct x as [now [j sv'|j|j|]]; simpl; try done.
    by destruct (now - t <? timeout).
Qed.

Lemma fate_silent ops : ∀ t c,
  (∀ now j, (now, OHeartbeat j) ∈ ops → j ≠ k) → (c, OCheck) ∈ ops → timeout ≤ c - t →
  fate t ops = None.
Proof.
  induction ops as [|[now o] ops IH]; intros t c Hh Hin Hc; [by apply not_elem_of_nil in Hin|].
  assert (Hh' : ∀ now j, (now, OHeartbeat j) ∈ ops → j ≠ k) by (intros n j H; apply (Hh n j); by right).
  apply elem_of_cons in Hin as [[= <- <-]|Hin]; simpl.
  - by replace (c - t <? timeout) with false by (symmetry; lia).
  - destruct o as [j sv|j|j|]; try by eapply IH.
    + rewrite decide_False by (apply (Hh now); by left). by eapply IH.
    + destruct (now - t <? timeout); [by eapply IH|done].
Qed.

(** C12: instances expire exactly when they fall silent.  An instance that was last
    heard of at the time [t] is, after any operations that do not register or
    deregister it, in the store exactly if every health check came less than the timeout after
    its last heartbeat before that check, and its time is then that of the last heartbeat; if
    it sends no heartbeat, the first check [timeout] after [t] removes it, and no
    later heartbeat brings it back. *)
Theorem expiry_exact (s : ServiceStore) (m : registry_map) (sv : string) (t : Z) (ops : list (Z * op)) :
  represents s m → m !! k = Some (sv, t) → Forall hands_off ops →
  (∃ m', represents (foldl apply_op s ops) m' ∧ m' !! k = (λ t, (sv, t)) <$> fate t ops) ∧
  ((∀ now j, (now, OHeartbeat j) ∈ ops → j ≠ k) →
   (∃ c, (c, OCheck) ∈ ops ∧ timeout ≤ c - t) →
   ∀ now, (heartbeat k now (foldl apply_op s ops)).2 = false).
Proof.
  intros Hrep Hk Hops. destruct (ops_represents ops s m Hrep Hops) as (m' & Hm' & Hk').
  rewrite Hk in Hk'. split; [eauto|]. intros Hh (c & Hc & Ht) now.
  rewrite (fate_silent ops t c Hh Hc Ht) in Hk'.
  pose proof (heartbeat_represents _ _ k now Hm') as H. rewrite Hk' in H. by rewrite H.
Qed.
End expiry.

(** ** Witnesses *)

Lemma subscribers_current_witness :
  ∃ s r l, run 16 orderly init = Some s ∧ receivers s !! 0%nat = Some r ∧ view r = Some l ∧
           l = build_service_list (sys_store s).
Proof.
  destruct (run 16 orderly init) as [s|] eqn:E; [|vm_compute in E; discriminate E].
  destruct (receivers s !! 0%nat) as [r|] eqn:Er; [|vm_compute in E; injection E as <-; discriminate Er].
  destruct (view r) as [l|] eqn:El;
    [|vm_compute in E; injection E as <-; injection Er as <-; discriminate El].
  exists s, r, l. split_and!; [reflexivity|exact Er|exact El|].
  apply (subscribers_current 16 orderly s 0 r l); [lia|reflexivity|exact E| |exact Er|exact El|];
    vm_compute in E; injection E as <-; [repeat constructor|injection Er as <-; reflexivity].
Defined.

(** A registry with one subscriber. *)
Lemma stale_broadcast_witness :
  ∃ s, run 16 [AAccept; ASubscribe 0] init = Some s ∧
    ∃ s', run 16 (race 0 ("10.0.0.1", 9001) ("10.0.0.2", 9001) "Gacha" "Gacha" 1 1 0) s = Some s' ∧
      outdated 16 0 ("10.0.0.2", 9001) s'.
Proof.
  exists {| sys_store := new; tasks := [];
            receivers := [{| queue := []; lagged := false; view := Some (build_service_list new) |}] |}.
  split; [reflexivity|].
  match goal with |- ∃ s', run _ _ ?s = _ ∧ _ =>
    refine (proj1 (stale_broadcast 16 s ∅ 0 (build_service_list new) ("10.0.0.1", 9001)
      ("10.0.0.2", 9001) "Gacha" "Gacha" 1 1 _ _ _ _ _ _ _)) end.
  - lia.
  - apply new_represents.
  - constructor.
  - reflexivity.
  - apply lookup_empty.
  - apply lookup_empty.
  - discriminate.
Defined.

Lemma expiry_exact_witness :
  let s := (register ("10.0.0.1", 9001) "Gacha" 0 new).1 in
  (heartbeat ("10.0.0.1", 9001) 41 (foldl (apply_op 30) s [(10, OCheck); (40, OCheck)])).2 = false.
Proof.
  intros s.
  apply (expiry_exact 30 ("10.0.0.1", 9001) s (<[("10.0.0.1", 9001) := ("Gacha", 0)]> ∅) "Gacha" 0).
  - apply register_represents, new_represents.
  - apply lookup_insert_eq.
  - repeat constructor.
  - intros now j [[=]|[[=]|H]%elem_of_cons]%elem_of_cons. by apply not_elem_of_nil in H.
  - exists 40. split; [right; left|lia].
Defined.

End RegistrySystem.
