(* ===== verification/RegistryMain.v ===== *)
(** * The registry's configuration and start: [src/registry/src/config.rs] and
      [src/registry/src/main.rs]

    The TOML parser is a parameter: a document is its top-level table.  Reading the
    table into [Config] is what serde derives for the structure. *)

From S2P Require Import Prelude.

Module RegistryMain.

(** ** [Config] *)

Record Config : Type := {
  listen_addr : string;
  heartbeat_timeout_secs : Z;
  health_check_interval_secs : Z;
  broadcast_channel_capacity : Z;
}.

Definition default_config : Config :=
  {| listen_addr := "0.0.0.0:9000"; heartbeat_timeout_secs := 30;
     health_check_interval_secs := 10; broadcast_channel_capacity := 16 |}.

(** A value of the table: TOML integers have 64 bits and a sign. *)
Inductive toml_value : Type := TString (s : string) | TInteger (z : Z) | TOther.

Abbreviation table := (gmap string toml_value).

(** A field of the derived [Deserialize]: the default if it is missing, an error if it
    has another type or, for an unsigned field, is negative. *)
Definition string_field (t : table) (name default : string) : option string :=
  match t !! name with None => Some default | Some (TString s) => Some s | Some _ => None end.

Definition unsigned_field (t : table) (name : string) (default : Z) : option Z :=
  match t !! name with
  | None => Some default
  | Some (TInteger z) => if 0 <=? z then Some z else None
  | Some _ => None
  end.

(** [#[serde(default)]]: missing fields are those of [Config::default()]; other keys of
    the table are ignored. *)
Definition deserialize (t : table) : option Config :=
  addr ← string_field t "listen_addr" (listen_addr default_config);
  timeout ← unsigned_field t "heartbeat_timeout_secs" (heartbeat_timeout_secs default_config);
  interval ← unsigned_field t "health_check_interval_secs" (health_check_interval_secs default_config);
  capacity ← unsigned_field t "broadcast_channel_capacity" (broadcast_channel_capacity default_config);
  Some {| listen_addr := addr; heartbeat_timeout_secs := timeout;
          health_check_interval_secs := interval; broadcast_channel_capacity := capacity |}.

Section load.
(** [std::env::var], [std::fs::read_to_string] and the parser of the [toml] crate. *)
Context (env : string → option string) (read_to_string : string → option string)
  (parse : string → option table).

(** [PathBuf::join] with a relative name. *)
Definition join (dir name : string) : string :=
  if String.eqb dir "" then name
  else match String.get (String.length dir - 1) dir with
       | Some "/"%char => dir +:+ name
       | _ => dir +:+ "/" +:+ name
       end.

Definition config_path : string :=
  match env "CARGO_MANIFEST_DIR" with Some dir => join dir "registry.toml" | None => "registry.toml" end.

(** The configuration of the file, if it can be read, parsed and deserialised. *)
Definition from_file : option Config :=
  s ← read_to_string config_path; t ← parse s; deserialize t.

Definition load : Config :=
  let config := default default_config from_file in
  match env "REGISTRY_ADDR" with
  | Some addr =>
    {| listen_addr := addr; heartbeat_timeout_secs := heartbeat_timeout_secs config;
       health_check_interval_secs := health_check_interval_secs config;
       broadcast_channel_capacity := broadcast_channel_capacity config |}
  | None => config
  end.

(** ** [main] *)

(** How [main] ends: a panic, an error of [server.run], or a signal. *)
Inductive exit : Type := Panicked (msg : string) | Failed (e : string) | Interrupted.

(** Whether the task of the health check goes on: [tokio::time::interval] panics for a
    period of zero, which ends the task and nothing else. *)
Definition health_check_runs (config : Config) : bool := negb (health_check_interval_secs config =? 0).

(** [Notifier::new]: [broadcast::channel] panics for a capacity of zero. *)
Definition new_notifier (config : Config) : result string unit :=
  if broadcast_channel_capacity config =? 0
  then Err "broadcast channel capacity cannot be zero" else Ok tt.

(** What happens first while the server runs: [bind] or some [accept] fails, or
    Ctrl-C. *)
Inductive event : Type := BindFailed (e : string) | AcceptFailed (e : string) | CtrlC.

(** [main]: how it ends, and whether expired instances are removed until then. *)
Definition main (ev : event) : exit * bool :=
  let config := load in
  match new_notifier config with
  | Err msg => (Panicked msg, false)
  | Ok _ =>
    (match ev with BindFailed e | AcceptFailed e => Failed e | CtrlC => Interrupted end,
     health_check_runs config)
  end.

(** ** Lemmas *)

(** A field that is in the table and has the right type. *)
Definition unsigned_ok (t : table) (name : string) : Prop :=
  match t !! name with None => True | Some (TInteger z) => 0 ≤ z | Some _ => False end.

Definition string_ok (t : table) (name : string) : Prop :=
  match t !! name with None | Some (TString _) => True | Some _ => False end.

Definition well_typed (t : table) : Prop :=
  string_ok t "listen_addr" ∧ unsigned_ok t "heartbeat_timeout_secs" ∧
  unsigned_ok t "health_check_interval_secs" ∧ unsigned_ok t "broadcast_channel_capacity".

Definition string_or (t : table) (name d : string) : string :=
  match t !! name with Some (TString s) => s | _ => d end.
Definition int_or (t : table) (name : string) (d : Z) : Z :=
  match t !! name with Some (TInteger z) => z | _ => d end.

Lemma string_field_spec t name d :
  (string_ok t name → string_field t name d = Some (string_or t name d)) ∧
  (¬ string_ok t name → string_field t name d = None).
Proof. unfold string_ok, string_field, string_or. destruct (t !! name) as [[]|]; naive_solver. Qed.

Lemma unsigned_field_spec t name d :
  (unsigned_ok t name → unsigned_field t name d = Some (int_or t name d)) ∧
  (¬ unsigned_ok t name → unsigned_field t name d = None).
Proof.
  unfold unsigned_ok, unsigned_field, int_or. destruct (t !! name) as [[|z|]|]; try naive_solver.
  destruct (Z.leb_spec 0 z); naive_solver lia.
Qed.

Lemma deserialize_ok t :
  well_typed t → deserialize t = Some
    {| listen_addr := string_or t "listen_addr" "0.0.0.0:9000";
       heartbeat_timeout_secs := int_or t "heartbeat_timeout_secs" 30;
       health_check_interval_secs := int_or t "health_check_interval_secs" 10;
       broadcast_channel_capacity := int_or t "broadcast_channel_capacity" 16 |}.
Proof.
  intros (H1 & H2 & H3 & H4). unfold deserialize.
  rewrite (proj1 (string_field_spec _ _ _) H1). simpl.
  by rewrite !(proj1 (unsigned_field_spec _ _ _)) by done.
Qed.

Lemma deserialize_error t : ¬ well_typed t → deserialize t = None.
Proof.
  intros Hno. unfold deserialize.
  assert (∀ name d, unsigned_field t name d ≠ None → unsigned_ok t name) as Hu.
  { intros name d Hne. destruct (unsigned_field t name d) as [z|] eqn:E; [|done].
    unfold unsigned_field, unsigned_ok in *. destruct (t !! name) as [[|z'|]|]; try done.
    destruct (Z.leb_spec 0 z'); [done|congruence]. }
  destruct (string_field t _ _) as [a|] eqn:E1; simpl; [|done].
  destruct (unsigned_field t "heartbeat_timeout_secs" _) as [b|] eqn:E2; simpl; [|done].
  destruct (unsigned_field t "health_check_interval_secs" _) as [c|] eqn:E3; simpl; [|done].
  destruct (unsigned_field t "broadcast_channel_capacity" _) as [d|] eqn:E4; simpl; [|done].
  exfalso. apply Hno. split_and!.
  - unfold string_field, string_ok in *. by destruct (t !! "listen_addr") as [[]|].
  - eapply Hu. by rewrite E2.
  - eapply Hu. by rewrite E3.
  - eapply Hu. by rewrite E4.
Qed.

(** ** Properties *)

(** Where the settings of the registry come from, and what it does with them.  A file
    whose table has the right types gives every setting it names, all others are
    defaults; any other file is as good as none; [REGISTRY_ADDR] goes over both.  A
    capacity of zero ends the process with a panic.  An interval of zero is accepted
    and ends the health check alone: the registry runs on and expires nothing. *)
Theorem registry_settings (ev : event) (t : table) :
  let named := λ name d, match env "REGISTRY_ADDR" with Some addr => addr | None => string_or t name d end in
  (read_to_string config_path ≫= parse = Some t → well_typed t →
   load = {| listen_addr := named "listen_addr" "0.0.0.0:9000";
             heartbeat_timeout_secs := int_or t "heartbeat_timeout_secs" 30;
             health_check_interval_secs := int_or t "health_check_interval_secs" 10;
             broadcast_channel_capacity := int_or t "broadcast_channel_capacity" 16 |}) ∧
  (read_to_string config_path ≫= parse = Some t → ¬ well_typed t ∨ t = ∅ →
   load = {| listen_addr := default "0.0.0.0:9000" (env "REGISTRY_ADDR"); heartbeat_timeout_secs := 30;
             health_check_interval_secs := 10; broadcast_channel_capacity := 16 |}) ∧
  (broadcast_channel_capacity load = 0 →
   main ev = (Panicked "broadcast channel capacity cannot be zero", false)) ∧
  (broadcast_channel_capacity load ≠ 0 → health_check_interval_secs load = 0 →
   ∃ e, main ev = (e, false) ∧ ∀ msg, e ≠ Panicked msg).
Proof.
  intros named. split_and!.
  - intros E Ht. unfold load, from_file, named.
    destruct (read_to_string config_path) as [s|]; [|done]. simpl in *. rewrite E. simpl.
    rewrite (deserialize_ok t Ht). simpl. by destruct (env "REGISTRY_ADDR").
  - intros E Ht. unfold load, from_file.
    destruct (read_to_string config_path) as [s|]; [|done]. simpl in *. rewrite E. simpl.
    assert (Hd : default default_config (deserialize t) = default_config).
    { destruct Ht as [Ht| ->]; [by rewrite (deserialize_error t Ht)|]. done. }
    rewrite Hd. by destruct (env "REGISTRY_ADDR").
  - intros H. unfold main, new_notifier. by rewrite H.
  - intros H1 H2. unfold main, new_notifier, health_check_runs.
    destruct (Z.eqb_spec (broadcast_channel_capacity load) 0); [done|]. rewrite H2. simpl.
    eexists. split; [reflexivity|]. by destruct ev.
Qed.

End load.
End RegistryMain.
