(* ===== verification/Process.v ===== *)
(** * The server process: connections and services together

    [Server.v] models one connection and runs a handler in one step, [Interleaving.v]
    models requests whose operations on the database and the random source interleave.
    Here they are put together: a process accepts any number of connections, and the
    goroutine of a request unmarshals the payload, runs the program of its method one
    operation at a time beside all others, and marshals the reply, as the handlers that
    genrpc generates do.

    A connection is a state of [Server.v] whose handlers take their results from a list,
    which is empty except for the moment at which a handler returns; so every step of a
    connection that involves no handler is a step of [Server.v], and the return of a
    handler is one with the result of its program. *)

From S2P Require Import Prelude Codec GoLib Pb Router Handler Wire Db Rand Gacha User Interleaving.
From S2P Require Import Server Config Main.

Module Process.
Import Io Codec Rpc Handler Gacha.

Section process.
Context {DB : Type} {database : Db.Database DB}.
Context `{!Message RpcRequest} `{!Message RpcResponse}.
Context `{!Message App.RegisterRequest, !Message App.RegisterResponse,
          !Message App.LoginRequest, !Message App.LoginResponse,
          !Message App.LogoutRequest, !Message App.LogoutResponse,
          !Message App.DrawRequest, !Message App.DrawResponse}.
Context (fuel : nat) (pool : gmap Z (list string)) (hostname : string) (cfg : Config.Config).

(** The receiver of [Draw] in [main]. *)
Definition gs : GachaService :=
  SetInstance (NewGachaService hostname) (Config.ServiceName cfg +:+ ":" +:+ Strconv.fmt_d (Config.Port cfg)).

(** ** Handlers *)

(** The request in the payload: [None] for a method that the router does not have. *)
Definition decode (service method : string) (payload : bytes) : option (result string User.request) :=
  if decide (service = "UserService" ∧ method = "register") then Some (User.QRegister <$> Unmarshal payload)
  else if decide (service = "UserService" ∧ method = "login") then Some (User.QLogin <$> Unmarshal payload)
  else if decide (service = "UserService" ∧ method = "logout") then Some (User.QLogout <$> Unmarshal payload)
  else if decide (service = "GachaService" ∧ method = "draw") then Some (User.QDraw <$> Unmarshal payload)
  else None.

Definition decode_req (req : RpcRequest) : option (result string User.request) :=
  decode (req_Service req) (req_Method req) (req_Payload req).

Definition marshal_reply (r : Interleaving.reply) : result string bytes :=
  match r with
  | Interleaving.RRegister r => Marshal r
  | Interleaving.RLogin r => Marshal r
  | Interleaving.RLogout r => Marshal r
  | Interleaving.RDraw r => Marshal r
  end.

(** The result of a handler from that of its method. *)
Definition encode (o : outcome Interleaving.reply) : outcome bytes :=
  match o with
  | Return r => match marshal_reply r with Ok b => Return b | Err e => Fail e end
  | Fail e => Fail e
  | Panic p => Panic p
  | Diverge => Diverge
  end.

(** A handler that takes its result from a list. *)
Definition oracle : Type := list (outcome bytes).

Definition oracle_handler : HandlerFunc oracle := λ w _,
  match w with o :: w => (w, o) | [] => ([], Diverge) end.

(** The router of [main] with such handlers. *)
Definition oracle_router : Router.Router (HandlerFunc oracle) :=
  {| Router.handlers := (λ _, oracle_handler) <$> Router.handlers (Main.main_router fuel pool hostname cfg) |}.

(** ** Steps *)

(** A connection, and the executions of its request goroutines: goroutine [i] is served
    by task [c_calls !! i] of the services. *)
Record connection : Type := { c_state : Server.state (W := oracle); c_calls : gmap nat nat }.

Record process : Type :=
  { p_conns : list connection; p_sys : Interleaving.sys (DB := DB) }.

Definition boot (w : world DB) : process :=
  {| p_conns := []; p_sys := Interleaving.idle w |}.

Definition with_conn (c : nat) (x : connection) (P : process) : process :=
  {| p_conns := <[c := x]> (p_conns P); p_sys := p_sys P |}.

Definition set_state (s : Server.state) (x : connection) : connection :=
  {| c_state := s; c_calls := c_calls x |}.

(** A handler returns, or panics; without a result it does not. *)
Definition finish (i : nat) (f : bytes) (req : RpcRequest) (o : outcome bytes)
    (s : Server.state (W := oracle)) : option Server.state :=
  match o with
  | Panic _ => Some (Server.dropped f (Server.set_task i Server.TDone (Server.writeMu s) s))
  | o =>
    resp ← Server.handler_response req o;
    Some (Server.set_task i (Server.TMarshal f resp) (Server.writeMu s) s)
  end.

Inductive pstep : process → process → Prop :=
(* [Start]: a connection is accepted *)
| step_accept P r :
    pstep P {| p_conns := p_conns P ++ [{| c_state := Server.accepted r []; c_calls := ∅ |}];
               p_sys := p_sys P |}
(* a goroutine of a connection, outside of the handlers *)
| step_local P c x s' :
    p_conns P !! c = Some x → Server.step oracle_router (c_state x) s' →
    pstep P (with_conn c (set_state s' x) P)
(* a handler unmarshals its payload: an error, or a request to the service *)
| step_refuse P c x i f req h e s' :
    p_conns P !! c = Some x → Server.tasks (c_state x) !! i = Some (Server.TRun f req h) →
    c_calls x !! i = None → decode_req req = Some (Err e) →
    finish i f req (Fail e) (c_state x) = Some s' →
    pstep P (with_conn c (set_state s' x) P)
| step_invoke P c x i f req h q :
    p_conns P !! c = Some x → Server.tasks (c_state x) !! i = Some (Server.TRun f req h) →
    c_calls x !! i = None → decode_req req = Some (Ok q) →
    pstep P
      {| p_conns := <[c := {| c_state := c_state x;
                              c_calls := <[i := length (Interleaving.s_tasks (p_sys P))]> (c_calls x) |}]>
                      (p_conns P);
         p_sys := Interleaving.arrive fuel pool gs q (p_sys P) |}
(* one operation of a method on the database or the random source *)
| step_operate P j sys' :
    Interleaving.advance j (p_sys P) = Some sys' →
    pstep P {| p_conns := p_conns P; p_sys := sys' |}
(* a method has returned; the handler marshals the reply and returns *)
| step_return P c x i f req h j q o s' :
    p_conns P !! c = Some x → Server.tasks (c_state x) !! i = Some (Server.TRun f req h) →
    c_calls x !! i = Some j →
    Interleaving.s_tasks (p_sys P) !! j = Some {| Interleaving.t_req := q; Interleaving.t_prog := Interleaving.Ret o |} →
    finish i f req (encode o) (c_state x) = Some s' →
    pstep P (with_conn c (set_state s' x) P).

(** ** The router *)

Lemma oracle_route service method :
  Router.Route oracle_router service method =
  (λ _, oracle_handler) <$> Router.Route (Main.main_router fuel pool hostname cfg) service method.
Proof. unfold Router.Route. simpl. by rewrite lookup_fmap. Qed.

(** The handlers of [main] decode, run the method and encode. *)
Definition handlers_of_main : Prop := ∀ service method,
  match Router.Route (Main.main_router fuel pool hostname cfg) service method with
  | None => ∀ payload, decode service method payload = None
  | Some h => ∀ (w : world DB) payload,
      ∃ d, decode service method payload = Some d ∧
      h w payload = match d with
                    | Err e => (w, Fail e)
                    | Ok q => let '(w, o) := Interleaving.method_of fuel pool gs q w in (w, encode o)
                    end
  end.

Lemma handlers_decode : handlers_of_main.
Proof.
  intros service method.
  rewrite Main.main_router_cases. unfold decode.
  repeat match goal with
  | |- context [decide (?s = ?a ∧ ?m = ?b)] => destruct (decide (s = a ∧ m = b)) as [[-> ->]|]
  end; [..|done]; intros w payload; (eexists; split; [reflexivity|]);
    unfold generated_handler; (destruct (Unmarshal payload) as [req|e]; [|done]); simpl.
  - destruct (User.Register w req) as [w' []]; simpl; by repeat case_match.
  - destruct (User.Login w req) as [w' []]; simpl; by repeat case_match.
  - by destruct (Marshal _).
  - unfold gs, SetInstance. destruct (Draw fuel pool _ w req) as [w' []]; simpl; by repeat case_match.
Qed.

Lemma decode_route req :
  is_Some (decode_req req) ↔ is_Some (Router.Route oracle_router (req_Service req) (req_Method req)).
Proof.
  rewrite oracle_route, fmap_is_Some, Main.main_router_cases. unfold decode_req, decode.
  repeat case_decide; split; intros [? ?]; by eauto.
Qed.

(** ** What a connection knows *)

(** A frame that is a request for a method of the router. *)
Definition routed (f : bytes) : Prop :=
  match (Unmarshal f : result string RpcRequest) with
  | Ok req => is_Some (decode_req req)
  | Err _ => False
  end.

#[local] Instance routed_dec f : Decision (routed f).
Proof. unfold routed. destruct (Unmarshal f : result string RpcRequest); apply _. Defined.

(** The frames that started a goroutine, in order. *)
Definition routed_frames (s : Server.state (W := oracle)) : list bytes := filter routed (Server.received s).

(** The answer that a goroutine is about to give. *)
Definition main_resp (pc : Server.main_pc) : option (bytes * RpcResponse) :=
  match pc with
  | Server.MReading | Server.MClosed => None
  | Server.MWant f resp | Server.MLocked f resp | Server.MHeader f resp _ | Server.MBody f resp _ =>
    Some (f, resp)
  end.

Definition task_resp (pc : Server.task_pc (W := oracle)) : option (bytes * RpcResponse) :=
  match pc with
  | Server.TRun _ _ _ | Server.TDone => None
  | Server.TMarshal f resp | Server.TWant f resp _ | Server.THeader f resp _ | Server.TBody f resp _ =>
    Some (f, resp)
  end.

(** All answers satisfy [G]. *)
Record content (G : bytes → RpcResponse → Prop) (s : Server.state (W := oracle)) : Prop := {
  content_main : ∀ f resp, main_resp (Server.main s) = Some (f, resp) → G f resp;
  content_tasks : Forall (λ pc, ∀ f resp, task_resp pc = Some (f, resp) → G f resp) (Server.tasks s);
  content_answered : Forall (λ a, G a.1.1 a.1.2) (Server.answered s);
}.

Lemma content_mono (G G' : bytes → RpcResponse → Prop) s :
  (∀ f resp, G f resp → G' f resp) → content G s → content G' s.
Proof.
  intros HG [Hm Ht Ha]. split.
  - eauto.
  - eapply Forall_impl; [exact Ht|]. naive_solver.
  - eapply Forall_impl; [exact Ha|]. naive_solver.
Qed.

Lemma oracle_task s i f req h :
  Server.inv_content oracle_router s → Server.tasks s !! i = Some (Server.TRun f req h) →
  Unmarshal f = Ok req ∧ h = oracle_handler ∧ is_Some (decode_req req).
Proof.
  intros (_ & Ht & _) Hi. eapply Forall_lookup_1 in Ht; [|exact Hi]. destruct Ht as [Hu Hr].
  split; [done|]. rewrite decode_route. split; [|eauto].
  rewrite oracle_route in Hr. by destruct (Router.Route _ _ _); simplify_eq/=.
Qed.

(** Steps outside of the handlers. *)
Lemma local_content G s s' :
  (∀ f e, (Unmarshal f : result string RpcRequest) = Err e → G f (Server.bad_request e)) →
  (∀ f req, Unmarshal f = Ok req → decode_req req = None → G f (Server.not_found req)) →
  Server.inv_content oracle_router s → Server.world s = [] → content G s →
  Server.step oracle_router s s' → content G s' ∧ Server.world s' = [].
Proof.
  intros Hbad Hunk Hinv Hw [Hm Ht Ha] Hstep.
  assert (Htask : ∀ i pc, Server.tasks s !! i = Some pc →
    ∀ f resp, task_resp pc = Some (f, resp) → G f resp).
  { intros i pc Hi. by eapply Forall_lookup_1 in Ht. }
  destruct Hstep;
    try match goal with
    | H : Server.tasks s !! _ = Some (Server.TRun _ _ ?h), E : ?h (Server.world s) _ = _ |- _ =>
      exfalso; apply (oracle_task _ _ _ _ _ Hinv) in H as (_ & -> & _); rewrite Hw in E;
      simpl in E; by simplify_eq/=
    end;
    (split; [|by simpl]); split; simpl; intros;
    repeat match goal with
    | H : Server.main s = _ |- _ => rewrite H in *; clear H
    | H : Server.tasks s !! _ = Some _ |- _ => pose proof (Htask _ _ H); clear H
    end; simpl in *; simplify_eq/=; eauto;
    try (apply Forall_insert; [done|simpl; intros; by simplify_eq; eauto]);
    try (apply Forall_app; split; [done|]; constructor; [simpl; intros; simplify_eq/=; eauto|constructor]).
  - apply Hunk; [done|]. apply eq_None_not_Some. rewrite decode_route. intros [? ?]. congruence.
Qed.

(** Goroutine [i] works on the [i]-th routed frame. *)
Record frames_ok (s : Server.state (W := oracle)) : Prop := {
  frames_length : length (Server.tasks s) = length (routed_frames s);
  frames_task : ∀ i pc f, Server.tasks s !! i = Some pc → Server.task_frame pc = Some f →
    routed_frames s !! i = Some f;
}.

Lemma frames_ok_insert s s' i pc pc' :
  frames_ok s → Server.received s' = Server.received s →
  Server.tasks s' = <[i := pc']> (Server.tasks s) → Server.tasks s !! i = Some pc →
  (∀ f, Server.task_frame pc' = Some f → Server.task_frame pc = Some f) → frames_ok s'.
Proof.
  intros [Hl Hf] Hr Ht Hi Hpc. unfold routed_frames in *. split.
  - unfold routed_frames. by rewrite Ht, Hr, length_insert.
  - unfold routed_frames. rewrite Hr. intros j pc0 f Hj Hfr. rewrite Ht in Hj.
    apply list_lookup_insert_Some in Hj as [(<- & <- & _)|[_ Hj]]; eauto.
Qed.

Lemma frames_ok_more s s' f :
  frames_ok s → Server.received s' = Server.received s ++ [f] → ¬ routed f →
  Server.tasks s' = Server.tasks s → frames_ok s'.
Proof.
  intros [Hl Hf] Hr Hno Ht. unfold routed_frames in *. split; unfold routed_frames;
    rewrite Hr, Ht, filter_app, filter_cons_False, app_nil_r by done; eauto.
Qed.

Lemma frames_ok_spawn s s' f req h :
  frames_ok s → Server.received s' = Server.received s ++ [f] → routed f →
  Server.tasks s' = Server.tasks s ++ [Server.TRun f req h] → frames_ok s'.
Proof.
  intros [Hl Hf] Hr Hy Ht. unfold routed_frames in *.
  split; unfold routed_frames; rewrite Hr, Ht, filter_app, filter_cons_True by done.
  - rewrite !length_app, Hl. done.
  - intros i pc g Hi Hg. apply lookup_app_Some in Hi as [Hi|[Hge Hi]].
    + apply lookup_app_l_Some. eauto.
    + rewrite lookup_app_r, <- Hl by (rewrite <- Hl; lia).
      destruct (i - length (Server.tasks s))%nat as [|k]; simplify_eq/=. done.
Qed.

Lemma frames_ok_same s s' :
  frames_ok s → Server.received s' = Server.received s → Server.tasks s' = Server.tasks s → frames_ok s'.
Proof. intros [Hl Hf] Hr Ht. unfold routed_frames in *. split; unfold routed_frames; by rewrite Hr, Ht. Qed.

Ltac rewrite_frame := match goal with E : Unmarshal ?f = _ |- context [Unmarshal ?f] => rewrite E end.

Lemma local_frames s s' :
  Server.inv_content oracle_router s → Server.world s = [] → frames_ok s →
  Server.step oracle_router s s' →
  frames_ok s' ∧ Server.received s `prefix_of` Server.received s'.
Proof.
  intros Hinv Hw Hf Hstep. destruct Hstep;
    try match goal with
    | H : Server.tasks s !! _ = Some (Server.TRun _ _ ?h), E : ?h (Server.world s) _ = _ |- _ =>
      exfalso; apply (oracle_task _ _ _ _ _ Hinv) in H as (_ & -> & _); rewrite Hw in E;
      simpl in E; by simplify_eq/=
    end;
    (split; [|first [by apply prefix_app_r | done]]);
    try (by apply (frames_ok_same s));
    try (by (eapply (frames_ok_insert s); [done|done|done|eassumption|simpl; intros; by simplify_eq])).
  - apply (frames_ok_more s _ f); [done|done| |done]. unfold routed. rewrite_frame. by intros [].
  - apply (frames_ok_more s _ f); [done|done| |done]. unfold routed. rewrite_frame. rewrite decode_route.
    intros [? ?]. congruence.
  - apply (frames_ok_spawn s _ f req h); [done|done| |done]. unfold routed. rewrite_frame. rewrite decode_route. eauto.
Qed.

(** ** Executions *)

Abbreviation services := (Interleaving.sys (DB := DB)).
Abbreviation finished_as q o :=
  {| Interleaving.t_req := q; Interleaving.t_prog := Interleaving.Ret o |}.

(** Why a response is the right one for a frame: the frame is no request, or its method
    is unknown, or its payload does not decode, or the method was executed for this
    very frame and ended with that result. *)
Inductive explained (sys : services) (x : connection) (f : bytes) : RpcResponse → Prop :=
| explained_bad e :
    (Unmarshal f : result string RpcRequest) = Err e → explained sys x f (Server.bad_request e)
| explained_unknown req :
    Unmarshal f = Ok req → decode_req req = None → explained sys x f (Server.not_found req)
| explained_payload req e :
    Unmarshal f = Ok req → decode_req req = Some (Err e) →
    explained sys x f (Server.error_response (req_RequestId req) 500 e)
| explained_call req q i j o resp :
    Unmarshal f = Ok req → decode_req req = Some (Ok q) →
    routed_frames (c_state x) !! i = Some f → c_calls x !! i = Some j →
    Interleaving.s_tasks sys !! j = Some (finished_as q o) →
    Server.handler_response req (encode o) = Some resp → explained sys x f resp.

(** Executions keep their request, and finished ones their result. *)
Definition sys_le (sys sys' : services) : Prop :=
  ∀ j t, Interleaving.s_tasks sys !! j = Some t →
    ∃ t', Interleaving.s_tasks sys' !! j = Some t' ∧ Interleaving.t_req t' = Interleaving.t_req t ∧
          ∀ o, Interleaving.t_prog t = Interleaving.Ret o → t' = t.

Lemma sys_le_refl sys : sys_le sys sys.
Proof. intros j t H. eauto. Qed.

Lemma sys_le_arrive q sys : sys_le sys (Interleaving.arrive fuel pool gs q sys).
Proof. intros j t H. exists t. split; [|done]. simpl. by apply lookup_app_l_Some. Qed.

Lemma sys_le_advance k sys sys' : Interleaving.advance k sys = Some sys' → sys_le sys sys'.
Proof.
  intros (q & c & p & w' & r & Hk & _ & ->)%Interleaving.advance_inv j t Hj. simpl.
  destruct (decide (k = j)) as [->|Hne].
  - rewrite Hk in Hj. simplify_eq. exists {| Interleaving.t_req := q; Interleaving.t_prog := p r |}.
    split; [|done]. apply list_lookup_insert_eq. by eapply lookup_lt_Some.
  - exists t. rewrite list_lookup_insert_ne by done. done.
Qed.

Lemma explained_mono sys sys' x x' f resp :
  sys_le sys sys' → routed_frames (c_state x) `prefix_of` routed_frames (c_state x') →
  c_calls x ⊆ c_calls x' → explained sys x f resp → explained sys' x' f resp.
Proof.
  intros Hs Hf Hc [e|req|req e|req q i j o rsp Hu Hd Hi Hj Ht Hr];
    [by apply explained_bad|by apply explained_unknown|by apply explained_payload|].
  destruct (Hs _ _ Ht) as (t' & Ht' & _ & Heq). rewrite (Heq o eq_refl) in Ht'.
  eapply explained_call; [done..| | |done|done].
  - by eapply prefix_lookup_Some.
  - by eapply lookup_weaken.
Qed.

(** ** Invariant *)

Record conn_ok (sys : services) (x : connection) : Prop := {
  co_inv : ∃ r, Server.inv oracle_router r (c_state x);
  co_world : Server.world (c_state x) = [];
  co_frames : frames_ok (c_state x);
  co_content : content (explained sys x) (c_state x);
  co_calls : ∀ i j, c_calls x !! i = Some j → ∃ f req q t,
    routed_frames (c_state x) !! i = Some f ∧ Unmarshal f = Ok req ∧
    decode_req req = Some (Ok q) ∧ Interleaving.s_tasks sys !! j = Some t ∧ Interleaving.t_req t = q;
}.

Lemma conn_ok_sys sys sys' x : sys_le sys sys' → conn_ok sys x → conn_ok sys' x.
Proof.
  intros Hs [Hi Hw Hf Hc Hca]. split; try done.
  - eapply content_mono; [|exact Hc]. intros f resp. apply explained_mono; [done|reflexivity..].
  - intros i j Hij. destruct (Hca i j Hij) as (f & req & q & t & ? & ? & ? & Ht & ?).
    destruct (Hs _ _ Ht) as (t' & Ht' & Hr & _). exists f, req, q, t'. split_and!; try done. congruence.
Qed.

(** A new state of the connection. *)
Lemma conn_ok_state sys x s' :
  conn_ok sys x → (∃ r, Server.inv oracle_router r s') → Server.world s' = [] → frames_ok s' →
  routed_frames (c_state x) `prefix_of` routed_frames s' → content (explained sys x) s' →
  conn_ok sys (set_state s' x).
Proof.
  intros [_ _ _ _ Hca] Hi Hw Hf Hp Hc. split; try done.
  - eapply content_mono; [|exact Hc]. intros f resp. apply explained_mono; [apply sys_le_refl|done|reflexivity].
  - intros i j Hij. destruct (Hca i j Hij) as (f & req & q & t & Hfr & ? & ? & ? & ?).
    exists f, req, q, t. split_and!; try done. by eapply prefix_lookup_Some.
Qed.

Lemma routed_prefix s s' :
  Server.received s `prefix_of` Server.received s' → routed_frames s `prefix_of` routed_frames s'.
Proof. intros [l E]. unfold routed_frames. rewrite E, filter_app. by eexists. Qed.

Lemma conn_ok_local sys x s' :
  conn_ok sys x → Server.step oracle_router (c_state x) s' → conn_ok sys (set_state s' x).
Proof.
  intros Hok Hs. pose proof Hok as [[r Hi] Hw Hf Hc _].
  destruct (local_frames _ _ (Server.inv_content_of _ _ _ Hi) Hw Hf Hs) as [Hf' Hp].
  destruct (local_content (explained sys x) _ _ (explained_bad sys x) (explained_unknown sys x)
    (Server.inv_content_of _ _ _ Hi) Hw Hc Hs) as [Hc' Hw'].
  apply conn_ok_state; try done; [|by apply routed_prefix]. exists r. by eapply Server.inv_step.
Qed.

Lemma inv_set_world r s w :
  Server.inv oracle_router r s → Server.inv oracle_router r (Server.set_world w s).
Proof. by intros []. Qed.

Lemma set_world_nil (s : Server.state (W := oracle)) : Server.world s = [] → Server.set_world [] s = s.
Proof. destruct s; simpl. by intros ->. Qed.

(** The return of a handler is a step of the connection with this result. *)
Lemma finish_step s i f req o s' :
  Server.inv_content oracle_router s → Server.world s = [] →
  Server.tasks s !! i = Some (Server.TRun f req oracle_handler) → finish i f req o s = Some s' →
  Server.step oracle_router (Server.set_world [o] s) s'.
Proof.
  intros Hi Hw Ht Hfin.
  destruct o as [b|e|p|]; simpl in Hfin; simplify_eq.
  - refine (eq_ind _ (λ t, Server.step _ _ (Server.set_task i _ (Server.writeMu s) t)) _ _ (set_world_nil s Hw)).
    exact (Server.step_handler oracle_router (Server.set_world [Return b] s) i f req
      oracle_handler [] (Return b) _ Ht eq_refl eq_refl).
  - refine (eq_ind _ (λ t, Server.step _ _ (Server.set_task i _ (Server.writeMu s) t)) _ _ (set_world_nil s Hw)).
    exact (Server.step_handler oracle_router (Server.set_world [Fail e] s) i f req
      oracle_handler [] (Fail e) _ Ht eq_refl eq_refl).
  - refine (eq_ind _ (λ t, Server.step _ _ (Server.dropped f (Server.set_task i _ (Server.writeMu s) t)))
      _ _ (set_world_nil s Hw)).
    exact (Server.step_handler_panic oracle_router (Server.set_world [Panic p] s) i f req
      oracle_handler [] p Ht eq_refl).
Qed.

Lemma conn_ok_finish sys x i f req h o s' :
  conn_ok sys x → Server.tasks (c_state x) !! i = Some (Server.TRun f req h) →
  finish i f req o (c_state x) = Some s' →
  (∀ resp, Server.handler_response req o = Some resp → explained sys x f resp) →
  conn_ok sys (set_state s' x).
Proof.
  intros Hok Ht Hfin Hex. pose proof Hok as [[r Hi] Hw Hf [Hm Hts Ha] _].
  destruct (oracle_task _ _ _ _ _ (Server.inv_content_of _ _ _ Hi) Ht) as (_ & -> & _).
  pose proof (finish_step _ _ _ _ _ _ (Server.inv_content_of _ _ _ Hi) Hw Ht Hfin) as Hstep.
  assert (Hs' : ∃ pc, Server.received s' = Server.received (c_state x) ∧
    Server.tasks s' = <[i := pc]> (Server.tasks (c_state x)) ∧
    Server.main s' = Server.main (c_state x) ∧ Server.answered s' = Server.answered (c_state x) ∧
    Server.world s' = [] ∧ (∀ g, Server.task_frame pc = Some g → g = f) ∧
    (∀ g resp, task_resp pc = Some (g, resp) → explained sys x g resp)).
  { destruct o as [b|e|p|]; simpl in Hfin; simplify_eq; eexists; (split_and!; [reflexivity..|exact Hw| |]);
      simpl; intros; simplify_eq; eauto. }
  destruct Hs' as (pc & Er & Et & Em & Ean & Ew & Hfr & Hre).
  apply conn_ok_state; try done.
  - exists r. eapply Server.inv_step; [|exact Hstep]. by apply inv_set_world.
  - eapply (frames_ok_insert (c_state x)); [done..|]. intros g Hg. apply Hfr in Hg as ->. done.
  - apply routed_prefix. by rewrite Er.
  - split; rewrite ?Em, ?Et, ?Ean; try done. by apply Forall_insert.
Qed.

(** ** Schedules *)

Inductive choice : Type :=
| Accept (r : reader)
| Local (c : nat) (ch : Server.choice)
| Invoke (c i : nat)
| Operate (j : nat)
| ReturnFrom (c i : nat).

(** The goroutine [i] of a connection, if it is in its handler. *)
Definition running (c i : nat) (P : process) : option (connection * bytes * RpcRequest) :=
  match p_conns P !! c with
  | Some x =>
    match Server.tasks (c_state x) !! i with
    | Some (Server.TRun f req _) => Some (x, f, req)
    | _ => None
    end
  | None => None
  end.

Definition pexec (a : choice) (P : process) : option process :=
  match a with
  | Accept r =>
    Some {| p_conns := p_conns P ++ [{| c_state := Server.accepted r []; c_calls := ∅ |}];
            p_sys := p_sys P |}
  | Local c ch =>
    x ← p_conns P !! c; s' ← Server.exec oracle_router ch (c_state x);
    Some (with_conn c (set_state s' x) P)
  | Invoke c i =>
    '(x, f, req) ← running c i P;
    match c_calls x !! i, decode_req req with
    | None, Some (Err e) =>
      s' ← finish i f req (Fail e) (c_state x); Some (with_conn c (set_state s' x) P)
    | None, Some (Ok q) =>
      Some {| p_conns := <[c := {| c_state := c_state x;
                c_calls := <[i := length (Interleaving.s_tasks (p_sys P))]> (c_calls x) |}]> (p_conns P);
              p_sys := Interleaving.arrive fuel pool gs q (p_sys P) |}
    | _, _ => None
    end
  | Operate j => sys' ← Interleaving.advance j (p_sys P); Some {| p_conns := p_conns P; p_sys := sys' |}
  | ReturnFrom c i =>
    '(x, f, req) ← running c i P; j ← c_calls x !! i;
    match Interleaving.s_tasks (p_sys P) !! j with
    | Some {| Interleaving.t_prog := Interleaving.Ret o |} =>
      s' ← finish i f req (encode o) (c_state x); Some (with_conn c (set_state s' x) P)
    | _ => None
    end
  end.

Lemma running_Some c i P x f req :
  running c i P = Some (x, f, req) →
  p_conns P !! c = Some x ∧ ∃ h, Server.tasks (c_state x) !! i = Some (Server.TRun f req h).
Proof.
  unfold running. destruct (p_conns P !! c) as [y|]; [|done].
  destruct (Server.tasks (c_state y) !! i) as [[]|] eqn:E; try done. intros [= -> -> ->]. eauto.
Qed.

Lemma pexec_sound a P P' : pexec a P = Some P' → pstep P P'.
Proof.
  destruct a as [r|c ch|c i|j|c i]; simpl; intros H.
  - simplify_eq. constructor.
  - destruct (p_conns P !! c) as [x|] eqn:Ec; [|done]. simpl in H.
    destruct (Server.exec oracle_router ch (c_state x)) as [s'|] eqn:E; [|done]. simplify_eq/=.
    eapply step_local; [done|]. by eapply Server.exec_sound.
  - destruct (running c i P) as [[[x f] req]|] eqn:E; [|done]. simpl in H.
    apply running_Some in E as (Hc & h & Ht).
    destruct (c_calls x !! i) eqn:Ei; [done|]. destruct (decode_req req) as [[q|e]|] eqn:Ed; [| |done].
    + simplify_eq. by eapply step_invoke.
    + destruct (finish i f req (Fail e) (c_state x)) eqn:Ef; [|done]. simplify_eq/=. by eapply step_refuse.
  - destruct (Interleaving.advance j (p_sys P)) as [sys'|] eqn:E; [|done]. simplify_eq/=.
    by eapply step_operate.
  - destruct (running c i P) as [[[x f] req]|] eqn:E; [|done]. simpl in H.
    apply running_Some in E as (Hc & h & Ht).
    destruct (c_calls x !! i) as [j|] eqn:Ei; [|done]. simpl in H.
    destruct (Interleaving.s_tasks (p_sys P) !! j) as [[q [o|]]|] eqn:Ej; try done.
    destruct (finish i f req (encode o) (c_state x)) eqn:Ef; [|done]. simplify_eq/=. by eapply step_return.
Qed.

Definition pexec_all (cs : list choice) (P : process) : option process :=
  foldl (λ o c, o ≫= pexec c) (Some P) cs.

Lemma pexec_all_sound cs : ∀ P P', pexec_all cs P = Some P' → rtc pstep P P'.
Proof.
  induction cs as [|c cs IH] using rev_ind; intros P P' H.
  { injection H as <-. done. }
  unfold pexec_all in *. rewrite foldl_app in H. simpl in H.
  destruct (foldl _ (Some P) cs) as [P1|] eqn:E; [|done]. simpl in H.
  eapply rtc_r; [by apply IH|]. by eapply pexec_sound.
Qed.

(** ** Reachable processes *)

Record proc_ok (w0 : world DB) (P : process) : Prop := {
  po_sys : rtc (Interleaving.step fuel pool gs) (Interleaving.idle w0) (p_sys P);
  po_conns : Forall (conn_ok (p_sys P)) (p_conns P);
  po_inj : ∀ c c' x x' i i' j, p_conns P !! c = Some x → p_conns P !! c' = Some x' →
    c_calls x !! i = Some j → c_calls x' !! i' = Some j → c = c' ∧ i = i';
  po_all : ∀ j, (j < length (Interleaving.s_tasks (p_sys P)))%nat →
    ∃ c x i, p_conns P !! c = Some x ∧ c_calls x !! i = Some j;
}.

(** A connection changes its state and keeps its calls. *)
Lemma proc_ok_state w0 P c x s' :
  proc_ok w0 P → p_conns P !! c = Some x → conn_ok (p_sys P) (set_state s' x) →
  proc_ok w0 (with_conn c (set_state s' x) P).
Proof.
  intros [Hs Hc Hi Ha] Hx Hok.
  assert (Hl : ∀ c' y, <[c := set_state s' x]> (p_conns P) !! c' = Some y →
    ∃ y0, p_conns P !! c' = Some y0 ∧ c_calls y = c_calls y0).
  { intros c' y [(<- & <- & _)|[_ H]]%list_lookup_insert_Some; eauto. }
  split; simpl; try done.
  - by apply Forall_insert.
  - intros c1 c2 x1 x2 i1 i2 j H1 H2 E1 E2.
    destruct (Hl _ _ H1) as (y1 & G1 & F1), (Hl _ _ H2) as (y2 & G2 & F2).
    rewrite F1 in E1. rewrite F2 in E2. by eapply Hi.
  - intros j Hj. destruct (Ha j Hj) as (c1 & x1 & i & H1 & E1).
    destruct (decide (c = c1)) as [->|Hne].
    + exists c1, (set_state s' x), i. rewrite Hx in H1. simplify_eq. split; [|done].
      apply list_lookup_insert_eq. by eapply lookup_lt_Some.
    + exists c1, x1, i. by rewrite list_lookup_insert_ne.
Qed.

Lemma call_below w0 P c x i j :
  proc_ok w0 P → p_conns P !! c = Some x → c_calls x !! i = Some j →
  (j < length (Interleaving.s_tasks (p_sys P)))%nat.
Proof.
  intros [_ Hc _ _] Hx Hj. eapply Forall_lookup_1 in Hc; [|exact Hx].
  destruct (co_calls _ _ Hc i j Hj) as (? & ? & ? & t & _ & _ & _ & Ht & _). by eapply lookup_lt_Some.
Qed.

Lemma conn_ok_invoke sys x i f req h q :
  conn_ok sys x → Server.tasks (c_state x) !! i = Some (Server.TRun f req h) →
  c_calls x !! i = None → decode_req req = Some (Ok q) →
  conn_ok (Interleaving.arrive fuel pool gs q sys)
    {| c_state := c_state x; c_calls := <[i := length (Interleaving.s_tasks sys)]> (c_calls x) |}.
Proof.
  intros Hok Ht Hn Hd. apply (conn_ok_sys _ _ _ (sys_le_arrive q sys)) in Hok as [[r Hi] Hw Hf Hc Hca].
  split; simpl; try done; [by exists r| |].
  - eapply content_mono; [|exact Hc]. intros g resp.
    apply explained_mono; [apply sys_le_refl|reflexivity|by apply insert_subseteq].
  - intros i' j [[<- <-]|[_ Hj]]%lookup_insert_Some; [|by apply Hca].
    destruct (oracle_task _ _ _ _ _ (Server.inv_content_of _ _ _ Hi) Ht) as (Hu & _ & _).
    exists f, req, q, {| Interleaving.t_req := q; Interleaving.t_prog := Interleaving.start fuel pool gs q |}.
    split_and!; try done; [by eapply frames_task|]. by apply list_lookup_middle.
Qed.

Lemma proc_ok_invoke w0 P c x i f req h q :
  proc_ok w0 P → p_conns P !! c = Some x →
  Server.tasks (c_state x) !! i = Some (Server.TRun f req h) →
  c_calls x !! i = None → decode_req req = Some (Ok q) →
  proc_ok w0
    {| p_conns := <[c := {| c_state := c_state x;
                            c_calls := <[i := length (Interleaving.s_tasks (p_sys P))]> (c_calls x) |}]>
                    (p_conns P);
       p_sys := Interleaving.arrive fuel pool gs q (p_sys P) |}.
Proof.
  intros Hok Hx Ht Hn Hd. set (n := length (Interleaving.s_tasks (p_sys P))).
  set (x' := {| c_state := c_state x; c_calls := <[i := n]> (c_calls x) |}).
  pose proof (λ c x i j, call_below w0 P c x i j Hok) as Hb. pose proof Hok as [Hs Hc Hi Ha].
  assert (Hl : ∀ c' y k j, <[c := x']> (p_conns P) !! c' = Some y → c_calls y !! k = Some j →
    (c' = c ∧ k = i ∧ j = n) ∨ (∃ y0, p_conns P !! c' = Some y0 ∧ c_calls y0 !! k = Some j ∧ (j < n)%nat)).
  { intros c' y k j [(<- & <- & _)|[_ H]]%list_lookup_insert_Some Hk.
    - simpl in Hk. apply lookup_insert_Some in Hk as [[<- <-]|[_ Hk]]; [by left|]. right. eauto 10.
    - right. eauto 10. }
  split; simpl.
  - eapply rtc_r; [exact Hs|]. constructor.
  - apply Forall_insert.
    + eapply Forall_impl; [exact Hc|]. intros y. apply conn_ok_sys, sys_le_arrive.
    + eapply Forall_lookup_1 in Hc; [|exact Hx]. by eapply conn_ok_invoke.
  - intros c1 c2 x1 x2 i1 i2 j H1 H2 E1 E2.
    destruct (Hl _ _ _ _ H1 E1) as [(-> & -> & ->)|(y1 & G1 & F1 & B1)],
      (Hl _ _ _ _ H2 E2) as [(-> & -> & Ej)|(y2 & G2 & F2 & B2)]; [done|lia|lia|by eapply Hi].
  - rewrite length_app. simpl. intros j Hj. destruct (decide (j = n)) as [->|Hne].
    + exists c, x', i. split; [|apply lookup_insert_eq].
      apply list_lookup_insert_eq. by eapply lookup_lt_Some.
    + destruct (Ha j) as (c1 & x1 & i1 & H1 & E1); [unfold n in *; lia|].
      destruct (decide (c = c1)) as [->|Hne1].
      * exists c1, x', i1. rewrite Hx in H1. simplify_eq. split.
        -- apply list_lookup_insert_eq. by eapply lookup_lt_Some.
        -- simpl. rewrite lookup_insert_ne; [done|]. intros ->. congruence.
      * exists c1, x1, i1. by rewrite list_lookup_insert_ne.
Qed.

Lemma accepted_ok sys r : conn_ok sys {| c_state := Server.accepted r []; c_calls := ∅ |}.
Proof.
  split; simpl; try done. exists r. apply Server.inv_accepted.
Qed.

Lemma proc_ok_step w0 P P' : proc_ok w0 P → pstep P P' → proc_ok w0 P'.
Proof.
  intros Hok Hstep.
  assert (Hx : ∀ c x, p_conns P !! c = Some x → conn_ok (p_sys P) x).
  { intros c x Hc. destruct Hok as [_ H _ _]. by eapply Forall_lookup_1 in H. }
  destruct Hstep as [P r|P c x s' Hc Hs|P c x i f req h e s' Hc Ht Hn Hd Hfin|P c x i f req h q Hc Ht Hn Hd
    |P j sys' Hadv|P c x i f req h j q o s' Hc Ht Hj Htask Hfin].
  - destruct Hok as [Hs Hcs Hi Ha]. split; simpl; try done.
    + apply Forall_app. split; [done|]. constructor; [|constructor]. apply accepted_ok.
    + assert (Hl : ∀ c y i j, (p_conns P ++ [{| c_state := Server.accepted r []; c_calls := ∅ |}]) !! c = Some y →
        c_calls y !! i = Some j → p_conns P !! c = Some y).
      { intros c y i j [H|[_ H]]%lookup_app_Some Hj; [done|].
        destruct (c - length (p_conns P))%nat; simplify_eq/=. }
      intros c1 c2 x1 x2 i1 i2 j H1 H2 E1 E2. eapply Hi; eauto.
    + intros j Hj. destruct (Ha j Hj) as (c & x & i & ? & ?). exists c, x, i.
      split; [by apply lookup_app_l_Some|done].
  - apply proc_ok_state; [done..|]. apply conn_ok_local; eauto.
  - apply proc_ok_state; [done..|]. eapply conn_ok_finish; [by eauto|done..|].
    intros resp [= <-]. destruct (Hx c x Hc) as [[r Hi] _ _ _ _].
    destruct (oracle_task _ _ _ _ _ (Server.inv_content_of _ _ _ Hi) Ht) as (Hu & _ & _).
    by apply explained_payload.
  - by eapply proc_ok_invoke.
  - destruct Hok as [Hs Hcs Hi Ha]. apply sys_le_advance in Hadv as Hle. split; simpl; try done.
    + eapply rtc_r; [exact Hs|]. by eapply Interleaving.step_advance.
    + eapply Forall_impl; [exact Hcs|]. intros y. by apply conn_ok_sys.
    + apply Interleaving.advance_inv in Hadv as (? & ? & ? & ? & ? & _ & _ & ->). simpl.
      by rewrite length_insert.
  - apply proc_ok_state; [done..|]. eapply conn_ok_finish; [by eauto|done..|].
    intros resp Hresp. destruct (Hx c x Hc) as [[r Hi] _ Hfr _ Hca].
    destruct (oracle_task _ _ _ _ _ (Server.inv_content_of _ _ _ Hi) Ht) as (Hu & _ & _).
    destruct (Hca i j Hj) as (f' & req' & q' & t & Hf & Hu' & Hd & Ht' & Hq).
    assert (Ef : routed_frames (c_state x) !! i = Some f) by (by eapply frames_task).
    rewrite Ef in Hf. rewrite Htask in Ht'. simplify_eq/=.
    rewrite Hu in Hu'. simplify_eq. by eapply explained_call.
Qed.

Lemma proc_ok_reachable w0 P : rtc pstep (boot w0) P → proc_ok w0 P.
Proof.
  assert (H0 : proc_ok w0 (boot w0)).
  { split; simpl; [done|constructor|done|lia]. }
  revert H0. generalize (boot w0). intros P0 H0 Hr. induction Hr; eauto using proc_ok_step.
Qed.

(** ** Properties *)

(** C2: the whole server.  A handler of [main] decodes the payload, runs the method and
    encodes its result, and the program of a method, run alone, is the method.  Any
    number of connections are accepted, read and answered while the statements and random outputs of all requests interleave in any order.
    On every connection the bytes sent are the frames of the answers followed by at most
    a part of one more; the frames read are those answered, given up and in work; every
    answer decodes to the response that is right for its frame: an error of the framework,
    or the marshalled result of an execution of the method for that frame.  Executions
    and requests correspond: each execution belongs to exactly one goroutine of one
    connection and has the request of the frame that started it, so no request is
    executed twice.  The tables grow by what the executions stored, ids stay unique, and
    each execution that ended did to the tables what its result says. *)
Theorem process_serves (bound : Z) (w0 : world DB) (P : process) :
  (∀ p, Rand.src (w_rng w0) p mod 2 ^ 63 < bound) → User.ids_unique w0 → rtc pstep (boot w0) P →
  let sys := p_sys P in
  let db := w_db (Interleaving.s_world sys) in
  handlers_of_main ∧ (∀ q w, Interleaving.agrees (Interleaving.run (Interleaving.start fuel pool gs q) w)
                               (Interleaving.method_of fuel pool gs q w)) ∧
  (∀ c x, p_conns P !! c = Some x →
     let s := c_state x in
     (∃ tail, sent (Server.conn s) =
        mjoin (frame <$> (Server.answer_data <$> Server.answered s)) ++ tail ∧
        Server.tail_ok oracle_router s tail) ∧
     Server.received s ≡ₚ
       (Server.answer_frame <$> Server.answered s) ++ Server.unanswered s ++ Server.pending s ∧
     Forall (λ '(f, resp, data), Unmarshal data = Ok resp ∧ explained sys x f resp) (Server.answered s)) ∧
  (∀ j t, Interleaving.s_tasks sys !! j = Some t →
     ∃ c x i f req, p_conns P !! c = Some x ∧ c_calls x !! i = Some j ∧
       routed_frames (c_state x) !! i = Some f ∧ Unmarshal f = Ok req ∧
       decode_req req = Some (Ok (Interleaving.t_req t))) ∧
  (∀ c c' x x' i i' j, p_conns P !! c = Some x → p_conns P !! c' = Some x' →
     c_calls x !! i = Some j → c_calls x' !! i' = Some j → c = c' ∧ i = i') ∧
  Db.cards db = Db.cards (w_db w0) ++ Interleaving.stored_rows (Interleaving.s_log sys).*2 ∧
  Db.users (w_db w0) ⊆ Db.users db ∧ User.ids_unique (Interleaving.s_world sys) ∧
  (∀ j q o, Interleaving.s_tasks sys !! j = Some (finished_as q o) →
     let es := Interleaving.effects_of j (Interleaving.s_log sys) in
     Interleaving.settled fuel pool bound q es o ∧ Forall (Interleaving.present (Db.users db)) es).
Proof.
  intros Hsrc Hids Hr sys db. destruct (proc_ok_reachable w0 P Hr) as [Hs Hc Hi Ha].
  destruct (Interleaving.sys_ok_reachable fuel pool gs bound w0 sys Hsrc Hids Hs)
    as [_ Hcards _ Hgrow Hid _ _ Hpres _ Htasks].
  split_and!; try done; [apply handlers_decode|intros q w; apply Interleaving.run_start|..].
  - intros c x Hx s. eapply Forall_lookup_1 in Hc; [|exact Hx].
    destruct Hc as [[r Hinv] _ _ [_ _ Hans] _].
    destruct (Server.inv_accounted _ _ _ Hinv) as (_ & Hperm & Hok & _).
    split_and!; [by destruct (Server.inv_framed _ _ _ Hinv)|done|].
    rewrite Forall_forall in *. intros [[f resp] data] Hin. split.
    + by destruct (Hok _ Hin).
    + exact (Hans _ Hin).
  - intros j t Hj. destruct (Ha j (lookup_lt_Some _ _ _ Hj)) as (c & x & i & Hx & Hij).
    eapply Forall_lookup_1 in Hc; [|exact Hx].
    destruct (co_calls _ _ Hc i j Hij) as (f & req & q & t' & Hf & Hu & Hd & Ht' & Hq).
    fold sys in Ht'. rewrite Hj in Ht'. simplify_eq. by exists c, x, i, f, req.
  - intros j q o Hj. split; [exact (Htasks _ _ Hj)|]. by apply Interleaving.present_effects.
Qed.

End process.

(** ** Two clients register the same name at the same time *)

Section demo.
Import Wire RefDb.

Definition demo_frame (id : string) (password : string) : bytes :=
  match Marshal (App.Build_RegisterRequest "bob" password) with
  | Ok payload =>
    match Marshal {| req_RequestId := id; req_Service := "UserService"; req_Method := "register";
                     req_Payload := payload |} with
    | Ok b => b
    | Err _ => []
    end
  | Err _ => []
  end.

(** Goroutine [0] of connection [c], from its handler to the end of its response. *)
Definition demo_schedule : list choice :=
  [Accept (Reader [frame (demo_frame "a" "1")] EOF); Accept (Reader [frame (demo_frame "b" "2")] EOF);
   Local 0 Server.CMain; Local 1 Server.CMain; Invoke 0 0; Invoke 1 0; Operate 1; Operate 0;
   ReturnFrom 0 0; ReturnFrom 1 0; Local 0 (Server.CTask 0); Local 0 (Server.CTask 0);
   Local 1 (Server.CTask 0); Local 1 (Server.CTask 0); Local 0 (Server.CTask 0); Local 1 (Server.CTask 0);
   Local 1 (Server.CTask 0); Local 0 (Server.CTask 0)].

Definition demo_process : option (process (DB := ref_db)) :=
  pexec_all 1 ∅ "host" Config.defaultConfig demo_schedule (boot User.demo_world).

(** The responses sent on the two connections. *)
Example demo_answers :
  (λ P, (λ x, (λ a, (resp_RequestId a.1.2, Unmarshal (resp_Payload a.1.2) : result string App.RegisterResponse)) <$>
    Server.answered (c_state x)) <$> p_conns P) <$> demo_process =
  Some [[("a", Ok (App.Build_RegisterResponse 0
                   "注册失败: pq: duplicate key value violates unique constraint"))];
        [("b", Ok (App.Build_RegisterResponse 2 "注册成功! user_id=2"))]].
Proof. vm_compute. reflexivity. Qed.

Lemma process_serves_witness :
  ∃ P, demo_process = Some P ∧ length (p_conns P) = 2%nat ∧
    ∀ c c' x x' i i' j, p_conns P !! c = Some x → p_conns P !! c' = Some x' →
      c_calls x !! i = Some j → c_calls x' !! i' = Some j → c = c' ∧ i = i'.
Proof.
  destruct demo_process as [P|] eqn:E; [|vm_compute in E; discriminate E].
  exists P. split; [reflexivity|]. split.
  { vm_compute in E. injection E as <-. reflexivity. }
  refine (proj1 (proj2 (proj2 (proj2 (proj2 (process_serves 1 ∅ "host" Config.defaultConfig (2 ^ 62)
    User.demo_world P _ _ _)))))).
  - intros p. vm_compute. reflexivity.
  - intros n m r1 r2 H. vm_compute in H. discriminate H.
  - eapply pexec_all_sound. exact E.
Defined.

End demo.
End Process.
