(* ===== verification/ProcessRest.v ===== *)
(** * The server process between inputs

    What the process of [Process.v] does on its own: the steps that wait for nothing from
    outside.  A connection to accept, a frame (or the end of the stream) to read and a
    failure of the network are inputs; everything else, locking, marshalling and writing
    responses, running handlers and their statements, is the server's own work.  This
    work ends, whatever the scheduling, and when it has ended every frame that was read on
    a connection that still works has been answered. *)

From S2P Require Import Prelude Codec GoLib Pb Router Handler Wire Db Rand Gacha User Interleaving.
From S2P Require Import Server Config Main Process.

Module ProcessRest.
Import Io Codec Rpc Handler Gacha Process.

Section rest.
Context {DB : Type} {database : Db.Database DB}.
Context `{!Message RpcRequest} `{!Message RpcResponse}.
Context `{!Message App.RegisterRequest, !Message App.RegisterResponse,
          !Message App.LoginRequest, !Message App.LoginResponse,
          !Message App.LogoutRequest, !Message App.LogoutResponse,
          !Message App.DrawRequest, !Message App.DrawResponse}.
Context (fuel : nat) (pool : gmap Z (list string)) (hostname : string) (cfg : Config.Config).

Abbreviation router := (oracle_router (DB := DB) fuel pool hostname cfg).
Abbreviation pexec := (pexec (DB := DB) fuel pool hostname cfg).
Abbreviation pstep := (pstep (DB := DB) fuel pool hostname cfg).
Abbreviation proc_ok := (proc_ok (DB := DB) fuel pool hostname cfg).
Abbreviation conn_ok := (conn_ok (DB := DB) fuel pool hostname cfg).
Abbreviation services := (Interleaving.sys (DB := DB)).
Abbreviation finished_as q o :=
  {| Interleaving.t_req := q; Interleaving.t_prog := Interleaving.Ret o |}.
Abbreviation cstate := (Server.state (W := oracle)).

(** ** Inputs and work *)

Definition conn_input (ch : Server.choice) (s : cstate) : bool :=
  match ch with
  | Server.CMain => match Server.main s with Server.MReading => true | _ => false end
  | Server.CTask _ => false
  | Server.CNetwork _ _ => true
  end.

Definition is_input (a : choice) (P : process (DB := DB)) : bool :=
  match a with
  | Accept _ => true
  | Local c ch => match p_conns P !! c with Some x => conn_input ch (c_state x) | None => false end
  | Invoke _ _ | Operate _ | ReturnFrom _ _ => false
  end.

(** A step that the process takes on its own. *)
Definition works (P P' : process (DB := DB)) : Prop := ∃ a, is_input a P = false ∧ pexec a P = Some P'.

Definition at_rest (P : process (DB := DB)) : Prop := ∀ P', ¬ works P P'.

Lemma works_step P P' : works P P' → pstep P P'.
Proof. intros (a & _ & E). by eapply pexec_sound. Qed.

(** ** Work is bounded *)

Abbreviation K := (Interleaving.max_cost fuel).

(** What is left for the goroutines of a connection. *)
Definition duties (s : cstate) : nat := Server.main_weight (Server.main s) + Server.tasks_weight (Server.tasks s).

(** ... and for the handlers that have not called their method. *)
Definition conn_work (x : connection) : nat :=
  duties (c_state x) + S K * (length (Server.tasks (c_state x)) - size (c_calls x)).

(** An upper bound on the work of the process. *)
Definition work (P : process (DB := DB)) : nat :=
  sum_list_with conn_work (p_conns P) + K * length (Interleaving.s_tasks (p_sys P)).

Lemma duties_exec ch s s' :
  Server.exec router ch s = Some s' → conn_input ch s = false →
  (duties s' < duties s)%nat ∧ length (Server.tasks s') = length (Server.tasks s).
Proof.
  unfold duties. destruct ch as [|i|n e]; simpl; [| |done].
  - unfold Server.exec_main. intros H Hin. case_all; lia.
  - unfold Server.exec_task. intros H _.
    destruct (Server.tasks s !! i) as [pc|] eqn:Ei; [|done].
    pose proof (λ pc', Server.tasks_weight_insert _ _ _ pc' Ei) as Hw.
    destruct pc; case_all; try (apply fmap_Some in H as (? & _ & ->)); simplify_eq/=;
      rewrite ?length_insert; (split; [|done]);
      match goal with |- context [<[i := ?pc']> _] => specialize (Hw pc'); simpl in Hw; lia end.
Qed.

Lemma duties_finish i f req h o s s' :
  Server.tasks s !! i = Some (Server.TRun f req h) → finish i f req o s = Some s' →
  (duties s' < duties s)%nat ∧ length (Server.tasks s') = length (Server.tasks s).
Proof.
  intros Ei H. unfold duties.
  destruct o; simpl in H; simplify_eq/=; rewrite length_insert; (split; [|done]);
    match goal with |- context [<[i := ?pc']> _] =>
      pose proof (Server.tasks_weight_insert _ _ _ pc' Ei) as Hw; simpl in Hw; lia end.
Qed.

(** A connection has called at most one method for each goroutine. *)
Lemma calls_size sys x : conn_ok sys x → (size (c_calls x) ≤ length (Server.tasks (c_state x)))%nat.
Proof.
  intros [_ _ [Hl _] _ Hca]. rewrite <- size_dom.
  rewrite <- (size_set_seq (C := gset nat) 0 (length (Server.tasks (c_state x)))).
  apply subseteq_size. intros i [j Hij]%elem_of_dom. apply elem_of_set_seq.
  destruct (Hca i j Hij) as (f & _ & _ & _ & Hf & _). apply lookup_lt_Some in Hf. lia.
Qed.

Lemma conns_work_insert (P : process (DB := DB)) c x y :
  p_conns P !! c = Some x → (conn_work y < conn_work x)%nat →
  (sum_list_with conn_work (<[c := y]> (p_conns P)) < sum_list_with conn_work (p_conns P))%nat.
Proof. intros Hc Hlt. pose proof (sum_list_with_insert conn_work _ _ _ y Hc). lia. Qed.

(** A goroutine that does its duty. *)
Lemma conn_work_state s' x :
  (duties s' < duties (c_state x))%nat → length (Server.tasks s') = length (Server.tasks (c_state x)) →
  (conn_work (set_state s' x) < conn_work x)%nat.
Proof. intros Hd Hl. unfold conn_work, set_state. simpl. rewrite Hl. lia. Qed.

Definition budget (P : process (DB := DB)) (ns : list nat) : nat :=
  sum_list_with conn_work (p_conns P) + sum_list ns.

Abbreviation budgeted P ns := (Interleaving.budgeted (Interleaving.s_tasks (p_sys P)) ns).

Lemma works_budget w0 P P' ns :
  fuel ≠ 0%nat → proc_ok w0 P → works P P' → budgeted P ns →
  ∃ ns', budgeted P' ns' ∧ (budget P' ns' < budget P ns)%nat.
Proof.
  intros Hf Hok (a & Hin & E) Hb. unfold budget.
  assert (Hstate : ∀ c x s', p_conns P !! c = Some x →
    (duties s' < duties (c_state x))%nat ∧ length (Server.tasks s') = length (Server.tasks (c_state x)) →
    ∃ ns', budgeted (with_conn c (set_state s' x) P) ns' ∧
      (sum_list_with conn_work (p_conns (with_conn c (set_state s' x) P)) + sum_list ns' <
       sum_list_with conn_work (p_conns P) + sum_list ns)%nat).
  { intros c x s' Hc [Hd Hl]. exists ns. split; [done|].
    pose proof (conns_work_insert P c x _ Hc (conn_work_state s' x Hd Hl)). simpl. lia. }
  destruct a as [r|c ch|c i|j|c i]; simpl in Hin, E; [done|..].
  - destruct (p_conns P !! c) as [x|] eqn:Hc; [|done]. simpl in E.
    destruct (Server.exec _ ch (c_state x)) as [s'|] eqn:Es; [|done]. simplify_eq/=.
    apply Hstate; [done|]. by eapply duties_exec.
  - destruct (running c i P) as [[[x f] req]|] eqn:Er; [|done]. simpl in E.
    apply running_Some in Er as (Hc & h & Ht).
    destruct (c_calls x !! i) eqn:Ei; [done|]. destruct (decode_req req) as [[q|e]|] eqn:Ed; [| |done].
    + simplify_eq. exists (ns ++ [K]). split.
      * simpl. apply Forall2_app; [done|]. constructor; [|constructor]. by apply Interleaving.within_max.
      * pose proof (proj1 (Forall_lookup _ _) (po_conns _ _ _ _ _ _ Hok) _ _ Hc) as Hx.
        pose proof (calls_size _ _ (conn_ok_invoke fuel pool hostname cfg _ _ _ _ _ _ _ Hx Ht Ei Ed)) as Hsz.
        simpl in Hsz. rewrite map_size_insert_None in Hsz by done.
        match goal with |- context [<[c := ?y]> _] =>
          pose proof (sum_list_with_insert conn_work _ _ _ y Hc) as Hw end.
        unfold conn_work at 2 4 in Hw. simpl in *. rewrite map_size_insert_None in Hw by done.
        rewrite sum_list_with_app. simpl. nia.
    + simplify_eq/=. apply Hstate; [done|]. by eapply (duties_finish _ _ _ _ (Fail e)).
  - destruct (Interleaving.advance j (p_sys P)) as [sys'|] eqn:Ea; [|done]. simplify_eq/=.
    destruct (Interleaving.advance_budget (p_sys P) sys' ns) as (ns' & ? & ?); [by exists j|done|].
    exists ns'. split; [done|]. lia.
  - destruct (running c i P) as [[[x f] req]|] eqn:Er; [|done]. simpl in E.
    apply running_Some in Er as (Hc & h & Ht).
    destruct (c_calls x !! i) as [j|] eqn:Ei; [|done]. simpl in E.
    destruct (Interleaving.s_tasks (p_sys P) !! j) as [[q [o|]]|] eqn:Ej; try done.
    destruct (finish i f req (encode o) (c_state x)) as [s'|] eqn:Ef; [|done]. injection E as <-.
    apply Hstate; [done|]. by eapply duties_finish.
Qed.

Lemma works_ok w0 P P' : proc_ok w0 P → works P P' → proc_ok w0 P'.
Proof. intros Hok Hw%works_step. by eapply proc_ok_step. Qed.

Lemma works_bounded w0 n P P' ns :
  fuel ≠ 0%nat → nsteps works n P P' → proc_ok w0 P → budgeted P ns → (n ≤ budget P ns)%nat.
Proof.
  intros Hf Hn. revert ns. induction Hn as [|n P P1 P' Hw _ IH]; intros ns Hok Hb; [lia|].
  destruct (works_budget _ _ _ _ Hf Hok Hw Hb) as (ns' & Hb' & Hlt).
  specialize (IH ns' (works_ok _ _ _ Hok Hw) Hb'). lia.
Qed.

(** The bound of the budgets at a reachable process. *)
Lemma work_budgeted w0 P :
  fuel ≠ 0%nat → proc_ok w0 P → ∃ ns, budgeted P ns ∧ budget P ns = work P.
Proof.
  intros Hf [Hs _ _ _].
  eexists. split; [exact (Interleaving.reachable_within fuel pool _ (λ _, K) _ _
    (λ q, Interleaving.within_max fuel pool _ q Hf) Hs)|].
  unfold budget, work. f_equal. generalize K. intros k.
  induction (Interleaving.s_tasks (p_sys P)) as [|t ts IH]; csimpl; [lia|]. rewrite IH. lia.
Qed.

(** The methods called so far, and those that handlers have yet to call. *)
Definition calls_max (P : process (DB := DB)) : nat :=
  length (Interleaving.s_tasks (p_sys P)) +
  sum_list_with (λ x, length (Server.tasks (c_state x)) - size (c_calls x))%nat (p_conns P).

Lemma calls_max_state c x s' (P : process (DB := DB)) :
  p_conns P !! c = Some x → length (Server.tasks s') = length (Server.tasks (c_state x)) →
  calls_max (with_conn c (set_state s' x) P) = calls_max P.
Proof.
  intros Hc Hl. unfold calls_max. simpl.
  pose proof (sum_list_with_insert (λ x, length (Server.tasks (c_state x)) - size (c_calls x))%nat
    _ _ _ (set_state s' x) Hc) as Hw. simpl in Hw. rewrite Hl in Hw. lia.
Qed.

(** The server's own steps call no more. *)
Lemma works_calls w0 P P' : proc_ok w0 P → works P P' → calls_max P' = calls_max P.
Proof.
  intros Hok (a & Hin & E). destruct a as [r|c ch|c i|j|c i]; simpl in Hin, E; [done|..].
  - destruct (p_conns P !! c) as [x|] eqn:Hc; [|done]. simpl in E.
    destruct (Server.exec _ ch (c_state x)) as [s'|] eqn:Es; [|done]. injection E as <-.
    apply calls_max_state; [done|]. by eapply duties_exec.
  - destruct (running c i P) as [[[x f] req]|] eqn:Er; [|done]. simpl in E.
    apply running_Some in Er as (Hc & h & Ht).
    destruct (c_calls x !! i) eqn:Ei; [done|]. destruct (decode_req req) as [[q|e]|] eqn:Ed; [| |done].
    + pose proof (proj1 (Forall_lookup _ _) (po_conns _ _ _ _ _ _ Hok) _ _ Hc) as Hx.
      pose proof (calls_size _ _ (conn_ok_invoke fuel pool hostname cfg _ _ _ _ _ _ _ Hx Ht Ei Ed)) as Hsz.
      simplify_eq. unfold calls_max. simpl in *. rewrite map_size_insert_None in Hsz by done.
      match goal with |- context [<[c := ?y]> _] => pose proof (sum_list_with_insert
        (λ x, length (Server.tasks (c_state x)) - size (c_calls x))%nat _ _ _ y Hc) as Hw end.
      simpl in Hw. rewrite map_size_insert_None in Hw by done. rewrite length_app. simpl. lia.
    + simplify_eq/=. apply calls_max_state; [done|]. by eapply (duties_finish _ _ _ _ (Fail e)).
  - destruct (Interleaving.advance j (p_sys P)) as [sys'|] eqn:Ea; [|done]. simplify_eq/=.
    unfold calls_max. simpl. by rewrite (Interleaving.advances_length 1 (p_sys P) sys')
      by (apply nsteps_once; by exists j).
  - destruct (running c i P) as [[[x f] req]|] eqn:Er; [|done]. simpl in E.
    apply running_Some in Er as (Hc & h & Ht).
    destruct (c_calls x !! i) as [j|] eqn:Ei; [|done]. simpl in E.
    destruct (Interleaving.s_tasks (p_sys P) !! j) as [[q [o|]]|] eqn:Ej; try done.
    destruct (finish i f req (encode o) (c_state x)) as [s'|] eqn:Ef; [|done]. injection E as <-.
    apply calls_max_state; [done|]. by eapply duties_finish.
Qed.

Lemma works_reachable w0 P P' : rtc pstep (boot w0) P → rtc works P P' →
  rtc pstep (boot w0) P' ∧ calls_max P' = calls_max P.
Proof.
  intros Hr Hw. induction Hw as [|P P1 P' Hw _ IH]; [done|].
  pose proof (proc_ok_reachable fuel pool hostname cfg w0 P Hr) as Hok.
  destruct IH as [? Hc]; [by eapply rtc_r, works_step|]. split; [done|].
  rewrite Hc. by eapply works_calls.
Qed.

(** ** Without work, everything is answered *)

(** No goroutine of the connection has anything to do. *)
Definition idle_conn (s : cstate) : Prop :=
  (Server.main s = Server.MReading ∨ Server.main s = Server.MClosed) ∧
  Forall (λ t, t = Server.TDone) (Server.tasks s) ∧ Server.writeMu s = None.

Definition in_handler (t : Server.task_pc (W := oracle)) : Prop :=
  match t with Server.TRun _ _ _ => True | _ => False end.

Abbreviation can_step s := (∃ ch s', conn_input ch s = false ∧ Server.exec router ch s = Some s').

Lemma task_exec s i t :
  Server.writeMu s = None → Server.tasks s !! i = Some t →
  can_step s ∨ t = Server.TDone ∨ in_handler t.
Proof.
  intros Hmu Hi. destruct t as [f req h|f resp|f resp data|f resp data|f resp data|];
    [by right; right| | | | |by right; left];
    left; exists (Server.CTask i); simpl; unfold Server.exec_task; rewrite Hi, ?Hmu.
  - destruct (Marshal resp); eauto.
  - eauto.
  - destruct (Write (frame_header data) (Server.conn s)) as [[] ?]; eauto.
  - destruct (Write data (Server.conn s)) as [[] ?]; eauto.
Qed.

Lemma holder_exec s : Server.inv_mutex s → is_Some (Server.writeMu s) → can_step s.
Proof.
  intros [Hm Ht] [[|i] Emu]; [|specialize (Ht i); unfold Server.holds_at in Ht];
    rewrite Emu in *; rewrite bool_decide_true in * by done.
  - exists Server.CMain. simpl. unfold Server.exec_main.
    destruct (Server.main s) as [| |f resp|f resp data|f resp data|]; try done;
      [destruct (Marshal resp)|destruct (Write (frame_header data) (Server.conn s)) as [[] ?]
      |destruct (Write data (Server.conn s)) as [[] ?]]; eauto.
  - exists (Server.CTask i). simpl. unfold Server.exec_task.
    destruct (Server.tasks s !! i) as [[| | |f resp data|f resp data|]|]; try done;
      [destruct (Write (frame_header data) (Server.conn s)) as [[] ?]
      |destruct (Write data (Server.conn s)) as [[] ?]]; eauto.
Qed.

Lemma conn_exec s :
  Server.inv_mutex s →
  can_step s ∨
  ((Server.main s = Server.MReading ∨ Server.main s = Server.MClosed) ∧ Server.writeMu s = None ∧
   Forall (λ t, t = Server.TDone ∨ in_handler t) (Server.tasks s)).
Proof.
  intros Hmu. destruct (Server.writeMu s) eqn:Emu; [left; apply holder_exec; eauto|].
  destruct (Forall_or_lookup (λ t, t = Server.TDone ∨ in_handler t) (can_step s) (Server.tasks s))
    as [?|Hts]; [eauto using task_exec|by left|].
  destruct Hmu as [Hm _]. rewrite Emu in Hm.
  destruct (Server.main s) as [|f resp|f resp|f resp data|f resp data|] eqn:E; try done; [by auto| |by auto].
  left. exists Server.CMain. simpl. unfold Server.exec_main. rewrite E, Emu. eauto.
Qed.

(** Every execution that has ended was answered. *)
Definition all_answered (P : process (DB := DB)) : Prop := ∀ j q o,
  Interleaving.s_tasks (p_sys P) !! j = Some (finished_as q o) →
  (∃ r, o = Return r) ∨ (∃ e, o = Fail e).

Lemma finish_answered i f req o s :
  (∃ r, o = Return r) ∨ (∃ e, o = Fail e) → is_Some (finish i f req (encode o) s).
Proof. intros [[r ->]|[e ->]]; simpl; [destruct (marshal_reply r)|]; eauto. Qed.

Lemma operate_works P j q st k :
  Interleaving.s_tasks (p_sys P) !! j =
    Some {| Interleaving.t_req := q; Interleaving.t_prog := Interleaving.Do st k |} → ∃ P', works P P'.
Proof.
  intros Hj. destruct (Interleaving.exec st (Interleaving.s_world (p_sys P))) as [w r] eqn:Ex.
  eexists. exists (Operate j). split; [done|]. simpl. unfold Interleaving.advance. by rewrite Hj, Ex.
Qed.

Lemma handler_works w0 P c x i f req h :
  proc_ok w0 P → all_answered P → p_conns P !! c = Some x →
  Server.tasks (c_state x) !! i = Some (Server.TRun f req h) → ∃ P', works P P'.
Proof.
  intros Hok Hans Hc Hi. pose proof (proj1 (Forall_lookup _ _) (po_conns _ _ _ _ _ _ Hok) _ _ Hc) as Hx.
  assert (Hr : running c i P = Some (x, f, req)) by (unfold running; by rewrite Hc, Hi).
  destruct Hx as [[r Hinv] _ _ _ Hca].
  destruct (oracle_task fuel pool hostname cfg _ _ _ _ _ (Server.inv_content_of _ _ _ Hinv) Hi) as (_ & _ & [d Ed]).
  destruct (c_calls x !! i) as [j|] eqn:Ej.
  - destruct (Hca i j Ej) as (_ & _ & q & [q' [o|st k]] & _ & _ & _ & Ht & Eq).
    + destruct (finish_answered i f req o (c_state x) (Hans _ _ _ Ht)) as [s' Es].
      eexists. exists (ReturnFrom c i). split; [done|]. simpl. rewrite Hr. simpl. rewrite Ej. simpl.
      rewrite Ht, Es. done.
    + by eapply operate_works.
  - destruct d as [q|e]; eexists; exists (Invoke c i); (split; [done|]); simpl; rewrite Hr; simpl;
      rewrite Ej, Ed; done.
Qed.

Lemma works_or_idle w0 P :
  proc_ok w0 P → all_answered P →
  (∃ P', works P P') ∨
  (Forall (λ t, ∃ o, Interleaving.t_prog t = Interleaving.Ret o) (Interleaving.s_tasks (p_sys P)) ∧
   Forall (λ x, idle_conn (c_state x)) (p_conns P)).
Proof.
  intros Hok Hans.
  destruct (Forall_or_lookup (λ t, ∃ o, Interleaving.t_prog t = Interleaving.Ret o) (∃ P', works P P')
    (Interleaving.s_tasks (p_sys P))) as [?|Hts]; [|by left|].
  { intros j [q [o|st k]] Hj; [eauto|]. left. by eapply operate_works. }
  destruct (Forall_or_lookup (λ x, idle_conn (c_state x)) (∃ P', works P P') (p_conns P))
    as [?|?]; [|by left|by right].
  intros c x Hc. pose proof (proj1 (Forall_lookup _ _) (po_conns _ _ _ _ _ _ Hok) _ _ Hc) as Hx.
  destruct Hx as [[r Hinv] _ _ _ _].
  destruct (conn_exec _ (Server.inv_mutex_of _ _ _ Hinv)) as [(ch & s' & Hch & Es)|(Hm & Hmu & Ht)].
  - left. eexists. exists (Local c ch). simpl. rewrite Hc. split; [done|]. simpl. by rewrite Es.
  - destruct (Forall_or_lookup (λ t, t = Server.TDone) (∃ P', works P P') (Server.tasks (c_state x)))
      as [?|?]; [|by left|by right].
    intros i t Hi. destruct (proj1 (Forall_lookup _ _) Ht _ _ Hi) as [?|Hrun]; [by right|].
    destruct t as [f req h| | | | |]; try done. left. by eapply handler_works.
Qed.

(** ** Frames that are given up *)

(** The right response has no serialised form, or the method panicked. *)
Inductive given_up (sys : services) (x : connection) (f : bytes) : Prop :=
| up_marshal resp e : explained sys x f resp → Marshal resp = Err e → given_up sys x f
| up_panic q i j p :
    routed_frames (c_state x) !! i = Some f → c_calls x !! i = Some j →
    Interleaving.s_tasks sys !! j = Some (finished_as q (Panic p)) → given_up sys x f.

Lemma given_up_mono sys sys' x x' f :
  sys_le sys sys' → routed_frames (c_state x) `prefix_of` routed_frames (c_state x') →
  c_calls x ⊆ c_calls x' → given_up sys x f → given_up sys' x' f.
Proof.
  intros Hs Hf Hc [resp e He Hm|q i j p Hi Hj Ht].
  - eapply up_marshal; [|exact Hm]. by eapply explained_mono.
  - destruct (Hs _ _ Ht) as (t' & Ht' & _ & Heq). rewrite (Heq _ eq_refl) in Ht'.
    eapply up_panic; [by eapply prefix_lookup_Some|by eapply lookup_weaken|exact Ht'].
Qed.

(** On a connection that works nothing else is given up. *)
Definition losses (sys : services) (x : connection) : Prop :=
  fails (Server.conn (c_state x)) = None → Forall (given_up sys x) (Server.unanswered (c_state x)).

Lemma losses_sys sys sys' x : sys_le sys sys' → losses sys x → losses sys' x.
Proof.
  intros Hs Hl Hf. eapply Forall_impl; [by apply Hl|]. intros f. by apply given_up_mono.
Qed.

(** A step of a connection outside of the handlers. *)
Lemma losses_local sys x s' :
  conn_ok sys x → losses sys x → Server.step router (c_state x) s' → losses sys (set_state s' x).
Proof.
  intros Hok Hl Hstep Hf. pose proof Hok as [[r Hinv] Hw Hfr [Hm Ht _] _].
  pose proof (Server.inv_content_of _ _ _ Hinv) as Hcont.
  destruct (local_frames fuel pool hostname cfg _ _ Hcont Hw Hfr Hstep) as [_ Hp].
  assert (Hkeep : ∀ f, given_up sys x f → given_up sys (set_state s' x) f).
  { intros f. apply given_up_mono; [apply sys_le_refl|by apply routed_prefix|done]. }
  assert (Hall : fails (Server.conn (c_state x)) = None →
    Forall (given_up sys (set_state s' x)) (Server.unanswered (c_state x))).
  { intros E. eapply Forall_impl; [by apply Hl|exact Hkeep]. }
  assert (Htask : ∀ i pc, Server.tasks (c_state x) !! i = Some pc →
    ∀ f resp, task_resp pc = Some (f, resp) → explained sys x f resp).
  { intros i pc Hi. by eapply Forall_lookup_1 in Ht. }
  revert Hkeep Hall Hf. generalize (given_up sys (set_state s' x)). intros U Hkeep Hall Hf.
  destruct Hstep;
    try match goal with
    | H : Server.tasks _ !! _ = Some (Server.TRun _ _ ?h), E : ?h (Server.world _) _ = _ |- _ =>
      exfalso; apply (oracle_task fuel pool hostname cfg _ _ _ _ _ Hcont) in H as (_ & -> & _); rewrite Hw in E;
      simpl in E; by simplify_eq/=
    end; simpl in Hf |- *;
    try match goal with H : Write _ _ = _ |- _ => apply Server.Write_fails in H as [? ?]; [|done] end;
    try done; try (by apply Hall);
    (apply Forall_app; split; [by apply Hall|]; constructor; [|constructor]; apply Hkeep).
  - eapply up_marshal; [|eassumption]. apply Hm. by rewrite H.
  - eapply up_marshal; [|eassumption]. eapply Htask; [eassumption|done].
Qed.

(** A handler that ends. *)
Lemma losses_finish sys x i f req o s' :
  losses sys x → finish i f req o (c_state x) = Some s' →
  (∀ p, o = Panic p → given_up sys (set_state s' x) f) → losses sys (set_state s' x).
Proof.
  intros Hl Hfin Hp Hf.
  assert (Hall : routed_frames s' = routed_frames (c_state x) → fails (Server.conn (c_state x)) = None →
    Forall (given_up sys (set_state s' x)) (Server.unanswered (c_state x))).
  { intros Er E. eapply Forall_impl; [by apply Hl|]. intros g. apply given_up_mono; [apply sys_le_refl| |done].
    simpl. by rewrite Er. }
  destruct o as [b|e|p|]; simpl in Hfin; simplify_eq; simpl in Hf |- *; try (by apply Hall).
  apply Forall_app. split; [by apply Hall|]. constructor; [by eapply Hp|constructor].
Qed.

Lemma losses_step w0 P P' :
  proc_ok w0 P → Forall (losses (p_sys P)) (p_conns P) → pstep P P' → Forall (losses (p_sys P')) (p_conns P').
Proof.
  intros Hok Hl Hstep.
  assert (Hx : ∀ c x, p_conns P !! c = Some x → conn_ok (p_sys P) x ∧ losses (p_sys P) x).
  { intros c x Hc. destruct Hok as [_ H _ _]. split; by eapply Forall_lookup_1. }
  destruct Hstep as [P r|P c x s' Hc Hs|P c x i f req h e s' Hc Ht Hn Hd Hfin|P c x i f req h q Hc Ht Hn Hd
    |P j sys' Hadv|P c x i f req h j q o s' Hc Ht Hj Htask Hfin]; simpl.
  - apply Forall_app. split; [done|]. constructor; [|constructor]. by intros _.
  - destruct (Hx c x Hc). apply Forall_insert; [done|]. by apply losses_local.
  - destruct (Hx c x Hc). apply Forall_insert; [done|]. by eapply losses_finish.
  - pose proof (sys_le_arrive fuel pool hostname cfg q (p_sys P)) as Hle. apply Forall_insert.
    + eapply Forall_impl; [exact Hl|]. intros y. by apply losses_sys.
    + destruct (Hx c x Hc) as [_ Hlx]. intros Hf. eapply Forall_impl; [by apply Hlx|].
      intros g. apply given_up_mono; [done|done|by apply insert_subseteq].
  - apply sys_le_advance in Hadv. eapply Forall_impl; [exact Hl|]. intros y. by apply losses_sys.
  - destruct (Hx c x Hc) as [[_ _ Hfr _ _] Hlx]. apply Forall_insert; [done|].
    eapply losses_finish; [done|exact Hfin|]. intros p Ep.
    assert (Eo : o = Panic p).
    { destruct o as [rp| | |]; simpl in Ep; [by destruct (marshal_reply rp)|by simplify_eq..]. }
    subst o. simpl in Hfin. injection Hfin as <-.
    eapply up_panic; [|exact Hj|exact Htask]. exact (frames_task _ Hfr _ _ f Ht eq_refl).
Qed.

Lemma losses_reachable w0 P : rtc pstep (boot w0) P → Forall (losses (p_sys P)) (p_conns P).
Proof.
  assert (H0 : proc_ok w0 (boot w0)) by (by apply proc_ok_reachable).
  assert (H1 : Forall (losses (p_sys (boot w0))) (p_conns (boot w0))) by constructor.
  revert H0 H1. generalize (boot w0). intros P0 H0 H1 Hr.
  induction Hr; eauto using proc_ok_step, losses_step.
Qed.

(** The response that is right for a frame has no serialised form. *)
Definition unsendable (sys : services) (x : connection) (f : bytes) : Prop :=
  ∃ resp e, explained sys x f resp ∧ Marshal resp = Err e.

(** Every method has returned, and on every connection that works the frames read are
    those answered, each with the response that is right for it, apart from frames whose
    response cannot be sent; and these answers have been written. *)
Record served (P : process (DB := DB)) : Prop := {
  served_calls : ∀ j t, Interleaving.s_tasks (p_sys P) !! j = Some t →
    (∃ r, Interleaving.t_prog t = Interleaving.Ret (Return r)) ∨
    (∃ e, Interleaving.t_prog t = Interleaving.Ret (Fail e));
  served_conns : ∀ c x, p_conns P !! c = Some x →
    let s := c_state x in
    idle_conn s ∧
    (fails (Server.conn s) = None →
     (∃ lost, Server.received s ≡ₚ (Server.answer_frame <$> Server.answered s) ++ lost ∧
              Forall (unsendable (p_sys P) x) lost) ∧
     Forall (λ '(f, resp, data), Unmarshal data = Ok resp ∧ explained (p_sys P) x f resp)
       (Server.answered s) ∧
     sent (Server.conn s) = mjoin (frame <$> (Server.answer_data <$> Server.answered s)));
}.

Lemma idle_pending s : idle_conn s → Server.pending s = [].
Proof.
  intros (Hm & Ht & _). unfold Server.pending.
  replace (option_list (Server.main_frame (Server.main s))) with (@nil bytes) by (by destruct Hm as [-> | ->]).
  apply omap_nil_iff. intros i t Hi. by rewrite (proj1 (Forall_lookup _ _) Ht i t Hi).
Qed.

Lemma served_idle w0 P :
  proc_ok w0 P → Forall (losses (p_sys P)) (p_conns P) → all_answered P →
  Forall (λ t, ∃ o, Interleaving.t_prog t = Interleaving.Ret o) (Interleaving.s_tasks (p_sys P)) →
  Forall (λ x, idle_conn (c_state x)) (p_conns P) → served P.
Proof.
  intros [_ Hconns _ _] Hl Hans Hts Hidle. split.
  - intros j [q p] Hj. destruct (proj1 (Forall_lookup _ _) Hts _ _ Hj) as [o Eo]. simpl in *. subst p.
    destruct (Hans _ _ _ Hj) as [[r ->]|[e ->]]; eauto.
  - intros c x Hc s. unfold s. clear s.
    pose proof (proj1 (Forall_lookup _ _) Hidle _ _ Hc) as Hi.
    split; [done|]. intros Hf.
    pose proof (proj1 (Forall_lookup _ _) Hconns _ _ Hc) as [[r Hinv] _ _ [_ _ Hanswers] _].
    destruct (Server.inv_accounted _ _ _ Hinv) as (_ & Hperm & Hok & _).
    rewrite (idle_pending _ Hi), app_nil_r in Hperm. split_and!.
    + eexists. split; [exact Hperm|].
      eapply Forall_impl; [exact (proj1 (Forall_lookup _ _) Hl _ _ Hc Hf)|].
      intros f [resp e He Hm|q i j p _ _ Hj]; [by exists resp, e|].
      by destruct (Hans _ _ _ Hj) as [[]|[]].
    + rewrite Forall_forall in *. intros [[f resp] data] Hin. split; [by destruct (Hok _ Hin)|].
      exact (Hanswers _ Hin).
    + destruct Hi as (_ & _ & Hmu). pose proof (Server.inv_output_of _ _ _ Hinv) as Ho.
      unfold Server.inv_output, Server.open_message in Ho. rewrite Hmu in Ho. simpl in Ho.
      destruct Ho as [Ho|[[e' He] _]]; [done|congruence].
Qed.

Lemma served_runs w0 P :
  fuel ≠ 0%nat → rtc pstep (boot w0) P → (∀ P', rtc works P P' → all_answered P') →
  (at_rest P → served P) ∧ ∃ P', rtc works P P' ∧ served P'.
Proof.
  intros Hf Hr Hans.
  assert (Hend : ∀ P1, rtc works P P1 → (∃ P', works P1 P') ∨ served P1).
  { intros P1 H1. destruct (works_reachable w0 P P1 Hr H1) as [Hr1 _].
    pose proof (proc_ok_reachable fuel pool hostname cfg w0 P1 Hr1) as Hok.
    destruct (works_or_idle w0 P1 Hok (Hans P1 H1)) as [?|[? ?]]; [by left|right].
    eapply served_idle; [exact Hok|by eapply losses_reachable|by apply Hans|done..]. }
  split. { intros Hrest. destruct (Hend P) as [[P' Hw]|?]; [done|by destruct (Hrest P')|done]. }
  clear Hans.
  destruct (work_budgeted w0 P Hf (proc_ok_reachable fuel pool hostname cfg w0 P Hr)) as (ns & Hb & _).
  remember (budget P ns) as n eqn:En. revert P Hr Hend ns Hb En.
  induction (lt_wf n) as [n _ IH]. intros P Hr Hend ns Hb ->.
  destruct (Hend P) as [[P1 Hw]|Hs]; [done| |by exists P].
  destruct (works_budget w0 P P1 ns Hf (proc_ok_reachable fuel pool hostname cfg w0 P Hr) Hw Hb)
    as (ns' & Hb' & Hlt).
  destruct (IH _ Hlt P1 (rtc_r _ _ _ Hr (works_step _ _ Hw))) with (ns := ns') as (P' & HP & Hrest);
    [|done|done|].
  - intros P2 H2. apply Hend. by eapply rtc_l.
  - exists P'. split; [by eapply rtc_l|done].
Qed.

(** ** Properties *)

(** C3: the server answers every request.  From every reachable process the server takes
    at most [work] steps of its own before it needs an input (a new connection, a frame
    to read, a failure of the network), in whatever order its goroutines, statements and
    writes are scheduled; it can always go on to such a point, so it never deadlocks; and
    there every method has returned, no lock is held, and on each connection that still
    works every frame that was read has been answered with the response that is right
    for it, and that response has been written, except for frames whose response has no
    serialised form.  The table of names is the embedded one.  Of the outputs of the
    source a draw can reject only those among the highest 2^42 of the 2^63; fewer than
    [fuel] of the outputs in reach of the methods called ([20] each, and [fuel] more) are
    such, where [fuel] is the number of rejections in a row after which the model gives
    up and the code would go on. *)
Theorem requests_served (w0 : world DB) (P P' : process) (n : nat) :
  Interleaving.source_ok fuel w0 (calls_max P) → User.ids_unique w0 →
  embedded_pool = Return pool →
  rtc pstep (boot w0) P → nsteps works n P P' →
  (n ≤ work P)%nat ∧ (at_rest P' → served P') ∧ ∃ P'', rtc works P' P'' ∧ served P''.
Proof.
  intros Hsrc Hids Hp Hr Hn. pose proof (Interleaving.source_ok_fuel fuel _ _ Hsrc) as Hf.
  pose proof (proc_ok_reachable fuel pool hostname cfg w0 P Hr) as Hok.
  assert (Hans : ∀ P1, rtc works P P1 → all_answered P1).
  { intros P1 H1. destruct (works_reachable w0 P P1 Hr H1) as [Hr1 Hc].
    apply proc_ok_reachable in Hr1 as [Hs _ _ _]. intros j q o Hj.
    eapply (Interleaving.ended_answered fuel pool _ w0 (p_sys P1) j _ o); try done.
    eapply Interleaving.source_ok_le; [|exact Hsrc]. rewrite <- Hc. unfold calls_max. lia. }
  split.
  - destruct (work_budgeted w0 P Hf Hok) as (ns & Hb & <-). by eapply works_bounded.
  - apply rtc_nsteps_2 in Hn. apply (served_runs w0); [done|by eapply works_reachable|].
    intros P1 H1. apply Hans. by etrans.
Qed.

End rest.

(** ** What the protobuf library documents of strings and sizes *)

Section strings.
Context {DB : Type} {database : Db.Database DB}.
Context `{!Message RpcRequest} `{!Message RpcResponse}.
Context `{!Message App.RegisterRequest, !Message App.RegisterResponse,
          !Message App.LoginRequest, !Message App.LoginResponse,
          !Message App.LogoutRequest, !Message App.LogoutResponse,
          !Message App.DrawRequest, !Message App.DrawResponse}.
Context {proto3 : Proto3Rpc} {request_texts : TextErrors RpcRequest}.
Context {regreq_texts : TextErrors App.RegisterRequest} {regresp_texts : TextErrors App.RegisterResponse}.
Context {loginreq_texts : TextErrors App.LoginRequest} {loginresp_texts : TextErrors App.LoginResponse}.
Context {logoutreq_texts : TextErrors App.LogoutRequest} {logoutresp_texts : TextErrors App.LogoutResponse}.
Context {drawreq_texts : TextErrors App.DrawRequest} {drawresp_texts : TextErrors App.DrawResponse}.
Context (fuel : nat) (pool : gmap Z (list string)) (hostname : string) (cfg : Config.Config).

Lemma decode_error req e : decode_req req = Some (Err e) → Utf8.valid e = true.
Proof.
  unfold decode_req, decode. intros H.
  repeat (case_decide; [injection H as H;
    match type of H with _ <$> ?u = _ => destruct u as [|e'] eqn:E; [done|] end;
    injection H as ->; exact (unmarshal_text _ _ E)|]).
  done.
Qed.

Lemma reply_error r e : marshal_reply r = Err e → Utf8.valid e = true.
Proof. destruct r; simpl; apply marshal_text. Qed.

(** The error of a method is that of a refused count. *)
Lemma call_error w0 sys j q e :
  User.ids_unique w0 → rtc (Interleaving.step fuel pool (gs hostname cfg)) (Interleaving.idle w0) sys →
  Interleaving.s_tasks sys !! j =
    Some {| Interleaving.t_req := q; Interleaving.t_prog := Interleaving.Ret (Fail e) |} →
  Utf8.valid e = true.
Proof.
  intros Hids Hs Hj.
  pose proof (Interleaving.sys_ok_reachable fuel pool (gs hostname cfg) (2 ^ 63) w0 sys) as Hok.
  destruct Hok as [_ _ _ _ _ _ _ _ _ Ht]; [|done..|].
  { intros p. apply Z.mod_pos_bound. lia. }
  specialize (Ht _ _ Hj). simpl in Ht. destruct q; try done. destruct Ht as (-> & _).
  apply Utf8.valid_app; [reflexivity|apply Utf8.valid_fmt_d].
Qed.

(** A response that is right for a frame can be sent. *)
Lemma explained_marshals w0 sys x f resp :
  User.ids_unique w0 → rtc (Interleaving.step fuel pool (gs hostname cfg)) (Interleaving.idle w0) sys →
  explained sys x f resp → response_size resp < 2 ^ 30 → ∃ data, Marshal resp = Ok data.
Proof.
  intros Hids Hs Hex Hsize.
  apply response_sendable; [done|..].
  - destruct Hex as [e|req Hu|req e Hu|req q i j o resp Hu _ _ _ _ Hr]; [done|..];
      apply request_strings in Hu as (Hid & _); [done..|]. by destruct (encode o); simplify_eq/=.
  - destruct Hex as [e He|req Hu _|req e Hu Hd|req q i j o resp Hu Hd _ _ Hj Hr]; simpl.
    + intros err [= <-]. split; [done|]. apply Utf8.valid_app; [done|].
      exact (unmarshal_text _ _ He).
    + intros err [= <-]. split; [done|]. apply request_strings in Hu as (_ & ? & ?).
      repeat apply Utf8.valid_app; done.
    + intros err [= <-]. split; [done|]. by eapply decode_error.
    + intros err Herr. destruct o as [r|e| |]; simpl in Hr; [|simplify_eq/=..].
      * destruct (marshal_reply r) eqn:E; simplify_eq/=. split; [done|]. by eapply reply_error.
      * split; [done|]. by eapply call_error.
Qed.

(** C4: only a panic loses a request.  Whatever the database answers and whatever the
    peer sends, a response that the server has to give has well-formed strings only: those
    that came from the peer were checked when they were parsed, and the texts of errors
    are well-formed.  So, where the protobuf library keeps to what it documents
    ([Proto3Rpc], [TextErrors]), every such response that holds less than 2^30 bytes can be
    serialised, and on a connection that works, a frame that was read and then given up
    without an answer, and none of whose right responses is larger, is one whose method
    panicked. *)
Theorem only_panics_lost (w0 : world DB) (P : process) (c : nat) (x : connection) :
  User.ids_unique w0 → rtc (pstep fuel pool hostname cfg) (boot w0) P → p_conns P !! c = Some x →
  (∀ f resp, explained (p_sys P) x f resp → response_size resp < 2 ^ 30 →
     ∃ data, Marshal resp = Ok data) ∧
  (fails (Server.conn (c_state x)) = None →
   ∀ f, f ∈ Server.unanswered (c_state x) →
     (∀ resp, explained (p_sys P) x f resp → response_size resp < 2 ^ 30) →
     ∃ i j q p, routed_frames (c_state x) !! i = Some f ∧ c_calls x !! i = Some j ∧
       Interleaving.s_tasks (p_sys P) !! j =
         Some {| Interleaving.t_req := q; Interleaving.t_prog := Interleaving.Ret (Panic p) |}).
Proof.
  intros Hids Hr Hc. pose proof (proc_ok_reachable fuel pool hostname cfg w0 P Hr) as [Hs _ _ _].
  assert (Hm : ∀ f resp, explained (p_sys P) x f resp → response_size resp < 2 ^ 30 →
    ∃ data, Marshal resp = Ok data) by (intros; by eapply explained_marshals).
  split; [exact Hm|]. intros Hf f Hin Hsmall.
  pose proof (losses_reachable fuel pool hostname cfg w0 P Hr) as Hl.
  eapply Forall_lookup_1 in Hl; [|exact Hc]. specialize (Hl Hf). rewrite Forall_forall in Hl.
  destruct (Hl f Hin) as [resp e He Hme|q i j p Hi Hj Ht]; [|eauto 10].
  destruct (Hm f resp He (Hsmall resp He)) as [data Hd]. congruence.
Qed.

End strings.

(** ** A client, after its request has been read *)

Section demo.
Import Wire RefDb.

(** A draw of one card. *)
Definition draw_frame : bytes :=
  match Marshal (App.Build_DrawRequest 1 1) with
  | Ok payload =>
    match Marshal {| req_RequestId := "a"; req_Service := "GachaService"; req_Method := "draw";
                     req_Payload := payload |} with
    | Ok b => b
    | Err _ => []
    end
  | Err _ => []
  end.

(** A source in the upper half of its range, whose first output is rejected. *)
Definition upper_world : world ref_db :=
  {| w_db := w_db User.demo_world;
     w_rng := {| Rand.src := λ p, if (p =? 0)%nat then 2 ^ 63 - 1 else 2 ^ 63 - 2 ^ 43; Rand.pos := 0 |} |}.

Definition draw_inputs : list choice :=
  [Accept (Reader [frame draw_frame] EOF); Local 0 Server.CMain].

Lemma requests_served_witness :
  ∃ pool P P'', embedded_pool = Return pool ∧
    pexec_all (DB := ref_db) 2 pool "host" Config.defaultConfig draw_inputs (boot upper_world) = Some P ∧
    (λ x, Server.received (c_state x)) <$> p_conns P = [[draw_frame]] ∧
    rtc (works 2 pool "host" Config.defaultConfig) P P'' ∧ served P''.
Proof.
  destruct embedded_pool_ok as (pool & Hp & _).
  destruct (pexec_all 2 pool "host" Config.defaultConfig draw_inputs (boot upper_world))
    as [P|] eqn:E; [|vm_compute in E; discriminate E].
  destruct (requests_served 2 pool "host" Config.defaultConfig upper_world P P 0) as (_ & _ & P'' & H1 & H2).
  - apply Nat.ltb_lt. vm_compute in E. injection E as <-. vm_compute. reflexivity.
  - intros n m r1 r2 H. vm_compute in H. discriminate H.
  - exact Hp.
  - eapply pexec_all_sound. exact E.
  - constructor.
  - exists pool, P, P''. split_and!; [exact Hp|exact E| |exact H1|exact H2].
    vm_compute in E. injection E as <-. vm_compute. reflexivity.
Defined.

(** A draw from an empty table. *)
Definition draw_schedule : list choice :=
  [Accept (Reader [frame draw_frame] EOF); Local 0 Server.CMain; Invoke 0 0; Operate 0; ReturnFrom 0 0].

Definition draw_process : option (process (DB := ref_db)) :=
  pexec_all 1 ∅ "host" Config.defaultConfig draw_schedule (boot User.demo_world).

Example draw_lost : (λ P, (λ x, Server.unanswered (c_state x)) <$> p_conns P) <$> draw_process = Some [[draw_frame]].
Proof. vm_compute. reflexivity. Qed.

Lemma only_panics_lost_witness :
  ∃ P x, draw_process = Some P ∧ p_conns P !! 0%nat = Some x ∧ Server.unanswered (c_state x) = [draw_frame] ∧
    ∃ i j q p, routed_frames (c_state x) !! i = Some draw_frame ∧ c_calls x !! i = Some j ∧
      Interleaving.s_tasks (p_sys P) !! j =
        Some {| Interleaving.t_req := q; Interleaving.t_prog := Interleaving.Ret (Panic p) |}.
Proof.
  destruct draw_process as [P|] eqn:E; [|vm_compute in E; discriminate E].
  assert (Hr : rtc (pstep 1 ∅ "host" Config.defaultConfig) (boot User.demo_world) P)
    by (eapply pexec_all_sound; exact E).
  pose proof draw_lost as Hl. rewrite E in Hl. simpl in Hl. injection Hl as Hl.
  destruct (p_conns P) as [|x [|]] eqn:Hc; try discriminate Hl. injection Hl as Hl.
  exists P, x. rewrite Hc. split_and!; [reflexivity|reflexivity|exact Hl|].
  assert (Hx : p_conns P !! 0%nat = Some x) by (rewrite Hc; reflexivity).
  apply (only_panics_lost 1 ∅ "host" Config.defaultConfig User.demo_world P 0 x); [|exact Hr|exact Hx| | |].
  - intros n m r1 r2 H. vm_compute in H. discriminate H.
  - vm_compute in E. injection E as <-. injection Hc as <-. reflexivity.
  - rewrite Hl. left.
  - intros resp Hex. exfalso.
    assert (Ht : ∃ q p, Interleaving.s_tasks (p_sys P) =
      [{| Interleaving.t_req := q; Interleaving.t_prog := Interleaving.Ret (Panic p) |}]).
    { vm_compute in E. injection E as <-. do 2 eexists. reflexivity. }
    destruct Ht as (q & p & Ht).
    destruct Hex as [e H|req H Hd|req e H Hd|req q' i j o resp H Hd _ _ Hj Ho];
      try (vm_compute in H; discriminate H).
    + vm_compute in H. injection H as <-. vm_compute in Hd. discriminate Hd.
    + vm_compute in H. injection H as <-. vm_compute in Hd. discriminate Hd.
    + rewrite Ht in Hj. destruct j as [|j]; [|by destruct j]. injection Hj as -> <-. discriminate Ho.
Defined.

End demo.
End ProcessRest.
