(* ===== verification/EndToEnd.v ===== *)
(** * Calls from end to end

    The client library of [ClientCall.v] and the server of [Server.v], connected by a
    network that may cut a stream anywhere: the server reads a prefix of the frames
    of the requests that the client wrote to a channel, the client a prefix of the
    frames that the server completed on the connection.  The client's end of a channel
    is the frame codec of [Netty.v]. *)

From S2P Require Import Prelude Codec Netty Pb Wire Router Handler Server Fault ClientCall.
From S2P Require Import RegistryClient Registry.

Module EndToEnd.
Import Io Codec Rpc Handler.

Section end_to_end.
Context {W : Type} {netty : Netty.Netty} `{!Message RpcRequest} `{!Message RpcResponse}.
Context (router : Router.Router (HandlerFunc W)).

(** The frames of messages. *)
Definition marshalled {M} `{!Message M} (ms : list M) (fs : list bytes) : Prop :=
  Forall2 (λ m f, Marshal m = Ok f ∧ fits f) ms fs.

(** A channel is connected to a server with this router: what the server's connection
    [r] delivers was written to the channel, and what was read from the channel, [cs],
    was sent by the server. *)
Record linked (x : RpcClient.ChannelContext) (r : reader) (w : W) (s : Server.state)
    (fs : list bytes) (cs : reader) : Prop := {
  linked_server : Server.reachable router r w s;
  linked_requests : marshalled (RpcClient.written x) fs;
  linked_input : stream r `prefix_of` mjoin (Netty.LengthFieldPrepender 4 <$> fs);
  linked_fits : Forall fits (Server.answer_data <$> Server.answered s);
  linked_output :
    stream cs `prefix_of` mjoin (frame <$> (Server.answer_data <$> Server.answered s));
  linked_responses :
    ∀ resp, resp ∈ RpcClient.read x → ∃ d,
      d ∈ (Netty.LengthFieldBasedFrameDecoder Netty.client_decoder (stream cs)).1 ∧ Unmarshal d = Ok resp;
}.

(** The pipeline of the client writes the frames of Go. *)
Lemma linked_frames x r w s fs cs :
  linked x r w s fs cs → Forall fits fs ∧ stream r `prefix_of` mjoin (frame <$> fs).
Proof.
  intros Hl. assert (Hfit : Forall fits fs).
  { eapply Forall2_Forall_r; [apply (linked_requests _ _ _ _ _ _ Hl)|].
    apply Forall_forall. by intros req _ f' [_ ?]. }
  split; [done|]. destruct Hl as [_ _ Hin _ _ _].
  replace (frame <$> fs) with (Netty.LengthFieldPrepender 4 <$> fs); [done|].
  apply list_fmap_ext. intros i f Hi. by apply Netty.prepender_frame, (proj1 (Forall_lookup _ _) Hfit i f Hi).
Qed.

(** A frame that was answered had been read. *)
Lemma answered_received r w s f resp d :
  Server.reachable router r w s → (f, resp, d) ∈ Server.answered s → f ∈ (read_all r).1.
Proof.
  intros Hr%Server.reachable_inv Hin. destruct (Server.inv_input_of _ _ _ Hr) as [<- _].
  apply elem_of_app. left. apply list_elem_of_In, (count_occ_In (λ x y, decide (x = y))).
  pose proof (Server.inv_conserved_of _ _ _ Hr f) as Hc. unfold cnt in Hc. rewrite Hc.
  assert (Hf : f ∈ Server.answer_frame <$> Server.answered s)
    by (apply list_elem_of_fmap; exists (f, resp, d); done).
  apply list_elem_of_In, (count_occ_In (λ x y, decide (x = y))) in Hf. lia.
Qed.

(** A response that a client has read answers one of its requests. *)
Lemma response_answers x r w s fs cs resp :
  linked x r w s fs cs → resp ∈ RpcClient.read x →
  ∃ req f, req ∈ RpcClient.written x ∧ Unmarshal f = Ok req ∧ Server.answers router f resp.
Proof.
  intros Hl Hin. destruct (linked_responses _ _ _ _ _ _ Hl _ Hin) as (d & Hd%Netty.decode_subset & Hu).
  pose proof (linked_server _ _ _ _ _ _ Hl) as Hreach.
  assert (Hda : d ∈ Server.answer_data <$> Server.answered s).
  { eapply elem_of_prefix; [exact Hd|]. apply read_all_cut; apply Hl. }
  apply list_elem_of_fmap in Hda as ([[f resp'] d'] & -> & Ha). simpl in Hu.
  pose proof (Server.inv_content_of _ _ _ (Server.reachable_inv _ _ _ _ Hreach)) as (_ & _ & Hok).
  rewrite Forall_forall in Hok. destruct (Hok _ Ha) as [Hans Hm].
  apply Unmarshal_Marshal in Hm. assert (resp' = resp) as -> by congruence.
  assert (Hf : f ∈ fs).
  { eapply elem_of_prefix; [by eapply answered_received|].
    destruct (linked_frames _ _ _ _ _ _ Hl). by apply read_all_cut. }
  apply list_elem_of_lookup in Hf as [i Hi].
  destruct (Forall2_lookup_r _ _ _ _ _ (linked_requests _ _ _ _ _ _ Hl) Hi) as (req & Hreq & Hm' & _).
  exists req, f. split_and!; [by eapply list_elem_of_lookup_2|by apply Unmarshal_Marshal|done].
Qed.

(** C1: a call gets the answer of its own request.  Let every channel to the call's
    address be connected to a server with this router, over a network that may cut
    either direction anywhere, with Netty's frame codec at the client's end, and let no
    two different requests of the client have the same id.  Whatever the interleaving on both sides, a call that returns a response has
    the one that the server gave to this very request: the error 404 if the
    router has no handler for its service and method; otherwise, for
    some state of the services, the payload that the handler returned for the
    request's payload, or the handler's error under the code 500. *)
Theorem call_end_to_end (k : RpcClient.client) (i : nat) (c : RpcClient.call) (resp : RpcResponse) :
  RpcClient.reachable k → RpcClient.calls k !! i = Some c → RpcClient.pc c = RpcClient.CEnd (Ok resp) →
  (∀ ch x, RpcClient.contexts k !! ch = Some x → RpcClient.key x = RpcClient.channel_key c →
     ∃ r w s fs cs, linked x r w s fs cs) →
  (∀ c1 c2, c1 ∈ RpcClient.calls k → c2 ∈ RpcClient.calls k →
     req_RequestId (RpcClient.request c1) = req_RequestId (RpcClient.request c2) →
     RpcClient.request c1 = RpcClient.request c2) →
  let req := RpcClient.request c in
  resp_RequestId resp = req_RequestId req ∧
  match Router.Route router (req_Service req) (req_Method req) with
  | None => Code <$> resp_Error resp = Some 404
  | Some h =>
    ∃ w w', (h w (req_Payload req) = (w', Return (resp_Payload resp)) ∧ resp_Error resp = None) ∨
            (∃ e, h w (req_Payload req) = (w', Fail e) ∧
                  resp_Error resp = Some {| Code := 500; ErrMessage := e |})
  end.
Proof.
  intros Hreach Hi Hpc Hlinked Huniq req. pose proof (RpcClient.client_reachable_inv k Hreach) as (Hcalls & Hctxs & _).
  rewrite Forall_lookup in Hcalls. rewrite Forall_lookup in Hctxs. destruct (Hcalls i c Hi) as [Hok Hfut].
  unfold RpcClient.pc_ok in Hok. rewrite Hpc in Hok.
  destruct (Hfut resp Hok) as (Hid & ch & x & Hx & Hkey & Hread).
  destruct (Hlinked ch x Hx Hkey) as (r & w & s & fs & cs & Hl).
  destruct (response_answers _ _ _ _ _ _ _ Hl Hread) as (req' & f & Hw & Hu & Hans).
  destruct (Hctxs ch x Hx) as [_ Hwritten]. destruct (Hwritten req' Hw) as (c' & Hc' & Hreq & _).
  split; [done|].
  assert (Hsame : resp_RequestId resp = req_RequestId req' → req' = req).
  { intros E. rewrite <- Hreq in E |- *. apply Huniq; [done| |congruence]. by eapply list_elem_of_lookup_2. }
  destruct Hans as [e He|req0 E Hrt|req0 h w1 w2 b E Hrt Hh|req0 h w1 w2 e E Hrt Hh]; [congruence|..];
    simpl in *; assert (req0 = req') as -> by congruence; rewrite (Hsame eq_refl) in *; rewrite Hrt.
  - done.
  - exists w1, w2. left. done.
  - exists w1, w2. right. by exists e.
Qed.

End end_to_end.

(** ** Registration *)

Section registration.
Context `{!Message Reg.RegistryMessage}.

Definition reply (p : Reg.Payload) : Reg.RegistryMessage := {| Reg.payload := Some p |}.

(** A connection of the registry before its first message. *)
Definition fresh_connection (st : Registry.ServiceStore) : Registry.connection :=
  {| Registry.store := st; Registry.registered_instances := []; Registry.sent := [];
     Registry.notified := [] |}.

Lemma ReadFrame_frame r data rest :
  fits data → stream r = frame data ++ rest →
  ∃ r', ReadFrame r = (Ok data, r') ∧ stream r' = rest.
Proof.
  intros Hfit Hs. destruct (ReadFrame_parse r) as (r' & -> & Hr' & _).
  rewrite Hs, parse_frame_frame in Hr' by done. rewrite Hs, parse_frame_frame by done. eauto.
Qed.

(** The client's side. *)
Lemma client_registers dial s r data hb out1 out2 rest :
  let c := RegistryClient.client s in
  dial (RegistryClient.dialed s) = Ok (r, None) →
  Marshal (RegistryClient.register_msg c) = Ok data → Marshal (RegistryClient.heartbeat_msg c) = Ok hb →
  Marshal (reply (Registry.response true "registered")) = Ok out1 → fits out1 →
  Marshal (reply (Registry.response true "alive")) = Ok out2 → fits out2 →
  stream r = frame out1 ++ frame out2 ++ rest →
  ∃ r1 r2,
    let conn w r := {| RegistryClient.rd := r; RegistryClient.wr := Writer w None; RegistryClient.closed := false |} in
    RegistryClient.Register dial s = (Ok tt, RegistryClient.fresh s (conn (frame data) r1)) ∧
    RegistryClient.heartbeat 0 (RegistryClient.fresh s (conn (frame data) r1))
      = (Some 0, RegistryClient.fresh s (conn (frame data ++ frame hb) r1)) ∧
    RegistryClient.read_response (RegistryClient.fresh s (conn (frame data ++ frame hb) r1))
      = (true, RegistryClient.fresh s (conn (frame data ++ frame hb) r2)).
Proof.
  intros c Hdial Hdata Hhb Hout1 Hfit1 Hout2 Hfit2 Hs.
  destruct (ReadFrame_frame r out1 _ Hfit1 Hs) as (r1 & Hr1 & Hs1).
  destruct (ReadFrame_frame r1 out2 _ Hfit2 Hs1) as (r2 & Hr2 & _).
  exists r1, r2. intros conn. split_and!.
  - unfold RegistryClient.Register, RegistryClient.register_dial. rewrite Hdial.
    change {| RegistryClient.client := _; RegistryClient.conns := _; RegistryClient.dialed := _ |}
      with (RegistryClient.fresh s (conn [] r)).
    unfold RegistryClient.register_send.
    change (RegistryClient.register_msg (RegistryClient.client (RegistryClient.fresh s (conn [] r))))
      with (RegistryClient.register_msg c).
    rewrite Hdata, RegistryClient.writeFrame_fresh. cbn [RegistryClient.wr conn].
    rewrite WriteFrame_ok by done. cbn [fst snd map_err RegistryClient.rd RegistryClient.closed sent].
    rewrite app_nil_l. unfold RegistryClient.register_recv.
    rewrite RegistryClient.readFrame_fresh. cbn [RegistryClient.rd RegistryClient.wr RegistryClient.closed conn].
    rewrite Hr1. cbn [fst snd map_err]. by rewrite (Unmarshal_Marshal _ _ Hout1).
  - unfold RegistryClient.heartbeat.
    change (RegistryClient.heartbeat_msg (RegistryClient.client (RegistryClient.fresh s (conn (frame data) r1))))
      with (RegistryClient.heartbeat_msg c).
    rewrite Hhb, RegistryClient.writeFrame_fresh. cbn [RegistryClient.wr conn]. by rewrite WriteFrame_ok.
  - unfold RegistryClient.read_response. rewrite RegistryClient.readFrame_fresh.
    cbn [RegistryClient.rd RegistryClient.wr RegistryClient.closed conn].
    rewrite Hr2. cbn [fst snd map_err]. by rewrite (Unmarshal_Marshal _ _ Hout2).
Qed.

(** The registry's side. *)
Lemma registry_registers st m peer_ip service p now later :
  Registry.represents st m →
  let c := (Registry.handle_server_messages peer_ip
             [Registry.EMessage (reply (Reg.PRegister {| Reg.rr_Port := p; Reg.rr_Service := service |})) now true;
              Registry.EMessage (reply (Reg.PHeartbeat {| Reg.hb_Port := p |})) later true]
             (fresh_connection st)).1 in
  Registry.sent c = [Registry.response true "registered"; Registry.response true "alive"] ∧
  Registry.represents (Registry.store c) (<[(peer_ip, p) := (service, later)]> m).
Proof.
  intros Hrep. simpl. unfold Registry.handle_register. simpl.
  destruct (Registry.register_represents st m (peer_ip, p) service now Hrep) as [H1 _].
  destruct (Registry.register (peer_ip, p) service now st) as [st1 changed]. simpl in H1 |- *.
  unfold Registry.handle_heartbeat. simpl.
  pose proof (Registry.heartbeat_represents st1 _ (peer_ip, p) later H1) as H2.
  rewrite lookup_insert_eq in H2. destruct H2 as [H2 Hf].
  destruct (Registry.heartbeat (peer_ip, p) later st1) as [st2 found]. simpl in H2, Hf |- *. subst found.
  rewrite insert_insert_eq in H2. done.
Qed.

Lemma decode_frame data rest msg :
  Marshal msg = Ok data → fits data → Registry.decode (frame data ++ rest) = Ok (Some (msg, rest)).
Proof.
  intros Hm Hfit. rewrite Registry.decode_parse, parse_frame_frame by done.
  by rewrite (Unmarshal_Marshal _ _ Hm).
Qed.

(** C13: the Go client and the registry register an instance together.  The client
    dials a connection that takes its writes; the registry decodes exactly the
    registration from what [Register] sent and handles it at the time [now]; when the
    response that the registry encodes reaches the client, [Register] succeeds with the new connection
    in use, and the registry's store has the client's address, as the registry sees
    it, with the client's service name.  A heartbeat that the client then sends is
    decoded and answered as that of a known instance, and the client's reader goes
    on after the answer. *)
Theorem registration_end_to_end (dial : nat → result string (reader * option (nat * io_error)))
    (s : RegistryClient.world) (st : Registry.ServiceStore) (m : Registry.registry_map)
    (peer_ip : string) (now later : Z) (r : reader) (data hb out1 out2 rest : bytes) :
  let c := RegistryClient.client s in
  let k := (peer_ip, wrap_i32 (RegistryClient.selfPort c)) in
  let reg := Registry.handle_server_messages peer_ip
               [Registry.EMessage (RegistryClient.register_msg c) now true;
                Registry.EMessage (RegistryClient.heartbeat_msg c) later true] (fresh_connection st) in
  Registry.represents st m →
  dial (RegistryClient.dialed s) = Ok (r, None) →
  Marshal (RegistryClient.register_msg c) = Ok data → fits data →
  Marshal (RegistryClient.heartbeat_msg c) = Ok hb → fits hb →
  Marshal (reply (Registry.response true "registered")) = Ok out1 → fits out1 →
  Marshal (reply (Registry.response true "alive")) = Ok out2 → fits out2 →
  stream r = frame out1 ++ frame out2 ++ rest →
  Registry.encode (reply (Registry.response true "registered")) = Ok (frame out1) ∧
  Registry.encode (reply (Registry.response true "alive")) = Ok (frame out2) ∧
  Registry.sent reg.1 = [Registry.response true "registered"; Registry.response true "alive"] ∧
  Registry.represents (Registry.store reg.1) (<[k := (RegistryClient.serviceName c, later)]> m) ∧
  ∃ s1 s2 s3 c3,
    RegistryClient.Register dial s = (Ok tt, s1) ∧
    RegistryClient.conn (RegistryClient.client s1) = Some (length (RegistryClient.conns s)) ∧
    RegistryClient.heartbeat 0 s1 = (Some 0, s2) ∧
    RegistryClient.read_response s2 = (true, s3) ∧
    RegistryClient.conns s3 = RegistryClient.conns s ++ [c3] ∧
    Registry.decode (sent (RegistryClient.wr c3)) = Ok (Some (RegistryClient.register_msg c, frame hb)) ∧
    Registry.decode (frame hb) = Ok (Some (RegistryClient.heartbeat_msg c, [])).
Proof.
  intros c k reg Hrep Hdial Hdata Hfit Hhb Hfith Hout1 Hfit1 Hout2 Hfit2 Hs.
  destruct (registry_registers st m peer_ip (RegistryClient.serviceName c)
    (wrap_i32 (RegistryClient.selfPort c)) now later Hrep) as [Hsent Hstore].
  destruct (client_registers dial s r data hb out1 out2 rest) as (r1 & r2 & H1 & H2 & H3); try done.
  split; [by apply Registry.encode_frame|]. split; [by apply Registry.encode_frame|].
  split; [exact Hsent|]. split; [exact Hstore|]. do 4 eexists.
  split; [exact H1|]. split; [done|]. split; [exact H2|]. split; [exact H3|]. split; [done|].
  split; [by apply decode_frame|]. rewrite <- (app_nil_r (frame hb)) at 1. by apply decode_frame.
Qed.
End registration.

(** ** One call *)

Section demo.
Import Wire.

Definition demo_request : RpcRequest :=
  {| req_RequestId := "1"; req_Service := "Echo"; req_Method := "echo"; req_Payload := str_bytes "hi" |}.
Definition demo_response : RpcResponse :=
  {| resp_RequestId := "1"; resp_Payload := str_bytes "hi"; resp_Error := None |}.

Definition demo_input : reader := Reader [frame (Server.demo_frame "1" "echo")] EOF.

Definition demo_state : Server.state :=
  match Server.exec_all Server.demo_router
          [Server.CMain; Server.CTask 0; Server.CTask 0; Server.CTask 0; Server.CTask 0; Server.CTask 0]
          (Server.accepted demo_input tt) with
  | Some s => s
  | None => Server.accepted demo_input tt
  end.

Lemma call_end_to_end_witness :
  ∃ (k : RpcClient.client) (c : RpcClient.call),
    RpcClient.calls k = [c] ∧ RpcClient.request c = demo_request ∧
    RpcClient.pc c = RpcClient.CEnd (Ok demo_response) ∧
    resp_RequestId demo_response = req_RequestId (RpcClient.request c).
Proof.
  destruct (RpcClient.answered_call demo_request "h" 1 demo_response eq_refl)
    as (k & c & x & Hr & Hc & Hreq & Hpc & Hx & Hw & Hread).
  exists k, c. split_and!; [exact Hc|exact Hreq|exact Hpc|].
  apply (call_end_to_end (netty := Netty.ref_netty) Server.demo_router k 0 c demo_response); [exact Hr|by rewrite Hc|exact Hpc| |].
  - intros ch y Hy _. assert (y = x) as ->.
    { rewrite Hx in Hy. destruct ch as [|ch]; [by injection Hy|]. by destruct ch. }
    exists demo_input, tt, demo_state, [Server.demo_frame "1" "echo"],
      (Reader [sent (Server.conn demo_state)] EOF). constructor.
    + apply (Server.exec_all_sound _
        [Server.CMain; Server.CTask 0; Server.CTask 0; Server.CTask 0; Server.CTask 0; Server.CTask 0]).
      vm_compute. reflexivity.
    + rewrite Hw. repeat constructor; vm_compute; congruence.
    + exists []. rewrite app_nil_r. vm_compute. reflexivity.
    + repeat constructor; vm_compute; congruence.
    + exists []. rewrite app_nil_r. vm_compute. reflexivity.
    + rewrite Hread. intros resp ->%list_elem_of_singleton. eexists. split; [left|vm_compute; reflexivity].
  - rewrite Hc. by intros c1 c2 ->%list_elem_of_singleton ->%list_elem_of_singleton.
Defined.
Definition demo_client_world : RegistryClient.world :=
  {| RegistryClient.client := RegistryClient.demo_client 5; RegistryClient.conns := [];
     RegistryClient.dialed := 0 |}.

Definition marshal_demo (m : Reg.RegistryMessage) : bytes :=
  match Marshal m with Ok b => b | Err _ => [] end.

Lemma registration_end_to_end_witness :
  let out1 := marshal_demo (reply (Registry.response true "registered")) in
  let out2 := marshal_demo (reply (Registry.response true "alive")) in
  let r := Reader [frame out1 ++ frame out2] EOF in
  ∃ s1, RegistryClient.Register (λ _, Ok (r, None)) demo_client_world = (Ok tt, s1) ∧
        RegistryClient.conn (RegistryClient.client s1) = Some 0%nat.
Proof.
  intros out1 out2 r.
  destruct (registration_end_to_end (λ _, Ok (r, None)) demo_client_world Registry.new ∅ "10.0.0.1" 1 2 r
    (marshal_demo (RegistryClient.register_msg (RegistryClient.client demo_client_world)))
    (marshal_demo (RegistryClient.heartbeat_msg (RegistryClient.client demo_client_world)))
    out1 out2 []) as (_ & _ & _ & _ & s1 & s2 & s3 & c3 & H1 & H2 & _);
    try exact Registry.new_represents; try reflexivity; try (vm_compute; congruence).
  exists s1. split; [exact H1|exact H2].
Defined.
End demo.
End EndToEnd.
