(* ===== verification/Framework.v ===== *)
(** * The client framework: [src/client/.../RpcFramework.kt] and
      [src/client/.../scanner/ClassScanner.kt]

    [ClassScanner] finds classes on the class path, [RpcFramework] makes a proxy for
    each service interface, puts proxies into the fields of the application and runs
    it.  The class path is a list of directories and jars; classes are described by
    what the framework asks of them, and loading and running them are parameters. *)

From S2P Require Import Prelude GoLib Pb Fault.

(** ** Strings, as Kotlin's [kotlin.text] has them *)
Module KText.

Fixpoint split (sep : ascii) (s : string) : list string :=
  match s with
  | EmptyString => [""]
  | String c s =>
    if Ascii.eqb c sep then "" :: split sep s
    else match split sep s with w :: ws => String c w :: ws | [] => [String c ""] end
  end.

Fixpoint replace (c d : ascii) (s : string) : string :=
  match s with
  | EmptyString => ""
  | String x s => String (if Ascii.eqb x c then d else x) (replace c d s)
  end.

Fixpoint endsWith (s suffix : string) : bool :=
  String.eqb s suffix || match s with EmptyString => false | String _ s => endsWith s suffix end.

Definition removeSuffix (s suffix : string) : string :=
  if endsWith s suffix
  then String.substring 0 (String.length s - String.length suffix) s else s.

Definition startsWith (s pre : string) : bool := String.prefix pre s.

(** [File.extension]: what follows the last dot of a name. *)
Definition extension (name : string) : string :=
  match split "."%char name with [] | [_] => "" | ws => default "" (last ws) end.

End KText.

Module Framework.
Import Fault KText.

(** ** Files and URLs *)

(** A file, with the names of its entries if it is a jar, or a directory. *)
Inductive node : Type :=
| NFile (jar : list string)
| NDir (children : list (string * node)).

Fixpoint child (name : string) (cs : list (string * node)) : option node :=
  match cs with
  | [] => None
  | (n, c) :: cs => if String.eqb n name then Some c else child name cs
  end.

Fixpoint descend (n : node) (path : list string) : option node :=
  match path with
  | [] => Some n
  | p :: path => match n with NDir cs => c ← child p cs; descend c path | NFile _ => None end
  end.

(** The components of a relative path. *)
Definition components (path : string) : list string := filter (λ c, c ≠ "") (split "/"%char path).

(** [walkTopDown().filter { it.isFile }]: the path and the name of each file below [n],
    whose own path is [rel]. *)
Fixpoint walk_files (rel : list string) (name : string) (n : node) : list (list string * string) :=
  match n with
  | NFile _ => [(rel, name)]
  | NDir cs =>
    (fix go cs := match cs with
                  | [] => []
                  | (nm, c) :: cs => walk_files (rel ++ [nm]) nm c ++ go cs
                  end) cs
  end.

(** A [file:] URL is an entry of the class path, or something below it; a [jar:] URL is
    the entries of the jar it is in. *)
Inductive URL : Type :=
| FileUrl (entry : string) (sub : list string)
| JarUrl (entries : list string)
| OtherUrl.

(** The path of a class file as the name of the class. *)
Definition className (relative : string) : string :=
  replace "/"%char "."%char (removeSuffix relative ".class").

Section scanner.
(** What is at the path of an entry of the class path. *)
Context (fs : string → option node).

Definition file_at (entry : string) (sub : list string) : option node := n ← fs entry; descend n sub.

(** The name of the file at a path. *)
Definition name_at (entry : string) (sub : list string) : string :=
  match last sub with Some c => c | None => default "" (last (split "/"%char entry)) end.

(** The class names for which [walkUrl] runs its action, in order. *)
Definition walkUrl (url : URL) (packagePath : string) : list string :=
  match url with
  | FileUrl entry sub =>
    let pkg := components packagePath in
    match file_at entry (sub ++ pkg) with
    | None => []
    | Some n =>
      (λ '(rel, _), className (String.concat "/" rel)) <$>
        filter (λ '(_, name), extension name = "class") (walk_files pkg (name_at entry (sub ++ pkg)) n)
    end
  | JarUrl entries =>
    className <$> filter (λ name,
      negb (endsWith name "/") &&
      (String.eqb packagePath "" || startsWith name (packagePath +:+ "/")) &&
      endsWith name ".class") entries
  | OtherUrl => []
  end.

(** The class loader of the thread: one that lists its URLs, or any other, with the
    system property [java.class.path]. *)
Inductive loader : Type :=
| UrlLoader (urls : list URL)
| OtherLoader (java_class_path : option string).

Context (pathSeparator : ascii).

Definition class_path (property : option string) : list string :=
  filter (λ e, e ≠ "") (split pathSeparator (default "" property)).

Definition getClasspathUrls (l : loader) : list URL :=
  match l with
  | UrlLoader urls => urls
  | OtherLoader property => (λ e, FileUrl e []) <$> class_path property
  end.

(** [ClassLoader.getResources]: a URL for each entry of the class path that has the
    resource. *)
Definition resource_in (name : string) (entry : string) : option URL :=
  match fs entry with
  | None => None
  | Some (NDir cs) =>
    match descend (NDir cs) (components name) with
    | Some _ => Some (FileUrl entry (components name))
    | None => None
    end
  | Some (NFile jar) =>
    if bool_decide (name ∈ jar) || bool_decide (name +:+ "/" ∈ jar) then Some (JarUrl jar) else None
  end.

Definition getResources (entries : list string) (name : string) : list URL :=
  omap (resource_in name) entries.

(** ** Classes *)

(** [@RpcApp] *)
Record RpcApp : Type := {
  basePackage : string; registryHost : string; registryPort : Z; debug : bool;
}.

Record class : Type := {
  cls_name : string;
  simpleName : string;
  packageName : string;
  isInterface : bool;
  rpcService : option string;
  rpcApp : option RpcApp;
}.

(** A declared field, and whether it has [@RpcInject]. *)
Record field : Type := { fld_name : string; fld_type : class; fld_inject : bool }.

(** What is thrown: by the class loader, or one of the exceptions of [Fault.v]. *)
Inductive failure : Type :=
| ClassNotFoundException (name : string)
| NoClassDefFoundError (name : string)
| NullPointerException
| Thrown (e : throwable).

(** [Class.forName(name, false, loader)]; the first failure is an [Exception], the
    second an [Error]. *)
Inductive load : Type := Loaded (c : class) | NotFound | NoDefinition.

Context (forName : string → load).

(** [findAnnotatedClass(RpcApp::class.java)] *)
Fixpoint find_annotated (names : list string) : result failure class :=
  match names with
  | [] => Err (Thrown (RuntimeException "No class annotated with @RpcApp found on classpath" None))
  | name :: names =>
    match forName name with
    | Loaded c => match rpcApp c with Some _ => Ok c | None => find_annotated names end
    | NotFound => find_annotated names
    | NoDefinition => Err (NoClassDefFoundError name)
    end
  end.

Definition findAnnotatedClass (l : loader) : result failure class :=
  find_annotated (mjoin ((λ url, walkUrl url "") <$> getClasspathUrls l)).

Fixpoint load_all (names : list string) : result failure (list class) :=
  match names with
  | [] => Ok []
  | name :: names =>
    match forName name with
    | Loaded c => cs ← load_all names; Ok (c :: cs)
    | NoDefinition => load_all names
    | NotFound => Err (ClassNotFoundException name)
    end
  end.

(** [ClassScanner(basePackage)] *)
Definition loadClasses (entries : list string) (base : string) : result failure (list class) :=
  let packagePath := replace "."%char "/"%char base in
  load_all (mjoin ((λ url, walkUrl url packagePath) <$> getResources entries packagePath)).

(** [getByAnnotation(RpcService::class.java)] *)
Definition services (classes : list class) : list class := filter (λ c, is_Some (rpcService c)) classes.

(** ** [RpcFramework] *)

(** A proxy: its interface, and the service name of its [RpcInvocationHandler]. *)
Record proxy : Type := { px_interface : string; px_service : string }.

(** The proxies, by the name of the class. *)
Abbreviation framework := (gmap string proxy).

(** [createProxyInternal]; [Proxy.newProxyInstance] wants an interface. *)
Definition createProxyInternal (c : class) : result failure proxy :=
  match rpcService c with
  | None => Err (Thrown (IllegalArgumentException (cls_name c +:+ " must be annotated with @RpcService")))
  | Some value =>
    let serviceName := if String.eqb value "" then simpleName c else value in
    if isInterface c then Ok {| px_interface := cls_name c; px_service := serviceName |}
    else Err (Thrown (IllegalArgumentException (cls_name c +:+ " is not an interface")))
  end.

Definition service (c : class) (fw : framework) : framework * result failure proxy :=
  match fw !! cls_name c with
  | Some p => (fw, Ok p)
  | None =>
    match createProxyInternal c with
    | Ok p => (<[cls_name c := p]> fw, Ok p)
    | Err e => (fw, Err e)
    end
  end.

(** One service interface of the loop of the constructor. *)
Definition add_proxy (c : class) (fw : framework) : result failure framework :=
  if isInterface c then p ← createProxyInternal c; Ok (<[cls_name c := p]> fw) else Ok fw.

Fixpoint add_proxies (cs : list class) (fw : framework) : result failure framework :=
  match cs with [] => Ok fw | c :: cs => fw ← add_proxy c fw; add_proxies cs fw end.

(** The constructor; [connect] is what [registryClient.connect] does. *)
Definition new_framework (entries : list string) (connect : result throwable unit) (base : string)
    : result failure framework :=
  _ ← map_err Thrown connect;
  if String.eqb base "" then Ok ∅
  else cs ← loadClasses entries base; add_proxies (services cs) ∅.

(** [inject]: the fields that were set, and the exception that ended it. *)
Fixpoint inject (fields : list field) (fw : framework)
    : framework * list (string * proxy) * option failure :=
  match fields with
  | [] => (fw, [], None)
  | f :: fields =>
    if fld_inject f then
      match service (fld_type f) fw with
      | (fw, Err e) => (fw, [], Some e)
      | (fw, Ok p) =>
        let '(fw, set, e) := inject fields fw in (fw, (fld_name f, p) :: set, e)
      end
    else inject fields fw
  end.

(** ** [main] *)

(** How [main] ended: without a framework; or with [shutdown] in the [finally], the
    fields set, and the exception if there was one. *)
Inductive ending : Type :=
| NoFramework (e : failure)
| Ended (set : list (string * proxy)) (e : option failure).

(** [getDeclaredConstructor().newInstance()], [declaredFields], and
    [getMethod("run").invoke(app)] with the fields set. *)
Context (newInstance : class → option failure) (declaredFields : class → list field)
  (run : class → list (string * proxy) → option failure).

Definition main (l : loader) (entries : list string)
    (connect : RpcApp → result throwable unit) : ending :=
  match findAnnotatedClass l with
  | Err e => NoFramework e
  | Ok c =>
    match rpcApp c with
    | None => NoFramework NullPointerException
    | Some anno =>
      let base := if String.eqb (basePackage anno) "" then packageName c else basePackage anno in
      match new_framework entries (connect anno) base with
      | Err e => NoFramework e
      | Ok fw =>
        match newInstance c with
        | Some e => Ended [] (Some e)
        | None =>
          let '(_, set, e) := inject (declaredFields c) fw in
          match e with
          | Some e => Ended set (Some e)
          | None => Ended set (run c set)
          end
        end
      end
    end
  end.

(** ** Lemmas *)

(** There is a file at this path below the node. *)
Inductive has_file : node → list string → Prop :=
| has_file_here jar : has_file (NFile jar) []
| has_file_below cs nm c path : (nm, c) ∈ cs → has_file c path → has_file (NDir cs) (nm :: path).

Lemma node_tree_ind (P : node → Prop) :
  (∀ jar, P (NFile jar)) → (∀ cs, Forall (λ x, P x.2) cs → P (NDir cs)) → ∀ n, P n.
Proof.
  intros Hf Hd. fix IH 1. intros [jar|cs]; [apply Hf|]. apply Hd.
  induction cs as [|[x c] cs IHcs]; constructor; [apply IH|exact IHcs].
Qed.

Lemma walk_files_elem : ∀ n rel name path nm,
  (path, nm) ∈ walk_files rel name n ↔
  ∃ q, has_file n q ∧ path = rel ++ q ∧ nm = default name (last q).
Proof.
  induction n as [jar|cs IH] using node_tree_ind; intros rel name path nm.
  - simpl. rewrite list_elem_of_singleton. split.
    + intros [= -> ->]. exists []. rewrite app_nil_r. split; [constructor|done].
    + intros (q & Hq & -> & ->). inversion Hq; subst. by rewrite app_nil_r.
  - cbn [walk_files].
    assert (Hgo : ∀ l : list (string * node), Forall (λ x, ∀ rel name path nm,
        (path, nm) ∈ walk_files rel name x.2 ↔
        ∃ q, has_file x.2 q ∧ path = rel ++ q ∧ nm = default name (last q)) l →
      (path, nm) ∈ (fix go cs := match cs with
                  | [] => []
                  | (nm, c) :: cs => walk_files (rel ++ [nm]) nm c ++ go cs
                  end) l ↔
      ∃ x c q, (x, c) ∈ l ∧ has_file c q ∧ path = rel ++ x :: q ∧ nm = default name (last (x :: q))).
    { clear IH. induction 1 as [|[x c] l Hx Hl IHl]; [set_solver|]. rewrite elem_of_app, IHl, Hx. split.
      - intros [(q & Hq & -> & ->)|(y & d & q & ? & ?)]; [exists x, c, q|exists y, d, q; set_solver].
        rewrite <- app_assoc, last_cons. split_and!; [set_solver|done..|]. by destruct (last q).
      - intros (y & d & q & [[= -> ->]|Hin]%elem_of_cons & Hq & -> & ->).
        + left. exists q. rewrite <- app_assoc, last_cons. split_and!; [done..|]. by destruct (last q).
        + right. exists y, d, q. done. }
    rewrite (Hgo _ IH). split.
    + intros (x & c & q & Hin & Hq & -> & ->). exists (x :: q). split; [by econstructor|done].
    + intros (q & Hq & -> & ->). inversion Hq; subst. eauto 10.
Qed.

Lemma descend_app p1 p2 : ∀ n, descend n (p1 ++ p2) = n ← descend n p1; descend n p2.
Proof.
  induction p1 as [|c p1 IH]; intros n; [done|]. destruct n as [jar|cs]; [done|]. simpl.
  destruct (child c cs) as [n|]; [apply IH|done].
Qed.

(** A class file below the entry of a class path, by its path. *)
Definition class_file (entry : string) (sub q : list string) : Prop :=
  ∃ n, file_at entry sub = Some n ∧ has_file n q ∧
       extension (default (name_at entry sub) (last q)) = "class".

Lemma walkUrl_file entry sub packagePath name :
  name ∈ walkUrl (FileUrl entry sub) packagePath ↔
  ∃ q, class_file entry (sub ++ components packagePath) q ∧
       name = className (String.concat "/" (components packagePath ++ q)).
Proof.
  unfold class_file. cbn [walkUrl]. destruct (file_at entry _) as [n|].
  - rewrite list_elem_of_fmap. split.
    + intros ([rel nm] & -> & Hin). apply list_elem_of_filter in Hin as [He Hin].
      apply walk_files_elem in Hin as (q & Hq & -> & ->). eauto 10.
    + intros (q & (n' & [= <-] & Hq & He) & ->). eexists (_, _). split; [reflexivity|].
      apply list_elem_of_filter. split; [exact He|]. apply walk_files_elem. eauto.
  - split; [set_solver|]. intros (q & (n & ? & _) & _). done.
Qed.

Lemma find_annotated_Ok names c :
  find_annotated names = Ok c → is_Some (rpcApp c) ∧ ∃ name, name ∈ names ∧ forName name = Loaded c.
Proof.
  induction names as [|name names IH]; [done|]. simpl.
  destruct (forName name) as [d| |] eqn:E; [destruct (rpcApp d) eqn:Ea| |]; intros H.
  - simplify_eq. rewrite Ea. split; [eauto|]. exists name. set_solver.
  - destruct (IH H) as [? (m & ? & ?)]. split; [done|]. exists m. set_solver.
  - destruct (IH H) as [? (m & ? & ?)]. split; [done|]. exists m. set_solver.
  - done.
Qed.

Lemma find_annotated_complete names name c :
  (∀ m, m ∈ names → forName m ≠ NoDefinition) →
  name ∈ names → forName name = Loaded c → is_Some (rpcApp c) → ∃ d, find_annotated names = Ok d.
Proof.
  intros Hdef Hin E Ha. induction names as [|m names IH]; [set_solver|]. simpl.
  assert (Hrest : name ≠ m → ∃ d, find_annotated names = Ok d).
  { intros Hne. apply IH; set_solver. }
  destruct (forName m) as [d| |] eqn:Em.
  - destruct (rpcApp d) eqn:Ed; [eauto|]. apply Hrest. intros ->. rewrite E in Em. simplify_eq.
    rewrite Ed in Ha. by destruct Ha.
  - apply Hrest. intros ->. by rewrite E in Em.
  - by destruct (Hdef m); [set_solver|].
Qed.

Lemma class_path_names property name :
  name ∈ mjoin ((λ url, walkUrl url "") <$> getClasspathUrls (OtherLoader property)) ↔
  ∃ entry q, entry ∈ class_path property ∧ class_file entry [] q ∧
             name = className (String.concat "/" q).
Proof.
  rewrite list_elem_of_join. split.
  - intros (names & Hin & Hns). apply list_elem_of_fmap in Hns as (url & -> & Hu).
    apply list_elem_of_fmap in Hu as (entry & -> & He).
    apply walkUrl_file in Hin as (q & Hq & ->). eauto.
  - intros (entry & q & He & Hq & ->). exists (walkUrl (FileUrl entry []) ""). split.
    + apply walkUrl_file. eauto.
    + apply list_elem_of_fmap. exists (FileUrl entry []). split; [done|].
      apply list_elem_of_fmap. eauto.
Qed.

(** An entry of the class path that is a file, such as a jar, but no class file. *)
Definition archive (entry : string) : Prop :=
  (∃ jar, fs entry = Some (NFile jar)) ∧ extension (name_at entry []) ≠ "class".

Lemma archive_no_class entry q : archive entry → ¬ class_file entry [] q.
Proof.
  intros [[jar E] Hext] (n & Hn & Hq & He). unfold file_at in Hn. rewrite E in Hn. simplify_eq/=.
  inversion Hq; subst. done.
Qed.

(** ** What the scan of a package finds *)

(** The class names that [loadClasses] gets from an entry of the class path. *)
Definition package_names (packagePath entry : string) : list string :=
  match resource_in packagePath entry with Some url => walkUrl url packagePath | None => [] end.

Lemma package_names_dir packagePath entry cs name :
  let pkg := components packagePath in
  fs entry = Some (NDir cs) →
  (name ∈ package_names packagePath entry ↔
   ∃ q, class_file entry (pkg ++ pkg) q ∧ name = className (String.concat "/" (pkg ++ q))).
Proof.
  intros pkg E. unfold package_names, resource_in. rewrite E. fold pkg.
  destruct (descend (NDir cs) pkg) as [n|] eqn:Ed; [apply walkUrl_file|]. split; [set_solver|].
  intros (q & (n & Hn & _) & _). exfalso. unfold file_at in Hn. rewrite E in Hn. simpl in Hn.
  by rewrite descend_app, Ed in Hn.
Qed.

Lemma package_names_jar packagePath entry jar name :
  fs entry = Some (NFile jar) → packagePath ≠ "" →
  (name ∈ package_names packagePath entry ↔
   (packagePath ∈ jar ∨ packagePath +:+ "/" ∈ jar) ∧
   ∃ e, e ∈ jar ∧ endsWith e "/" = false ∧ startsWith e (packagePath +:+ "/") = true ∧
        endsWith e ".class" = true ∧ name = className e).
Proof.
  intros E Hne. unfold package_names, resource_in. rewrite E.
  assert (Hb : bool_decide (packagePath ∈ jar) || bool_decide (packagePath +:+ "/" ∈ jar) = true ↔
    packagePath ∈ jar ∨ packagePath +:+ "/" ∈ jar).
  { by rewrite orb_true_iff, !bool_decide_eq_true. }
  destruct (_ || _); [|split; [set_solver|intros [H _]; by apply Hb in H]].
  cbn [walkUrl]. rewrite list_elem_of_fmap.
  replace (String.eqb packagePath "") with false by (symmetry; by apply String.eqb_neq).
  split.
  - intros (e & -> & [Hf He]%list_elem_of_filter). split; [by apply Hb|].
    apply andb_prop_elim in Hf as [[? ?]%andb_prop_elim ?]. exists e.
    destruct (endsWith e "/"), (startsWith e _), (endsWith e ".class"); done.
  - intros [_ (e & He & H1 & H2 & H3 & ->)]. exists e. split; [done|]. apply list_elem_of_filter.
    by rewrite H1, H2, H3.
Qed.

(** ** Properties *)

(** C28: which application [main] finds.  On a class path of directories it is an
    annotated class of one of them, and one is found if there is any and no class file
    lacks a definition.  The classes inside a jar are never looked at: when the class
    path consists of jars, [main] ends with an exception whatever the jars contain. *)
Theorem application_found (property : option string) (entries : list string)
    (connect : RpcApp → result throwable unit) :
  let l := OtherLoader property in
  let on_path c := ∃ entry q, entry ∈ class_path property ∧ class_file entry [] q ∧
    forName (className (String.concat "/" q)) = Loaded c ∧ is_Some (rpcApp c) in
  (∀ c, findAnnotatedClass l = Ok c → on_path c) ∧
  ((∀ name, forName name ≠ NoDefinition) →
   (∃ c, on_path c) → ∃ c, findAnnotatedClass l = Ok c) ∧
  ((∀ entry, entry ∈ class_path property → archive entry) →
   main l entries connect = NoFramework
     (Thrown (RuntimeException "No class annotated with @RpcApp found on classpath" None))).
Proof.
  intros l on_path. split_and!.
  - intros c H. apply find_annotated_Ok in H as [Ha (name & Hin & E)].
    apply class_path_names in Hin as (entry & q & ? & ? & ->). by exists entry, q.
  - intros Hdef (c & entry & q & He & Hq & E & Ha).
    apply (find_annotated_complete _ (className (String.concat "/" q)) c); try done.
    apply class_path_names. eauto.
  - intros Hall. unfold main, findAnnotatedClass.
    assert (Hnil : mjoin ((λ url, walkUrl url "") <$> getClasspathUrls l) = []).
    { apply elem_of_nil_inv. intros name (entry & q & He & Hq & _)%class_path_names.
      by apply (archive_no_class entry q (Hall _ He)). }
    by rewrite Hnil.
Qed.

(** What the scan of a package finds.  In a jar it is the classes of the package and
    the packages below it.  In a directory it looks for the path of the package once
    more, below the directory of the package that the class loader has found, so a
    directory without a copy of the package inside the package contributes no class. *)
Theorem package_scan (base entry : string) :
  let packagePath := replace "."%char "/"%char base in
  let pkg := components packagePath in
  packagePath ≠ "" →
  match fs entry with
  | None => package_names packagePath entry = []
  | Some (NFile jar) => ∀ name, name ∈ package_names packagePath entry ↔
      (packagePath ∈ jar ∨ packagePath +:+ "/" ∈ jar) ∧
      ∃ e, e ∈ jar ∧ endsWith e "/" = false ∧ startsWith e (packagePath +:+ "/") = true ∧
           endsWith e ".class" = true ∧ name = className e
  | Some (NDir cs) =>
    (∀ name, name ∈ package_names packagePath entry ↔
       ∃ q, class_file entry (pkg ++ pkg) q ∧ name = className (String.concat "/" (pkg ++ q))) ∧
    (descend (NDir cs) (pkg ++ pkg) = None → package_names packagePath entry = [])
  end ∧
  ∀ entries, loadClasses entries base = load_all (mjoin (package_names packagePath <$> entries)).
Proof.
  intros packagePath pkg Hne. split.
  - destruct (fs entry) as [[jar|cs]|] eqn:E.
    + intros name. by apply package_names_jar.
    + split; [intros name; by eapply package_names_dir|]. intros Hno. apply elem_of_nil_inv.
      intros name Hin. eapply package_names_dir in Hin as (q & (n & Hn & _) & _); [|done].
      unfold file_at in Hn. rewrite E in Hn. assert (descend (NDir cs) (pkg ++ pkg) = Some n) by exact Hn. congruence.
    + unfold package_names, resource_in. by rewrite E.
  - intros entries. unfold loadClasses. fold packagePath. f_equal. unfold getResources.
    induction entries as [|x entries IH]; [done|]. rewrite omap_cons, (fmap_cons (package_names _)).
    change (mjoin (package_names packagePath x :: ?l)) with (package_names packagePath x ++ mjoin l).
    rewrite <- IH. unfold package_names. by destruct (resource_in packagePath x).
Qed.

(** ** Injection *)

Section inject.
(** Classes are known by their names. *)
Context (classOf : string → class).
Definition genuine (c : class) : Prop := classOf (cls_name c) = c.

Definition proxies_ok (fw : framework) : Prop :=
  ∀ name p, fw !! name = Some p → createProxyInternal (classOf name) = Ok p.

(** The fields in order, each with the proxy of its own type. *)
Fixpoint inject_each (fields : list field) : list (string * proxy) * option failure :=
  match fields with
  | [] => ([], None)
  | f :: fields =>
    match createProxyInternal (fld_type f) with
    | Err e => ([], Some e)
    | Ok p => let '(set, e) := inject_each fields in ((fld_name f, p) :: set, e)
    end
  end.

Lemma proxies_ok_insert fw c p :
  proxies_ok fw → genuine c → createProxyInternal c = Ok p → proxies_ok (<[cls_name c := p]> fw).
Proof.
  intros Hfw Hc E name q [[<- <-]|[_ H]]%lookup_insert_Some; [by rewrite Hc|by apply Hfw].
Qed.

Lemma service_spec c fw :
  proxies_ok fw → genuine c →
  (service c fw).2 = createProxyInternal c ∧ proxies_ok (service c fw).1.
Proof.
  intros Hfw Hc. unfold service. destruct (fw !! cls_name c) as [p|] eqn:E.
  - apply Hfw in E as E'. by rewrite Hc in E'.
  - destruct (createProxyInternal c) as [p|e] eqn:Ep; [|done]. split; [done|].
    by apply proxies_ok_insert.
Qed.

Lemma inject_spec fields : ∀ fw,
  proxies_ok fw → Forall (λ f, genuine (fld_type f)) fields →
  (inject fields fw).1.2 = (inject_each (filter (λ f, fld_inject f = true) fields)).1 ∧
  (inject fields fw).2 = (inject_each (filter (λ f, fld_inject f = true) fields)).2.
Proof.
  induction fields as [|f fields IH]; intros fw Hfw Hall; [done|].
  apply Forall_cons in Hall as [Hf Hall]. cbn [inject].
  destruct (fld_inject f) eqn:Ei.
  - rewrite filter_cons_True by done. cbn [inject_each].
    destruct (service_spec (fld_type f) fw Hfw Hf) as [Es Hfw'].
    destruct (service (fld_type f) fw) as [fw' r]. simpl in *. subst r.
    destruct (createProxyInternal (fld_type f)) as [p|e]; [|done].
    destruct (IH fw' Hfw' Hall) as [H1 H2]. destruct (inject fields fw') as [[fw2 set] e].
    destruct (inject_each _) as [set' e']. simpl in *. by subst.
  - rewrite filter_cons_False by congruence. by apply IH.
Qed.

Lemma load_all_genuine names : ∀ cs,
  (∀ name c, forName name = Loaded c → genuine c) → load_all names = Ok cs → Forall genuine cs.
Proof.
  intros cs Hg. revert cs. induction names as [|name names IH]; simpl; intros cs H.
  { simplify_eq. constructor. }
  destruct (forName name) as [c| |] eqn:E; [|done|by apply IH].
  destruct (load_all names) as [cs'|]; [|done]. simplify_eq/=. constructor; eauto.
Qed.

Lemma add_proxies_ok cs : ∀ fw fw',
  Forall genuine cs → proxies_ok fw → add_proxies cs fw = Ok fw' → proxies_ok fw'.
Proof.
  induction cs as [|c cs IH]; simpl; intros fw fw' Hg Hfw H; [by simplify_eq|].
  apply Forall_cons in Hg as [Hc Hg]. unfold add_proxy in H.
  destruct (isInterface c); [|by eapply IH].
  destruct (createProxyInternal c) as [p|] eqn:E; simpl in H; [|done].
  eapply IH; [done| |done]. by apply proxies_ok_insert.
Qed.

Lemma new_framework_ok entries connect base fw :
  (∀ name c, forName name = Loaded c → genuine c) →
  new_framework entries connect base = Ok fw → proxies_ok fw.
Proof.
  intros Hg H. unfold new_framework in H. destruct connect as [[]|e]; simpl in H; [|done].
  destruct (String.eqb base ""); [simplify_eq; intros name p Hp; by rewrite lookup_empty in Hp|].
  destruct (loadClasses entries base) as [cs|] eqn:El; simpl in H; [|done].
  eapply add_proxies_ok; [| |done].
  - apply load_all_genuine in El; [|done]. rewrite Forall_forall in *.
    intros c [_ Hc]%list_elem_of_filter. by apply El.
  - intros name p Hp. by rewrite lookup_empty in Hp.
Qed.

(** Injection does not depend on the scan.  Whatever classes the scan of the
    constructor found, and whichever proxies it made, [inject] sets exactly the fields
    with [@RpcInject], in order, each to the proxy of its own type with the service name
    of the annotation or else the simple name of the interface, up to the first field
    whose type is no annotated interface, for which it throws. *)
Theorem inject_services (entries : list string) (connect : result throwable unit) (base : string)
    (fw : framework) (fields : list field) :
  (∀ name c, forName name = Loaded c → genuine c) →
  Forall (λ f, genuine (fld_type f)) fields →
  new_framework entries connect base = Ok fw →
  let '(_, set, e) := inject fields fw in
  (set, e) = inject_each (filter (λ f, fld_inject f = true) fields) ∧
  (e = None ↔ ∀ f, f ∈ fields → fld_inject f = true →
     isInterface (fld_type f) = true ∧ is_Some (rpcService (fld_type f))).
Proof.
  intros Hg Hf Hfw. destruct (inject_spec fields fw) as [H1 H2]; [by eapply new_framework_ok|done|].
  destruct (inject fields fw) as [[fw' set] e]. simpl in *. subst. split; [by destruct inject_each|].
  clear. induction fields as [|f fields IH]; [set_solver|].
  destruct (fld_inject f) eqn:Ei.
  - rewrite filter_cons_True by done. cbn [inject_each]. unfold createProxyInternal.
    destruct (rpcService (fld_type f)) as [v|] eqn:Er; [destruct (isInterface (fld_type f)) eqn:Ef|].
    + destruct (inject_each _) as [set e]. simpl in *. rewrite IH. split; [|set_solver].
      intros H g [->|Hin]%elem_of_cons Hi; [by rewrite Er, Ef|by apply H].
    + simpl. split; [done|]. intros H. destruct (H f) as [? _]; [set_solver|done|congruence].
    + simpl. split; [done|]. intros H. destruct (H f) as [_ [? ?]]; [set_solver|done|congruence].
  - rewrite filter_cons_False by congruence. rewrite IH. split; [|set_solver].
    intros H g [->|Hin]%elem_of_cons Hi; [congruence|by apply H].
Qed.

End inject.
End scanner.
(** ** The application of the repository, from a directory and from its jar *)

Definition demo_app : class :=
  {| cls_name := "tech.bobliu.rpc.app.GachaApp"; simpleName := "GachaApp";
     packageName := "tech.bobliu.rpc.app"; isInterface := false; rpcService := None;
     rpcApp := Some {| basePackage := "tech.bobliu.rpc.app"; registryHost := "usst2.bobliu.tech";
                       registryPort := 9000; debug := true |} |}.

Definition demo_service (name simple : string) : class :=
  {| cls_name := "tech.bobliu.rpc.app." +:+ simple; simpleName := simple;
     packageName := "tech.bobliu.rpc.app"; isInterface := true; rpcService := Some name;
     rpcApp := None |}.

Definition demo_fields : list field :=
  [{| fld_name := "userService"; fld_type := demo_service "UserService" "UserServiceRpc"; fld_inject := true |};
   {| fld_name := "gachaService"; fld_type := demo_service "GachaService" "GachaServiceRpc"; fld_inject := true |};
   {| fld_name := "currentUserName"; fld_inject := false;
      fld_type := {| cls_name := "java.lang.String"; simpleName := "String"; packageName := "java.lang";
                     isInterface := false; rpcService := None; rpcApp := None |} |}].

Definition demo_classes : list class := demo_app :: (fld_type <$> demo_fields).

Definition demo_classOf (name : string) : class :=
  default demo_app (head (filter (λ c, cls_name c = name) demo_classes)).

Definition demo_forName (name : string) : load :=
  match head (filter (λ c, cls_name c = name) demo_classes) with Some c => Loaded c | None => NotFound end.

Definition demo_fs (path : string) : option node :=
  if String.eqb path "target/classes" then
    Some (NDir [("tech", NDir [("bobliu", NDir [("rpc", NDir [("app", NDir
      [("GachaApp.class", NFile []); ("UserServiceRpc.class", NFile []);
       ("GachaServiceRpc.class", NFile [])])])])])])
  else if String.eqb path "rpc.client.jar" then
    Some (NFile ["META-INF/MANIFEST.MF"; "tech/bobliu/rpc/app/"; "tech/bobliu/rpc/app/GachaApp.class";
                 "tech/bobliu/rpc/app/UserServiceRpc.class"; "tech/bobliu/rpc/app/GachaServiceRpc.class"])
  else None.

Definition demo_main (path : string) : ending :=
  main demo_fs ":"%char demo_forName (λ _, None) (λ _, demo_fields) (λ _ _, None)
    (OtherLoader (Some path)) [path] (λ _, Ok tt).

Example demo_from_directory :
  demo_main "target/classes" = Ended
    [("userService", {| px_interface := "tech.bobliu.rpc.app.UserServiceRpc"; px_service := "UserService" |});
     ("gachaService", {| px_interface := "tech.bobliu.rpc.app.GachaServiceRpc"; px_service := "GachaService" |})]
    None.
Proof. vm_compute. reflexivity. Qed.

Example demo_from_jar :
  demo_main "rpc.client.jar" = NoFramework
    (Thrown (RuntimeException "No class annotated with @RpcApp found on classpath" None)).
Proof. vm_compute. reflexivity. Qed.

(** The scan of the package: nothing from the directory, all three classes from the jar. *)
Example demo_scan :
  package_names demo_fs "tech/bobliu/rpc/app" <$> ["target/classes"; "rpc.client.jar"] =
  [[]; ["tech.bobliu.rpc.app.GachaApp"; "tech.bobliu.rpc.app.UserServiceRpc";
        "tech.bobliu.rpc.app.GachaServiceRpc"]].
Proof. vm_compute. reflexivity. Qed.

Lemma package_scan_witness :
  package_names demo_fs "tech/bobliu/rpc/app" "target/classes" = [].
Proof.
  destruct (package_scan demo_fs demo_forName "tech.bobliu.rpc.app" "target/classes")
    as [[_ H] _]; [discriminate|]. apply H. reflexivity.
Defined.

Lemma inject_services_witness :
  ∃ fw, new_framework demo_fs demo_forName ["rpc.client.jar"] (Ok tt) "tech.bobliu.rpc.app" = Ok fw ∧
  (inject demo_fields fw).1.2 = (inject_each (filter (λ f, fld_inject f = true) demo_fields)).1.
Proof.
  destruct (new_framework demo_fs demo_forName ["rpc.client.jar"] (Ok tt) "tech.bobliu.rpc.app")
    as [fw|] eqn:E; [|vm_compute in E; discriminate E].
  exists fw. split; [reflexivity|].
  pose proof (inject_services demo_fs demo_forName demo_classOf ["rpc.client.jar"] (Ok tt)
    "tech.bobliu.rpc.app" fw demo_fields) as H.
  destruct (inject demo_fields fw) as [[fw' set] e]. destruct H as [H _].
  - intros name c Hl. unfold demo_forName in Hl. unfold genuine, demo_classOf.
    assert (Hn : cls_name c = name).
    { destruct (filter _ demo_classes) as [|d l] eqn:Ef; [discriminate Hl|]. injection Hl as ->.
      assert (Hin : c ∈ filter (λ c, cls_name c = name) demo_classes) by (rewrite Ef; left).
      by apply list_elem_of_filter in Hin as [? _]. }
    subst name. destruct (filter _ demo_classes) as [|d l]; [discriminate Hl|]. by injection Hl as ->.
  - repeat constructor.
  - exact E.
  - by rewrite <- H.
Defined.

End Framework.
