(* ===== verification/GachaApp.v ===== *)
(** * The console application: [src/client/.../app/GachaApp.java]

    [run] reads commands and calls the two services through the proxies that the
    framework has put into its fields.  The proxies are parameters: what a call of one
    returns and does is the class [Services], which is stated over the methods of
    [User.v] and [Gacha.v]. *)

From S2P Require Import Prelude GoLib Pb Handler Db Rand Gacha User Fault.

(** ** [java.lang.String] and [java.lang.Float] *)
Module Java.

Definition code (c : ascii) : Z := Z.of_N (N_of_ascii c).

Fixpoint drop_while (p : ascii → bool) (s : string) : string :=
  match s with String c s' => if p c then drop_while p s' else s | EmptyString => "" end.

(** [trim]: characters up to the blank are removed at both ends. *)
Definition trim (s : string) : string :=
  let cut := drop_while (λ c, code c <=? 32) in String.rev (cut (String.rev (cut s))).

(** The class [\s] of a regular expression. *)
Definition is_space (c : ascii) : bool := (code c =? 32) || ((9 <=? code c) && (code c <=? 13)).

Definition starts_with_space (s : string) : bool :=
  match s with String c _ => is_space c | EmptyString => false end.

(** The pieces between runs of white space. *)
Fixpoint pieces (s : string) : list string :=
  match s with
  | EmptyString => [""]
  | String c s =>
    if is_space c then if starts_with_space s then pieces s else "" :: pieces s
    else match pieces s with w :: ws => String c w :: ws | [] => [String c ""] end
  end.

(** Empty strings at the end are left out. *)
Fixpoint drop_trailing (l : list string) : list string :=
  match l with
  | [] => []
  | w :: l => match drop_trailing l with [] => if String.eqb w "" then [] else [w] | l => w :: l end
  end.

(** [split("\\s+")]; a string without a match is its own only piece. *)
Definition split_spaces (s : string) : list string :=
  if String.eqb s "" then [""] else drop_trailing (pieces s).

(** *** [Float.parseFloat] *)

Definition hex_val (c : ascii) : option Z :=
  let n := code c in
  if (48 <=? n) && (n <=? 57) then Some (n - 48)
  else if (65 <=? n) && (n <=? 70) then Some (n - 55)
  else if (97 <=? n) && (n <=? 102) then Some (n - 87)
  else None.

Definition digit_in (base : Z) (c : ascii) : option Z :=
  v ← hex_val c; if v <? base then Some v else None.

(** The digits at the start, with [acc] in front of them: their value, how many there
    are, and what follows. *)
Fixpoint take_digits (base acc : Z) (s : string) : Z * Z * string :=
  match s with
  | String c s' =>
    match digit_in base c with
    | Some d => let '(v, n, rest) := take_digits base (acc * base + d) s' in (v, n + 1, rest)
    | None => (acc, 0, s)
    end
  | EmptyString => (acc, 0, s)
  end.

Definition one_of (cs : list ascii) (s : string) : option string :=
  match s with String c s => if bool_decide (c ∈ cs) then Some s else None | EmptyString => None end.

(** A sign; [true] for minus. *)
Definition take_sign (s : string) : bool * string :=
  match s with
  | String c s' =>
    if Ascii.eqb c "-" then (true, s') else if Ascii.eqb c "+" then (false, s') else (false, s)
  | EmptyString => (false, s)
  end.

(** An exponent after its letter. *)
Definition take_exponent (s : string) : option (Z * string) :=
  let '(neg, s) := take_sign s in
  let '(v, n, rest) := take_digits 10 0 s in
  if n =? 0 then None else Some (if (neg : bool) then - v else v, rest).

(** Digits with a point: the value without the point, the digits after the point, and
    what follows; [None] if there is no digit. *)
Definition take_significand (base : Z) (s : string) : option (Z * Z * string) :=
  let '(v, n, rest) := take_digits base 0 s in
  match one_of ["."%char] rest with
  | None => if n =? 0 then None else Some (v, 0, rest)
  | Some rest =>
    let '(v, m, rest) := take_digits base v rest in
    if n + m =? 0 then None else Some (v, m, rest)
  end.

(** The end of a literal, after a type suffix. *)
Definition at_end (s : string) : bool :=
  String.eqb (default s (one_of ["f"; "F"; "d"; "D"]%char s)) "".

(** A value that is not negative: [n / d], or infinite, or no number. *)
Inductive value : Type := VNaN | VInfinity | VRatio (n d : Z).

(** [m * base^e] *)
Definition scaled (m base e : Z) : value :=
  if 0 <=? e then VRatio (m * base ^ e) 1 else VRatio m (base ^ (- e)).

Definition decimal (s : string) : option value :=
  '(m, frac, rest) ← take_significand 10 s;
  match one_of ["e"; "E"]%char rest with
  | None => if at_end rest then Some (scaled m 10 (- frac)) else None
  | Some rest =>
    '(e, rest) ← take_exponent rest;
    if at_end rest then Some (scaled m 10 (e - frac)) else None
  end.

Definition hexadecimal (s : string) : option value :=
  '(m, frac, rest) ← take_significand 16 s;
  rest ← one_of ["p"; "P"]%char rest;
  '(e, rest) ← take_exponent rest;
  if at_end rest then Some (scaled m 2 (e - 4 * frac)) else None.

Definition literal (s : string) : option value :=
  if String.eqb s "NaN" then Some VNaN
  else if String.eqb s "Infinity" then Some VInfinity
  else
    match (r ← one_of ["0"]%char s; one_of ["x"; "X"]%char r) with
    | Some r => hexadecimal r
    | None => decimal s
    end.

(** [float] rounding of a ratio, to the nearest with ties to even: [q * 2^e] with [q] of
    24 bits, or fewer at the smallest exponent. *)
Definition round_float (n d : Z) : value :=
  if n =? 0 then VRatio 0 1
  else
    let k := Z.log2 n - Z.log2 d in
    let below := if 0 <=? k then n <? d * 2 ^ k else n * 2 ^ (- k) <? d in
    let e := Z.max (-149) ((if below then k - 1 else k) - 23) in
    let num := if 0 <=? e then n else n * 2 ^ (- e) in
    let den := if 0 <=? e then d * 2 ^ e else d in
    let q := num / den in
    let r := num mod den in
    let q := if (den <? 2 * r) || ((den =? 2 * r) && Z.odd q) then q + 1 else q in
    if 2 ^ 128 <=? q * 2 ^ Z.max 0 e then VInfinity else scaled q 2 e.

(** [parseFloat]: the sign and the value; [None] is a [NumberFormatException]. *)
Definition parseFloat (s : string) : option (bool * value) :=
  let '(neg, s) := take_sign (trim s) in
  v ← literal s;
  Some (neg, match v with VRatio n d => round_float n d | v => v end).

(** The cast to [int]. *)
Definition to_int (x : bool * value) : Z :=
  let '(neg, v) := x in
  match v with
  | VNaN => 0
  | VInfinity => if (neg : bool) then - 2 ^ 31 else 2 ^ 31 - 1
  | VRatio n d =>
    let t := n / d in Z.max (- 2 ^ 31) (Z.min (2 ^ 31 - 1) (if (neg : bool) then - t else t))
  end.

Definition int_of (s : string) : option Z := to_int <$> parseFloat s.

Example int_of_values :
  int_of <$> ["1"; "10"; "3.9"; "-0.5"; "0.99999999"; "16777217"; ".5e1f"; "0x1.8p1"; "NaN";
              "-Infinity"; "1e10"; "1e-50"; "2147483520"; "abc"; ""; "1e"; "0x10"; "3 "] =
  [Some 1; Some 10; Some 3; Some 0; Some 1; Some 16777216; Some 5; Some 3; Some 0;
   Some (- 2 ^ 31); Some (2 ^ 31 - 1); Some 0; Some 2147483520; None; None; None; None; Some 3].
Proof. vm_compute. reflexivity. Qed.

Example split_examples :
  split_spaces (trim "  draw   3 ") = ["draw"; "3"] ∧ split_spaces "" = [""] ∧ split_spaces " a" = [""; "a"].
Proof. vm_compute. auto. Qed.

(** *** A line that is not empty after [trim] has a first part *)

Fixpoint some_char (p : ascii → bool) (s : string) : bool :=
  match s with EmptyString => false | String c s => p c || some_char p s end.

Lemma some_char_rev_app p s : ∀ t, some_char p (String.rev_app s t) = some_char p s || some_char p t.
Proof.
  induction s as [|c s IH]; intros t; [done|]. simpl. rewrite IH. simpl.
  by destruct (p c), (some_char p s).
Qed.

Lemma drop_while_char p s :
  drop_while p s ≠ "" → some_char (λ c, negb (p c)) (drop_while p s) = true.
Proof.
  induction s as [|c s IH]; [done|]. simpl. destruct (p c) eqn:E; [done|]. simpl. by rewrite E.
Qed.

Lemma trim_char s : trim s ≠ "" → some_char (λ c, negb (is_space c)) (trim s) = true.
Proof.
  unfold trim. set (x := String.rev (drop_while _ s)). intros Hne.
  assert (Hx : drop_while (λ c, code c <=? 32) x ≠ "") by (intros E; by rewrite E in Hne).
  apply drop_while_char in Hx. unfold String.rev. rewrite some_char_rev_app, orb_false_r.
  revert Hx. generalize (drop_while (λ c, code c <=? 32) x). intros y.
  induction y as [|c y IH]; [done|]. simpl. intros [H|H]%orb_true_iff; apply orb_true_iff; [left|auto].
  unfold is_space. destruct (Z.leb_spec (code c) 32); [done|].
  destruct (Z.eqb_spec (code c) 32); [lia|]. destruct (Z.leb_spec (code c) 13); [lia|].
  by rewrite andb_false_r.
Qed.

Lemma pieces_char s :
  some_char (λ c, negb (is_space c)) s = true → Exists (λ w, w ≠ "") (pieces s).
Proof.
  induction s as [|c s IH]; [done|]. simpl. destruct (is_space c); simpl; intros H.
  - destruct (starts_with_space s); [auto|]. right. auto.
  - destruct (pieces s); by left.
Qed.

Lemma drop_trailing_nil l : drop_trailing l = [] → Forall (λ w, w = "") l.
Proof.
  induction l as [|w l IH]; [done|]. simpl. destruct (drop_trailing l); [|done].
  destruct (String.eqb_spec w ""); [|done]. auto.
Qed.

Lemma split_trim s : trim s ≠ "" → split_spaces (trim s) ≠ [].
Proof.
  intros Hne. unfold split_spaces. destruct (String.eqb_spec (trim s) ""); [done|].
  intros E%drop_trailing_nil. apply trim_char, pieces_char, Exists_exists in Hne as (w & Hin & Hw).
  rewrite Forall_forall in E. auto.
Qed.

End Java.

Module GachaApp.
Import Handler Gacha Fault Java.

Section app.
(** The proxies [userService] and [gachaService], on the state [W] of everything else. *)
Context {W : Type}.
Context (register : App.RegisterRequest → W → W * result throwable App.RegisterResponse)
  (login : App.LoginRequest → W → W * result throwable App.LoginResponse)
  (logout : App.LogoutRequest → W → W * result throwable App.LogoutResponse)
  (draw : App.DrawRequest → W → W * result throwable App.DrawResponse).

(** [String.toLowerCase], which depends on the locale; the line separator; the text of
    a stack trace. *)
Context (toLowerCase : string → string) (nl : string) (printStackTrace : throwable → string).

(** The fields, with the text printed so far and the requests made so far. *)
Record GachaApp : Type := {
  currentUserId : Z;
  currentUserName : option string;
  out : list string;
  requests : list User.request;
}.

Definition new : GachaApp :=
  {| currentUserId := 0; currentUserName := None; out := []; requests := [] |}.

Definition print (text : string) (a : GachaApp) : GachaApp :=
  {| currentUserId := currentUserId a; currentUserName := currentUserName a;
     out := out a ++ [text]; requests := requests a |}.

Definition println (text : string) (a : GachaApp) : GachaApp := print (text +:+ nl) a.

Definition called (q : User.request) (a : GachaApp) : GachaApp :=
  {| currentUserId := currentUserId a; currentUserName := currentUserName a;
     out := out a; requests := requests a ++ [q] |}.

Definition set_user (id : Z) (name : string) (a : GachaApp) : GachaApp :=
  {| currentUserId := id; currentUserName := Some name; out := out a; requests := requests a |}.

(** A command: the new state, or an exception. *)
Definition outcome : Type := GachaApp * W * option throwable.

(** [parts[1]] and [parts[2]], if there are that many. *)
Definition two_arguments (parts : list string) : option (string * string) :=
  match parts with _ :: a :: b :: _ => Some (a, b) | _ => None end.

Definition cmdRegister (parts : list string) (a : GachaApp) (w : W) : outcome :=
  match two_arguments parts with
  | None => (println "用法: register <name> <password>" a, w, None)
  | Some (name, password) =>
    let req := App.Build_RegisterRequest name password in
    let a := called (User.QRegister req) a in
    match register req w with
    | (w, Err e) => (a, w, Some e)
    | (w, Ok resp) => (println ("  " +:+ App.reg_Message resp) a, w, None)
    end
  end.

Definition cmdLogin (parts : list string) (a : GachaApp) (w : W) : outcome :=
  match two_arguments parts with
  | None => (println "用法: login <name> <password>" a, w, None)
  | Some (name, password) =>
    let req := App.Build_LoginRequest name password in
    let a := called (User.QLogin req) a in
    match login req w with
    | (w, Err e) => (a, w, Some e)
    | (w, Ok resp) =>
      let a := println ("  " +:+ App.login_Message resp) a in
      (if 0 <? App.login_UserId resp then set_user (App.login_UserId resp) name a else a, w, None)
    end
  end.

(** The ideographic space U+3000, as wide as a star. *)
Definition wide : string := String "227"%char (String "128"%char (String "128"%char "")).

Definition stars_text (stars : Z) : string :=
  if stars =? 6 then "★★★★★★" else if stars =? 5 then wide +:+ "★★★★★"
  else if stars =? 4 then wide +:+ wide +:+ "★★★★" else wide +:+ wide +:+ wide +:+ "★★★".

Definition card_text (card : App.Card) : string :=
  "  " +:+ stars_text (App.card_Stars card) +:+ " " +:+ App.card_Name card.

(** [(int) Float.parseFloat(parts[1])], 1 without it or if it is no number. *)
Definition draw_count (parts : list string) : Z :=
  match parts with _ :: n :: _ => default 1 (int_of n) | _ => 1 end.

Definition cmdDraw (parts : list string) (a : GachaApp) (w : W) : outcome :=
  if currentUserId a =? 0 then (println "  请先登录!" a, w, None)
  else
    let req := App.Build_DrawRequest (currentUserId a) (draw_count parts) in
    let a := called (User.QDraw req) a in
    match draw req w with
    | (w, Err e) => (a, w, Some e)
    | (w, Ok resp) => (foldl (λ a card, println (card_text card) a) a (App.draw_Cards resp), w, None)
    end.

(** The case [quit]; [true] if [run] returns. *)
Definition cmdQuit (a : GachaApp) (w : W) : outcome * bool :=
  if 0 <? currentUserId a then
    let req := App.Build_LogoutRequest (currentUserId a) in
    let a := called (User.QLogout req) a in
    match logout req w with
    | (w, Err e) => ((a, w, Some e), false)
    | (w, Ok _) => ((println "再见~" a, w, None), true)
    end
  else ((println "再见~" a, w, None), true).

Definition switch (cmd : string) (parts : list string) (a : GachaApp) (w : W) : outcome * bool :=
  if String.eqb cmd "register" then (cmdRegister parts a w, false)
  else if String.eqb cmd "login" then (cmdLogin parts a w, false)
  else if String.eqb cmd "draw" then (cmdDraw parts a w, false)
  else if String.eqb cmd "quit" then cmdQuit a w
  else ((println ("未知命令: " +:+ cmd) a, w, None), false).

(** [toString] of a throwable. *)
Definition to_string (e : throwable) : string :=
  class_name e +:+ match message e with Some m => ": " +:+ m | None => "" end.

(** The two [catch] clauses. *)
Definition catch (e : throwable) (a : GachaApp) : GachaApp :=
  match e with
  | ServerException _ msg => println ("  错误: " +:+ msg) a
  | e => println ("  RPC 错误: " +:+ to_string e +:+ String "010"%char (printStackTrace e)) a
  end.

Definition prompt (a : GachaApp) : string :=
  match currentUserName a with None => "RPC Gacha > " | Some name => "RPC Gacha: " +:+ name +:+ " > " end.

(** How [run] ends: it returns after [quit]; [nextLine] finds no line; [parts[0]] is not
    there. *)
Inductive ending : Type := Returned | NoSuchElementException | ArrayIndexOutOfBoundsException.

(** One iteration of the loop, with the line that was read. *)
Definition iteration (line : string) (a : GachaApp) (w : W) : GachaApp * W * option ending :=
  let a := print (prompt a) a in
  let line := trim line in
  if String.eqb line "" then (a, w, None)
  else
    let parts := split_spaces line in
    match parts with
    | [] => (a, w, Some ArrayIndexOutOfBoundsException)
    | part :: _ =>
      match switch (toLowerCase part) parts a w with
      | ((a, w, None), quit) => (a, w, if (quit : bool) then Some Returned else None)
      | ((a, w, Some e), _) => (catch e a, w, None)
      end
    end.

(** The loop on the lines of the input. *)
Fixpoint loop (lines : list string) (a : GachaApp) (w : W) : GachaApp * W * ending :=
  match lines with
  | [] => (print (prompt a) a, w, NoSuchElementException)
  | line :: lines =>
    match iteration line a w with
    | (a, w, Some e) => (a, w, e)
    | (a, w, None) => loop lines a w
    end
  end.

Definition banner : list string :=
  ["RPC Gacha System"; "  register <name> <password>"; "  login <name> <password>"; "  draw <1-10>";
   "  quit"; ""].

Definition run (lines : list string) (w : W) : GachaApp * W * ending :=
  loop lines (foldl (λ a text, println text a) new banner) w.

(** ** The services behind the proxies *)

Context (fuel : nat) (pool : gmap Z (list string)) (gs : GachaService).
Context {DB : Type} {database : Db.Database DB}.

(** After requests of anybody, among them requests of this client whose answers were
    lost. *)
Definition later (v v' : world DB) : Prop := ∃ qs, v' = foldl (User.serve_one fuel pool gs) v qs.

(** A call of a method: a response is that of the method, run once between requests of
    others; after an exception the method may have run or not. *)
Definition performs {Resp} (m : world DB → world DB * Handler.outcome Resp) (v v' : world DB)
    (x : result throwable Resp) : Prop :=
  match x with
  | Ok resp => ∃ v1 v2, later v v1 ∧ m v1 = (v2, Return resp) ∧ later v2 v'
  | Err _ => later v v'
  end.

Class Services : Type := {
  view : W → world DB;
  register_performs r w :
    performs (λ v, User.Register v r) (view w) (view (register r w).1) (register r w).2;
  login_performs r w : performs (λ v, User.Login v r) (view w) (view (login r w).1) (login r w).2;
  logout_performs r w : performs (λ v, User.Logout v r) (view w) (view (logout r w).1) (logout r w).2;
  draw_performs r w :
    performs (λ v, Gacha.Draw fuel pool gs v r) (view w) (view (draw r w).1) (draw r w).2;
}.

(** ** Lemmas *)

Lemma int_of_i32 n z : int_of n = Some z → in_i32 z.
Proof.
  unfold int_of, in_i32. destruct (parseFloat n) as [[neg v]|]; [|done]. simpl. intros [= <-].
  destruct v; [lia|destruct neg; lia|lia].
Qed.

Lemma draw_count_i32 parts : in_i32 (draw_count parts).
Proof.
  unfold draw_count. destruct parts as [|c [|n parts]]; try (unfold in_i32; lia).
  destruct (int_of n) as [z|] eqn:E; [by eapply int_of_i32|unfold in_i32; simpl; lia].
Qed.

Lemma later_users v v' : later v v' → Db.users (w_db v) ⊆ Db.users (w_db v').
Proof. intros [qs ->]. apply User.history_users. Qed.

Lemma performs_users {Resp} (m : world DB → world DB * Handler.outcome Resp) q v v' x :
  (∀ v, (m v).1 = User.serve_one fuel pool gs v q) → performs m v v' x →
  Db.users (w_db v) ⊆ Db.users (w_db v').
Proof.
  intros Hm. destruct x as [resp|e]; simpl; [|apply later_users].
  intros (v1 & v2 & H1 & E & H2). etrans; [by apply later_users|].
  etrans; [apply (User.serve_one_users fuel pool gs v1 q)|]. rewrite <- Hm, E. by apply later_users.
Qed.

Lemma Login_Return v r v' resp :
  User.Login v r = (v', Return resp) → 0 < App.login_UserId resp →
  v' = v ∧ Db.users (w_db v) !! App.login_Name r =
    Some (App.login_UserId resp, Db.HashPassword (App.login_Password r)).
Proof.
  unfold User.Login. destruct (Db.select_user _ _ _) as [id|e] eqn:E; intros [= <- <-]; simpl; [|lia].
  intros _. split; [done|]. by apply Db.select_user_ok.
Qed.

(** ** Sessions *)

Definition account (us : gmap string (Z * string)) (id : Z) : Prop :=
  0 < id ∧ ∃ name hash, us !! name = Some (id, hash).

(** Who is signed in has the account of that name, and gave its password. *)
Definition signed_in (us : gmap string (Z * string)) (a : GachaApp) : Prop :=
  match currentUserName a with
  | None => currentUserId a = 0
  | Some name =>
    0 < currentUserId a ∧ ∃ password,
      User.QLogin (App.Build_LoginRequest name password) ∈ requests a ∧
      us !! name = Some (currentUserId a, Db.HashPassword password)
  end.

(** Cards are drawn, and accounts signed out, only for accounts that exist. *)
Definition request_ok (us : gmap string (Z * string)) (q : User.request) : Prop :=
  match q with
  | User.QDraw r => account us (App.draw_UserId r) ∧ in_i32 (App.draw_Count r)
  | User.QLogout r => account us (App.logout_UserId r)
  | _ => True
  end.

Definition session_ok (us : gmap string (Z * string)) (a : GachaApp) : Prop :=
  signed_in us a ∧ Forall (request_ok us) (requests a).

Lemma account_mono us us' id : us ⊆ us' → account us id → account us' id.
Proof. intros Hs [Hp (n & h & H)]. split; [done|]. exists n, h. by eapply lookup_weaken. Qed.

Lemma request_ok_mono us us' q : us ⊆ us' → request_ok us q → request_ok us' q.
Proof. destruct q; simpl; intuition eauto using account_mono. Qed.

Lemma session_ok_mono us us' a : us ⊆ us' → session_ok us a → session_ok us' a.
Proof.
  intros Hs [Hin Hr]. split.
  - unfold signed_in in *. destruct (currentUserName a) as [n|]; [|done].
    destruct Hin as [? (p & ? & H)]. split; [done|]. exists p. split; [done|]. by eapply lookup_weaken.
  - eapply Forall_impl; [exact Hr|]. intros q. by apply request_ok_mono.
Qed.

(** Printing changes nothing of this. *)
Lemma session_ok_print us text a : session_ok us a → session_ok us (print text a).
Proof. done. Qed.

Lemma session_ok_cards us cards : ∀ a,
  session_ok us a → session_ok us (foldl (λ a card, println (card_text card) a) a cards).
Proof. induction cards as [|c cards IH]; intros a H; [done|]. by apply IH. Qed.

Lemma session_ok_called us q a : session_ok us a → request_ok us q → session_ok us (called q a).
Proof.
  intros [Hin Hr] Hq. split; simpl.
  - unfold signed_in in *. simpl. destruct (currentUserName a); [|done].
    destruct Hin as [? (p & ? & ?)]. split; [done|]. exists p. split; [|done]. apply elem_of_app. auto.
  - apply Forall_app. auto.
Qed.

Lemma signed_in_account us a : signed_in us a → currentUserId a ≠ 0 → account us (currentUserId a).
Proof.
  unfold signed_in. destruct (currentUserName a); [|done]. intros [? (p & _ & ?)] _. split; eauto.
Qed.

Lemma session_ok_catch us e a : session_ok us a → session_ok us (catch e a).
Proof. by destruct e. Qed.

Context {services : Services}.

Definition users_of (w : W) : gmap string (Z * string) := Db.users (w_db (view w)).

Definition keeps (a : GachaApp) (w : W) (r : outcome) : Prop :=
  session_ok (users_of w) a → session_ok (users_of r.1.2) r.1.1.

Lemma cmdRegister_keeps parts a w : keeps a w (cmdRegister parts a w).
Proof.
  intros Ha. unfold cmdRegister. destruct (two_arguments parts) as [[n p]|]; [|done].
  set (req := App.Build_RegisterRequest n p).
  pose proof (performs_users _ (User.QRegister req) _ _ _ (λ v, eq_refl) (register_performs req w)) as Hu.
  apply (session_ok_called _ (User.QRegister req)) in Ha; [|done].
  destruct (register req w) as [w' [resp|e]]; simpl in *; by eapply session_ok_mono.
Qed.

Lemma cmdLogin_keeps parts a w : keeps a w (cmdLogin parts a w).
Proof.
  intros Ha. unfold cmdLogin. destruct (two_arguments parts) as [[n p]|]; [|done].
  set (req := App.Build_LoginRequest n p). pose proof (login_performs req w) as Hp.
  pose proof (performs_users _ (User.QLogin req) _ _ _ (λ v, eq_refl) Hp) as Hu.
  apply (session_ok_called _ (User.QLogin req)) in Ha; [|done].
  destruct (login req w) as [w' [resp|e]]; simpl in *; [|by eapply session_ok_mono].
  destruct (Z.ltb_spec 0 (App.login_UserId resp)); [|by eapply session_ok_mono].
  destruct Hp as (v1 & v2 & H1 & E & H2). apply Login_Return in E as [-> E]; [|done].
  destruct (session_ok_mono _ (users_of w') _ Hu Ha) as [_ Hr]. split; [|exact Hr].
  split; [done|]. exists p. split; [apply elem_of_app; right; by left|].
  eapply lookup_weaken; [exact E|]. by apply later_users.
Qed.

Lemma cmdDraw_keeps parts a w : keeps a w (cmdDraw parts a w).
Proof.
  intros Ha. unfold cmdDraw. destruct (Z.eqb_spec (currentUserId a) 0) as [|Hid]; [done|].
  set (req := App.Build_DrawRequest _ _).
  pose proof (performs_users _ (User.QDraw req) _ _ _ (λ v, eq_refl) (draw_performs req w)) as Hu.
  apply (session_ok_called _ (User.QDraw req)) in Ha as Ha'.
  - destruct (draw req w) as [w' [resp|e]]; simpl in *; [apply session_ok_cards|]; by eapply session_ok_mono.
  - split; [by apply signed_in_account; [apply Ha|]|apply draw_count_i32].
Qed.

Lemma cmdQuit_keeps a w : keeps a w (cmdQuit a w).1.
Proof.
  intros Ha. unfold cmdQuit. destruct (Z.ltb_spec 0 (currentUserId a)); [|done].
  set (req := App.Build_LogoutRequest _).
  pose proof (performs_users _ (User.QLogout req) _ _ _ (λ v, eq_refl) (logout_performs req w)) as Hu.
  apply (session_ok_called _ (User.QLogout req)) in Ha as Ha'.
  - destruct (logout req w) as [w' [resp|e]]; simpl in *; by eapply session_ok_mono.
  - apply signed_in_account; [apply Ha|lia].
Qed.

Lemma iteration_keeps line a w :
  session_ok (users_of w) a →
  let '(a', w', _) := iteration line a w in
  session_ok (users_of w') a'.
Proof.
  intros Ha. unfold iteration. destruct (String.eqb (trim line) ""); [done|].
  destruct (split_spaces (trim line)) as [|part parts]; [done|].
  assert (Hs : keeps (print (prompt a) a) w
    (switch (toLowerCase part) (part :: parts) (print (prompt a) a) w).1).
  { unfold switch. destruct (String.eqb _ "register"); [apply cmdRegister_keeps|].
    destruct (String.eqb _ "login"); [apply cmdLogin_keeps|].
    destruct (String.eqb _ "draw"); [apply cmdDraw_keeps|].
    destruct (String.eqb _ "quit"); [apply cmdQuit_keeps|by intros H]. }
  destruct (switch _ _ _ _) as [[[a' w'] [e|]] quit]; simpl in *;
    [by apply session_ok_catch, Hs|by apply Hs].
Qed.

Lemma loop_keeps lines : ∀ a w,
  session_ok (users_of w) a →
  let '(a', w', _) := loop lines a w in
  session_ok (users_of w') a'.
Proof.
  induction lines as [|line lines IH]; intros a w Ha; [done|]. simpl.
  pose proof (iteration_keeps line a w Ha) as H.
  destruct (iteration _ _ _) as [[a' w'] [e|]]; [done|by apply IH].
Qed.

Lemma loop_ends lines : ∀ a w, (loop lines a w).2 ≠ ArrayIndexOutOfBoundsException.
Proof.
  induction lines as [|line lines IH]; intros a w; [done|]. simpl. unfold iteration.
  destruct (String.eqb_spec (trim line) "") as [|Hne]; [apply IH|]. apply split_trim in Hne.
  destruct (split_spaces (trim line)) as [|part parts]; [done|].
  destruct (switch _ _ _ _) as [[[a' w'] [e|]] [|]]; try done; apply IH.
Qed.

(** ** Properties *)

(** C27: a session of the application.  Whatever is typed, and whatever fails or is done
    by others in between, the name in the prompt is that of an account whose password
    was typed, and the id the application keeps is that of this account; cards are
    drawn, and users signed out, only under ids of accounts that exist; the count sent
    fits an [int].  [run] ends only by [quit] or at the end of the input. *)
Theorem session_consistent (lines : list string) (w : W) :
  let '(a, w', e) := run lines w in
  session_ok (users_of w') a ∧ (e = Returned ∨ e = NoSuchElementException).
Proof.
  unfold run. set (a0 := foldl _ new banner).
  assert (H0 : session_ok (users_of w) a0) by (split; [done|constructor]).
  pose proof (loop_keeps lines a0 w H0) as H. pose proof (loop_ends lines a0 w) as He.
  destruct (loop lines a0 w) as [[a w'] e]. split; [done|]. destruct e; [by left|by right|done].
Qed.

End app.

(** ** [quit] *)

Section quit.
Context {W : Type}.
Context (register : App.RegisterRequest → W → W * result throwable App.RegisterResponse)
  (login : App.LoginRequest → W → W * result throwable App.LoginResponse)
  (logout : App.LogoutRequest → W → W * result throwable App.LogoutResponse)
  (draw : App.DrawRequest → W → W * result throwable App.DrawResponse)
  (toLowerCase : string → string) (nl : string) (printStackTrace : throwable → string).

Lemma cards_user cards : ∀ a : GachaApp,
  currentUserId (foldl (λ a card, println nl (card_text card) a) a cards) = currentUserId a.
Proof. induction cards as [|c cards IH]; intros a; [done|]. simpl. by rewrite IH. Qed.

(** [quit] needs the server.  While the user is signed in and every call of [logout]
    fails, no input makes [run] return: the exception is caught inside of the loop. *)
Theorem quit_needs_logout (lines : list string) (a : GachaApp) (w : W) :
  (∀ r w, ∃ e, (logout r w).2 = Err e) → 0 < currentUserId a →
  let '(a', _, e) := loop register login logout draw toLowerCase nl printStackTrace lines a w in
  e ≠ Returned ∧ 0 < currentUserId a'.
Proof.
  intros Hlogout. revert a w. induction lines as [|line lines IH]; intros a w Ha; [done|]. simpl.
  unfold iteration. destruct (String.eqb (trim line) ""); [by apply IH|].
  destruct (split_spaces (trim line)) as [|part parts]; [done|]. set (a1 := print (prompt a) a).
  assert (Hs : let '((a2, _, e), quit) :=
    switch register login logout draw nl (toLowerCase part) (part :: parts) a1 w in
    0 < currentUserId a2 ∧ (e = None → quit = false)).
  { unfold switch, cmdRegister, cmdLogin, cmdDraw, cmdQuit.
    repeat match goal with |- context [String.eqb ?x ?y] => destruct (String.eqb x y) end; try done.
    - destruct (two_arguments _) as [[n p]|]; [|done]. by destruct (register _ w) as [w' []].
    - destruct (two_arguments _) as [[n p]|]; [|done]. destruct (login _ w) as [w' [resp|]]; [|done].
      by destruct (Z.ltb_spec 0 (App.login_UserId resp)).
    - destruct (_ =? 0); [done|]. destruct (draw _ w) as [w' []]; [|done]. by rewrite cards_user.
    - destruct (Z.ltb_spec 0 (currentUserId a1)); [|simpl in *; lia].
      destruct (Hlogout (App.Build_LogoutRequest (currentUserId a1)) w) as [e E].
      destruct (logout _ w) as [w' x]. simpl in E. by subst x. }
  destruct (switch _ _ _ _ _ _ _ _ _) as [[[a2 w2] [e|]] quit]; destruct Hs as [H1 H2].
  - apply IH. by destruct e.
  - rewrite H2 by done. by apply IH.
Qed.

End quit.
(** ** A session against the services *)

Import RefDb Rand.

Section local.

(** The error of the method as the client gets it. *)
Definition answer {Resp} (x : world ref_db * Handler.outcome Resp)
    : world ref_db * result throwable Resp :=
  (x.1, match x.2 with
        | Return resp => Ok resp
        | Fail msg => Err (ServerException 500 msg)
        | Panic _ | Diverge => Err (RpcException (-1) "RPC call failed" None)
        end).

Context (fuel : nat) (pool : gmap Z (list string)) (gs : GachaService).

Lemma answer_performs {Resp} (m : world ref_db → world ref_db * Handler.outcome Resp) q v :
  (m v).1 = User.serve_one fuel pool gs v q →
  performs fuel pool gs m v (answer (m v)).1 (answer (m v)).2.
Proof.
  unfold answer, performs. destruct (m v) as [v' o] eqn:E. simpl. intros ->.
  destruct o as [resp| | |]; [|exists [q]; done..].
  exists v, (User.serve_one fuel pool gs v q). split_and!; [by exists []|done|by exists []].
Qed.

#[export] Program Instance local_services :
  Services (λ r w, answer (User.Register w r)) (λ r w, answer (User.Login w r))
    (λ r w, answer (User.Logout w r)) (λ r w, answer (Gacha.Draw fuel pool gs w r)) fuel pool gs
  := {| view := id |}.
Next Obligation. intros r w. exact (answer_performs (λ v, User.Register v r) (User.QRegister r) w eq_refl). Qed.
Next Obligation. intros r w. exact (answer_performs (λ v, User.Login v r) (User.QLogin r) w eq_refl). Qed.
Next Obligation. intros r w. exact (answer_performs (λ v, User.Logout v r) (User.QLogout r) w eq_refl). Qed.
Next Obligation. intros r w. exact (answer_performs (λ v, Gacha.Draw fuel pool gs v r) (User.QDraw r) w eq_refl). Qed.

End local.

Definition demo_pool : gmap Z (list string) := {[6 := ["能天使"]]}.

Definition demo_run (lines : list string) : GachaApp * world RefDb.ref_db * ending :=
  run (λ r w, answer (User.Register w r)) (λ r w, answer (User.Login w r))
    (λ r w, answer (User.Logout w r)) (λ r w, answer (Gacha.Draw 1 demo_pool {| instance := "G:1" |} w r))
    id "~" (λ _, "") lines User.demo_world.

Example demo_session :
  let '(a, w, e) := demo_run ["draw 2"; " register bob  123 "; "login bob 124"; "login bob 123";
                              "draw 2.5"; "draw 11"; "quit"; "draw"] in
  drop 6 (out a) =
  ["RPC Gacha > "; "  请先登录!~"; "RPC Gacha > "; "  注册成功! user_id=2~";
   "RPC Gacha > "; "  登录失败: sql: no rows in result set~"; "RPC Gacha > "; "  登录成功! 欢迎回来, bob~";
   "RPC Gacha: bob > "; "  ★★★★★★ 能天使~"; "  ★★★★★★ 能天使~";
   "RPC Gacha: bob > "; "  错误: 抽卡数量需在 1-10 之间，收到 11~";
   "RPC Gacha: bob > "; "再见~~"] ∧
  Db.cards (w_db w) = [(2, "能天使", 6); (2, "能天使", 6)] ∧ e = Returned.
Proof. vm_compute. auto. Qed.

Lemma session_consistent_witness :
  let '(a, w, e) := demo_run ["register bob 123"; "login bob 123"; "draw 2"] in
  session_ok (Db.users (w_db w)) a.
Proof.
  pose proof (session_consistent (λ r w, answer (User.Register w r)) (λ r w, answer (User.Login w r))
    (λ r w, answer (User.Logout w r)) (λ r w, answer (Gacha.Draw 1 demo_pool {| instance := "G:1" |} w r))
    id "~" (λ _, "") 1 demo_pool {| instance := "G:1" |}
    (services := local_services 1 demo_pool {| instance := "G:1" |})
    ["register bob 123"; "login bob 123"; "draw 2"] User.demo_world) as H.
  unfold demo_run. destruct (run _ _ _ _ _ _ _ _ _) as [[a w] e]. exact (proj1 H).
Defined.

Lemma quit_needs_logout_witness :
  (loop (W := unit) (λ _ w, (w, Err TimeoutException)) (λ _ w, (w, Err TimeoutException))
     (λ _ w, (w, Err TimeoutException)) (λ _ w, (w, Err TimeoutException)) id "~" (λ _, "")
     ["quit"; "QUIT"; "quit"] {| currentUserId := 2; currentUserName := Some "bob"; out := []; requests := [] |}
     tt).2 ≠ Returned.
Proof.
  pose proof (quit_needs_logout (W := unit) (λ _ w, (w, Err TimeoutException))
    (λ _ w, (w, Err TimeoutException)) (λ _ w, (w, Err TimeoutException))
    (λ _ w, (w, Err TimeoutException)) id "~" (λ _, "") ["quit"; "QUIT"; "quit"]
    {| currentUserId := 2; currentUserName := Some "bob"; out := []; requests := [] |} tt) as H.
  destruct (loop _ _ _ _ _ _ _ _ _ _) as [[a w] e]. apply H; [|reflexivity]. intros r w'. by eexists.
Defined.

End GachaApp.
